(* ===== verification/_CoqProject ===== *)
-Q . S2P
Prelude.v
Int128.v
Printf.v
PrintfFacts.v
PrintfText.v
StdString.v
Common.v
RlpSpec.v
VectorRef.v
RlpReader.v
RlpReaderFacts.v
RlpConvert.v
RlpSafety.v
BytesBuffer.v
HostRlp.v
RlpStream.v
RlpSize.v
Serialize.v
SerializeFacts.v
CppTypes.v
RlpValue.v
RlpUntrusted.v
HostState.v
Storage.v
DbMap.v
StorageType.v
DbArray.v
Bech32.v
FixedHash.v
Name.v
CrossCall.v
Dispatcher.v
Exchange.v
Print.v
Chain.v
Event.v
EventMacros.v
HelloContract.v
Authority.v
NormalIndex.v
IndexRing.v
NormalIndexFacts.v
MultiIndex.v
MultiIndexFacts.v
LinearMemory.v
SimpleMalloc.v
HeapMalloc.v
HeapMallocFacts.v
HeapClient.v
Abi.v
AbiFacts.v
AbiModule.v
Driver.v
DriverMain.v
Backend.v
