(* ===== verification/Prelude.v ===== *)
(** * PlatON-CDT contract library, verified

    PlatON-CDT is the toolkit for WebAssembly contracts of the PlatON chain. Its own
    logic is the C++ library linked into every contract,
    [src/libraries/platonlib]: contract input and persistent state are RLP data, the
    library serialises C++ values to RLP and back, dispatches calls to methods, keeps
    typed tables in the chain's key-value state and offers addresses, amounts, events and
    calls between contracts. Most of it is header templates under
    [src/libraries/platonlib/include/platon/]; the files named below are there unless a
    directory is given.

    ** How code is modelled

    A function is a function to [res] (below): a value, [Panic] or [Revert] where the
    code calls [platon_throw] or [platon_assert], [Undef] where C++ leaves the behaviour
    undefined, [Fuel] where a loop of the model used up its bound. Integers are [Z] with
    their wrap-around written out ([wrap], [swrap], [u32], [u64], [u128]; [size_t] has 32
    bits). Memory that views point into is a byte list and pointers are offsets
    ([VectorRef]). Objects are records; a method that changes its object returns the new
    one. A template over a serialisable type takes a [codec], the overloads the compiler
    would select. A variable declared without a value and read from the state ([read_state])
    has its default where its type gives one; where it gives none (a number) the use of the
    variable is undefined when nothing was stored. What the chain does is a parameter: the
    class [HostRLP] (the functions that encode RLP), [HostState] (the state), the sections
    of [CrossCall], [Exchange], [FixedHash], [Event] and [Chain]; [HostRLPLaws] and
    [HostStateLaws] state its documented behaviour and have concrete instances, which the
    witnesses run.

    ** Parts

    Bytes and RLP.
    - [Int128]: the routines of src/libraries/builtins the compiler calls for arithmetic on
      128-bit integers: shifts, product, division, checked arithmetic, comparisons, bit
      positions. They compute what the other files, in [Z], take for granted.
    - [Common]: common.h, hexadecimal text, big-endian integers.
    - [RlpSpec]: the RLP format as a specification; models no code.
    - [VectorRef]: vector_ref.h. [BytesBuffer]: bytes_buffer.hpp.
    - [RlpReader]: class RLP of RLP.h and src/RLP.cpp. [RlpReaderFacts], [RlpConvert]:
      what it returns on an encoding. [RlpSafety]: any bytes are read without leaving
      them and every loop ends; [RlpUntrusted], on top of [RlpValue] below: the same for
      every operation of the class and for [fetch], on every object a program can come by.
    - [HostRlp], [RlpStream]: class RLPStream; it refines a builder of nested lists.
    - [RlpSize]: rlp_size.hpp.
    - [Serialize], [SerializeFacts], [CppTypes]: rlp_extend.hpp, rlp_serialize.hpp; the
      class [CodecLaws] is what one type's serialisation promises to a container or a
      table; [CppTypes] closes it over a language of types. [RlpValue]: the other way to
      read a value, [RLP::convert<T>], for the same types; the comparisons of class RLP.

    State.
    - [HostState], [Storage]: storage.hpp; [Storage.table] is the abstract table a family
      of keys implements.
    - [DbMap]: db/map.hpp. [StorageType]: storagetype.hpp. [DbArray]: db/array.hpp. Each
      has an ideal object and a theorem that a session with the real one, flushed at its
      end, does what the ideal one does ([follows], also where that is undefined).
    - [NormalIndex]: the non-unique indices of db/multi_index.hpp. [IndexRing] is their
      specification (segments, the ring they form, what each change does to it);
      [NormalIndexFacts] proves that the functions keep one ascending list per value.
    - [MultiIndex]: the rest of db/multi_index.hpp, the table: its rows, the unique
      indices, the object with its cache of items (a store of cells, since iterators share
      them) and every operation on it. [MultiIndexFacts] proves that a table is a list of
      rows, for any row type, any list of indices and any sequence of operations, through
      iterators kept for as long as their rows exist;
      [lawful] is what an index's key type has to satisfy, [multi_inv] the invariant of an
      object, [table_state] what the state holds between transactions.

    Contracts.
    - [Bech32]: bech32.hpp. [FixedHash]: fixedhash.hpp. [Name]: name.hpp.
    - [CrossCall]: cross_call.hpp, create.hpp, destory.hpp. [Dispatcher]: dispatcher.hpp.
      [Dispatcher.remote_call] composes both sides of a call.
    - [Exchange]: exchange.hpp. [Print]: print.hpp, each argument as text and the line,
      which [Printf] hands to the log. [Chain]: chain_impl.hpp, with the assertions and
      panics of assert.hpp, panic.hpp and src/abort.cpp, which print through [Print].
    - [Event]: event.hpp, topics and data. [EventMacros]: its macros, as functions on
      lists of tokens.
    - [Authority]: authority.hpp, on top of [StorageType] and [FixedHash].
    - [HelloContract]: example/contract.cpp, a contract composed of the dispatcher, a
      persistent value, serialised classes and events; whole transactions, from the input
      a caller makes to the state, the log and the answer.

    Memory.
    - [LinearMemory]: WebAssembly's memory, what the allocators run on; models no file.
    - [SimpleMalloc]: malloc/simple_malloc.cpp, the allocator contracts are linked with;
      a program that keeps to its blocks sees variables with bytes of their own.
    - [HeapMalloc]: malloc/malloc.cpp, the allocator with reuse, which the build leaves out:
      [sbrk], the chunks (class buffer_ptr), a heap (class memory), the manager.
      [HeapMallocFacts] has the invariant ([heap_ok]: a heap is a chain of chunks;
      [manager_inv]: fresh, running or exhausted) and what each operation does to it;
      [HeapClient] the steps of a program as a relation: blocks apart, bytes kept, freed
      memory given out again, and where [realloc] goes wrong.

    The compiler (tools/platon-cpp).
    - [Abi]: MakeAbi, from the debug metadata of a module to the JSON objects of its ABI;
      fuel stands for the depth of the recursion over types. [AbiFacts]: the name of a type
      as a judgement on the metadata, the cache and the list of structs ([abi_inv]), enough
      fuel for every type with a name; [AbiModule]: annotations, parameters, the whole ABI,
      types that contain themselves.
    - [Driver]: parseArgs.cpp, the linker's command line, DisableFloat.cpp, RemoveAttrs.cpp.
      [DriverMain]: platon-cpp.cpp and PCCPass.cpp, the order of the steps; clang, LLVM and
      the file system are the class [Toolchain]. [Backend]: compileModule of Backend.cpp.

    The C and C++ libraries.
    - [Printf]: musl's src/stdio/platon_printf.c, the printf contracts are linked with, the
      output function as a parameter of every step; [%f] in binary64. [PrintfFacts]: a
      format and its arguments stand for one text ([text]), which every buffer receives cut
      to its size; the digits and the layout of numbers. [PrintfText]: formats as lists of
      pieces, the text the C standard gives them, where the code prints it and where not.
    - [StdString]: libc++'s [std::to_string] of integers, over [snprintf].

    ** What the theorems show

    Round trips: every value of every serialisable type is read back from what was
    written, by [fetch] and by [convert]; addresses, names of hashes, numbers as text.
    What each conversion makes of any RLP value, under all flags. Refinement: the stream,
    map, array, value, index, multi-index table, white list and memory blocks against ideal
    objects; a remote call against the method run directly; the transactions of a whole
    contract against a list and a log. Equivalence: the routines for 128-bit integers
    against the arithmetic of [Z]. Safety and termination of the
    reader on arbitrary bytes. Exact acceptance: which texts are addresses, which inputs
    the dispatcher refuses. Error behaviour, including defects of the code, which are
    stated as they are (a key erased and read again, an index searched for a number before
    its first, a row erased through an index that is not the last of its table, a row
    changed twice through one iterator, a signature of 256 bytes too many, a request for
    memory that wraps around or that the host refuses, a sign printed over a digit, a
    fraction rounded up without a carry).

    ** Bounds and fuel

    A loop whose end the source leaves to its data has fuel; each fuel is given where the
    loop is called and a theorem shows it is enough (or, for the search that does not
    end, that none is). Values are limited to encodings below [RLP_LIMIT], just under
    2^32 bytes, the address space; sequence numbers of an index to 2^63.

    ** Not modelled

    Pure declarations (chain.hpp, contract.hpp), the serialisation macros beyond the code
    they expand to, and what has no instance because it does not compile:
    [operator--] of the table's iterator in db/multi_index.hpp, the comparison of an RLP
    value with a hash, [operator++] of a hash. The order in which a [std::unordered_set]
    is iterated over.
    Outside platonlib: what tools/platon-cpp does with clang's, LLVM's and the linker's own
    classes, which are not in the repository, and the text it prints; tools/platon-test is
    Go; boost, the rest of libc++, of libc and of the
    builtins (floating point, atomics, narrower integers, population counts) are
    third-party code. *)

From Stdlib Require Export ZArith Lia.
From coqutil Require Export Z.bitblast.
From stdpp Require Export base numbers list gmap sets strings.

#[global] Set Default Proof Using "Type".

Declare Scope cdt_scope.
Delimit Scope cdt_scope with cdt.
#[global] Open Scope cdt_scope.
#[global] Open Scope Z_scope.

(** ** Results of guest code *)

(** What a piece of contract code does: it returns a value, it ends the
    transaction with [platon_panic] or [platon_revert], it does something C++
    leaves undefined, or (in the model only) a loop used up its fuel. *)
Inductive res (A : Type) : Type :=
| Ok (a : A)
| Panic (msg : string)
| Revert (msg : string)
| Undef (why : string)
| Fuel.

Arguments Ok {A} a.
Arguments Panic {A} msg%_string.
Arguments Revert {A} msg%_string.
Arguments Undef {A} why%_string.
Arguments Fuel {A}.

#[export] Instance res_ret : MRet res := fun A a => Ok a.

#[export] Instance res_bind : MBind res :=
  fun A B f x =>
    match x with
    | Ok a => f a
    | Panic m => Panic m
    | Revert m => Revert m
    | Undef w => Undef w
    | Fuel => Fuel
    end.

(** [internal::platon_throw]: logs (debug builds) and calls [platon_panic],
    which terminates the transaction. *)
Definition platon_throw {A} (msg : string) : res A := Panic msg.

(** [platon_assert(cond, ...)]: [platon_revert] when the condition fails. *)
Definition platon_assert (cond : bool) (msg : string) : res unit :=
  if cond then Ok tt else Revert msg.

(** The result is a value, a panic or a revert: neither undefined behaviour nor
    a loop that the fuel cut short. *)
Definition defined {A} (x : res A) : Prop :=
  match x with Undef _ | Fuel => False | _ => True end.

Lemma bind_ok {A B} (x : res A) (f : A -> res B) b :
  (x ≫= f) = Ok b <-> exists a, x = Ok a /\ f a = Ok b.
Proof. destruct x; simpl; naive_solver. Qed.

Lemma bind_defined {A B} (x : res A) (f : A -> res B) :
  defined x -> (forall a, x = Ok a -> defined (f a)) -> defined (x ≫= f).
Proof. destruct x; simpl; naive_solver. Qed.

(** The computation [y] does what the specification [x] says: a result related to the
    specified one, or the same failure. *)
Definition follows {A B} (R : A -> B -> Prop) (x : res A) (y : res B) : Prop :=
  match x with
  | Ok a => exists b, y = Ok b /\ R a b
  | Panic m => y = Panic m
  | Revert m => y = Revert m
  | Undef m => y = Undef m
  | Fuel => False
  end.

Lemma follows_ok {A B} (R : A -> B -> Prop) a b : R a b -> follows R (Ok a) (Ok b).
Proof. intros HR. by exists b. Qed.

Lemma follows_bind {A B C D} (R : A -> B -> Prop) (Q : C -> D -> Prop) x y f g :
  follows R x y -> (forall a b, R a b -> follows Q (f a) (g b)) -> follows Q (x ≫= f) (y ≫= g).
Proof.
  intros HX HF. destruct x; cbn in HX |- *; [| by rewrite HX .. | done].
  destruct HX as (b & -> & HR). cbn. by apply HF.
Qed.

(** Runs the left-to-right bind of a known prefix of steps. *)
Ltac step_ok :=
  repeat match goal with
  | H : ?x = Ok _ |- context [?x ≫= _] => rewrite H; simpl
  end.

(** Breaks a hypothesis [_ = Ok _] on a chain of binds into its steps. *)
Ltac inv_ok :=
  repeat match goal with
  | H : (_ ≫= _) = Ok _ |- _ =>
      apply bind_ok in H; destruct H as (? & ? & H)
  | H : Ok _ = Ok _ |- _ => injection H; clear H; intros; subst
  | H : Panic _ = Ok _ |- _ => discriminate H
  | H : platon_throw _ = Ok _ |- _ => discriminate H
  | H : Revert _ = Ok _ |- _ => discriminate H
  | H : Undef _ = Ok _ |- _ => discriminate H
  | H : Fuel = Ok _ |- _ => discriminate H
  | H : mret _ = Ok _ |- _ => injection H; clear H; intros; subst
  end.

(** Splits the first boolean test of the goal. *)
Ltac case_bool :=
  match goal with
  | |- context [if ?b then _ else _] => destruct b eqn:?
  end.

(** Decides the integer comparisons of the goal one by one, dropping the cases
    that contradict the context; [cmp_lia] then calls [lia]. *)
Ltac cmp_step :=
  match goal with
  | |- context [?a <=? ?b] => destruct (Z.leb_spec a b)
  | |- context [?a <? ?b] => destruct (Z.ltb_spec a b)
  | |- context [?a =? ?b] => destruct (Z.eqb_spec a b)
  end; try (exfalso; lia).
Ltac cmp := repeat cmp_step.
Ltac cmp_lia := cmp; simpl; try lia.

(** Turns boolean comparisons of the context into propositions. *)
Ltac bool_hyps :=
  repeat match goal with
  | H : (_ && _) = true |- _ => apply andb_prop in H; destruct H
  | H : (_ || _) = false |- _ => apply orb_false_elim in H; destruct H
  | H : negb _ = true |- _ => apply negb_true_iff in H
  | H : negb _ = false |- _ => apply negb_false_iff in H
  | H : (_ <? _) = true |- _ => apply Z.ltb_lt in H
  | H : (_ <? _) = false |- _ => apply Z.ltb_ge in H
  | H : (_ <=? _) = true |- _ => apply Z.leb_le in H
  | H : (_ <=? _) = false |- _ => apply Z.leb_gt in H
  | H : (_ =? _) = true |- _ => apply Z.eqb_eq in H
  | H : (_ =? _) = false |- _ => apply Z.eqb_neq in H
  | H : bool_decide _ = true |- _ => apply bool_decide_eq_true in H
  | H : bool_decide _ = false |- _ => apply bool_decide_eq_false in H
  end.

(** ** Machine integers *)

(** The guest is wasm32: [size_t] and [unsigned] have 32 bits. *)
Definition wrap (w z : Z) : Z := z mod 2 ^ w.
Definition swrap (w z : Z) : Z := (z + 2 ^ (w - 1)) mod 2 ^ w - 2 ^ (w - 1).

Abbreviation u8 := (wrap 8) (only parsing).
Abbreviation u32 := (wrap 32) (only parsing).
Abbreviation u64 := (wrap 64) (only parsing).
Abbreviation u128 := (wrap 128) (only parsing).

Definition SIZE_MAX : Z := 2 ^ 32 - 1.

Lemma wrap_small w z : 0 <= z < 2 ^ w -> wrap w z = z.
Proof. apply Z.mod_small. Qed.

Lemma wrap_range w z : 0 <= w -> 0 <= wrap w z < 2 ^ w.
Proof. intros. apply Z.mod_pos_bound. lia. Qed.

Lemma swrap_range w z : 0 < w -> - 2 ^ (w - 1) <= swrap w z < 2 ^ (w - 1).
Proof.
  intros Hw. unfold swrap.
  assert (2 ^ w = 2 * 2 ^ (w - 1)) as E
    by (rewrite <- Z.pow_succ_r by lia; f_equal; lia).
  pose proof (Z.mod_pos_bound (z + 2 ^ (w - 1)) (2 ^ w)). lia.
Qed.

Lemma swrap_small w z : 0 < w -> - 2 ^ (w - 1) <= z < 2 ^ (w - 1) -> swrap w z = z.
Proof.
  intros Hw Hz. unfold swrap.
  assert (2 ^ w = 2 * 2 ^ (w - 1)) as E
    by (rewrite <- Z.pow_succ_r by lia; f_equal; lia).
  rewrite Z.mod_small by lia. lia.
Qed.

Lemma wrap_wrap w v z : 0 <= w <= v -> wrap w (wrap v z) = wrap w z.
Proof.
  intros H. unfold wrap. symmetry.
  rewrite <- (Z.mod_mod_divide z (2 ^ v) (2 ^ w)); [done |].
  exists (2 ^ (v - w)). rewrite <- Z.pow_add_r by lia. f_equal; lia.
Qed.

Lemma wrap_add_l w a b : 0 <= w -> wrap w (wrap w a + b) = wrap w (a + b).
Proof. intros. unfold wrap. apply Z.add_mod_idemp_l. lia. Qed.

Lemma wrap_add_r w a b : 0 <= w -> wrap w (a + wrap w b) = wrap w (a + b).
Proof. intros. unfold wrap. apply Z.add_mod_idemp_r. lia. Qed.

Lemma land_ones_wrap w z : 0 <= w -> Z.land z (Z.ones w) = wrap w z.
Proof. intros. apply Z.land_ones. lia. Qed.

Create Rewrite HintDb word.
#[export] Hint Rewrite wrap_small swrap_small using lia : word.

(** ** Bytes *)

Abbreviation bytes := (list Z).

(** A byte is an integer below 256; [bytes_ok] is the type invariant of a byte
    buffer. *)
Definition is_byte (b : Z) : Prop := 0 <= b < 256.
Definition bytes_ok (l : bytes) : Prop := Forall is_byte l.

#[export] Instance is_byte_dec b : Decision (is_byte b).
Proof. unfold is_byte. apply _. Defined.
#[export] Instance bytes_ok_dec l : Decision (bytes_ok l).
Proof. unfold bytes_ok. apply _. Defined.

Abbreviation len l := (Z.of_nat (length l)).

(** ** Lists indexed by integers *)

Definition zget {A} (l : list A) (i : Z) : option A :=
  if i <? 0 then None else l !! Z.to_nat i.

Definition ztake {A} (n : Z) (l : list A) : list A := take (Z.to_nat n) l.
Definition zdrop {A} (n : Z) (l : list A) : list A := drop (Z.to_nat n) l.

(** The [n] elements from index [p] on. *)
Definition slice {A} (l : list A) (p n : Z) : list A := ztake n (zdrop p l).

Create Rewrite HintDb len.
#[export] Hint Rewrite @length_app @length_take @length_drop @length_replicate
  @length_insert @length_fmap @length_reverse @length_nil @length_cons : len.

Ltac len_lia := autorewrite with len in *; simpl length in *; lia.

Lemma len_ztake {A} n (l : list A) : 0 <= n <= len l -> len (ztake n l) = n.
Proof. intros. unfold ztake. len_lia. Qed.

Lemma len_zdrop {A} n (l : list A) : 0 <= n <= len l -> len (zdrop n l) = len l - n.
Proof. intros. unfold zdrop. len_lia. Qed.

Lemma len_slice {A} (l : list A) p n :
  0 <= p -> 0 <= n -> p + n <= len l -> len (slice l p n) = n.
Proof. intros. unfold slice. apply len_ztake. rewrite len_zdrop; lia. Qed.

Lemma ztake_app_exact {A} n (l k : list A) : n = len l -> ztake n (l ++ k) = l.
Proof. intros ->. unfold ztake. rewrite Nat2Z.id. apply take_app_length. Qed.

Lemma zdrop_app_exact {A} n (l k : list A) : n = len l -> zdrop n (l ++ k) = k.
Proof. intros ->. unfold zdrop. rewrite Nat2Z.id. apply drop_app_length. Qed.

Lemma ztake_all {A} n (l : list A) : len l <= n -> ztake n l = l.
Proof. intros. unfold ztake. apply take_ge. lia. Qed.

Lemma ztake_0 {A} (l : list A) : ztake 0 l = [].
Proof. done. Qed.

Lemma zdrop_0 {A} (l : list A) : zdrop 0 l = l.
Proof. done. Qed.

Lemma zdrop_all {A} n (l : list A) : len l <= n -> zdrop n l = [].
Proof. intros. unfold zdrop. apply drop_ge. lia. Qed.

Lemma zdrop_zdrop {A} n m (l : list A) :
  0 <= n -> 0 <= m -> zdrop n (zdrop m l) = zdrop (m + n) l.
Proof. intros. unfold zdrop. rewrite drop_drop. f_equal. lia. Qed.

Lemma zdrop_ztake {A} n m (l : list A) :
  0 <= m -> 0 <= n -> zdrop m (ztake (m + n) l) = ztake n (zdrop m l).
Proof.
  intros. unfold zdrop, ztake. rewrite take_drop_commute. f_equal. f_equal. lia.
Qed.

Lemma ztake_ztake {A} n m (l : list A) :
  0 <= n <= m -> ztake n (ztake m l) = ztake n l.
Proof. intros. unfold ztake. rewrite take_take. f_equal. lia. Qed.

Lemma ztake_zdrop {A} n (l : list A) : ztake n l ++ zdrop n l = l.
Proof. unfold ztake, zdrop. apply take_drop. Qed.

Lemma slice_app_exact {A} (a b c : list A) p n :
  p = len a -> n = len b -> slice (a ++ b ++ c) p n = b.
Proof.
  intros. unfold slice. rewrite zdrop_app_exact by done. by apply ztake_app_exact.
Qed.

(** A slice of a slice. *)
Lemma slice_slice {A} (l : list A) p n q m :
  0 <= p -> 0 <= q -> 0 <= m -> q + m <= n ->
  slice (slice l p n) q m = slice l (p + q) m.
Proof.
  intros. unfold slice.
  replace n with (q + (n - q)) by lia. rewrite zdrop_ztake by lia.
  rewrite ztake_ztake by lia. by rewrite zdrop_zdrop by lia.
Qed.

Lemma slice_ztake {A} (l : list A) p n m :
  0 <= n -> 0 <= m -> slice l p (Z.min m n) = ztake m (slice l p n).
Proof. intros. unfold slice, ztake. rewrite take_take. f_equal. lia. Qed.

Lemma zget_some {A} (l : list A) i x : zget l i = Some x -> 0 <= i < len l.
Proof.
  unfold zget. case_bool; [done |]. bool_hyps. intros H%lookup_lt_Some. lia.
Qed.

Lemma zget_in {A} (l : list A) i : 0 <= i < len l -> exists x, zget l i = Some x.
Proof.
  intros H. unfold zget. case_bool; bool_hyps; [lia |].
  apply lookup_lt_is_Some. lia.
Qed.

Lemma zget_slice {A} (l : list A) p n i :
  0 <= p -> 0 <= i < n -> zget (slice l p n) i = zget l (p + i).
Proof.
  intros. unfold zget, slice, ztake, zdrop.
  destruct (Z.ltb_spec i 0); [lia |]. destruct (Z.ltb_spec (p + i) 0); [lia |].
  rewrite lookup_take_lt by lia. rewrite lookup_drop. f_equal. lia.
Qed.

Lemma zget_app_l {A} (l k : list A) i : i < len l -> zget (l ++ k) i = zget l i.
Proof. intros. unfold zget. case_bool; [done |]. bool_hyps. apply lookup_app_l. lia. Qed.

Lemma zget_app_r {A} (l k : list A) i :
  len l <= i -> zget (l ++ k) i = zget k (i - len l).
Proof.
  intros. unfold zget. destruct (Z.ltb_spec i 0); [lia |].
  destruct (Z.ltb_spec (i - len l) 0); [lia |].
  rewrite lookup_app_r by lia. f_equal. lia.
Qed.

Lemma zget_cons_0 {A} (x : A) l : zget (x :: l) 0 = Some x.
Proof. done. Qed.

Lemma zget_cons_pos {A} (x : A) l i : 0 < i -> zget (x :: l) i = zget l (i - 1).
Proof.
  intros. change (x :: l) with ([x] ++ l). rewrite zget_app_r by (simpl; lia). done.
Qed.

Lemma bytes_ok_app a b : bytes_ok (a ++ b) <-> bytes_ok a /\ bytes_ok b.
Proof. apply Forall_app. Qed.

Lemma bytes_ok_nil : bytes_ok [].
Proof. constructor. Qed.

Lemma bytes_ok_cons b l : bytes_ok (b :: l) <-> is_byte b /\ bytes_ok l.
Proof. apply Forall_cons. Qed.

Lemma bytes_ok_snoc l b : bytes_ok (l ++ [b]) <-> bytes_ok l /\ is_byte b.
Proof. rewrite bytes_ok_app, bytes_ok_cons. pose proof bytes_ok_nil. naive_solver. Qed.

Lemma bytes_ok_slice l p n : bytes_ok l -> bytes_ok (slice l p n).
Proof. intros. by apply Forall_take, Forall_drop. Qed.

Lemma bytes_ok_zget l i b : bytes_ok l -> zget l i = Some b -> is_byte b.
Proof.
  unfold bytes_ok, zget. intros H. case_bool; [done |]. by apply Forall_lookup_1.
Qed.

#[export] Hint Resolve bytes_ok_nil bytes_ok_slice bytes_ok_zget : core.

(** ** Bit operations *)

Lemma testbit_above n w i : 0 <= w <= i -> 0 <= n < 2 ^ w -> Z.testbit n i = false.
Proof.
  intros Hi Hn. rewrite <- (Z.mod_small n (2 ^ w)) by done.
  by apply Z.mod_pow2_bits_high.
Qed.

Lemma land_shiftl_small a b n :
  0 <= n -> 0 <= b < 2 ^ n -> Z.land (Z.shiftl a n) b = 0.
Proof.
  intros Hn Hb. apply Z.bits_inj'. intros i Hi.
  rewrite Z.land_spec, Z.shiftl_spec, Z.testbit_0_l by lia.
  destruct (Z.lt_ge_cases i n).
  - by rewrite Z.testbit_neg_r by lia.
  - rewrite (testbit_above b n) by lia. apply andb_false_r.
Qed.

(** Shifting in the low [n] bits is adding them. *)
Lemma lor_shiftl_add a b n :
  0 <= n -> 0 <= b < 2 ^ n -> Z.lor (Z.shiftl a n) b = a * 2 ^ n + b.
Proof.
  intros Hn Hb. rewrite Z.or_to_plus by by apply land_shiftl_small.
  by rewrite Z.shiftl_mul_pow2.
Qed.

Lemma lxor_range a b w :
  0 <= w -> 0 <= a < 2 ^ w -> 0 <= b < 2 ^ w -> 0 <= Z.lxor a b < 2 ^ w.
Proof.
  intros Hw Ha Hb. assert (0 <= Z.lxor a b) by (apply Z.lxor_nonneg; lia).
  split; [done |]. rewrite <- (Z.mod_small a (2 ^ w)), <- (Z.mod_small b (2 ^ w)) by lia.
  rewrite <- !Z.land_ones by lia.
  assert (Z.lxor (Z.land a (Z.ones w)) (Z.land b (Z.ones w))
          = Z.land (Z.lxor a b) (Z.ones w)) as ->.
  { apply Z.bits_inj'. intros i ?. rewrite !Z.lxor_spec, !Z.land_spec, Z.lxor_spec.
    by destruct (Z.testbit a i), (Z.testbit b i), (Z.testbit (Z.ones w) i). }
  rewrite Z.land_ones by lia. apply Z.mod_pos_bound. lia.
Qed.

Lemma land_range a w n : 0 <= w -> 0 <= a -> 0 <= n < 2 ^ w -> 0 <= Z.land a n < 2 ^ w.
Proof.
  intros Hw Ha Hn. split; [apply Z.land_nonneg; lia |].
  destruct (Z.eq_dec (Z.land a n) 0) as [-> |]; [lia |].
  assert (0 <= Z.land a n) by (apply Z.land_nonneg; lia).
  apply Z.log2_lt_pow2; [lia |]. eapply Z.le_lt_trans; [apply Z.log2_land; lia |].
  assert (n <> 0) by (intros ->; rewrite Z.land_0_r in *; lia).
  assert (Z.log2 n < w) by (apply Z.log2_lt_pow2; lia). lia.
Qed.

(** Flipping the low [w] bits. *)
Lemma lxor_ones a w : 0 <= w -> 0 <= a < 2 ^ w -> Z.lxor a (Z.ones w) = 2 ^ w - 1 - a.
Proof.
  intros Hw Ha. assert (Z.lxor a (Z.ones w) = Z.land (Z.lnot a) (Z.ones w)) as ->.
  { apply Z.bits_inj'. intros i Hi. rewrite Z.lxor_spec, Z.land_spec, Z.lnot_spec by lia.
    destruct (Z.lt_ge_cases i w).
    - rewrite Z.ones_spec_low by lia. by destruct (Z.testbit a i).
    - rewrite Z.ones_spec_high by lia. rewrite (testbit_above a w) by lia. done. }
  rewrite Z.land_ones by lia. unfold Z.lnot.
  symmetry. apply Z.mod_unique with (-1); lia.
Qed.

Lemma shiftr_div a n : 0 <= n -> Z.shiftr a n = a / 2 ^ n.
Proof. apply Z.shiftr_div_pow2. Qed.

Lemma land_255 a : Z.land a 255 = a mod 256.
Proof. apply (Z.land_ones a 8). lia. Qed.

Lemma land_1 a : Z.land a 1 = a mod 2.
Proof. apply (Z.land_ones a 1). lia. Qed.

Lemma land_15 a : Z.land a 15 = a mod 16.
Proof. apply (Z.land_ones a 4). lia. Qed.
