(* ===== verification/Int128.v ===== *)
(** * builtins: the arithmetic of 128-bit integers

    WebAssembly has no 128-bit integers: every operation of a contract on [u128] or
    [int128_t] - amounts, numbers on the wire, their texts - is a call of the routines of
    [src/libraries/builtins], on two 64-bit halves. The other files compute with [Z]; here
    the routines are modelled and shown to compute the same. *)

From S2P Require Import Prelude.

(** ** Definitions *)

(** *** The operations of C *)

(** A shift of a 64-bit number by an amount outside 0..63 is undefined. A signed word that
    is negative moves to the left as its two's complement does. *)
Definition shl64 (x k : Z) : res Z :=
  if (0 <=? k) && (k <? 64) then Ok (u64 (Z.shiftl x k)) else Undef "shift amount".
Definition shr64 (x k : Z) : res Z :=
  if (0 <=? k) && (k <? 64) then Ok (Z.shiftr x k) else Undef "shift amount".

Definition div64 (x y : Z) : res Z := if y =? 0 then Undef "division by zero" else Ok (x / y).
Definition rem64 (x y : Z) : res Z := if y =? 0 then Undef "division by zero" else Ok (x mod y).

(** The zeros in front of a 64-bit number, and behind it: undefined for 0. *)
Definition builtin_clzll (x : Z) : res Z := if x =? 0 then Undef "clzll" else Ok (63 - Z.log2 x).
Definition builtin_ctzll (x : Z) : res Z :=
  if x =? 0 then Undef "ctzll" else Ok (Z.log2 (Z.land x (Z.opp x))).

(** The difference of two numbers of type [ti_int]. *)
Definition sub_ti (x y : Z) : res Z :=
  if (- 2 ^ 127 <=? x - y) && (x - y <? 2 ^ 127) then Ok (x - y) else Undef "signed overflow".

(** *** Halves: [utwords] and [twords], a 128-bit number and its two words *)

(** The upper word is signed or not as the number is. *)
Definition word_high (all : Z) : Z := Z.shiftr all 64.
Definition word_low (all : Z) : Z := u64 all.
Definition word_all (high low : Z) : Z := Z.lor (Z.shiftl high 64) low.

(** *** Shifts, for 0 <= b < 128 *)

Definition ashlti3 (a b : Z) : res Z :=
  let low := word_low a in
  let high := word_high a in
  if negb (Z.land b 64 =? 0) then
    h ← shl64 low (b - 64); Ok (word_all (swrap 64 h) 0)
  else if b =? 0 then Ok a
  else
    l ← shl64 low b;
    h1 ← shl64 high b;
    h2 ← shr64 low (64 - b);
    Ok (word_all (swrap 64 (Z.lor h1 h2)) l).

Definition lshrti3 (a b : Z) : res Z :=
  let low := word_low a in
  let high := word_high a in
  if negb (Z.land b 64 =? 0) then
    l ← shr64 high (b - 64); Ok (word_all 0 l)
  else if b =? 0 then Ok a
  else
    h ← shr64 high b;
    l1 ← shl64 high (64 - b);
    l2 ← shr64 low b;
    Ok (word_all h (Z.lor l1 l2)).

Definition ashrti3 (a b : Z) : res Z :=
  let low := word_low a in
  let high := word_high a in
  if negb (Z.land b 64 =? 0) then
    h ← shr64 high 63;
    l ← shr64 high (b - 64);
    Ok (word_all h (u64 l))
  else if b =? 0 then Ok a
  else
    h ← shr64 high b;
    l1 ← shl64 high (64 - b);
    l2 ← shr64 low b;
    Ok (word_all h (Z.lor l1 l2)).

(** *** Product *)

(** [__mulddi3]: the halves of the product of two 64-bit numbers, from products of
    32-bit halves. *)
Definition mulddi3 (a b : Z) : Z * Z :=
  let lower_mask := 2 ^ 32 - 1 in
  let low := u64 (Z.land a lower_mask * Z.land b lower_mask) in
  let t := Z.shiftr low 32 in
  let low := Z.land low lower_mask in
  let t := u64 (t + u64 (Z.shiftr a 32 * Z.land b lower_mask)) in
  let low := u64 (low + u64 (Z.shiftl (Z.land t lower_mask) 32)) in
  let high := swrap 64 (Z.shiftr t 32) in
  let t := Z.shiftr low 32 in
  let low := Z.land low lower_mask in
  let t := u64 (t + u64 (Z.shiftr b 32 * Z.land a lower_mask)) in
  let low := u64 (low + u64 (Z.shiftl (Z.land t lower_mask) 32)) in
  let high := swrap 64 (high + Z.shiftr t 32) in
  let high := swrap 64 (high + u64 (Z.shiftr a 32 * Z.shiftr b 32)) in
  (high, low).

Definition multi3 (a b : Z) : Z :=
  let '(high, low) := mulddi3 (word_low a) (word_low b) in
  let high := swrap 64 (high + u64 (word_high a * word_low b + word_low a * word_high b)) in
  word_all high low.

(** *** Quotient and remainder *)

(** One turn of the loop: the 256-bit register r:q moves left by one bit with [carry]
    behind, then [d] is subtracted from r if it fits, without a branch. *)
Definition div_step (d r q carry : Z) : res (Z * Z * Z) :=
  let rh := word_high r in let rl := word_low r in
  let qh := word_high q in let ql := word_low q in
  let rh' := Z.lor (u64 (Z.shiftl rh 1)) (Z.shiftr rl 63) in
  let rl' := Z.lor (u64 (Z.shiftl rl 1)) (Z.shiftr qh 63) in
  let qh' := Z.lor (u64 (Z.shiftl qh 1)) (Z.shiftr ql 63) in
  let ql' := Z.lor (u64 (Z.shiftl ql 1)) carry in
  let r' := word_all rh' rl' in
  let s := Z.shiftr (swrap 128 (u128 (u128 (d - r') - 1))) 127 in
  Ok (u128 (r' - Z.land d (u128 s)), word_all qh' ql', Z.land s 1).

Fixpoint div_loop (sr : nat) (d r q carry : Z) : res (Z * Z) :=
  match sr with
  | O => Ok (Z.lor (u128 (Z.shiftl q 1)) carry, r)
  | S sr' => '(r', q', carry') ← div_step d r q carry; div_loop sr' d r' q' carry'
  end.

(** The registers before the loop: q = n << (128 - sr) and r = n >> sr, word by word. *)
Definition registers (nh nl sr : Z) : res (Z * Z) :=
  if sr =? 64 then Ok (word_all 0 nh, word_all nl 0)
  else if sr <? 64 then
    qh ← shl64 nl (64 - sr);
    rh ← shr64 nh sr;
    rl1 ← shl64 nh (64 - sr);
    rl2 ← shr64 nl sr;
    Ok (word_all rh (Z.lor rl1 rl2), word_all qh 0)
  else
    ql ← shl64 nl (128 - sr);
    qh1 ← shl64 nh (128 - sr);
    qh2 ← shr64 nl (sr - 64);
    rl ← shr64 nh (sr - 64);
    Ok (word_all 0 rl, word_all (Z.lor qh1 qh2) ql).

Definition divide (nh nl d sr : Z) : res (Z * Z) :=
  '(r, q) ← registers nh nl sr; div_loop (Z.to_nat sr) d r q 0.

(** The quotient, and the remainder stored through [rem] where it is not null. [sr] is
    [unsigned]: a negative difference of leading zeros is a large number. *)
Definition udivmodti4 (a b : Z) : res (Z * Z) :=
  let nh := word_high a in let nl := word_low a in
  let dh := word_high b in let dl := word_low b in
  if nh =? 0 then
    if dh =? 0 then r ← rem64 nl dl; q ← div64 nl dl; Ok (q, r)
    else Ok (0, nl)
  else if dl =? 0 then
    if dh =? 0 then r ← rem64 nh dl; q ← div64 nh dl; Ok (q, r)
    else if nl =? 0 then
      rh ← rem64 nh dh; q ← div64 nh dh; Ok (q, word_all rh 0)
    else if Z.land dh (u64 (dh - 1)) =? 0 then
      k ← builtin_ctzll dh;
      q ← shr64 nh k;
      Ok (q, word_all (Z.land nh (u64 (dh - 1))) nl)
    else
      cd ← builtin_clzll dh;
      cn ← builtin_clzll nh;
      let sr := u32 (cd - cn) in
      if 62 <? sr then Ok (0, a) else divide nh nl b (u32 (sr + 1))
  else if dh =? 0 then
    if Z.land dl (u64 (dl - 1)) =? 0 then
      let rem := Z.land nl (u64 (dl - 1)) in
      if dl =? 1 then Ok (a, rem)
      else
        sr ← builtin_ctzll dl;
        qh ← shr64 nh sr;
        ql1 ← shl64 nh (64 - sr);
        ql2 ← shr64 nl sr;
        Ok (word_all qh (Z.lor ql1 ql2), rem)
    else
      cd ← builtin_clzll dl;
      cn ← builtin_clzll nh;
      divide nh nl b (u32 (1 + 64 + cd - cn))
  else
    cd ← builtin_clzll dh;
    cn ← builtin_clzll nh;
    let sr := u32 (cd - cn) in
    if 63 <? sr then Ok (0, a) else divide nh nl b (u32 (sr + 1)).

Definition udivti3 (a b : Z) : res Z := '(q, _) ← udivmodti4 a b; Ok q.
Definition umodti3 (a b : Z) : res Z := '(_, r) ← udivmodti4 a b; Ok r.

(** [(a ^ s) - s]: negated if [s] is -1. *)
Definition negate_if (s a : Z) : res Z := sub_ti (Z.lxor a s) s.

Definition divti3 (a b : Z) : res Z :=
  let s_a := Z.shiftr a 127 in
  let s_b := Z.shiftr b 127 in
  a' ← negate_if s_a a;
  b' ← negate_if s_b b;
  let s := Z.lxor s_a s_b in
  '(q, _) ← udivmodti4 a' b';
  Ok (swrap 128 (u128 (u128 (Z.lxor q (u128 s)) - u128 s))).

Definition modti3 (a b : Z) : res Z :=
  b' ← negate_if (Z.shiftr b 127) b;
  let s := Z.shiftr a 127 in
  a' ← negate_if s a;
  '(_, r) ← udivmodti4 a' b';
  negate_if s (swrap 128 r).

(** *** Comparisons: 0, 1 or 2 *)

Definition ucmpti2 (a b : Z) : Z :=
  if word_high a <? word_high b then 0
  else if word_high b <? word_high a then 2
  else if word_low a <? word_low b then 0
  else if word_low b <? word_low a then 2
  else 1.

Definition cmpti2 (a b : Z) : Z :=
  if word_high a <? word_high b then 0
  else if word_high b <? word_high a then 2
  else if word_low a <? word_low b then 0
  else if word_low b <? word_low a then 2
  else 1.

(** *** Zeros in front and behind, and the first bit *)

(** [f] is all ones where the upper word is zero: the lower one is taken instead. *)
Definition clzti2 (a : Z) : res Z :=
  let h := word_high a in
  let f := if h =? 0 then -1 else 0 in
  n ← builtin_clzll (u64 (Z.lor (Z.land h (Z.lnot f)) (Z.land (word_low a) f)));
  Ok (n + Z.land f 64).

Definition ctzti2 (a : Z) : res Z :=
  let l := word_low a in
  let f := if l =? 0 then -1 else 0 in
  n ← builtin_ctzll (u64 (Z.lor (Z.land (word_high a) f) (Z.land l (Z.lnot f))));
  Ok (n + Z.land f 64).

Definition ffsti2 (a : Z) : res Z :=
  let l := word_low a in let h := word_high a in
  if l =? 0 then
    if h =? 0 then Ok 0 else n ← builtin_ctzll (u64 h); Ok (n + (1 + 64))
  else n ← builtin_ctzll l; Ok (n + 1).

(** *** Arithmetic that stops on overflow *)

(** [compilerrt_abort]. *)
Definition compilerrt_abort {A} : res A := Panic "abort".

Definition MIN : Z := - 2 ^ 127.
Definition MAX : Z := Z.lnot MIN.

Definition absvti2 (a : Z) : res Z :=
  if a =? MIN then compilerrt_abort else negate_if (Z.shiftr a 127) a.

Definition negvti2 (a : Z) : res Z :=
  if a =? MIN then compilerrt_abort else sub_ti 0 a.

Definition addvti3 (a b : Z) : res Z :=
  let s := swrap 128 (u128 a + u128 b) in
  if 0 <=? b then if s <? a then compilerrt_abort else Ok s
  else if a <=? s then compilerrt_abort else Ok s.

Definition subvti3 (a b : Z) : res Z :=
  let s := swrap 128 (u128 a - u128 b) in
  if 0 <=? b then if a <? s then compilerrt_abort else Ok s
  else if s <=? a then compilerrt_abort else Ok s.

(** A product of the type [ti_int]; a quotient of it. *)
Definition mul_ti (x y : Z) : res Z :=
  if (MIN <=? x * y) && (x * y <=? MAX) then Ok (x * y) else Undef "signed overflow".
Definition div_ti (x y : Z) : res Z :=
  if y =? 0 then Undef "division by zero"
  else if (x =? MIN) && (y =? -1) then Undef "signed overflow" else Ok (Z.quot x y).

(** The test the two products share: may the product of these overflow? *)
Definition mul_overflows (a b : Z) : res bool :=
  let sa := Z.shiftr a 127 in
  abs_a ← negate_if sa a;
  let sb := Z.shiftr b 127 in
  abs_b ← negate_if sb b;
  if (abs_a <? 2) || (abs_b <? 2) then Ok false
  else if sa =? sb then q ← div_ti MAX abs_b; Ok (q <? abs_a)
  else nb ← sub_ti 0 abs_b; q ← div_ti MIN nb; Ok (q <? abs_a).

Definition mulvti3 (a b : Z) : res Z :=
  if a =? MIN then
    if (b =? 0) || (b =? 1) then mul_ti a b else compilerrt_abort
  else if b =? MIN then
    if (a =? 0) || (a =? 1) then mul_ti a b else compilerrt_abort
  else
    over ← mul_overflows a b;
    if (over : bool) then compilerrt_abort else mul_ti a b.

(** The product and the flag stored through [overflow]. *)
Definition muloti4 (a b : Z) : res (Z * Z) :=
  result ← mul_ti a b;
  if a =? MIN then Ok (result, if negb (b =? 0) && negb (b =? 1) then 1 else 0)
  else if b =? MIN then Ok (result, if negb (a =? 0) && negb (a =? 1) then 1 else 0)
  else over ← mul_overflows a b; Ok (result, if (over : bool) then 1 else 0).

(** *** Types *)

Definition is_u64 (x : Z) : Prop := 0 <= x < 2 ^ 64.
Definition is_tu (x : Z) : Prop := 0 <= x < 2 ^ 128.
Definition is_ti (x : Z) : Prop := - 2 ^ 127 <= x < 2 ^ 127.

(** ** Words *)

Ltac pow64 := change (2 ^ 128) with (2 ^ 64 * 2 ^ 64) in *; change (2 ^ 127) with (2 ^ 63 * 2 ^ 64) in *.
Ltac divmod := Z.div_mod_to_equations; lia.

(** The two words of a number, and the number of two words. *)
Lemma words a : is_u64 (word_low a) /\ a = word_high a * 2 ^ 64 + word_low a.
Proof.
  unfold word_low, word_high, is_u64, wrap. rewrite shiftr_div by lia.
  pose proof (Z.mod_pos_bound a (2 ^ 64) ltac:(lia)). pose proof (Z.div_mod a (2 ^ 64) ltac:(lia)). lia.
Qed.

Lemma word_high_u a : is_tu a -> is_u64 (word_high a).
Proof. intros Ha. pose proof (words a) as [Hl E]. unfold is_tu, is_u64 in *. lia. Qed.

Lemma word_all_eq h l : is_u64 l -> word_all h l = h * 2 ^ 64 + l.
Proof. intros Hl. by apply lor_shiftl_add. Qed.

Lemma words_unique a h l : is_u64 l -> a = h * 2 ^ 64 + l -> word_high a = h /\ word_low a = l.
Proof. intros Hl E. pose proof (words a) as [Hl' E']. unfold is_u64 in *. lia. Qed.

(** Powers of two that make up a word. *)
Lemma pow_split k n : 0 <= k <= n -> 2 ^ n = 2 ^ k * 2 ^ (n - k) /\ 0 < 2 ^ k /\ 0 < 2 ^ (n - k).
Proof. intros Hk. rewrite <- Z.pow_add_r by lia. split; [f_equal; lia | lia]. Qed.

Lemma shl64_ok x k : 0 <= k < 64 -> shl64 x k = Ok (x mod 2 ^ (64 - k) * 2 ^ k).
Proof.
  intros Hk. unfold shl64. destruct (Z.leb_spec 0 k), (Z.ltb_spec k 64); try lia. cbn. f_equal.
  rewrite Z.shiftl_mul_pow2 by lia. unfold wrap. destruct (pow_split k 64) as (-> & ? & ?); [lia |].
  rewrite (Z.mul_comm (2 ^ k)). apply Z.mul_mod_distr_r; lia.
Qed.

Lemma shr64_ok x k : 0 <= k < 64 -> shr64 x k = Ok (x / 2 ^ k).
Proof.
  intros Hk. unfold shr64. destruct (Z.leb_spec 0 k), (Z.ltb_spec k 64); try lia. cbn. f_equal.
  apply shiftr_div. lia.
Qed.

(** The upper bits of one word and the lower ones of the next. *)
Lemma lor_parts x y k :
  0 <= k < 64 -> is_u64 y ->
  Z.lor (x mod 2 ^ (64 - k) * 2 ^ k) (y / 2 ^ (64 - k)) = x mod 2 ^ (64 - k) * 2 ^ k + y / 2 ^ (64 - k) /\
  is_u64 (x mod 2 ^ (64 - k) * 2 ^ k + y / 2 ^ (64 - k)).
Proof.
  intros Hk Hy. unfold is_u64 in *. destruct (pow_split k 64) as (E & H1 & H2); [lia |].
  assert (0 <= y / 2 ^ (64 - k) < 2 ^ k) as Hq.
  { split; [apply Z.div_pos; lia |]. apply Z.div_lt_upper_bound; lia. }
  pose proof (Z.mod_pos_bound x (2 ^ (64 - k)) H2).
  split; [rewrite <- (lor_shiftl_add _ (y / 2 ^ (64 - k)) k), Z.shiftl_mul_pow2 by lia; done |]. rewrite E. nia.
Qed.

(** ** Shifts *)

Lemma land_64 b : 0 <= b < 128 -> (Z.land b 64 =? 0) = (b <? 64).
Proof.
  intros Hb. assert (forallb (fun b => Bool.eqb (Z.land b 64 =? 0) (b <? 64)) (seqZ 0 128) = true) as HF
    by (vm_compute; reflexivity).
  rewrite forallb_forall in HF. apply Bool.eqb_prop, HF. apply list_elem_of_In, elem_of_seqZ. lia.
Qed.

(** A number times or over a power of two, by its words. *)
Lemma shift_up h l k :
  0 <= k < 64 -> is_u64 l ->
  (h * 2 ^ 64 + l) * 2 ^ k = (h * 2 ^ k + l / 2 ^ (64 - k)) * 2 ^ 64 + l mod 2 ^ (64 - k) * 2 ^ k.
Proof.
  intros Hk Hl. destruct (pow_split k 64) as (E & H1 & H2); [lia |].
  pose proof (Z.div_mod l (2 ^ (64 - k)) ltac:(lia)) as HD. rewrite E.
  set (T := 2 ^ (64 - k)) in *. set (S := 2 ^ k) in *. nia.
Qed.

Lemma shift_down h l k :
  0 <= k < 64 -> is_u64 l ->
  (h * 2 ^ 64 + l) / 2 ^ k = h * 2 ^ (64 - k) + l / 2 ^ k /\
  (h * 2 ^ 64 + l) mod 2 ^ k = l mod 2 ^ k /\
  h * 2 ^ (64 - k) = h / 2 ^ k * 2 ^ 64 + h mod 2 ^ k * 2 ^ (64 - k).
Proof.
  intros Hk Hl. destruct (pow_split k 64) as (E & H1 & H2); [lia |].
  replace (h * 2 ^ 64 + l) with (l + h * 2 ^ (64 - k) * 2 ^ k) by (rewrite E; ring).
  rewrite Z.div_add, Z.mod_add by lia. split; [ring |]. split; [done |].
  rewrite (Z.div_mod h (2 ^ k) ltac:(lia)) at 1. rewrite E. ring.
Qed.

Lemma u64_range x : is_u64 (u64 x).
Proof. unfold is_u64. apply (wrap_range 64). lia. Qed.

Lemma is_u64_0 : is_u64 0.
Proof. unfold is_u64. lia. Qed.
#[local] Hint Resolve is_u64_0 u64_range : core.

Lemma swrap_mod w x y : 0 <= w -> swrap w (x mod 2 ^ w + y) = swrap w (x + y).
Proof. intros Hw. unfold swrap. by rewrite <- !Z.add_assoc, Z.add_mod_idemp_l by lia. Qed.

(** A signed number by its words. *)
Lemma swrap_high h l : is_u64 l -> swrap 64 h * 2 ^ 64 + l = swrap 128 (h * 2 ^ 64 + l).
Proof.
  intros Hl. unfold swrap, is_u64 in *. change (64 - 1) with 63. change (128 - 1) with 127.
  change (2 ^ 127) with (2 ^ 63 * 2 ^ 64). change (2 ^ 128) with (2 ^ 64 * 2 ^ 64).
  replace (h * 2 ^ 64 + l + 2 ^ 63 * 2 ^ 64) with (l + (h + 2 ^ 63) * 2 ^ 64) by ring.
  rewrite Z.rem_mul_r by lia. rewrite Z.mod_add, Z.div_add by lia.
  rewrite (Z.mod_small l), (Z.div_small l), Z.add_0_l by lia. lia.
Qed.

Lemma mod_scale x k : 0 <= k < 64 -> x mod 2 ^ (64 - k) * 2 ^ k = (x * 2 ^ k) mod 2 ^ 64.
Proof.
  intros Hk. destruct (pow_split k 64) as (-> & ? & ?); [lia |].
  rewrite (Z.mul_comm (2 ^ k) (2 ^ (64 - k))). symmetry. apply Z.mul_mod_distr_r; lia.
Qed.

Lemma ashlti3_spec a b : 0 <= b < 128 -> is_ti a -> ashlti3 a b = Ok (swrap 128 (Z.shiftl a b)).
Proof.
  intros Hb Ha. pose proof (words a) as [Hl Ea]. unfold ashlti3. rewrite land_64 by done.
  set (h := word_high a) in *. set (l := word_low a) in *. rewrite Z.shiftl_mul_pow2 by lia.
  destruct (Z.ltb_spec b 64); cbn [negb]; [destruct (Z.eqb_spec b 0) as [-> |] |].
  - rewrite Z.mul_1_r. by rewrite swrap_small by (unfold is_ti in Ha; lia).
  - rewrite !shl64_ok, shr64_ok by lia. cbn [mbind res_bind].
    destruct (lor_parts h l b ltac:(lia) Hl) as [-> _].
    rewrite word_all_eq by (rewrite mod_scale by lia; apply (u64_range (l * 2 ^ b))).
    f_equal. rewrite Ea, shift_up, <- swrap_high by (done || lia || (rewrite mod_scale by lia; apply (u64_range (l * 2 ^ b)))).
    do 2 f_equal. rewrite (mod_scale h) by lia. apply (swrap_mod 64). lia.
  - rewrite shl64_ok by lia. cbn [mbind res_bind]. rewrite word_all_eq by done. f_equal.
    replace (a * 2 ^ b) with ((l * 2 ^ (b - 64) + h * 2 ^ (b - 64) * 2 ^ 64) * 2 ^ 64 + 0).
    + rewrite <- swrap_high by done. do 2 f_equal. rewrite mod_scale by lia.
      rewrite <- (Z.add_0_r (_ mod _)), swrap_mod by lia. rewrite Z.add_0_r.
      unfold swrap. f_equal. replace (l * 2 ^ (b - 64) + h * 2 ^ (b - 64) * 2 ^ 64 + 2 ^ (64 - 1))
        with (l * 2 ^ (b - 64) + 2 ^ (64 - 1) + h * 2 ^ (b - 64) * 2 ^ 64) by ring.
      by rewrite Z.mod_add by lia.
    + rewrite Ea. replace (2 ^ b) with (2 ^ 64 * 2 ^ (b - 64)) by (rewrite <- Z.pow_add_r by lia; f_equal; lia).
      ring.
Qed.

(** The words of a number shifted to the right by less than a word. *)
Lemma shift_right_words h l b :
  0 < b < 64 -> is_u64 l ->
  word_all (h / 2 ^ b) (Z.lor (h mod 2 ^ (64 - (64 - b)) * 2 ^ (64 - b)) (l / 2 ^ b)) = (h * 2 ^ 64 + l) / 2 ^ b.
Proof.
  intros Hb Hl. destruct (lor_parts h l (64 - b) ltac:(lia) Hl) as [E HR].
  replace (64 - (64 - b)) with b in * by lia. rewrite E, word_all_eq by done.
  destruct (shift_down h l b ltac:(lia) Hl) as (-> & _ & ->). ring.
Qed.

Lemma lshrti3_spec a b : 0 <= b < 128 -> is_tu a -> lshrti3 a b = Ok (Z.shiftr a b).
Proof.
  intros Hb Ha. pose proof (words a) as [Hl Ea]. unfold lshrti3. rewrite land_64 by done.
  set (h := word_high a) in *. set (l := word_low a) in *. rewrite shiftr_div by lia.
  destruct (Z.ltb_spec b 64); cbn [negb]; [destruct (Z.eqb_spec b 0) as [-> |] |].
  - by rewrite Z.div_1_r.
  - rewrite !shl64_ok, !shr64_ok by lia. cbn [mbind res_bind]. by rewrite shift_right_words, Ea by (done || lia).
  - rewrite shr64_ok by lia. cbn [mbind res_bind].
    assert (is_u64 (h / 2 ^ (b - 64))) as HQ.
    { pose proof (word_high_u a Ha) as Hh. fold h in Hh. unfold is_u64 in *.
      split; [apply Z.div_pos; lia |]. apply Z.div_lt_upper_bound; [lia |]. nia. }
    rewrite word_all_eq by done. f_equal. subst h. unfold word_high. rewrite shiftr_div by lia.
    rewrite Z.div_div by lia. rewrite <- Z.pow_add_r, Z.add_0_l by lia. do 2 f_equal. lia.
Qed.

Lemma ashrti3_spec a b : 0 <= b < 128 -> is_ti a -> ashrti3 a b = Ok (Z.shiftr a b).
Proof.
  intros Hb Ha. pose proof (words a) as [Hl Ea]. unfold ashrti3. rewrite land_64 by done.
  set (h := word_high a) in *. set (l := word_low a) in *. rewrite shiftr_div by lia.
  destruct (Z.ltb_spec b 64); cbn [negb]; [destruct (Z.eqb_spec b 0) as [-> |] |].
  - by rewrite Z.div_1_r.
  - rewrite !shl64_ok, !shr64_ok by lia. cbn [mbind res_bind]. by rewrite shift_right_words, Ea by (done || lia).
  - rewrite !shr64_ok by lia. cbn [mbind res_bind]. rewrite word_all_eq by done. f_equal.
    replace (a / 2 ^ b) with (h / 2 ^ (b - 64)).
    2: { subst h. unfold word_high. rewrite shiftr_div, Z.div_div by lia. rewrite <- Z.pow_add_r by lia. do 2 f_equal. lia. }
    assert (- 2 ^ 63 <= h < 2 ^ 63) as Hh by (unfold is_ti, is_u64 in *; lia).
    set (k := b - 64). assert (0 < 2 ^ k) by (apply Z.pow_pos_nonneg; lia).
    pose proof (Z.div_mod h (2 ^ k) ltac:(lia)). pose proof (Z.mod_pos_bound h (2 ^ k) ltac:(lia)).
    set (q := h / 2 ^ k) in *. unfold wrap. destruct (Z.lt_ge_cases h 0).
    + assert (h / 2 ^ 63 = -1) as -> by (symmetry; apply Z.div_unique with (h + 2 ^ 63); lia).
      assert (q mod 2 ^ 64 = q + 2 ^ 64) as ->; [| lia]. symmetry. apply Z.mod_unique with (-1); nia.
    + rewrite Z.div_small, Z.mod_small by nia. lia.
Qed.

(** The shifts by 0 to 127 bits are those of the numbers, in two's complement, and no
    word is shifted in a way C leaves undefined. *)
Theorem shifts_exact (a b : Z) :
  0 <= b < 128 ->
  (is_ti a -> ashlti3 a b = Ok (swrap 128 (Z.shiftl a b)) /\ ashrti3 a b = Ok (Z.shiftr a b)) /\
  (is_tu a -> lshrti3 a b = Ok (Z.shiftr a b)).
Proof. intros Hb. auto using ashlti3_spec, ashrti3_spec, lshrti3_spec. Qed.

Lemma shifts_exact_witness :
  ashrti3 (- 2 ^ 100 + 1) 65 = Ok (Z.shiftr (- 2 ^ 100 + 1) 65) /\
  lshrti3 (2 ^ 127 + 5) 65 = Ok (Z.shiftr (2 ^ 127 + 5) 65).
Proof.
  split.
  - apply (proj1 (shifts_exact (- 2 ^ 100 + 1) 65 ltac:(lia))). unfold is_ti. lia.
  - apply (proj2 (shifts_exact (2 ^ 127 + 5) 65 ltac:(lia))). unfold is_tu. lia.
Defined.

(** ** Products *)

Lemma swrap_congr w x y : 0 <= w -> x mod 2 ^ w = y mod 2 ^ w -> swrap w x = swrap w y.
Proof. intros Hw E. unfold swrap. by rewrite <- (Z.add_mod_idemp_l x), E, Z.add_mod_idemp_l by lia. Qed.

Lemma swrap_mod_eq w x : 0 < w -> swrap w x mod 2 ^ w = x mod 2 ^ w.
Proof.
  intros Hw. unfold swrap. rewrite Zminus_mod_idemp_l. f_equal. ring.
Qed.

Lemma land_mask x : Z.land x (2 ^ 32 - 1) = x mod 2 ^ 32.
Proof. apply (Z.land_ones x 32). lia. Qed.

(** The product of two words, in two words. *)
Lemma mulddi3_spec a b :
  is_u64 a -> is_u64 b ->
  exists H, (mulddi3 a b).1 = swrap 64 H /\ is_u64 (mulddi3 a b).2 /\ H * 2 ^ 64 + (mulddi3 a b).2 = a * b.
Proof.
  intros Ha Hb. unfold mulddi3, is_u64 in *. cbv zeta. rewrite !land_mask, !shiftr_div by lia.
  pose proof (Z.div_mod a (2 ^ 32) ltac:(lia)) as Ea. pose proof (Z.mod_pos_bound a (2 ^ 32) ltac:(lia)).
  pose proof (Z.div_mod b (2 ^ 32) ltac:(lia)) as Eb. pose proof (Z.mod_pos_bound b (2 ^ 32) ltac:(lia)).
  set (a0 := a mod 2 ^ 32) in *. set (a1 := a / 2 ^ 32) in *.
  set (b0 := b mod 2 ^ 32) in *. set (b1 := b / 2 ^ 32) in *.
  assert (0 <= a1 < 2 ^ 32 /\ 0 <= b1 < 2 ^ 32) as [Ha1 Hb1] by lia.
  assert (forall x y, 0 <= x < 2 ^ 32 -> 0 <= y < 2 ^ 32 -> 0 <= x * y <= (2 ^ 32 - 1) * (2 ^ 32 - 1)) as HP by nia.
  pose proof (HP a0 b0 ltac:(lia) ltac:(lia)). pose proof (HP a1 b0 ltac:(lia) ltac:(lia)).
  pose proof (HP b1 a0 ltac:(lia) ltac:(lia)). pose proof (HP a1 b1 ltac:(lia) ltac:(lia)).
  assert (a * b = a0 * b0 + (a1 * b0 + b1 * a0) * 2 ^ 32 + a1 * b1 * 2 ^ 64) as Eab by (rewrite Ea, Eb; ring).
  clear HP. set (p := a0 * b0) in *. set (q := a1 * b0) in *. set (r := b1 * a0) in *. set (s := a1 * b1) in *.
  rewrite (wrap_small 64 p), (wrap_small 64 q), (wrap_small 64 r), (wrap_small 64 s) by lia.
  rewrite !Z.shiftl_mul_pow2 by lia.
  pose proof (Z.div_mod p (2 ^ 32) ltac:(lia)). pose proof (Z.mod_pos_bound p (2 ^ 32) ltac:(lia)).
  rewrite (wrap_small 64 (p / 2 ^ 32 + q)) by lia. set (t := p / 2 ^ 32 + q) in *.
  pose proof (Z.div_mod t (2 ^ 32) ltac:(lia)). pose proof (Z.mod_pos_bound t (2 ^ 32) ltac:(lia)).
  rewrite (wrap_small 64 (t mod 2 ^ 32 * 2 ^ 32)), (wrap_small 64 (p mod 2 ^ 32 + _)) by lia.
  assert ((p mod 2 ^ 32 + t mod 2 ^ 32 * 2 ^ 32) / 2 ^ 32 = t mod 2 ^ 32) as -> by (symmetry; apply Z.div_unique with (p mod 2 ^ 32); lia).
  assert ((p mod 2 ^ 32 + t mod 2 ^ 32 * 2 ^ 32) mod 2 ^ 32 = p mod 2 ^ 32) as -> by (symmetry; apply Z.mod_unique with (t mod 2 ^ 32); lia).
  rewrite (wrap_small 64 (t mod 2 ^ 32 + r)) by lia. set (u := t mod 2 ^ 32 + r) in *.
  pose proof (Z.div_mod u (2 ^ 32) ltac:(lia)). pose proof (Z.mod_pos_bound u (2 ^ 32) ltac:(lia)).
  rewrite (wrap_small 64 (u mod 2 ^ 32 * 2 ^ 32)), (wrap_small 64 (p mod 2 ^ 32 + _)) by lia.
  rewrite (swrap_small 64 (t / 2 ^ 32)), (swrap_small 64 (t / 2 ^ 32 + u / 2 ^ 32)) by (cbn; lia).
  exists (t / 2 ^ 32 + u / 2 ^ 32 + s). cbn [fst snd]. split; [done |]. lia.
Qed.

(** The product is that of the numbers, modulo 2^128. *)
Theorem multi3_exact (a b : Z) : multi3 a b = swrap 128 (a * b).
Proof.
  pose proof (words a) as [Hla Ea]. pose proof (words b) as [Hlb Eb]. unfold multi3.
  set (xh := word_high a) in *. set (xl := word_low a) in *. set (yh := word_high b) in *. set (yl := word_low b) in *.
  destruct (mulddi3_spec xl yl Hla Hlb) as (H & E1 & Hl & E2). destruct (mulddi3 xl yl) as [high low].
  cbn [fst snd] in *. rewrite word_all_eq by done. subst high.
  assert (swrap 64 (swrap 64 H + u64 (xh * yl + xl * yh)) = swrap 64 (H + (xh * yl + xl * yh) + xh * yh * 2 ^ 64)) as ->.
  { apply swrap_congr; [lia |]. unfold wrap. rewrite Z.mod_add, Z.add_mod_idemp_r by lia.
    rewrite <- Z.add_mod_idemp_l, swrap_mod_eq by lia. by rewrite Z.add_mod_idemp_l by lia. }
  rewrite swrap_high by done. f_equal. rewrite Ea, Eb. lia.
Qed.

(** ** Quotients *)

(** One bit moves from the top of a word to the bottom of the next. *)
Lemma lor_bit x y : is_u64 y -> Z.lor (u64 (Z.shiftl x 1)) (Z.shiftr y 63) = (2 * x) mod 2 ^ 64 + y / 2 ^ 63.
Proof.
  intros Hy. destruct (lor_parts x y 1 ltac:(lia) Hy) as [E _].
  rewrite Z.shiftl_mul_pow2, shiftr_div by lia. unfold wrap.
  rewrite mod_scale in E by lia. change (64 - 1) with 63 in E. rewrite E. do 2 f_equal. ring.
Qed.

Lemma lor_carry x c : 0 <= c <= 1 -> Z.lor (u64 (Z.shiftl x 1)) c = (2 * x) mod 2 ^ 64 + c.
Proof.
  intros Hc. rewrite Z.shiftl_mul_pow2 by lia. unfold wrap. rewrite (Z.mul_comm 2 x).
  assert ((x * 2 ^ 1) mod 2 ^ 64 = x mod 2 ^ 63 * 2 ^ 1) as E by (symmetry; apply (mod_scale x 1); lia).
  rewrite E. rewrite <- (Z.shiftl_mul_pow2 _ 1), lor_shiftl_add by lia. f_equal. symmetry. exact E.
Qed.

(** The register of 256 bits, moved by one bit. *)
Lemma shift_register x top :
  is_tu x -> 0 <= top <= 1 ->
  word_all (Z.lor (u64 (Z.shiftl (word_high x) 1)) (Z.shiftr (word_low x) 63)) ((2 * word_low x) mod 2 ^ 64 + top)
  = (2 * x) mod 2 ^ 128 + top.
Proof.
  intros Hx Ht. pose proof (words x) as [Hl E]. pose proof (word_high_u x Hx) as Hh.
  set (h := word_high x) in *. set (l := word_low x) in *. unfold is_u64 in *.
  rewrite word_all_eq, lor_bit by (done || (unfold is_u64; divmod)). rewrite E. divmod.
Qed.

(** The mask is all ones if [d] fits into [r], else zero. *)
Lemma fits_mask d r :
  is_tu d -> is_tu r -> r < 2 * d -> d <= 2 ^ 127 \/ 2 ^ 127 <= r ->
  Z.shiftr (swrap 128 (u128 (u128 (d - r) - 1))) 127 = if d <=? r then -1 else 0.
Proof.
  intros Hd Hr Hlt Hb. unfold is_tu in *. rewrite shiftr_div by lia.
  assert (u128 (u128 (d - r) - 1) = u128 (d - r - 1)) as -> by (unfold wrap; apply Zminus_mod_idemp_l).
  unfold wrap, swrap. change (128 - 1) with 127. destruct (Z.leb_spec d r).
  - assert ((d - r - 1) mod 2 ^ 128 = d - r - 1 + 2 ^ 128) as -> by (symmetry; apply Z.mod_unique with (-1); lia).
    assert ((d - r - 1 + 2 ^ 128 + 2 ^ 127) mod 2 ^ 128 = d - r - 1 + 2 ^ 127) as ->
      by (symmetry; apply Z.mod_unique with 1; lia).
    symmetry. apply Z.div_unique with (d - r - 1 + 2 ^ 127); lia.
  - rewrite (Z.mod_small (d - r - 1)), Z.mod_small by lia. apply Z.div_small. lia.
Qed.

Lemma div_step_spec d r q carry :
  is_tu d -> is_tu r -> is_tu q -> 0 <= carry <= 1 ->
  let R := 2 * r + q / 2 ^ 127 in
  R < 2 ^ 128 -> R < 2 * d -> d <= 2 ^ 127 \/ 2 ^ 127 <= R ->
  div_step d r q carry =
  Ok (if d <=? R then R - d else R, (2 * q) mod 2 ^ 128 + carry, if d <=? R then 1 else 0).
Proof.
  intros Hd Hr Hq Hc R HR HRd Hb. unfold div_step. cbv zeta.
  pose proof (words q) as [Hql Eq]. pose proof (word_high_u q Hq) as Hqh.
  rewrite (lor_bit (word_low r)), (lor_carry (word_low q)) by done.
  assert (word_high q / 2 ^ 63 = q / 2 ^ 127) as EB.
  { unfold word_high. rewrite shiftr_div, Z.div_div by lia. done. }
  assert (0 <= q / 2 ^ 127 <= 1) as HB by (unfold is_tu in *; divmod).
  rewrite EB, !shift_register by done.
  assert ((2 * r) mod 2 ^ 128 + q / 2 ^ 127 = R) as -> by (unfold is_tu in *; rewrite Z.mod_small; lia).
  rewrite fits_mask by (done || (unfold is_tu in *; lia)).
  unfold is_tu in *. destruct (Z.leb_spec d R).
  - change (u128 (-1)) with (Z.ones 128). rewrite Z.land_ones, (Z.mod_small d) by lia.
    rewrite (wrap_small 128 (R - d)) by lia. done.
  - change (u128 0) with 0. rewrite Z.land_0_r, Z.sub_0_r, wrap_small by lia. done.
Qed.

(** The loop divides: [sr] bits of [n] are still to come, the quotient so far is that of
    the bits seen, its last bit in [carry]. *)
Lemma div_loop_spec n d sr : forall r q carry qlow,
  is_tu n -> is_tu d -> 0 <= carry <= 1 -> 0 <= r < d -> Z.of_nat sr <= 127 ->
  0 <= qlow < 2 ^ (127 - Z.of_nat sr) ->
  q = n mod 2 ^ Z.of_nat sr * 2 ^ (128 - Z.of_nat sr) + qlow ->
  n / 2 ^ Z.of_nat sr = (2 * qlow + carry) * d + r ->
  (sr = 0%nat \/ d <= 2 ^ 127 \/ (sr = 1%nat /\ qlow = 0 /\ carry = 0 /\ 2 ^ 127 <= n)) ->
  div_loop sr d r q carry = Ok (n / d, n mod d).
Proof.
  induction sr as [|sr IH]; intros r q carry qlow Hn Hd Hc Hr Hs Hq Eq En Hb.
  - cbn [div_loop]. change (Z.of_nat 0) with 0 in *. rewrite Z.mod_1_r in Eq. rewrite Z.div_1_r in En.
    replace q with qlow by lia. unfold is_tu in *. rewrite Z.shiftl_mul_pow2 by lia.
    rewrite wrap_small by lia. rewrite <- Z.shiftl_mul_pow2, lor_shiftl_add by lia.
    do 2 f_equal.
    + apply Z.div_unique with r; lia.
    + apply Z.mod_unique with (2 * qlow + carry); lia.
  - rewrite Nat2Z.inj_succ in *. set (s := Z.of_nat sr) in *. assert (0 <= s) by lia.
    replace (128 - Z.succ s) with (127 - s) in Eq by lia. replace (127 - Z.succ s) with (126 - s) in Hq by lia.
    assert (2 ^ (127 - s) = 2 * 2 ^ (126 - s)) as ET by (rewrite <- Z.pow_succ_r by lia; f_equal; lia).
    assert (2 ^ (128 - s) = 2 * 2 ^ (127 - s)) as ET' by (rewrite <- Z.pow_succ_r by lia; f_equal; lia).
    destruct (pow_split s 127) as (EP & HP1 & HP2); [lia |].
    set (P := 2 ^ s) in *. set (T := 2 ^ (127 - s)) in *.
    set (m := n / P). set (lo := n mod P).
    assert (n = P * m + lo) as Enm by (apply Z.div_mod; lia).
    assert (0 <= lo < P) as Hlo by (apply Z.mod_pos_bound; lia).
    pose proof (Z.div_mod m 2 ltac:(lia)) as Em. pose proof (Z.mod_pos_bound m 2 ltac:(lia)) as Hbit.
    set (bit := m mod 2) in *.
    rewrite Z.pow_succ_r in Eq, En by lia. fold P in Eq, En.
    assert (n / (2 * P) = m / 2) as EQ1 by (rewrite Z.mul_comm, <- Z.div_div by lia; done).
    assert (n mod (2 * P) = bit * P + lo) as EQ2.
    { symmetry. apply Z.mod_unique with (m / 2); [left; nia | lia]. }
    rewrite EQ1 in En. rewrite EQ2 in Eq.
    assert (0 <= lo * T + qlow < 2 ^ 127) as Hrest by nia.
    assert (q = bit * 2 ^ 127 + (lo * T + qlow)) as Eq' by (rewrite Eq, EP; ring).
    assert (q / 2 ^ 127 = bit) as Ebit by (symmetry; apply Z.div_unique with (lo * T + qlow); lia).
    assert ((2 * q) mod 2 ^ 128 = 2 * (lo * T + qlow)) as Eq2 by (symmetry; apply Z.mod_unique with bit; lia).
    assert (m = 2 * (2 * qlow + carry) * d + (2 * r + bit)) as Em' by lia.
    assert (0 <= (2 * qlow + carry) * d) as Hnn by (unfold is_tu in *; nia).
    assert (m <= n) as Hmn by nia.
    cbn [div_loop]. unfold is_tu in *.
    rewrite div_step_spec; rewrite ?Ebit; unfold is_tu; try lia.
    2: { destruct Hb as [Hb | [Hb | (Hs1 & -> & -> & Hb)]]; [lia | by left |].
         right. assert (s = 0) as Hs0 by lia. subst P. rewrite Hs0 in Enm, Hlo. lia. }
    cbn [mbind res_bind]. rewrite Eq2.
    apply (IH _ _ _ (2 * qlow + carry)); try (unfold is_tu; lia);
      destruct (Z.leb_spec d (2 * r + bit)); lia.
Qed.

(** The registers hold the dividend moved by [sr] bits. *)
Lemma registers_spec nh nl sr :
  is_u64 nh -> is_u64 nl -> 1 <= sr <= 127 ->
  registers nh nl sr = Ok ((nh * 2 ^ 64 + nl) / 2 ^ sr, (nh * 2 ^ 64 + nl) mod 2 ^ sr * 2 ^ (128 - sr)).
Proof.
  intros Hh Hl Hs. unfold registers. destruct (Z.eqb_spec sr 64) as [-> |]; [| destruct (Z.ltb_spec sr 64)].
  - rewrite !word_all_eq by done. change (2 ^ (128 - 64)) with (2 ^ 64). unfold is_u64 in *.
    rewrite <- (Z.div_unique (nh * 2 ^ 64 + nl) (2 ^ 64) nh nl), <- (Z.mod_unique (nh * 2 ^ 64 + nl) (2 ^ 64) nh nl) by lia.
    do 2 f_equal; lia.
  - rewrite !shl64_ok, !shr64_ok by lia. cbn [mbind res_bind].
    rewrite shift_right_words by (done || lia). rewrite word_all_eq by done.
    destruct (shift_down nh nl sr ltac:(lia) Hl) as (_ & -> & _).
    replace (64 - (64 - sr)) with sr by lia. do 2 f_equal.
    replace (2 ^ (128 - sr)) with (2 ^ (64 - sr) * 2 ^ 64) by (rewrite <- Z.pow_add_r by lia; f_equal; lia). ring.
  - set (k := sr - 64). replace (128 - sr) with (64 - k) by lia.
    rewrite !shl64_ok, !shr64_ok by lia. cbn [mbind res_bind].
    replace (64 - (64 - k)) with k by lia.
    pose proof (lor_parts nh nl (64 - k) ltac:(lia) Hl) as [E HR].
    replace (64 - (64 - k)) with k in * by lia. rewrite E.
    assert (is_u64 (nl mod 2 ^ k * 2 ^ (64 - k))) as HL.
    { replace k with (64 - (64 - k)) at 1 by lia. rewrite mod_scale by lia. apply (u64_range (nl * 2 ^ (64 - k))). }
    assert (is_u64 (nh / 2 ^ k)) as HQ.
    { unfold is_u64 in *. split; [apply Z.div_pos; lia |]. apply Z.div_lt_upper_bound; [lia |]. nia. }
    rewrite !word_all_eq by done. destruct (pow_split k 64) as (E64 & HP1 & HP2); [lia |].
    assert (2 ^ sr = 2 ^ 64 * 2 ^ k) as -> by (rewrite <- Z.pow_add_r by lia; f_equal; lia).
    unfold is_u64 in *.
    pose proof (Z.div_mod nh (2 ^ k) ltac:(lia)) as Dh. pose proof (Z.div_mod nl (2 ^ k) ltac:(lia)) as Dl.
    pose proof (Z.mod_pos_bound nh (2 ^ k) ltac:(lia)).
    set (P := 2 ^ k) in *. set (T := 2 ^ (64 - k)) in *.
    assert (nh * 2 ^ 64 + nl = 2 ^ 64 * P * (nh / P) + ((nh mod P) * 2 ^ 64 + nl)) as En by lia.
    assert (0 <= (nh mod P) * 2 ^ 64 + nl < 2 ^ 64 * P) as Hr by nia.
    do 2 f_equal.
    + apply Z.div_unique with ((nh mod P) * 2 ^ 64 + nl); lia.
    + rewrite <- (Z.mod_unique _ _ _ _ (or_introl Hr) En). rewrite E64. transitivity ((nh mod P * (P * T) + (P * (nl / P) + nl mod P)) * T); [ring | by rewrite <- Dl].
Qed.

Lemma divide_spec nh nl d sr :
  is_u64 nh -> is_u64 nl -> is_tu d -> 1 <= sr <= 127 ->
  (nh * 2 ^ 64 + nl) / 2 ^ sr < d ->
  d <= 2 ^ 127 \/ (sr = 1 /\ 2 ^ 63 <= nh) ->
  divide nh nl d sr = Ok ((nh * 2 ^ 64 + nl) / d, (nh * 2 ^ 64 + nl) mod d).
Proof.
  intros Hh Hl Hd Hs Hlt Hb. unfold divide. rewrite registers_spec by done. cbn [mbind res_bind].
  assert (0 < 2 ^ sr) by (apply Z.pow_pos_nonneg; lia).
  assert (is_tu (nh * 2 ^ 64 + nl)) as Hn by (unfold is_u64, is_tu in *; lia).
  assert (0 <= (nh * 2 ^ 64 + nl) / 2 ^ sr) by (apply Z.div_pos; unfold is_tu in *; lia).
  apply (div_loop_spec _ _ _ _ _ _ 0); rewrite ?Z2Nat.id by lia; try done; try lia.
  destruct Hb as [Hb | [-> Hb]]; [by right; left | right; right; unfold is_u64 in *; lia].
Qed.

(** ** Powers of two *)

Lemma log2_bounds x : 0 < x -> 2 ^ Z.log2 x <= x < 2 * 2 ^ Z.log2 x.
Proof. intros Hx. rewrite <- Z.pow_succ_r by apply Z.log2_nonneg. by apply Z.log2_spec. Qed.

Lemma log2_u64 x : is_u64 x -> 0 <= Z.log2 x < 64.
Proof.
  intros Hx. split; [apply Z.log2_nonneg |]. destruct (Z.eq_dec x 0) as [-> |]; [done |].
  apply Z.log2_lt_pow2; unfold is_u64 in Hx; lia.
Qed.

(** The test for a power of two. *)
Lemma power_of_two x : is_u64 x -> 0 < x -> Z.land x (u64 (x - 1)) = 0 -> x = 2 ^ Z.log2 x.
Proof.
  intros Hx Hpos E. unfold is_u64 in Hx. rewrite wrap_small in E by lia.
  pose proof (log2_bounds x Hpos) as Hb. destruct (Z.eq_dec x (2 ^ Z.log2 x)) as [|Hne]; [done |].
  assert (Z.testbit (Z.land x (x - 1)) (Z.log2 x) = true) as HT; [| by rewrite E, Z.bits_0 in HT].
  rewrite Z.land_spec, Z.bit_log2 by done. cbn [andb].
  assert (Z.log2 (x - 1) = Z.log2 x) as <-; [| apply Z.bit_log2; lia].
  apply Z.log2_unique; [apply Z.log2_nonneg |]. rewrite Z.pow_succ_r by apply Z.log2_nonneg. lia.
Qed.

Lemma ctzll_power k : 0 <= k -> builtin_ctzll (2 ^ k) = Ok k.
Proof.
  intros Hk. unfold builtin_ctzll. assert (0 < 2 ^ k) by (apply Z.pow_pos_nonneg; lia).
  destruct (Z.eqb_spec (2 ^ k) 0); [lia |]. f_equal.
  assert (Z.opp (2 ^ k) = Z.lnot (Z.ones k)) as -> by (rewrite Z.ones_equiv; unfold Z.lnot; lia).
  rewrite Z.land_comm. assert (Z.land (Z.lnot (Z.ones k)) (2 ^ k) = 2 ^ k) as ->; [| apply Z.log2_pow2; lia].
  apply Z.bits_inj'. intros i Hi. rewrite Z.land_spec, Z.lnot_spec, Z.pow2_bits_eqb by lia.
  destruct (Z.eqb_spec k i) as [-> |]; [| apply andb_false_r].
  by rewrite Z.ones_spec_high by lia.
Qed.

Lemma land_pow2_low x k : 0 <= k < 64 -> Z.land x (u64 (2 ^ k - 1)) = x mod 2 ^ k.
Proof.
  intros Hk. destruct (pow_split k 64) as (E & H1 & H2); [lia |].
  rewrite wrap_small by nia. replace (2 ^ k - 1) with (Z.ones k) by (rewrite Z.ones_equiv; lia).
  apply Z.land_ones. lia.
Qed.

Lemma clz_difference x y :
  is_u64 x -> is_u64 y -> 0 < x -> 0 < y ->
  builtin_clzll x = Ok (63 - Z.log2 x) /\ builtin_clzll y = Ok (63 - Z.log2 y) /\
  u32 (63 - Z.log2 x - (63 - Z.log2 y)) =
    if Z.log2 x <=? Z.log2 y then Z.log2 y - Z.log2 x else Z.log2 y - Z.log2 x + 2 ^ 32.
Proof.
  intros Hx Hy Hx0 Hy0. pose proof (log2_u64 x Hx). pose proof (log2_u64 y Hy). unfold builtin_clzll.
  destruct (Z.eqb_spec x 0), (Z.eqb_spec y 0); try lia. split; [done |]. split; [done |].
  unfold wrap. destruct (Z.leb_spec (Z.log2 x) (Z.log2 y)).
  - rewrite Z.mod_small; lia.
  - symmetry. apply Z.mod_unique with (-1); lia.
Qed.

(** ** The whole division *)

(** A divisor whose lower word is zero divides the upper word. *)
Lemma divide_high nh nl dh :
  is_u64 nl -> 0 < dh ->
  (nh * 2 ^ 64 + nl) / (dh * 2 ^ 64) = nh / dh /\ (nh * 2 ^ 64 + nl) mod (dh * 2 ^ 64) = nh mod dh * 2 ^ 64 + nl.
Proof.
  intros Hl Hd. unfold is_u64 in *. pose proof (Z.div_mod nh dh ltac:(lia)). pose proof (Z.mod_pos_bound nh dh Hd).
  split; symmetry; [apply Z.div_unique with (nh mod dh * 2 ^ 64 + nl) | apply Z.mod_unique with (nh / dh)]; nia.
Qed.

(** The dividend moved by more than the difference of the lengths is less than the
    divisor. *)
Lemma moved_below n d sr kn kd :
  0 <= kn -> 0 <= kd -> 0 <= sr -> kn <= sr + kd -> n < 2 ^ kn -> 2 ^ kd <= d -> n / 2 ^ sr < d.
Proof.
  intros Hkn Hkd Hs Hle Hn Hd. assert (0 < 2 ^ sr) by (apply Z.pow_pos_nonneg; lia).
  apply Z.div_lt_upper_bound; [done |]. assert (2 ^ kn <= 2 ^ (sr + kd)) by (apply Z.pow_le_mono_r; lia).
  rewrite Z.pow_add_r in * by lia. nia.
Qed.

Lemma word_lengths h l :
  is_u64 l -> 0 < h -> 2 ^ (64 + Z.log2 h) <= h * 2 ^ 64 + l /\ h * 2 ^ 64 + l < 2 ^ (65 + Z.log2 h).
Proof.
  intros Hl Hh. pose proof (log2_bounds h Hh). pose proof (Z.log2_nonneg h). unfold is_u64 in *.
  rewrite !Z.pow_add_r by lia. change (2 ^ 65) with (2 * 2 ^ 64). lia.
Qed.

(** Divisors with a nonzero upper word. *)
Lemma divide_long nh nl dh dl limit :
  is_u64 nh -> is_u64 nl -> is_u64 dh -> is_u64 dl -> 0 < nh -> 0 < dh ->
  Z.log2 nh - Z.log2 dh <= limit <= 63 -> 0 <= limit ->
  let n := nh * 2 ^ 64 + nl in let d := dh * 2 ^ 64 + dl in
  (cd ← builtin_clzll dh;
   cn ← builtin_clzll nh;
   let sr := u32 (cd - cn) in if limit <? sr then Ok (0, n) else divide nh nl d (u32 (sr + 1)))
  = Ok (n / d, n mod d).
Proof.
  intros Hnh Hnl Hdh Hdl Hn0 Hd0 Hlim Hlim0 n d.
  destruct (clz_difference dh nh) as (-> & -> & E); try done. cbn [mbind res_bind]. cbv zeta. rewrite E. clear E.
  pose proof (log2_u64 nh Hnh). pose proof (log2_u64 dh Hdh).
  destruct (word_lengths nh nl Hnl Hn0) as [Hn1 Hn2], (word_lengths dh dl Hdl Hd0) as [Hd1 Hd2].
  fold n in Hn1, Hn2. fold d in Hd1, Hd2. destruct (Z.leb_spec (Z.log2 dh) (Z.log2 nh)).
  - destruct (Z.ltb_spec limit (Z.log2 nh - Z.log2 dh)); [lia |]. rewrite wrap_small by lia.
    assert (is_tu d) as Hd by (subst d; unfold is_u64, is_tu in *; lia).
    apply divide_spec; try done; try lia.
    + apply (moved_below _ _ _ (65 + Z.log2 nh) (64 + Z.log2 dh)); lia || done.
    + destruct (Z.le_gt_cases d (2 ^ 127)); [by left | right].
      pose proof (log2_bounds dh Hd0). pose proof (log2_bounds nh Hn0).
      assert (Z.log2 dh = 63) as E63.
      { apply Z.log2_unique; [lia |]. subst d. unfold is_u64 in *. cbn -[Z.pow]. lia. }
      assert (Z.log2 nh = 63) as E63' by lia. rewrite E63' in *. rewrite E63. lia.
  - destruct (Z.ltb_spec limit (Z.log2 nh - Z.log2 dh + 2 ^ 32)); [| lia].
    assert (0 <= n < d) as Hlt.
    { split; [subst n; unfold is_u64 in *; lia |]. eapply Z.lt_le_trans; [exact Hn2 |]. etransitivity; [| exact Hd1].
      apply Z.pow_le_mono_r; lia. }
    by rewrite Z.div_small, Z.mod_small.
Qed.

(** Divisors of one word that are not powers of two. *)
Lemma divide_short nh nl d :
  is_u64 nh -> is_u64 nl -> is_u64 d -> 0 < nh -> 0 < d -> Z.land d (u64 (d - 1)) <> 0 ->
  let n := nh * 2 ^ 64 + nl in
  (cd ← builtin_clzll d; cn ← builtin_clzll nh; divide nh nl d (u32 (1 + 64 + cd - cn))) = Ok (n / d, n mod d).
Proof.
  intros Hnh Hnl Hd Hn0 Hd0 Hp n. unfold builtin_clzll.
  destruct (Z.eqb_spec d 0), (Z.eqb_spec nh 0); try lia. cbn [mbind res_bind].
  pose proof (log2_u64 nh Hnh). pose proof (log2_u64 d Hd). pose proof (log2_bounds d Hd0).
  assert (d <> 1) by (intros ->; by apply Hp).
  assert (1 <= Z.log2 d) by (apply Z.log2_le_pow2; lia).
  destruct (word_lengths nh nl Hnl Hn0) as [_ Hn2]. unfold is_u64 in Hd.
  rewrite wrap_small by lia. apply divide_spec; try done; unfold is_tu; try lia.
  apply (moved_below _ _ _ (65 + Z.log2 nh) (Z.log2 d)); lia || done.
Qed.

Lemma udivmodti4_spec a b :
  is_tu a -> is_tu b ->
  udivmodti4 a b = if b =? 0 then Undef "division by zero" else Ok (a / b, a mod b).
Proof.
  intros Ha Hb. unfold udivmodti4. cbv zeta.
  pose proof (words a) as [Hnl Ea]. pose proof (word_high_u a Ha) as Hnh.
  pose proof (words b) as [Hdl Eb]. pose proof (word_high_u b Hb) as Hdh.
  set (nh := word_high a) in *. set (nl := word_low a) in *. set (dh := word_high b) in *. set (dl := word_low b) in *.
  assert ((b =? 0) = (dh =? 0) && (dl =? 0)) as ->.
  { unfold is_u64 in *. destruct (Z.eqb_spec b 0), (Z.eqb_spec dh 0), (Z.eqb_spec dl 0); cbn; lia. }
  destruct (Z.eqb_spec nh 0) as [En |]; [rewrite En, Z.add_0_l in Ea; rewrite Ea | destruct (Z.eqb_spec dl 0) as [El |]].
  - unfold rem64, div64. destruct (Z.eqb_spec dh 0) as [Ed |]; cbn [andb].
    + destruct (Z.eqb_spec dl 0); [done |]. cbn [mbind res_bind]. replace b with dl by lia. done.
    + rewrite Z.div_small, Z.mod_small by (unfold is_u64 in *; lia). done.
  - rewrite El, Z.add_0_r in Eb. unfold rem64, div64. rewrite andb_true_r.
    destruct (Z.eqb_spec dh 0) as [Ed |]; [by rewrite El |]. cbn [mbind res_bind].
    assert (0 < dh) as Hd0 by (unfold is_u64 in *; lia). assert (0 < nh) as Hn0 by (unfold is_u64 in *; lia).
    destruct (divide_high nh nl dh Hnl Hd0) as [Eq Er]. rewrite <- Ea, <- Eb in Eq, Er.
    destruct (Z.eqb_spec nl 0) as [E0 |]; [| destruct (Z.eqb_spec (Z.land dh (u64 (dh - 1))) 0) as [Ep | Hp]].
    + rewrite Eq, Er, E0. by rewrite word_all_eq.
    + pose proof (log2_u64 dh Hdh). apply power_of_two in Ep; try done. rewrite Eq, Er, Ep at 1.
      rewrite ctzll_power by lia. cbn [mbind res_bind]. rewrite shr64_ok by lia. cbn [mbind res_bind].
      rewrite Ep. rewrite Z.log2_pow2, land_pow2_low, word_all_eq by (done || lia). done.
    + rewrite Ea, Eb. rewrite <- (Z.add_0_r (dh * 2 ^ 64)). apply divide_long; try done; try lia.
      pose proof (log2_u64 nh Hnh). assert (dh <> 1) by (intros ->; by apply Hp).
      assert (1 <= Z.log2 dh) by (apply Z.log2_le_pow2; lia). lia.
  - rewrite andb_false_r. assert (0 < nh) as Hn0 by (unfold is_u64 in *; lia).
    destruct (Z.eqb_spec dh 0) as [Ed |].
    + rewrite Ed, Z.add_0_l in Eb. assert (0 < dl) as Hd0 by (unfold is_u64 in *; lia). rewrite Eb.
      destruct (Z.eqb_spec (Z.land dl (u64 (dl - 1))) 0) as [Ep | Hp]; [| rewrite Ea; by apply divide_short].
      pose proof (log2_u64 dl Hdl). apply power_of_two in Ep; try done. set (k := Z.log2 dl) in *.
      rewrite Ep, land_pow2_low by lia. destruct (Z.eqb_spec (2 ^ k) 1) as [E1 |].
      * by rewrite E1, !Z.mod_1_r, Z.div_1_r.
      * rewrite ctzll_power by lia. assert (k <> 0) by (intros E; by rewrite E in *).
        cbn [mbind res_bind]. rewrite shl64_ok, !shr64_ok by lia. cbn [mbind res_bind].
        rewrite shift_right_words, Ea by (done || lia).
        destruct (shift_down nh nl k ltac:(lia) Hnl) as (_ & -> & _). done.
    + assert (0 < dh) as Hd0 by (unfold is_u64 in *; lia).
      pose proof (log2_u64 nh Hnh). pose proof (log2_u64 dh Hdh).
      rewrite Ea, Eb. apply divide_long; try done; lia.
Qed.

(** ** Signed quotients and remainders *)

Lemma sign_ti a : is_ti a -> Z.shiftr a 127 = if a <? 0 then -1 else 0.
Proof. intros Ha. unfold is_ti in Ha. rewrite shiftr_div by lia. destruct (Z.ltb_spec a 0); divmod. Qed.

(** The absolute value of the smallest number is none of the type. *)
Lemma negate_if_spec a :
  is_ti a ->
  negate_if (if a <? 0 then -1 else 0) a = if a =? - 2 ^ 127 then Undef "signed overflow" else Ok (Z.abs a).
Proof.
  intros Ha. unfold is_ti, negate_if, sub_ti in *.
  destruct (Z.ltb_spec a 0), (Z.eqb_spec a (- 2 ^ 127)); try lia.
  - subst a. done.
  - rewrite Z.lxor_m1_r. unfold Z.lnot. destruct (Z.leb_spec (- 2 ^ 127) (Z.pred (- a) - -1)); [| lia].
    destruct (Z.ltb_spec (Z.pred (- a) - -1) (2 ^ 127)); [| lia]. cbn [andb]. f_equal. lia.
  - rewrite Z.lxor_0_r, Z.sub_0_r. destruct (Z.leb_spec (- 2 ^ 127) a), (Z.ltb_spec a (2 ^ 127)); try lia.
    cbn [andb]. f_equal. lia.
Qed.

(** The sign put back on an unsigned quotient. *)
Lemma signed_quotient q (neg : bool) :
  0 <= q < 2 ^ 127 ->
  let s := if neg then -1 else 0 in
  swrap 128 (u128 (u128 (Z.lxor q (u128 s)) - u128 s)) = if neg then - q else q.
Proof.
  intros Hq s. subst s. destruct neg.
  - change (u128 (-1)) with (Z.ones 128). rewrite lxor_ones by lia. rewrite (wrap_small 128 (_ - q)) by lia.
    replace (2 ^ 128 - 1 - q - Z.ones 128) with (- q) by (rewrite Z.ones_equiv; lia).
    rewrite <- (swrap_small 128 (- q)) at 2 by (cbn -[Z.pow]; lia).
    apply swrap_congr; [lia |]. unfold wrap. by rewrite Z.mod_mod by lia.
  - change (u128 0) with 0. rewrite Z.lxor_0_r, Z.sub_0_r. rewrite !(wrap_small 128 q) by lia.
    apply swrap_small; cbn -[Z.pow]; lia.
Qed.

Lemma abs_tu a : is_ti a -> a <> - 2 ^ 127 -> 0 <= Z.abs a < 2 ^ 127.
Proof. unfold is_ti. lia. Qed.

Lemma divti3_spec a b :
  is_ti a -> is_ti b ->
  divti3 a b =
  if (a =? - 2 ^ 127) || (b =? - 2 ^ 127) then Undef "signed overflow"
  else if b =? 0 then Undef "division by zero" else Ok (Z.quot a b).
Proof.
  intros Ha Hb. unfold divti3. rewrite !sign_ti, !negate_if_spec by done.
  destruct (Z.eqb_spec a (- 2 ^ 127)) as [|Hna]; [done |]. cbn [mbind res_bind orb].
  destruct (Z.eqb_spec b (- 2 ^ 127)) as [|Hnb]; [done |]. cbn [mbind res_bind].
  pose proof (abs_tu a Ha Hna) as Haa. pose proof (abs_tu b Hb Hnb) as Hbb.
  rewrite udivmodti4_spec by (unfold is_tu; lia).
  assert ((Z.abs b =? 0) = (b =? 0)) as -> by (destruct (Z.eqb_spec (Z.abs b) 0), (Z.eqb_spec b 0); lia).
  destruct (Z.eqb_spec b 0) as [|Hb0]; [done |]. cbn [mbind res_bind]. f_equal.
  assert (Z.lxor (if a <? 0 then -1 else 0) (if b <? 0 then -1 else 0) =
          if xorb (a <? 0) (b <? 0) then -1 else 0) as -> by (by destruct (a <? 0), (b <? 0)).
  assert (0 <= Z.abs a / Z.abs b < 2 ^ 127) as HQ.
  { split; [apply Z.div_pos; lia |]. apply Z.div_lt_upper_bound; nia. }
  rewrite signed_quotient by done. rewrite Z.quot_div by done.
  destruct (Z.ltb_spec a 0), (Z.ltb_spec b 0); cbn [xorb].
  - rewrite !Z.sgn_neg by lia. lia.
  - rewrite Z.sgn_neg, Z.sgn_pos by lia. lia.
  - rewrite (Z.sgn_neg b) by lia. destruct (Z.eq_dec a 0) as [-> |]; [done |]. rewrite Z.sgn_pos by lia. lia.
  - rewrite (Z.sgn_pos b) by lia. destruct (Z.eq_dec a 0) as [-> |]; [done |]. rewrite Z.sgn_pos by lia. lia.
Qed.

Lemma modti3_spec a b :
  is_ti a -> is_ti b ->
  modti3 a b =
  if (a =? - 2 ^ 127) || (b =? - 2 ^ 127) then Undef "signed overflow"
  else if b =? 0 then Undef "division by zero" else Ok (Z.rem a b).
Proof.
  intros Ha Hb. unfold modti3. cbv zeta. rewrite !sign_ti, !negate_if_spec by done. rewrite orb_comm.
  destruct (Z.eqb_spec b (- 2 ^ 127)) as [|Hnb]; [done |]. cbn [mbind res_bind orb].
  destruct (Z.eqb_spec a (- 2 ^ 127)) as [|Hna]; [done |]. cbn [mbind res_bind].
  pose proof (abs_tu a Ha Hna) as Haa. pose proof (abs_tu b Hb Hnb) as Hbb.
  rewrite udivmodti4_spec by (unfold is_tu; lia).
  assert ((Z.abs b =? 0) = (b =? 0)) as -> by (destruct (Z.eqb_spec (Z.abs b) 0), (Z.eqb_spec b 0); lia).
  destruct (Z.eqb_spec b 0) as [|Hb0]; [done |]. cbn [mbind res_bind].
  pose proof (Z.mod_pos_bound (Z.abs a) (Z.abs b) ltac:(lia)) as HR. set (r := Z.abs a mod Z.abs b) in *.
  rewrite swrap_small by (cbn -[Z.pow]; lia). rewrite Z.rem_mod by done. fold r. unfold negate_if, sub_ti.
  destruct (Z.ltb_spec a 0).
  - rewrite Z.lxor_m1_r. unfold Z.lnot. destruct (Z.leb_spec (- 2 ^ 127) (Z.pred (- r) - -1)); [| lia].
    destruct (Z.ltb_spec (Z.pred (- r) - -1) (2 ^ 127)); [| lia]. cbn [andb]. f_equal. rewrite Z.sgn_neg by lia. lia.
  - rewrite Z.lxor_0_r, Z.sub_0_r. destruct (Z.leb_spec (- 2 ^ 127) r), (Z.ltb_spec r (2 ^ 127)); try lia.
    cbn [andb]. f_equal. destruct (Z.eq_dec a 0) as [-> |]; [| rewrite Z.sgn_pos; lia]. subst r.
    rewrite Z.mod_0_l by lia. done.
Qed.

(** ** Arithmetic that stops on overflow *)

(** What the checked operations promise: the exact result or a stop. *)
Definition checked (x : Z) : res Z := if (MIN <=? x) && (x <=? MAX) then Ok x else compilerrt_abort.

Lemma range_MAX : MAX = 2 ^ 127 - 1.
Proof. done. Qed.

Lemma in_range x : (MIN <=? x) && (x <=? MAX) = true <-> is_ti x.
Proof. rewrite range_MAX. unfold MIN, is_ti. rewrite andb_true_iff, !Z.leb_le. lia. Qed.

(** A sum or difference leaves the type by one turn of the circle at most. *)
Lemma swrap_once x :
  - 2 ^ 128 <= x < 2 ^ 128 ->
  (is_ti x /\ swrap 128 x = x) \/ (x < - 2 ^ 127 /\ swrap 128 x = x + 2 ^ 128) \/
  (2 ^ 127 <= x /\ swrap 128 x = x - 2 ^ 128).
Proof.
  intros Hx. unfold swrap, is_ti. change (128 - 1) with 127.
  destruct (Z.lt_ge_cases x (- 2 ^ 127)); [| destruct (Z.lt_ge_cases x (2 ^ 127))].
  - right. left. split; [done |].
    assert ((x + 2 ^ 127) mod 2 ^ 128 = x + 2 ^ 127 + 2 ^ 128) as -> by (symmetry; apply Z.mod_unique with (-1); lia). lia.
  - left. rewrite Z.mod_small by lia. lia.
  - right. right. split; [done |].
    assert ((x + 2 ^ 127) mod 2 ^ 128 = x + 2 ^ 127 - 2 ^ 128) as -> by (symmetry; apply Z.mod_unique with 1; lia). lia.
Qed.

Ltac checked_case :=
  unfold checked; rewrite range_MAX; unfold MIN, is_ti in *;
  repeat match goal with
  | |- context [Z.leb ?x ?y] => destruct (Z.leb_spec x y)
  | |- context [Z.ltb ?x ?y] => destruct (Z.ltb_spec x y)
  | |- context [Z.eqb ?x ?y] => destruct (Z.eqb_spec x y)
  end; cbn [andb orb]; try reflexivity; try (f_equal; lia); exfalso; lia.

Lemma addvti3_spec a b : is_ti a -> is_ti b -> addvti3 a b = checked (a + b).
Proof.
  intros Ha Hb. unfold addvti3.
  assert (swrap 128 (u128 a + u128 b) = swrap 128 (a + b)) as ->.
  { apply swrap_congr; [lia |]. unfold wrap. by rewrite <- Z.add_mod by lia. }
  destruct (swrap_once (a + b)) as [[? ->] | [[? ->] | [? ->]]]; [unfold is_ti in *; lia | checked_case ..].
Qed.

Lemma subvti3_spec a b : is_ti a -> is_ti b -> subvti3 a b = checked (a - b).
Proof.
  intros Ha Hb. unfold subvti3.
  assert (swrap 128 (u128 a - u128 b) = swrap 128 (a - b)) as ->.
  { apply swrap_congr; [lia |]. unfold wrap. by rewrite <- Zminus_mod by lia. }
  destruct (swrap_once (a - b)) as [[? ->] | [[? ->] | [? ->]]]; [unfold is_ti in *; lia | checked_case ..].
Qed.

Lemma absvti2_spec a : is_ti a -> absvti2 a = checked (Z.abs a).
Proof.
  intros Ha. unfold absvti2. rewrite sign_ti, negate_if_spec by done. change MIN with (- 2 ^ 127) at 1. checked_case.
Qed.

Lemma negvti2_spec a : is_ti a -> negvti2 a = checked (- a).
Proof. intros Ha. unfold negvti2, sub_ti. checked_case. Qed.

(** The product of two numbers other than the smallest leaves the type exactly if the
    test says so. *)
Lemma mul_overflows_spec a b :
  is_ti a -> is_ti b -> a <> MIN -> b <> MIN ->
  mul_overflows a b = Ok (negb ((MIN <=? a * b) && (a * b <=? MAX))).
Proof.
  intros Ha Hb Hna Hnb. unfold mul_overflows. rewrite !sign_ti, !negate_if_spec by done.
  change MIN with (- 2 ^ 127) in Hna, Hnb.
  destruct (Z.eqb_spec a (- 2 ^ 127)), (Z.eqb_spec b (- 2 ^ 127)); try done. cbn [mbind res_bind].
  pose proof (abs_tu a Ha Hna). pose proof (abs_tu b Hb Hnb). rewrite range_MAX.
  assert (Z.abs (a * b) = Z.abs a * Z.abs b) as EA by apply Z.abs_mul.
  destruct ((Z.abs a <? 2) || (Z.abs b <? 2)) eqn:E2.
  - f_equal. apply orb_true_iff in E2. rewrite !Z.ltb_lt in E2. unfold MIN.
    assert (- 2 ^ 127 <= a * b <= 2 ^ 127 - 1) by (destruct E2; nia).
    destruct (Z.leb_spec (- 2 ^ 127) (a * b)), (Z.leb_spec (a * b) (2 ^ 127 - 1)); cbn [andb negb]; (reflexivity || lia).
  - apply orb_false_iff in E2. rewrite !Z.ltb_ge in E2. destruct E2 as [Ha2 Hb2].
    set (x := Z.abs a) in *. set (y := Z.abs b) in *.
    assert (forall M, 0 <= M -> (M / y <? x) = (M <? x * y)) as HQ.
    { intros M HM. pose proof (Z.div_mod M y ltac:(lia)). pose proof (Z.mod_pos_bound M y ltac:(lia)).
      destruct (Z.ltb_spec (M / y) x), (Z.ltb_spec M (x * y)); nia. }
    assert (((if a <? 0 then -1 else 0) =? (if b <? 0 then -1 else 0)) = Bool.eqb (a <? 0) (b <? 0)) as ->
      by (by destruct (a <? 0), (b <? 0)).
    unfold div_ti, sub_ti. destruct (Bool.eqb (a <? 0) (b <? 0)) eqn:Es.
    + apply eqb_prop in Es. rewrite Z.quot_div_nonneg by lia. destruct (Z.eqb_spec y 0); [lia |].
      change (2 ^ 127 - 1 =? MIN) with false. cbn [andb mbind res_bind]. rewrite HQ by lia. f_equal.
      assert (a * b = x * y) as -> by (destruct (Z.ltb_spec a 0), (Z.ltb_spec b 0); (discriminate || nia)).
      unfold MIN. destruct (Z.leb_spec (- 2 ^ 127) (x * y)); [| nia]. cbn [andb].
      by rewrite Z.ltb_antisym.
    + apply eqb_false_iff in Es. destruct (Z.leb_spec (- 2 ^ 127) (0 - y)), (Z.ltb_spec (0 - y) (2 ^ 127)); try lia.
      cbn [andb mbind res_bind]. destruct (Z.eqb_spec (0 - y) 0), (Z.eqb_spec (0 - y) (-1)); try lia.
      rewrite andb_false_r. cbn [mbind res_bind].
      assert (Z.quot MIN (0 - y) = 2 ^ 127 / y) as ->.
      { replace (0 - y) with (Z.opp y) by lia. change MIN with (Z.opp (2 ^ 127)).
        rewrite Z.quot_opp_opp by lia. apply Z.quot_div_nonneg; lia. }
      rewrite HQ by lia. f_equal.
      assert (a * b = - (x * y)) as -> by (destruct (Z.ltb_spec a 0), (Z.ltb_spec b 0); (contradiction || nia)).
      unfold MIN. destruct (Z.leb_spec (- (x * y)) (2 ^ 127 - 1)); [| nia].
      rewrite andb_true_r. destruct (Z.ltb_spec (2 ^ 127) (x * y)), (Z.leb_spec (- 2 ^ 127) (- (x * y))); (reflexivity || lia).
Qed.

Lemma MIN_product b : is_ti b -> ((MIN <=? MIN * b) && (MIN * b <=? MAX)) = (b =? 0) || (b =? 1).
Proof. intros Hb. checked_case. Qed.

Lemma mulvti3_spec a b : is_ti a -> is_ti b -> mulvti3 a b = checked (a * b).
Proof.
  intros Ha Hb. unfold mulvti3, mul_ti, checked.
  destruct (Z.eqb_spec a MIN) as [-> | Hna]; [rewrite MIN_product by done; by destruct (_ || _) |].
  destruct (Z.eqb_spec b MIN) as [-> | Hnb]; [rewrite Z.mul_comm, MIN_product by done; by destruct (_ || _) |].
  rewrite mul_overflows_spec by done. cbn [mbind res_bind]. by destruct (_ && _).
Qed.

(** [__muloti4] computes the product before it tests it: where the flag would be set, the
    product has already overflowed. *)
Lemma muloti4_spec a b :
  is_ti a -> is_ti b ->
  muloti4 a b = if (MIN <=? a * b) && (a * b <=? MAX) then Ok (a * b, 0) else Undef "signed overflow".
Proof.
  intros Ha Hb. unfold muloti4, mul_ti.
  destruct ((MIN <=? a * b) && (a * b <=? MAX)) eqn:ER; [| done]. cbn [mbind res_bind].
  destruct (Z.eqb_spec a MIN) as [-> | Hna].
  { rewrite MIN_product in ER by done. by rewrite <- negb_orb, ER. }
  destruct (Z.eqb_spec b MIN) as [-> | Hnb].
  { rewrite Z.mul_comm, MIN_product in ER by done. by rewrite <- negb_orb, ER. }
  rewrite mul_overflows_spec, ER by done. done.
Qed.

(** ** Comparisons and bits *)

Lemma ucmpti2_spec a b : ucmpti2 a b = match a ?= b with Lt => 0 | Eq => 1 | Gt => 2 end.
Proof.
  pose proof (words a) as [Ha Ea]. pose proof (words b) as [Hb Eb]. unfold ucmpti2, is_u64 in *.
  destruct (Z.ltb_spec (word_high a) (word_high b)); [by rewrite (proj2 (Z.compare_lt_iff a b)) by lia |].
  destruct (Z.ltb_spec (word_high b) (word_high a)); [by rewrite (proj2 (Z.compare_gt_iff a b)) by lia |].
  destruct (Z.ltb_spec (word_low a) (word_low b)); [by rewrite (proj2 (Z.compare_lt_iff a b)) by lia |].
  destruct (Z.ltb_spec (word_low b) (word_low a)); [by rewrite (proj2 (Z.compare_gt_iff a b)) by lia |].
  by rewrite (proj2 (Z.compare_eq_iff a b)) by lia.
Qed.

Lemma cmpti2_spec a b : cmpti2 a b = match a ?= b with Lt => 0 | Eq => 1 | Gt => 2 end.
Proof. apply ucmpti2_spec. Qed.

(** The position of the first one. *)
Definition lowest_bit (x k : Z) : Prop :=
  0 <= k /\ Z.testbit x k = true /\ forall i, 0 <= i < k -> Z.testbit x i = false.

Lemma odd_part p : exists k m, 0 <= k /\ Z.pos p = (2 * m + 1) * 2 ^ k.
Proof.
  induction p as [p _ | p (k & m & Hk & E) |].
  - exists 0, (Z.pos p). lia.
  - exists (k + 1), m. split; [lia |]. rewrite Pos2Z.inj_xO, E, Z.pow_add_r by lia. ring.
  - exists 0, 0. lia.
Qed.

Lemma land_opp_odd m : Z.land (2 * m + 1) (- (2 * m + 1)) = 1.
Proof.
  replace (- (2 * m + 1)) with (2 * Z.lnot m + 1) by (unfold Z.lnot; lia). apply Z.bits_inj'. intros i Hi.
  rewrite Z.land_spec. destruct (Z.eq_dec i 0) as [-> |]; [by rewrite !Z.testbit_odd_0 |].
  replace i with (Z.succ (i - 1)) by lia. rewrite !Z.testbit_odd_succ by lia.
  rewrite Z.lnot_spec, andb_negb_r by lia. symmetry. by rewrite (Z.testbit_odd_succ 0), Z.bits_0 by lia.
Qed.

Lemma ctzll_spec x : is_u64 x -> 0 < x -> exists k, builtin_ctzll x = Ok k /\ lowest_bit x k.
Proof.
  intros Hx Hpos. unfold builtin_ctzll. destruct (Z.eqb_spec x 0); [lia |].
  destruct x as [| p |]; try lia. destruct (odd_part p) as (k & m & Hk & E). exists k. rewrite E. split.
  - f_equal. rewrite <- Z.mul_opp_l, <- !Z.shiftl_mul_pow2, <- Z.shiftl_land, land_opp_odd by done.
    rewrite Z.shiftl_mul_pow2, Z.mul_1_l by done. by apply Z.log2_pow2.
  - split; [done |]. split.
    + rewrite Z.mul_pow2_bits, Z.sub_diag by done. apply Z.testbit_odd_0.
    + intros i Hi. rewrite Z.mul_pow2_bits by done. apply Z.testbit_neg_r. lia.
Qed.

(** The bits of a number in its words. *)
Lemma word_low_bits a i : 0 <= i < 64 -> Z.testbit (word_low a) i = Z.testbit a i.
Proof. intros Hi. unfold word_low, wrap. by rewrite Z.mod_pow2_bits_low by lia. Qed.

Lemma word_high_bits a i : 0 <= i < 64 -> Z.testbit (u64 (word_high a)) i = Z.testbit a (i + 64).
Proof.
  intros Hi. unfold wrap. rewrite Z.mod_pow2_bits_low by lia. unfold word_high. by rewrite Z.shiftr_spec by lia.
Qed.

Lemma lowest_bit_u64 x k : is_u64 x -> lowest_bit x k -> k < 64.
Proof.
  intros Hx (Hk & HB & _). destruct (Z.lt_ge_cases k 64) as [|Hge]; [done |]. exfalso.
  destruct (Z.eq_dec x 0) as [-> |]; [by rewrite Z.bits_0 in HB |]. pose proof (log2_u64 x Hx).
  unfold is_u64 in Hx. rewrite Z.bits_above_log2 in HB by lia. done.
Qed.

Lemma lowest_bit_low a k : lowest_bit (word_low a) k -> lowest_bit a k.
Proof.
  intros HL. pose proof (lowest_bit_u64 _ _ (proj1 (words a)) HL). destruct HL as (Hk & HB & HZ).
  split; [done |]. split; [by rewrite <- word_low_bits by lia |].
  intros i Hi. rewrite <- word_low_bits by lia. auto.
Qed.

Lemma lowest_bit_high a k : word_low a = 0 -> lowest_bit (u64 (word_high a)) k -> lowest_bit a (k + 64).
Proof.
  intros E HL. pose proof (lowest_bit_u64 _ _ (u64_range _) HL). destruct HL as (Hk & HB & HZ).
  split; [lia |]. split; [by rewrite <- word_high_bits by lia |].
  intros i Hi. destruct (Z.lt_ge_cases i 64).
  - rewrite <- word_low_bits, E by lia. apply Z.bits_0.
  - replace i with (i - 64 + 64) by lia. rewrite <- word_high_bits by lia. apply HZ. lia.
Qed.

Lemma u64_high_pos a : is_ti a -> word_high a <> 0 -> 0 < u64 (word_high a).
Proof.
  intros Ha Hh. pose proof (words a) as [Hl Ea]. pose proof (u64_range (word_high a)) as HR.
  unfold is_ti, is_u64 in *. destruct (Z.eq_dec (u64 (word_high a)) 0) as [E|]; [| lia].
  unfold wrap in E. divmod.
Qed.

Lemma low_pos a : word_low a <> 0 -> 0 < word_low a.
Proof. intros H. pose proof (words a) as [Hl _]. unfold is_u64 in Hl. lia. Qed.

Lemma ctzti2_spec a : is_ti a -> a <> 0 -> exists k, ctzti2 a = Ok k /\ lowest_bit a k.
Proof.
  intros Ha Hn. unfold ctzti2. pose proof (words a) as [Hl Ea]. destruct (Z.eqb_spec (word_low a) 0) as [E |].
  - rewrite Z.land_m1_r, Z.land_0_r, Z.lor_0_r.
    destruct (ctzll_spec (u64 (word_high a))) as (k & -> & HK); [done | apply u64_high_pos; [done | lia] |].
    exists (k + 64). split; [done | by apply lowest_bit_high].
  - change (Z.lnot 0) with (-1). rewrite Z.land_0_r, Z.land_m1_r, Z.lor_0_l.
    rewrite wrap_small by (unfold is_u64 in Hl; lia).
    destruct (ctzll_spec (word_low a)) as (k & -> & HK); [done | by apply low_pos |].
    exists k. cbn [mbind res_bind]. rewrite Z.land_0_l, Z.add_0_r. split; [done | by apply lowest_bit_low].
Qed.

Lemma ffsti2_spec a :
  is_ti a -> ffsti2 a = if a =? 0 then Ok 0 else k ← ctzti2 a; Ok (k + 1).
Proof.
  intros Ha. unfold ffsti2, ctzti2. pose proof (words a) as [Hl Ea]. destruct (Z.eqb_spec (word_low a) 0) as [E |].
  - rewrite Z.land_m1_r, Z.land_0_r, Z.lor_0_r. change (Z.land (-1) 64) with 64.
    destruct (Z.eqb_spec (word_high a) 0), (Z.eqb_spec a 0); try lia; [done |].
    destruct (builtin_ctzll _); try done. cbn [mbind res_bind]. f_equal. lia.
  - unfold is_u64 in Hl. destruct (Z.eqb_spec a 0); [lia |]. change (Z.lnot 0) with (-1).
    rewrite Z.land_0_r, Z.land_m1_r, Z.lor_0_l, wrap_small by lia.
    destruct (builtin_ctzll _); try done. cbn [mbind res_bind]. rewrite Z.land_0_l. f_equal. lia.
Qed.

Lemma clzti2_spec a : is_ti a -> a <> 0 -> clzti2 a = Ok (127 - Z.log2 (u128 a)).
Proof.
  intros Ha Hn. unfold clzti2, builtin_clzll. pose proof (words a) as [Hl Ea].
  destruct (Z.eqb_spec (word_high a) 0) as [E |].
  - rewrite Z.land_0_r, Z.land_m1_r, Z.lor_0_l, wrap_small by (unfold is_u64 in Hl; lia).
    destruct (Z.eqb_spec (word_low a) 0); [lia |]. cbn [mbind res_bind]. change (Z.land (-1) 64) with 64.
    rewrite wrap_small by (unfold is_u64 in Hl; lia). f_equal.
    replace (Z.log2 a) with (Z.log2 (word_low a)) by (f_equal; lia). lia.
  - change (Z.lnot 0) with (-1). rewrite Z.land_0_r, Z.land_m1_r, Z.lor_0_r.
    pose proof (u64_high_pos a Ha ltac:(done)) as Hp. destruct (Z.eqb_spec (u64 (word_high a)) 0); [lia |].
    cbn [mbind res_bind]. rewrite Z.land_0_l. f_equal.
    assert (u128 a = u64 (word_high a) * 2 ^ 64 + word_low a) as ->.
    { rewrite Ea at 1. unfold wrap, is_u64 in *. symmetry. apply Z.mod_unique with (word_high a / 2 ^ 64).
      - left. pose proof (Z.mod_pos_bound (word_high a) (2 ^ 64)). lia.
      - pose proof (Z.div_mod (word_high a) (2 ^ 64)). lia. }
    assert (Z.log2 (u64 (word_high a) * 2 ^ 64 + word_low a) = 64 + Z.log2 (u64 (word_high a))) as ->; [| lia].
    destruct (word_lengths _ _ Hl Hp). pose proof (Z.log2_nonneg (u64 (word_high a))).
    apply Z.log2_unique; [lia |]. replace (Z.succ _) with (65 + Z.log2 (u64 (word_high a))) by lia. done.
Qed.

(** ** The contract of the routines *)

(** C12. Quotients and remainders are those of the numbers, for all divisors but zero. The
    signed ones round to zero; a smallest number among their operands overflows while its
    absolute value is taken. *)
Theorem division_exact (a b : Z) :
  (is_tu a -> is_tu b ->
   udivmodti4 a b = (if b =? 0 then Undef "division by zero" else Ok (a / b, a mod b)) /\
   udivti3 a b = (if b =? 0 then Undef "division by zero" else Ok (a / b)) /\
   umodti3 a b = (if b =? 0 then Undef "division by zero" else Ok (a mod b))) /\
  (is_ti a -> is_ti b ->
   let result x :=
     if (a =? - 2 ^ 127) || (b =? - 2 ^ 127) then Undef "signed overflow"
     else if b =? 0 then Undef "division by zero" else Ok x in
   divti3 a b = result (Z.quot a b) /\ modti3 a b = result (Z.rem a b)).
Proof.
  split.
  - intros Ha Hb. unfold udivti3, umodti3. rewrite udivmodti4_spec by done. by destruct (b =? 0).
  - intros Ha Hb. split; [by apply divti3_spec | by apply modti3_spec].
Qed.

Lemma division_exact_witness :
  (udivmodti4 (2 ^ 127 + 12345) (2 ^ 65 + 3) = Ok ((2 ^ 127 + 12345) / (2 ^ 65 + 3), (2 ^ 127 + 12345) mod (2 ^ 65 + 3)) /\
   divti3 (- 2 ^ 100) 7 = Ok (Z.quot (- 2 ^ 100) 7)) /\
  modti3 5 (- 2 ^ 127) = Undef "signed overflow".
Proof.
  split; [split |].
  - apply (proj1 (division_exact (2 ^ 127 + 12345) (2 ^ 65 + 3))); unfold is_tu; lia.
  - apply (proj2 (division_exact (- 2 ^ 100) 7)); unfold is_ti; lia.
  - apply (proj2 (division_exact 5 (- 2 ^ 127))); unfold is_ti; lia.
Defined.

(** C13. Sums, differences, products, negations and absolute values of the [v] routines are
    exact or stop the program; [__muloti4], which is to report an overflow in a flag, has
    let the product overflow before. *)
Theorem checked_exact (a b : Z) :
  is_ti a -> is_ti b ->
  addvti3 a b = checked (a + b) /\ subvti3 a b = checked (a - b) /\ mulvti3 a b = checked (a * b) /\
  negvti2 a = checked (- a) /\ absvti2 a = checked (Z.abs a) /\
  muloti4 a b = (if (MIN <=? a * b) && (a * b <=? MAX) then Ok (a * b, 0) else Undef "signed overflow").
Proof.
  intros Ha Hb.
  auto 10 using addvti3_spec, subvti3_spec, mulvti3_spec, negvti2_spec, absvti2_spec, muloti4_spec.
Qed.

Lemma checked_exact_witness :
  mulvti3 (2 ^ 64) (2 ^ 63 - 1) = Ok (2 ^ 127 - 2 ^ 64) /\ muloti4 (2 ^ 64) (2 ^ 64) = Undef "signed overflow".
Proof.
  split.
  - destruct (checked_exact (2 ^ 64) (2 ^ 63 - 1)) as (_ & _ & -> & _); [unfold is_ti; lia .. | vm_compute; reflexivity].
  - destruct (checked_exact (2 ^ 64) (2 ^ 64)) as (_ & _ & _ & _ & _ & ->); [unfold is_ti; lia .. | vm_compute; reflexivity].
Defined.

(** Comparisons, and the positions of the first and the last one. *)
Theorem bits_exact (a b : Z) :
  cmpti2 a b = match a ?= b with Lt => 0 | Eq => 1 | Gt => 2 end /\
  ucmpti2 a b = match a ?= b with Lt => 0 | Eq => 1 | Gt => 2 end /\
  (is_ti a -> a <> 0 ->
   clzti2 a = Ok (127 - Z.log2 (u128 a)) /\
   exists k, lowest_bit a k /\ ctzti2 a = Ok k /\ ffsti2 a = Ok (k + 1)).
Proof.
  split; [apply cmpti2_spec |]. split; [apply ucmpti2_spec |]. intros Ha Hn.
  split; [by apply clzti2_spec |]. destruct (ctzti2_spec a Ha Hn) as (k & E & HK). exists k.
  rewrite ffsti2_spec, E by done. destruct (Z.eqb_spec a 0); done.
Qed.
