(* ===== verification/Printf.v ===== *)
(** * platon_printf.c: formatted output

    [printf], [sprintf], [snprintf], [vsnprintf] and [fctprintf] of
    [src/libraries/libc/musl/src/stdio/platon_printf.c], with which a contract prints:
    each character of the output goes to a function [out] with its position and the
    buffer's size. [int], [long], pointers and [size_t] have 32 bits, [char] is signed,
    [double] is binary64. Characters are bytes. *)

From Stdlib Require Import SpecFloat.
From S2P Require Import Prelude.

(** ** Definitions *)

Definition PRINTF_NTOA_BUFFER_SIZE : Z := 32.
Definition PRINTF_FTOA_BUFFER_SIZE : Z := 32.
(** They are the same, which the functions both conversions share rely on. *)
(** The buffer of [printf]. *)
Definition PRINTF_BUFFER : Z := 1024.

(** The flags, by the number of their bit. *)
Definition FLAGS_ZEROPAD : Z := 0.
Definition FLAGS_LEFT : Z := 1.
Definition FLAGS_PLUS : Z := 2.
Definition FLAGS_SPACE : Z := 3.
Definition FLAGS_HASH : Z := 4.
Definition FLAGS_UPPERCASE : Z := 5.
Definition FLAGS_CHAR : Z := 6.
Definition FLAGS_SHORT : Z := 7.
Definition FLAGS_LONG : Z := 8.
Definition FLAGS_LONG_LONG : Z := 9.
Definition FLAGS_PRECISION : Z := 10.

Definition has (flags k : Z) : bool := Z.testbit flags k.

(** *** Where characters go *)

Definition _out_buffer (character : Z) (buffer : bytes) (idx maxlen : Z) : res bytes :=
  if idx <? maxlen then
    if idx <? len buffer then Ok (<[Z.to_nat idx := character]> buffer) else Undef "write past the buffer"
  else Ok buffer.

Definition _out_null {B} (character : Z) (buffer : B) (idx maxlen : Z) : res B := Ok buffer.

(** [_putchar] appends to what [platon_debug] is given. *)
Definition _putchar (c : Z) (debug : bytes) : bytes := debug ++ [c].
Definition _out_char (character : Z) (debug : bytes) (idx maxlen : Z) : res bytes :=
  if character =? 0 then Ok debug else Ok (_putchar character debug).

(** The function of the caller and its argument. *)
Definition _out_fct {A} (fct : Z -> A -> A) (character : Z) (arg : A) (idx maxlen : Z) : res A :=
  Ok (fct character arg).

(** *** Helpers *)

(** The position of the terminating 0 of the string at the start of an object. *)
Fixpoint _strlen (str : bytes) : res Z :=
  match str with
  | [] => Undef "read past the string"
  | c :: rest => if c =? 0 then Ok 0 else n ← _strlen rest; Ok (u32 (n + 1))
  end.

Definition _is_digit (ch : Z) : bool := (48 <=? ch) && (ch <=? 57).

(** [*format]: the format from the pointer on, with its terminating 0. *)
Definition format_char (format : bytes) : res Z :=
  match format with [] => Undef "read past the format" | c :: _ => Ok c end.

(** The number and the pointer after it. *)
Fixpoint _atoi (str : bytes) (i : Z) : res (Z * bytes) :=
  match str with
  | [] => Undef "read past the format"
  | c :: rest => if _is_digit c then _atoi rest (u32 (u32 (i * 10) + (c - 48))) else Ok (i, str)
  end.

(** An array on the stack is the list of the elements written; [buf[len++] = c] where the
    code has checked that there is room. *)
Definition room (buf : bytes) : bool := len buf <? PRINTF_NTOA_BUFFER_SIZE.
Definition store (buf : bytes) (c : Z) : bytes := if room buf then buf ++ [c] else buf.
(** [len--]. *)
Definition unstore (buf : bytes) : bytes := take (length buf - 1) buf.
(** [while ((len < limit) && (len < 32)) buf[len++] = '0']. *)
Definition store_zeros (limit : Z) (buf : bytes) : bytes :=
  buf ++ replicate (Z.to_nat (Z.min limit PRINTF_NTOA_BUFFER_SIZE - len buf)) 48.

(** The sign of a number. *)
Definition store_sign (buf : bytes) (negative : bool) (flags : Z) : bytes :=
  if negative then store buf 45
  else if has flags FLAGS_PLUS then store buf 43
  else if has flags FLAGS_SPACE then store buf 32
  else buf.
Definition signed (negative : bool) (flags : Z) : bool :=
  negative || has flags FLAGS_PLUS || has flags FLAGS_SPACE.

Section Output.
Context {B : Type} (out : Z -> B -> Z -> Z -> res B).

(** [out(c, buffer, idx++, maxlen)] for one character after the other. *)
Fixpoint emit (cs : bytes) (buffer : B) (idx maxlen : Z) : res (B * Z) :=
  match cs with
  | [] => Ok (buffer, idx)
  | c :: cs' => buffer' ← out c buffer idx maxlen; emit cs' buffer' (u32 (idx + 1)) maxlen
  end.

(** As many spaces. *)
Definition spaces (n : Z) : bytes := replicate (Z.to_nat n) 32.

(** The end of both conversions of numbers: spaces, the digits in reverse, spaces. *)
Definition put_number (buffer : B) (idx maxlen : Z) (buf : bytes) (width flags : Z) : res (B * Z) :=
  let start_idx := idx in
  '(buffer, idx) ←
    (if negb (has flags FLAGS_LEFT) && negb (has flags FLAGS_ZEROPAD)
     then emit (spaces (width - len buf)) buffer idx maxlen else Ok (buffer, idx));
  '(buffer, idx) ← emit (reverse buf) buffer idx maxlen;
  if has flags FLAGS_LEFT then emit (spaces (width - u32 (idx - start_idx))) buffer idx maxlen
  else Ok (buffer, idx).

(** *** Integers *)

Definition hash_prefix (buf : bytes) (base prec width flags : Z) : bytes :=
  let buf :=
    if negb (has flags FLAGS_PRECISION) && negb (len buf =? 0) && ((len buf =? prec) || (len buf =? width)) then
      let buf := unstore buf in
      if negb (len buf =? 0) && (base =? 16) then unstore buf else buf
    else buf in
  let buf :=
    if (base =? 16) && negb (has flags FLAGS_UPPERCASE) && room buf then store buf 120
    else if (base =? 16) && has flags FLAGS_UPPERCASE && room buf then store buf 88
    else if (base =? 2) && room buf then store buf 98
    else buf in
  store buf 48.

Definition _ntoa_format (buffer : B) (idx maxlen : Z) (buf : bytes) (negative : bool)
    (base prec width flags : Z) : res (B * Z) :=
  let buf := if negb (has flags FLAGS_LEFT) then store_zeros prec buf else buf in
  let buf := if negb (has flags FLAGS_LEFT) && has flags FLAGS_ZEROPAD then store_zeros width buf else buf in
  let buf := if has flags FLAGS_HASH then hash_prefix buf base prec width flags else buf in
  let buf := if negb (len buf =? 0) && (len buf =? width) && signed negative flags then unstore buf else buf in
  let buf := store_sign buf negative flags in
  put_number buffer idx maxlen buf width flags.

Definition digit_char (digit flags : Z) : Z :=
  if digit <? 10 then 48 + digit else (if has flags FLAGS_UPPERCASE then 65 else 97) + digit - 10.

(** The [do] loop, which makes 32 turns at most. *)
Fixpoint ntoa_loop (turns : nat) (value base flags : Z) (buf : bytes) : bytes :=
  match turns with
  | O => buf
  | S turns' =>
      let buf := buf ++ [digit_char (value mod base) flags] in
      let value := value / base in
      if value =? 0 then buf else ntoa_loop turns' value base flags buf
  end.

(** The same for both types. *)
Definition ntoa (buffer : B) (idx maxlen value : Z) (negative : bool) (base prec width flags : Z)
    : res (B * Z) :=
  let flags := if value =? 0 then Z.clearbit flags FLAGS_HASH else flags in
  let buf := if negb (has flags FLAGS_PRECISION) || negb (value =? 0) then ntoa_loop (Z.to_nat PRINTF_NTOA_BUFFER_SIZE) value base flags [] else [] in
  _ntoa_format buffer idx maxlen buf negative base prec width flags.
Definition _ntoa_long := ntoa.
Definition _ntoa_long_long := ntoa.

(** *** Floating point *)

Definition dbl (z : Z) : spec_float := binary_normalize 53 1024 z 0 false.
Definition dbl_sub : spec_float -> spec_float -> spec_float := SFsub 53 1024.
Definition dbl_mul : spec_float -> spec_float -> spec_float := SFmul 53 1024.
Definition dbl_half : spec_float := binary_normalize 53 1024 1 (-1) false.

(** A [double] as an integer type of range [lo, hi]: its integral part, if that is in range. *)
Definition dbl_to_int (lo hi : Z) (x : spec_float) : res Z :=
  match x with
  | S754_zero _ => Ok 0
  | S754_finite s m e =>
      let t := if 0 <=? e then Z.pos m * 2 ^ e else Z.pos m / 2 ^ (- e) in
      let t := if s : bool then - t else t in
      if (lo <=? t) && (t <=? hi) then Ok t else Undef "floating point number out of range"
  | _ => Undef "floating point number out of range"
  end.
Definition to_int : spec_float -> res Z := dbl_to_int (- 2 ^ 31) (2 ^ 31 - 1).
Definition to_ulong : spec_float -> res Z := dbl_to_int 0 (2 ^ 32 - 1).

(** [++whole], an [int]. *)
Definition incr_int (x : Z) : res Z := if x =? 2 ^ 31 - 1 then Undef "signed overflow" else Ok (x + 1).

Definition pow10 (prec : Z) : res spec_float :=
  if prec <? 10 then Ok (dbl (10 ^ prec)) else Undef "read past pow10".

(** The fractional digits, and [count] after the loop. *)
Fixpoint frac_loop (turns : nat) (frac count : Z) (buf : bytes) : bytes * Z :=
  match turns with
  | O => (buf, count)
  | S turns' =>
      let count := u32 (count - 1) in
      let buf := buf ++ [48 + frac mod 10] in
      let frac := frac / 10 in
      if frac =? 0 then (buf, count) else frac_loop turns' frac count buf
  end.

Fixpoint whole_loop (turns : nat) (whole : Z) (buf : bytes) : bytes :=
  match turns with
  | O => buf
  | S turns' =>
      let buf := buf ++ [48 + whole mod 10] in
      let whole := whole / 10 in
      if whole =? 0 then buf else whole_loop turns' whole buf
  end.

Definition turns_left (buf : bytes) : nat := Z.to_nat PRINTF_FTOA_BUFFER_SIZE - length buf.

(** [whole] and [frac] of a number that is not negative, for a precision in the table. *)
Definition round_fraction (value : spec_float) (prec : Z) : res (Z * Z) :=
  whole ← to_int value;
  pow ← pow10 prec;
  let tmp := dbl_mul (dbl_sub value (dbl whole)) pow in
  frac ← to_ulong tmp;
  let diff := dbl_sub tmp (dbl frac) in
  if SFltb dbl_half diff then
    let frac := u32 (frac + 1) in
    if SFleb pow (dbl frac) then whole ← incr_int whole; Ok (whole, 0) else Ok (whole, frac)
  else if SFeqb diff dbl_half && ((frac =? 0) || Z.odd frac) then Ok (whole, u32 (frac + 1))
  else Ok (whole, frac).

(** Without fractional digits: to the nearest. *)
Definition round_whole (value : spec_float) (whole : Z) : res Z :=
  let diff := dbl_sub value (dbl whole) in
  if SFltb dbl_half diff then incr_int whole
  else if SFeqb diff dbl_half && Z.odd whole then incr_int whole
  else Ok whole.

Definition fraction_digits (frac prec : Z) (buf : bytes) : bytes :=
  let '(buf, count) := frac_loop (turns_left buf) frac prec buf in
  store (buf ++ replicate (Z.to_nat (Z.min count (PRINTF_FTOA_BUFFER_SIZE - len buf))) 48) 46.

Definition _ftoa (buffer : B) (idx maxlen : Z) (value : spec_float) (prec width flags : Z) : res (B * Z) :=
  let negative := SFltb value (dbl 0) in
  let value := if negative then dbl_sub (dbl 0) value else value in
  let prec := if has flags FLAGS_PRECISION then prec else 6 in
  let zeros := Z.max 0 (Z.min PRINTF_FTOA_BUFFER_SIZE (prec - 9)) in
  let buf := replicate (Z.to_nat zeros) 48 in
  let prec := prec - zeros in
  '(whole, frac) ← round_fraction value prec;
  if SFltb (dbl 0x7FFFFFFF) value then Ok (buffer, 0)
  else
    '(whole, buf) ←
      (if prec =? 0 then whole ← round_whole value whole; Ok (whole, buf)
       else Ok (whole, fraction_digits frac prec buf));
    let buf := whole_loop (turns_left buf) whole buf in
    let buf := if negb (has flags FLAGS_LEFT) && has flags FLAGS_ZEROPAD then store_zeros width buf else buf in
    let buf := if (len buf =? width) && signed negative flags then unstore buf else buf in
    let buf := store_sign buf negative flags in
    put_number buffer idx maxlen buf width flags.

(** *** The format *)

(** An argument: [int], [unsigned], [long], [unsigned long] and [size_t], [long long] and
    [unsigned long long], [double], the object a [char*] points to, [void*]. *)
Inductive vararg := VInt (v : Z) | VLongLong (v : Z) | VDouble (d : spec_float) | VString (object : bytes) | VPointer (p : Z).

Definition va_int (va : list vararg) : res (Z * list vararg) :=
  match va with VInt v :: va' => Ok (u32 v, va') | _ => Undef "va_arg" end.
Definition va_long_long (va : list vararg) : res (Z * list vararg) :=
  match va with VLongLong v :: va' => Ok (u64 v, va') | _ => Undef "va_arg" end.
Definition va_double (va : list vararg) : res (spec_float * list vararg) :=
  match va with VDouble d :: va' => Ok (d, va') | _ => Undef "va_arg" end.
Definition va_string (va : list vararg) : res (bytes * list vararg) :=
  match va with VString s :: va' => Ok (s, va') | _ => Undef "va_arg" end.
Definition va_pointer (va : list vararg) : res (Z * list vararg) :=
  match va with VPointer p :: va' => Ok (u32 p, va') | _ => Undef "va_arg" end.

Fixpoint flags_loop (format : bytes) (flags : Z) : res (Z * bytes) :=
  match format with
  | [] => Undef "read past the format"
  | c :: rest =>
      if c =? 48 then flags_loop rest (Z.setbit flags FLAGS_ZEROPAD)
      else if c =? 45 then flags_loop rest (Z.setbit flags FLAGS_LEFT)
      else if c =? 43 then flags_loop rest (Z.setbit flags FLAGS_PLUS)
      else if c =? 32 then flags_loop rest (Z.setbit flags FLAGS_SPACE)
      else if c =? 35 then flags_loop rest (Z.setbit flags FLAGS_HASH)
      else Ok (flags, format)
  end.

(** [-w] of an [int] that is negative. *)
Definition neg_int (w : Z) : res Z := if w =? - 2 ^ 31 then Undef "signed overflow" else Ok (- w).

(** The width, the flags, the rest of the format and of the arguments. *)
Definition width_field (format : bytes) (va : list vararg) (flags : Z) : res (Z * Z * bytes * list vararg) :=
  c ← format_char format;
  if _is_digit c then '(width, format) ← _atoi format 0; Ok (width, flags, format, va)
  else if c =? 42 then
    '(v, va) ← va_int va;
    let w := swrap 32 v in
    if w <? 0 then w ← neg_int w; Ok (w, Z.setbit flags FLAGS_LEFT, tail format, va)
    else Ok (w, flags, tail format, va)
  else Ok (0, flags, format, va).

Definition precision_field (format : bytes) (va : list vararg) (flags : Z) : res (Z * Z * bytes * list vararg) :=
  c ← format_char format;
  if c =? 46 then
    let flags := Z.setbit flags FLAGS_PRECISION in
    let format := tail format in
    c ← format_char format;
    if _is_digit c then '(precision, format) ← _atoi format 0; Ok (precision, flags, format, va)
    else if c =? 42 then
      '(v, va) ← va_int va;
      Ok (Z.max 0 (swrap 32 v), flags, tail format, va)
    else Ok (0, flags, format, va)
  else Ok (0, flags, format, va).

(** [ptrdiff_t] and [size_t] are as wide as [long], [intmax_t] is not. *)
Definition length_field (format : bytes) (flags : Z) : res (Z * bytes) :=
  c ← format_char format;
  if c =? 108 then
    let flags := Z.setbit flags FLAGS_LONG in
    c ← format_char (tail format);
    if c =? 108 then Ok (Z.setbit flags FLAGS_LONG_LONG, tail (tail format)) else Ok (flags, tail format)
  else if c =? 104 then
    let flags := Z.setbit flags FLAGS_SHORT in
    c ← format_char (tail format);
    if c =? 104 then Ok (Z.setbit flags FLAGS_CHAR, tail (tail format)) else Ok (flags, tail format)
  else if c =? 116 then Ok (Z.setbit flags FLAGS_LONG, tail format)
  else if c =? 106 then Ok (Z.setbit flags FLAGS_LONG_LONG, tail format)
  else if c =? 122 then Ok (Z.setbit flags FLAGS_LONG, tail format)
  else Ok (flags, format).

(** [value > 0 ? value : 0 - value] in a type of [w] bits. *)
Definition magnitude (w value : Z) : res Z :=
  if value =? - 2 ^ (w - 1) then Undef "signed overflow" else Ok (Z.abs value).

(** The base and the flags of a conversion of integers. *)
Definition int_base (c : Z) : Z :=
  if (c =? 120) || (c =? 88) then 16 else if c =? 111 then 8 else if c =? 98 then 2 else 10.
Definition int_signed (c : Z) : bool := (c =? 105) || (c =? 100).
Definition int_flags (c flags : Z) : Z :=
  let flags := if int_base c =? 10 then Z.clearbit flags FLAGS_HASH else flags in
  let flags := if c =? 88 then Z.setbit flags FLAGS_UPPERCASE else flags in
  let flags := if negb (int_signed c) then Z.clearbit (Z.clearbit flags FLAGS_PLUS) FLAGS_SPACE else flags in
  if has flags FLAGS_PRECISION then Z.clearbit flags FLAGS_ZEROPAD else flags.

Definition convert_integer (c : Z) (buffer : B) (idx maxlen : Z) (va : list vararg) (precision width flags : Z)
    : res (B * Z * list vararg) :=
  let base := int_base c in
  let flags := int_flags c flags in
  if int_signed c then
    if has flags FLAGS_LONG_LONG then
      '(v, va) ← va_long_long va;
      let value := swrap 64 v in
      m ← magnitude 64 value;
      '(buffer, idx) ← _ntoa_long_long buffer idx maxlen m (value <? 0) base precision width flags;
      Ok (buffer, idx, va)
    else
      '(v, va) ← va_int va;
      let value :=
        if has flags FLAGS_LONG then swrap 32 v
        else if has flags FLAGS_CHAR then swrap 8 v
        else if has flags FLAGS_SHORT then swrap 16 v else swrap 32 v in
      m ← magnitude 32 value;
      '(buffer, idx) ← _ntoa_long buffer idx maxlen m (value <? 0) base precision width flags;
      Ok (buffer, idx, va)
  else
    if has flags FLAGS_LONG_LONG then
      '(v, va) ← va_long_long va;
      '(buffer, idx) ← _ntoa_long_long buffer idx maxlen v false base precision width flags;
      Ok (buffer, idx, va)
    else
      '(v, va) ← va_int va;
      let value :=
        if has flags FLAGS_LONG then v
        else if has flags FLAGS_CHAR then wrap 8 v
        else if has flags FLAGS_SHORT then wrap 16 v else v in
      '(buffer, idx) ← _ntoa_long buffer idx maxlen value false base precision width flags;
      Ok (buffer, idx, va).

(** What [%s] puts out of a string: up to its end, or as many characters as [precision]. *)
Fixpoint string_chars (limited : bool) (precision : nat) (p : bytes) : res bytes :=
  match p with
  | [] => Undef "read past the string"
  | c :: rest =>
      if c =? 0 then Ok []
      else if limited then
        match precision with
        | O => Ok []
        | S precision' => cs ← string_chars limited precision' rest; Ok (c :: cs)
        end
      else cs ← string_chars limited precision rest; Ok (c :: cs)
  end.

Definition convert_string (buffer : B) (idx maxlen : Z) (p : bytes) (precision width flags : Z) : res (B * Z) :=
  l ← _strlen p;
  let l := if has flags FLAGS_PRECISION then Z.min l precision else l in
  '(buffer, idx) ←
    (if negb (has flags FLAGS_LEFT) then emit (spaces (width - l)) buffer idx maxlen else Ok (buffer, idx));
  cs ← string_chars (has flags FLAGS_PRECISION) (Z.to_nat precision) p;
  '(buffer, idx) ← emit cs buffer idx maxlen;
  if has flags FLAGS_LEFT then emit (spaces (width - l)) buffer idx maxlen else Ok (buffer, idx).

Definition convert_char (buffer : B) (idx maxlen c width flags : Z) : res (B * Z) :=
  '(buffer, idx) ←
    (if negb (has flags FLAGS_LEFT) then emit (spaces (width - 1)) buffer idx maxlen else Ok (buffer, idx));
  '(buffer, idx) ← emit [c] buffer idx maxlen;
  if has flags FLAGS_LEFT then emit (spaces (width - 1)) buffer idx maxlen else Ok (buffer, idx).

Definition is_integer_specifier (c : Z) : bool :=
  (c =? 100) || (c =? 105) || (c =? 117) || (c =? 120) || (c =? 88) || (c =? 111) || (c =? 98).

(** The [switch] on the specifier [c]. *)
Definition convert (c : Z) (buffer : B) (idx maxlen : Z) (va : list vararg) (precision width flags : Z)
    : res (B * Z * list vararg) :=
  if is_integer_specifier c then convert_integer c buffer idx maxlen va precision width flags
  else if (c =? 102) || (c =? 70) then
    '(d, va) ← va_double va;
    '(buffer, idx) ← _ftoa buffer idx maxlen d precision width flags;
    Ok (buffer, idx, va)
  else if c =? 99 then
    '(v, va) ← va_int va;
    '(buffer, idx) ← convert_char buffer idx maxlen (wrap 8 v) width flags;
    Ok (buffer, idx, va)
  else if c =? 115 then
    '(p, va) ← va_string va;
    '(buffer, idx) ← convert_string buffer idx maxlen p precision width flags;
    Ok (buffer, idx, va)
  else if c =? 112 then
    '(p, va) ← va_pointer va;
    let flags := Z.setbit (Z.setbit flags FLAGS_ZEROPAD) FLAGS_UPPERCASE in
    '(buffer, idx) ← _ntoa_long buffer idx maxlen p false 16 precision 8 flags;
    Ok (buffer, idx, va)
  else
    '(buffer, idx) ← emit [c] buffer idx maxlen;
    Ok (buffer, idx, va).

(** The loop over the format; a turn passes at least one character of it. *)
Fixpoint vsnprintf_loop (fuel : nat) (format : bytes) (va : list vararg) (buffer : B) (idx maxlen : Z)
    : res (B * Z) :=
  match fuel with
  | O => Fuel
  | S fuel' =>
      c ← format_char format;
      if c =? 0 then Ok (buffer, idx)
      else if negb (c =? 37) then
        '(buffer, idx) ← emit [c] buffer idx maxlen;
        vsnprintf_loop fuel' (tail format) va buffer idx maxlen
      else
        '(flags, format) ← flags_loop (tail format) 0;
        '(width, flags, format, va) ← width_field format va flags;
        '(precision, flags, format, va) ← precision_field format va flags;
        '(flags, format) ← length_field format flags;
        c ← format_char format;
        '(buffer, idx, va) ← convert c buffer idx maxlen va precision width flags;
        vsnprintf_loop fuel' (tail format) va buffer idx maxlen
  end.

(** The buffer and the result, an [int]. *)
Definition _vsnprintf (buffer : B) (maxlen : Z) (format : bytes) (va : list vararg) : res (B * Z) :=
  '(buffer, idx) ← vsnprintf_loop (S (length format)) format va buffer 0 maxlen;
  buffer ← out 0 buffer (if idx <? maxlen then idx else u32 (maxlen - 1)) maxlen;
  Ok (buffer, swrap 32 idx).
End Output.

(** *** The functions *)

(** [junk] is what the array holds before. *)
Definition printf (junk format : bytes) (va : list vararg) : res (bytes * Z) :=
  '(buffer, ret) ← _vsnprintf _out_buffer junk PRINTF_BUFFER format va;
  n ← _strlen buffer;
  Ok (ztake n buffer, ret).

(** Without a buffer nothing is written. *)
Definition vsnprintf (buffer : option bytes) (count : Z) (format : bytes) (va : list vararg)
    : res (option bytes * Z) :=
  match buffer with
  | Some b => '(b, ret) ← _vsnprintf _out_buffer b count format va; Ok (Some b, ret)
  | None => '(_, ret) ← _vsnprintf _out_null tt count format va; Ok (None, ret)
  end.
Definition snprintf := vsnprintf.
Definition sprintf (buffer : option bytes) (format : bytes) (va : list vararg) : res (option bytes * Z) :=
  vsnprintf buffer (2 ^ 32 - 1) format va.

Definition fctprintf {A} (fct : Z -> A -> A) (arg : A) (format : bytes) (va : list vararg) : res (A * Z) :=
  _vsnprintf (_out_fct fct) arg (2 ^ 32 - 1) format va.
