(* ===== verification/PrintfFacts.v ===== *)
(** * Facts on formatted output

    A buffer of any size receives the beginning of one text; the loop over the format ends;
    which layout a number gets, and where the code departs from the C standard. *)

From Stdlib Require Import SpecFloat.
From S2P Require Import Prelude Printf.

(** ** One text for all buffers *)

(** The text itself, in an array without an end. *)
Definition out_all (character : Z) (T : bytes) (idx maxlen : Z) : res bytes :=
  Ok (if idx <? len T then <[Z.to_nat idx := character]> T else T ++ [character]).

(** What a format and its arguments stand for: the text, and the position after it. *)
Definition text (format : bytes) (va : list vararg) : res (bytes * Z) :=
  vsnprintf_loop out_all (S (length format)) format va [] 0 0.

(** Two computations that fail alike or have related results. *)
Definition rel {A1 A2} (Q : A1 -> A2 -> Prop) (x : res A1) (y : res A2) : Prop :=
  match x, y with
  | Ok a, Ok b => Q a b
  | Panic m, Panic n | Revert m, Revert n | Undef m, Undef n => m = n
  | Fuel, Fuel => True
  | _, _ => False
  end.

Lemma rel_bind {A1 A2 C1 C2} (Q : A1 -> A2 -> Prop) (Q' : C1 -> C2 -> Prop) x y f g :
  rel Q x y -> (forall a b, Q a b -> rel Q' (f a) (g b)) -> rel Q' (x ≫= f) (y ≫= g).
Proof. intros HQ HF. destruct x, y; cbn in *; try done. by apply HF. Qed.

Lemma rel_refl {A} (x : res A) : rel eq x x.
Proof. by destruct x. Qed.

Lemma rel_same {A C1 C2} (Q : C1 -> C2 -> Prop) (x : res A) f g :
  (forall a, rel Q (f a) (g a)) -> rel Q (x ≫= f) (x ≫= g).
Proof. intros HF. apply (rel_bind eq); [apply rel_refl |]. intros a b <-. apply HF. Qed.

(** *** The same code with two outputs *)

Section Simulation.
Context {B1 B2 : Type} (out1 : Z -> B1 -> Z -> Z -> res B1) (out2 : Z -> B2 -> Z -> Z -> res B2).
Context (max1 max2 : Z) (R : B1 -> B2 -> Z -> Prop).
Context (R_out : forall c b1 b2 idx, R b1 b2 idx -> 0 <= idx < 2 ^ 32 ->
  rel (fun b1' b2' => R b1' b2' (u32 (idx + 1))) (out1 c b1 idx max1) (out2 c b2 idx max2)).
Context (R_reset : forall b1 b2 idx, R b1 b2 idx -> R b1 b2 0).

Definition same (x : B1 * Z) (y : B2 * Z) : Prop :=
  snd x = snd y /\ 0 <= snd x < 2 ^ 32 /\ R (fst x) (fst y) (snd x).
Definition same_va (x : B1 * Z * list vararg) (y : B2 * Z * list vararg) : Prop :=
  snd x = snd y /\ same (fst x) (fst y).

Lemma emit_same cs : forall b1 b2 idx, R b1 b2 idx -> 0 <= idx < 2 ^ 32 ->
  rel same (emit out1 cs b1 idx max1) (emit out2 cs b2 idx max2).
Proof using R_out.
  induction cs as [|c cs IH]; intros b1 b2 idx HR HI; cbn [emit]; [by split; [| split] |].
  apply (rel_bind _ _ _ _ _ _ (R_out c b1 b2 idx HR HI)). intros b1' b2' HR'. apply IH; [done |].
  apply (wrap_range 32). lia.
Qed.

Lemma emit_if_same (b : bool) cs b1 b2 idx : R b1 b2 idx -> 0 <= idx < 2 ^ 32 ->
  rel same (if b then emit out1 cs b1 idx max1 else Ok (b1, idx)) (if b then emit out2 cs b2 idx max2 else Ok (b2, idx)).
Proof using R_out. intros HR HI. destruct b; [by apply emit_same | done]. Qed.

Ltac step :=
  match goal with
  | |- rel _ (emit _ _ _ _ _) _ => by apply emit_same
  | |- rel _ (if ?b then emit _ _ _ _ _ else Ok _) _ => by apply emit_if_same
  | |- rel _ (emit _ _ _ _ _ ≫= _) _ => apply (rel_bind same); [by apply emit_same | intros [? ?] [? ?] (? & ? & ?); cbn [fst snd] in *; subst]
  | |- rel _ ((if ?b then emit _ _ _ _ _ else Ok _) ≫= _) _ =>
      apply (rel_bind same); [by apply emit_if_same | intros [? ?] [? ?] (? & ? & ?); cbn [fst snd] in *; subst]
  | |- rel _ (?x ≫= _) (?x ≫= _) => apply rel_same; intros
  | |- rel _ (if ?b then _ else _) (if ?b then _ else _) => destruct b
  | |- rel _ (let '(_, _) := ?p in _) _ => destruct p
  | |- rel _ (Undef _) _ => reflexivity
  | |- rel _ (Ok _) _ => split; [reflexivity | split; assumption]
  end.

Lemma put_number_same b1 b2 idx buf width flags : R b1 b2 idx -> 0 <= idx < 2 ^ 32 ->
  rel same (put_number out1 b1 idx max1 buf width flags) (put_number out2 b2 idx max2 buf width flags).
Proof using R_out. intros HR HI. unfold put_number. cbv zeta. repeat step. Qed.

Lemma ntoa_same b1 b2 idx v neg base prec width flags : R b1 b2 idx -> 0 <= idx < 2 ^ 32 ->
  rel same (ntoa out1 b1 idx max1 v neg base prec width flags) (ntoa out2 b2 idx max2 v neg base prec width flags).
Proof using R_out. intros HR HI. unfold ntoa, _ntoa_format. cbv zeta. by apply put_number_same. Qed.

Lemma ftoa_same b1 b2 idx v prec width flags : R b1 b2 idx -> 0 <= idx < 2 ^ 32 ->
  rel same (_ftoa out1 b1 idx max1 v prec width flags) (_ftoa out2 b2 idx max2 v prec width flags).
Proof using R_out R_reset.
  intros HR HI. unfold _ftoa. cbv zeta. apply rel_same. intros [whole frac].
  destruct (SFltb (dbl 0x7FFFFFFF) _).
  - split; [done |]. split; [cbn; lia | by apply (R_reset _ _ idx)].
  - apply rel_same. intros [whole' buf]. by apply put_number_same.
Qed.

Lemma to_va b1 b2 idx va (x : res (B1 * Z)) (y : res (B2 * Z)) : R b1 b2 idx ->
  rel same x y ->
  rel same_va ('(buffer, idx) ← x; Ok (buffer, idx, va)) ('(buffer, idx) ← y; Ok (buffer, idx, va)).
Proof using Type. intros _ HS. apply (rel_bind same); [done |]. intros [? ?] [? ?] HS'. by split. Qed.

Lemma convert_same c b1 b2 idx va precision width flags : R b1 b2 idx -> 0 <= idx < 2 ^ 32 ->
  rel same_va (convert out1 c b1 idx max1 va precision width flags) (convert out2 c b2 idx max2 va precision width flags).
Proof using R_out R_reset.
  intros HR HI. unfold convert, convert_integer, convert_char, convert_string, _ntoa_long, _ntoa_long_long.
  repeat match goal with
  | |- rel _ (if ?b then _ else _) (if ?b then _ else _) => destruct b
  | |- rel same_va (?x ≫= _) (?x ≫= _) => apply rel_same; intros
  | |- rel _ (let '(_, _) := ?p in _) _ => destruct p
  | |- rel same_va _ _ => apply (to_va b1 b2 idx); [done |]
  end; cbv zeta; try by apply ntoa_same.
  all: try by apply ftoa_same.
  all: repeat step.
Qed.

Lemma loop_same fuel : forall format va b1 b2 idx, R b1 b2 idx -> 0 <= idx < 2 ^ 32 ->
  rel same (vsnprintf_loop out1 fuel format va b1 idx max1) (vsnprintf_loop out2 fuel format va b2 idx max2).
Proof using R_out R_reset.
  induction fuel as [|fuel IH]; intros format va b1 b2 idx HR HI; cbn [vsnprintf_loop]; [done |].
  apply rel_same. intros c. destruct (c =? 0); [by split; [| split] |]. destruct (negb (c =? 37)).
  - apply (rel_bind same); [by apply emit_same |].
    intros [? i] [? ?] (? & ? & ?). cbn [fst snd] in *. subst. by apply IH.
  - apply rel_same. intros [flags format1]. apply rel_same. intros [[[width flags1] format2] va1].
    apply rel_same. intros [[[precision flags2] format3] va2]. apply rel_same. intros [flags3 format4].
    apply rel_same. intros c'. apply (rel_bind same_va); [by apply convert_same |].
    intros [[? i] ?] [[? ?] ?] [? (? & ? & ?)]. cbn [fst snd] in *. subst. by apply IH.
Qed.
End Simulation.

(** *** A buffer holds the beginning of the text *)

Section Buffer.
Context (b0 : bytes) (count : Z) (Hcount : 0 <= count <= len b0).

(** As much of the text as fits, and the rest of the buffer as it was. *)
Definition cut (T : bytes) : bytes := ztake count T ++ zdrop (len (ztake count T)) b0.

Definition holds_cut (T b : bytes) (idx : Z) : Prop := b = cut T /\ idx <= len T.

Lemma len_cut T : len (cut T) = len b0.
Proof using Hcount. unfold cut, ztake, zdrop. rewrite length_app, length_drop, length_take. lia. Qed.

Lemma cut_insert T idx c :
  0 <= idx < len T -> cut (<[Z.to_nat idx := c]> T) = if idx <? count then <[Z.to_nat idx := c]> (cut T) else cut T.
Proof using Hcount.
  intros HI. unfold cut, ztake, zdrop. rewrite !length_take, length_insert.
  destruct (Z.ltb_spec idx count).
  - rewrite take_insert_lt by lia. rewrite insert_app_l by (rewrite length_take; lia). done.
  - by rewrite take_insert_ge by lia.
Qed.

Lemma cut_snoc T c : cut (T ++ [c]) = if len T <? count then <[length T := c]> (cut T) else cut T.
Proof using Hcount.
  unfold cut, ztake, zdrop. rewrite !length_take, length_app. cbn [length].
  destruct (Z.ltb_spec (len T) count).
  - rewrite !take_ge by (rewrite ?length_app; cbn [length]; lia).
    rewrite insert_app_r_alt by lia. rewrite Nat.sub_diag, <- app_assoc. f_equal. cbn [app].
    replace (Z.to_nat (Z.of_nat (Z.to_nat count `min` (length T + 1)))) with (S (length T)) by lia.
    replace (Z.to_nat (Z.of_nat (Z.to_nat count `min` length T))) with (length T) by lia.
    destruct (drop (length T) b0) as [|x r] eqn:ED.
    { apply (f_equal length) in ED. rewrite length_drop in ED. cbn in ED. lia. }
    cbn. f_equal. replace (S (length T)) with (length T + 1)%nat by lia. rewrite <- drop_drop, ED. done.
  - rewrite take_app_le by lia. by replace (Z.to_nat count `min` (length T + 1))%nat with (Z.to_nat count `min` length T)%nat by lia.
Qed.

Lemma buffer_out c T b idx : holds_cut T b idx -> 0 <= idx < 2 ^ 32 ->
  rel (fun T' b' => holds_cut T' b' (u32 (idx + 1))) (out_all c T idx 0) (_out_buffer c b idx count).
Proof using Hcount.
  intros [-> HL] HI. unfold out_all, _out_buffer. rewrite len_cut.
  assert (u32 (idx + 1) <= idx + 1) as HW by (unfold wrap; apply Z.mod_le; lia).
  assert (forall T', cut T' = (if idx <? count then <[Z.to_nat idx := c]> (cut T) else cut T) -> idx + 1 <= len T' ->
    rel (fun T' b' => holds_cut T' b' (u32 (idx + 1))) (Ok T')
      (if idx <? count then if idx <? len b0 then Ok (<[Z.to_nat idx := c]> (cut T)) else Undef "write past the buffer"
       else Ok (cut T))) as HC.
  { intros T' E HL'. destruct (Z.ltb_spec idx count); [destruct (Z.ltb_spec idx (len b0)); [| lia] |]; (split; [done | lia]). }
  destruct (Z.ltb_spec idx (len T)); apply HC.
  - apply cut_insert. lia.
  - rewrite length_insert. lia.
  - rewrite cut_snoc. replace (len T) with idx by lia. by replace (length T) with (Z.to_nat idx) by lia.
  - rewrite length_app. cbn [length]. lia.
Qed.
End Buffer.

(** The program prints as much of the text as the buffer takes. *)
Lemma vsnprintf_text b0 count format va :
  0 <= count <= len b0 -> count < 2 ^ 32 ->
  rel (fun T b => b = (if 0 <? count
                       then <[Z.to_nat (Z.min (snd T) (count - 1)) := 0]> (cut b0 count (fst T)) else b0, swrap 32 (snd T)) /\
                  0 <= snd T <= len (fst T))
    (text format va) (_vsnprintf _out_buffer b0 count format va).
Proof.
  intros Hc HC. unfold text, _vsnprintf.
  pose proof (loop_same out_all _out_buffer 0 count (holds_cut b0 count)
    (fun c T b idx HR HI => buffer_out b0 count Hc c T b idx HR HI)
    (fun T b idx HR => conj (proj1 HR) (Nat2Z.is_nonneg (length T)))
    (S (length format)) format va [] b0 0) as HL.
  assert (cut b0 count [] = b0) as E0 by (unfold cut, ztake, zdrop; by rewrite take_nil).
  specialize (HL ltac:(by split) ltac:(lia)).
  destruct (vsnprintf_loop out_all _ _ _ _ _ _) as [[T n] | | | |],
    (vsnprintf_loop _out_buffer _ _ _ _ _ _) as [[b i] | | | |]; cbn in HL |- *; try done.
  destruct HL as (Ei & HI & Eb & HLn). cbn [fst snd] in *. subst i b. unfold _out_buffer. rewrite len_cut by done.
  destruct (Z.ltb_spec 0 count).
  - assert ((if n <? count then n else u32 (count - 1)) = Z.min n (count - 1)) as ->.
    { destruct (Z.ltb_spec n count); [lia |]. rewrite wrap_small; lia. }
    destruct (Z.ltb_spec (Z.min n (count - 1)) count); [| lia].
    destruct (Z.ltb_spec (Z.min n (count - 1)) (len b0)); [| lia]. cbn. split; [done | lia].
  - assert (count = 0) as -> by lia. destruct (Z.ltb_spec n 0); [lia |].
    assert ((u32 (0 - 1) <? 0) = false) as -> by reflexivity. cbn. unfold cut. rewrite ztake_0. split; [done | lia].
Qed.

(** Nothing but the length is left of the text without a buffer. *)
Lemma vsnprintf_null count format va :
  rel (fun T b => b = (tt, swrap 32 (snd T))) (text format va) (_vsnprintf _out_null tt count format va).
Proof.
  unfold text, _vsnprintf.
  pose proof (loop_same out_all _out_null 0 count (fun T (b : unit) idx => True)
    (fun c T b idx _ _ => I) (fun T b idx _ => I) (S (length format)) format va [] tt 0 I ltac:(lia)) as HL.
  destruct (vsnprintf_loop out_all _ _ _ _ _ _) as [[T n] | | | |],
    (vsnprintf_loop _out_null _ _ _ _ _ _) as [[[] i] | | | |]; cbn in HL |- *; try done.
  destruct HL as (En & _). cbn [snd] in *. by subst.
Qed.

(** ** The loop ends *)

(** A result that satisfies [P], or undefined behaviour: no fuel was used up. *)
Definition ends {A} (P : A -> Prop) (x : res A) : Prop :=
  match x with Ok a => P a | Undef _ => True | _ => False end.

Lemma ends_bind {A C} (P : A -> Prop) (Q : C -> Prop) x f :
  ends P x -> (forall a, P a -> ends Q (f a)) -> ends Q (x ≫= f).
Proof. intros HP HF. destruct x; cbn in *; try done. by apply HF. Qed.

Lemma ends_weaken {A} (P Q : A -> Prop) x : ends P x -> (forall a, P a -> Q a) -> ends Q x.
Proof. intros HP HF. destruct x; cbn in *; auto. Qed.

Definition any {A} (a : A) : Prop := True.

Ltac ends_step :=
  match goal with
  | |- ends _ (if ?b then _ else _) => destruct b
  | |- ends _ (let '(_, _) := ?p in _) => destruct p
  | |- ends _ (match ?x with _ => _ end) => destruct x
  | |- ends _ (Undef _) => exact I
  | |- ends any (Ok _) => exact I
  end.

Lemma format_char_ends format : ends (fun _ => exists c rest, format = c :: rest) (format_char format).
Proof. destruct format as [|c rest]; [exact I | by exists c, rest]. Qed.

Lemma atoi_ends format : forall i, ends (fun r => (length (snd r) <= length format)%nat) (_atoi format i).
Proof.
  induction format as [|c rest IH]; intros i; cbn [_atoi]; [exact I |]. destruct (_is_digit c); [| cbn; lia].
  eapply ends_weaken; [apply IH |]. cbn. lia.
Qed.

Lemma flags_loop_ends format : forall flags, ends (fun r => (length (snd r) <= length format)%nat) (flags_loop format flags).
Proof.
  induction format as [|c rest IH]; intros flags; cbn [flags_loop]; [exact I |].
  repeat match goal with |- ends _ (if ?b then _ else _) => destruct b; [eapply ends_weaken; [apply IH | cbn; lia] |] end.
  cbn. lia.
Qed.

Lemma va_int_ends va : ends any (va_int va).
Proof. unfold va_int. repeat ends_step. Qed.

Definition shorter (format : bytes) (r : Z * Z * bytes * list vararg) : Prop :=
  (length (snd (fst r)) <= length format)%nat.

Lemma width_field_ends format va flags : ends (shorter format) (width_field format va flags).
Proof.
  unfold width_field. eapply ends_bind; [apply format_char_ends |]. intros c (c0 & rest & ->).
  destruct (_is_digit c); [| destruct (c =? 42)].
  - eapply ends_bind; [apply atoi_ends |]. intros [w f] HL. exact HL.
  - eapply ends_bind; [apply va_int_ends |]. intros [v va'] _. cbv zeta. unfold neg_int, shorter.
    destruct (swrap 32 v <? 0); [destruct (swrap 32 v =? - 2 ^ 31) |]; cbn; (exact I || lia).
  - unfold shorter. cbn. lia.
Qed.

Lemma precision_field_ends format va flags : ends (shorter format) (precision_field format va flags).
Proof.
  unfold precision_field. eapply ends_bind; [apply format_char_ends |]. intros c (c0 & rest & ->).
  destruct (c =? 46); [| unfold shorter; cbn; lia]. cbv zeta. cbn [tail].
  eapply ends_bind; [apply format_char_ends |]. intros c' (c1 & rest' & ->).
  destruct (_is_digit c'); [| destruct (c' =? 42)].
  - eapply ends_bind; [apply atoi_ends |]. intros [w f] HL. unfold shorter. cbn in *. lia.
  - eapply ends_bind; [apply va_int_ends |]. intros [v va'] _. unfold shorter. cbn. lia.
  - unfold shorter. cbn. lia.
Qed.

Lemma length_field_ends format flags : ends (fun r => (length (snd r) <= length format)%nat) (length_field format flags).
Proof.
  unfold length_field. eapply ends_bind; [apply format_char_ends |]. intros c (c0 & rest & ->). cbv zeta. cbn [tail].
  repeat match goal with
  | |- ends _ (if ?b then Ok _ else _) => destruct b; [cbn; lia |]
  | |- ends _ (if ?b then _ else _) =>
      destruct b; [eapply ends_bind; [apply format_char_ends |]; intros ? (? & ? & ->);
                   match goal with |- ends _ (if ?b then _ else _) => destruct b end; cbn; lia |]
  end. cbn. lia.
Qed.

Section Ends.
Context {B : Type} (out : Z -> B -> Z -> Z -> res B).
Context (out_ends : forall c b idx maxlen, ends any (out c b idx maxlen)).

Lemma emit_ends cs : forall b idx maxlen, ends any (emit out cs b idx maxlen).
Proof using out_ends.
  induction cs as [|c cs IH]; intros; cbn [emit]; [exact I |].
  eapply ends_bind; [apply out_ends |]. intros; apply IH.
Qed.

Lemma emit_if_ends (x : bool) cs b idx maxlen : ends any (if x then emit out cs b idx maxlen else Ok (b, idx)).
Proof using out_ends. destruct x; [apply emit_ends | exact I]. Qed.

Lemma put_number_ends b idx maxlen buf width flags : ends any (put_number out b idx maxlen buf width flags).
Proof using out_ends.
  unfold put_number. cbv zeta. eapply ends_bind; [apply emit_if_ends |]. intros [? ?] _.
  eapply ends_bind; [apply emit_ends |]. intros [? ?] _. apply emit_if_ends.
Qed.

Lemma ntoa_ends b idx maxlen v neg base prec width flags : ends any (ntoa out b idx maxlen v neg base prec width flags).
Proof using out_ends. unfold ntoa, _ntoa_format. cbv zeta. apply put_number_ends. Qed.

Lemma dbl_to_int_ends lo hi x : ends any (dbl_to_int lo hi x).
Proof using Type. unfold dbl_to_int. cbv zeta. repeat ends_step. Qed.

Lemma incr_int_ends x : ends any (incr_int x).
Proof using Type. unfold incr_int. repeat ends_step. Qed.

Lemma round_fraction_ends value prec : ends any (round_fraction value prec).
Proof using Type.
  unfold round_fraction. eapply ends_bind; [apply dbl_to_int_ends |]. intros whole _.
  eapply (ends_bind any); [unfold pow10; repeat ends_step |]. intros pow _. cbv zeta.
  eapply ends_bind; [apply dbl_to_int_ends |]. intros frac _.
  repeat ends_step. eapply ends_bind; [apply incr_int_ends |]. intros; exact I.
Qed.

Lemma ftoa_ends b idx maxlen v prec width flags : ends any (_ftoa out b idx maxlen v prec width flags).
Proof using out_ends.
  unfold _ftoa. cbv zeta. eapply ends_bind; [apply round_fraction_ends |]. intros [whole frac] _.
  destruct (SFltb (dbl 0x7FFFFFFF) _); [exact I |]. eapply (ends_bind any).
  - destruct (_ =? 0); [| exact I]. unfold round_whole. cbv zeta.
    eapply (ends_bind any); [| intros; exact I]. repeat ends_step; apply incr_int_ends.
  - intros [whole' buf] _. apply put_number_ends.
Qed.

Lemma strlen_ends s : ends any (_strlen s).
Proof using Type.
  induction s as [|c s IH]; cbn [_strlen]; [exact I |]. destruct (c =? 0); [exact I |].
  eapply ends_bind; [exact IH |]. intros; exact I.
Qed.

Lemma string_chars_ends limited s : forall n, ends any (string_chars limited n s).
Proof using Type.
  induction s as [|c s IH]; intros n; cbn [string_chars]; [exact I |].
  repeat ends_step; (exact I || (eapply ends_bind; [apply IH |]; intros; exact I)).
Qed.

Lemma convert_ends c b idx maxlen va precision width flags :
  ends any (convert out c b idx maxlen va precision width flags).
Proof using out_ends.
  unfold convert, convert_integer, convert_char, convert_string, _ntoa_long, _ntoa_long_long.
  repeat match goal with
  | |- ends _ (if ?b then _ else _) => destruct b
  | |- ends _ (let '(_, _) := ?p in _) => destruct p
  | |- ends _ (Ok _) => exact I
  | |- ends _ (ntoa _ _ _ _ _ _ _ _ _ _) => apply ntoa_ends
  | |- ends _ (_ftoa _ _ _ _ _ _ _ _) => apply ftoa_ends
  | |- ends _ (emit _ _ _ _ _) => apply emit_ends
  | |- ends _ (_ ≫= _) => eapply (ends_bind any); [| intros ? _]
  | |- ends _ (_strlen _) => apply strlen_ends
  | |- ends _ (string_chars _ _ _) => apply string_chars_ends
  | |- ends _ (va_int _) => apply va_int_ends
  | _ => progress cbv zeta
  | _ => progress unfold magnitude, va_long_long, va_double, va_string, va_pointer
  | |- ends _ (match ?x with _ => _ end) => destruct x
  | |- ends _ (Undef _) => exact I
  end.
Qed.

(** Every turn passes a character of the format: as much fuel as it has characters is
    enough. *)
Lemma loop_ends fuel : forall format va b idx maxlen, (length format < fuel)%nat ->
  ends any (vsnprintf_loop out fuel format va b idx maxlen).
Proof using out_ends.
  induction fuel as [|fuel IH]; intros format va b idx maxlen HL; [lia |]. cbn [vsnprintf_loop].
  eapply ends_bind; [apply format_char_ends |]. intros c (c0 & rest & ->). cbn [length tail] in *.
  destruct (c =? 0); [exact I |]. destruct (negb (c =? 37)).
  - eapply ends_bind; [apply emit_ends |]. intros [? ?] _. apply IH. lia.
  - eapply ends_bind; [apply flags_loop_ends |]. intros [flags f1] H1.
    eapply ends_bind; [apply width_field_ends |]. intros [[[width flags1] f2] va1] H2.
    eapply ends_bind; [apply precision_field_ends |]. intros [[[precision flags2] f3] va2] H3.
    eapply ends_bind; [apply length_field_ends |]. intros [flags3 f4] H4. unfold shorter in *. cbn [fst snd] in *.
    eapply ends_bind; [apply format_char_ends |]. intros c' (c1 & rest' & ->). cbn [length tail] in *.
    eapply ends_bind; [apply convert_ends |]. intros [[? ?] ?] _. apply IH. lia.
Qed.
End Ends.

Lemma text_ends format va : ends any (text format va).
Proof. apply loop_ends; [intros; exact I | lia]. Qed.

(** C14. The text does not depend on the buffer: a format with its arguments stands for one
    text, of [n] characters, or for undefined behaviour - it never fails otherwise and the
    loop always ends. [snprintf] into a buffer of [count] bytes, or more, writes the
    first [count - 1] of its characters at most, a 0 behind them, nothing past [count], and
    returns [n]; without a buffer it returns the same. *)
Theorem snprintf_cut (buffer : bytes) (count : Z) (format : bytes) (va : list vararg) :
  0 <= count <= len buffer -> count < 2 ^ 32 ->
  match text format va with
  | Ok (T, n) =>
      0 <= n <= len T /\
      snprintf None count format va = Ok (None, swrap 32 n) /\
      exists b, snprintf (Some buffer) count format va = Ok (Some b, swrap 32 n) /\
        len b = len buffer /\ zdrop count b = zdrop count buffer /\
        (0 < count -> let m := Z.min n (count - 1) in ztake m b = ztake m T /\ zget b m = Some 0)
  | Undef why => snprintf None count format va = Undef why /\ snprintf (Some buffer) count format va = Undef why
  | _ => False
  end.
Proof.
  intros Hc HC. pose proof (text_ends format va) as HE. pose proof (vsnprintf_text buffer count format va Hc HC) as HB.
  pose proof (vsnprintf_null count format va) as HN. unfold snprintf, vsnprintf.
  destruct (text format va) as [[T n] | | | why |]; try done.
  - destruct (_vsnprintf _out_buffer buffer count format va) as [b | | | |]; try done. destruct HB as [-> Hn].
    destruct (_vsnprintf _out_null tt count format va) as [u | | | |]; try done. cbn [rel] in HN. subst u.
    cbn [fst snd mbind res_bind] in *. split; [done |]. split; [done |]. eexists. split; [reflexivity |].
    pose proof (len_cut buffer count Hc T) as HL. destruct (Z.ltb_spec 0 count); [| split_and!; [done | done | lia]].
    set (m := Z.min n (count - 1)). split; [by rewrite length_insert |].
    unfold zdrop, ztake, zget in *. split.
    + rewrite drop_insert_lt by lia. unfold cut, ztake, zdrop. rewrite drop_app_ge by (rewrite length_take; lia).
      rewrite drop_drop, length_take. f_equal. lia.
    + intros _. destruct (Z.ltb_spec m 0); [lia |]. split; [| apply list_lookup_insert_eq; lia].
      rewrite take_insert_ge by lia. unfold cut, ztake. rewrite take_app_le by (rewrite length_take; lia).
      by rewrite take_take, Nat.min_l by lia.
  - destruct (_vsnprintf _out_buffer buffer count format va) as [b | | | |]; try done.
    destruct (_vsnprintf _out_null tt count format va) as [u | | | |]; try done. cbn [rel] in *. by subst.
Qed.

Lemma snprintf_cut_witness :
  let format := [97; 37; 100; 98; 0] in
  snprintf None 3 format [VInt 12] = Ok (None, 4) /\
  exists b, snprintf (Some (replicate 5 7)) 3 format [VInt 12] = Ok (Some b, 4) /\
    ztake 2 b = [97; 49] /\ zget b 2 = Some 0 /\ zdrop 3 b = [7; 7].
Proof.
  intros format. pose proof (snprintf_cut (replicate 5 7) 3 format [VInt 12] ltac:(cbn; lia) ltac:(lia)) as HC.
  assert (text format [VInt 12] = Ok ([97; 49; 50; 98], 4)) as E by (vm_compute; reflexivity). rewrite E in HC.
  destruct HC as (_ & HN & b & HB & _ & Hd & Ht). split; [exact HN |]. exists b. split; [exact HB |].
  destruct (Ht ltac:(lia)) as [Hb H0]. split; [exact Hb |]. split; [exact H0 | exact Hd].
Defined.

(** ** Numbers *)

(** The digits of a number, the least first: the reference for the loops. *)
Fixpoint le_digits (turns : nat) (base v : Z) : list Z :=
  match turns with
  | O => []
  | S turns' => v mod base :: (if v / base =? 0 then [] else le_digits turns' base (v / base))
  end.

(** A number of up to 64 bits, the most significant digit first. *)
Definition numeral (base v : Z) : list Z := reverse (le_digits 64 base v).

Fixpoint le_value (base : Z) (ds : list Z) : Z :=
  match ds with [] => 0 | d :: ds' => d + base * le_value base ds' end.

Lemma ntoa_loop_digits turns : forall v base flags buf,
  ntoa_loop turns v base flags buf = buf ++ ((fun d => digit_char d flags) <$> le_digits turns base v).
Proof.
  induction turns as [|turns IH]; intros; cbn [ntoa_loop le_digits]; [by rewrite app_nil_r |].
  destruct (v / base =? 0); [done |]. by rewrite IH, <- app_assoc.
Qed.

Lemma le_digits_spec turns : forall base v, 2 <= base -> 0 <= v < base ^ Z.of_nat turns -> (0 < turns)%nat ->
  le_value base (le_digits turns base v) = v /\ Forall (fun d => 0 <= d < base) (le_digits turns base v) /\
  (0 < length (le_digits turns base v) <= turns)%nat /\
  exists ds d, le_digits turns base v = ds ++ [d] /\ (v = 0 -> ds = []) /\ (v <> 0 -> d <> 0).
Proof.
  induction turns as [|turns IH]; intros base v Hb Hv Ht; [lia |]. cbn [le_digits].
  pose proof (Z.div_mod v base ltac:(lia)) as HD. pose proof (Z.mod_pos_bound v base ltac:(lia)) as HM.
  rewrite Nat2Z.inj_succ, Z.pow_succ_r in Hv by lia.
  destruct (Z.eqb_spec (v / base) 0) as [E0 | Hne].
  - cbn [le_value length]. split; [lia |]. split; [by constructor |]. split; [lia |].
    exists [], (v mod base). split; [done |]. split; [done | lia].
  - assert (0 <= v / base) by (apply Z.div_pos; lia).
    assert (v / base < base ^ Z.of_nat turns) by (apply Z.div_lt_upper_bound; lia).
    destruct turns as [|turns]; [cbn in *; lia |].
    destruct (IH base (v / base) Hb ltac:(lia) ltac:(lia)) as (HV & HF & HL & ds & d & E & _ & Hd).
    set (r := le_digits (S turns) base (v / base)) in *. cbn [le_value length]. rewrite HV.
    split; [lia |]. split; [by constructor |]. split; [lia |].
    exists (v mod base :: ds), d. rewrite E. split; [done |]. split; [intros ->; by rewrite Z.div_0_l in Hne by lia |].
    intros _. by apply Hd.
Qed.

(** Fewer turns are enough for few digits. *)
Lemma le_digits_turns t1 : forall t2 base v, (length (le_digits t2 base v) <= t1 <= t2)%nat ->
  le_digits t1 base v = le_digits t2 base v.
Proof.
  induction t1 as [|t1 IH]; intros [|t2] base v HL; cbn [le_digits] in *; [done | cbn in HL; lia | lia |].
  f_equal. destruct (v / base =? 0); [done |]. apply IH. cbn [length] in HL. lia.
Qed.

(** *** The layout of the standard *)

Definition c_sign (negative : bool) (flags : Z) : bytes :=
  if negative then [45] else if has flags FLAGS_PLUS then [43] else if has flags FLAGS_SPACE then [32] else [].

(** At least [prec] digits; in [width] characters, to the left, after zeros, or to the right. *)
Definition c_layout (sign digits : bytes) (prec width : Z) (left zero : bool) : bytes :=
  let body := replicate (Z.to_nat (prec - len digits)) 48 ++ digits in
  let gap := width - len sign - len body in
  if left then sign ++ body ++ spaces gap
  else if zero then sign ++ replicate (Z.to_nat gap) 48 ++ body
  else spaces gap ++ sign ++ body.

Definition c_number (negative : bool) (digits : bytes) (prec width flags : Z) : bytes :=
  c_layout (c_sign negative flags) digits prec width (has flags FLAGS_LEFT) (has flags FLAGS_ZEROPAD).

Lemma store_sign_eq buf negative flags :
  (signed negative flags = true -> len buf < 32) -> store_sign buf negative flags = buf ++ c_sign negative flags.
Proof.
  unfold signed. intros HL. unfold store_sign, c_sign, store, room, PRINTF_NTOA_BUFFER_SIZE. destruct (Z.ltb_spec (len buf) 32).
  - destruct negative, (has flags FLAGS_PLUS), (has flags FLAGS_SPACE); by rewrite ?app_nil_r.
  - destruct negative, (has flags FLAGS_PLUS), (has flags FLAGS_SPACE); cbn in HL; try lia. by rewrite app_nil_r.
Qed.

Lemma c_sign_length negative flags : len (c_sign negative flags) = if signed negative flags then 1 else 0.
Proof. unfold c_sign, signed. by destruct negative, (has flags FLAGS_PLUS), (has flags FLAGS_SPACE). Qed.

Lemma reverse_c_sign negative flags : reverse (c_sign negative flags) = c_sign negative flags.
Proof. unfold c_sign. by destruct negative, (has flags FLAGS_PLUS), (has flags FLAGS_SPACE). Qed.

Section Layout.
Context {B : Type} (out : Z -> B -> Z -> Z -> res B).

Lemma emit_app cs1 cs2 : forall b idx maxlen,
  emit out (cs1 ++ cs2) b idx maxlen = '(b', idx') ← emit out cs1 b idx maxlen; emit out cs2 b' idx' maxlen.
Proof using Type.
  induction cs1 as [|c cs1 IH]; intros; cbn [app emit]; [done |].
  destruct (out c b idx maxlen); try done. cbn [mbind res_bind]. apply IH.
Qed.

Lemma emit_idx cs : forall b idx maxlen b' idx', 0 <= idx < 2 ^ 32 ->
  emit out cs b idx maxlen = Ok (b', idx') -> idx' = u32 (idx + len cs).
Proof using Type.
  induction cs as [|c cs IH]; intros b idx maxlen b' idx' HI; cbn [emit].
  - intros [= _ <-]. cbn. rewrite wrap_small; lia.
  - destruct (out c b idx maxlen) as [b1 | | | |]; try done. cbn [mbind res_bind]. intros E.
    apply IH in E; [| apply (wrap_range 32); lia]. rewrite E. unfold wrap. rewrite Z.add_mod_idemp_l by lia.
    f_equal. cbn [length]. lia.
Qed.

(** The number's characters and the spaces around it, as one text. *)
Lemma put_number_eq b idx maxlen buf width flags : 0 <= idx < 2 ^ 32 -> len buf < 2 ^ 32 ->
  put_number out b idx maxlen buf width flags =
  emit out (if has flags FLAGS_LEFT then reverse buf ++ spaces (width - len buf)
            else if has flags FLAGS_ZEROPAD then reverse buf
            else spaces (width - len buf) ++ reverse buf) b idx maxlen.
Proof using Type.
  intros HI HL. unfold put_number. cbv zeta. destruct (has flags FLAGS_LEFT); cbn [negb andb mbind res_bind].
  - rewrite emit_app. destruct (emit out (reverse buf) b idx maxlen) as [[b' idx'] | | | |] eqn:E; try done.
    cbn [mbind res_bind]. apply emit_idx in E; [| done]. rewrite E. do 2 f_equal. rewrite length_reverse.
    unfold wrap. rewrite Zminus_mod_idemp_l. replace (idx + len buf - idx) with (len buf) by lia.
    rewrite Z.mod_small; lia.
  - destruct (has flags FLAGS_ZEROPAD); cbn [negb mbind res_bind].
    + by destruct (emit out (reverse buf) b idx maxlen) as [[? ?] | | | |].
    + rewrite emit_app. destruct (emit out (spaces _) b idx maxlen) as [[b' idx'] | | | |]; try done.
      cbn [mbind res_bind]. by destruct (emit out (reverse buf) b' idx' maxlen) as [[? ?] | | | |].
Qed.

(** The cases in which the layout is the standard's: zeros for the precision only without
    the flag [-], no sign in front of digits that fill the width exactly, no more than 31
    digits and 32 characters of zero padding. *)
Definition fits (negative : bool) (n prec width flags : Z) : Prop :=
  0 <= prec /\ 0 <= width /\
  (has flags FLAGS_LEFT = true -> prec <= n) /\
  (signed negative flags = true -> Z.max prec n = 0 \/ Z.max prec n <> width) /\
  Z.max prec n < 32 /\
  (has flags FLAGS_LEFT = false -> has flags FLAGS_ZEROPAD = true -> width <= 32).

Lemma reverse_zeros n : reverse (replicate n 48) = replicate n 48.
Proof using Type. apply reverse_replicate. Qed.

(** The zeros of the width, and the one the sign takes the place of. *)
Lemma zero_padding buf (sg : bool) width :
  0 <= width <= 32 -> (sg = true -> len buf = 0 \/ len buf <> width) ->
  (if negb (len (store_zeros width buf) =? 0) && (len (store_zeros width buf) =? width) && sg
   then unstore (store_zeros width buf) else store_zeros width buf)
  = buf ++ replicate (Z.to_nat (width - (if sg then 1 else 0) - len buf)) 48.
Proof using Type.
  intros Hw HS. unfold store_zeros, PRINTF_NTOA_BUFFER_SIZE. rewrite Z.min_l by lia. rewrite length_app, length_replicate.
  destruct (Z.eqb_spec (Z.of_nat (length buf + Z.to_nat (width - len buf))) 0),
    (Z.eqb_spec (Z.of_nat (length buf + Z.to_nat (width - len buf))) width), sg; cbn [negb andb];
    try (do 2 f_equal; lia).
  specialize (HS eq_refl). unfold unstore.
  rewrite length_app, length_replicate, take_app_ge, take_replicate by lia. do 2 f_equal. lia.
Qed.

Lemma ntoa_format_exact b idx maxlen buf negative base prec width flags :
  0 <= idx < 2 ^ 32 -> has flags FLAGS_HASH = false -> fits negative (len buf) prec width flags ->
  _ntoa_format out b idx maxlen buf negative base prec width flags =
  emit out (c_number negative (reverse buf) prec width flags) b idx maxlen.
Proof using Type.
  intros HI HH (Hp & Hw & HL & HS & H32 & HZ). unfold _ntoa_format. rewrite HH. cbv zeta.
  pose proof (c_sign_length negative flags) as HSg.
  assert (len (c_sign negative flags) <= 1) as HS1 by (destruct (signed negative flags); lia).
  assert ((if negb (has flags FLAGS_LEFT) then store_zeros prec buf else buf)
          = buf ++ replicate (Z.to_nat (prec - len buf)) 48) as ->.
  { destruct (has flags FLAGS_LEFT); cbn [negb].
    - specialize (HL eq_refl). replace (Z.to_nat (prec - len buf)) with 0%nat by lia. by rewrite app_nil_r.
    - unfold store_zeros, PRINTF_NTOA_BUFFER_SIZE. do 3 f_equal. lia. }
  unfold c_number, c_layout. cbv zeta. rewrite length_reverse.
  set (body := buf ++ replicate (Z.to_nat (prec - len buf)) 48).
  assert (replicate (Z.to_nat (prec - len buf)) 48 ++ reverse buf = reverse body) as ->
    by (subst body; by rewrite reverse_app, reverse_replicate).
  assert (len body = Z.max prec (len buf)) as Hbody by (subst body; rewrite length_app, length_replicate; lia).
  rewrite <- Hbody in *. rewrite length_reverse.
  destruct (has flags FLAGS_LEFT) eqn:EL; cbn [negb andb].
  - assert (negb (len body =? 0) && (len body =? width) && signed negative flags = false) as ->.
    { destruct (Z.eqb_spec (len body) 0), (Z.eqb_spec (len body) width), (signed negative flags); try done. naive_solver. }
    rewrite store_sign_eq by done. rewrite put_number_eq by (rewrite ?length_app; lia). rewrite EL.
    rewrite length_app, reverse_app, reverse_c_sign, <- app_assoc. do 4 f_equal. lia.
  - destruct (has flags FLAGS_ZEROPAD) eqn:EZ.
    + rewrite (zero_padding body (signed negative flags) width) by (done || (split; [done | by apply HZ])).
      rewrite store_sign_eq by (intros E; rewrite E in *; specialize (HZ eq_refl eq_refl); rewrite length_app, length_replicate; lia).
      rewrite put_number_eq by (rewrite ?length_app, ?length_replicate; specialize (HZ eq_refl eq_refl); lia). rewrite EL, EZ.
      rewrite !reverse_app, reverse_c_sign, reverse_replicate. do 4 f_equal. rewrite HSg. destruct (signed negative flags); lia.
    + assert (negb (len body =? 0) && (len body =? width) && signed negative flags = false) as ->.
      { destruct (Z.eqb_spec (len body) 0), (Z.eqb_spec (len body) width), (signed negative flags); try done. naive_solver. }
      rewrite store_sign_eq by done. rewrite put_number_eq by (rewrite ?length_app; lia). rewrite EL, EZ.
      rewrite length_app, reverse_app, reverse_c_sign. do 3 f_equal. lia.
Qed.

(** Digits that fill the width exactly lose the first of them to a sign. *)
Lemma ntoa_format_eats b idx maxlen buf negative base prec width flags :
  0 <= idx < 2 ^ 32 -> has flags FLAGS_HASH = false -> signed negative flags = true ->
  len buf = width -> 0 < width <= 32 -> prec <= width ->
  _ntoa_format out b idx maxlen buf negative base prec width flags =
  emit out (c_sign negative flags ++ tail (reverse buf)) b idx maxlen.
Proof using Type.
  intros HI HH HS Hw H32 Hp. unfold _ntoa_format. rewrite HH. cbv zeta.
  assert (forall limit, limit <= width -> store_zeros limit buf = buf) as HZ.
  { intros limit Hl. unfold store_zeros, PRINTF_NTOA_BUFFER_SIZE. replace (Z.to_nat _) with 0%nat by lia. apply app_nil_r. }
  rewrite HZ by done. assert ((if negb (has flags FLAGS_LEFT) then buf else buf) = buf) as -> by by destruct (has flags FLAGS_LEFT).
  rewrite HZ by done. assert ((if negb (has flags FLAGS_LEFT) && has flags FLAGS_ZEROPAD then buf else buf) = buf) as ->
    by by destruct (negb (has flags FLAGS_LEFT) && has flags FLAGS_ZEROPAD).
  destruct (Z.eqb_spec (len buf) 0); [lia |]. destruct (Z.eqb_spec (len buf) width); [| lia]. rewrite HS. cbn [negb andb].
  destruct buf as [|x buf _] using rev_ind; [cbn in *; lia |].
  assert (unstore (buf ++ [x]) = buf) as ->.
  { unfold unstore. rewrite length_app. cbn [length]. rewrite Nat.add_sub. apply take_app_length. }
  rewrite length_app in *. cbn [length] in *.
  pose proof (c_sign_length negative flags) as HSg. rewrite HS in HSg.
  rewrite store_sign_eq by lia. rewrite put_number_eq by (rewrite ?length_app; lia).
  rewrite length_app, !reverse_app, reverse_c_sign. cbn [reverse]. unfold spaces.
  replace (Z.to_nat (width - Z.of_nat (length buf + length (c_sign negative flags)))) with 0%nat by lia.
  rewrite app_nil_r. cbn [replicate app]. by destruct (has flags FLAGS_LEFT), (has flags FLAGS_ZEROPAD).
Qed.

(** The same for a value: no digits at all for 0 with a precision. *)
Definition value_digits (base v flags : Z) : bytes :=
  if has flags FLAGS_PRECISION && (v =? 0) then [] else (fun d => digit_char d flags) <$> numeral base v.

Lemma ntoa_digits b idx maxlen v negative base prec width flags :
  has flags FLAGS_HASH = false -> len (value_digits base v flags) <= 32 ->
  ntoa out b idx maxlen v negative base prec width flags =
  _ntoa_format out b idx maxlen (reverse (value_digits base v flags)) negative base prec width flags.
Proof using Type.
  intros HH HL. unfold ntoa. cbv zeta. unfold value_digits in *.
  set (flags' := if v =? 0 then Z.clearbit flags FLAGS_HASH else flags).
  assert (flags' = flags) as ->.
  { subst flags'. destruct (v =? 0); [| done]. apply Z.bits_inj'. intros k Hk. rewrite Z.clearbit_eqb.
    destruct (Z.eqb_spec FLAGS_HASH k) as [<- |]; [| by rewrite andb_true_r].
    unfold has in HH. by rewrite HH. }
  assert (negb (has flags FLAGS_PRECISION) || negb (v =? 0) = negb (has flags FLAGS_PRECISION && (v =? 0))) as ->
    by by rewrite negb_andb.
  destruct (has flags FLAGS_PRECISION && (v =? 0)) eqn:EP; cbn [negb]; [done |].
  assert (le_digits 32 base v = le_digits 64 base v) as E32.
  { unfold numeral in HL. rewrite length_fmap, length_reverse in HL. apply le_digits_turns. lia. }
  change (Z.to_nat PRINTF_NTOA_BUFFER_SIZE) with 32%nat. rewrite ntoa_loop_digits. cbn [app]. rewrite E32. unfold numeral. by rewrite fmap_reverse, reverse_involutive.
Qed.

Lemma ntoa_exact b idx maxlen v negative base prec width flags :
  0 <= idx < 2 ^ 32 -> has flags FLAGS_HASH = false -> fits negative (len (value_digits base v flags)) prec width flags ->
  ntoa out b idx maxlen v negative base prec width flags =
  emit out (c_number negative (value_digits base v flags) prec width flags) b idx maxlen.
Proof using Type.
  intros HI HH HF. rewrite ntoa_digits by (done || (destruct HF as (_ & _ & _ & _ & HF & _); lia)).
  rewrite ntoa_format_exact by (rewrite ?length_reverse; done). by rewrite reverse_involutive.
Qed.

Lemma ntoa_eats b idx maxlen v negative base prec width flags :
  0 <= idx < 2 ^ 32 -> has flags FLAGS_HASH = false -> signed negative flags = true ->
  len (value_digits base v flags) = width -> 0 < width <= 32 -> prec <= width ->
  ntoa out b idx maxlen v negative base prec width flags =
  emit out (c_sign negative flags ++ tail (value_digits base v flags)) b idx maxlen.
Proof using Type.
  intros HI HH HS Hw H32 Hp. rewrite ntoa_digits by (done || lia).
  rewrite ntoa_format_eats by (rewrite ?length_reverse; done). by rewrite reverse_involutive.
Qed.
End Layout.
