(* ===== verification/PrintfText.v ===== *)
(** * What printf prints

    Formats as lists of pieces - characters, conversions of integers, characters and
    strings - with the text each stands for by the C standard, and the theorem that the
    code prints it. *)

From Stdlib Require Import SpecFloat.
From S2P Require Import Prelude Printf PrintfFacts.

(** ** Formats *)

Inductive flag := Zero | Minus | Plus | Space.
#[export] Instance flag_eq_dec : EqDecision flag.
Proof. solve_decision. Defined.

Definition flag_char (f : flag) : Z := match f with Zero => 48 | Minus => 45 | Plus => 43 | Space => 32 end.
Definition flag_bit (f : flag) : Z :=
  match f with Zero => FLAGS_ZEROPAD | Minus => FLAGS_LEFT | Plus => FLAGS_PLUS | Space => FLAGS_SPACE end.

(** hh, h, none, l, ll, t, j, z. *)
Inductive length_mod := LHH | LH | LNone | LL | LLL | LT | LJ | LZ.

Definition length_chars (l : length_mod) : bytes :=
  match l with
  | LHH => [104; 104] | LH => [104] | LNone => [] | LL => [108] | LLL => [108; 108]
  | LT => [116] | LJ => [106] | LZ => [122]
  end.

(** The width of the type of the argument's value. *)
Definition length_bits (l : length_mod) : Z :=
  match l with LHH => 8 | LH => 16 | LLL | LJ => 64 | _ => 32 end.
Definition is_long_long (l : length_mod) : bool := match l with LLL | LJ => true | _ => false end.

(** d, i, u, x, X, o, b. *)
Inductive int_spec := Sd | Si | Su | Sx | SX | So | Sb.
Definition spec_char (s : int_spec) : Z :=
  match s with Sd => 100 | Si => 105 | Su => 117 | Sx => 120 | SX => 88 | So => 111 | Sb => 98 end.
Definition spec_signed (s : int_spec) : bool := match s with Sd | Si => true | _ => false end.
Definition spec_base (s : int_spec) : Z := match s with Sx | SX => 16 | So => 8 | Sb => 2 | _ => 10 end.

(** Flags, width and precision. *)
Record directive := mkDirective { d_flags : list flag; d_width : option Z; d_prec : option Z }.

Inductive piece :=
| PChar (c : Z)
| PPercent
| PInt (d : directive) (l : length_mod) (s : int_spec) (v : Z)
| PCharacter (d : directive) (c : Z)
(** The characters up to the terminating 0, and the rest of the object behind it. *)
| PString (d : directive) (s behind : bytes).

(** *** The format and the arguments *)

Definition decimal (n : Z) : bytes := (fun d => 48 + d) <$> numeral 10 n.

Definition render_width (d : directive) : bytes := match d_width d with Some w => decimal w | None => [] end.
Definition render_prec (d : directive) : bytes := match d_prec d with Some p => 46 :: decimal p | None => [] end.
Definition render_directive (d : directive) (conversion : bytes) : bytes :=
  37 :: (flag_char <$> d_flags d) ++ render_width d ++ render_prec d ++ conversion.

Definition render (x : piece) : bytes :=
  match x with
  | PChar c => [c]
  | PPercent => [37; 37]
  | PInt d l s v => render_directive d (length_chars l ++ [spec_char s])
  | PCharacter d c => render_directive d [99]
  | PString d s _ => render_directive d [115]
  end.

Definition piece_args (x : piece) : list vararg :=
  match x with
  | PChar _ | PPercent => []
  | PInt d l s v => [if is_long_long l then VLongLong v else VInt v]
  | PCharacter d c => [VInt c]
  | PString d s behind => [VString (s ++ 0 :: behind)]
  end.

(** *** The text, by the standard *)

Definition flagged (d : directive) (f : flag) : bool := bool_decide (f ∈ d_flags d).
Definition width_of (d : directive) : Z := default 0 (d_width d).
Definition prec_of (d : directive) : Z := default 0 (d_prec d).

(** The value of an argument in the type the length modifier says. *)
Definition int_value (l : length_mod) (s : int_spec) (v : Z) : Z :=
  if spec_signed s then swrap (length_bits l) v else wrap (length_bits l) v.

Definition digit (s : int_spec) (d : Z) : Z :=
  if d <? 10 then 48 + d else (match s with SX => 65 | _ => 97 end) + (d - 10).
Definition int_digits (d : directive) (s : int_spec) (x : Z) : bytes :=
  match d_prec d with
  | Some _ => if x =? 0 then [] else digit s <$> numeral (spec_base s) (Z.abs x)
  | None => digit s <$> numeral (spec_base s) (Z.abs x)
  end.
Definition int_sign (d : directive) (s : int_spec) (x : Z) : bytes :=
  if x <? 0 then [45]
  else if spec_signed s && flagged d Plus then [43]
  else if spec_signed s && flagged d Space then [32] else [].

Definition pad_text (d : directive) (t : bytes) : bytes :=
  if flagged d Minus then t ++ spaces (width_of d - len t) else spaces (width_of d - len t) ++ t.

Definition zero_padded (d : directive) : bool :=
  flagged d Zero && match d_prec d with Some _ => false | None => true end.

Definition piece_text (x : piece) : bytes :=
  match x with
  | PChar c => [c]
  | PPercent => [37]
  | PInt d l s v =>
      let x := int_value l s v in
      c_layout (int_sign d s x) (int_digits d s x) (prec_of d) (width_of d) (flagged d Minus) (zero_padded d)
  | PCharacter d c => pad_text d [wrap 8 c]
  | PString d s _ => pad_text d (match d_prec d with Some p => ztake p s | None => s end)
  end.

(** *** The formats the code prints so *)

Definition directive_ok (d : directive) : Prop :=
  (forall w, d_width d = Some w -> 0 < w < 2 ^ 32) /\ (forall p, d_prec d = Some p -> 0 <= p < 2 ^ 32).

(** Not the smallest number of its type; no zeros of a precision on the left; no sign in
    front of digits that fill the width; up to 31 digits and 32 characters of padding
    with zeros. *)
Definition int_ok (d : directive) (l : length_mod) (s : int_spec) (v : Z) : Prop :=
  let x := int_value l s v in
  let n := Z.max (prec_of d) (len (int_digits d s x)) in
  (spec_signed s = true -> 32 <= length_bits l -> x <> - 2 ^ (length_bits l - 1)) /\
  (flagged d Minus = true -> prec_of d <= len (int_digits d s x)) /\
  (int_sign d s x <> [] -> n = 0 \/ n <> width_of d) /\
  n < 32 /\
  (flagged d Minus = false -> zero_padded d = true -> width_of d <= 32).

Definition piece_ok (x : piece) : Prop :=
  match x with
  | PChar c => c <> 0 /\ c <> 37
  | PPercent => True
  | PInt d l s v => directive_ok d /\ int_ok d l s v
  | PCharacter d c => directive_ok d
  | PString d s _ => directive_ok d /\ Forall (fun c => c <> 0) s /\ len s < 2 ^ 32
  end.

(** ** Reading a directive *)

Lemma has_setbit a n k : 0 <= n -> has (Z.setbit a n) k = (n =? k) || has a k.
Proof. intros Hn. unfold has. by rewrite Z.setbit_eqb. Qed.

Lemma has_clearbit a n k : has (Z.clearbit a n) k = has a k && negb (n =? k).
Proof. unfold has. by rewrite Z.clearbit_eqb. Qed.

Definition flag_bits (fl : list flag) (a : Z) : Z := foldl (fun a f => Z.setbit a (flag_bit f)) a fl.
Definition prec_bits (d : directive) (a : Z) : Z :=
  match d_prec d with Some _ => Z.setbit a FLAGS_PRECISION | None => a end.
Definition length_bit (l : length_mod) (a : Z) : Z :=
  match l with
  | LHH => Z.setbit (Z.setbit a FLAGS_SHORT) FLAGS_CHAR
  | LH => Z.setbit a FLAGS_SHORT
  | LNone => a
  | LL | LT | LZ => Z.setbit a FLAGS_LONG
  | LLL => Z.setbit (Z.setbit a FLAGS_LONG) FLAGS_LONG_LONG
  | LJ => Z.setbit a FLAGS_LONG_LONG
  end.
Definition all_bits (d : directive) (l : length_mod) : Z := length_bit l (prec_bits d (flag_bits (d_flags d) 0)).

Lemma has_flag_bits fl : forall a k, has (flag_bits fl a) k = existsb (fun f => flag_bit f =? k) fl || has a k.
Proof.
  induction fl as [|f fl IH]; intros a k; [done |]. cbn [flag_bits foldl existsb]. fold (flag_bits fl (Z.setbit a (flag_bit f))).
  rewrite IH, has_setbit by (by destruct f). by rewrite !orb_assoc, (orb_comm (existsb _ _)).
Qed.

Lemma has_flagged d f : existsb (fun g => flag_bit g =? flag_bit f) (d_flags d) = flagged d f.
Proof.
  unfold flagged. induction (d_flags d) as [|g fl IH]; [done |]. cbn [existsb]. rewrite IH.
  assert ((flag_bit g =? flag_bit f) = bool_decide (f = g)) as -> by (by destruct f, g).
  symmetry. rewrite (bool_decide_ext _ _ (elem_of_cons fl f g)). by rewrite bool_decide_or.
Qed.

(** The characters that end a list of flags. *)
Definition no_flag (c : Z) : bool := negb ((c =? 48) || (c =? 45) || (c =? 43) || (c =? 32) || (c =? 35)).

Lemma flags_loop_spec fl c rest : forall a, no_flag c = true ->
  flags_loop ((flag_char <$> fl) ++ c :: rest) a = Ok (flag_bits fl a, c :: rest).
Proof.
  induction fl as [|f fl IH]; intros a Hc; cbn [fmap list_fmap app flags_loop].
  - unfold no_flag in Hc. apply negb_true_iff in Hc. rewrite !orb_false_iff in Hc.
    destruct Hc as ((((-> & ->) & ->) & ->) & ->). done.
  - destruct f; cbn [flag_char Z.eqb]; by apply IH.
Qed.

(** *** Decimal numbers *)

Definition be_value (ds : list Z) (i : Z) : Z := foldl (fun a d => a * 10 + d) i ds.

Lemma be_value_app ds es i : be_value (ds ++ es) i = be_value es (be_value ds i).
Proof. apply foldl_app. Qed.

Lemma be_value_reverse ds : be_value (reverse ds) 0 = le_value 10 ds.
Proof.
  induction ds as [|d ds IH]; [done |]. rewrite reverse_cons, be_value_app, IH. cbn. lia.
Qed.

Lemma atoi_digits ds c rest : forall i, Forall (fun d => 0 <= d < 10) ds -> _is_digit c = false -> 0 <= i < 2 ^ 32 ->
  _atoi (((fun d => 48 + d) <$> ds) ++ c :: rest) i = Ok (u32 (be_value ds i), c :: rest).
Proof.
  induction ds as [|d ds IH]; intros i Hds Hc Hi; cbn [fmap list_fmap app _atoi].
  - rewrite Hc. cbn [be_value foldl]. by rewrite wrap_small by lia.
  - apply Forall_cons in Hds as [Hd Hds].
    assert (_is_digit (48 + d) = true) as -> by (unfold _is_digit; apply andb_true_iff; split; apply Z.leb_le; lia).
    rewrite IH by (done || (apply (wrap_range 32); lia)). do 2 f_equal. cbn [be_value foldl].
    replace (u32 (u32 (i * 10) + (48 + d - 48))) with (u32 (i * 10 + d))
      by (unfold wrap; rewrite Z.add_mod_idemp_l by lia; f_equal; lia).
    fold (be_value ds (u32 (i * 10 + d))) (be_value ds (i * 10 + d)). generalize (i * 10 + d). clear.
    induction ds as [|d ds IH]; intros x; cbn [be_value foldl].
    + unfold wrap. by rewrite Z.mod_mod by lia.
    + fold (be_value ds (u32 x * 10 + d)) (be_value ds (x * 10 + d)). rewrite <- IH, <- (IH (x * 10 + d)).
      do 2 f_equal. unfold wrap. rewrite <- (Z.add_mod_idemp_l (x mod _ * 10)), Z.mul_mod_idemp_l, Z.add_mod_idemp_l by lia. done.
Qed.

Lemma numeral_10 n : 0 <= n < 2 ^ 32 ->
  Forall (fun d => 0 <= d < 10) (numeral 10 n) /\ be_value (numeral 10 n) 0 = n /\
  exists d ds, numeral 10 n = d :: ds /\ (0 < n -> d <> 0).
Proof.
  intros Hn. destruct (le_digits_spec 64 10 n ltac:(lia)) as (HV & HF & _ & ds & d & E & _ & Hd); [| lia |].
  { split; [lia |]. apply Z.lt_trans with (2 ^ 32); [lia | reflexivity]. }
  unfold numeral. rewrite be_value_reverse. split; [by apply Forall_reverse |]. split; [done |].
  exists d, (reverse ds). rewrite E, reverse_app. split; [done | lia].
Qed.

Lemma decimal_atoi n c rest : 0 <= n < 2 ^ 32 -> _is_digit c = false ->
  _atoi (decimal n ++ c :: rest) 0 = Ok (n, c :: rest).
Proof.
  intros Hn Hc. destruct (numeral_10 n Hn) as (HF & HV & _). unfold decimal.
  rewrite atoi_digits by (done || lia). rewrite HV. by rewrite wrap_small by lia.
Qed.

Lemma decimal_head n : 0 <= n < 2 ^ 32 -> exists c rest, decimal n = c :: rest /\ _is_digit c = true /\ (0 < n -> c <> 48).
Proof.
  intros Hn. destruct (numeral_10 n Hn) as (HF & _ & d & ds & E & Hd). unfold decimal. rewrite E in *.
  apply Forall_cons in HF as [HF _]. exists (48 + d), ((fun d => 48 + d) <$> ds). split; [done |].
  split; [unfold _is_digit; apply andb_true_iff; split; apply Z.leb_le; lia | lia].
Qed.

(** *** The fields of a directive *)

(** The characters that end the fields: all conversions and length modifiers. *)
Definition letter (c : Z) : Prop := 65 <= c.
Definition specifier (c : Z) : Prop := letter c /\ c <> 108 /\ c <> 104 /\ c <> 116 /\ c <> 106 /\ c <> 122.

Lemma letter_no_flag c : letter c -> no_flag c = true.
Proof.
  unfold letter, no_flag. intros Hc. apply negb_true_iff. rewrite !orb_false_iff, !Z.eqb_neq. lia.
Qed.

Lemma letter_no_digit c : letter c -> _is_digit c = false.
Proof. unfold letter, _is_digit. intros Hc. apply andb_false_iff. right. apply Z.leb_gt. lia. Qed.

Ltac off := match goal with |- context [?a =? ?b] => destruct (Z.eqb_spec a b); [unfold letter, specifier in *; lia |] end.

Lemma width_field_spec d c rest va flags : directive_ok d -> letter c ->
  width_field (render_width d ++ render_prec d ++ c :: rest) va flags
  = Ok (width_of d, flags, render_prec d ++ c :: rest, va).
Proof.
  intros [Hw _] Hc. unfold width_field, render_width, width_of.
  assert (exists c' rest', render_prec d ++ c :: rest = c' :: rest' /\ _is_digit c' = false /\ c' <> 42) as (c' & rest' & E & Hd & Hs).
  { unfold render_prec. destruct (d_prec d); [by eexists _, _ |]. exists c, rest.
    split; [done |]. split; [by apply letter_no_digit | unfold letter in Hc; lia]. }
  rewrite E. destruct (d_width d) as [w |] eqn:Ew.
  - specialize (Hw w eq_refl). pose proof (decimal_atoi w c' rest' ltac:(lia) Hd) as HA.
    destruct (decimal_head w ltac:(lia)) as (c1 & r1 & Ed & Hdg & _). rewrite Ed in *.
    cbn [app format_char mbind res_bind] in *. by rewrite Hdg, HA.
  - cbn [app format_char mbind res_bind]. rewrite Hd. by off.
Qed.

Lemma precision_field_spec d c rest va flags : directive_ok d -> letter c ->
  precision_field (render_prec d ++ c :: rest) va flags = Ok (prec_of d, prec_bits d flags, c :: rest, va).
Proof.
  intros [_ Hp] Hc. unfold precision_field, render_prec, prec_of, prec_bits. destruct (d_prec d) as [p |] eqn:Ep.
  - specialize (Hp p eq_refl). cbn [app format_char mbind res_bind Z.eqb tail]. change (46 =? 46) with true. cbv iota zeta.
    pose proof (decimal_atoi p c rest Hp (letter_no_digit c Hc)) as HA.
    destruct (decimal_head p Hp) as (c1 & r1 & Ed & Hdg & _). rewrite Ed in *.
    cbn [app format_char mbind res_bind] in *. by rewrite Hdg, HA.
  - cbn [app format_char mbind res_bind]. by off.
Qed.

Lemma length_field_spec l s rest flags : specifier s ->
  length_field (length_chars l ++ s :: rest) flags = Ok (length_bit l flags, s :: rest).
Proof.
  intros Hs. unfold specifier, letter in Hs. unfold length_field.
  destruct l; cbn [length_chars app format_char mbind res_bind tail length_bit]; try reflexivity;
    cbv zeta; repeat off; try reflexivity.
  all: change (108 =? 108) with true; change (104 =? 108) with false; change (104 =? 104) with true; cbv iota; by repeat off.
Qed.

Lemma length_chars_head l s : specifier s -> exists c rest, length_chars l ++ [s] = c :: rest /\ letter c.
Proof.
  intros [Hs _]. unfold letter in *. destruct l; cbn [length_chars app]; eexists _, _; (split; [reflexivity | lia]).
Qed.

Section Step.
Context {B : Type} (out : Z -> B -> Z -> Z -> res B).

(** A turn of the loop for a directive. *)
Lemma directive_step d l s fuel rest va b idx maxlen : directive_ok d -> specifier s ->
  vsnprintf_loop out (S fuel) (render_directive d (length_chars l ++ [s]) ++ rest) va b idx maxlen =
  '(b', idx', va') ← convert out s b idx maxlen va (prec_of d) (width_of d) (all_bits d l);
  vsnprintf_loop out fuel rest va' b' idx' maxlen.
Proof using Type.
  intros Hd Hs. destruct (length_chars_head l s Hs) as (c & r & E & Hc). unfold render_directive.
  cbn [vsnprintf_loop app format_char mbind res_bind tail]. change (37 =? 0) with false. change (negb (37 =? 37)) with false.
  cbv iota. rewrite E, <- !app_assoc. cbn [app].
  assert (exists c' r', render_width d ++ render_prec d ++ c :: r ++ rest = c' :: r' /\ no_flag c' = true) as (c' & r' & E' & Hc').
  { unfold render_width, render_prec. destruct (d_width d) as [w |] eqn:Ew.
    - destruct Hd as [Hw _]. specialize (Hw w Ew). destruct (decimal_head w ltac:(lia)) as (c1 & r1 & -> & Hdg & H48).
      eexists _, _. split; [reflexivity |]. unfold _is_digit in Hdg. unfold no_flag.
      apply andb_true_iff in Hdg. rewrite !Z.leb_le in Hdg. apply negb_true_iff. rewrite !orb_false_iff, !Z.eqb_neq. lia.
    - destruct (d_prec d); [by eexists _, _ |]. exists c, (r ++ rest). split; [done | by apply letter_no_flag]. }
  rewrite E', flags_loop_spec by done. cbn [mbind res_bind]. rewrite <- E'.
  rewrite width_field_spec by done. cbn [mbind res_bind]. rewrite precision_field_spec by done. cbn [mbind res_bind].
  rewrite app_comm_cons, <- E, <- app_assoc. cbn [app].
  rewrite length_field_spec by done. reflexivity.
Qed.
End Step.

(** ** Conversions *)

Definition length_bit_list (l : length_mod) : list Z :=
  match l with
  | LHH => [FLAGS_CHAR; FLAGS_SHORT] | LH => [FLAGS_SHORT] | LNone => [] | LL | LT | LZ => [FLAGS_LONG]
  | LLL => [FLAGS_LONG_LONG; FLAGS_LONG] | LJ => [FLAGS_LONG_LONG]
  end.
Definition has_prec (d : directive) : bool := match d_prec d with Some _ => true | None => false end.

Lemma has_all_bits d l k :
  has (all_bits d l) k = existsb (fun n => n =? k) (length_bit_list l) || (has_prec d && (FLAGS_PRECISION =? k)) ||
                         existsb (fun f => flag_bit f =? k) (d_flags d).
Proof.
  unfold all_bits. assert (has (prec_bits d (flag_bits (d_flags d) 0)) k =
    (has_prec d && (FLAGS_PRECISION =? k)) || existsb (fun f => flag_bit f =? k) (d_flags d)) as E.
  { unfold prec_bits, has_prec. destruct (d_prec d); rewrite ?has_setbit, has_flag_bits by done; unfold has at 1;
      by rewrite Z.bits_0, orb_false_r. }
  destruct l; cbn [length_bit length_bit_list existsb]; rewrite ?has_setbit, E by done; by rewrite ?orb_false_r, ?orb_assoc.
Qed.

Lemma flagged_other d k : (forall f, flag_bit f <> k) -> existsb (fun f => flag_bit f =? k) (d_flags d) = false.
Proof.
  intros Hk. induction (d_flags d) as [|f fl IH]; [done |]. cbn [existsb]. rewrite IH.
  destruct (Z.eqb_spec (flag_bit f) k); [by destruct (Hk f) | done].
Qed.

(** The bits of a directive, one by one. *)
Lemma directive_bits d l :
  has (all_bits d l) FLAGS_ZEROPAD = flagged d Zero /\ has (all_bits d l) FLAGS_LEFT = flagged d Minus /\
  has (all_bits d l) FLAGS_PLUS = flagged d Plus /\ has (all_bits d l) FLAGS_SPACE = flagged d Space /\
  has (all_bits d l) FLAGS_HASH = false /\ has (all_bits d l) FLAGS_UPPERCASE = false /\
  has (all_bits d l) FLAGS_PRECISION = has_prec d.
Proof.
  assert (forall f, has (all_bits d l) (flag_bit f) = flagged d f) as HF.
  { intros f. rewrite has_all_bits, has_flagged. assert (existsb (fun n => n =? flag_bit f) (length_bit_list l) = false) as ->
      by (by destruct l, f). assert ((FLAGS_PRECISION =? flag_bit f) = false) as -> by (by destruct f).
    by rewrite andb_false_r. }
  split_and!; try apply (HF Zero); try apply (HF Minus); try apply (HF Plus); try apply (HF Space).
  all: rewrite has_all_bits, flagged_other by (by intros []); destruct l, (has_prec d); reflexivity.
Qed.

Ltac flags_lia :=
  unfold FLAGS_ZEROPAD, FLAGS_LEFT, FLAGS_PLUS, FLAGS_SPACE, FLAGS_HASH, FLAGS_UPPERCASE, FLAGS_CHAR, FLAGS_SHORT,
    FLAGS_LONG, FLAGS_LONG_LONG, FLAGS_PRECISION in *; lia.

(** The bits of a conversion of integers. *)
Lemma int_bits d l s : let f := int_flags (spec_char s) (all_bits d l) in
  has f FLAGS_ZEROPAD = zero_padded d /\ has f FLAGS_LEFT = flagged d Minus /\
  has f FLAGS_PLUS = spec_signed s && flagged d Plus /\ has f FLAGS_SPACE = spec_signed s && flagged d Space /\
  has f FLAGS_HASH = false /\ has f FLAGS_UPPERCASE = (match s with SX => true | _ => false end) /\
  has f FLAGS_PRECISION = has_prec d /\
  (forall k, FLAGS_CHAR <= k <= FLAGS_LONG_LONG -> has f k = existsb (fun n => n =? k) (length_bit_list l)).
Proof.
  destruct (directive_bits d l) as (EZ & EL & EP & ES & EH & EU & EPr). cbv zeta. unfold int_flags, zero_padded.
  assert (forall k, FLAGS_CHAR <= k <= FLAGS_LONG_LONG -> has (all_bits d l) k = existsb (fun n => n =? k) (length_bit_list l)) as EK.
  { intros k Hk. rewrite has_all_bits, flagged_other by (intros []; cbn [flag_bit]; flags_lia).
    destruct (Z.eqb_spec FLAGS_PRECISION k) as [<- |]; [flags_lia |]. by rewrite andb_false_r, !orb_false_r. }
  assert ((match d_prec d with Some _ => false | None => true end) = negb (has_prec d)) as -> by by unfold has_prec; destruct (d_prec d).
  destruct s; cbn [int_base int_signed spec_char Z.eqb Pos.eqb orb negb spec_signed andb]; cbv zeta;
    rewrite ?has_clearbit, ?has_setbit by done;
    rewrite ?EPr; unfold FLAGS_PRECISION, FLAGS_HASH, FLAGS_PLUS, FLAGS_SPACE, FLAGS_UPPERCASE, FLAGS_ZEROPAD, FLAGS_LEFT in *.
  all: destruct (has_prec d); cbn [Z.eqb Pos.eqb orb andb negb];
    rewrite ?has_clearbit, ?has_setbit, ?EZ, ?EL, ?EP, ?ES, ?EH, ?EU, ?EPr by done;
    cbn [Z.eqb Pos.eqb orb andb negb]; rewrite ?andb_true_r, ?andb_false_r; split_and!; try done.
  all: intros k Hk; rewrite ?has_clearbit, ?has_setbit, EK by done;
    unfold FLAGS_CHAR, FLAGS_LONG_LONG in Hk;
    repeat match goal with |- context [?a =? k] => lazymatch a with Z0 => idtac | Zpos _ => idtac end; destruct (Z.eqb_spec a k); [lia |] end;
    cbn [negb andb orb]; by rewrite ?andb_true_r.
Qed.

(** A value narrowed twice. *)
Lemma wrap_wrap_le n m v : 0 <= n <= m -> wrap n (wrap m v) = wrap n v.
Proof.
  intros H. unfold wrap. replace (2 ^ m) with (2 ^ n * 2 ^ (m - n)) by (rewrite <- Z.pow_add_r by lia; f_equal; lia).
  rewrite Z.rem_mul_r by lia. rewrite Z.mul_comm, Z.mod_add, Z.mod_mod by lia. done.
Qed.

Lemma swrap_wrap_le n m v : 0 < n <= m -> swrap n (wrap m v) = swrap n v.
Proof.
  intros H. unfold swrap. f_equal. pose proof (wrap_wrap_le n m v ltac:(lia)) as E. unfold wrap in *.
  by rewrite <- (Z.add_mod_idemp_l (v mod _)), E, Z.add_mod_idemp_l by lia.
Qed.

Lemma int_value_range l s v : let x := int_value l s v in
  - 2 ^ (length_bits l - 1) <= x < 2 ^ length_bits l /\ (spec_signed s = false -> 0 <= x) /\
  (spec_signed s = true -> x < 2 ^ (length_bits l - 1)).
Proof.
  cbv zeta. unfold int_value. pose proof (wrap_range (length_bits l) v ltac:(by destruct l)) as HW.
  pose proof (swrap_range (length_bits l) v ltac:(by destruct l)) as HS.
  assert (0 < 2 ^ (length_bits l - 1) < 2 ^ length_bits l) by (destruct l; cbn; lia).
  destruct (spec_signed s); split_and!; try done; lia.
Qed.

Section Convert.
Context {B : Type} (out : Z -> B -> Z -> Z -> res B).

(** The argument as the code reads it, and its absolute value. *)
Lemma int_argument d l s v va (K K' : Z -> Z -> list vararg -> res (B * Z * list vararg)) :
  let f := int_flags (spec_char s) (all_bits d l) in
  let x := int_value l s v in
  (spec_signed s = true -> 32 <= length_bits l -> x <> - 2 ^ (length_bits l - 1)) ->
  let va' := (if is_long_long l then VLongLong v else VInt v) :: va in
  (if spec_signed s then
    if has f FLAGS_LONG_LONG then
      '(v, va) ← va_long_long va'; m ← magnitude 64 (swrap 64 v); K (swrap 64 v) m va
    else
      '(v, va) ← va_int va';
      let value :=
        if has f FLAGS_LONG then swrap 32 v else if has f FLAGS_CHAR then swrap 8 v
        else if has f FLAGS_SHORT then swrap 16 v else swrap 32 v in
      m ← magnitude 32 value; K value m va
  else
    if has f FLAGS_LONG_LONG then '(v, va) ← va_long_long va'; K' v v va
    else
      '(v, va) ← va_int va';
      let value :=
        if has f FLAGS_LONG then v else if has f FLAGS_CHAR then wrap 8 v
        else if has f FLAGS_SHORT then wrap 16 v else v in
      K' value value va)
  = (if spec_signed s then K else K') x (Z.abs x) va.
Proof using Type.
  cbv zeta. intros Hmin. destruct (int_bits d l s) as (_ & _ & _ & _ & _ & _ & _ & HK).
  rewrite !HK by flags_lia. pose proof (int_value_range l s v) as (HR & HU & HS). unfold int_value in *.
  destruct (spec_signed s); destruct l; cbn [is_long_long length_bit_list existsb length_bits va_int va_long_long] in *;
    cbn -[Z.pow swrap wrap magnitude Z.abs]; unfold magnitude; rewrite ?swrap_wrap_le, ?wrap_wrap_le by lia;
    try (rewrite Z.abs_eq by (apply HU; reflexivity); done).
  all: match goal with |- context [?a =? ?b] => destruct (Z.eqb_spec a b) as [E |]; [| done] end; exfalso.
  all: first [apply Hmin; [done | lia | exact E] | pose proof (HS eq_refl); cbn in *; lia].
Qed.

Lemma value_digits_eq d l s v :
  value_digits (spec_base s) (Z.abs (int_value l s v)) (int_flags (spec_char s) (all_bits d l))
  = int_digits d s (int_value l s v).
Proof using Type.
  destruct (int_bits d l s) as (_ & _ & _ & _ & _ & HU & HP & _). unfold value_digits, int_digits. rewrite HP.
  set (x := int_value l s v). assert ((Z.abs x =? 0) = (x =? 0)) as -> by (destruct (Z.eqb_spec (Z.abs x) 0), (Z.eqb_spec x 0); lia).
  assert (forall ds : list Z, (fun d0 => digit_char d0 (int_flags (spec_char s) (all_bits d l))) <$> ds = digit s <$> ds) as HD.
  { intros ds. apply list_fmap_ext. intros i y _. unfold digit_char, digit. rewrite HU. destruct (y <? 10); [done |].
    destruct s; lia. }
  rewrite HD. unfold has_prec. destruct (d_prec d); cbn [andb]; [by destruct (x =? 0) | done].
Qed.

Lemma c_sign_eq d l s x :
  (spec_signed s = false -> 0 <= x) ->
  c_sign (if spec_signed s then x <? 0 else false) (int_flags (spec_char s) (all_bits d l)) = int_sign d s x.
Proof using Type.
  intros Hx. destruct (int_bits d l s) as (_ & _ & HP & HS & _). unfold c_sign, int_sign. rewrite HP, HS.
  destruct (spec_signed s); cbn [andb]; [done |]. specialize (Hx eq_refl). by destruct (Z.ltb_spec x 0); [lia |].
Qed.

Lemma spec_is_integer s : is_integer_specifier (spec_char s) = true.
Proof using Type. by destruct s. Qed.

Lemma ntoa_directive d l s v b idx maxlen : 0 <= idx < 2 ^ 32 -> directive_ok d -> int_ok d l s v ->
  let x := int_value l s v in
  ntoa out b idx maxlen (Z.abs x) (if spec_signed s then x <? 0 else false) (spec_base s) (prec_of d) (width_of d)
    (int_flags (spec_char s) (all_bits d l))
  = emit out (piece_text (PInt d l s v)) b idx maxlen.
Proof using Type.
  cbv zeta. intros HI [Hdw Hdp] (_ & HL & HS & H32 & HZ). destruct (int_bits d l s) as (EZ & EL & EP & ES & EH & _ & _ & _).
  pose proof (int_value_range l s v) as (_ & HU & _). pose proof (value_digits_eq d l s v) as EV.
  set (x := int_value l s v) in *.
  pose proof (c_sign_eq d l s x HU) as Esg. pose proof (c_sign_length (if spec_signed s then x <? 0 else false)
    (int_flags (spec_char s) (all_bits d l))) as Hsg. rewrite Esg in Hsg.
  rewrite ntoa_exact; [| done | done |].
  - unfold c_number. fold x in HL. rewrite Esg, EL, EZ, EV. done.
  - unfold fits. rewrite EV, EL, EZ. split_and!; try done.
    + unfold prec_of. destruct (d_prec d) as [p |]; [by destruct (Hdp p eq_refl) | done].
    + unfold width_of. destruct (d_width d) as [w |]; [destruct (Hdw w eq_refl); cbn; lia | done].
    + intros E. rewrite E in Hsg. apply HS. intros E0. rewrite E0 in Hsg. done.
Qed.

(** The conversion prints what [ntoa] prints for the value. *)
Lemma convert_number d l s v b idx maxlen va :
  let x := int_value l s v in
  (spec_signed s = true -> 32 <= length_bits l -> x <> - 2 ^ (length_bits l - 1)) ->
  convert out (spec_char s) b idx maxlen (piece_args (PInt d l s v) ++ va) (prec_of d) (width_of d) (all_bits d l)
  = '(b', idx') ← ntoa out b idx maxlen (Z.abs x) (if spec_signed s then x <? 0 else false) (spec_base s)
                    (prec_of d) (width_of d) (int_flags (spec_char s) (all_bits d l));
    Ok (b', idx', va).
Proof using Type.
  cbv zeta. intros Hmin. unfold convert. rewrite spec_is_integer. unfold convert_integer. cbv zeta.
  assert (int_signed (spec_char s) = spec_signed s) as -> by by destruct s.
  assert (int_base (spec_char s) = spec_base s) as -> by by destruct s.
  pose proof (int_argument d l s v va
    (fun value m va => '(b', i') ← ntoa out b idx maxlen m (value <? 0) (spec_base s) (prec_of d) (width_of d)
                                     (int_flags (spec_char s) (all_bits d l)); Ok (b', i', va))
    (fun value m va => '(b', i') ← ntoa out b idx maxlen m false (spec_base s) (prec_of d) (width_of d)
                                     (int_flags (spec_char s) (all_bits d l)); Ok (b', i', va)) Hmin) as HA.
  cbv zeta in HA. unfold _ntoa_long, _ntoa_long_long. cbn [piece_args app]. etransitivity; [exact HA |].
  by destruct (spec_signed s).
Qed.

Lemma convert_int d l s v b idx maxlen va : 0 <= idx < 2 ^ 32 -> directive_ok d -> int_ok d l s v ->
  convert out (spec_char s) b idx maxlen (piece_args (PInt d l s v) ++ va) (prec_of d) (width_of d) (all_bits d l)
  = '(b', idx') ← emit out (piece_text (PInt d l s v)) b idx maxlen; Ok (b', idx', va).
Proof using Type.
  intros HI Hd HO. rewrite convert_number by apply HO. by rewrite ntoa_directive.
Qed.

(** A signed number whose digits fill the width. *)
Definition sign_collides (d : directive) (l : length_mod) (s : int_spec) (v : Z) : Prop :=
  let x := int_value l s v in
  (32 <= length_bits l -> x <> - 2 ^ (length_bits l - 1)) /\ int_sign d s x <> [] /\
  len (int_digits d s x) = width_of d /\ 0 < width_of d <= 32 /\ prec_of d <= width_of d.

Lemma convert_collision d l s v b idx maxlen va : 0 <= idx < 2 ^ 32 -> sign_collides d l s v ->
  let x := int_value l s v in
  convert out (spec_char s) b idx maxlen (piece_args (PInt d l s v) ++ va) (prec_of d) (width_of d) (all_bits d l)
  = '(b', idx') ← emit out (int_sign d s x ++ tail (int_digits d s x)) b idx maxlen; Ok (b', idx', va).
Proof using Type.
  cbv zeta. intros HI (Hmin & HS & HL & Hw & Hp). pose proof (int_value_range l s v) as (_ & HU & _).
  destruct (int_bits d l s) as (_ & _ & _ & _ & EH & _). pose proof (value_digits_eq d l s v) as EV.
  rewrite convert_number by auto. set (x := int_value l s v) in *.
  pose proof (c_sign_eq d l s x HU) as Esg.
  pose proof (c_sign_length (if spec_signed s then x <? 0 else false) (int_flags (spec_char s) (all_bits d l))) as Hsg.
  rewrite Esg in Hsg. rewrite ntoa_eats; rewrite ?EV, ?Esg; try done.
  destruct (signed _ _); [done |]. by destruct (int_sign d s x).
Qed.
End Convert.

Section Text.
Context {B : Type} (out : Z -> B -> Z -> Z -> res B).

Lemma emit_padded (left : bool) cs sp b idx maxlen :
  ('(b, idx) ← (if negb left then emit out sp b idx maxlen else Ok (b, idx));
   '(b, idx) ← emit out cs b idx maxlen;
   if left then emit out sp b idx maxlen else Ok (b, idx))
  = emit out (if left then cs ++ sp else sp ++ cs) b idx maxlen.
Proof using Type.
  destruct left; cbn [negb mbind res_bind]; rewrite emit_app; [done |].
  destruct (emit out sp b idx maxlen) as [[b1 i1] | | | |]; try done. cbn [mbind res_bind].
  by destruct (emit out cs b1 i1 maxlen) as [[? ?] | | | |].
Qed.

Lemma convert_character d c b idx maxlen va :
  convert out 99 b idx maxlen (piece_args (PCharacter d c) ++ va) (prec_of d) (width_of d) (all_bits d LNone)
  = '(b', idx') ← emit out (piece_text (PCharacter d c)) b idx maxlen; Ok (b', idx', va).
Proof using Type.
  destruct (directive_bits d LNone) as (_ & EL & _). unfold convert. cbn [piece_args app].
  change (is_integer_specifier 99) with false. change ((99 =? 102) || (99 =? 70)) with false. change (99 =? 99) with true.
  cbv iota. cbn [va_int mbind res_bind]. rewrite wrap_wrap_le by lia. unfold convert_char. rewrite EL, emit_padded.
  reflexivity.
Qed.

Lemma strlen_text s rest : Forall (fun c => c <> 0) s -> len s < 2 ^ 32 -> _strlen (s ++ 0 :: rest) = Ok (len s).
Proof using Type.
  induction 1 as [|c s Hc _ IH]; intros HL; [done |]. cbn [app _strlen length] in *.
  destruct (Z.eqb_spec c 0); [done |]. rewrite IH by lia. cbn [mbind res_bind]. f_equal. rewrite wrap_small; lia.
Qed.

Lemma string_chars_text (limited : bool) s rest : Forall (fun c => c <> 0) s -> forall n,
  string_chars limited n (s ++ 0 :: rest) = Ok (if limited then take n s else s).
Proof using Type.
  induction 1 as [|c s Hc _ IH]; intros n; cbn [app string_chars].
  - destruct limited; [by rewrite take_nil | done].
  - destruct (Z.eqb_spec c 0); [done |]. destruct limited; [destruct n as [|n]; [done |] |]; by rewrite IH.
Qed.

Lemma convert_text d s behind b idx maxlen va : directive_ok d -> Forall (fun c => c <> 0) s -> len s < 2 ^ 32 ->
  convert out 115 b idx maxlen (piece_args (PString d s behind) ++ va) (prec_of d) (width_of d) (all_bits d LNone)
  = '(b', idx') ← emit out (piece_text (PString d s behind)) b idx maxlen; Ok (b', idx', va).
Proof using Type.
  intros [_ Hp] Hs HL. destruct (directive_bits d LNone) as (_ & EL & _ & _ & _ & _ & EP). unfold convert. cbn [piece_args app].
  change (is_integer_specifier 115) with false. change ((115 =? 102) || (115 =? 70)) with false.
  change (115 =? 99) with false. change (115 =? 115) with true. cbv iota. cbn [va_string mbind res_bind].
  unfold convert_string. rewrite strlen_text, EL, EP by done. cbn [mbind res_bind]. rewrite string_chars_text by done.
  cbn [mbind res_bind]. cbn [piece_text]. unfold pad_text.
  set (shown := match d_prec d with Some p => ztake p s | None => s end).
  assert ((if has_prec d then Z.min (len s) (prec_of d) else len s) = len shown) as ->.
  { unfold has_prec, prec_of. subst shown. destruct (d_prec d) as [p |]; [| done]. destruct (Hp p eq_refl). cbn.
    unfold ztake. rewrite length_take. lia. }
  assert ((if has_prec d then take (Z.to_nat (prec_of d)) s else s) = shown) as ->.
  { unfold has_prec, prec_of. subst shown. by destruct (d_prec d). }
  rewrite emit_padded. reflexivity.
Qed.
End Text.

(** *** Whole formats *)

Lemma out_all_end c T m : out_all c T (len T) m = Ok (T ++ [c]).
Proof. unfold out_all. destruct (Z.ltb_spec (len T) (len T)); [lia | done]. Qed.

Lemma emit_all cs : forall T m, len T + len cs < 2 ^ 32 -> emit out_all cs T (len T) m = Ok (T ++ cs, len T + len cs).
Proof.
  induction cs as [|c cs IH]; intros T m HL; cbn [emit length] in *.
  - rewrite app_nil_r. do 2 f_equal. cbn. lia.
  - rewrite out_all_end. cbn [mbind res_bind].
    replace (u32 (len T + 1)) with (len (T ++ [c])) by (rewrite length_app, wrap_small; cbn [length]; lia).
    rewrite IH by (rewrite length_app; cbn [length]; lia). rewrite <- app_assoc. cbn [app]. do 2 f_equal.
    rewrite length_app. cbn [length]. lia.
Qed.

(** A turn of the loop prints a piece. *)
Lemma piece_step x fuel rest va T m : piece_ok x -> len T + len (piece_text x) < 2 ^ 32 ->
  vsnprintf_loop out_all (S fuel) (render x ++ rest) (piece_args x ++ va) T (len T) m =
  vsnprintf_loop out_all fuel rest va (T ++ piece_text x) (len T + len (piece_text x)) m.
Proof.
  intros Hx HL. destruct x as [c | | d l s v | d c | d s behind]; cbn [piece_ok render] in *.
  - destruct Hx as [H0 H37]. cbn [app vsnprintf_loop format_char mbind res_bind tail piece_args piece_text].
    destruct (Z.eqb_spec c 0); [done |]. destruct (Z.eqb_spec c 37); [done |]. cbn [negb].
    rewrite emit_all by done. reflexivity.
  - cbn [app vsnprintf_loop format_char mbind res_bind tail piece_args].
    change (37 =? 0) with false. change (negb (37 =? 37)) with false. cbv iota.
    assert (flags_loop (37 :: rest) 0 = Ok (0, 37 :: rest)) as -> by reflexivity. cbn [mbind res_bind].
    assert (width_field (37 :: rest) va 0 = Ok (0, 0, 37 :: rest, va)) as -> by reflexivity. cbn [mbind res_bind].
    assert (precision_field (37 :: rest) va 0 = Ok (0, 0, 37 :: rest, va)) as -> by reflexivity. cbn [mbind res_bind].
    assert (length_field (37 :: rest) 0 = Ok (0, 37 :: rest)) as -> by reflexivity.
    cbn [mbind res_bind format_char tail].
    assert (convert out_all 37 T (len T) m va 0 0 0 = '(b, i) ← emit out_all [37] T (len T) m; Ok (b, i, va)) as ->
      by reflexivity.
    rewrite emit_all by done. reflexivity.
  - destruct Hx as [Hd Hi]. rewrite directive_step by (done || (destruct s; unfold specifier, letter; cbn; lia)).
    rewrite convert_int by (done || (split; [lia | pose proof (Nat2Z.is_nonneg (length (piece_text (PInt d l s v)))); lia])).
    rewrite emit_all by done. reflexivity.
  - change (render_directive d [99]) with (render_directive d (length_chars LNone ++ [99])).
    rewrite directive_step by (done || (unfold specifier, letter; lia)). rewrite convert_character, emit_all by done. reflexivity.
  - destruct Hx as (Hd & Hs & HLs). change (render_directive d [115]) with (render_directive d (length_chars LNone ++ [115])).
    rewrite directive_step by (done || (unfold specifier, letter; lia)). rewrite convert_text, emit_all by done. reflexivity.
Qed.

Lemma render_nonempty x : (0 < length (render x))%nat.
Proof. destruct x; cbn; lia. Qed.

Lemma pieces_loop ps rest va : forall fuel T, Forall piece_ok ps ->
  len T + len (flat_map piece_text ps) < 2 ^ 32 ->
  vsnprintf_loop out_all (length ps + fuel) (flat_map render ps ++ rest) (flat_map piece_args ps ++ va) T (len T) 0
  = vsnprintf_loop out_all fuel rest va (T ++ flat_map piece_text ps) (len T + len (flat_map piece_text ps)) 0.
Proof.
  induction ps as [|x ps IH]; intros fuel T HF HT.
  - cbn [flat_map app length Nat.add]. rewrite app_nil_r. f_equal. cbn. lia.
  - apply Forall_cons in HF as [Hx HF]. cbn [flat_map length Nat.add] in *. rewrite length_app in HT.
    rewrite <- !app_assoc, piece_step by (done || lia).
    replace (len T + len (piece_text x)) with (len (T ++ piece_text x)) by (rewrite length_app; lia).
    rewrite IH by (done || (rewrite length_app; lia)). rewrite <- app_assoc, !length_app. f_equal. lia.
Qed.

Lemma pieces_shorter ps : (length ps <= length (flat_map render ps))%nat.
Proof.
  induction ps as [|x ps IH]; [done |]. cbn [flat_map length]. rewrite length_app. pose proof (render_nonempty x). lia.
Qed.

(** The text of a format that begins with these pieces. *)
Lemma text_pieces ps rest va : Forall piece_ok ps -> len (flat_map piece_text ps) < 2 ^ 32 -> rest <> [] ->
  exists fuel, (1 < fuel)%nat /\ text (flat_map render ps ++ rest) (flat_map piece_args ps ++ va)
    = vsnprintf_loop out_all fuel rest va (flat_map piece_text ps) (len (flat_map piece_text ps)) 0.
Proof.
  intros HF HL Hr. unfold text. pose proof (pieces_shorter ps).
  assert (0 < length rest)%nat by (destruct rest; [done | cbn; lia]).
  exists (S (length (flat_map render ps ++ rest)) - length ps)%nat. rewrite length_app. split; [lia |].
  pose proof (pieces_loop ps rest va (S (length (flat_map render ps) + length rest) - length ps) [] HF ltac:(cbn; lia)) as HP.
  replace (length ps + (S (length (flat_map render ps) + length rest) - length ps))%nat
    with (S (length (flat_map render ps) + length rest)) in HP by lia. exact HP.
Qed.

Lemma pieces_text ps : Forall piece_ok ps -> len (flat_map piece_text ps) < 2 ^ 32 ->
  text (flat_map render ps ++ [0]) (flat_map piece_args ps) = Ok (flat_map piece_text ps, len (flat_map piece_text ps)).
Proof.
  intros HF HL. destruct (text_pieces ps [0] [] HF HL ltac:(done)) as (fuel & Hf & E).
  rewrite app_nil_r in E. rewrite E. by destruct fuel; [lia |].
Qed.

(** A buffer with room for the text. *)
Lemma snprintf_text buffer format va t : text format va = Ok (t, len t) -> len t < len buffer < 2 ^ 31 ->
  snprintf (Some buffer) (len buffer) format va = Ok (Some (t ++ 0 :: zdrop (len t + 1) buffer), len t).
Proof.
  intros HT HB. pose proof (vsnprintf_text buffer (len buffer) format va ltac:(lia) ltac:(lia)) as HV.
  rewrite HT in HV. unfold snprintf, vsnprintf.
  destruct (_vsnprintf _ _ _ _ _) as [x | | | |]; try done. destruct HV as [-> _]. cbn [fst snd mbind res_bind].
  rewrite (swrap_small 32 (len t)) by (cbn; lia). do 3 f_equal.
  destruct (Z.ltb_spec 0 (len buffer)); [| lia]. rewrite Z.min_l by lia.
  unfold cut. rewrite ztake_all by lia. unfold zdrop. rewrite !Nat2Z.id.
  rewrite insert_app_r_alt by lia. rewrite Nat.sub_diag. f_equal.
  destruct (drop (length t) buffer) as [|y r] eqn:ED.
  { apply (f_equal length) in ED. rewrite length_drop in ED. cbn in ED. lia. }
  cbn. f_equal. replace (Z.to_nat (len t + 1)) with (length t + 1)%nat by lia. by rewrite <- drop_drop, ED.
Qed.

(** A buffer that may be too small still gives the length. *)
Lemma snprintf_length buffer format va t : text format va = Ok (t, len t) -> len t < 2 ^ 31 -> len buffer < 2 ^ 32 ->
  exists b, snprintf (Some buffer) (len buffer) format va = Ok (Some b, len t) /\ len b = len buffer.
Proof.
  intros HT HL HB. pose proof (vsnprintf_text buffer (len buffer) format va ltac:(lia) ltac:(lia)) as HV.
  rewrite HT in HV. unfold snprintf, vsnprintf.
  destruct (_vsnprintf _ _ _ _ _) as [x | | | |]; try done. destruct HV as [-> _]. cbn [fst snd mbind res_bind].
  rewrite (swrap_small 32 (len t)) by (cbn; lia). eexists. split; [reflexivity |].
  destruct (0 <? len buffer); [rewrite length_insert, len_cut; lia | done].
Qed.

(** What [printf] prints of a text: 1023 characters at most, whatever its array held. *)
Lemma printf_output junk format va t : text format va = Ok (t, len t) -> Forall (fun c => c <> 0) t ->
  len t < 2 ^ 31 -> len junk = PRINTF_BUFFER -> printf junk format va = Ok (ztake (PRINTF_BUFFER - 1) t, len t).
Proof.
  unfold PRINTF_BUFFER. intros HT H0 HL HJ.
  pose proof (vsnprintf_text junk 1024 format va ltac:(lia) ltac:(lia)) as HV. rewrite HT in HV. unfold printf.
  destruct (_vsnprintf _ _ _ _ _) as [x | | | |]; try done. destruct HV as [-> _]. cbn [fst snd mbind res_bind].
  change (0 <? 1024) with true. cbv iota. set (m := Z.min (len t) (1024 - 1)).
  pose proof (len_cut junk 1024 ltac:(lia) t) as HC.
  rewrite (insert_take_drop (cut junk 1024 t)) by lia.
  assert (take (Z.to_nat m) (cut junk 1024 t) = ztake 1023 t) as ->.
  { unfold cut, ztake. rewrite take_app_le by (rewrite length_take; lia). rewrite take_take.
    destruct (Z.le_gt_cases (len t) 1023); [rewrite !take_ge by lia; done | f_equal; lia]. }
  assert (len (ztake 1023 t) < 2 ^ 32) as HT32 by (unfold ztake; rewrite length_take; lia).
  rewrite strlen_text by (try done; apply Forall_take; done). cbn [mbind res_bind].
  rewrite ztake_app_exact by done. by rewrite (swrap_small 32 (len t)) by (cbn; lia).
Qed.

Lemma snprintf_undef buffer count format va why : text format va = Undef why -> 0 <= count <= len buffer -> count < 2 ^ 32 ->
  snprintf (Some buffer) count format va = Undef why.
Proof.
  intros HT HC H32. pose proof (vsnprintf_text buffer count format va HC H32) as HV. rewrite HT in HV.
  unfold snprintf, vsnprintf. destruct (_vsnprintf _ _ _ _ _); try done. cbn [rel] in *. by subst.
Qed.

(** What is in the buffer after a text of any length: as much of it as fits before the 0. *)
Lemma cut_text buffer count t : 0 < count <= len buffer ->
  let m := Z.min (len t) (count - 1) in
  <[Z.to_nat m := 0]> (cut buffer count t) = ztake m t ++ 0 :: zdrop (m + 1) buffer.
Proof.
  intros HC m. pose proof (len_cut buffer count ltac:(lia) t) as HL.
  rewrite (insert_take_drop (cut buffer count t)) by lia. f_equal; [| f_equal].
  - unfold cut, ztake. rewrite take_app_le by (rewrite length_take; lia). rewrite take_take. f_equal. lia.
  - unfold cut, ztake, zdrop. rewrite drop_app, drop_drop, length_take, drop_ge by (rewrite length_take; lia).
    cbn [app]. f_equal. lia.
Qed.

Lemma snprintf_fits buffer count format va t : text format va = Ok (t, len t) -> len t < 2 ^ 31 ->
  0 <= count <= len buffer -> count < 2 ^ 32 ->
  let m := Z.min (len t) (count - 1) in
  snprintf (Some buffer) count format va
  = Ok (Some (if 0 <? count then ztake m t ++ 0 :: zdrop (m + 1) buffer else buffer), len t).
Proof.
  intros HT HL HC H32 m. pose proof (vsnprintf_text buffer count format va HC H32) as HV.
  rewrite HT in HV. unfold snprintf, vsnprintf.
  destruct (_vsnprintf _ _ _ _ _) as [x | | | |]; try done. destruct HV as [-> _]. cbn [fst snd mbind res_bind].
  rewrite (swrap_small 32 (len t)) by (cbn; lia). destruct (Z.ltb_spec 0 count); [| done].
  by rewrite cut_text by lia.
Qed.

(** C15. Printing does what the standard says, for formats of characters, %%, and conversions
    of characters, strings and integers of every type and base (d, i, u, x, X, o and the b of
    this library) with the flags -, 0, + and space, width and precision, as long as the
    integers keep within the limits of [int_ok]: not the least number of its type; with - no
    precision above the number of digits; no sign before digits that fill the width exactly; fewer
    than 32 digits and no zero padding above 32 characters. [snprintf] into [count] bytes
    prints the text of each piece, one after the other, cut to [count - 1] characters, a 0
    behind it, leaves the rest of the buffer alone and returns the length of the whole text.
    The flag # is outside (printf_departures prints a case wrong), and so are the
    conversions of floating-point numbers. *)
Theorem printf_text (ps : list piece) (buffer : bytes) (count : Z) :
  Forall piece_ok ps -> len (flat_map piece_text ps) < 2 ^ 31 ->
  0 <= count <= len buffer -> count < 2 ^ 32 ->
  let t := flat_map piece_text ps in
  let m := Z.min (len t) (count - 1) in
  snprintf (Some buffer) count (flat_map render ps ++ [0]) (flat_map piece_args ps)
  = Ok (Some (if 0 <? count then ztake m t ++ 0 :: zdrop (m + 1) buffer else buffer), len t).
Proof. intros HF HB HC H32. apply snprintf_fits; [apply pieces_text; [done | lia] | done..]. Qed.

Lemma printf_text_witness :
  let d := mkDirective [Zero] (Some 6) None in
  let e := mkDirective [Minus] (Some 5) (Some 2) in
  exists b, snprintf (Some (replicate 40 7)) 40
      (flat_map render [PChar 97; PInt d LNone Sd (-42); PPercent; PString e [120; 121; 122] [122]; PInt e LLL SX 48879] ++ [0])
      [VInt (-42); VString [120; 121; 122; 0; 122]; VLongLong 48879]
    = Ok (Some b, 18) /\
    take 19 b = [97; 45; 48; 48; 48; 52; 50; 37; 120; 121; 32; 32; 32; 66; 69; 69; 70; 32; 0] /\
  snprintf (Some (replicate 8 7)) 6
      (flat_map render [PChar 97; PInt d LNone Sd (-42); PPercent; PString e [120; 121; 122] [122]; PInt e LLL SX 48879] ++ [0])
      [VInt (-42); VString [120; 121; 122; 0; 122]; VLongLong 48879]
    = Ok (Some [97; 45; 48; 48; 48; 0; 7; 7], 18).
Proof.
  intros d e.
  assert (Forall piece_ok [PChar 97; PInt d LNone Sd (-42); PPercent; PString e [120; 121; 122] [122]; PInt e LLL SX 48879]) as HF.
  { assert (directive_ok d) as Hd by (split; [intros w [= <-]; lia | done]).
    assert (directive_ok e) as He by (split; [intros w [= <-]; lia | intros p [= <-]; lia]).
    assert (int_ok d LNone Sd (-42)) as Hi
      by (split_and!; [intros _ _; vm_compute; congruence | done | intros _; right; vm_compute; congruence | done | intros _ _; vm_compute; congruence]).
    assert (int_ok e LLL SX 48879) as Hj
      by (split_and!; [done | intros _; vm_compute; congruence | done | done | done]).
    apply Forall_cons; split; [cbn; lia |]. apply Forall_cons; split; [by split |]. apply Forall_cons; split; [done |].
    apply Forall_cons; split; [split; [done | split; [repeat constructor; lia | done]] |].
    apply Forall_cons; split; [by split | by apply Forall_nil]. }
  eexists. split; [exact (printf_text _ (replicate 40 7) 40 HF ltac:(vm_compute; done) ltac:(cbn; lia) ltac:(lia)) |].
  split; [vm_compute; reflexivity |].
  exact (printf_text _ (replicate 8 7) 6 HF ltac:(vm_compute; done) ltac:(cbn; lia) ltac:(lia)).
Defined.

(** ** Where the code departs from the standard *)

(** The text of a format of one directive, from what the conversion prints. *)
Lemma text_directive d l s va t : directive_ok d -> specifier s -> len t < 2 ^ 32 ->
  convert out_all s [] 0 0 va (prec_of d) (width_of d) (all_bits d l)
  = ('(b', idx') ← emit out_all t [] 0 0; Ok (b', idx', [])) ->
  text (render_directive d (length_chars l ++ [s]) ++ [0]) va = Ok (t, len t).
Proof.
  intros Hd Hs HL HC. unfold text. rewrite directive_step, HC by done.
  pose proof (emit_all t [] 0 ltac:(cbn; lia)) as HE. cbn [length app] in HE. change (Z.of_nat 0) with 0 in HE.
  rewrite HE. cbn [mbind res_bind]. rewrite Z.add_0_l.
  unfold render_directive. rewrite length_app. cbn [length]. rewrite Nat.add_1_r. reflexivity.
Qed.

(** C17. A sign takes the place of a digit: when the digits of a signed conversion fill the
    width exactly, [snprintf] prints the sign and all digits but the first, and returns a
    length without the lost digit. [%3d] prints -123 as -23. *)
Theorem sign_replaces_digit (d : directive) (l : length_mod) (s : int_spec) (v : Z) (buffer : bytes) :
  directive_ok d -> sign_collides d l s v -> width_of d < len buffer < 2 ^ 31 ->
  let x := int_value l s v in
  let t := int_sign d s x ++ tail (int_digits d s x) in
  len t = width_of d /\
  snprintf (Some buffer) (len buffer) (render (PInt d l s v) ++ [0]) (piece_args (PInt d l s v))
  = Ok (Some (t ++ 0 :: zdrop (len t + 1) buffer), len t).
Proof.
  cbv zeta. intros Hd HC HB. set (x := int_value l s v).
  assert (len (int_sign d s x ++ tail (int_digits d s x)) = width_of d) as HL.
  { destruct HC as (_ & HS & HL & Hw & _). fold x in HS, HL. rewrite length_app, Nat2Z.inj_add.
    assert (len (int_sign d s x) = 1) as -> by (revert HS; unfold int_sign; repeat case_match; done).
    destruct (int_digits d s x); cbn in *; lia. }
  split; [done |]. apply snprintf_text; [| lia]. cbn [render].
  apply text_directive; [done | by destruct s; repeat split; unfold letter, spec_char; lia | lia |].
  rewrite <- (app_nil_r (piece_args _)). by apply convert_collision.
Qed.

Lemma sign_replaces_digit_witness :
  let d := mkDirective [] (Some 3) None in
  exists b, snprintf (Some (replicate 8 7)) 8 [37; 51; 100; 0] [VInt (-123)] = Ok (Some b, 3) /\
    b = [45; 50; 51; 0; 7; 7; 7; 7].
Proof.
  intros d. destruct (sign_replaces_digit d LNone Sd (-123) (replicate 8 7)) as [_ E].
  - split; [intros w [= <-]; lia | done].
  - split_and!; [intros _; vm_compute; congruence | vm_compute; congruence | done | done | done | done].
  - vm_compute. done.
  - eexists. split; [exact E | vm_compute; reflexivity].
Defined.

(** A % at the end of the format: whatever comes before it, the code takes the
    terminating 0 for the conversion's letter and reads on behind the format. *)
Theorem format_end_undefined (ps : list piece) (va : list vararg) (buffer : bytes) (count : Z) :
  Forall piece_ok ps -> len (flat_map piece_text ps) < 2 ^ 32 -> 0 <= count <= len buffer -> count < 2 ^ 32 ->
  snprintf (Some buffer) count (flat_map render ps ++ [37; 0]) (flat_map piece_args ps ++ va)
  = Undef "read past the format".
Proof.
  intros HF HL HC H32. apply snprintf_undef; [| done | done].
  destruct (text_pieces ps [37; 0] va HF HL ltac:(done)) as (fuel & Hf & ->).
  destruct fuel as [|[|fuel]]; [lia | lia |]. generalize (flat_map piece_text ps). intros T.
  cbn [vsnprintf_loop format_char mbind res_bind tail flags_loop Z.eqb]. change (37 =? 0) with false.
  change (negb (37 =? 37)) with false. cbv iota. cbn -[out_all u32].
  rewrite out_all_end. reflexivity.
Qed.

Lemma format_end_undefined_witness :
  snprintf (Some (replicate 8 7)) 8 [97; 37; 0] [] = Undef "read past the format".
Proof.
  apply (format_end_undefined [PChar 97] [] (replicate 8 7) 8); [| vm_compute; reflexivity | vm_compute; split; congruence | reflexivity].
  apply Forall_cons. split; [cbn; lia | by apply Forall_nil].
Defined.

(** *** Floating point *)

(** The array holds nothing but fractional digits once the fraction is 10^prec. *)
Lemma carry_digits prec : 1 <= prec <= 9 ->
  reverse (fraction_digits (10 ^ prec) prec []) = replicate (Z.to_nat (31 - prec)) 48 ++ 49 :: replicate (Z.to_nat prec) 48.
Proof.
  intros Hp. assert (prec ∈ [1; 2; 3; 4; 5; 6; 7; 8; 9]) as Hin by (rewrite !elem_of_cons; lia). clear Hp.
  repeat (apply elem_of_cons in Hin as [-> | Hin]; [vm_compute; reflexivity |]). by apply elem_of_nil in Hin.
Qed.

(** C18. A fraction rounded up to a whole at exactly one half is not carried: [snprintf] prints
    32 characters, all of them digits of the fraction, and neither the point nor the whole
    part. [%.1f] prints 0.95 so. *)
Theorem carry_lost (value : spec_float) (prec whole : Z) (buffer : bytes) :
  1 <= prec <= 9 -> SFltb value (dbl 0) = false -> SFltb (dbl 0x7FFFFFFF) value = false ->
  round_fraction value prec = Ok (whole, 10 ^ prec) -> 32 < len buffer < 2 ^ 31 ->
  snprintf (Some buffer) (len buffer) (render_directive (mkDirective [] None (Some prec)) [102] ++ [0]) [VDouble value]
  = Ok (Some (replicate (Z.to_nat (31 - prec)) 48 ++ 49 :: replicate (Z.to_nat prec) 48 ++ 0 :: zdrop 33 buffer), 32).
Proof.
  intros Hp Hneg Hmax HR HB. set (d := mkDirective [] None (Some prec)).
  set (t := replicate (Z.to_nat (31 - prec)) 48 ++ 49 :: replicate (Z.to_nat prec) 48).
  assert (len t = 32) as HL by (unfold t; rewrite length_app; cbn [length]; rewrite !length_replicate; lia).
  enough (text (render_directive d [102] ++ [0]) [VDouble value] = Ok (t, len t)) as HT.
  { apply (snprintf_text buffer) in HT; [| lia]. rewrite HL in HT. unfold t in HT. by rewrite <- app_assoc in HT. }
  destruct (directive_bits d LNone) as (EZ & EL & EP & ES & _ & _ & EPr).
  apply (text_directive d LNone 102).
  - split; [done | intros p [= <-]; lia].
  - repeat split; unfold letter; lia.
  - lia.
  - unfold convert. change (is_integer_specifier 102) with false. change ((102 =? 102) || (102 =? 70)) with true.
    cbv iota. cbn [va_double mbind res_bind]. unfold _ftoa. cbv zeta. rewrite EPr, EL, EZ, Hneg.
    change (has_prec d) with true. change (prec_of d) with prec. change (width_of d) with 0. cbv iota.
    unfold PRINTF_FTOA_BUFFER_SIZE. replace (Z.max 0 (Z.min 32 (prec - 9))) with 0 by lia. rewrite Z.sub_0_r, HR. cbn [mbind res_bind].
    rewrite Hmax. destruct (Z.eqb_spec prec 0); [lia |]. cbn [mbind res_bind Z.to_nat replicate].
    pose proof (carry_digits prec Hp) as HD. fold t in HD. set (buf := fraction_digits _ _ _) in *.
    assert (len buf = 32) as HB32 by (rewrite <- HL, <- HD, length_reverse; done).
    unfold turns_left, PRINTF_FTOA_BUFFER_SIZE. replace (Z.to_nat 32 - length buf)%nat with 0%nat by lia. cbn [whole_loop].
    change (flagged d Minus) with false. change (flagged d Zero) with false. cbn [negb andb].
    destruct (Z.eqb_spec (len buf) 0); [lia |]. cbn [andb].
    unfold store_sign. rewrite EP, ES. change (flagged d Plus) with false. change (flagged d Space) with false. cbv iota.
    rewrite put_number_eq, EL, EZ by lia. change (flagged d Minus) with false. change (flagged d Zero) with false. cbv iota.
    unfold spaces. replace (Z.to_nat (0 - len buf)) with 0%nat by lia. cbn [replicate app]. by rewrite HD.
Qed.

Lemma carry_lost_witness :
  let point_95 := SFdiv 53 1024 (dbl 95) (dbl 100) in
  exists b, snprintf (Some (replicate 40 7)) 40 [37; 46; 49; 102; 0] [VDouble point_95] = Ok (Some b, 32) /\
    b = replicate 30 48 ++ [49; 48; 0] ++ replicate 7 7.
Proof.
  intros x. eexists. split.
  - apply (carry_lost x 1 0 (replicate 40 7)); [lia | vm_compute; reflexivity .. | vm_compute; done].
  - vm_compute. reflexivity.
Defined.

(** More of the kind, by their texts: a value over 2^31 - 1 restarts the output, one from
    2^31 on has no [int] part; more than 41 digits read past the table; [-] forgets the zeros
    of a precision; [#] takes digits for its prefix; 64-bit numbers lose the digits over 32;
    [INT_MIN] has no absolute value; a string needs an end for all of a precision. *)
Lemma printf_departures :
  text [97; 98; 37; 102; 0] [VDouble (SFdiv 53 1024 (dbl (2 ^ 32 - 1)) (dbl 2))] = Ok ([97; 98], 0) /\
  text [37; 102; 0] [VDouble (dbl (2 ^ 31))] = Undef "floating point number out of range" /\
  text [37; 46; 53; 48; 102; 0] [VDouble (dbl 1)] = Undef "read past pow10" /\
  text [37; 45; 53; 46; 51; 100; 0] [VInt 7] = Ok ([55; 32; 32; 32; 32], 5) /\
  text [37; 35; 52; 120; 0] [VInt 0x1234] = Ok ([48; 120; 51; 52], 4) /\
  text [37; 108; 108; 98; 0] [VLongLong (2 ^ 40 + 1)] = Ok (replicate 31 48 ++ [49], 32) /\
  text [37; 100; 0] [VInt (- 2 ^ 31)] = Undef "signed overflow" /\
  text [37; 46; 50; 115; 0] [VString [97; 98; 99]] = Undef "read past the string".
Proof. split_and!; vm_compute; reflexivity. Qed.
