(* ===== verification/StdString.v ===== *)
(** * string.cpp of libc++: numbers as strings

    [std::to_string] for the integer types of the language, which formats with [snprintf]
    into a string and tries again when the string is too small. *)

From S2P Require Import Prelude Printf PrintfFacts PrintfText.

(** ** Definitions *)

Inductive int_type := T_int | T_unsigned | T_long | T_unsigned_long | T_long_long | T_unsigned_long_long.

Definition type_format (t : int_type) : bytes :=
  match t with
  | T_int => [37; 100; 0]
  | T_unsigned => [37; 117; 0]
  | T_long => [37; 108; 100; 0]
  | T_unsigned_long => [37; 108; 117; 0]
  | T_long_long => [37; 108; 108; 100; 0]
  | T_unsigned_long_long => [37; 108; 108; 117; 0]
  end.

Definition type_arg (t : int_type) (v : Z) : vararg :=
  match t with T_long_long | T_unsigned_long_long => VLongLong v | _ => VInt v end.

(** [std::string::resize]: cut, or filled up with zeros. *)
Definition resize (s : bytes) (n : Z) : bytes := ztake n s ++ replicate (Z.to_nat (n - len s)) 0.

(** A string of the size that fits into the object itself: 12 bytes, less the one for the
    size and the one for the terminating 0. *)
Definition short_capacity : Z := 10.
Definition initial_string : bytes := resize [] short_capacity.

(** The buffer is the string with the place of its terminating 0. *)
Fixpoint as_string (fuel : nat) (s fmt : bytes) (a : vararg) : res bytes :=
  match fuel with
  | O => Fuel
  | S fuel' =>
      let available := len s in
      '(b, status) ← snprintf (Some (s ++ [0])) (u32 (available + 1)) fmt [a];
      let s := ztake available (default [] b) in
      if 0 <=? status then
        let used := status in
        if used <=? available then Ok (resize s used)
        else as_string fuel' (resize s used) fmt a
      else as_string fuel' (resize s (u32 (available * 2 + 1))) fmt a
  end.

Definition to_string (t : int_type) (v : Z) : res bytes := as_string 2 initial_string (type_format t) (type_arg t v).

(** ** Properties *)

Definition type_signed (t : int_type) : bool := match t with T_int | T_long | T_long_long => true | _ => false end.
Definition type_bits (t : int_type) : Z := match t with T_long_long | T_unsigned_long_long => 64 | _ => 32 end.

(** The values of a type but for the smallest of a signed one. *)
Definition type_range (t : int_type) (v : Z) : Prop :=
  if type_signed t then - 2 ^ (type_bits t - 1) < v < 2 ^ (type_bits t - 1) else 0 <= v < 2 ^ type_bits t.

(** A number as text. *)
Definition number_text (v : Z) : bytes := (if v <? 0 then [45] else []) ++ decimal (Z.abs v).

Lemma len_resize s n : 0 <= n -> len (resize s n) = n.
Proof. intros Hn. unfold resize, ztake. rewrite length_app, length_take, length_replicate. lia. Qed.

Lemma as_string_fits fuel s fmt a t : text fmt [a] = Ok (t, len t) -> len s < 2 ^ 31 - 1 -> len t <= len s ->
  as_string (S fuel) s fmt a = Ok t.
Proof.
  intros HT Hs HL. cbn [as_string].
  assert (len (s ++ [0]) = len s + 1) as HE by (rewrite length_app; cbn [length]; lia).
  rewrite (wrap_small 32 (len s + 1)) by lia. rewrite <- HE, (snprintf_text _ _ _ t) by (done || lia).
  cbn [mbind res_bind default]. destruct (Z.leb_spec 0 (len t)); [| lia]. destruct (Z.leb_spec (len t) (len s)); [| lia].
  f_equal. set (b := t ++ _). assert (len b = len s + 1) as Hb.
  { unfold b, zdrop. rewrite length_app. cbn [length]. rewrite length_drop. lia. }
  unfold resize, ztake. rewrite take_take, length_take. change (id b) with b.
  replace (Z.to_nat (len t - _)) with 0%nat by lia. cbn [replicate]. rewrite app_nil_r. unfold b.
  rewrite take_app_le by lia. apply take_ge. lia.
Qed.

(** Two turns are enough: the first gives the size the second needs. *)
Lemma as_string_text s fmt a t : text fmt [a] = Ok (t, len t) -> len s < 2 ^ 31 - 1 -> len t < 2 ^ 31 - 1 ->
  as_string 2 s fmt a = Ok t.
Proof.
  intros HT Hs Ht. destruct (Z.le_gt_cases (len t) (len s)) as [HL | HL]; [by apply as_string_fits |].
  change (as_string 2 s fmt a) with
    ('(b, status) ← snprintf (Some (s ++ [0])) (u32 (len s + 1)) fmt [a];
     let s' := ztake (len s) (default [] b) in
     if 0 <=? status then if status <=? len s then Ok (resize s' status) else as_string 1 (resize s' status) fmt a
     else as_string 1 (resize s' (u32 (len s * 2 + 1))) fmt a).
  assert (len (s ++ [0]) = len s + 1) as HE by (rewrite length_app; cbn [length]; lia).
  rewrite (wrap_small 32 (len s + 1)) by lia. rewrite <- HE.
  destruct (snprintf_length (s ++ [0]) fmt [a] t HT) as (b & -> & _); [lia | lia |].
  cbn [mbind res_bind]. cbv zeta. destruct (Z.leb_spec 0 (len t)); [| lia]. destruct (Z.leb_spec (len t) (len s)); [lia |].
  apply as_string_fits; rewrite ?len_resize by lia; done || lia.
Qed.

(** *** Numbers *)

Lemma le_digits_enough t1 : forall t2 base v, 2 <= base -> 0 <= v < base ^ Z.of_nat t1 -> (0 < t1 <= t2)%nat ->
  le_digits t1 base v = le_digits t2 base v.
Proof.
  induction t1 as [|t1 IH]; intros [|t2] base v Hb Hv Ht; [lia .. |]. cbn [le_digits]. f_equal.
  destruct (Z.eqb_spec (v / base) 0) as [| Hne]; [done |].
  rewrite Nat2Z.inj_succ, Z.pow_succ_r in Hv by lia.
  assert (0 <= v / base < base ^ Z.of_nat t1) by (split; [apply Z.div_pos; lia | apply Z.div_lt_upper_bound; lia]).
  destruct t1 as [|t1]; [cbn in *; lia |]. apply IH; lia.
Qed.

Lemma len_decimal n : 0 <= n < 2 ^ 64 -> 0 < len (decimal n) <= 20.
Proof.
  intros Hn. unfold decimal, numeral. rewrite length_fmap, length_reverse.
  assert (0 <= n < 10 ^ Z.of_nat 20) as H20 by (split; [lia |]; apply Z.lt_trans with (2 ^ 64); [lia | reflexivity]).
  rewrite <- (le_digits_enough 20) by lia. destruct (le_digits_spec 20 10 n ltac:(lia) H20 ltac:(lia)) as (_ & _ & HL & _). lia.
Qed.

Definition plain : directive := mkDirective [] None None.
Definition type_length (t : int_type) : length_mod :=
  match t with T_int | T_unsigned => LNone | T_long | T_unsigned_long => LL | _ => LLL end.
Definition type_piece (t : int_type) (v : Z) : piece := PInt plain (type_length t) (if type_signed t then Sd else Su) v.

Lemma type_value t v : type_range t v -> int_value (type_length t) (if type_signed t then Sd else Su) v = v.
Proof.
  unfold type_range, int_value. intros Hv.
  destruct t; cbn [type_signed type_length type_bits length_bits spec_signed] in *;
    first [apply swrap_small; lia | apply wrap_small; lia].
Qed.

Lemma plain_text t v : type_range t v ->
  piece_text (type_piece t v) = number_text v /\ piece_ok (type_piece t v) /\ len (number_text v) <= 21.
Proof.
  intros Hv. pose proof (type_value t v Hv) as HV.
  assert (0 <= Z.abs v < 2 ^ 64) as HA by (unfold type_range in Hv; destruct t; cbn [type_signed type_bits] in Hv; lia).
  assert (int_digits plain (if type_signed t then Sd else Su) v = decimal (Z.abs v)) as HD.
  { unfold int_digits, decimal. cbn [plain d_prec]. assert (spec_base (if type_signed t then Sd else Su) = 10) as -> by by destruct t.
    apply list_fmap_ext. intros i d Hd.
    assert (0 <= Z.abs v < 10 ^ Z.of_nat 64) as H64 by (split; [lia |]; apply Z.lt_trans with (2 ^ 64); [lia | reflexivity]).
    destruct (le_digits_spec 64 10 (Z.abs v) ltac:(lia) H64 ltac:(lia)) as (_ & HF & _).
    apply Forall_reverse in HF. fold (numeral 10 (Z.abs v)) in HF. pose proof (Forall_lookup_1 _ _ _ _ HF Hd) as Hd'. cbn in Hd'.
    unfold digit. destruct (Z.ltb_spec d 10); [done | lia]. }
  assert (int_sign plain (if type_signed t then Sd else Su) v = if v <? 0 then [45] else []) as HS.
  { unfold int_sign. destruct (v <? 0); [done |]. by destruct t. }
  pose proof (len_decimal (Z.abs v) HA) as HL.
  assert (len (number_text v) <= 21) as HN by (unfold number_text; rewrite length_app; destruct (v <? 0); cbn [length]; lia).
  split; [| split; [| done]].
  - unfold type_piece. cbn [piece_text]. rewrite HV, HD, HS. unfold c_layout.
    change (prec_of plain) with 0. change (width_of plain) with 0. change (flagged plain Minus) with false.
    change (zero_padded plain) with false. cbv iota zeta.
    replace (Z.to_nat (0 - len (decimal (Z.abs v)))) with 0%nat by lia. cbn [replicate app]. unfold spaces.
    replace (Z.to_nat _) with 0%nat by lia. done.
  - unfold type_piece, piece_ok. split; [done |]. unfold int_ok. rewrite HV, HD, HS.
    change (prec_of plain) with 0. change (width_of plain) with 0. change (flagged plain Minus) with false.
    change (zero_padded plain) with false. split_and!; try done; try lia.
    unfold type_range in Hv. intros _ _. destruct t; cbn [type_signed type_bits type_length length_bits] in *; lia.
Qed.

(** [std::to_string] gives the decimal text of every number but the smallest of a signed
    type, for which [snprintf] is undefined. *)
Theorem to_string_decimal (t : int_type) (v : Z) :
  (type_range t v -> to_string t v = Ok (number_text v)) /\
  (type_signed t = true -> to_string t (- 2 ^ (type_bits t - 1)) = Undef "signed overflow").
Proof.
  split.
  - intros Hv. destruct (plain_text t v Hv) as (HT & HO & HL).
    apply as_string_text; [| reflexivity | lia].
    pose proof (pieces_text [type_piece t v]) as HP. cbn [flat_map] in HP. rewrite !app_nil_r, HT in HP.
    rewrite <- HP; [by destruct t | by apply Forall_singleton | lia].
  - by destruct t; intros Hs; vm_compute in Hs |- *.
Qed.
