(* ===== verification/Common.v ===== *)
(** * common.h: hexadecimal text and big-endian integers

    [src/libraries/platonlib/include/platon/common.h]. Text is a list of
    character codes (0 to 255); an unsigned integer type is its width in bits. *)

From S2P Require Import Prelude.

(** ** Definitions *)

Definition fromHexChar (c : Z) : Z :=
  if (48 <=? c) && (c <=? 57) then c - 48
  else if (97 <=? c) && (c <=? 102) then c - 97 + 10
  else if (65 <=? c) && (c <=? 70) then c - 65 + 10
  else -1.

(** The code tests for a leading [0x]: characters 48 and 120. *)
Definition has_0x (s : bytes) : bool :=
  match s with c0 :: c1 :: _ => (c0 =? 48) && (c1 =? 120) | _ => false end.

(** The loop of [fromHex]: two digits make a byte, the first bad digit drops
    everything. A lone last character would be paired with the terminating 0. *)
Fixpoint fromHex_pairs (ret : bytes) (s : bytes) : bytes :=
  match s with
  | c :: d :: s' =>
      let h := fromHexChar c in
      let l := fromHexChar d in
      if negb (h =? -1) && negb (l =? -1)
      then fromHex_pairs (ret ++ [wrap 8 (h * 16 + l)]) s'
      else []
  | [_] => []
  | [] => ret
  end.

Definition fromHex (s : bytes) : bytes :=
  let rest := if has_0x s then drop 2 s else s in
  if Z.odd (len s) then
    match rest with
    | c :: rest' =>
        let h := fromHexChar c in
        if negb (h =? -1) then fromHex_pairs [h] rest' else []
    | [] => []
    end
  else fromHex_pairs [] rest.

(** [fromHex<N>(s, ret, left_align)]: writes into a fixed array from [index] on,
    skips bad pairs, and a write past the array is out of bounds. *)
Definition array_set (ret : bytes) (i v : Z) : res bytes :=
  if (0 <=? i) && (i <? len ret) then Ok (<[Z.to_nat i := v]> ret)
  else Undef "std::array index out of range".

Fixpoint fromHex_array_pairs (ret : bytes) (index : Z) (s : bytes) : res bytes :=
  match s with
  | c :: d :: s' =>
      let h := fromHexChar c in
      let l := fromHexChar d in
      if negb (h =? -1) && negb (l =? -1)
      then ret' ← array_set ret index (wrap 8 (h * 16 + l));
           fromHex_array_pairs ret' (wrap 32 (index + 1)) s'
      else fromHex_array_pairs ret index s'
  | [_] => Undef "std::string_view index out of range"
  | [] => Ok ret
  end.

Definition fromHex_array (s : bytes) (ret : bytes) (left_align : bool) : res bytes :=
  let rest := if has_0x s then drop 2 s else s in
  let n := (len rest + 1) / 2 in
  let index := if left_align then 0 else wrap 32 (len ret - n) in
  if Z.odd (len s) then
    match rest with
    | c :: rest' =>
        let h := fromHexChar c in
        if negb (h =? -1)
        then ret' ← array_set ret index h;
             fromHex_array_pairs ret' (wrap 32 (index + 1)) rest'
        else fromHex_array_pairs ret index rest'
    | [] => Ok ret
    end
  else fromHex_array_pairs ret index rest.

(** A string's characters are its bytes. *)
Definition asBytes (b : bytes) : bytes := b.

Definition hexdigit (n : Z) : Z := if n <? 10 then 48 + n else 97 + (n - 10).

Definition toHex_prefix (data prefix : bytes) : bytes :=
  prefix ++
  mjoin ((fun b => [hexdigit (Z.land (Z.shiftr b 4) 15); hexdigit (Z.land b 15)])
           <$> data).

Definition toHex (data : bytes) : bytes := toHex_prefix data [].

(** [for (; _i != 0; ++i, _i >>= 8)]; the fuel is the bit length of the argument. *)
Fixpoint bytesRequired_loop (fuel : nat) (v i : Z) : Z :=
  match fuel with
  | O => i
  | S fuel' => if v =? 0 then i else bytesRequired_loop fuel' (Z.shiftr v 8) (i + 1)
  end.

Definition bytesRequired (v : Z) : Z :=
  bytesRequired_loop (S (Z.to_nat (Z.log2 v))) v 0.

(** [toBigEndian(val, out)] for an [out] of [n] bytes, filled from the back. *)
Fixpoint toBigEndian (n : nat) (v : Z) : bytes :=
  match n with
  | O => []
  | S n' => toBigEndian n' (Z.shiftr v 8) ++ [Z.land v 255]
  end.

(** [fromBigEndian<T>] for an unsigned [T] of [w] bits. *)
Definition fromBigEndian (w : Z) (bs : bytes) : Z :=
  foldl (fun ret i => wrap w (Z.lor (Z.shiftl ret 8) i)) 0 bs.

(** The u128 literal operator: [is_hex] and [has_prefix] from the scan. *)
Fixpoint u128_scan (s : bytes) : option bool :=
  match s with
  | [] => Some false
  | c :: s' =>
      let temp := fromHexChar c in
      if temp =? -1 then None
      else if 9 <? temp then Some true
      else u128_scan s'
  end.

Definition u128_digits (base : Z) (s : bytes) : Z :=
  foldl (fun result c => wrap 128 (result * base + fromHexChar c)) 0 s.

Definition u128_literal (s : bytes) : Z :=
  if (2 <? len s) && has_0x s then u128_digits 16 (drop 2 s)
  else match u128_scan s with
       | None => 0
       | Some true => u128_digits 16 s
       | Some false => u128_digits 10 s
       end.

(** *** Reference values *)

(** The number a big-endian byte string denotes. *)
Definition be_value (bs : bytes) : Z := foldl (fun acc b => acc * 256 + b) 0 bs.

(** The shortest big-endian form of an integer. *)
Definition be_min (v : Z) : bytes := toBigEndian (Z.to_nat (bytesRequired v)) v.

(** The number a string of decimal digits denotes. *)
Definition dec_value (s : bytes) : Z := foldl (fun acc c => acc * 10 + (c - 48)) 0 s.

(** ** Big-endian integers *)

Lemma be_value_snoc bs b : be_value (bs ++ [b]) = be_value bs * 256 + b.
Proof. unfold be_value. by rewrite foldl_app. Qed.

Lemma length_toBigEndian n v : length (toBigEndian n v) = n.
Proof. revert v. induction n; intros; simpl; [done |]. rewrite length_app, IHn. simpl. lia. Qed.

Lemma toBigEndian_ok n v : bytes_ok (toBigEndian n v).
Proof.
  revert v. induction n as [|n IH]; intros v; simpl; [constructor |].
  apply bytes_ok_app. split; [done |]. constructor; [| done].
  unfold is_byte. rewrite land_255. apply Z.mod_pos_bound. lia.
Qed.

Lemma be_value_nonneg bs : bytes_ok bs -> 0 <= be_value bs.
Proof.
  induction bs as [|b bs IH] using rev_ind; [done |].
  rewrite be_value_snoc. intros [H1 H2]%bytes_ok_snoc.
  specialize (IH H1). unfold is_byte in H2. lia.
Qed.

Lemma be_value_bound bs : bytes_ok bs -> be_value bs < 256 ^ len bs.
Proof.
  induction bs as [|b bs IH] using rev_ind; [done |].
  rewrite be_value_snoc. intros [H1 H2]%bytes_ok_snoc.
  specialize (IH H1). unfold is_byte in H2.
  rewrite length_app, Nat2Z.inj_add, Z.pow_add_r by lia.
  change (256 ^ len [b]) with 256. lia.
Qed.

Lemma be_value_toBigEndian n v : be_value (toBigEndian n v) = v mod 256 ^ Z.of_nat n.
Proof.
  revert v. induction n as [|n IH]; intros v; [simpl; by rewrite Z.mod_1_r |].
  cbn [toBigEndian]. rewrite be_value_snoc, IH, shiftr_div, land_255 by lia.
  change (2 ^ 8) with 256. rewrite Nat2Z.inj_succ, Z.pow_succ_r by lia.
  rewrite Z.rem_mul_r by lia. lia.
Qed.

(** Writing the number a byte string denotes at its length gives it back. *)
Lemma toBigEndian_be_value bs : bytes_ok bs -> toBigEndian (length bs) (be_value bs) = bs.
Proof.
  induction bs as [|b bs IH] using rev_ind; [done |].
  intros [H1 H2]%bytes_ok_snoc. unfold is_byte in H2.
  rewrite length_app, Nat.add_1_r. cbn [toBigEndian].
  rewrite be_value_snoc, shiftr_div, land_255 by lia. change (2 ^ 8) with 256.
  rewrite Z.div_add_l, (Z.div_small b), Z.add_0_r by lia.
  rewrite Z.add_comm, Z.mod_add, (Z.mod_small b) by lia. by rewrite IH.
Qed.

Lemma fromBigEndian_snoc w bs b :
  fromBigEndian w (bs ++ [b]) = wrap w (Z.lor (Z.shiftl (fromBigEndian w bs) 8) b).
Proof. unfold fromBigEndian. by rewrite foldl_app. Qed.

(** Decoding computes the value modulo the width of the integer type. *)
Lemma fromBigEndian_value w bs :
  0 <= w -> bytes_ok bs -> fromBigEndian w bs = be_value bs mod 2 ^ w.
Proof.
  intros Hw. induction bs as [|b bs IH] using rev_ind; [by rewrite Z.mod_0_l by lia |].
  intros [H1 H2]%bytes_ok_snoc. unfold is_byte in H2.
  rewrite fromBigEndian_snoc, be_value_snoc, IH by done.
  rewrite lor_shiftl_add by lia. unfold wrap. change (2 ^ 8) with 256.
  rewrite <- (Z.add_mod_idemp_l (_ * 256)), Z.mul_mod_idemp_l by lia.
  by rewrite Z.add_mod_idemp_l by lia.
Qed.

Lemma fromBigEndian_toBigEndian w n v :
  0 <= w -> 0 <= v < 2 ^ w -> v < 256 ^ Z.of_nat n ->
  fromBigEndian w (toBigEndian n v) = v.
Proof.
  intros. rewrite fromBigEndian_value by (lia || apply toBigEndian_ok).
  rewrite be_value_toBigEndian, (Z.mod_small v) by lia. apply Z.mod_small. lia.
Qed.

(** ** The number of bytes of an integer *)

Lemma bytesRequired_loop_acc fuel v i :
  bytesRequired_loop fuel v i = i + bytesRequired_loop fuel v 0.
Proof.
  revert v i. induction fuel as [|fuel IH]; intros v i; simpl; [lia |].
  case_bool; [lia |]. rewrite IH, (IH _ 1). lia.
Qed.

Lemma bytesRequired_loop_spec fuel v :
  0 <= v < 2 ^ Z.of_nat fuel ->
  let k := bytesRequired_loop fuel v 0 in
  0 <= k /\ v < 256 ^ k /\ (0 < v -> 1 <= k /\ 256 ^ (k - 1) <= v).
Proof.
  revert v. induction fuel as [|fuel IH]; intros v Hv.
  { simpl in *. lia. }
  cbn [bytesRequired_loop]. case_bool; bool_hyps; [subst; simpl; lia |].
  rewrite bytesRequired_loop_acc, shiftr_div by lia. change (2 ^ 8) with 256.
  set (k := bytesRequired_loop fuel (v / 256) 0).
  assert (0 <= v / 256 < 2 ^ Z.of_nat fuel) as Hd.
  { split; [apply Z.div_pos; lia |]. apply Z.div_lt_upper_bound; [lia |].
    rewrite Nat2Z.inj_succ, Z.pow_succ_r in Hv by lia. lia. }
  destruct (IH _ Hd) as (K1 & K2 & K3). fold k in K1, K2, K3.
  pose proof (Z.div_mod v 256 ltac:(lia)). pose proof (Z.mod_pos_bound v 256 ltac:(lia)).
  split; [lia |]. split.
  - rewrite Z.add_0_l, Z.pow_add_r by lia. change (256 ^ 1) with 256. lia.
  - intros _. split; [lia |]. replace (0 + 1 + k - 1) with k by lia.
    destruct (Z.lt_ge_cases 0 (v / 256)) as [Hp | Hp].
    + destruct (K3 Hp) as [K4 K5]. replace k with (1 + (k - 1)) by lia.
      rewrite Z.pow_add_r by lia. change (256 ^ 1) with 256. lia.
    + assert (v / 256 = 0) as E by lia. subst k. rewrite E.
      destruct fuel; simpl; lia.
Qed.

Lemma bytesRequired_spec v :
  0 <= v ->
  0 <= bytesRequired v /\ v < 256 ^ bytesRequired v /\
  (0 < v -> 1 <= bytesRequired v /\ 256 ^ (bytesRequired v - 1) <= v).
Proof.
  intros Hv. apply bytesRequired_loop_spec. split; [done |].
  rewrite Nat2Z.inj_succ. destruct (Z.eq_dec v 0) as [-> |]; [done |].
  pose proof (Z.log2_nonneg v). rewrite Z2Nat.id by lia. apply Z.log2_lt_pow2; lia.
Qed.

Lemma bytesRequired_0 : bytesRequired 0 = 0.
Proof. done. Qed.

Lemma bytesRequired_le v k : 0 <= v < 256 ^ k -> 0 <= k -> bytesRequired v <= k.
Proof.
  intros Hv Hk. destruct (bytesRequired_spec v) as (H1 & H2 & H3); [lia |].
  destruct (Z.eq_dec v 0) as [-> |]; [rewrite bytesRequired_0; lia |].
  destruct H3 as [H3 H4]; [lia |].
  assert (bytesRequired v - 1 < k); [| lia].
  apply (Z.pow_lt_mono_r_iff 256); lia.
Qed.

Lemma bytesRequired_unique v k :
  0 < k -> 256 ^ (k - 1) <= v < 256 ^ k -> bytesRequired v = k.
Proof.
  intros Hk Hv. assert (0 < v) by (pose proof (Z.pow_pos_nonneg 256 (k - 1)); lia).
  destruct (bytesRequired_spec v) as (H1 & H2 & H3); [lia |].
  destruct H3 as [H3 H4]; [lia |].
  assert (bytesRequired v - 1 < k) by (apply (Z.pow_lt_mono_r_iff 256); lia).
  assert (k - 1 < bytesRequired v) by (apply (Z.pow_lt_mono_r_iff 256); lia). lia.
Qed.

Lemma len_be_min v : 0 <= v -> len (be_min v) = bytesRequired v.
Proof.
  intros. unfold be_min. rewrite length_toBigEndian.
  destruct (bytesRequired_spec v); lia.
Qed.

Lemma be_value_be_min v : 0 <= v -> be_value (be_min v) = v.
Proof.
  intros. unfold be_min. destruct (bytesRequired_spec v) as (? & ? & _); [lia |].
  rewrite be_value_toBigEndian, Z2Nat.id by lia. apply Z.mod_small. lia.
Qed.

Lemma be_min_ok v : bytes_ok (be_min v).
Proof. apply toBigEndian_ok. Qed.

Lemma be_value_cons b bs : be_value (b :: bs) = b * 256 ^ len bs + be_value bs.
Proof.
  induction bs as [|c bs IH] using rev_ind; [simpl; unfold be_value; simpl; lia |].
  rewrite app_comm_cons, !be_value_snoc, IH, length_app, Nat2Z.inj_add.
  rewrite Z.pow_add_r by lia. change (256 ^ len [c]) with 256. lia.
Qed.

(** The shortest form of a positive integer starts with a nonzero byte. *)
Lemma be_min_head v : 0 < v -> exists b bs, be_min v = b :: bs /\ b <> 0.
Proof.
  intros Hv. pose proof (len_be_min v ltac:(lia)) as HL.
  destruct (bytesRequired_spec v ltac:(lia)) as (_ & _ & H3). destruct (H3 Hv) as [H4 H5].
  pose proof (be_value_be_min v ltac:(lia)) as HV. pose proof (be_min_ok v) as HO.
  destruct (be_min v) as [|b bs]; [simpl in HL; lia |].
  exists b, bs. split; [done |]. intros ->. apply bytes_ok_cons in HO as [_ HO].
  rewrite be_value_cons in HV. pose proof (be_value_bound bs HO).
  replace (bytesRequired v - 1) with (len bs) in H5 by (simpl in HL; lia). lia.
Qed.

(** A byte string without leading zero is the shortest form of its value. *)
Lemma be_min_be_value b bs :
  bytes_ok (b :: bs) -> b <> 0 -> be_min (be_value (b :: bs)) = b :: bs.
Proof.
  intros HO Hb. unfold be_min.
  replace (Z.to_nat (bytesRequired (be_value (b :: bs)))) with (length (b :: bs)).
  { by apply toBigEndian_be_value. }
  pose proof (be_value_bound _ HO). apply bytes_ok_cons in HO as [Hb' HO].
  pose proof (be_value_nonneg bs HO). unfold is_byte in Hb'.
  rewrite (bytesRequired_unique _ (len (b :: bs))); [lia | simpl; lia |].
  split; [| done]. rewrite be_value_cons. simpl length.
  replace (Z.of_nat (S (length bs)) - 1) with (len bs) by lia. nia.
Qed.

(** ** Hexadecimal text *)

Lemma fromHexChar_hexdigit n : 0 <= n < 16 -> fromHexChar (hexdigit n) = n.
Proof.
  intros. unfold fromHexChar, hexdigit. cmp_lia.
Qed.

Lemma land_15_range b : 0 <= Z.land b 15 < 16.
Proof. rewrite land_15. apply Z.mod_pos_bound. lia. Qed.

Lemma nibbles_byte b :
  is_byte b -> wrap 8 (Z.land (Z.shiftr b 4) 15 * 16 + Z.land b 15) = b.
Proof.
  unfold is_byte. intros. rewrite shiftr_div, !land_15 by lia.
  change (2 ^ 4) with 16. rewrite (Z.mod_small (b / 16)) by (split; [apply Z.div_pos; lia | apply Z.div_lt_upper_bound; lia]).
  pose proof (Z.div_mod b 16). rewrite wrap_small; lia.
Qed.

Lemma toHex_cons b data :
  toHex (b :: data) =
  hexdigit (Z.land (Z.shiftr b 4) 15) :: hexdigit (Z.land b 15) :: toHex data.
Proof. done. Qed.

Lemma fromHex_pairs_toHex acc data :
  bytes_ok data -> fromHex_pairs acc (toHex data) = acc ++ data.
Proof.
  revert acc. induction data as [|b data IH]; intros acc H; [by rewrite app_nil_r |].
  apply bytes_ok_cons in H as [Hb H]. rewrite toHex_cons.
  cbn [fromHex_pairs]. rewrite !fromHexChar_hexdigit by apply land_15_range.
  pose proof (land_15_range (Z.shiftr b 4)). pose proof (land_15_range b).
  destruct (Z.eqb_spec (Z.land (Z.shiftr b 4) 15) (-1)); [lia |].
  destruct (Z.eqb_spec (Z.land b 15) (-1)); [lia |]. simpl.
  by rewrite nibbles_byte, IH, <- app_assoc by done.
Qed.

Lemma length_toHex data : length (toHex data) = (2 * length data)%nat.
Proof. induction data as [|b data IH]; [done |]. rewrite toHex_cons. simpl. lia. Qed.

Lemma toHex_no_0x data : has_0x (toHex data) = false.
Proof.
  destruct data as [|b data]; [done |]. rewrite toHex_cons. cbn [has_0x].
  pose proof (land_15_range b) as R. unfold hexdigit at 2.
  case_bool; bool_hyps; apply andb_false_intro2, Z.eqb_neq; lia.
Qed.

Lemma fromHex_pairs_bad acc s :
  Exists (fun c => fromHexChar c = -1) s -> fromHex_pairs acc s = [].
Proof.
  revert acc. induction s as [s IH] using (induction_ltof1 _ (@length Z)).
  intros acc H. destruct s as [|c [|d s]]; [by inversion H | done |].
  cbn [fromHex_pairs].
  destruct (Z.eqb_spec (fromHexChar c) (-1)); [done |].
  destruct (Z.eqb_spec (fromHexChar d) (-1)); [done |]. simpl.
  apply IH; [unfold ltof; simpl; lia |].
  by inversion H as [|? ? H']; [| inversion H'].
Qed.

(** Text with a character that is no hexadecimal digit (after the optional
    prefix) is turned into no bytes at all. *)
Lemma fromHex_bad s :
  Exists (fun c => fromHexChar c = -1) (if has_0x s then drop 2 s else s) ->
  fromHex s = [].
Proof.
  unfold fromHex. set (rest := if has_0x s then _ else _). intros H.
  case_bool; [| by apply fromHex_pairs_bad].
  destruct rest as [|c rest']; [done |].
  destruct (Z.eqb_spec (fromHexChar c) (-1)); [done |]. simpl.
  apply fromHex_pairs_bad. by inversion H.
Qed.

(** Every byte string survives [toHex] then [fromHex], with or without the
    [0x] prefix. *)
Theorem fromHex_toHex (data : bytes) (prefixed : bool) :
  bytes_ok data ->
  fromHex (toHex_prefix data (if prefixed then [48; 120] else [])) = data.
Proof.
  intros H. unfold fromHex. destruct prefixed.
  - change (toHex_prefix data [48; 120]) with (48 :: 120 :: toHex data).
    cbn [has_0x andb Z.eqb Pos.eqb drop].
    replace (Z.odd _) with false.
    { rewrite drop_0. by rewrite fromHex_pairs_toHex. }
    simpl length. rewrite length_toHex.
    replace (Z.of_nat (S (S (2 * length data)))) with (2 * (1 + len data)) by lia.
    by rewrite Z.odd_mul.
  - change (toHex_prefix data []) with (toHex data). rewrite toHex_no_0x, length_toHex.
    replace (Z.of_nat (2 * length data)) with (2 * len data) by lia.
    rewrite Z.odd_mul. simpl. by rewrite fromHex_pairs_toHex.
Qed.

Lemma fromHex_toHex_witness :
  bytes_ok [65; 105; 0; 255] /\
  fromHex (toHex_prefix [65; 105; 0; 255] [48; 120]) = [65; 105; 0; 255].
Proof.
  split; [apply (bool_decide_unpack _); reflexivity |].
  apply (fromHex_toHex [65; 105; 0; 255] true).
  apply (bool_decide_unpack _); reflexivity.
Defined.

Lemma u128_scan_digits s : Forall (fun c => 48 <= c <= 57) s -> u128_scan s = Some false.
Proof.
  induction 1 as [|c s Hc _ IH]; [done |]. cbn [u128_scan].
  replace (fromHexChar c) with (c - 48) by (unfold fromHexChar; cmp_lia).
  destruct (Z.eqb_spec (c - 48) (-1)); [lia |].
  destruct (Z.ltb_spec 9 (c - 48)); [lia | done].
Qed.

Lemma u128_digits_value s :
  Forall (fun c => 48 <= c <= 57) s -> u128_digits 10 s = dec_value s mod 2 ^ 128.
Proof.
  induction s as [|c s IH] using rev_ind; [done |].
  intros [H1 H2]%Forall_app. apply Forall_cons in H2 as [Hc _].
  unfold u128_digits, dec_value in *. rewrite !foldl_app. simpl. rewrite IH by done.
  replace (fromHexChar c) with (c - 48) by (unfold fromHexChar; cmp_lia).
  unfold wrap. rewrite <- Z.add_mod_idemp_l, Z.mul_mod_idemp_l by lia.
  by rewrite Z.add_mod_idemp_l by lia.
Qed.

(** A literal of decimal digits denotes its value modulo 2^128. *)
Theorem u128_literal_decimal (s : bytes) :
  Forall (fun c => 48 <= c <= 57) s -> u128_literal s = dec_value s mod 2 ^ 128.
Proof.
  intros H. unfold u128_literal.
  replace (has_0x s) with false.
  { rewrite andb_false_r, u128_scan_digits by done. by apply u128_digits_value. }
  symmetry. destruct s as [|c0 [|c1 s]]; [done | done |].
  apply Forall_cons in H as [_ [H _]%Forall_cons].
  simpl. apply andb_false_intro2, Z.eqb_neq. lia.
Qed.
