(* ===== verification/RlpSpec.v ===== *)
(** * The RLP format, as a specification

    An RLP value is a byte string or a list of values; [enc] is its encoding.
    This file is the reference the encoder (RlpStream), the size calculator
    (RlpSize) and the reader (RlpReader) are compared with; it models no code. *)

From S2P Require Import Prelude Common.

Inductive item : Type :=
| Str (b : bytes)
| Lst (l : list item).

(** The length prefix: one byte below 56, else the length of the length and the
    length, big endian. *)
Definition header (base n : Z) : bytes :=
  if n <? 56 then [base + n]
  else (base + 55 + bytesRequired n) :: be_min n.

Definition enc_str (b : bytes) : bytes :=
  match b with
  | [x] => if x <? 128 then [x] else header 128 1 ++ b
  | _ => header 128 (len b) ++ b
  end.

Definition enc_payload (p : bytes) : bytes := header 192 (len p) ++ p.

Fixpoint enc (it : item) : bytes :=
  match it with
  | Str b => enc_str b
  | Lst l => enc_payload (flat_map enc l)
  end.

(** Unsigned integers are their shortest big-endian form. *)
Definition int_item (v : Z) : item := Str (be_min v).

(** Every leaf holds bytes. *)
Fixpoint leaves_ok (it : item) : Prop :=
  match it with
  | Str b => bytes_ok b
  | Lst l => (fix all l := match l with [] => True | x :: l' => leaves_ok x /\ all l' end) l
  end.

(** The largest encoding the reader accepts: [RLP::length] rejects lengths from
    [SIZE_MAX - 0x100] on, so that a prefix can be added without overflow. *)
Definition RLP_LIMIT : Z := SIZE_MAX - 256.

Definition item_ok (it : item) : Prop := leaves_ok it /\ len (enc it) < RLP_LIMIT.

(** The two parts of an encoding. *)
Definition prefix_of (it : item) : bytes :=
  match it with
  | Str [x] => if x <? 128 then [] else header 128 1
  | Str b => header 128 (len b)
  | Lst l => header 192 (len (flat_map enc l))
  end.

Definition payload_of (it : item) : bytes :=
  match it with Str b => b | Lst l => flat_map enc l end.

(** ** Items *)

(** Induction with the hypothesis for every element of a list. *)
Lemma item_induction (P : item -> Prop) :
  (forall b, P (Str b)) ->
  (forall l, Forall P l -> P (Lst l)) ->
  forall it, P it.
Proof.
  intros HS HL. fix IH 1. intros [b | l]; [apply HS |]. apply HL.
  induction l as [|x l IHl]; constructor; [apply IH | apply IHl].
Qed.

Lemma leaves_ok_lst l : leaves_ok (Lst l) <-> Forall leaves_ok l.
Proof.
  induction l as [|x l IH]; simpl in *; [split; constructor |].
  rewrite Forall_cons. by rewrite <- IH.
Qed.

(** ** Headers *)

Lemma len_header base n : 0 <= n -> len (header base n) = if n <? 56 then 1 else 1 + bytesRequired n.
Proof.
  intros. unfold header. case_bool; [done |]. rewrite length_cons.
  pose proof (len_be_min n). lia.
Qed.

Lemma header_pos base n : 0 <= n -> 1 <= len (header base n).
Proof.
  intros. rewrite len_header by done. case_bool; [lia |].
  destruct (bytesRequired_spec n); lia.
Qed.

Lemma header_ok base n :
  0 <= base <= 192 -> 0 <= n < 2 ^ 64 -> bytes_ok (header base n).
Proof.
  intros Hb Hn. unfold header. case_bool; bool_hyps.
  - apply bytes_ok_cons. split; [| done]. unfold is_byte. lia.
  - apply bytes_ok_cons. split; [| apply be_min_ok]. unfold is_byte.
    pose proof (bytesRequired_le n 8 ltac:(change (256 ^ 8) with (2 ^ 64); lia)).
    destruct (bytesRequired_spec n); lia.
Qed.

(** ** Lengths *)

Lemma enc_nonempty it : 1 <= len (enc it).
Proof.
  destruct it as [b | l]; simpl.
  - unfold enc_str. destruct b as [|x [|y b]]; [done | |].
    + case_bool; [done |]. rewrite length_app. simpl. lia.
    + rewrite length_app. simpl. lia.
  - unfold enc_payload. rewrite length_app.
    pose proof (header_pos 192 (len (flat_map enc l))). lia.
Qed.

Lemma len_enc_str_le b : len b <= len (enc_str b).
Proof.
  unfold enc_str. destruct b as [|x [|y b]]; try case_bool; simpl; try lia.
  rewrite length_app. simpl. lia.
Qed.

Lemma len_enc_payload p : len (enc_payload p) = len (header 192 (len p)) + len p.
Proof. unfold enc_payload. rewrite length_app. lia. Qed.

Lemma enc_in_payload it l : it ∈ l -> len (enc it) <= len (flat_map enc l).
Proof.
  induction 1 as [|x y l H IH]; simpl; rewrite length_app; lia.
Qed.

Lemma item_ok_elem it l : item_ok (Lst l) -> it ∈ l -> item_ok it.
Proof.
  intros [HL HS] Hin. split.
  - rewrite leaves_ok_lst in HL. by apply (Forall_forall leaves_ok l).
  - pose proof (enc_in_payload it l Hin). simpl in HS.
    rewrite len_enc_payload in HS. pose proof (header_pos 192 (len (flat_map enc l))). lia.
Qed.

Lemma item_ok_forall l : item_ok (Lst l) -> Forall item_ok l.
Proof. intros H. apply Forall_forall. intros x Hx. by eapply item_ok_elem. Qed.

Lemma flat_map_ok l : Forall (fun it => bytes_ok (enc it)) l -> bytes_ok (flat_map enc l).
Proof. induction 1; simpl; [constructor |]. by apply bytes_ok_app. Qed.

(** An encoding is made of bytes. *)
Lemma enc_ok it : leaves_ok it -> len (enc it) < 2 ^ 64 -> bytes_ok (enc it).
Proof.
  induction it as [b | l IH] using item_induction; intros HL HS; simpl in *.
  - pose proof (len_enc_str_le b). unfold enc_str in *.
    destruct b as [|x [|y b]]; [by apply bytes_ok_cons | |].
    + case_bool; [done |]. apply bytes_ok_app. split; [by apply bytes_ok_cons | done].
    + apply bytes_ok_app. split; [apply header_ok; lia | done].
  - rewrite len_enc_payload in HS. pose proof (header_pos 192 (len (flat_map enc l))).
    unfold enc_payload. apply bytes_ok_app. split; [apply header_ok; lia |].
    apply flat_map_ok. apply (leaves_ok_lst l) in HL.
    rewrite Forall_forall in *. intros x Hx. apply IH; [done | by apply HL |].
    pose proof (enc_in_payload x l Hx). lia.
Qed.

Lemma item_ok_bytes it : item_ok it -> bytes_ok (enc it).
Proof. intros [H1 H2]. apply enc_ok; [done |]. unfold RLP_LIMIT, SIZE_MAX in *. lia. Qed.

Lemma int_item_ok v : 0 <= v < 2 ^ 128 -> item_ok (int_item v).
Proof.
  intros Hv. split; [apply be_min_ok |]. simpl.
  pose proof (bytesRequired_le v 16 ltac:(change (256 ^ 16) with (2 ^ 128); lia) ltac:(lia)).
  pose proof (len_be_min v ltac:(lia)) as HL. unfold enc_str.
  destruct (be_min v) as [|x [|y b]]; [done | by case_bool |].
  unfold header. destruct (Z.ltb_spec (len (x :: y :: b)) 56); [| lia].
  rewrite length_app. unfold RLP_LIMIT, SIZE_MAX. simpl length in *. lia.
Qed.

(** The shape of [enc_str] when it is not a single small byte. *)
Lemma enc_str_header b :
  (forall x, b = [x] -> 128 <= x) -> enc_str b = header 128 (len b) ++ b.
Proof.
  intros H. unfold enc_str. destruct b as [|x [|y b]]; [done | | done].
  destruct (Z.ltb_spec x 128); [specialize (H x eq_refl); lia | done].
Qed.

(** Either one small byte, or a header and the string. *)
Lemma enc_str_cases b :
  (exists x, b = [x] /\ x < 128 /\ enc_str b = [x]) \/
  ((forall x, b = [x] -> 128 <= x) /\ enc_str b = header 128 (len b) ++ b).
Proof.
  destruct b as [|x [|y b]].
  - right. done.
  - destruct (Z.lt_ge_cases x 128); [left | right].
    + exists x. repeat split; [done |]. simpl. by destruct (Z.ltb_spec x 128); [| lia].
    + split; [by intros ? [= <-] |]. simpl. by destruct (Z.ltb_spec x 128); [lia |].
  - right. done.
Qed.

(** An encoding is a prefix followed by the payload. *)
Lemma enc_split it : enc it = prefix_of it ++ payload_of it.
Proof. destruct it as [[|x [|y b]] | l]; simpl; try done. by case_bool. Qed.
