(* ===== verification/VectorRef.v ===== *)
(** * vector_ref.h: views of memory

    [vector_ref<byte const>] is a pointer and a count. Memory is the list of the
    bytes of the buffer the views point into, a pointer is an offset into it, and
    [None] is the null pointer. An access that no C++ object backs is [Undef]. *)

From S2P Require Import Prelude Common.

Record vector_ref := mk_ref { vr_data : option Z; vr_count : Z }.

#[export] Instance vector_ref_eq_dec : EqDecision vector_ref.
Proof. solve_decision. Defined.

(** ** Definitions *)

Definition vr_null : vector_ref := mk_ref None 0.

Definition vr_bool (r : vector_ref) : bool :=
  match vr_data r with Some _ => negb (vr_count r =? 0) | None => false end.

Definition vr_empty (r : vector_ref) : bool := vr_count r =? 0.

Definition vr_next (r : vector_ref) : vector_ref :=
  match vr_data r with
  | None => r
  | Some p => mk_ref (Some (p + vr_count r)) (vr_count r)
  end.

(** [cropped(begin, count)]: the sum is a 32-bit sum; [~size_t(0)] means to the end. *)
Definition vr_cropped (r : vector_ref) (b c : Z) : vector_ref :=
  match vr_data r with
  | Some p =>
      if (b <=? vr_count r) && (c <=? vr_count r) && (u32 (b + c) <=? vr_count r)
      then mk_ref (Some (p + b)) (if c =? SIZE_MAX then vr_count r - b else c)
      else vr_null
  | None => vr_null
  end.

Definition vr_cropped_from (r : vector_ref) (b : Z) : vector_ref :=
  match vr_data r with
  | Some p => if b <=? vr_count r then mk_ref (Some (p + b)) (vr_count r - b) else vr_null
  | None => vr_null
  end.

Definition vr_retarget (r : vector_ref) (d : option Z) (s : Z) : vector_ref := mk_ref d s.

Definition vr_reset (r : vector_ref) : vector_ref := vr_null.

(** [operator==]: same address and same count, not same contents. *)
Definition vr_eqb (a b : vector_ref) : bool :=
  bool_decide (vr_data a = vr_data b) && (vr_count a =? vr_count b).

Section Memory.
Context (mem : bytes).

(** [operator[]]: the pointer must be non-null and the index below the count. *)
Definition vr_at (r : vector_ref) (i : Z) : res Z :=
  match vr_data r with
  | None => Undef "null vector_ref"
  | Some p =>
      if (0 <=? i) && (i <? vr_count r)
      then match zget mem (p + i) with
           | Some b => Ok b
           | None => Undef "read outside the buffer"
           end
      else Undef "vector_ref index out of range"
  end.

(** The bytes [data .. data + n), copied by toBytes, toString, toVector. *)
Definition vr_read (r : vector_ref) (n : Z) : res bytes :=
  if n =? 0 then Ok []
  else match vr_data r with
       | None => Undef "null vector_ref"
       | Some p =>
           if (0 <=? p) && (p + n <=? len mem) then Ok (slice mem p n)
           else Undef "read outside the buffer"
       end.

Definition vr_toBytes (r : vector_ref) : res bytes := vr_read r (vr_count r).
Definition vr_toString (r : vector_ref) : res bytes := vr_read r (vr_count r).

Definition vr_contentsEqual (r : vector_ref) (c : bytes) : res bool :=
  if negb (vr_bool r) then Ok (bool_decide (c = []))
  else if negb (len c =? vr_count r) then Ok false
  else b ← vr_read r (vr_count r); Ok (bool_decide (b = c)).
End Memory.

(** *** Invariants *)

(** A view that lies inside the buffer, or the null view. *)
Definition vr_ok (mem : bytes) (r : vector_ref) : Prop :=
  match vr_data r with
  | None => vr_count r = 0
  | Some p => 0 <= p /\ 0 <= vr_count r < SIZE_MAX /\ p + vr_count r <= len mem
  end.

(** The view at address [p] shows the bytes [bs]. *)
Definition shows (mem : bytes) (r : vector_ref) (p : Z) (bs : bytes) : Prop :=
  vr_data r = Some p /\ vr_count r = len bs /\ 0 <= p /\ p + len bs <= len mem /\
  slice mem p (len bs) = bs.

(** ** Properties *)

Lemma shows_count mem r p bs : shows mem r p bs -> vr_count r = len bs.
Proof. intros H. apply H. Qed.

Lemma shows_ok mem r p bs : shows mem r p bs -> len bs < SIZE_MAX -> vr_ok mem r.
Proof. intros (E1 & E2 & ? & ? & ?) ?. unfold vr_ok. rewrite E1, E2. lia. Qed.

(** Every view inside the buffer shows the bytes of its range. *)
Lemma ok_shows mem r p :
  vr_ok mem r -> vr_data r = Some p ->
  exists bs, shows mem r p bs /\ len bs = vr_count r /\ len bs < SIZE_MAX.
Proof.
  unfold vr_ok. intros H E. rewrite E in H. destruct H as (H1 & H2 & H3).
  exists (slice mem p (vr_count r)).
  assert (len (slice mem p (vr_count r)) = vr_count r) as EL by (apply len_slice; lia).
  unfold shows. rewrite EL. repeat split; try done; lia.
Qed.

Lemma shows_eq mem r p bs : shows mem r p bs -> r = mk_ref (Some p) (len bs).
Proof. destruct r. intros (E1 & E2 & _). simpl in *. congruence. Qed.

Lemma shows_at mem r p bs i :
  shows mem r p bs ->
  vr_at mem r i =
  match zget bs i with Some b => Ok b | None => Undef "vector_ref index out of range" end.
Proof.
  intros (E1 & E2 & H1 & H2 & H3). unfold vr_at. rewrite E1, E2.
  destruct (zget bs i) as [b |] eqn:E.
  - pose proof (zget_some _ _ _ E).
    destruct (Z.leb_spec 0 i); [| lia]. destruct (Z.ltb_spec i (len bs)); [| lia]. simpl.
    rewrite <- H3, zget_slice in E by lia. by rewrite E.
  - case_bool; [| done]. bool_hyps.
    destruct (zget_in bs i) as [b Eb]; [lia | congruence].
Qed.

Lemma shows_read mem r p bs : shows mem r p bs -> vr_read mem r (len bs) = Ok bs.
Proof.
  intros (E1 & E2 & H1 & H2 & H3). unfold vr_read. rewrite E1.
  case_bool; bool_hyps; [by destruct bs |].
  destruct (Z.leb_spec 0 p); [| lia].
  destruct (Z.leb_spec (p + len bs) (len mem)); [| lia]. simpl. by rewrite H3.
Qed.

(** A part of a view shows the part of its bytes. *)
Lemma shows_part mem r p a b c :
  shows mem r p (a ++ b ++ c) ->
  shows mem (mk_ref (Some (p + len a)) (len b)) (p + len a) b.
Proof.
  intros (E1 & E2 & H1 & H2 & H3). rewrite !length_app in *.
  repeat split; simpl; [lia | lia |].
  replace b with (slice (a ++ b ++ c) (len a) (len b)) at 2
    by (by apply slice_app_exact).
  rewrite <- H3, slice_slice by lia. done.
Qed.

Lemma shows_cropped mem r p a b c :
  shows mem r p (a ++ b ++ c) -> len (a ++ b ++ c) < SIZE_MAX ->
  shows mem (vr_cropped r (len a) (len b)) (p + len a) b.
Proof.
  intros H HL. pose proof (shows_part _ _ _ _ _ _ H) as HP.
  destruct H as (E1 & E2 & _). unfold vr_cropped. rewrite E1, E2.
  rewrite !length_app in *. unfold SIZE_MAX in *. rewrite wrap_small by lia.
  destruct (Z.leb_spec (len a) (Z.of_nat (length a + (length b + length c)))); [| lia].
  destruct (Z.leb_spec (len b) (Z.of_nat (length a + (length b + length c)))); [| lia].
  destruct (Z.leb_spec (len a + len b) (Z.of_nat (length a + (length b + length c)))); [| lia].
  simpl. destruct (Z.eqb_spec (len b) (2 ^ 32 - 1)); [lia | done].
Qed.

Lemma shows_cropped_from mem r p a b :
  shows mem r p (a ++ b) -> shows mem (vr_cropped_from r (len a)) (p + len a) b.
Proof.
  intros H. rewrite <- (app_nil_r b) in H at 1.
  pose proof (shows_part _ _ _ _ _ _ H) as HP. rewrite app_nil_r in H.
  destruct H as (E1 & E2 & _). unfold vr_cropped_from. rewrite E1, E2, length_app.
  destruct (Z.leb_spec (len a) (Z.of_nat (length a + length b))); [| lia].
  by replace (Z.of_nat (length a + length b) - len a) with (len b) by lia.
Qed.

(** Cropping never leaves the buffer. *)
Lemma vr_cropped_ok mem r b c :
  vr_ok mem r -> 0 <= b -> 0 <= c -> b + c < 2 ^ 32 -> vr_ok mem (vr_cropped r b c).
Proof.
  unfold vr_ok, vr_cropped. intros H Hb Hc Hs.
  destruct (vr_data r) as [p |]; [| done].
  rewrite wrap_small by lia. case_bool; bool_hyps; [| done]. simpl.
  case_bool; bool_hyps; simpl; lia.
Qed.

Lemma vr_cropped_from_ok mem r b :
  vr_ok mem r -> 0 <= b -> vr_ok mem (vr_cropped_from r b).
Proof.
  unfold vr_ok, vr_cropped_from. intros H Hb.
  destruct (vr_data r) as [p |]; [| done].
  case_bool; bool_hyps; simpl; [lia | done].
Qed.
