(* ===== verification/RlpReader.v ===== *)
(** * RLP.h, RLP.cpp: reading RLP data

    [class RLP] of [src/libraries/platonlib/include/platon/RLP.h] and
    [src/libraries/platonlib/src/RLP.cpp]: a view of memory read as one RLP value,
    its predicates, conversions, list indexing with a cache, and iteration. *)

From S2P Require Import Prelude Common RlpSpec VectorRef.

(** ** Constants and flags *)

Definition c_rlpMaxLengthBytes : Z := 8.
Definition c_rlpDataImmLenStart : Z := 128.
Definition c_rlpListStart : Z := 192.
Definition c_rlpDataImmLenCount : Z :=
  c_rlpListStart - c_rlpDataImmLenStart - c_rlpMaxLengthBytes.
Definition c_rlpDataIndLenZero : Z := c_rlpDataImmLenStart + c_rlpDataImmLenCount - 1.
Definition c_rlpListImmLenCount : Z := 256 - c_rlpListStart - c_rlpMaxLengthBytes.
Definition c_rlpListIndLenZero : Z := c_rlpListStart + c_rlpListImmLenCount - 1.

(** [enum { AllowNonCanon = 1, ... }] *)
Definition AllowNonCanon : Z := 1.
Definition ThrowOnFail : Z := 4.
Definition FailIfTooBig : Z := 8.
Definition FailIfTooSmall : Z := 16.
Definition Strict : Z := Z.lor ThrowOnFail FailIfTooBig.
Definition VeryStrict : Z := Z.lor (Z.lor ThrowOnFail FailIfTooBig) FailIfTooSmall.
Definition LaissezFaire : Z := AllowNonCanon.

Definition has (flags f : Z) : bool := negb (Z.land flags f =? 0).

(** What every conversion does on a bad value: throw, or return a default. *)
Definition bad_cast {A} (flags : Z) (dflt : A) : res A :=
  if has flags ThrowOnFail then platon_throw "bad cast" else Ok dflt.

(** The state of an [RLP] object: its view and the list-indexing cache. *)
Record RLP := mkRLP {
  m_data : vector_ref;
  m_lastIndex : Z;
  m_lastEnd : Z;
  m_lastItem : vector_ref
}.

(** The member initialisers: [m_lastIndex = (size_t)-1]. *)
Definition fresh (d : vector_ref) : RLP := mkRLP d SIZE_MAX 0 vr_null.

Record iterator := mkIter { m_remaining : Z; m_currentItem : vector_ref }.

Section Reader.
Context (mem : bytes).

(** ** Predicates and lengths *)

Definition isNull (d : vector_ref) : bool := vr_count d =? 0.

Definition isEmpty (d : vector_ref) : res bool :=
  if isNull d then Ok false
  else b ← vr_at mem d 0;
       Ok ((b =? c_rlpDataImmLenStart) || (b =? c_rlpListStart)).

Definition isData (d : vector_ref) : res bool :=
  if isNull d then Ok false
  else b ← vr_at mem d 0; Ok (b <? c_rlpListStart).

Definition isList (d : vector_ref) : res bool :=
  if isNull d then Ok false
  else b ← vr_at mem d 0; Ok (c_rlpListStart <=? b).

Definition isSingleByte (d : vector_ref) : res bool :=
  if isNull d then Ok false
  else b ← vr_at mem d 0; Ok (b <? c_rlpDataImmLenStart).

Definition requireGood (d : vector_ref) : res unit :=
  if isNull d then platon_throw "bad rlp"
  else
    n ← vr_at mem d 0;
    if negb (n =? c_rlpDataImmLenStart + 1) then Ok tt
    else if vr_count d <? 2 then platon_throw "bad rlp"
    else
      b ← vr_at mem d 1;
      if b <? c_rlpDataImmLenStart then platon_throw "bad rlp" else Ok tt.

Definition isInt (d : vector_ref) : res bool :=
  if isNull d then Ok false
  else
    _ ← requireGood d;
    n ← vr_at mem d 0;
    if n <? c_rlpDataImmLenStart then Ok (negb (n =? 0))
    else if n =? c_rlpDataImmLenStart then Ok true
    else if n <=? c_rlpDataIndLenZero then
      if vr_count d <=? 1 then platon_throw "bad rlp"
      else b ← vr_at mem d 1; Ok (negb (b =? 0))
    else if n <? c_rlpListStart then
      let i := 1 + n - c_rlpDataIndLenZero in
      if vr_count d <=? i then platon_throw "bad rlp"
      else b ← vr_at mem d i; Ok (negb (b =? 0))
    else Ok false.

Definition lengthSize (d : vector_ref) : res Z :=
  if isNull d then Ok 0
  else
    n ← vr_at mem d 0;
    if (n <? c_rlpListStart) && (c_rlpDataIndLenZero <? n)
    then Ok (n - c_rlpDataIndLenZero)
    else if (c_rlpListStart <=? n) && (c_rlpListIndLenZero <? n)
    then Ok (n - c_rlpListIndLenZero)
    else Ok 0.

(** [for (i < lengthSize) ret = (ret << 8) | m_data[i + 1]] *)
Fixpoint read_length (d : vector_ref) (k : nat) (i ret : Z) : res Z :=
  match k with
  | O => Ok ret
  | S k' =>
      b ← vr_at mem d (i + 1);
      read_length d k' (i + 1) (u32 (Z.lor (Z.shiftl ret 8) b))
  end.

(** The branches of [length] for a length stored in its own bytes; both have
    the same tests, in the same order, and the same minimum of 56. *)
Definition long_length (d : vector_ref) (lengthSize : Z) : res Z :=
  if vr_count d <=? lengthSize then platon_throw "bad rlp"
  else
    _ ← (if 1 <? vr_count d
         then b ← vr_at mem d 1; if b =? 0 then platon_throw "bad rlp" else Ok tt
         else Ok tt);
    if 4 <? lengthSize then platon_throw "under size rlp"
    else
      b ← vr_at mem d 1;
      if b =? 0 then platon_throw "bad rlp"
      else
        ret ← read_length d (Z.to_nat lengthSize) 0 0;
        if ret <? c_rlpDataImmLenCount then platon_throw "bad rlp"
        else if SIZE_MAX - 256 <=? ret then platon_throw "under size rlp"
        else Ok ret.

Definition rlp_length (d : vector_ref) : res Z :=
  if isNull d then Ok 0
  else
    _ ← requireGood d;
    n ← vr_at mem d 0;
    if n <? c_rlpDataImmLenStart then Ok 1
    else if n <=? c_rlpDataIndLenZero then Ok (n - c_rlpDataImmLenStart)
    else if n <? c_rlpListStart then long_length d (n - c_rlpDataIndLenZero)
    else if n <=? c_rlpListIndLenZero then Ok (n - c_rlpListStart)
    else long_length d (n - c_rlpListIndLenZero).

Definition payloadOffset (d : vector_ref) : res Z :=
  s ← isSingleByte d;
  if s : bool then Ok 0 else l ← lengthSize d; Ok (1 + l).

Definition actualSize (d : vector_ref) : res Z :=
  if isNull d then Ok 0
  else
    s ← isSingleByte d;
    if s : bool then Ok 1
    else
      o ← payloadOffset d;
      l ← rlp_length d;
      Ok (u32 (o + l)).

Definition payload (d : vector_ref) : res vector_ref :=
  l ← rlp_length d;
  if vr_count d <? l then platon_throw "bad cast"
  else o ← payloadOffset d; Ok (vr_cropped d o l).

(** The constructor: checks the size of the data against the encoded size. *)
Definition RLP_new (d : vector_ref) (s : Z) : res RLP :=
  d1 ← (if has s FailIfTooBig
        then a ← actualSize d;
             if a <? vr_count d
             then if has s ThrowOnFail then platon_throw "over size rlp"
                  else Ok vr_null
             else Ok d
        else Ok d);
  d2 ← (if has s FailIfTooSmall
        then a ← actualSize d1;
             if vr_count d <? a
             then if has s ThrowOnFail then platon_throw "under size rlp"
                  else Ok vr_null
             else Ok d1
        else Ok d1);
  Ok (fresh d2).

Definition sizeAsEncoded (d : vector_ref) : res Z :=
  r ← RLP_new d (Z.lor ThrowOnFail FailIfTooSmall);
  actualSize (m_data r).

(** ** Items of a list *)

Fixpoint items_loop (fuel : nat) (d : vector_ref) (i : Z) : res Z :=
  match fuel with
  | O => Fuel
  | S fuel' =>
      if vr_count d =? 0 then Ok i
      else s ← sizeAsEncoded d; items_loop fuel' (vr_cropped_from d s) (u32 (i + 1))
  end.

Definition items (d : vector_ref) : res Z :=
  b ← isList d;
  if b : bool then p ← payload d; items_loop (S (Z.to_nat (vr_count p))) p 0 else Ok 0.

Definition itemCount (d : vector_ref) : res Z :=
  b ← isList d; if b : bool then items d else Ok 0.

Definition itemCountStrict (d : vector_ref) : res Z :=
  b ← isList d; if negb b then platon_throw "bad cast" else items d.

Definition rlp_size (d : vector_ref) : res Z :=
  b ← isData d; if b : bool then rlp_length d else Ok 0.

Definition sizeStrict (d : vector_ref) : res Z :=
  b ← isData d; if negb b then platon_throw "bad cast" else rlp_length d.

(** [operator[]] with its cache: it restarts when the index is behind the
    cached one, else it walks on from the cached item. *)
Fixpoint index_loop (fuel : nat) (r : RLP) (i : Z) : res RLP :=
  match fuel with
  | O => Fuel
  | S fuel' =>
      if (m_lastIndex r <? i) && negb (vr_count (m_lastItem r) =? 0) then
        p ← payload (m_data r);
        let it := vr_cropped_from p (m_lastEnd r) in
        s ← sizeAsEncoded it;
        let it' := vr_cropped it 0 s in
        index_loop fuel'
          (mkRLP (m_data r) (u32 (m_lastIndex r + 1))
                 (u32 (m_lastEnd r + vr_count it')) it') i
      else Ok r
  end.

Definition rlp_index (r : RLP) (i : Z) : res (RLP * RLP) :=
  r1 ← (if i <? m_lastIndex r
        then p ← payload (m_data r);
             e ← sizeAsEncoded p;
             p' ← payload (m_data r);
             Ok (mkRLP (m_data r) 0 e (vr_cropped p' 0 e))
        else Ok r);
  r2 ← index_loop (S (S (Z.to_nat (vr_count (m_data r))))) r1 i;
  it ← RLP_new (m_lastItem r2) (Z.lor ThrowOnFail FailIfTooSmall);
  Ok (it, r2).

(** ** Iteration *)

Definition iter_new (parent : vector_ref) (b : bool) : res iterator :=
  l ← (if b then isList parent else Ok false);
  if l : bool then
    pl ← payload parent;
    s ← sizeAsEncoded pl;
    let cur := vr_cropped pl 0 s in
    Ok (mkIter (u32 (vr_count pl - vr_count cur)) cur)
  else Ok (mkIter 0 (vr_cropped_from parent (vr_count parent))).

Definition iter_incr (it : iterator) : res iterator :=
  let nxt := vr_data (vr_next (m_currentItem it)) in
  if negb (m_remaining it =? 0) then
    let cur := vr_retarget (m_currentItem it) nxt (m_remaining it) in
    s ← sizeAsEncoded cur;
    let cur' := vr_cropped cur 0 s in
    Ok (mkIter (m_remaining it - Z.min (m_remaining it) (vr_count cur')) cur')
  else Ok (mkIter (m_remaining it) (vr_retarget (m_currentItem it) nxt 0)).

Definition iter_deref (it : iterator) : res RLP := RLP_new (m_currentItem it) VeryStrict.

Definition iter_eqb (a b : iterator) : bool := vr_eqb (m_currentItem a) (m_currentItem b).

(** [for (auto const& i : *this) body(i)]; one turn per byte of data at most. *)
Fixpoint foreach_loop {A} (fuel : nat) (body : A -> RLP -> res A)
    (last it : iterator) (acc : A) : res A :=
  match fuel with
  | O => Fuel
  | S fuel' =>
      if iter_eqb it last then Ok acc
      else
        x ← iter_deref it;
        acc' ← body acc x;
        it' ← iter_incr it;
        foreach_loop fuel' body last it' acc'
  end.

Definition rlp_foreach {A} (body : A -> RLP -> res A) (d : vector_ref) (acc : A) : res A :=
  b ← iter_new d true;
  e ← iter_new d false;
  foreach_loop (S (Z.to_nat (vr_count d))) body e b acc.

(** ** Conversions *)

Definition toBytes (flags : Z) (d : vector_ref) : res bytes :=
  b ← isData d;
  if negb b then bad_cast flags []
  else p ← payload d; l ← rlp_length d; vr_read mem p l.

Definition toBytesConstRef (flags : Z) (d : vector_ref) : res vector_ref :=
  b ← isData d;
  if negb b then bad_cast flags vr_null
  else p ← payload d; l ← rlp_length d; Ok (vr_cropped p 0 l).

Definition rlp_toString (flags : Z) (d : vector_ref) : res bytes :=
  b ← isData d;
  if negb b then bad_cast flags []
  else p ← payload d; l ← rlp_length d; vr_toString mem (vr_cropped p 0 l).

(** [toInt<T>] for an unsigned [T] of [w] bits. *)
Definition toInt (w : Z) (flags : Z) (d : vector_ref) : res Z :=
  _ ← requireGood d;
  bi ← isInt d;
  bl ← isList d;
  if (negb bi && negb (has flags AllowNonCanon)) || bl || isNull d
  then bad_cast flags 0
  else
    p ← payload d;
    if (w / 8 <? vr_count p) && has flags FailIfTooBig then bad_cast flags 0
    else bs ← vr_toBytes mem p; Ok (fromBigEndian w bs).

(** Undoes the zigzag map in 128 bits, then narrows to [w] bits. *)
Definition unzigzag (u : Z) : Z :=
  swrap 128 (Z.lxor (Z.shiftr u 1) (u128 (- Z.land u 1))).

Definition toSignedInt (w : Z) (flags : Z) (d : vector_ref) : res Z :=
  u ← toInt 128 flags d; Ok (swrap w (unzigzag u)).

Definition toBool (flags : Z) (d : vector_ref) : res bool :=
  i ← toInt 8 flags d; Ok (negb (i =? 0)).

(** Floating-point values are their bit patterns; [toDouble] ignores its flags. *)
Definition toFloat (flags : Z) (d : vector_ref) : res Z := toInt 32 flags d.
Definition toDouble (flags : Z) (d : vector_ref) : res Z := toInt 64 Strict d.

Definition toHash (N : Z) (flags : Z) (d : vector_ref) : res bytes :=
  _ ← requireGood d;
  p ← payload d;
  b ← isData d;
  let l := vr_count p in
  if negb b || ((N <? l) && has flags FailIfTooBig)
     || ((l <? N) && has flags FailIfTooSmall)
  then bad_cast flags (replicate (Z.to_nat N) 0)
  else
    let s := Z.min N l in
    bs ← vr_read mem p s;
    Ok (replicate (Z.to_nat (N - s)) 0 ++ bs).

(** ** Conversions of lists

    [convert<T>] is the conversion of the element type, with its flags. A
    [std::set] is the ascending list of its elements and [insert] its insertion. *)

Definition toVector {T} (convert : RLP -> res T) (flags : Z) (d : vector_ref) : res (list T) :=
  b ← isList d;
  if b : bool then
    _ ← itemCount d;
    rlp_foreach (fun ret i => x ← convert i; Ok (ret ++ [x])) d []
  else bad_cast flags [].

Definition toSet {T} (insert : T -> list T -> list T) (convert : RLP -> res T)
    (flags : Z) (d : vector_ref) : res (list T) :=
  b ← isList d;
  if b : bool then rlp_foreach (fun ret i => x ← convert i; Ok (insert x ret)) d []
  else bad_cast flags [].

Definition toPair {T U} (convert : RLP -> res T) (convert' : RLP -> res U) (ret : T * U)
    (flags : Z) (r : RLP) : res (T * U) :=
  n ← itemCountStrict (m_data r);
  if negb (n =? 2) then bad_cast flags ret
  else
    '(i0, r1) ← rlp_index r 0;
    first ← convert i0;
    '(i1, _) ← rlp_index r1 1;
    second ← convert' i1;
    Ok (first, second).

(** [for (size_t i = 0; i < N; ++i) ret[i] = operator[](i).convert<T>(_flags)] *)
Fixpoint array_loop {T} (convert : RLP -> res T) (k : nat) (i : Z) (r : RLP) : res (list T) :=
  match k with
  | O => Ok []
  | S k' =>
      '(it, r') ← rlp_index r i;
      x ← convert it;
      rest ← array_loop convert k' (i + 1) r';
      Ok (x :: rest)
  end.

Definition toArray {T} (convert : RLP -> res T) (N : Z) (dflt : T) (flags : Z) (r : RLP)
    : res (list T) :=
  n ← itemCountStrict (m_data r);
  if negb (n =? N) then bad_cast flags (replicate (Z.to_nat N) dflt)
  else array_loop convert (Z.to_nat N) 0 r.
End Reader.
