(* ===== verification/RlpReaderFacts.v ===== *)
(** * Theorems about the RLP reader

    On the encoding of a value the reader of RlpReader returns exactly the parts of
    that value (first half); on arbitrary bytes it never reads outside them and its
    loops end (second half). *)

From S2P Require Import Prelude Common RlpSpec VectorRef RlpReader.

Definition is_lst (it : item) : bool := match it with Lst _ => true | Str _ => false end.

(** The views of consecutive encodings, from address [q] on. *)
Fixpoint item_refs (q : Z) (l : list item) : list vector_ref :=
  match l with
  | [] => []
  | x :: l' => mk_ref (Some q) (len (enc x)) :: item_refs (q + len (enc x)) l'
  end.

(** A fold in the result monad. *)
Fixpoint foldM {A B} (g : A -> B -> res A) (acc : A) (l : list B) : res A :=
  match l with
  | [] => Ok acc
  | x :: l' => acc' ← g acc x; foldM g acc' l'
  end.

(** What the list-indexing cache of a list of encodings [l] may hold: nothing yet,
    or the position of the item it stopped at (one past the end included). *)
Definition cache_ok (q : Z) (l : list item) (r : RLP) : Prop :=
  m_lastIndex r = SIZE_MAX \/
  exists k : nat,
    (k <= length l)%nat /\
    m_lastIndex r = Z.of_nat k /\
    m_lastEnd r = len (flat_map enc (take (S k) l)) /\
    m_lastItem r =
      mk_ref (Some (q + len (flat_map enc (take k l))))
             (match l !! k with Some x => len (enc x) | None => 0 end).

Ltac rlp_consts :=
  unfold c_rlpDataIndLenZero, c_rlpListIndLenZero, c_rlpListImmLenCount,
    c_rlpDataImmLenCount, c_rlpListStart, c_rlpDataImmLenStart,
    c_rlpMaxLengthBytes in *.

Section Facts.
Context (mem : bytes).

Abbreviation shows := (shows mem).

Lemma at_head d p b bs : shows d p (b :: bs) -> vr_at mem d 0 = Ok b.
Proof. intros H. by rewrite (shows_at _ _ _ _ _ H). Qed.

Lemma at_second d p b c bs : shows d p (b :: c :: bs) -> vr_at mem d 1 = Ok c.
Proof. intros H. by rewrite (shows_at _ _ _ _ _ H). Qed.

Lemma shows_not_null d p b bs : shows d p (b :: bs) -> isNull d = false.
Proof. intros H. unfold isNull. rewrite (shows_count _ _ _ _ H). done. Qed.

Lemma read_length_spec d p bs pre rest ret i :
  shows d p (pre ++ bs ++ rest) -> len pre = i + 1 ->
  read_length mem d (length bs) i ret
  = Ok (foldl (fun r b => u32 (Z.lor (Z.shiftl r 8) b)) ret bs).
Proof.
  revert pre ret i. induction bs as [|b bs IH]; intros pre ret i H HL; [done |].
  cbn [length read_length]. rewrite (shows_at _ _ _ _ _ H).
  rewrite <- HL, zget_app_r, Z.sub_diag by lia. simpl.
  rewrite (IH (pre ++ [b])); [done | | rewrite length_app; simpl; lia].
  by rewrite <- app_assoc.
Qed.

Lemma bytesRequired_56 n : 56 <= n < 2 ^ 32 -> 1 <= bytesRequired n <= 4.
Proof.
  intros H. split; [destruct (bytesRequired_spec n); lia |].
  apply bytesRequired_le; [change (256 ^ 4) with (2 ^ 32)|]; lia.
Qed.

Lemma long_length_spec d p t n rest :
  56 <= n < RLP_LIMIT -> shows d p (t :: be_min n ++ rest) ->
  long_length mem d (bytesRequired n) = Ok n.
Proof.
  intros Hn H. unfold RLP_LIMIT, SIZE_MAX in Hn.
  pose proof (bytesRequired_56 n ltac:(lia)) as HB.
  pose proof (len_be_min n ltac:(lia)) as HL.
  destruct (be_min_head n) as (b & bs & E & Hb); [lia |].
  assert (vr_at mem d 1 = Ok b) as E1.
  { rewrite E in H. by apply (at_second _ _ _ _ _ H). }
  unfold long_length. rewrite (shows_count _ _ _ _ H), length_cons, length_app, E1.
  cbn [mbind res_bind]. cmp.
  replace (Z.to_nat (bytesRequired n)) with (length (be_min n)) by lia.
  rewrite (read_length_spec d p (be_min n) [t] rest 0 0 H eq_refl).
  change (foldl _ 0 (be_min n)) with (fromBigEndian 32 (be_min n)).
  rewrite fromBigEndian_value by (lia || apply be_min_ok).
  rewrite be_value_be_min, Z.mod_small by lia. cbn [mbind res_bind].
  rlp_consts. unfold SIZE_MAX. by cmp.
Qed.

(** What the reader sees at the start of an encoding. *)
Record head_view (d : vector_ref) (it : item) : Prop := {
  hv_null : isNull d = false;
  hv_good : requireGood mem d = Ok tt;
  hv_length : rlp_length mem d = Ok (len (payload_of it));
  hv_offset : payloadOffset mem d = Ok (len (prefix_of it));
  hv_single : isSingleByte mem d = Ok (bool_decide (prefix_of it = []));
  hv_list : isList mem d = Ok (is_lst it);
  hv_data : isData mem d = Ok (negb (is_lst it))
}.

(** The first byte decides whether the value is a string or a list. *)
Lemma head_kind d p t bs :
  shows d p (t :: bs) -> isList mem d = Ok (192 <=? t) /\ isData mem d = Ok (t <? 192).
Proof.
  intros H. unfold isList, isData.
  by rewrite (shows_not_null _ _ _ _ H), (at_head _ _ _ _ H).
Qed.

(** One small byte is its own payload. *)
Lemma head_small d p x rest :
  0 <= x < 128 -> shows d p (x :: rest) -> head_view d (Str [x]).
Proof.
  intros Hx H. pose proof (at_head _ _ _ _ H) as E0.
  pose proof (shows_not_null _ _ _ _ H) as EN.
  destruct (head_kind _ _ _ _ H) as [EL ED].
  assert (requireGood mem d = Ok tt) as EG.
  { unfold requireGood. rewrite EN, E0. cbn [mbind res_bind]. rlp_consts. by cmp. }
  constructor; simpl; [done | done | | | | |].
  - unfold rlp_length. rewrite EN, EG, E0. cbn [mbind res_bind]. rlp_consts. by cmp.
  - unfold payloadOffset, isSingleByte. rewrite EN, E0. cbn [mbind res_bind]. rlp_consts.
    by cmp.
  - unfold isSingleByte. rewrite EN, E0. cbn [mbind res_bind]. rlp_consts. by cmp.
  - rewrite EL. by cmp.
  - rewrite ED. by cmp.
Qed.

(** The first byte of a header. *)
Definition tag (base n : Z) : Z := if n <? 56 then base + n else base + 55 + bytesRequired n.

Lemma header_tag base n :
  header base n = tag base n :: (if n <? 56 then [] else be_min n).
Proof. unfold header, tag. by case_bool. Qed.

Lemma requireGood_header d p base n body rest :
  (base = 128 \/ base = 192) -> n = len body -> n < 2 ^ 32 ->
  (base = 128 -> forall x, body = [x] -> 128 <= x) ->
  shows d p (header base n ++ body ++ rest) -> requireGood mem d = Ok tt.
Proof.
  intros Hbase Hn HL Hone H. rewrite header_tag in H.
  unfold requireGood. rewrite (shows_not_null _ _ _ _ H), (at_head _ _ _ _ H).
  cbn [mbind res_bind]. rlp_consts.
  destruct (Z.eqb_spec (tag base n) (128 + 1)) as [Et |]; [simpl | done].
  assert (n = 1 /\ base = 128) as [En Eb].
  { unfold tag in Et. destruct (Z.ltb_spec n 56); [lia |].
    pose proof (bytesRequired_56 n). lia. }
  destruct body as [|x [|y body]]; [simpl in *; lia | | simpl in *; lia].
  rewrite En in H. change (1 <? 56) with true in H. simpl in H.
  rewrite (shows_count _ _ _ _ H), (at_second _ _ _ _ _ H), !length_cons.
  specialize (Hone Eb x eq_refl). simpl. by cmp.
Qed.

(** A header announces the length of its payload. *)
Lemma rlp_length_header d p base n body rest :
  (base = 128 \/ base = 192) -> n = len body -> n < RLP_LIMIT ->
  (base = 128 -> forall x, body = [x] -> 128 <= x) ->
  shows d p (header base n ++ body ++ rest) -> rlp_length mem d = Ok n.
Proof.
  intros Hbase Hn HL Hone H. unfold RLP_LIMIT, SIZE_MAX in HL.
  assert (requireGood mem d = Ok tt) as EG by (eapply requireGood_header; eauto; lia).
  rewrite header_tag in H.
  unfold rlp_length. rewrite (shows_not_null _ _ _ _ H), EG, (at_head _ _ _ _ H).
  cbn [mbind res_bind]. unfold tag in *. rlp_consts.
  destruct (Z.ltb_spec n 56).
  - destruct Hbase as [-> | ->]; cmp; f_equal; lia.
  - pose proof (bytesRequired_56 n ltac:(lia)).
    assert (long_length mem d (bytesRequired n) = Ok n) as EL.
    { apply (long_length_spec d p (base + 55 + bytesRequired n) n (body ++ rest)); [unfold RLP_LIMIT, SIZE_MAX; lia | exact H]. }
    destruct Hbase as [-> | ->]; cmp; (etransitivity; [| exact EL]); f_equal; lia.
Qed.

Lemma payloadOffset_header d p base n bs :
  (base = 128 \/ base = 192) -> 0 <= n < 2 ^ 32 ->
  shows d p (header base n ++ bs) -> payloadOffset mem d = Ok (len (header base n)).
Proof.
  intros Hbase Hn H. rewrite len_header by lia. rewrite header_tag in H.
  unfold payloadOffset, isSingleByte, lengthSize.
  rewrite (shows_not_null _ _ _ _ H), (at_head _ _ _ _ H). cbn [mbind res_bind].
  unfold tag. rlp_consts. destruct (Z.ltb_spec n 56).
  - destruct Hbase as [-> | ->]; cmp; done.
  - pose proof (bytesRequired_56 n ltac:(lia)).
    destruct Hbase as [-> | ->]; cmp; simpl; f_equal; lia.
Qed.

(** Every encoding, whatever follows it, is read back piece by piece. *)
Lemma head_spec d p it rest :
  item_ok it -> shows d p (enc it ++ rest) -> head_view d it.
Proof.
  intros [HL HS] H. unfold RLP_LIMIT, SIZE_MAX in HS.
  assert (forall base n bs, shows d p (header base n ++ bs) -> 0 <= n < 2 ^ 32 ->
            (base = 128 \/ base = 192) ->
            isNull d = false /\ isList mem d = Ok (base =? 192) /\
            isData mem d = Ok (base =? 128) /\ isSingleByte mem d = Ok false) as HK.
  { intros base n bs Hs Hn Hbase. rewrite header_tag in Hs.
    destruct (head_kind _ _ _ _ Hs) as [-> ->].
    unfold isSingleByte. rewrite (shows_not_null _ _ _ _ Hs), (at_head _ _ _ _ Hs).
    split; [done |]. unfold tag. cbn [mbind res_bind]. rlp_consts.
    destruct (Z.ltb_spec n 56); [| pose proof (bytesRequired_56 n ltac:(lia))];
      destruct Hbase as [-> | ->]; repeat split; f_equal; cmp; done. }
  destruct it as [b | l].
  - destruct (enc_str_cases b) as [(x & -> & Hx & E) | [Hb E]].
    + simpl in HL. apply bytes_ok_cons in HL as [Hx' _]. unfold is_byte in Hx'.
      simpl in H, E. rewrite E in H. eapply head_small; [lia | exact H].
    + cbn [enc] in H, HS. rewrite E in H, HS. rewrite <- app_assoc in H.
      rewrite length_app in HS.
      destruct (HK _ _ _ H) as (K1 & K2 & K3 & K4); [lia | by left |].
      assert (prefix_of (Str b) = header 128 (len b)) as EP.
      { destruct b as [|x [|y b]]; [done | | done]. specialize (Hb x eq_refl). simpl. by cmp. }
      constructor; [done | | | rewrite EP | by rewrite K4, EP, header_tag | done | done].
      * apply (requireGood_header d p 128 (len b) b rest); auto; lia.
      * apply (rlp_length_header d p 128 (len b) b rest); auto.
        unfold RLP_LIMIT, SIZE_MAX; lia.
      * apply (payloadOffset_header d p 128 (len b) (b ++ rest)); auto; lia.
  - cbn [enc] in H, HS. unfold enc_payload in H, HS. rewrite <- app_assoc in H.
    rewrite length_app in HS.
    destruct (HK _ _ _ H) as (K1 & K2 & K3 & K4); [lia | by right |].
    constructor; [done | | | | by cbn [prefix_of]; rewrite K4, header_tag | done | done].
    + apply (requireGood_header d p 192 (len (flat_map enc l)) (flat_map enc l) rest);
        auto; lia.
    + apply (rlp_length_header d p 192 (len (flat_map enc l)) (flat_map enc l) rest);
        auto; [unfold RLP_LIMIT, SIZE_MAX |]; lia.
    + apply (payloadOffset_header d p 192 (len (flat_map enc l)) (flat_map enc l ++ rest));
        auto; lia.
Qed.

(** ** Sizes, payloads and construction *)

Lemma prefix_nil it : prefix_of it = [] -> exists x, it = Str [x].
Proof.
  destruct it as [[|x [|y b]] | l]; cbn [prefix_of]; rewrite ?header_tag; naive_solver.
Qed.

Lemma actual_spec d p it rest :
  item_ok it -> shows d p (enc it ++ rest) -> actualSize mem d = Ok (len (enc it)).
Proof.
  intros HI H. destruct (head_spec _ _ _ _ HI H). destruct HI as [_ HS].
  unfold actualSize. rewrite hv_null0, hv_single0. cbn [mbind res_bind].
  rewrite (enc_split it) in HS |- *. rewrite length_app in HS |- *.
  case_bool_decide as EP.
  - destruct (prefix_nil it EP) as [x E]. by rewrite EP, E.
  - rewrite hv_offset0, hv_length0. cbn [mbind res_bind]. unfold RLP_LIMIT, SIZE_MAX in HS.
    rewrite wrap_small by lia. f_equal. lia.
Qed.

Lemma payload_spec d p it rest :
  item_ok it -> shows d p (enc it ++ rest) -> len (enc it ++ rest) < SIZE_MAX ->
  payload mem d = Ok (mk_ref (Some (p + len (prefix_of it))) (len (payload_of it))) /\
  shows (mk_ref (Some (p + len (prefix_of it))) (len (payload_of it)))
        (p + len (prefix_of it)) (payload_of it).
Proof.
  intros HI H HL. destruct (head_spec _ _ _ _ HI H).
  unfold payload. rewrite hv_length0, hv_offset0. cbn [mbind res_bind].
  rewrite enc_split, <- app_assoc in H, HL.
  pose proof (shows_cropped _ _ _ _ _ _ H HL) as HC.
  rewrite (shows_count _ _ _ _ H). rewrite !length_app in *. cmp.
  rewrite (shows_eq _ _ _ _ HC) in *. by rewrite (shows_eq _ _ _ _ HC) in HC.
Qed.

Lemma new_small d p it rest flags :
  item_ok it -> shows d p (enc it ++ rest) ->
  has flags FailIfTooBig = false \/ rest = [] ->
  RLP_new mem d flags = Ok (fresh d).
Proof.
  intros HI H Hf. pose proof (actual_spec _ _ _ _ HI H) as EA.
  unfold RLP_new. rewrite EA. cbn [mbind res_bind].
  rewrite (shows_count _ _ _ _ H), length_app.
  assert ((if has flags FailIfTooBig
           then if len (enc it) <? Z.of_nat (length (enc it) + length rest)
                then if has flags ThrowOnFail then platon_throw "over size rlp" else Ok vr_null
                else Ok d
           else Ok d) = Ok d) as ->.
  { destruct Hf as [-> | ->]; [done |]. case_bool; [| done]. simpl. by cmp. }
  cbn [mbind res_bind]. case_bool; [| done]. rewrite EA. cbn [mbind res_bind]. by cmp.
Qed.

Lemma new_exact d p it flags :
  item_ok it -> shows d p (enc it) -> RLP_new mem d flags = Ok (fresh d).
Proof.
  intros HI H. apply (new_small d p it []); [done | by rewrite app_nil_r | by right].
Qed.

Lemma sizeAsEncoded_spec d p it rest :
  item_ok it -> shows d p (enc it ++ rest) -> sizeAsEncoded mem d = Ok (len (enc it)).
Proof.
  intros HI H. unfold sizeAsEncoded.
  rewrite (new_small d p it rest) by (done || by left). simpl. by eapply actual_spec.
Qed.

Lemma new_null d flags : vr_count d = 0 -> RLP_new mem d flags = Ok (fresh d).
Proof.
  intros E. unfold RLP_new, actualSize, isNull. rewrite E. simpl.
  repeat (case_bool; simpl; try rewrite E; simpl); done.
Qed.

Lemma sizeAsEncoded_null d : vr_count d = 0 -> sizeAsEncoded mem d = Ok 0.
Proof.
  intros E. unfold sizeAsEncoded. rewrite new_null by done. simpl.
  unfold actualSize, isNull. by rewrite E.
Qed.

Lemma cropped_first p (a b : bytes) :
  len (a ++ b) < SIZE_MAX ->
  vr_cropped (mk_ref (Some p) (len (a ++ b))) 0 (len a) = mk_ref (Some p) (len a).
Proof.
  intros HL. unfold vr_cropped. simpl. rewrite length_app in *. unfold SIZE_MAX in *.
  rewrite wrap_small by lia. cmp. simpl. cmp. f_equal. f_equal. lia.
Qed.

(** A view of a sequence of encodings, split at the first. *)
Lemma shows_sequence q x l :
  shows (mk_ref (Some q) (len (flat_map enc (x :: l)))) q (flat_map enc (x :: l)) ->
  shows (mk_ref (Some q) (len (enc x))) q (enc x) /\
  shows (mk_ref (Some (q + len (enc x))) (len (flat_map enc l))) (q + len (enc x))
        (flat_map enc l).
Proof.
  intros H. simpl flat_map in H. split.
  - pose proof (shows_part mem _ q [] (enc x) (flat_map enc l) H) as HP.
    by rewrite Z.add_0_r in HP.
  - rewrite <- (app_nil_r (flat_map enc l)) in H.
    by pose proof (shows_part mem _ q (enc x) (flat_map enc l) [] H).
Qed.

(** ** Counting *)

Lemma items_loop_spec l q fuel i :
  shows (mk_ref (Some q) (len (flat_map enc l))) q (flat_map enc l) ->
  len (flat_map enc l) < SIZE_MAX -> Forall item_ok l ->
  (length l < fuel)%nat -> 0 <= i -> i + len l < 2 ^ 32 ->
  items_loop mem fuel (mk_ref (Some q) (len (flat_map enc l))) i = Ok (i + len l).
Proof.
  revert q fuel i. induction l as [|x l IH]; intros q fuel i H HL HF Hfuel Hi Hb;
    destruct fuel as [|fuel]; try (simpl in *; lia).
  - simpl. f_equal. lia.
  - destruct (shows_sequence _ _ _ H) as [_ H2]. apply Forall_cons in HF as [Hx HF].
    pose proof (enc_nonempty x). cbn [items_loop vr_count].
    simpl flat_map in *. rewrite length_app in *. cmp.
    rewrite (sizeAsEncoded_spec _ q x (flat_map enc l)) by done. cbn [mbind res_bind].
    unfold vr_cropped_from. cbn [vr_data vr_count]. cmp.
    replace (Z.of_nat (length (enc x) + length (flat_map enc l)) - len (enc x))
      with (len (flat_map enc l)) by lia.
    rewrite length_cons in *. rewrite wrap_small by lia.
    rewrite IH; [f_equal; lia | done | lia | done | lia | lia | lia].
Qed.

Lemma length_flat_map l : len l <= len (flat_map enc l).
Proof.
  induction l as [|x l IH]; [done |]. simpl flat_map. rewrite length_app, length_cons.
  pose proof (enc_nonempty x). lia.
Qed.

Lemma lst_payload_bound l : item_ok (Lst l) -> len (flat_map enc l) < RLP_LIMIT.
Proof.
  intros [_ H]. simpl in H. rewrite len_enc_payload in H.
  pose proof (header_pos 192 (len (flat_map enc l))). lia.
Qed.

Lemma items_spec d p l :
  item_ok (Lst l) -> shows d p (enc (Lst l)) -> items mem d = Ok (len l).
Proof.
  intros HI H. pose proof H as H0. rewrite <- (app_nil_r (enc (Lst l))) in H.
  destruct (head_spec _ _ _ _ HI H). pose proof (lst_payload_bound l HI) as HP.
  destruct (payload_spec _ _ _ _ HI H) as [EP HS].
  { rewrite app_nil_r. destruct HI as [_ HB]. unfold RLP_LIMIT in HB. lia. }
  unfold items. rewrite hv_list0. cbn [mbind res_bind is_lst]. rewrite EP.
  cbn [mbind res_bind vr_count payload_of] in *. pose proof (length_flat_map l).
  unfold RLP_LIMIT, SIZE_MAX in *.
  apply items_loop_spec; [done | unfold SIZE_MAX; lia | by apply item_ok_forall | lia | lia | lia].
Qed.

(** ** Iterating *)

Lemma iter_incr_spec q x l :
  shows (mk_ref (Some q) (len (flat_map enc (x :: l)))) q (flat_map enc (x :: l)) ->
  len (flat_map enc (x :: l)) < SIZE_MAX -> Forall item_ok l ->
  iter_incr mem (mkIter (len (flat_map enc l)) (mk_ref (Some q) (len (enc x))))
  = Ok (match l with
        | [] => mkIter 0 (mk_ref (Some (q + len (enc x))) 0)
        | y :: l' => mkIter (len (flat_map enc l'))
                            (mk_ref (Some (q + len (enc x))) (len (enc y)))
        end).
Proof.
  intros H HL HF. destruct (shows_sequence _ _ _ H) as [_ H2].
  unfold iter_incr. cbn [m_remaining m_currentItem vr_next vr_data vr_count].
  destruct l as [|y l]; [done |]. pose proof (enc_nonempty y).
  apply Forall_cons in HF as [Hy HF].
  simpl flat_map in *. rewrite !length_app in *. destruct (Z.eqb_spec (Z.of_nat (length (enc y) + length (flat_map enc l))) 0); [lia |].
  simpl negb. cbn iota. unfold vr_retarget.
  rewrite (sizeAsEncoded_spec _ (q + len (enc x)) y (flat_map enc l)) by done.
  cbn [mbind res_bind].
  rewrite <- (length_app (enc y) (flat_map enc l)).
  rewrite cropped_first by (rewrite length_app; lia). cbn [vr_count].
  rewrite length_app. f_equal. f_equal. lia.
Qed.

Lemma foreach_loop_spec {A} (body : A -> RLP -> res A) l q fuel acc rem :
  shows (mk_ref (Some q) (len (flat_map enc l))) q (flat_map enc l) ->
  len (flat_map enc l) < SIZE_MAX -> Forall item_ok l -> (length l < fuel)%nat ->
  foreach_loop mem fuel body
    (mkIter rem (mk_ref (Some (q + len (flat_map enc l))) 0))
    (match l with
     | [] => mkIter 0 (mk_ref (Some q) 0)
     | y :: l' => mkIter (len (flat_map enc l')) (mk_ref (Some q) (len (enc y)))
     end) acc
  = foldM (fun a r => body a (fresh r)) acc (item_refs q l).
Proof.
  revert q fuel acc. induction l as [|x l IH]; intros q fuel acc H HL HF Hfuel;
    destruct fuel as [|fuel]; try (simpl in *; lia).
  - simpl. unfold iter_eqb, vr_eqb. simpl. rewrite Z.add_0_r.
    by rewrite bool_decide_eq_true_2.
  - pose proof (iter_incr_spec q x l H HL) as EI.
    destruct (shows_sequence _ _ _ H) as [H1 H2].
    apply Forall_cons in HF as [Hx HF]. pose proof (enc_nonempty x).
    cbn [foreach_loop item_refs foldM]. unfold iter_eqb, vr_eqb.
    cbn [m_currentItem vr_data vr_count].
    destruct (Z.eqb_spec (len (enc x)) 0); [lia |]. rewrite andb_false_r.
    unfold iter_deref. cbn [m_currentItem]. rewrite (new_exact _ q x) by done.
    cbn [mbind res_bind]. destruct (body acc _) as [acc' | | | |]; try done.
    cbn [mbind res_bind]. rewrite EI by done. cbn [mbind res_bind].
    simpl flat_map in *. rewrite length_app in *.
    replace (q + Z.of_nat (length (enc x) + length (flat_map enc l)))
      with (q + len (enc x) + len (flat_map enc l)) by lia.
    apply IH; [done | lia | done | simpl in *; lia].
Qed.

(** The range-for loop visits the items of an encoded list in order, each as a
    fresh RLP object. *)
Lemma rlp_foreach_spec {A} (body : A -> RLP -> res A) d p l acc :
  item_ok (Lst l) -> shows d p (enc (Lst l)) ->
  rlp_foreach mem body d acc
  = foldM (fun a r => body a (fresh r)) acc
          (item_refs (p + len (prefix_of (Lst l))) l).
Proof.
  intros HI H. pose proof H as H0. rewrite <- (app_nil_r (enc (Lst l))) in H.
  destruct (head_spec _ _ _ _ HI H). pose proof (lst_payload_bound l HI) as HP.
  unfold RLP_LIMIT in HP.
  destruct (payload_spec _ _ _ _ HI H) as [EP HS].
  { rewrite app_nil_r. destruct HI as [_ HB]. unfold RLP_LIMIT in HB. lia. }
  unfold rlp_foreach, iter_new. rewrite hv_list0. cbn [mbind res_bind is_lst].
  rewrite EP. cbn [mbind res_bind payload_of] in *.
  set (q := p + len (prefix_of (Lst l))) in *.
  assert (exists s, sizeAsEncoded mem (mk_ref (Some q) (len (flat_map enc l))) = Ok s /\
           mkIter (u32 (len (flat_map enc l)
                        - vr_count (vr_cropped (mk_ref (Some q) (len (flat_map enc l))) 0 s)))
                  (vr_cropped (mk_ref (Some q) (len (flat_map enc l))) 0 s)
           = match l with
             | [] => mkIter 0 (mk_ref (Some q) 0)
             | y :: l' => mkIter (len (flat_map enc l')) (mk_ref (Some q) (len (enc y)))
             end) as (s & ES & EI).
  { destruct l as [|y l'].
    - exists 0. split; [by apply sizeAsEncoded_null |]. simpl.
      unfold vr_cropped. simpl. by rewrite Z.add_0_r.
    - exists (len (enc y)). apply item_ok_forall, Forall_cons in HI as [Hy _].
      split; [by apply (sizeAsEncoded_spec _ q y (flat_map enc l')) |].
      simpl flat_map in *. rewrite cropped_first by lia. cbn [vr_count].
      rewrite length_app in *. unfold SIZE_MAX in HP. rewrite wrap_small by lia.
      f_equal. lia. }
  rewrite ES. cbn [mbind res_bind vr_count]. rewrite EI.
  assert (vr_cropped_from d (vr_count d)
          = mk_ref (Some (q + len (flat_map enc l))) 0) as ->.
  { unfold vr_cropped_from. destruct H0 as (-> & -> & _). cmp.
    simpl enc. rewrite len_enc_payload. unfold q. simpl prefix_of. f_equal; f_equal; lia. }
  apply foreach_loop_spec; [done | lia | by apply item_ok_forall |].
  pose proof (length_flat_map l). rewrite (shows_count _ _ _ _ H0). simpl enc.
  rewrite len_enc_payload. lia.
Qed.

(** ** Indexing through the cache *)

(** The view the cache holds for position [k]. *)
Lemma item_at_view q l k :
  shows (mk_ref (Some q) (len (flat_map enc l))) q (flat_map enc l) ->
  len (flat_map enc l) < SIZE_MAX -> Forall item_ok l -> (k <= length l)%nat ->
  let off := len (flat_map enc (take k l)) in
  let it := vr_cropped_from (mk_ref (Some q) (len (flat_map enc l))) off in
  let n := match l !! k with Some x => len (enc x) | None => 0 end in
  sizeAsEncoded mem it = Ok n /\ vr_cropped it 0 n = mk_ref (Some (q + off)) n /\
  off + n = len (flat_map enc (take (S k) l)) /\ off + n <= len (flat_map enc l).
Proof.
  intros H HL HF Hk off it n.
  rewrite <- (take_drop k l) in H at 2. rewrite flat_map_app in H.
  pose proof (shows_cropped_from _ _ _ _ _ H) as HC. fold off it in HC.
  assert (len (flat_map enc l) = off + len (flat_map enc (drop k l))) as EL.
  { unfold off. rewrite <- (take_drop k l) at 1. rewrite flat_map_app, length_app. lia. }
  rewrite (shows_eq _ _ _ _ HC) in HC |- *. clearbody it. clear it.
  destruct (l !! k) as [x |] eqn:Ex; subst n; simpl.
  - rewrite (drop_S l x k Ex) in *. simpl flat_map in *.
    split; [apply (sizeAsEncoded_spec _ (q + off) x (flat_map enc (drop (S k) l))); [|done]
           | split; [| split]].
    + rewrite Forall_forall in HF. apply HF. by eapply list_elem_of_lookup_2.
    + apply cropped_first. lia.
    + rewrite (take_S_r l k x Ex), flat_map_app, length_app. simpl. rewrite app_nil_r.
      unfold off. lia.
    + rewrite EL, length_app. lia.
  - apply lookup_ge_None in Ex. rewrite drop_ge in * by lia. simpl in *.
    split; [by apply sizeAsEncoded_null |]. unfold vr_cropped. simpl.
    split; [f_equal; f_equal; lia |]. split; [| lia].
    unfold off. rewrite !take_ge by lia. lia.
Qed.

Section Index.
Context (d : vector_ref) (p : Z) (l : list item).
Context (HI : item_ok (Lst l)) (H : shows d p (enc (Lst l))).

Let q := p + len (prefix_of (Lst l)).

Lemma list_payload :
  payload mem d = Ok (mk_ref (Some q) (len (flat_map enc l))) /\
  shows (mk_ref (Some q) (len (flat_map enc l))) q (flat_map enc l).
Proof using All.
  pose proof H as H'. rewrite <- (app_nil_r (enc (Lst l))) in H'.
  apply (payload_spec _ _ _ _ HI H'). rewrite app_nil_r.
  destruct HI as [_ HB]. unfold RLP_LIMIT in HB. lia.
Qed.

Lemma list_bound : len l <= len (flat_map enc l) < SIZE_MAX - 256.
Proof using HI.
  pose proof (length_flat_map l). pose proof (lst_payload_bound l HI). done.
Qed.

(** The cache standing at position [k]. *)
Definition cache_at (k : nat) : RLP :=
  mkRLP d (Z.of_nat k) (len (flat_map enc (take (S k) l)))
        (mk_ref (Some (q + len (flat_map enc (take k l))))
                (match l !! k with Some x => len (enc x) | None => 0 end)).

Lemma index_loop_spec i fuel k :
  (k <= length l)%nat -> 0 <= i -> (length l - k < fuel)%nat ->
  index_loop mem fuel (cache_at k) i
  = Ok (cache_at (if Z.of_nat k <? i then Z.to_nat (Z.min i (len l)) else k)).
Proof using All.
  intros Hk Hi. revert k Hk. induction fuel as [|fuel IH]; intros k Hk Hf; [lia |].
  destruct list_payload as [EP HS]. pose proof list_bound as HB. unfold SIZE_MAX in HB.
  cbn [index_loop].
  change (m_data (cache_at k)) with d. change (m_lastIndex (cache_at k)) with (Z.of_nat k).
  change (m_lastEnd (cache_at k)) with (len (flat_map enc (take (S k) l))).
  change (vr_count (m_lastItem (cache_at k)))
    with (match l !! k with Some x => len (enc x) | None => 0 end).
  destruct (Z.ltb_spec (Z.of_nat k) i) as [Hki |]; [| done].
  destruct (l !! k) as [x |] eqn:Ex.
  - pose proof (lookup_lt_Some _ _ _ Ex). pose proof (enc_nonempty x).
    destruct (Z.eqb_spec (len (enc x)) 0); [lia |]. cbn [negb andb].
    rewrite EP. cbn [mbind res_bind].
    destruct (item_at_view q l (S k) HS) as (E1 & E2 & E3 & E4);
      [unfold SIZE_MAX; lia | by apply item_ok_forall | lia |].
    rewrite E1. cbn [mbind res_bind]. rewrite E2. cbn [vr_count].
    rewrite E3, !wrap_small by lia.
    replace (Z.of_nat k + 1) with (Z.of_nat (S k)) by lia.
    fold (cache_at (S k)). rewrite IH by lia. f_equal. f_equal. cmp; lia.
  - apply lookup_ge_None in Ex. cbn [negb andb Z.eqb]. f_equal. f_equal. lia.
Qed.

(** Starting over puts the cache at position 0. *)
Lemma cache_restart :
  (p0 ← payload mem d;
   e ← sizeAsEncoded mem p0;
   p' ← payload mem d;
   Ok (mkRLP d 0 e (vr_cropped p' 0 e))) = Ok (cache_at 0).
Proof using All.
  destruct list_payload as [EP HS]. pose proof list_bound as HB.
  rewrite EP. cbn [mbind res_bind].
  destruct (item_at_view q l 0 HS) as (S1 & S2 & S3 & S4);
    [lia | by apply item_ok_forall | lia |].
  unfold vr_cropped_from in S1, S2. cbn [vr_data vr_count] in S1, S2.
  change (len (flat_map enc (take 0 l))) with 0 in *.
  rewrite Z.add_0_r, Z.sub_0_r in *.
  destruct (Z.leb_spec 0 (len (flat_map enc l))); [| lia].
  rewrite S1. cbn [mbind res_bind]. rewrite S2.
  unfold cache_at. change (len (flat_map enc (take 0 l))) with 0.
  rewrite Z.add_0_r, <- S3. by rewrite Z.add_0_l.
Qed.

(** [operator[]] returns the same item whatever the cache held, and leaves a
    good cache: the cache is invisible. *)
Lemma rlp_index_spec r i :
  m_data r = d -> cache_ok q l r -> 0 <= i < SIZE_MAX ->
  exists r', rlp_index mem r i
    = Ok (fresh (match l !! Z.to_nat i with
                 | Some x => mk_ref (Some (q + len (flat_map enc (take (Z.to_nat i) l))))
                                    (len (enc x))
                 | None => mk_ref (Some (q + len (flat_map enc l))) 0
                 end), r')
    /\ m_data r' = d /\ cache_ok q l r'.
Proof using All.
  intros Ed HC Hi. destruct list_payload as [EP HS]. pose proof list_bound as HB.
  assert (exists k, (k <= length l)%nat /\ Z.of_nat k <= i /\
    (if i <? m_lastIndex r
     then p0 ← payload mem (m_data r);
          e ← sizeAsEncoded mem p0;
          p' ← payload mem (m_data r);
          Ok (mkRLP (m_data r) 0 e (vr_cropped p' 0 e))
     else Ok r) = Ok (cache_at k)) as (k & Hk & Hki & E1).
  { destruct HC as [EM | (k & Hk & C1 & C2 & C3)];
      [| destruct (Z.ltb_spec i (m_lastIndex r)) as [Hlt |]].
    1: rewrite EM; destruct (Z.ltb_spec i SIZE_MAX); [| lia].
    3: { exists k. repeat split; [done | lia |]. unfold cache_at.
         destruct r as [rd ri re rit]; simpl in *. by subst. }
    all: exists 0%nat; repeat split; [lia | lia |];
      rewrite Ed; apply cache_restart. }
  unfold rlp_index. rewrite E1. cbn [mbind res_bind].
  rewrite index_loop_spec; [| done | lia |].
  2: { rewrite Ed, (shows_count _ _ _ _ H). simpl enc. rewrite len_enc_payload. lia. }
  cbn [mbind res_bind].
  set (k' := if Z.of_nat k <? i then Z.to_nat (Z.min i (len l)) else k).
  assert (k' = Z.to_nat (Z.min i (len l))) as Ek by (unfold k'; cmp; lia).
  assert (cache_ok q l (cache_at k')) as HC'.
  { right. exists k'. repeat split. lia. }
  destruct (item_at_view q l k' HS) as (S1 & S2 & S3 & S4);
    [lia | by apply item_ok_forall | lia |].
  exists (cache_at k'). split; [| done].
  rewrite <- (take_drop k' l) in HS at 2. rewrite flat_map_app in HS.
  change (m_lastItem (cache_at k')) with
    (mk_ref (Some (q + len (flat_map enc (take k' l))))
            (match l !! k' with Some x => len (enc x) | None => 0 end)).
  destruct (l !! k') as [x |] eqn:Ex.
  - pose proof (lookup_lt_Some _ _ _ Ex). assert (k' = Z.to_nat i) as E by lia.
    rewrite (drop_S l x _ Ex) in HS. simpl flat_map in HS.
    pose proof (shows_part mem _ _ _ _ _ HS) as HP.
    erewrite new_exact; [| | exact HP].
    2: { eapply item_ok_elem; [exact HI | by eapply list_elem_of_lookup_2]. }
    rewrite <- E, Ex. done.
  - apply lookup_ge_None in Ex. rewrite new_null by done.
    rewrite (lookup_ge_None_2 l (Z.to_nat i)) by lia.
    cbn [mbind res_bind]. by rewrite take_ge by lia.
Qed.
End Index.
End Facts.
