(* ===== verification/RlpConvert.v ===== *)
(** * Theorems about the conversions of the RLP reader

    What toBytes, toString, toInt, toSignedInt, toBool, toHash, toVector, toSet, toPair
    and toArray of RlpReader return on the encoding of a value, for every value and
    every set of flags. *)

From S2P Require Import Prelude Common RlpSpec VectorRef RlpReader RlpReaderFacts.

(** A string starts with a zero byte: not the canonical form of an integer. *)
Definition leading_zero (b : bytes) : bool := bool_decide (head b = Some 0).

(** What [toInt] makes of a value. *)
Definition int_of (w flags : Z) (it : item) : res Z :=
  match it with
  | Lst _ => bad_cast flags 0
  | Str b =>
      if (leading_zero b && negb (has flags AllowNonCanon))
         || ((w / 8 <? len b) && has flags FailIfTooBig)
      then bad_cast flags 0
      else Ok (be_value b mod 2 ^ w)
  end.

(** What [toHash] makes of a value: the string aligned to the right of [N] bytes. *)
Definition hash_of (N flags : Z) (it : item) : res bytes :=
  match it with
  | Lst _ => bad_cast flags (replicate (Z.to_nat N) 0)
  | Str b =>
      if ((N <? len b) && has flags FailIfTooBig) || ((len b <? N) && has flags FailIfTooSmall)
      then bad_cast flags (replicate (Z.to_nat N) 0)
      else Ok (replicate (Z.to_nat (N - len b)) 0 ++ ztake N b)
  end.

Section Convert.
Context (mem : bytes).

Lemma item_room it : item_ok it -> len (enc it) < SIZE_MAX.
Proof. intros [_ H]. unfold RLP_LIMIT in H. lia. Qed.

Lemma head_exact d p it : item_ok it -> shows mem d p (enc it) -> head_view mem d it.
Proof. intros HI H. apply (head_spec mem d p it []); [done | by rewrite app_nil_r]. Qed.

Lemma payload_exact d p it :
  item_ok it -> shows mem d p (enc it) ->
  let pl := mk_ref (Some (p + len (prefix_of it))) (len (payload_of it)) in
  payload mem d = Ok pl /\ shows mem pl (p + len (prefix_of it)) (payload_of it).
Proof.
  intros HI H. apply (payload_spec mem d p it []); rewrite ?app_nil_r; try done.
  by apply item_room.
Qed.

Lemma toBytes_spec d p it flags :
  item_ok it -> shows mem d p (enc it) ->
  toBytes mem flags d = match it with Str b => Ok b | Lst _ => bad_cast flags [] end.
Proof.
  intros HI H. destruct (head_exact d p it HI H).
  destruct (payload_exact d p it HI H) as [EP HP].
  unfold toBytes. rewrite hv_data. cbn [mbind res_bind]. destruct it as [b | l]; [| done].
  rewrite EP, hv_length. cbn [mbind res_bind is_lst negb]. by apply (shows_read _ _ _ _ HP).
Qed.

Lemma rlp_toString_spec d p it flags :
  item_ok it -> shows mem d p (enc it) ->
  rlp_toString mem flags d = match it with Str b => Ok b | Lst _ => bad_cast flags [] end.
Proof.
  intros HI H. destruct (head_exact d p it HI H).
  destruct (payload_exact d p it HI H) as [EP HP].
  unfold rlp_toString. rewrite hv_data. cbn [mbind res_bind]. destruct it as [b | l]; [| done].
  rewrite EP, hv_length. cbn [mbind res_bind is_lst negb payload_of].
  pose proof (item_room _ HI) as HR. pose proof (len_enc_str_le b). cbn [enc] in HR.
  assert (forall q r, shows mem r q b -> shows mem (vr_cropped r 0 (len b)) q b) as HC0.
  { intros q r Hr. rewrite <- (app_nil_r b) in Hr.
    pose proof (shows_cropped _ _ _ [] b [] Hr) as HC. rewrite app_nil_r in HC.
    rewrite Z.add_0_r in HC. apply HC. simpl. lia. }
  pose proof (HC0 _ _ HP) as HC. cbn [payload_of] in HC.
  unfold vr_toString. rewrite (shows_count _ _ _ _ HC). by apply (shows_read _ _ _ _ HC).
Qed.

Lemma leading_zero_cons x b : leading_zero (x :: b) = (x =? 0).
Proof.
  unfold leading_zero. simpl. destruct (Z.eqb_spec x 0) as [-> |].
  - by rewrite bool_decide_eq_true_2.
  - rewrite bool_decide_eq_false_2; congruence.
Qed.

(** The first byte of a string is the byte [isInt] looks at. *)
Lemma isInt_spec d p b :
  item_ok (Str b) -> shows mem d p (enc (Str b)) -> isInt mem d = Ok (negb (leading_zero b)).
Proof.
  intros HI H. destruct (head_exact d p _ HI H). pose proof (item_room _ HI) as HR.
  unfold isInt. rewrite hv_null, hv_good. cbn [mbind res_bind]. rlp_consts.
  cbn [enc] in H, HR. pose proof (len_enc_str_le b). unfold SIZE_MAX in HR.
  destruct (enc_str_cases b) as [(x & -> & Hx & E) | [Hb E]]; rewrite E in H.
  { rewrite (at_head _ _ _ _ _ H). cbn [mbind res_bind]. rewrite leading_zero_cons.
    destruct HI as [HI _]. simpl in HI. apply bytes_ok_cons in HI as [Hx' _].
    unfold is_byte in Hx'. by cmp. }
  rewrite header_tag in H. simpl in H. rewrite (at_head _ _ _ _ _ H).
  cbn [mbind res_bind]. rewrite (shows_count _ _ _ _ H).
  unfold tag in *. destruct b as [|x b]; [done |].
  rewrite leading_zero_cons.
  rewrite length_cons in H. destruct (Z.ltb_spec (Z.of_nat (S (length b))) 56) as [Hs | Hs];
    rewrite length_cons in *.
  - destruct (Z.ltb_spec (Z.of_nat (S (length b))) 56); [| lia].
    simpl in H. rewrite (at_second _ _ _ _ _ _ H), !length_cons. cbn [mbind res_bind].
    rewrite app_nil_l, length_cons. by cmp.
  - destruct (Z.ltb_spec (Z.of_nat (S (length b))) 56); [lia |].
    set (n := Z.of_nat (S (length b))) in *.
    pose proof (bytesRequired_56 n ltac:(unfold n; lia)) as HB.
    rewrite length_cons, length_app, length_cons. pose proof (len_be_min n ltac:(lia)) as HL.
    replace (1 + (128 + 55 + bytesRequired n) - (128 + (192 - 128 - 8) - 1))
      with (1 + bytesRequired n) by lia.
    assert (vr_at mem d (1 + bytesRequired n) = Ok x) as ->; [| cbn [mbind res_bind]; by cmp].
    rewrite (shows_at _ _ _ _ _ H), zget_cons_pos, zget_app_r by lia.
    by replace (1 + bytesRequired n - 1 - len (be_min n)) with 0 by lia.
Qed.

Lemma isInt_list d p l : item_ok (Lst l) -> shows mem d p (enc (Lst l)) -> isInt mem d = Ok false.
Proof.
  intros HI H. destruct (head_exact d p _ HI H). pose proof (item_room _ HI) as HR.
  simpl in H, HR. unfold enc_payload in H, HR. rewrite header_tag in H, HR.
  simpl in H, HR. unfold SIZE_MAX in HR. rewrite length_app in HR.
  unfold isInt. rewrite hv_null, hv_good, (at_head _ _ _ _ _ H). cbn [mbind res_bind].
  unfold tag. rlp_consts.
  destruct (Z.ltb_spec (len (flat_map enc l)) 56);
    [| pose proof (bytesRequired_56 (len (flat_map enc l)) ltac:(lia))]; by cmp.
Qed.

(** [toInt] on any value: big-endian value modulo the width, unless the value is a
    list, has a leading zero or is too long for the flags given. *)
Lemma toInt_item d p w flags it :
  0 <= w -> item_ok it -> shows mem d p (enc it) -> toInt mem w flags d = int_of w flags it.
Proof.
  intros Hw HI H. destruct (head_exact d p it HI H).
  destruct (payload_exact d p it HI H) as [EP HP].
  unfold toInt. rewrite hv_good. cbn [mbind res_bind]. destruct it as [b | l].
  - rewrite (isInt_spec d p b) by done. rewrite hv_list, hv_null, EP. cbn [mbind res_bind is_lst].
    rewrite negb_involutive, !orb_false_r. cbn [int_of].
    destruct (leading_zero b && negb (has flags AllowNonCanon)); [done |]. cbn [orb vr_count payload_of].
    destruct ((w / 8 <? len b) && has flags FailIfTooBig); [done |].
    unfold vr_toBytes. cbn [payload_of vr_count] in *. rewrite (shows_read _ _ _ _ HP).
    cbn [mbind res_bind]. destruct HI as [HI _]. simpl in HI. by rewrite fromBigEndian_value.
  - rewrite (isInt_list d p l) by done. rewrite hv_list. cbn [mbind res_bind is_lst].
    by rewrite orb_true_r.
Qed.

Lemma toHash_item d p N flags it :
  0 <= N -> item_ok it -> shows mem d p (enc it) -> toHash mem N flags d = hash_of N flags it.
Proof.
  intros HN HI H. destruct (head_exact d p it HI H).
  destruct (payload_exact d p it HI H) as [EP HP].
  unfold toHash. rewrite hv_good, EP, hv_data. cbn [mbind res_bind vr_count].
  destruct it as [b | l]; [| done]. cbn [is_lst negb orb hash_of payload_of] in *.
  case_bool; [done |].
  assert (vr_read mem (mk_ref (Some (p + len (prefix_of (Str b)))) (len b)) (Z.min N (len b))
          = Ok (ztake N b)) as ->.
  { destruct HP as (_ & _ & H1 & H2 & H3). unfold vr_read. cbn [vr_data].
    case_bool; bool_hyps.
    { destruct (Z.eq_dec N 0) as [-> |]; [done |]. destruct b; [| simpl in *; lia].
      unfold ztake. by rewrite take_nil. }
    cmp. cbn [andb]. f_equal. rewrite slice_ztake by lia. by rewrite H3. }
  cbn [mbind res_bind]. do 3 f_equal.
  destruct (Z.le_ge_cases N (len b)); [rewrite Z.min_l by lia | rewrite Z.min_r by lia]; lia.
Qed.

(** ** Lists *)

(** Each element converted on its own view, in order. *)
Lemma item_refs_shows q l k x :
  shows mem (mk_ref (Some q) (len (flat_map enc l))) q (flat_map enc l) ->
  l !! k = Some x ->
  exists q', item_refs q l !! k = Some (mk_ref (Some q') (len (enc x))) /\
             q' = q + len (flat_map enc (take k l)) /\
             shows mem (mk_ref (Some q') (len (enc x))) q' (enc x).
Proof.
  revert q k. induction l as [|y l IH]; intros q k H Hk; [done |].
  destruct (shows_sequence mem q y l H) as [H1 H2]. destruct k as [|k]; simpl in *.
  - injection Hk as ->. exists q. rewrite Z.add_0_r. done.
  - destruct (IH _ _ H2 Hk) as (q' & E1 & E2 & E3). exists q'. split; [done |].
    split; [| done]. rewrite length_app. lia.
Qed.

Lemma item_refs_lookup q l k :
  item_refs q l !! k =
  (fun x => mk_ref (Some (q + len (flat_map enc (take k l)))) (len (enc x))) <$> l !! k.
Proof.
  revert q k. induction l as [|y l IH]; intros q k; [done |]. destruct k as [|k]; cbn.
  - by rewrite Z.add_0_r.
  - rewrite IH. destruct (l !! k); [| done]. cbn. rewrite length_app. do 3 f_equal. lia.
Qed.

(** A loop that converts every element and folds it into an accumulator. *)
Lemma foldM_refs {T A} (tree : T -> item) (conv : RLP -> res T) (g : A -> T -> A) xs q acc :
  shows mem (mk_ref (Some q) (len (flat_map enc (tree <$> xs)))) q
        (flat_map enc (tree <$> xs)) ->
  Forall (fun x => forall d q', shows mem d q' (enc (tree x)) -> conv (fresh d) = Ok x) xs ->
  foldM (fun a r => x ← conv (fresh r); Ok (g a x)) acc (item_refs q (tree <$> xs))
  = Ok (foldl g acc xs).
Proof.
  revert q acc. induction xs as [|x xs IH]; intros q acc H HF; [done |].
  rewrite fmap_cons in *. destruct (shows_sequence mem _ _ _ H) as [H1 H2].
  apply Forall_cons in HF as [Hx HF]. cbn [item_refs foldM foldl].
  rewrite (Hx _ _ H1). cbn [mbind res_bind]. by apply IH.
Qed.

(** The range-for loop over the encoding of a list of values. *)
Lemma foreach_values {T A} (tree : T -> item) (conv : RLP -> res T) (g : A -> T -> A) xs d p acc :
  item_ok (Lst (tree <$> xs)) -> shows mem d p (enc (Lst (tree <$> xs))) ->
  Forall (fun x => forall d q', shows mem d q' (enc (tree x)) -> conv (fresh d) = Ok x) xs ->
  rlp_foreach mem (fun a r => x ← conv r; Ok (g a x)) d acc = Ok (foldl g acc xs).
Proof.
  intros HI H HF. rewrite (rlp_foreach_spec mem _ d p (tree <$> xs)) by done.
  destruct (payload_exact d p _ HI H) as [_ HP]. by apply foldM_refs.
Qed.

(** Element [i] of a list through [operator[]], whatever the cache holds. *)
Lemma index_item d p l r i x :
  item_ok (Lst l) -> shows mem d p (enc (Lst l)) ->
  m_data r = d -> cache_ok (p + len (prefix_of (Lst l))) l r -> l !! i = Some x ->
  exists v q r', rlp_index mem r (Z.of_nat i) = Ok (fresh v, r') /\
    shows mem v q (enc x) /\ m_data r' = d /\ cache_ok (p + len (prefix_of (Lst l))) l r'.
Proof.
  intros HI H Ed HC Hi. destruct (payload_exact d p _ HI H) as [_ HP].
  pose proof (list_bound l HI). pose proof (lookup_lt_Some _ _ _ Hi).
  destruct (rlp_index_spec mem d p l HI H r (Z.of_nat i)) as (r' & E & E1 & E2); [done | done | lia |].
  rewrite Nat2Z.id, Hi in E.
  destruct (item_refs_shows _ l i x HP Hi) as (q & _ & -> & HS).
  by eexists _, _, r'.
Qed.

(** Past the end there is the null value. *)
Lemma index_past d p l r i :
  item_ok (Lst l) -> shows mem d p (enc (Lst l)) ->
  m_data r = d -> cache_ok (p + len (prefix_of (Lst l))) l r -> len l <= i < SIZE_MAX ->
  exists v r', rlp_index mem r i = Ok (fresh v, r') /\ isNull v = true.
Proof.
  intros HI H Ed HC Hi.
  destruct (rlp_index_spec mem d p l HI H r i) as (r' & E & _); [done | done | lia |].
  rewrite (lookup_ge_None_2 l) in E by lia. by eexists _, r'.
Qed.

Lemma itemCountStrict_spec d p it :
  item_ok it -> shows mem d p (enc it) ->
  itemCountStrict mem d = match it with Lst l => Ok (len l) | Str _ => platon_throw "bad cast" end.
Proof.
  intros HI H. destruct (head_exact d p it HI H). unfold itemCountStrict. rewrite hv_list.
  cbn [mbind res_bind]. destruct it as [b | l]; [done |]. cbn [is_lst negb].
  by apply (items_spec mem d p).
Qed.

(** What a view read as [T] is: every conversion the lists below use. *)
Definition converts {T} (tree : T -> item) (conv : RLP -> res T) (x : T) : Prop :=
  forall d q, shows mem d q (enc (tree x)) -> conv (fresh d) = Ok x.

Lemma foldl_snoc {T} (acc xs : list T) : foldl (fun a x => a ++ [x]) acc xs = acc ++ xs.
Proof.
  revert acc. induction xs as [|x xs IH]; intros acc; simpl; [by rewrite app_nil_r |].
  by rewrite IH, <- app_assoc.
Qed.

Lemma toVector_values {T} (tree : T -> item) (conv : RLP -> res T) xs flags d p :
  item_ok (Lst (tree <$> xs)) -> shows mem d p (enc (Lst (tree <$> xs))) ->
  Forall (converts tree conv) xs -> toVector mem conv flags d = Ok xs.
Proof.
  intros HI H HF. destruct (head_exact d p _ HI H). unfold toVector. rewrite hv_list.
  cbn [mbind res_bind is_lst]. unfold itemCount. rewrite hv_list. cbn [mbind res_bind is_lst].
  rewrite (items_spec mem d p _ HI H). cbn [mbind res_bind].
  rewrite (foreach_values tree conv (fun a x => a ++ [x]) xs d p []) by done.
  by rewrite foldl_snoc.
Qed.

Lemma toSet_values {T} (tree : T -> item) (insert : T -> list T -> list T)
    (conv : RLP -> res T) xs flags d p :
  item_ok (Lst (tree <$> xs)) -> shows mem d p (enc (Lst (tree <$> xs))) ->
  Forall (converts tree conv) xs ->
  toSet mem insert conv flags d = Ok (foldl (fun s x => insert x s) [] xs).
Proof.
  intros HI H HF. destruct (head_exact d p _ HI H). unfold toSet. rewrite hv_list.
  cbn [mbind res_bind is_lst].
  by rewrite (foreach_values tree conv (fun a x => insert x a) xs d p []).
Qed.

Lemma toPair_values {T U} (tree : T -> item) (tree' : U -> item) conv conv' x y dflt flags d p :
  item_ok (Lst [tree x; tree' y]) -> shows mem d p (enc (Lst [tree x; tree' y])) ->
  converts tree conv x -> converts tree' conv' y ->
  toPair mem conv conv' dflt flags (fresh d) = Ok (x, y).
Proof.
  intros HI H Hx Hy. unfold toPair. cbn [m_data fresh].
  rewrite (itemCountStrict_spec d p _ HI H). cbn [mbind res_bind length Z.of_nat Z.eqb negb].
  destruct (index_item d p _ (fresh d) 0 (tree x) HI H) as (v & q & r & E & HS & Ed & HC);
    [done | by left | done |].
  change (Z.of_nat 0) with 0 in E. rewrite E. cbn [mbind res_bind]. rewrite (Hx _ _ HS). cbn [mbind res_bind].
  destruct (index_item d p _ r 1 (tree' y) HI H) as (v' & q' & r' & E' & HS' & _ & _);
    [done | done | done |].
  change (Z.of_nat 1) with 1 in E'. rewrite E'. cbn [mbind res_bind]. by rewrite (Hy _ _ HS').
Qed.

Lemma array_loop_values {T} (tree : T -> item) conv xs d p :
  item_ok (Lst (tree <$> xs)) -> shows mem d p (enc (Lst (tree <$> xs))) ->
  Forall (converts tree conv) xs ->
  forall k i r, m_data r = d ->
    cache_ok (p + len (prefix_of (Lst (tree <$> xs)))) (tree <$> xs) r ->
    (i + k = length xs)%nat ->
    array_loop mem conv k (Z.of_nat i) r = Ok (drop i xs).
Proof.
  intros HI H HF. induction k as [|k IH]; intros i r Ed HC Hk.
  { simpl. by rewrite drop_ge by lia. }
  destruct (lookup_lt_is_Some_2 xs i ltac:(lia)) as [x Hx].
  destruct (index_item d p _ r i (tree x) HI H) as (v & q & r' & E & HS & Ed' & HC');
    [done | done | by rewrite list_lookup_fmap, Hx |].
  cbn [array_loop]. rewrite E. cbn [mbind res_bind].
  rewrite Forall_lookup in HF. rewrite (HF i x Hx _ _ HS). cbn [mbind res_bind].
  replace (Z.of_nat i + 1) with (Z.of_nat (S i)) by lia.
  rewrite IH by (done || lia). cbn [mbind res_bind]. by rewrite (drop_S xs x i).
Qed.

Lemma toArray_values {T} (tree : T -> item) conv xs dflt flags d p :
  item_ok (Lst (tree <$> xs)) -> shows mem d p (enc (Lst (tree <$> xs))) ->
  Forall (converts tree conv) xs ->
  toArray mem conv (len xs) dflt flags (fresh d) = Ok xs.
Proof.
  intros HI H HF. unfold toArray. cbn [m_data fresh].
  rewrite (itemCountStrict_spec d p _ HI H), length_fmap. cbn [mbind res_bind].
  rewrite Z.eqb_refl, Nat2Z.id. cbn [negb].
  apply (array_loop_values tree conv xs d p HI H HF _ 0); [done | by left | lia].
Qed.
End Convert.

(** ** Main theorems *)

(** The view of one encoded value in memory, whatever is around it. *)
Definition view_of (pre : bytes) (it : item) : vector_ref :=
  mk_ref (Some (len pre)) (len (enc it)).

Lemma view_shows pre it post : shows (pre ++ enc it ++ post) (view_of pre it) (len pre) (enc it).
Proof.
  repeat split; cbn [view_of vr_data vr_count]; try lia.
  - rewrite !length_app. lia.
  - by apply slice_app_exact.
Qed.

(** [toInt] of any RLP value, for any integer width and any flags: the big-endian
    value modulo 2^w; a list, a leading zero byte (unless [AllowNonCanon]) and a payload
    too long for the type (with [FailIfTooBig]) are bad casts. *)
Theorem toInt_total (pre post : bytes) (it : item) (w flags : Z) :
  0 <= w -> item_ok it ->
  toInt (pre ++ enc it ++ post) w flags (view_of pre it) =
  match it with
  | Lst _ => bad_cast flags 0
  | Str b =>
      if (leading_zero b && negb (has flags AllowNonCanon))
         || ((w / 8 <? len b) && has flags FailIfTooBig)
      then bad_cast flags 0
      else Ok (be_value b mod 2 ^ w)
  end.
Proof. intros Hw HI. apply (toInt_item _ _ _ _ _ _ Hw HI (view_shows pre it post)). Qed.

(** [toHash] of any RLP value: the payload aligned to the right of a hash of zeros,
    cut to the size of the hash; a wrong length is a bad cast under the flags for it. *)
Theorem toHash_total (pre post : bytes) (it : item) (N flags : Z) :
  0 <= N -> item_ok it ->
  toHash (pre ++ enc it ++ post) N flags (view_of pre it) =
  match it with
  | Lst _ => bad_cast flags (replicate (Z.to_nat N) 0)
  | Str b =>
      if ((N <? len b) && has flags FailIfTooBig) || ((len b <? N) && has flags FailIfTooSmall)
      then bad_cast flags (replicate (Z.to_nat N) 0)
      else Ok (replicate (Z.to_nat (N - len b)) 0 ++ ztake N b)
  end.
Proof. intros HN HI. apply (toHash_item _ _ _ _ _ _ HN HI (view_shows pre it post)). Qed.

(** A sequence of list accesses through the one cache of an RLP object. *)
Fixpoint index_all (mem : bytes) (r : RLP) (ix : list Z) : res (list vector_ref) :=
  match ix with
  | [] => Ok []
  | i :: ix' =>
      '(it, r') ← rlp_index mem r i;
      rest ← index_all mem r' ix';
      Ok (m_data it :: rest)
  end.

(** The view of element [i] of a list, or an empty view at its end. *)
Definition element_view (pre : bytes) (l : list item) (i : Z) : vector_ref :=
  let q := len pre + len (prefix_of (Lst l)) in
  match l !! Z.to_nat i with
  | Some x => mk_ref (Some (q + len (flat_map enc (take (Z.to_nat i) l)))) (len (enc x))
  | None => mk_ref (Some (q + len (flat_map enc l))) 0
  end.

(** C19. The indexing cache is invisible: any sequence of accesses [rlp[i]], in any
    order, gives for each index exactly the bytes of that element, and the null value
    past the end. *)
Theorem index_any_order (pre post : bytes) (l : list item) (ix : list Z) :
  item_ok (Lst l) -> Forall (fun i => 0 <= i < SIZE_MAX) ix ->
  index_all (pre ++ enc (Lst l) ++ post) (fresh (view_of pre (Lst l))) ix
  = Ok (element_view pre l <$> ix).
Proof.
  intros HI HF. pose proof (view_shows pre (Lst l) post) as HS.
  set (mem := pre ++ enc (Lst l) ++ post) in *. set (d := view_of pre (Lst l)) in *.
  assert (forall r, m_data r = d -> cache_ok (len pre + len (prefix_of (Lst l))) l r ->
          index_all mem r ix = Ok (element_view pre l <$> ix)) as HG;
    [| by apply HG; [| left]].
  induction HF as [|i ix Hi _ IH]; intros r Ed HC; [done |].
  destruct (rlp_index_spec mem d (len pre) l HI HS r i Ed HC Hi) as (r' & E & Ed' & HC').
  cbn [index_all]. rewrite E. cbn [mbind res_bind]. rewrite (IH r' Ed' HC').
  cbn [mbind res_bind]. by rewrite fmap_cons.
Qed.

(** A range-for loop over an encoded list visits its elements in order, each once. *)
Theorem foreach_visits_all (pre post : bytes) (l : list item) :
  item_ok (Lst l) ->
  rlp_foreach (pre ++ enc (Lst l) ++ post) (fun acc i => Ok (acc ++ [m_data i]))
    (view_of pre (Lst l)) []
  = Ok (element_view pre l <$> seqZ 0 (len l)).
Proof.
  intros HI. rewrite (rlp_foreach_spec _ _ _ _ l [] HI (view_shows pre (Lst l) post)).
  assert (forall acc q, foldM (fun a r => Ok (a ++ [m_data (fresh r)])) acc (item_refs q l)
            = Ok (acc ++ item_refs q l)) as ->.
  { clear HI. induction l as [|x l' IH]; intros acc q; [by rewrite app_nil_r |]. cbn.
    by rewrite IH, <- app_assoc. }
  cbn [app]. f_equal. apply list_eq. intros k.
  rewrite list_lookup_fmap, item_refs_lookup.
  destruct (l !! k) as [x |] eqn:Ex.
  - pose proof (lookup_lt_Some _ _ _ Ex). rewrite lookup_seqZ_lt by lia. cbn.
    unfold element_view. by rewrite Z.add_0_l, Nat2Z.id, Ex.
  - apply lookup_ge_None in Ex. by rewrite lookup_seqZ_ge by lia.
Qed.

(** The reader's view of the head determines the kind of the value and the lengths of
    its two parts, so no encoding is a proper prefix of another. *)
Lemma enc_heads a b r s :
  item_ok a -> item_ok b -> enc a ++ r = enc b ++ s ->
  is_lst a = is_lst b /\ payload_of a = payload_of b /\ r = s.
Proof.
  intros Ha Hb E. set (mem := enc a ++ r). set (d := mk_ref (Some 0) (len mem)).
  assert (shows mem d 0 mem) as HS.
  { repeat split; cbn; try lia. unfold slice. rewrite zdrop_0. by apply ztake_all. }
  destruct (head_spec mem d 0 a r Ha HS) as [_ _ L1 O1 _ K1 _].
  assert (shows mem d 0 (enc b ++ s)) as HSb by (rewrite <- E; exact HS).
  destruct (head_spec mem d 0 b s Hb HSb) as [_ _ L2 O2 _ K2 _].
  rewrite K1 in K2. injection K2 as K2. rewrite L1 in L2. injection L2 as L2.
  rewrite O1 in O2. injection O2 as O2. split; [done |].
  rewrite !enc_split, <- !app_assoc in E.
  apply app_inj_1 in E as [_ E]; [| lia]. by apply app_inj_1 in E; [| lia].
Qed.

Lemma enc_prefix_free_gen a : forall b r s,
  item_ok a -> item_ok b -> enc a ++ r = enc b ++ s -> a = b /\ r = s.
Proof.
  induction a as [x | l IH] using item_induction; intros b r s Ha Hb E;
    destruct (enc_heads _ b r s Ha Hb E) as (EL & EP & Er); (split; [| done]);
    destruct b as [y | m]; try done; cbn [payload_of] in EP; [by f_equal |].
  f_equal. pose proof (item_ok_forall l Ha) as Hl. pose proof (item_ok_forall m Hb) as Hm.
  clear Ha Hb E EL Er. revert m EP Hm. induction IH as [|x l Hx _ IHl]; intros [|y m] EP Hm.
  - done.
  - cbn in EP. pose proof (enc_nonempty y). destruct (enc y); [simpl in *; lia | done].
  - cbn in EP. pose proof (enc_nonempty x). destruct (enc x); [simpl in *; lia | done].
  - apply Forall_cons in Hl as [Hxk Hl]. apply Forall_cons in Hm as [Hyk Hm].
    cbn in EP. destruct (Hx y _ _ Hxk Hyk EP) as [-> EP']. f_equal. by apply IHl.
Qed.

Lemma enc_inj a b : item_ok a -> item_ok b -> enc a = enc b -> a = b.
Proof. intros Ha Hb E. apply (enc_prefix_free_gen a b [] []); [done | done | by rewrite E]. Qed.

(** [bs] is the value [it] followed by [rest]. *)
Definition reads_as (bs : bytes) (it : item) (rest : bytes) : Prop :=
  item_ok it /\ bs = enc it ++ rest.

(** RLP encodings are prefix-free: a value is determined by any byte string that
    starts with its encoding, so concatenated items and storage keys never collide. *)
Theorem enc_prefix_free (bs : bytes) (a b : item) (r s : bytes) :
  reads_as bs a r -> reads_as bs b s -> a = b /\ r = s.
Proof. intros [Ha ->] [Hb E]. by apply enc_prefix_free_gen. Qed.

Definition sample_list : list item := [Str [1; 0]; Lst [Str []]; Str [100]].

Lemma sample_list_ok : item_ok (Lst sample_list).
Proof.
  split; [| vm_compute; reflexivity].
  repeat split; repeat constructor; unfold is_byte; lia.
Qed.

Lemma toInt_total_witness :
  toInt ([9] ++ enc (Str [1; 0]) ++ [7]) 16 Strict (view_of [9] (Str [1; 0])) = Ok 256.
Proof.
  etransitivity; [apply (toInt_total [9] [7] (Str [1; 0]) 16 Strict) | reflexivity].
  - lia.
  - split; [| vm_compute; reflexivity]. repeat constructor; unfold is_byte; lia.
Defined.

Lemma toHash_total_witness :
  toHash ([9] ++ enc (Str [1; 0]) ++ [7]) 4 Strict (view_of [9] (Str [1; 0])) = Ok [0; 0; 1; 0].
Proof.
  etransitivity; [apply (toHash_total [9] [7] (Str [1; 0]) 4 Strict) | reflexivity].
  - lia.
  - split; [| vm_compute; reflexivity]. repeat constructor; unfold is_byte; lia.
Defined.

Lemma index_any_order_witness :
  index_all ([5] ++ enc (Lst sample_list) ++ []) (fresh (view_of [5] (Lst sample_list))) [2; 0; 1; 7]
  = Ok [mk_ref (Some 7) 1; mk_ref (Some 2) 3; mk_ref (Some 5) 2; mk_ref (Some 8) 0].
Proof.
  etransitivity; [apply (index_any_order [5] [] sample_list [2; 0; 1; 7]) | reflexivity].
  - apply sample_list_ok.
  - repeat constructor; unfold SIZE_MAX; lia.
Defined.

Lemma foreach_visits_all_witness :
  rlp_foreach ([5] ++ enc (Lst sample_list) ++ [6]) (fun acc i => Ok (acc ++ [m_data i]))
    (view_of [5] (Lst sample_list)) []
  = Ok [mk_ref (Some 2) 3; mk_ref (Some 5) 2; mk_ref (Some 7) 1].
Proof.
  etransitivity; [apply (foreach_visits_all [5] [6] sample_list) | reflexivity].
  apply sample_list_ok.
Defined.

Lemma enc_prefix_free_witness :
  reads_as [198; 130; 1; 0; 193; 128; 100; 7] (Lst sample_list) [7] /\
  (Lst sample_list = Lst sample_list /\ [7] = [7]).
Proof.
  split; [split; [apply sample_list_ok | reflexivity] |].
  apply (enc_prefix_free [198; 130; 1; 0; 193; 128; 100; 7]).
  - split; [apply sample_list_ok | reflexivity].
  - split; [apply sample_list_ok | reflexivity].
Defined.
