(* ===== verification/RlpSafety.v ===== *)
(** * Safety of the RLP reader on arbitrary bytes

    Contract input is not trusted. Whatever the bytes are, an RLP object built with
    the flags of [sizeAsEncoded] or of the default constructor is read without
    leaving the bytes, and every loop of the reader ends. *)

From S2P Require Import Prelude Common RlpSpec VectorRef RlpReader RlpReaderFacts.

(** The encoded size the first bytes announce fits in the view. *)
Definition whole (mem : bytes) (d : vector_ref) : Prop :=
  vr_ok mem d /\
  (isNull d = true \/
   exists l o, rlp_length mem d = Ok l /\ payloadOffset mem d = Ok o /\
               actualSize mem d = Ok (o + l) /\ 0 <= l /\ 0 <= o /\ 1 <= o + l <= vr_count d).

(** ... and is the size of the view: what the default constructor checks. *)
Definition exact (mem : bytes) (d : vector_ref) : Prop :=
  whole mem d /\ (isNull d = true \/ actualSize mem d = Ok (vr_count d)).

Section Safety.
Context (mem : bytes) (Hmem : bytes_ok mem).

Lemma at_ok d i :
  vr_ok mem d -> 0 <= i < vr_count d -> exists b, vr_at mem d i = Ok b /\ is_byte b.
Proof using Hmem.
  unfold vr_ok, vr_at. intros H Hi. destruct (vr_data d) as [p |]; [| lia].
  destruct (zget_in mem (p + i)) as [b Eb]; [lia |]. cmp. cbn [andb].
  rewrite Eb. by eauto.
Qed.

(** Replaces a read of the goal by the byte it returns. *)
Ltac read_at d i :=
  let b := fresh "b" in let E := fresh "E" in let Hb := fresh "Hb" in
  destruct (at_ok d i) as (b & E & Hb); [done | lia |];
  rewrite ?E; unfold is_byte in Hb; cbn [mbind res_bind].

Lemma count_pos d : vr_ok mem d -> isNull d = false -> 0 < vr_count d < SIZE_MAX.
Proof.
  unfold vr_ok, isNull. intros H E. bool_hyps. destruct (vr_data d); lia.
Qed.

Lemma isList_ok d : vr_ok mem d -> exists b, isList mem d = Ok b.
Proof using Hmem.
  intros H. unfold isList. destruct (isNull d) eqn:E; [by eauto |].
  pose proof (count_pos d H E). read_at d 0. by eauto.
Qed.

Lemma isData_ok d : vr_ok mem d -> exists b, isData mem d = Ok b.
Proof using Hmem.
  intros H. unfold isData. destruct (isNull d) eqn:E; [by eauto |].
  pose proof (count_pos d H E). read_at d 0. by eauto.
Qed.

Lemma requireGood_cases d :
  vr_ok mem d -> isNull d = false ->
  requireGood mem d = Ok tt \/
  (exists m, requireGood mem d = Panic m) /\ isSingleByte mem d = Ok false.
Proof using Hmem.
  intros H E. unfold requireGood, isSingleByte. rewrite E.
  pose proof (count_pos d H E). read_at d 0. rlp_consts.
  destruct (Z.eqb_spec b (128 + 1)) as [-> |]; cbn [negb]; [| by left].
  case_bool; [by eauto |]. bool_hyps. read_at d 1. case_bool; by eauto.
Qed.

Lemma requireGood_safe d : vr_ok mem d -> defined (requireGood mem d).
Proof using Hmem.
  intros H. destruct (isNull d) eqn:E; [unfold requireGood; by rewrite E |].
  by destruct (requireGood_cases d H E) as [-> | [[m ->] _]].
Qed.

Lemma isInt_safe d : vr_ok mem d -> defined (isInt mem d).
Proof using Hmem.
  intros H. unfold isInt. destruct (isNull d) eqn:E; [done |].
  pose proof (count_pos d H E). apply bind_defined; [by apply requireGood_safe |].
  intros [] _. read_at d 0. rlp_consts.
  case_bool; [done |]. case_bool; [done |]. case_bool; bool_hyps.
  { case_bool; [done |]. bool_hyps. by read_at d 1. }
  case_bool; [| done]. case_bool; [done |]. bool_hyps.
  by read_at d (1 + b - (128 + (192 - 128 - 8) - 1)).
Qed.

Lemma read_length_safe d k i ret :
  vr_ok mem d -> 0 <= i -> i + Z.of_nat k < vr_count d ->
  exists n, read_length mem d k i ret = Ok n /\ (0 <= ret -> 0 <= n).
Proof using Hmem.
  intros H. revert i ret. induction k as [|k IH]; intros i ret Hi Hk; [by eauto |].
  cbn [read_length]. read_at d (i + 1).
  destruct (IH (i + 1) (u32 (Z.lor (Z.shiftl ret 8) b))) as (n & En & Hn); [lia | lia |].
  exists n. split; [done |]. intros _. apply Hn. apply wrap_range. lia.
Qed.

(** A length in its own bytes is rejected, or has at most four bytes and a value
    that leaves room for the prefix. *)
Lemma long_length_safe d n :
  vr_ok mem d -> isNull d = false -> 1 <= n ->
  (exists m, long_length mem d n = Panic m) \/
  (exists l, long_length mem d n = Ok l /\ 56 <= l < RLP_LIMIT /\ n <= 4).
Proof using Hmem.
  intros H E Hn. pose proof (count_pos d H E). unfold long_length.
  case_bool; [by eauto |]. bool_hyps. read_at d 1.
  cmp; cbn [mbind res_bind]; try by eauto.
  destruct (read_length_safe d (Z.to_nat n) 0 0) as (r & Er & Hr); [done | lia | lia |].
  rewrite Er. cbn [mbind res_bind]. rlp_consts. unfold RLP_LIMIT.
  case_bool; [by eauto |]. case_bool; [by eauto |]. bool_hyps. right. exists r.
  split; [done |]. lia.
Qed.

Ltac finish_head :=
  right; eexists _, _; split; [done |]; split; [done |];
  rewrite wrap_small by lia; repeat split; lia.

(** The head of any non-null view: rejected, or of a known size. *)
Lemma head_safe d :
  vr_ok mem d -> isNull d = false ->
  (exists m, rlp_length mem d = Panic m /\ isSingleByte mem d = Ok false) \/
  exists l o, rlp_length mem d = Ok l /\ payloadOffset mem d = Ok o /\
              actualSize mem d = Ok (o + l) /\ 0 <= l < RLP_LIMIT /\ 0 <= o <= 5 /\ 1 <= o + l.
Proof using Hmem.
  intros H E. pose proof (count_pos d H E) as HC.
  destruct (requireGood_cases d H E) as [EG | [[m EG] HS]].
  2: { left. exists m. unfold rlp_length. rewrite E, EG. by auto. }
  unfold actualSize, payloadOffset, isSingleByte, lengthSize, rlp_length.
  rewrite E, EG. cbn [mbind res_bind].
  read_at d 0.
  assert (forall n, 1 <= n -> (exists m, long_length mem d n = Panic m) \/
    (exists l, long_length mem d n = Ok l /\ 56 <= l < RLP_LIMIT /\ n <= 4)) as HL
    by (intros n Hn; by apply long_length_safe).
  rlp_consts. unfold RLP_LIMIT, SIZE_MAX in *.
  destruct (Z.ltb_spec b 128).
  { right. exists 1, 0. repeat split; lia. }
  destruct (Z.leb_spec b (128 + (192 - 128 - 8) - 1)).
  { cmp; cbn [andb mbind res_bind]; finish_head. }
  destruct (Z.ltb_spec b 192).
  { destruct (HL (b - (128 + (192 - 128 - 8) - 1)) ltac:(lia)) as [[m ->] | (l & -> & Hl & Hn)];
      [left; exists m; by auto |].
    cmp; cbn [andb mbind res_bind]; finish_head. }
  destruct (Z.leb_spec b (192 + (256 - 192 - 8) - 1)).
  { cmp; cbn [andb mbind res_bind]; finish_head. }
  destruct (HL (b - (192 + (256 - 192 - 8) - 1)) ltac:(lia)) as [[m ->] | (l & -> & Hl & Hn)];
    [left; exists m; by auto |].
  cmp; cbn [andb mbind res_bind]; finish_head.
Qed.

Lemma payloadOffset_ok d : vr_ok mem d -> exists o, payloadOffset mem d = Ok o.
Proof using Hmem.
  intros H. unfold payloadOffset, isSingleByte, lengthSize.
  destruct (isNull d) eqn:E; [by eauto |]. pose proof (count_pos d H E).
  read_at d 0. case_bool; [by eauto |]. case_bool; [by eauto |]. case_bool; by eauto.
Qed.

(** The announced size of any view: rejected, or the sum of its two parts. *)
Lemma actual_safe d :
  vr_ok mem d -> isNull d = false ->
  (exists m, actualSize mem d = Panic m) \/
  exists l o, rlp_length mem d = Ok l /\ payloadOffset mem d = Ok o /\
              actualSize mem d = Ok (o + l) /\ 0 <= l /\ 0 <= o /\ 1 <= o + l.
Proof using Hmem.
  intros H E. destruct (head_safe d H E) as [(m & EL & ES) | (l & o & ? & ? & ? & ? & ? & ?)].
  - left. exists m. destruct (payloadOffset_ok d H) as [o EO].
    unfold actualSize. by rewrite E, ES, EO, EL.
  - right. exists l, o. repeat split; (done || lia).
Qed.

Lemma null_size d : isNull d = true -> actualSize mem d = Ok 0.
Proof. intros E. unfold actualSize. by rewrite E. Qed.

Lemma null_count d : isNull d = true -> vr_count d = 0.
Proof. unfold isNull. intros. by bool_hyps. Qed.

(** The constructor: with [ThrowOnFail | FailIfTooSmall] a view that is too short is
    rejected; with [FailIfTooBig] so is one that is too long. *)
Lemma new_safe d s :
  vr_ok mem d -> has s ThrowOnFail = true -> has s FailIfTooSmall = true ->
  defined (RLP_new mem d s) /\
  (forall r, RLP_new mem d s = Ok r ->
     r = fresh d /\ whole mem d /\ (has s FailIfTooBig = true -> exact mem d)).
Proof using Hmem.
  intros H HT HS. destruct (isNull d) eqn:E.
  { assert (whole mem d) by (split; auto).
    assert (exact mem d) by (split; auto).
    rewrite new_null by by apply null_count. split; [done |]. by intros r [= <-]. }
  unfold RLP_new. rewrite HT, HS.
  destruct (actual_safe d H E) as [[m EM] | (l & o & EL & EO & EA & Hl & Ho & Hs)].
  { by destruct (has s FailIfTooBig); cbn [mbind res_bind]; rewrite EM. }
  assert (o + l <= vr_count d -> whole mem d) as HW.
  { intros. split; [done |]. right. exists l, o. repeat split; (done || lia). }
  destruct (has s FailIfTooBig); cbn [mbind res_bind]; rewrite EA; cbn [mbind res_bind].
  - destruct (Z.ltb_spec (o + l) (vr_count d)); [done |]. cbn [mbind res_bind].
    rewrite EA. cbn [mbind res_bind]. destruct (Z.ltb_spec (vr_count d) (o + l)); [done |].
    cbn [mbind res_bind]. split; [done |]. intros r [= <-].
    specialize (HW ltac:(lia)). split; [done |]. split; [done |]. intros _. split; [done |].
    right. rewrite EA. f_equal. lia.
  - destruct (Z.ltb_spec (vr_count d) (o + l)); [done |].
    cbn [mbind res_bind]. split; [done |]. intros r [= <-].
    specialize (HW ltac:(lia)). done.
Qed.

Lemma sizeAsEncoded_safe d :
  vr_ok mem d ->
  (exists m, sizeAsEncoded mem d = Panic m) \/
  exists s, sizeAsEncoded mem d = Ok s /\ 0 <= s <= vr_count d /\
            (vr_count d <> 0 -> 1 <= s).
Proof using Hmem.
  intros H. destruct (isNull d) eqn:E.
  { right. exists 0. pose proof (null_count d E). rewrite sizeAsEncoded_null by done.
    split; [done | lia]. }
  destruct (new_safe d (Z.lor ThrowOnFail FailIfTooSmall)) as [HD HR]; [done | done | done |].
  unfold sizeAsEncoded.
  destruct (RLP_new mem d _) as [r | m | m | m |] eqn:EN; try done; cbn [mbind res_bind];
    [| by eauto |].
  - destruct (HR r eq_refl) as (-> & HW & _). cbn [m_data fresh].
    destruct HW as [_ [HW | (l & o & _ & _ & -> & ? & ? & ?)]]; [congruence |].
    right. exists (o + l). repeat split; lia.
  - exfalso. unfold RLP_new in EN.
    set (f := Z.lor ThrowOnFail FailIfTooSmall) in *.
    change (has f FailIfTooBig) with false in EN. change (has f FailIfTooSmall) with true in EN.
    change (has f ThrowOnFail) with true in EN. cbn in EN.
    destruct (actual_safe d H E) as [[k EA] | (l & o & _ & _ & EA & _)];
      rewrite EA in EN; cbn in EN; [done |]. by destruct (vr_count d <? o + l).
Qed.

(** The payload of a whole view lies inside it. *)
Lemma payload_safe d :
  whole mem d ->
  exists pl, payload mem d = Ok pl /\ vr_ok mem pl /\ rlp_length mem d = Ok (vr_count pl) /\
             vr_count pl <= vr_count d /\
             (isNull d = false -> exists p o, vr_data d = Some p /\ vr_data pl = Some (p + o) /\
                actualSize mem d = Ok (o + vr_count pl)).
Proof using Hmem.
  intros [H [E | (l & o & EL & EO & EA & Hl & Ho & Hs)]].
  - exists vr_null. unfold payload, rlp_length, payloadOffset, isSingleByte, lengthSize.
    rewrite E, (null_count d E). cbn [mbind res_bind Z.ltb Z.compare].
    unfold vr_cropped. rewrite (null_count d E). cbn [mbind res_bind].
    destruct (vr_data d); cbn; repeat split; (done || lia).
  - exists (vr_cropped d o l). unfold payload. rewrite EL, EO. cbn [mbind res_bind].
    destruct (Z.ltb_spec (vr_count d) l); [lia |].
    unfold vr_ok in H. unfold vr_cropped. unfold SIZE_MAX in *.
    destruct (vr_data d) as [p |] eqn:ED; [| lia].
    rewrite wrap_small by lia. cmp. cbn [andb].
    destruct (Z.eqb_spec l (2 ^ 32 - 1)); [lia |]. cbn [vr_count vr_data].
    split; [done |]. unfold vr_ok. cbn [vr_data vr_count]. unfold SIZE_MAX.
    repeat split; try done; try lia. intros _. exists p, o. done.
Qed.

Lemma read_safe d n : vr_ok mem d -> 0 <= n <= vr_count d -> defined (vr_read mem d n).
Proof.
  intros H Hn. unfold vr_ok, vr_read in *. case_bool; [done |]. bool_hyps.
  destruct (vr_data d); [| lia]. cmp. done.
Qed.

(** ** Conversions *)

Lemma bad_cast_safe {A} flags (x : A) : defined (bad_cast flags x).
Proof. unfold bad_cast. by case_bool. Qed.

Lemma toBytes_safe d flags : whole mem d -> defined (toBytes mem flags d).
Proof using Hmem.
  intros HW. destruct (isData_ok d (proj1 HW)) as [b E]. unfold toBytes. rewrite E.
  cbn [mbind res_bind]. case_bool; [apply bad_cast_safe |].
  destruct (payload_safe d HW) as (pl & -> & Hpl & -> & _). cbn [mbind res_bind].
  apply read_safe; [done |]. unfold vr_ok in Hpl. destruct (vr_data pl); lia.
Qed.

Lemma toString_safe d flags : whole mem d -> defined (rlp_toString mem flags d).
Proof using Hmem.
  intros HW. destruct (isData_ok d (proj1 HW)) as [b E]. unfold rlp_toString. rewrite E.
  cbn [mbind res_bind]. case_bool; [apply bad_cast_safe |].
  destruct (payload_safe d HW) as (pl & -> & Hpl & -> & _). cbn [mbind res_bind].
  unfold vr_toString. assert (0 <= vr_count pl < SIZE_MAX) as HC.
  { unfold vr_ok in Hpl. destruct (vr_data pl); [lia |]. unfold SIZE_MAX. lia. }
  unfold SIZE_MAX in HC.
  pose proof (vr_cropped_ok mem pl 0 (vr_count pl) Hpl) as HK.
  apply read_safe; [apply HK; lia |].
  specialize (HK ltac:(lia) ltac:(lia) ltac:(lia)). unfold vr_ok in HK.
  destruct (vr_data (vr_cropped _ _ _)); lia.
Qed.

Lemma toInt_safe d w flags : whole mem d -> defined (toInt mem w flags d).
Proof using Hmem.
  intros HW. pose proof (proj1 HW) as H. unfold toInt.
  apply bind_defined; [by apply requireGood_safe |]. intros [] _.
  apply bind_defined; [by apply isInt_safe |]. intros bi _.
  destruct (isList_ok d H) as [bl ->]. cbn [mbind res_bind].
  case_bool; [apply bad_cast_safe |].
  destruct (payload_safe d HW) as (pl & -> & Hpl & _). cbn [mbind res_bind].
  case_bool; [apply bad_cast_safe |]. apply bind_defined; [| done].
  apply read_safe; [done |]. unfold vr_ok in Hpl. destruct (vr_data pl); lia.
Qed.

Lemma toHash_safe d N flags : 0 <= N -> whole mem d -> defined (toHash mem N flags d).
Proof using Hmem.
  intros HN HW. pose proof (proj1 HW) as H. unfold toHash.
  apply bind_defined; [by apply requireGood_safe |]. intros [] _.
  destruct (payload_safe d HW) as (pl & -> & Hpl & _). cbn [mbind res_bind].
  destruct (isData_ok d H) as [bl ->]. cbn [mbind res_bind].
  case_bool; [apply bad_cast_safe |]. apply bind_defined; [| done].
  apply read_safe; [done |]. unfold vr_ok in Hpl. destruct (vr_data pl); lia.
Qed.

(** ** Loops *)

Lemma vr_ok_count d : vr_ok mem d -> 0 <= vr_count d < SIZE_MAX.
Proof. unfold vr_ok. destruct (vr_data d); [lia |]. unfold SIZE_MAX. lia. Qed.

Lemma crop_from_count d s :
  vr_ok mem d -> 0 <= s <= vr_count d -> vr_count (vr_cropped_from d s) = vr_count d - s.
Proof.
  unfold vr_ok, vr_cropped_from. intros H Hs. destruct (vr_data d); cmp; simpl; lia.
Qed.

Lemma crop_count d s :
  vr_ok mem d -> 0 <= s <= vr_count d ->
  vr_count (vr_cropped d 0 s) = s /\ vr_ok mem (vr_cropped d 0 s).
Proof.
  intros H Hs. pose proof (vr_ok_count d H) as HC. unfold SIZE_MAX in HC.
  split; [| apply vr_cropped_ok; lia || done].
  unfold vr_ok in H. unfold vr_cropped. destruct (vr_data d); [| cbn; lia].
  rewrite wrap_small by lia. unfold SIZE_MAX. by cmp.
Qed.

Lemma crop_data d s a :
  vr_ok mem d -> 0 <= s <= vr_count d -> vr_data d = Some a ->
  vr_data (vr_cropped d 0 s) = Some a.
Proof.
  intros H Hs Ea. pose proof (vr_ok_count d H) as HC. unfold vr_cropped, SIZE_MAX in *.
  rewrite Ea, wrap_small by lia. cmp; cbn; by rewrite Z.add_0_r.
Qed.

Lemma items_loop_safe fuel d i :
  vr_ok mem d -> vr_count d < Z.of_nat fuel -> defined (items_loop mem fuel d i).
Proof using Hmem.
  revert d i. induction fuel as [|fuel IH]; intros d i H Hf.
  { pose proof (vr_ok_count d H). lia. }
  cbn [items_loop]. destruct (Z.eqb_spec (vr_count d) 0); [done |].
  destruct (sizeAsEncoded_safe d H) as [[m ->] | (s & -> & Hs & Hs1)]; [done |].
  cbn [mbind res_bind]. apply IH; [apply vr_cropped_from_ok; lia || done |].
  rewrite crop_from_count by (done || lia). lia.
Qed.

Lemma itemCountStrict_safe d : whole mem d -> defined (itemCountStrict mem d).
Proof using Hmem.
  intros HW. unfold itemCountStrict, items. destruct (isList_ok d (proj1 HW)) as [b ->].
  cbn [mbind res_bind]. destruct b; [| done]. cbn [negb].
  destruct (payload_safe d HW) as (pl & -> & Hpl & _). cbn [mbind res_bind].
  apply items_loop_safe; [done |]. pose proof (vr_ok_count pl Hpl). lia.
Qed.

(** *** A view cut to the size it announces announces the same size *)

Lemma at_crop p n s i :
  0 <= i < s -> s <= n -> vr_at mem (mk_ref (Some p) s) i = vr_at mem (mk_ref (Some p) n) i.
Proof using Type. intros Hi Hs. unfold vr_at. cbn [vr_data vr_count]. by cmp. Qed.

Lemma read_length_crop p n s k : forall i ret,
  0 <= i -> i + Z.of_nat k < s -> s <= n ->
  read_length mem (mk_ref (Some p) s) k i ret = read_length mem (mk_ref (Some p) n) k i ret.
Proof using Type.
  induction k as [|k IH]; intros i ret Hi Hk Hs; [done |]. cbn [read_length].
  rewrite (at_crop p n s) by lia. destruct (vr_at mem (mk_ref (Some p) n) (i + 1)); try done.
  cbn [mbind res_bind]. by rewrite IH by lia.
Qed.

Lemma long_length_crop p n s ls l :
  1 <= ls -> ls < s <= n -> long_length mem (mk_ref (Some p) n) ls = Ok l ->
  long_length mem (mk_ref (Some p) s) ls = Ok l.
Proof using Type.
  intros Hl Hs. unfold long_length. cbn [vr_count].
  destruct (Z.leb_spec n ls); [lia |]. destruct (Z.leb_spec s ls); [lia |].
  rewrite (at_crop p n s) by lia. rewrite (read_length_crop p n s) by lia.
  destruct (Z.ltb_spec 1 n); [| lia]. by destruct (Z.ltb_spec 1 s); [| lia].
Qed.

Section Crop.
Context (p n s : Z) (H : vr_ok mem (mk_ref (Some p) n)) (Hs : 1 <= s <= n).
Abbreviation whole_view := (mk_ref (Some p) n).
Abbreviation cut_view := (mk_ref (Some p) s).

Lemma crop_not_null : isNull whole_view = false /\ isNull cut_view = false.
Proof using Hs. unfold isNull. cbn [vr_count]. split; apply Z.eqb_neq; lia. Qed.

Lemma offset_crop : isSingleByte mem cut_view = isSingleByte mem whole_view /\
  payloadOffset mem cut_view = payloadOffset mem whole_view.
Proof using Hs.
  destruct crop_not_null as [En Es]. unfold payloadOffset, isSingleByte, lengthSize.
  by rewrite En, Es, (at_crop p n s) by lia.
Qed.

Lemma requireGood_crop b :
  vr_at mem whole_view 0 = Ok b -> (b = 129 -> 2 <= s) -> requireGood mem whole_view = Ok tt ->
  requireGood mem cut_view = Ok tt.
Proof using Hs.
  destruct crop_not_null as [En Es]. unfold requireGood. rewrite En, Es, (at_crop p n s 0) by lia.
  intros -> Hb. cbn [mbind res_bind]. rlp_consts. cbn [vr_count].
  destruct (Z.eqb_spec b (128 + 1)) as [-> |]; cbn [negb]; [| done]. specialize (Hb eq_refl).
  destruct (Z.ltb_spec n 2); [lia |]. destruct (Z.ltb_spec s 2); [lia |]. by rewrite (at_crop p n s 1) by lia.
Qed.

Lemma length_crop l o :
  rlp_length mem whole_view = Ok l -> payloadOffset mem whole_view = Ok o -> o + l = s -> 0 <= l ->
  rlp_length mem cut_view = Ok l.
Proof using Hs H Hmem.
  destruct crop_not_null as [En Es]. destruct (at_ok whole_view 0 H) as (b & Eb & Hb); [cbn [vr_count]; lia |].
  unfold payloadOffset, isSingleByte, lengthSize, rlp_length. unfold is_byte in Hb.
  rewrite En, Es, (at_crop p n s 0), Eb by lia. cbn [mbind res_bind]. rlp_consts.
  intros (u & HG & HL)%bind_ok HO HS H0. destruct u.
  rewrite (requireGood_crop b Eb); [| | done]; cbn [mbind res_bind].
  - destruct (Z.ltb_spec b 128); [done |]. destruct (Z.leb_spec b (128 + (192 - 128 - 8) - 1)); [done |].
    destruct (Z.ltb_spec b 192); [| destruct (Z.leb_spec b (192 + (256 - 192 - 8) - 1)); [done |]];
      (apply (long_length_crop p n); [lia | | done]);
      revert HO; cmp; cbn [andb mbind res_bind]; intros [= <-]; lia.
  - intros ->. revert HO HL. cbn. intros [= <-] [= <-]. lia.
Qed.
End Crop.

Lemma actual_crop p n s :
  vr_ok mem (mk_ref (Some p) n) -> 1 <= s <= n -> actualSize mem (mk_ref (Some p) n) = Ok s ->
  actualSize mem (mk_ref (Some p) s) = Ok s.
Proof using Hmem.
  intros H Hs. destruct (crop_not_null p n s Hs) as [En Es]. destruct (offset_crop p n s Hs) as [E1 E2].
  destruct (actual_safe (mk_ref (Some p) n) H En) as [[m ->] | (l & o & EL & EO & EA & Hl & Ho & H1)]; [done |].
  rewrite EA. intros [= E]. rewrite E in EA. unfold actualSize in EA |- *. rewrite En, EO, EL in EA.
  by rewrite Es, E1, E2, EO, (length_crop p n s H Hs l o EL EO E Hl).
Qed.

(** An element of a payload, cut out by [sizeAsEncoded]. *)
Lemma crop_exact d s : vr_ok mem d -> sizeAsEncoded mem d = Ok s -> exact mem (vr_cropped d 0 s).
Proof using Hmem.
  intros H E. destruct (sizeAsEncoded_safe d H) as [[m E'] | (s' & E' & Hs & Hs1)]; [congruence |].
  replace s' with s in * by congruence. destruct (crop_count d s H Hs) as [EC HK].
  destruct (Z.eq_dec (vr_count d) 0) as [E0 | E0].
  { assert (isNull (vr_cropped d 0 s) = true) as EN by (unfold isNull; apply Z.eqb_eq; lia).
    split; [split |]; auto. }
  specialize (Hs1 E0). assert (actualSize mem (vr_cropped d 0 s) = Ok s) as EA.
  { assert (isNull d = false) as EN by (by apply Z.eqb_neq).
    destruct d as [[p |] n]; [| unfold vr_ok in H; cbn in *; lia].
    replace (vr_cropped (mk_ref (Some p) n) 0 s) with (mk_ref (Some p) s).
    - apply (actual_crop p n); [done | cbn [vr_count] in *; lia |].
      unfold sizeAsEncoded in E. apply bind_ok in E as (r & EN' & E).
      destruct (new_safe (mk_ref (Some p) n) (Z.lor ThrowOnFail FailIfTooSmall) H eq_refl eq_refl) as [_ HR].
      destruct (HR r EN') as (-> & _). exact E.
    - pose proof (crop_data (mk_ref (Some p) n) s p H Hs eq_refl) as ED.
      destruct (vr_cropped _ 0 s) as [q c]. cbn in ED, EC. by subst. }
  assert (isNull (vr_cropped d 0 s) = false) as EN by (apply Z.eqb_neq; lia).
  split; [split; [done |] | right; by rewrite EA, EC]. right.
  destruct (actual_safe _ HK EN) as [[m EM] | (l & o & EL & EO & EA' & Hl & Ho & H1)]; [congruence |].
  rewrite EA in EA'. injection EA' as ->. exists l, o. rewrite EC, EA. repeat split; (done || lia).
Qed.

(** The indexing cache of any view: it holds an element or nothing, and never points past
    the payload. *)
Definition cache_safe (r : RLP) : Prop :=
  exact mem (m_lastItem r) /\ 0 <= m_lastEnd r /\
  (forall pl, payload mem (m_data r) = Ok pl -> m_lastEnd r <= vr_count pl).

Lemma exact_null : exact mem vr_null.
Proof using Type. split; [split |]; [done | by left..]. Qed.

Lemma fresh_safe d : whole mem d -> cache_safe (fresh d).
Proof using Hmem.
  intros HW. destruct (payload_safe d HW) as (pl & E & Hpl & _).
  split; [by apply exact_null |]. split; [cbn; lia |]. cbn [m_data m_lastEnd fresh]. rewrite E. intros ? [= <-].
  by destruct (vr_ok_count pl Hpl).
Qed.

Lemma index_loop_safe fuel r i :
  whole mem (m_data r) -> cache_safe r ->
  (forall pl, payload mem (m_data r) = Ok pl -> vr_count pl - m_lastEnd r + 1 < Z.of_nat fuel) ->
  defined (index_loop mem fuel r i) /\
  (forall r', index_loop mem fuel r i = Ok r' -> m_data r' = m_data r /\ cache_safe r').
Proof using Hmem.
  revert r. induction fuel as [|fuel IH]; intros r HW [HI [HE HP]] Hf.
  { destruct (payload_safe (m_data r) HW) as (pl & E & _). specialize (Hf _ E).
    specialize (HP _ E). lia. }
  cbn [index_loop]. case_bool; [| split; [done |]; intros r' [= <-]; done]. bool_hyps.
  destruct (payload_safe (m_data r) HW) as (pl & E & Hpl & _).
  specialize (HP _ E). specialize (Hf _ E). rewrite E. cbn [mbind res_bind].
  pose proof (vr_ok_count pl Hpl) as HC. unfold SIZE_MAX in HC.
  pose proof (vr_cropped_from_ok mem pl (m_lastEnd r) Hpl HE) as HK.
  pose proof (crop_from_count pl (m_lastEnd r) Hpl ltac:(lia)) as EK.
  destruct (sizeAsEncoded_safe _ HK) as [[m ->] | (s & EZ & Hs & Hs1)]; [done |].
  pose proof (crop_exact _ s HK EZ) as HX. rewrite EZ. cbn [mbind res_bind].
  destruct (crop_count _ s HK Hs) as [ES HS]. rewrite ES, (wrap_small 32 (m_lastEnd r + s)) by lia.
  set (r1 := mkRLP (m_data r) (u32 (m_lastIndex r + 1)) (m_lastEnd r + s)
                   (vr_cropped (vr_cropped_from pl (m_lastEnd r)) 0 s)).
  assert (cache_safe r1) as HN.
  { unfold r1. split; cbn [m_lastItem m_lastEnd m_data]; [done |]. split; [lia |].
    rewrite E. intros ? [= <-]. lia. }
  destruct (Z.eq_dec s 0) as [-> | Hs0].
  - destruct fuel as [|fuel]; [lia |]. cbn [index_loop].
    change (vr_count (m_lastItem r1))
      with (vr_count (vr_cropped (vr_cropped_from pl (m_lastEnd r)) 0 0)).
    rewrite ES. cbn [Z.eqb negb]. rewrite andb_false_r.
    split; [done |]. intros r' [= <-]. done.
  - destruct (IH r1 HW HN) as [HD HR]; [| split; [done |]; intros r' Hr; by apply HR in Hr].
    change (m_data r1) with (m_data r). change (m_lastEnd r1) with (m_lastEnd r + s).
    rewrite E. intros ? [= <-]. lia.
Qed.

(** [operator[]] on any view, any index and any cache it can have left behind. *)
Lemma rlp_index_safe r i :
  whole mem (m_data r) -> cache_safe r ->
  defined (rlp_index mem r i) /\
  (forall it r', rlp_index mem r i = Ok (it, r') ->
     (exists v, it = fresh v /\ exact mem v) /\ m_data r' = m_data r /\ cache_safe r').
Proof using Hmem.
  intros HW HC. destruct (payload_safe (m_data r) HW) as (pl & E & Hpl & _ & Hle & _).
  unfold rlp_index.
  assert (exists m, (if i <? m_lastIndex r
     then p ← payload mem (m_data r); e ← sizeAsEncoded mem p; p' ← payload mem (m_data r);
          Ok (mkRLP (m_data r) 0 e (vr_cropped p' 0 e))
     else Ok r) = Panic m \/
    exists r1, (if i <? m_lastIndex r
     then p ← payload mem (m_data r); e ← sizeAsEncoded mem p; p' ← payload mem (m_data r);
          Ok (mkRLP (m_data r) 0 e (vr_cropped p' 0 e))
     else Ok r) = Ok r1 /\ m_data r1 = m_data r /\ cache_safe r1) as (m & [-> | (r1 & -> & E1 & H1)]).
  { case_bool; [| exists EmptyString; right; by exists r]. rewrite E. cbn [mbind res_bind].
    destruct (sizeAsEncoded_safe pl Hpl) as [[m ->] | (s & EZ & Hs & _)].
    { exists m. by left. }
    pose proof (crop_exact _ s Hpl EZ) as HX. rewrite EZ.
    exists EmptyString. right. eexists. split; [done |]. split; [done |].
    destruct (crop_count pl s Hpl Hs) as [_ HS].
    split; cbn [m_lastItem m_lastEnd m_data]; [done |]. split; [lia |].
    rewrite E. intros ? [= <-]. lia. }
  { done. }
  cbn [mbind res_bind].
  destruct (index_loop_safe (S (S (Z.to_nat (vr_count (m_data r))))) r1 i) as [HD HR];
    [by rewrite E1 | done | |].
  { rewrite E1, E. intros ? [= <-]. destruct H1 as (_ & ? & _).
    pose proof (vr_ok_count _ Hpl). lia. }
  destruct (index_loop mem _ r1 i) as [r2 | | | |]; try done. cbn [mbind res_bind].
  destruct (HR r2 eq_refl) as [E2 H2].
  destruct (new_safe (m_lastItem r2) (Z.lor ThrowOnFail FailIfTooSmall)) as [ND NR];
    [apply (proj1 H2) | done | done |].
  destruct (RLP_new mem (m_lastItem r2) _) as [it | | | |]; try done. cbn [mbind res_bind].
  split; [done |]. intros ? ? [= <- <-]. destruct (NR it eq_refl) as (-> & _).
  split; [exists (m_lastItem r2); split; [done | apply H2] |]. by rewrite E2, E1.
Qed.

(** ** Iteration *)

(** An iterator of a list that ends at address [e]: what remains reaches the end. *)
Definition iter_safe (e : Z) (it : iterator) : Prop :=
  vr_ok mem (m_currentItem it) /\ 0 <= m_remaining it /\
  (exists a, vr_data (m_currentItem it) = Some a /\
             a + vr_count (m_currentItem it) + m_remaining it = e) /\
  e <= len mem /\ m_remaining it < SIZE_MAX /\
  (vr_count (m_currentItem it) = 0 -> m_remaining it = 0).

Lemma iter_incr_safe e it :
  iter_safe e it -> vr_count (m_currentItem it) <> 0 ->
  defined (iter_incr mem it) /\
  (forall it', iter_incr mem it = Ok it' ->
     iter_safe e it' /\
     vr_count (m_currentItem it') + m_remaining it' = m_remaining it).
Proof using Hmem.
  intros (HV & HR & (a & Ea & Es) & He & HM & H0) Hc. unfold iter_incr, vr_next.
  pose proof (vr_ok_count _ HV) as HC. unfold vr_ok in HV. rewrite Ea in *.
  cbn [vr_data]. destruct (Z.eqb_spec (m_remaining it) 0) as [Er | Hr]; cbn [negb].
  - split; [done |]. intros it' [= <-]. rewrite Er.
    repeat split; cbn [m_currentItem m_remaining vr_retarget vr_data vr_count]; try lia.
    exists (a + vr_count (m_currentItem it)). split; [done | lia].
  - unfold vr_retarget.
    set (cur := mk_ref (Some (a + vr_count (m_currentItem it))) (m_remaining it)).
    assert (vr_ok mem cur) as HK by (unfold vr_ok, cur; cbn [vr_data vr_count]; lia).
    destruct (sizeAsEncoded_safe cur HK) as [[m ->] | (s & -> & Hs & Hs1)]; [done |].
    cbn [mbind res_bind]. destruct (crop_count cur s HK Hs) as [ES HS].
    change (vr_count cur) with (m_remaining it) in *. specialize (Hs1 Hr).
    split; [done |]. intros it' [= <-]. unfold iter_safe.
    cbn [m_currentItem m_remaining]. rewrite ES, Z.min_r by lia.
    repeat split; try done; try lia.
    exists (a + vr_count (m_currentItem it)). split; [| lia].
    by apply (crop_data cur).
Qed.

Lemma foreach_loop_safe {A} (body : A -> RLP -> res A) e last :
  vr_data (m_currentItem last) = Some e -> vr_count (m_currentItem last) = 0 ->
  (forall acc d, exact mem d -> defined (body acc (fresh d))) ->
  forall fuel it acc, iter_safe e it ->
    vr_count (m_currentItem it) + m_remaining it < Z.of_nat fuel ->
    defined (foreach_loop mem fuel body last it acc).
Proof using Hmem.
  intros EL EC HB. induction fuel as [|fuel IH]; intros it acc HI Hf.
  { destruct HI as (HV & HR & _). pose proof (vr_ok_count _ HV). lia. }
  pose proof HI as (HV & HR & (a & Ea & Es) & He & HM & H0). pose proof (vr_ok_count _ HV).
  cbn [foreach_loop]. unfold iter_eqb, vr_eqb. rewrite Ea, EL, EC.
  destruct (Z.eqb_spec (vr_count (m_currentItem it)) 0) as [E0 | Hc].
  { rewrite bool_decide_eq_true_2; [done |]. f_equal. specialize (H0 E0). lia. }
  rewrite andb_false_r. unfold iter_deref.
  destruct (new_safe (m_currentItem it) VeryStrict) as [ND NR]; [done | done | done |].
  destruct (RLP_new mem (m_currentItem it) _) as [x | | | |]; try done. cbn [mbind res_bind].
  destruct (NR x eq_refl) as (-> & _ & HX). specialize (HB acc _ (HX eq_refl)).
  destruct (body acc _) as [acc' | | | |]; try done. cbn [mbind res_bind].
  destruct (iter_incr_safe e it HI Hc) as [ID IR].
  destruct (iter_incr mem it) as [it' | | | |]; try done. cbn [mbind res_bind].
  destruct (IR it' eq_refl) as [HI' Hm]. apply IH; [done | lia].
Qed.

(** The range-for loop over any view the default constructor accepts. *)
Lemma rlp_foreach_safe {A} (body : A -> RLP -> res A) d acc :
  exact mem d ->
  (forall acc d', exact mem d' -> defined (body acc (fresh d'))) ->
  defined (rlp_foreach mem body d acc).
Proof using Hmem.
  intros [HW HX] HB. pose proof (proj1 HW) as HV. unfold rlp_foreach, iter_new.
  destruct (isList_ok d HV) as [b EB]. rewrite EB. destruct b; cbn [mbind res_bind].
  2: { cbn [foreach_loop]. unfold iter_eqb, vr_eqb. cbn [m_currentItem].
       rewrite Z.eqb_refl, bool_decide_eq_true_2 by done. done. }
  assert (isNull d = false) as EN.
  { unfold isList in EB. by destruct (isNull d). }
  destruct (payload_safe d HW) as (pl & -> & Hpl & _ & Hle & HA). cbn [mbind res_bind].
  destruct (HA EN) as (p & o & ED & EP & EA). destruct HX as [HX | HX]; [congruence |].
  rewrite EA in HX. injection HX as HX.
  destruct (sizeAsEncoded_safe pl Hpl) as [[m ->] | (s & -> & Hs & Hs1)]; [done |].
  cbn [mbind res_bind]. destruct (crop_count pl s Hpl Hs) as [ES HS]. rewrite ES.
  pose proof (vr_ok_count pl Hpl) as HC. unfold SIZE_MAX in HC.
  rewrite wrap_small by lia.
  apply (foreach_loop_safe body (p + vr_count d)); [| | done | |]; cbn [m_currentItem m_remaining].
  - unfold vr_cropped_from. rewrite ED. cmp. done.
  - rewrite crop_from_count; [lia | done |]. pose proof (vr_ok_count d HV). lia.
  - unfold iter_safe. cbn [m_currentItem m_remaining]. rewrite ES. unfold SIZE_MAX.
    unfold vr_ok in HV. rewrite ED in HV.
    repeat split; try done; try lia.
    exists (p + o). split; [by apply (crop_data pl) | lia].
  - lia.
Qed.
End Safety.

(** ** Main theorems *)

(** What the constructor accepts, it accepts again. *)
Lemma new_exact_view (mem : bytes) (d : vector_ref) :
  exact mem d -> RLP_new mem d VeryStrict = Ok (fresh d).
Proof.
  intros [[HV HW] HE]. destruct (isNull d) eqn:EN.
  { apply new_null. by apply null_count. }
  destruct HE as [HE | HE]; [congruence |]. unfold RLP_new. rewrite HE.
  change (has VeryStrict FailIfTooBig) with true. change (has VeryStrict FailIfTooSmall) with true.
  cbn [mbind res_bind]. rewrite Z.ltb_irrefl. cbn [mbind res_bind]. rewrite HE. cbn [mbind res_bind].
  by rewrite Z.ltb_irrefl.
Qed.

(** The body of a loop returns or panics on every item the constructor accepts. *)
Definition body_total {A} (mem : bytes) (body : A -> RLP -> res A) : Prop :=
  forall acc d, RLP_new mem d VeryStrict = Ok (fresh d) -> defined (body acc (fresh d)).

(** C20. The range-for loop over any value the constructor accepts ends, whatever the
    bytes, provided its body returns or panics on the items; each item passed to the
    body was itself accepted by the constructor. *)
Theorem foreach_terminates {A} (mem : bytes) (d : vector_ref) (r : RLP)
    (body : A -> RLP -> res A) (acc : A) :
  bytes_ok mem -> vr_ok mem d -> RLP_new mem d VeryStrict = Ok r ->
  body_total mem body ->
  defined (rlp_foreach mem body (m_data r) acc).
Proof.
  intros Hm Hd E HB. destruct (new_safe mem Hm d VeryStrict Hd eq_refl eq_refl) as [_ HR].
  destruct (HR r E) as (-> & _ & HX). apply rlp_foreach_safe; [done | by apply HX |].
  intros acc' d' Hd'. by apply HB, new_exact_view.
Qed.

Lemma foreach_terminates_witness :
  defined (rlp_foreach [194; 193; 9] (fun n i => b ← isList [194; 193; 9] (m_data i); Ok (n + 1))
             (mk_ref (Some 0) 3) 0).
Proof.
  apply (foreach_terminates [194; 193; 9] (mk_ref (Some 0) 3) (fresh (mk_ref (Some 0) 3))).
  - apply (bool_decide_unpack _). reflexivity.
  - unfold vr_ok. cbn. unfold SIZE_MAX. lia.
  - reflexivity.
  - intros acc d' E. unfold isList. destruct (isNull d') eqn:EN; cbn [m_data fresh];
      rewrite EN; [done |]. unfold RLP_new, actualSize, isSingleByte in E. rewrite EN in E.
    cbn in E. by destruct (vr_at _ d' 0).
Defined.
