(* ===== verification/BytesBuffer.v ===== *)
(** * bytes_buffer.hpp: the growable byte buffer

    [class BytesBuffer] of [src/libraries/platonlib/include/platon/bytes_buffer.hpp].
    A cell is [None] while its contents are indeterminate: fresh memory from malloc,
    and everything [resize] exposes before it is written. *)

From S2P Require Import Prelude Common.

(** The allocated block and the used part of it; the capacity is the block's size. *)
Record BytesBuffer := mkBuf { cells : list (option Z); size_ : Z }.

(** ** Definitions *)

Definition capacity_ (b : BytesBuffer) : Z := len (cells b).

(** [malloc(size)]; [memcpy(tmp, buffer_, size_)]; the rest is uninitialised. *)
Definition buf_reserve (b : BytesBuffer) (size : Z) : BytesBuffer :=
  if capacity_ b <? size
  then mkBuf (ztake (size_ b) (cells b) ++ replicate (Z.to_nat (size - size_ b)) None) (size_ b)
  else b.

Definition buf_new (capacity : Z) : BytesBuffer := buf_reserve (mkBuf [] 0) capacity.

(** [if (size_ + num > capacity_)], a 32-bit sum. *)
Definition buf_expand (b : BytesBuffer) (num : Z) : BytesBuffer :=
  if capacity_ b <? u32 (size_ b + num) then buf_reserve b (u32 (size_ b + num)) else b.

(** Writing bytes at an offset of the block; past its end is out of bounds. *)
Definition buf_write (b : BytesBuffer) (p : Z) (bs : bytes) : res BytesBuffer :=
  if (0 <=? p) && (p + len bs <=? capacity_ b)
  then Ok (mkBuf (ztake p (cells b) ++ (Some <$> bs) ++ zdrop (p + len bs) (cells b)) (size_ b))
  else Undef "write outside the buffer".

(** Reading them; an indeterminate cell has no value. *)
Definition buf_read (b : BytesBuffer) (p n : Z) : res bytes :=
  if (0 <=? p) && (p + n <=? capacity_ b)
  then match mapM id (slice (cells b) p n) with
       | Some bs => Ok bs
       | None => Undef "read of uninitialised memory"
       end
  else Undef "read outside the buffer".

Definition buf_push_back (b : BytesBuffer) (v : Z) : res BytesBuffer :=
  let b1 := buf_expand b 1 in
  b2 ← buf_write b1 (size_ b1) [v];
  Ok (mkBuf (cells b2) (u32 (size_ b2 + 1))).

Definition buf_relocate (b : BytesBuffer) (pos : Z) : BytesBuffer :=
  if pos <=? capacity_ b then mkBuf (cells b) pos else b.

Definition buf_clear (b : BytesBuffer) : BytesBuffer := mkBuf (cells b) 0.

Definition buf_resize (b : BytesBuffer) (num : Z) : BytesBuffer :=
  mkBuf (cells (buf_reserve b num)) num.

(** [append(begin, end)] of bytes that lie outside this buffer. *)
Definition buf_append (b : BytesBuffer) (bs : bytes) : res BytesBuffer :=
  let b1 := buf_expand b (len bs) in
  b2 ← buf_write b1 (size_ b1) bs;
  Ok (mkBuf (cells b2) (u32 (size_ b2 + len bs))).

(** The view [out()] gives, read to its end. *)
Definition buf_out (b : BytesBuffer) : res bytes := buf_read b 0 (size_ b).

(** [move(other)]: takes the block and empties the other buffer. *)
Definition buf_move (other : BytesBuffer) : BytesBuffer * BytesBuffer := (other, mkBuf [] 0).

(** *** What a buffer holds *)

(** The first [size_] cells hold [bs]. *)
Definition holds (b : BytesBuffer) (bs : bytes) : Prop :=
  size_ b = len bs /\ exists spare, cells b = (Some <$> bs) ++ spare.

(** ** Properties *)

Lemma holds_new c : holds (buf_new c) [].
Proof. split; unfold buf_new, buf_reserve; case_bool; simpl; eauto. Qed.

Lemma holds_capacity b bs : holds b bs -> len bs <= capacity_ b.
Proof. intros [_ [sp E]]. unfold capacity_. rewrite E. len_lia. Qed.

(** Growing keeps the contents and reaches the size asked for. *)
Lemma reserve_holds b bs n : holds b bs -> holds (buf_reserve b n) bs.
Proof.
  intros [ES [sp E]]. unfold buf_reserve. case_bool; [| by split; eauto].
  split; [done |]. cbn [cells]. rewrite E, ES. eexists.
  rewrite ztake_app_exact; [done |]. by rewrite length_fmap.
Qed.

Lemma reserve_capacity b bs n :
  holds b bs -> capacity_ (buf_reserve b n) = Z.max (capacity_ b) n.
Proof.
  intros H. pose proof (holds_capacity b bs H) as HC. destruct H as [ES _].
  unfold buf_reserve. case_bool; bool_hyps; [| lia].
  unfold capacity_ in *. cbn [cells]. rewrite length_app, Nat2Z.inj_add, len_ztake by lia.
  rewrite length_replicate. lia.
Qed.

(** Writing right after the initialised cells [bs]. *)
Lemma write_at b bs rest p new :
  cells b = (Some <$> bs) ++ rest -> p = len bs -> len (bs ++ new) <= capacity_ b ->
  exists b', buf_write b p new = Ok b' /\ size_ b' = size_ b /\
             holds (mkBuf (cells b') (p + len new)) (bs ++ new).
Proof.
  intros E -> HC. unfold buf_write. rewrite length_app in HC.
  unfold capacity_ in *. destruct (Z.leb_spec 0 (len bs)); [| lia].
  destruct (Z.leb_spec (len bs + len new) (len (cells b))); [| lia]. cbn [andb].
  eexists. split; [done |]. cbn [cells size_]. split; [done |].
  split; cbn [size_ cells]; [rewrite length_app; lia |].
  rewrite E, ztake_app_exact by (by rewrite length_fmap).
  rewrite fmap_app. eexists. by rewrite <- app_assoc.
Qed.

Lemma resize_holds b bs n :
  holds b bs -> len bs <= n ->
  exists junk, len junk = n - len bs /\
    size_ (buf_resize b n) = n /\ n <= capacity_ (buf_resize b n) /\
    exists sp, cells (buf_resize b n) = (Some <$> bs) ++ junk ++ sp.
Proof.
  intros H Hn. pose proof (reserve_holds b bs n H) as HR.
  pose proof (reserve_capacity b bs n H) as HC. unfold buf_resize, capacity_ in *.
  destruct HR as [_ [sp E]]. rewrite E in HC |- *. cbn [cells size_].
  rewrite length_app, length_fmap in HC.
  exists (ztake (n - len bs) sp). rewrite len_ztake by lia.
  split; [done |]. split; [done |]. split; [rewrite length_app, length_fmap; lia |].
  exists (zdrop (n - len bs) sp). by rewrite ztake_zdrop.
Qed.

Lemma read_holds b bs p n rest :
  holds b (bs ++ rest) -> p = len bs -> n = len rest -> buf_read b p n = Ok rest.
Proof.
  intros [ES [sp E]] -> ->. unfold buf_read, capacity_. rewrite E, length_app, length_fmap, length_app.
  cmp. cbn [andb]. rewrite fmap_app, <- app_assoc.
  rewrite slice_app_exact by (by rewrite length_fmap).
  assert (mapM id (Some <$> rest) = Some rest) as ->; [| done].
  clear. induction rest as [|x l IH]; [done |]. cbn. by rewrite IH.
Qed.

Lemma out_holds b bs : holds b bs -> buf_out b = Ok bs.
Proof.
  intros H. unfold buf_out. apply (read_holds b [] 0); [done | done |]. apply H.
Qed.

(** Growing the buffer to [n] bytes past [bs] and filling them: what was after [bs]
    is overwritten. This is how every RLP item gets into the stream. *)
Lemma emit_holds b bs tail new :
  holds b (bs ++ tail) -> len tail <= len new -> len (bs ++ new) < 2 ^ 32 ->
  exists b', buf_write (buf_resize b (len bs + len new)) (len bs) new = Ok b' /\
             holds b' (bs ++ new).
Proof.
  intros H HT HL. rewrite length_app in HL.
  destruct (resize_holds b (bs ++ tail) (len bs + len new) H) as (junk & _ & ES & EC & sp & E);
    [rewrite length_app; lia |].
  rewrite fmap_app, <- app_assoc in E.
  destruct (write_at _ _ _ (len bs) new E) as (b' & EW & ES' & HW);
    [done | rewrite length_app; lia |].
  exists b'. split; [done |]. rewrite ES in ES'. destruct b'. cbn in *. by rewrite ES'.
Qed.

(** The old contents can still be read after growing. *)
Lemma resize_read b bs tail n :
  holds b (bs ++ tail) -> len (bs ++ tail) <= n ->
  buf_read (buf_resize b n) (len bs) (len tail) = Ok tail.
Proof.
  intros H HL. pose proof (reserve_holds b _ n H) as [_ [sp E]].
  apply (read_holds (mkBuf (cells (buf_resize b n)) (len (bs ++ tail))) bs); [| done | done].
  split; [done |]. by exists sp.
Qed.

(** [append]: the bytes go after the contents, whatever the capacity was. *)
Lemma append_holds b bs new :
  holds b bs -> len (bs ++ new) < 2 ^ 32 ->
  exists b', buf_append b new = Ok b' /\ holds b' (bs ++ new).
Proof.
  intros H HL. rewrite length_app in HL. unfold buf_append, buf_expand.
  destruct H as [ES HS]. rewrite ES, wrap_small by lia.
  assert (holds b bs) as H by done.
  set (b1 := if _ <? _ then _ else _).
  assert (holds b1 bs /\ len bs + len new <= capacity_ b1) as [H1 HC].
  { subst b1. case_bool; bool_hyps; [| by split; lia || done].
    split; [by apply reserve_holds |]. rewrite (reserve_capacity b bs) by done. lia. }
  destruct H1 as [ES1 [sp E1]].
  destruct (write_at b1 bs sp (len bs) new) as (b2 & E2 & S2 & H2);
    [done | done | rewrite length_app; lia |]. rewrite ES1, E2. cbn [mbind res_bind].
  eexists. split; [done |]. rewrite S2, ES1, wrap_small by lia. exact H2.
Qed.

Lemma push_back_holds b bs v :
  holds b bs -> len bs + 1 < 2 ^ 32 -> exists b', buf_push_back b v = Ok b' /\ holds b' (bs ++ [v]).
Proof.
  intros H HL. destruct (append_holds b bs [v] H) as (b' & E & H'); [rewrite length_app; simpl; lia |].
  exists b'. by split.
Qed.
