(* ===== verification/HostRlp.v ===== *)
(** * The host functions that encode RLP

    [rlp_u128_size], [platon_rlp_u128] and their siblings are declared in
    [src/libraries/platonlib/include/platon/chain.hpp] and implemented by the chain,
    outside this repository. [HostRLP] is their interface: a [size] function says how
    many bytes the [platon_rlp] function writes at its destination. *)

From S2P Require Import Prelude Common RlpSpec.

Class HostRLP := {
  rlp_u128_size : Z -> Z -> Z;
  platon_rlp_u128 : Z -> Z -> bytes;
  rlp_bytes_size : bytes -> Z;
  platon_rlp_bytes : bytes -> bytes;
  rlp_list_size : Z -> Z;
  platon_rlp_list : bytes -> bytes
}.

(** Documented behaviour: each function writes the RLP encoding of its argument, the
    list functions taking the concatenated encodings of the items. *)
Class HostRLPLaws `{HostRLP} : Prop := {
  u128_size_law h l : 0 <= h < 2 ^ 64 -> 0 <= l < 2 ^ 64 ->
    rlp_u128_size h l = len (platon_rlp_u128 h l);
  u128_law h l : 0 <= h < 2 ^ 64 -> 0 <= l < 2 ^ 64 ->
    platon_rlp_u128 h l = enc (int_item (h * 2 ^ 64 + l));
  bytes_size_law b : bytes_ok b -> len b < 2 ^ 32 ->
    rlp_bytes_size b = len (platon_rlp_bytes b);
  bytes_law b : bytes_ok b -> len b < 2 ^ 32 -> platon_rlp_bytes b = enc_str b;
  list_size_law p : len p < 2 ^ 32 -> rlp_list_size (len p) = len (platon_rlp_list p);
  list_law p : len p < 2 ^ 32 -> platon_rlp_list p = enc_payload p
}.

(** A host that satisfies the laws, for concrete runs. *)
Definition host_rlp : HostRLP := {|
  rlp_u128_size h l := len (enc (int_item (h * 2 ^ 64 + l)));
  platon_rlp_u128 h l := enc (int_item (h * 2 ^ 64 + l));
  rlp_bytes_size b := len (enc_str b);
  platon_rlp_bytes := enc_str;
  rlp_list_size n := len (header 192 n) + n;
  platon_rlp_list := enc_payload
|}.

Lemma host_rlp_laws : @HostRLPLaws host_rlp.
Proof. constructor; try done. intros p _. simpl. by rewrite len_enc_payload. Defined.
