(* ===== verification/RlpStream.v ===== *)
(** * RLP.h, RLP.cpp: writing RLP data

    [class RLPStream]: a byte buffer and a stack of open lists. [appendList(n)]
    opens a list of [n] items; the item that completes it makes [noteAppended] wrap
    the bytes written since in a list header, in place, and count the list as one item
    of the list around it. *)

From S2P Require Import Prelude Common RlpSpec BytesBuffer HostRlp.

(** The stack's last pair, [back()], is the head of the list. *)
Record RLPStream := mkStream { m_out : BytesBuffer; m_listStack : list (Z * Z) }.

(** ** Definitions *)

Section Stream.
Context `{HostRLP}.

Definition stream_new : RLPStream := mkStream (buf_new 0) [].

(** The [while] of [noteAppended]: each turn pops the stack or leaves. *)
Fixpoint note_loop (out : BytesBuffer) (stack : list (Z * Z)) (itemCount : Z) : res RLPStream :=
  match stack with
  | [] => Ok (mkStream out [])
  | (first, p) :: rest =>
      if first <? itemCount then platon_throw "itemCount too large"
      else if negb (first - itemCount =? 0)
      then Ok (mkStream out ((first - itemCount, p) :: rest))
      else
        let s := u32 (size_ out - p) in
        let appned_length := rlp_list_size s in
        let out1 := buf_resize out (u32 (p + appned_length)) in
        data ← buf_read out1 p s;
        out2 ← buf_write out1 p (platon_rlp_list data);
        note_loop out2 rest 1
  end.

Definition noteAppended (s : RLPStream) (itemCount : Z) : res RLPStream :=
  if itemCount =? 0 then Ok s else note_loop (m_out s) (m_listStack s) itemCount.

(** [m_out.resize(old_size + appned_length)] and a host function that fills it. *)
Definition emit (s : RLPStream) (appned_length : Z) (written : bytes) : res RLPStream :=
  let old_size := size_ (m_out s) in
  out ← buf_write (buf_resize (m_out s) (u32 (old_size + appned_length))) old_size written;
  noteAppended (mkStream out (m_listStack s)) 1.

Definition appendRaw (s : RLPStream) (bs : bytes) (itemCount : Z) : res RLPStream :=
  out ← buf_append (m_out s) bs;
  noteAppended (mkStream out (m_listStack s)) itemCount.

Definition appendList_raw (s : RLPStream) (rlp : bytes) : res RLPStream :=
  emit s (rlp_list_size (len rlp)) (platon_rlp_list rlp).

Definition appendList (s : RLPStream) (items : Z) : res RLPStream :=
  if negb (items =? 0)
  then Ok (mkStream (m_out s) ((items, size_ (m_out s)) :: m_listStack s))
  else appendList_raw s [].

Definition append_bytes (s : RLPStream) (bs : bytes) : res RLPStream :=
  emit s (rlp_bytes_size bs) (platon_rlp_bytes bs).

Definition append_bigint (s : RLPStream) (i : Z) : res RLPStream :=
  let low := u64 i in
  let heigh := u64 (Z.shiftr i 64) in
  emit s (rlp_u128_size heigh low) (platon_rlp_u128 heigh low).

Definition append_bool (s : RLPStream) (b : bool) : res RLPStream :=
  append_bigint s (if b then 1 else 0).

(** [append(int128_t)]: shift left in 128 bits, arithmetic shift right, xor. *)
Definition zigzag (l : Z) : Z := u128 (Z.lxor (swrap 128 (Z.shiftl l 1)) (Z.shiftr l 127)).

Definition append_int128 (s : RLPStream) (l : Z) : res RLPStream := append_bigint s (zigzag l).

Definition stream_clear (s : RLPStream) : RLPStream := mkStream (buf_clear (m_out s)) [].

Definition stream_out (s : RLPStream) : res bytes :=
  match m_listStack s with
  | [] => buf_out (m_out s)
  | _ => platon_throw "listStack is not empty"
  end.

(** [appendPrefix(dest)]: the bytes of another buffer, not counted as an item. *)
Definition appendPrefix (s : RLPStream) (dest : bytes) : res RLPStream :=
  match m_listStack s with
  | [] => out ← buf_append (m_out s) dest; Ok (mkStream out [])
  | _ => platon_throw "listStack is not empty"
  end.

Definition stream_reserve (s : RLPStream) (size : Z) : RLPStream :=
  if capacity_ (m_out s) <? size
  then mkStream (buf_reserve (m_out s) size) (m_listStack s) else s.
End Stream.

(** *** The abstract stream

    What has been written: the finished bytes, and for every open list the number of
    items it waits for with the items it has, innermost list first. *)

Abbreviation frames := (list (Z * list item)).
Record builder := mkBuilder { b_open : frames; b_done : bytes }.

(** [xs] are written: when the innermost list is complete it is itself written. *)
Fixpoint add_items (fs : frames) (top : bytes) (xs : list item) : builder :=
  match fs with
  | [] => mkBuilder [] (top ++ flat_map enc xs)
  | (n, its) :: fs' =>
      if n =? len xs then add_items fs' top [Lst (its ++ xs)]
      else mkBuilder ((n - len xs, its ++ xs) :: fs') top
  end.

Definition add_item (b : builder) (x : item) : builder := add_items (b_open b) (b_done b) [x].
Definition open_list (b : builder) (n : Z) : builder := mkBuilder ((n, []) :: b_open b) (b_done b).
Definition empty_builder : builder := mkBuilder [] [].

(** The bytes the buffer holds, and the stack of counts and positions. *)
Fixpoint flat (fs : frames) (top : bytes) : bytes :=
  match fs with
  | [] => top
  | (_, its) :: fs' => flat fs' top ++ flat_map enc its
  end.

Fixpoint stack_of (fs : frames) (top : bytes) : list (Z * Z) :=
  match fs with
  | [] => []
  | (n, its) :: fs' => (n, len (flat fs' top)) :: stack_of fs' top
  end.

(** Refinement: the stream object implements the builder. *)
Definition represents (s : RLPStream) (b : builder) : Prop :=
  holds (m_out s) (flat (b_open b) (b_done b)) /\
  m_listStack s = stack_of (b_open b) (b_done b) /\
  Forall (fun f => 1 <= fst f) (b_open b).

(** Room: the bytes so far and a header of at most 9 bytes for each open list. *)
Definition budget (b : builder) : Z :=
  len (flat (b_open b) (b_done b)) + 9 * len (b_open b).

(** The room a whole value takes while it is written item by item. *)
Fixpoint cost (it : item) : Z :=
  match it with
  | Str b => len (enc_str b)
  | Lst l => 9 + foldr (fun x acc => cost x + acc) 0 l
  end.

(** The public operations a caller strings together, and what each writes. *)
Inductive stream_op : Type :=
| OpBytes (b : bytes)      (** [append] of a byte string *)
| OpInt (i : Z)            (** [append] of an unsigned number *)
| OpOpen (n : Z)           (** [appendList(n)] *)
| OpWhole (l : list item)  (** [appendList(bytes)] of encoded items *)
| OpRaw (l : list item).   (** [appendRaw] of encoded items *)

Definition op_ok (b : builder) (o : stream_op) : Prop :=
  match o with
  | OpBytes bs => bytes_ok bs
  | OpInt i => 0 <= i < 2 ^ 128
  | OpOpen n => 0 <= n
  | OpWhole _ => True
  | OpRaw l => l <> [] /\ match b_open b with [] => True | (n, _) :: _ => len l <= n end
  end.

Definition op_cost (o : stream_op) : Z :=
  match o with
  | OpBytes bs => len (enc_str bs)
  | OpInt i => len (enc (int_item i))
  | OpOpen _ => 9
  | OpWhole l => len (enc (Lst l))
  | OpRaw l => len (flat_map enc l)
  end.

Definition build (b : builder) (o : stream_op) : builder :=
  match o with
  | OpBytes bs => add_item b (Str bs)
  | OpInt i => add_item b (int_item i)
  | OpOpen n => if n =? 0 then add_item b (Lst []) else open_list b n
  | OpWhole l => add_item b (Lst l)
  | OpRaw l => add_items (b_open b) (b_done b) l
  end.

Fixpoint ops_ok (b : builder) (os : list stream_op) : Prop :=
  match os with [] => True | o :: os' => op_ok b o /\ ops_ok (build b o) os' end.

Definition ops_cost (os : list stream_op) : Z := foldr (fun o acc => op_cost o + acc) 0 os.

Section Run.
Context `{HostRLP}.

Definition run_op (s : RLPStream) (o : stream_op) : res RLPStream :=
  match o with
  | OpBytes bs => append_bytes s bs
  | OpInt i => append_bigint s i
  | OpOpen n => appendList s n
  | OpWhole l => appendList_raw s (flat_map enc l)
  | OpRaw l => appendRaw s (flat_map enc l) (len l)
  end.

Fixpoint run_ops (s : RLPStream) (os : list stream_op) : res RLPStream :=
  match os with [] => Ok s | o :: os' => s' ← run_op s o; run_ops s' os' end.
End Run.

(** ** Properties *)

Lemma bytesRequired_32 n : 0 <= n < 2 ^ 32 -> bytesRequired n <= 4.
Proof. intros. apply bytesRequired_le; [change (256 ^ 4) with (2 ^ 32) |]; lia. Qed.

Lemma len_enc_payload_le p : len p < 2 ^ 32 -> len (enc_payload p) <= 9 + len p.
Proof.
  intros H. rewrite len_enc_payload, len_header by lia.
  pose proof (bytesRequired_32 (len p) ltac:(lia)). case_bool; lia.
Qed.

Lemma len_enc_nonneg x : 1 <= len (enc x).
Proof. apply enc_nonempty. Qed.

Lemma budget_nonneg b : 0 <= budget b.
Proof. unfold budget. lia. Qed.

Section StreamFacts.
Context `{HL : HostRLPLaws}.

(** The loop of [noteAppended] completes exactly the lists that are complete. *)
Lemma note_loop_spec fs top xs out :
  holds out (flat fs top ++ flat_map enc xs) -> Forall (fun f => 1 <= fst f) fs ->
  (forall n its fs', fs = (n, its) :: fs' -> len xs <= n) ->
  len (flat fs top ++ flat_map enc xs) + 9 * len fs < 2 ^ 32 ->
  exists s', note_loop out (stack_of fs top) (len xs) = Ok s' /\
             represents s' (add_items fs top xs) /\
             budget (add_items fs top xs) <= len (flat fs top ++ flat_map enc xs) + 9 * len fs.
Proof using All.
  revert xs out. induction fs as [|[n its] fs IH]; intros xs out HO HF HN HB.
  { eexists. split; [done |]. unfold represents, budget. cbn [flat add_items b_open b_done] in *.
    split; [done | lia]. }
  specialize (HN n its fs eq_refl). apply Forall_cons in HF as [Hn HF].
  cbn [stack_of note_loop add_items fst] in *. destruct (Z.ltb_spec n (len xs)); [lia |].
  destruct (Z.eqb_spec n (len xs)) as [En | Hne].
  - replace (n - len xs) with 0 by lia. cbn [Z.eqb negb].
    cbn [flat] in HO, HB. rewrite <- app_assoc, <- flat_map_app in HO, HB.
    set (pl := flat_map enc (its ++ xs)) in *. rewrite length_cons, length_app in HB.
    assert (size_ out = len (flat fs top) + len pl) as ES.
    { destruct HO as [-> _]. rewrite length_app. lia. }
    rewrite ES. replace (len (flat fs top) + len pl - len (flat fs top)) with (len pl) by lia.
    pose proof (len_enc_payload_le pl ltac:(lia)) as HP.
    pose proof (len_enc_payload pl). pose proof (header_pos 192 (len pl)).
    rewrite (wrap_small 32 (len pl)), list_size_law, list_law by lia.
    rewrite (wrap_small 32 (len (flat fs top) + _)) by lia.
    rewrite resize_read by (rewrite ?length_app; done || lia). cbn [mbind res_bind].
    rewrite list_law by lia.
    destruct (emit_holds out (flat fs top) pl (enc_payload pl) HO) as (out2 & E2 & HO2);
      [lia | rewrite length_app; lia |].
    rewrite E2. cbn [mbind res_bind].
    assert (flat_map enc [Lst (its ++ xs)] = enc_payload pl) as EX
      by (cbn; by rewrite app_nil_r).
    destruct (IH [Lst (its ++ xs)] out2) as (s' & E' & HR & HB').
    + by rewrite EX.
    + done.
    + intros m ? ? ->. apply Forall_cons in HF as [Hm _]. simpl in *. lia.
    + rewrite EX, length_app. lia.
    + exists s'. split; [exact E' |]. split; [done |]. rewrite EX, length_app in HB'.
      cbn [flat]. rewrite <- app_assoc, <- flat_map_app, length_app, length_cons. fold pl. lia.
  - replace (n - len xs =? 0) with false by (symmetry; apply Z.eqb_neq; lia). cbn [negb].
    eexists. split; [done |]. unfold represents, budget. cbn [b_open b_done flat stack_of m_out m_listStack].
    rewrite flat_map_app. cbn [flat] in HO. rewrite <- app_assoc in HO.
    split; [split; [done |]; split; [done |] |].
    + apply Forall_cons. simpl. split; [lia | done].
    + rewrite <- app_assoc, !length_cons. lia.
Qed.

(** Every operation that writes one item: the host's bytes become the item. *)
Lemma emit_spec s b x :
  represents s b -> budget b + len (enc x) < 2 ^ 32 ->
  exists s', emit s (len (enc x)) (enc x) = Ok s' /\ represents s' (add_item b x) /\
             budget (add_item b x) <= budget b + len (enc x).
Proof using All.
  intros (HO & HS & HF) HB. unfold emit, budget in *.
  pose proof (len_enc_nonneg x) as HX.
  destruct HO as [ES HO]. rewrite ES, wrap_small by lia.
  set (bs := flat (b_open b) (b_done b)) in *.
  assert (holds (m_out s) (bs ++ [])) as HO' by (rewrite app_nil_r; by split).
  destruct (emit_holds (m_out s) bs [] (enc x) HO') as (b' & EW & HW);
    [simpl; lia | rewrite length_app; lia |].
  rewrite EW. cbn [mbind res_bind noteAppended m_out m_listStack]. rewrite HS.
  destruct (note_loop_spec (b_open b) (b_done b) [x] b') as (s' & E & HR & HB').
  - cbn [flat_map]. by rewrite app_nil_r.
  - done.
  - intros n its fs' Eo. rewrite Eo in HF. apply Forall_cons in HF as [? _]. simpl in *. lia.
  - cbn [flat_map]. rewrite app_nil_r, length_app. fold bs. lia.
  - exists s'. split; [exact E |]. split; [done |]. cbn [flat_map] in HB'.
    rewrite app_nil_r, length_app in HB'. fold bs in HB'.
    unfold add_item, budget in *. lia.
Qed.

Lemma append_bytes_spec s b bs :
  represents s b -> bytes_ok bs -> budget b + len (enc_str bs) < 2 ^ 32 ->
  exists s', append_bytes s bs = Ok s' /\ represents s' (add_item b (Str bs)) /\
             budget (add_item b (Str bs)) <= budget b + len (enc_str bs).
Proof using All.
  intros HR Hbs HB. pose proof (len_enc_str_le bs). pose proof (budget_nonneg b).
  unfold append_bytes. rewrite bytes_size_law, bytes_law by (done || lia).
  by apply (emit_spec s b (Str bs)).
Qed.

Lemma append_bigint_spec s b i :
  represents s b -> 0 <= i < 2 ^ 128 -> budget b + len (enc (int_item i)) < 2 ^ 32 ->
  exists s', append_bigint s i = Ok s' /\ represents s' (add_item b (int_item i)) /\
             budget (add_item b (int_item i)) <= budget b + len (enc (int_item i)).
Proof using All.
  intros HR Hi HB. unfold append_bigint.
  assert (0 <= Z.shiftr i 64 < 2 ^ 64) as Hh.
  { rewrite shiftr_div by lia. split; [apply Z.div_pos; lia |].
    apply Z.div_lt_upper_bound; lia. }
  pose proof (wrap_range 64 i ltac:(lia)) as Hl. rewrite (wrap_small 64 (Z.shiftr i 64)) by lia.
  rewrite u128_size_law, u128_law by done.
  assert (Z.shiftr i 64 * 2 ^ 64 + u64 i = i) as ->.
  { rewrite shiftr_div by lia. unfold wrap. rewrite Z.mul_comm. symmetry. by apply Z.div_mod. }
  by apply emit_spec.
Qed.

Lemma appendList_raw_spec s b l :
  represents s b -> budget b + len (enc (Lst l)) < 2 ^ 32 ->
  exists s', appendList_raw s (flat_map enc l) = Ok s' /\ represents s' (add_item b (Lst l)) /\
             budget (add_item b (Lst l)) <= budget b + len (enc (Lst l)).
Proof using All.
  intros HR HB. pose proof (budget_nonneg b). pose proof HB as HB'. cbn [enc] in HB'.
  rewrite len_enc_payload in HB'. pose proof (header_pos 192 (len (flat_map enc l)) ltac:(lia)).
  unfold appendList_raw. rewrite list_size_law, list_law by lia. by apply (emit_spec s b (Lst l)).
Qed.

(** [appendList(n)]: an empty list is an item, another one opens. *)
Lemma appendList_spec s b n :
  represents s b -> 0 <= n -> budget b + 9 < 2 ^ 32 ->
  exists s', appendList s n = Ok s' /\
    let b' := if n =? 0 then add_item b (Lst []) else open_list b n in
    represents s' b' /\ budget b' <= budget b + 9.
Proof using All.
  intros HR Hn HB. unfold appendList. destruct (Z.eqb_spec n 0) as [-> | Hn0]; cbn [negb].
  - destruct (appendList_raw_spec s b [] HR) as (s' & E & HR' & HB'); [simpl; lia |].
    exists s'. split; [exact E |]. split; [done |]. simpl in HB'. lia.
  - eexists. split; [done |]. destruct HR as ([ES HO] & HS & HF). cbv zeta.
    unfold represents, budget in *. cbn [open_list b_open b_done m_out m_listStack flat stack_of].
    cbn [flat_map]. rewrite app_nil_r, ES, HS. split; [| rewrite length_cons; lia].
    split; [by split |]. split; [done |]. apply Forall_cons. simpl. split; [lia | done].
Qed.

Lemma appendRaw_spec s b xs :
  represents s b -> xs <> [] ->
  (forall n its fs', b_open b = (n, its) :: fs' -> len xs <= n) ->
  budget b + len (flat_map enc xs) < 2 ^ 32 ->
  exists s', appendRaw s (flat_map enc xs) (len xs) = Ok s' /\
             represents s' (add_items (b_open b) (b_done b) xs) /\
             budget (add_items (b_open b) (b_done b) xs) <= budget b + len (flat_map enc xs).
Proof using All.
  intros (HO & HS & HF) Hxs HN HB. unfold budget in *.
  destruct (append_holds _ _ (flat_map enc xs) HO) as (b' & EA & HA); [rewrite length_app; lia |].
  unfold appendRaw. rewrite EA. cbn [mbind res_bind]. unfold noteAppended.
  destruct (Z.eqb_spec (len xs) 0) as [E0 | _]; [by destruct xs |]. cbn [m_out m_listStack].
  rewrite HS. destruct (note_loop_spec (b_open b) (b_done b) xs b') as (s' & E & HR & HB');
    [done | done | done | rewrite length_app; lia |].
  exists s'. split; [exact E |]. split; [done |]. rewrite length_app in HB'.
  unfold budget in *. lia.
Qed.

(** More raw items than the innermost list waits for are refused. *)
Lemma appendRaw_too_many s b bs k n its fs' :
  represents s b -> b_open b = (n, its) :: fs' -> n < k ->
  budget b + len bs < 2 ^ 32 ->
  appendRaw s bs k = platon_throw "itemCount too large".
Proof using Type.
  intros (HO & HS & HF) Eo Hk HB. unfold budget in HB.
  destruct (append_holds _ _ bs HO) as (b' & EA & HA); [rewrite length_app; lia |].
  unfold appendRaw. rewrite EA. cbn [mbind res_bind]. unfold noteAppended.
  rewrite Eo in HF. apply Forall_cons in HF as [Hn _]. simpl in Hn.
  cbn [m_out m_listStack]. rewrite HS, Eo. cbn [stack_of note_loop]. by cmp.
Qed.

Lemma appendPrefix_spec s b dest :
  represents s b -> b_open b = [] -> budget b + len dest < 2 ^ 32 ->
  exists s', appendPrefix s dest = Ok s' /\ represents s' (mkBuilder [] (b_done b ++ dest)).
Proof using Type.
  intros (HO & HS & HF) Eo HB. unfold budget in HB. rewrite Eo in *. cbn in *.
  destruct (append_holds _ _ dest HO) as (b' & EA & HA); [rewrite length_app; lia |].
  unfold appendPrefix. rewrite HS, EA. cbn. eexists. split; [done |]. by split.
Qed.

Lemma run_op_spec s b o :
  represents s b -> op_ok b o -> budget b + op_cost o < 2 ^ 32 ->
  exists s', run_op s o = Ok s' /\ represents s' (build b o) /\
             budget (build b o) <= budget b + op_cost o.
Proof using All.
  intros HR HO HB. destruct o as [bs | i | n | l | l]; cbn [op_ok op_cost run_op build] in *.
  - by apply append_bytes_spec.
  - by apply append_bigint_spec.
  - by apply appendList_spec.
  - by apply appendList_raw_spec.
  - destruct HO as [HN HO]. apply appendRaw_spec; [done | done | | done].
    intros n its fs' E. by rewrite E in HO.
Qed.

Lemma op_cost_nonneg o : 0 <= op_cost o.
Proof using Type. destruct o; cbn; lia. Qed.

Lemma run_ops_spec s b os :
  represents s b -> ops_ok b os -> budget b + ops_cost os < 2 ^ 32 ->
  exists s', run_ops s os = Ok s' /\ represents s' (foldl build b os) /\
             budget (foldl build b os) <= budget b + ops_cost os.
Proof using All.
  revert s b. induction os as [|o os IH]; intros s b HR HO HB.
  { exists s. cbn. split; [done |]. split; [done | lia]. }
  destruct HO as [HO HOs]. cbn in HB. fold (ops_cost os) in HB.
  assert (0 <= ops_cost os) as HC.
  { clear. induction os as [|o os IH]; [done |]. cbn. pose proof (op_cost_nonneg o).
    fold (ops_cost os). lia. }
  destruct (run_op_spec s b o HR HO) as (s1 & E1 & HR1 & HB1); [lia |].
  destruct (IH s1 _ HR1 HOs) as (s2 & E2 & HR2 & HB2); [lia |].
  exists s2. cbn. rewrite E1. fold (ops_cost os). split; [done |]. split; [done | lia].
Qed.

(** [out()] gives the encodings of the items once every list is complete. *)
Lemma stream_out_spec s b :
  represents s b ->
  stream_out s = match b_open b with
                 | [] => Ok (b_done b)
                 | _ => platon_throw "listStack is not empty"
                 end.
Proof using Type.
  intros (HO & HS & _). unfold stream_out. rewrite HS.
  destruct (b_open b) as [|[n its] fs]; [| done]. simpl. by apply out_holds.
Qed.

(** C4. Any sequence of stream operations is correct: the stream refines a builder of
    RLP trees, so [out()] gives the encodings of the items written when every list
    opened is complete, and throws while one is not. *)
Theorem stream_refines_builder (os : list stream_op) :
  ops_ok empty_builder os -> ops_cost os < 2 ^ 32 ->
  (s ← run_ops stream_new os; stream_out s) =
  let b := foldl build empty_builder os in
  match b_open b with
  | [] => Ok (b_done b)
  | _ => platon_throw "listStack is not empty"
  end.
Proof using All.
  intros HO HB. destruct (run_ops_spec stream_new empty_builder os) as (s & E & HR & _).
  - split; [apply holds_new | done].
  - done.
  - done.
  - rewrite E. cbn [mbind res_bind]. by apply stream_out_spec.
Qed.

(** Appending more raw items than the innermost open list still waits for is
    refused, whatever was written before. *)
Theorem appendRaw_refuses_excess (os : list stream_op) (bs : bytes) (k n : Z) its fs :
  ops_ok empty_builder os -> ops_cost os + len bs < 2 ^ 32 ->
  b_open (foldl build empty_builder os) = (n, its) :: fs -> n < k ->
  (s ← run_ops stream_new os; appendRaw s bs k) = platon_throw "itemCount too large".
Proof using All.
  intros HO HB Eb Hk. destruct (run_ops_spec stream_new empty_builder os) as (s & E & HR & HB').
  - split; [apply holds_new | done].
  - done.
  - change (budget empty_builder) with 0. lia.
  - rewrite E. cbn [mbind res_bind]. change (budget empty_builder) with 0 in HB'.
    apply (appendRaw_too_many s _ bs k n its fs HR Eb Hk). lia.
Qed.
End StreamFacts.

(** Zigzag maps a 128-bit signed integer to an unsigned one and is undone by the
    reader. *)
Lemma zigzag_value l :
  - 2 ^ 127 <= l < 2 ^ 127 -> zigzag l = if l <? 0 then - 2 * l - 1 else 2 * l.
Proof.
  intros Hl. unfold zigzag. rewrite Z.shiftl_mul_pow2, shiftr_div by lia.
  change (2 ^ 1) with 2.
  assert (forall a, Z.lxor a (-1) = - a - 1) as HX
    by (intros a; rewrite Z.lxor_m1_r; unfold Z.lnot; lia).
  destruct (Z.ltb_spec l 0).
  - replace (l / 2 ^ 127) with (-1).
    2: { apply Z.div_unique with (l + 2 ^ 127); lia. }
    rewrite HX. unfold swrap.
    destruct (Z.lt_ge_cases (l * 2) (- 2 ^ 127)).
    + replace ((l * 2 + 2 ^ (128 - 1)) mod 2 ^ 128) with (l * 2 + 2 ^ 127 + 2 ^ 128).
      2: { apply Z.mod_unique with (-1); lia. }
      unfold wrap. symmetry. apply Z.mod_unique with (-1); lia.
    + rewrite Z.mod_small by lia. change (128 - 1) with 127.
      unfold wrap. rewrite Z.mod_small by lia. lia.
  - rewrite Z.div_small, Z.lxor_0_r by lia. unfold swrap.
    destruct (Z.lt_ge_cases (l * 2) (2 ^ 127)).
    + rewrite Z.mod_small by lia. change (128 - 1) with 127. rewrite wrap_small; lia.
    + replace ((l * 2 + 2 ^ (128 - 1)) mod 2 ^ 128) with (l * 2 - 2 ^ 127).
      2: { apply Z.mod_unique with 1; lia. }
      unfold wrap. symmetry. apply Z.mod_unique with (-1); lia.
Qed.

Definition sample_ops : list stream_op :=
  [OpOpen 2; OpBytes [1; 2; 3]; OpOpen 2; OpInt 1024; OpRaw [Lst [Str [7]]]; OpOpen 0].

Lemma stream_refines_builder_witness :
  (s ← @run_ops host_rlp stream_new sample_ops; stream_out s) =
  Ok [202; 131; 1; 2; 3; 197; 130; 4; 0; 193; 7; 192].
Proof.
  etransitivity.
  - apply (@stream_refines_builder host_rlp host_rlp_laws sample_ops).
    + repeat split; try (cbn; lia); try done; repeat constructor; cbn; unfold is_byte; lia.
    + vm_compute. reflexivity.
  - vm_compute. reflexivity.
Defined.

Lemma appendRaw_refuses_excess_witness :
  (s ← @run_ops host_rlp stream_new [OpOpen 1]; @appendRaw host_rlp s [7; 8] 2)
  = platon_throw "itemCount too large".
Proof.
  apply (@appendRaw_refuses_excess host_rlp host_rlp_laws [OpOpen 1] [7; 8] 2 1 [] []).
  - cbn. lia.
  - vm_compute. reflexivity.
  - reflexivity.
  - lia.
Defined.
