(* ===== verification/RlpSize.v ===== *)
(** * rlp_size.hpp: the size of an encoding without encoding

    [class RLPSize]: a running total and a stack with the payload size of each list
    that is open. All sums are 32-bit sums. *)

From S2P Require Import Prelude Common RlpSpec RlpReader RlpStream.

(** [top()] of the stack is the head of the list. *)
Record RLPSize := mkSize { rs_size_ : Z; pending_ : list Z }.

(** ** Definitions *)

Definition size_new : RLPSize := mkSize 0 [].

(** [if (pending_.size() > 0) pending_.top() += n; else size_ += n;] *)
Definition size_bump (r : RLPSize) (n : Z) : RLPSize :=
  match pending_ r with
  | top :: rest => mkSize (rs_size_ r) (u32 (top + n) :: rest)
  | [] => mkSize (u32 (rs_size_ r + n)) []
  end.

Definition size_start (r : RLPSize) : RLPSize := mkSize (rs_size_ r) (0 :: pending_ r).

(** [operator<<(End)]; an unbalanced end fails the [assert]. *)
Definition size_end (r : RLPSize) : res RLPSize :=
  match pending_ r with
  | [] => Panic "assert"
  | list_size :: rest =>
      let list_size' :=
        if list_size <? c_rlpListImmLenCount then list_size + 1
        else list_size + bytesRequired list_size + 1 in
      Ok (size_bump (mkSize (rs_size_ r) rest) (u32 list_size'))
  end.

Definition size_bigint (s : Z) : Z :=
  if (s =? 0) || (s <? c_rlpDataImmLenStart) then 1
  else
    let br := bytesRequired s in
    if br <? c_rlpDataImmLenCount then br + 1 else br + bytesRequired br + 1.

Definition size_append_bigint (r : RLPSize) (s : Z) : RLPSize := size_bump r (size_bigint s).
Definition size_append_bool (r : RLPSize) (b : bool) : RLPSize :=
  size_append_bigint r (if b then 1 else 0).
Definition size_append_int128 (r : RLPSize) (c : Z) : RLPSize := size_append_bigint r (zigzag c).

Definition size_bytes (s : bytes) : Z :=
  match s with
  | [] => 1
  | d :: _ =>
      if (len s =? 1) && (d <? c_rlpDataImmLenStart) then 1
      else if len s <? c_rlpDataImmLenCount then len s + 1
      else len s + bytesRequired (len s) + 1
  end.

Definition size_append_bytes (r : RLPSize) (s : bytes) : RLPSize := size_bump r (size_bytes s).

(** [append(FixedHash<N>)]: an all-zero hash counts for one byte. *)
Definition size_hash (N : Z) (s : bytes) : Z :=
  if forallb (Z.eqb 0) s then 1
  else if N <? c_rlpDataImmLenCount then N + 1
  else N + bytesRequired N + 1.

Definition size_append_hash (N : Z) (r : RLPSize) (s : bytes) : RLPSize :=
  size_bump r (size_hash N s).

Definition AppendEmptyList (r : RLPSize) : RLPSize := size_bump r 1.

(** The [append] of every container: one byte when it is empty, else the elements
    between a start and an end. *)
Fixpoint size_elements {A} (append : RLPSize -> A -> res RLPSize) (l : list A) (r : RLPSize)
    : res RLPSize :=
  match l with
  | [] => Ok r
  | x :: l' => r' ← append r x; size_elements append l' r'
  end.

Definition size_container {A} (append : RLPSize -> A -> res RLPSize) (r : RLPSize) (s : list A)
    : res RLPSize :=
  match s with
  | [] => Ok (AppendEmptyList r)
  | _ => r' ← size_elements append s (size_start r); size_end r'
  end.

(** ** Properties *)

Lemma bump_bump r a b : size_bump (size_bump r a) b = size_bump r (a + b).
Proof.
  unfold size_bump. destruct r as [s [|t p]]; cbn; rewrite wrap_add_l by lia;
    by rewrite Z.add_assoc.
Qed.

Lemma bump_0 r n : size_bump (size_start r) n = mkSize (rs_size_ r) (u32 n :: pending_ r).
Proof. done. Qed.

Lemma bump_wrap r n : size_bump r (u32 n) = size_bump r n.
Proof.
  unfold size_bump. destruct (pending_ r); by rewrite wrap_add_r by lia.
Qed.

(** The size of a finished list of [n] bytes of payload. *)
Definition list_total (n : Z) : Z :=
  if n <? 56 then n + 1 else n + bytesRequired n + 1.

Lemma size_end_bump r n :
  size_end (size_bump (size_start r) n) = Ok (size_bump r (list_total (u32 n))).
Proof.
  rewrite bump_0. unfold size_end, list_total. cbn [pending_ rs_size_]. rewrite bump_wrap.
  by destruct r.
Qed.

Lemma size_bigint_spec i : 0 <= i < 2 ^ 128 -> size_bigint i = len (enc (int_item i)).
Proof.
  intros Hi. unfold size_bigint, int_item. cbn [enc]. unfold c_rlpDataImmLenStart.
  pose proof (len_be_min i ltac:(lia)) as HL.
  destruct (Z.eqb_spec i 0) as [-> |]; [done |]. cbn [orb].
  destruct (be_min_head i ltac:(lia)) as (b & bs & E & Hb).
  pose proof (bytesRequired_le i 16 ltac:(change (256 ^ 16) with (2 ^ 128); lia) ltac:(lia)).
  pose proof (be_value_be_min i ltac:(lia)) as HV. pose proof (be_min_ok i) as HO.
  rewrite E in *. apply bytes_ok_cons in HO as [Hb' HO]. unfold is_byte in Hb'.
  destruct (Z.ltb_spec i 128) as [Hs | Hs].
  - destruct bs as [|c bs].
    + unfold be_value in HV. simpl in HV. unfold enc_str. by cmp.
    + rewrite be_value_cons in HV. pose proof (be_value_nonneg _ HO).
      assert (256 ^ 1 <= 256 ^ len (c :: bs)) by (apply Z.pow_le_mono_r; simpl; lia). nia.
  - rewrite enc_str_header.
    + rewrite length_app. pose proof (len_header 128 (len (b :: bs)) ltac:(lia)) as HH.
      unfold c_rlpDataImmLenCount, c_rlpListStart, c_rlpDataImmLenStart, c_rlpMaxLengthBytes.
      rewrite HL in HH |- *. change (192 - 128 - 8) with 56. revert HH. cmp; lia.
    + intros x [= -> ->]. unfold be_value in HV. simpl in HV. lia.
Qed.

Lemma size_bytes_spec s : len s < 2 ^ 32 -> size_bytes s = len (enc_str s).
Proof.
  intros Hs. unfold size_bytes, enc_str, c_rlpDataImmLenCount, c_rlpListStart,
    c_rlpDataImmLenStart, c_rlpMaxLengthBytes.
  assert (forall n b, 0 <= n -> Z.of_nat (length (header 128 n ++ b))
          = (if n <? 56 then 1 else 1 + bytesRequired n) + len b) as EL.
  { intros n b Hn. rewrite length_app. pose proof (len_header 128 n Hn). lia. }
  destruct s as [|x [|y s]]; [done | |].
  - simpl. by destruct (Z.ltb_spec x 128).
  - rewrite EL by lia. replace (len (x :: y :: s) =? 1) with false by (symmetry; apply Z.eqb_neq; simpl; lia).
    cbn [andb]. change (192 - 128 - 8) with 56. case_bool; lia.
Qed.

(** The list header adds what [list_total] says. *)
Lemma list_total_spec p : len p < 2 ^ 32 -> list_total (len p) = len (enc_payload p).
Proof.
  intros. unfold list_total. rewrite len_enc_payload, len_header by lia.
  destruct (len p <? 56); lia.
Qed.

(** A hash that is not zero is counted right, except a single byte below 128. *)
Lemma size_hash_spec N s :
  len s = N -> 0 < N < 2 ^ 32 -> forallb (Z.eqb 0) s = false ->
  (forall x, s = [x] -> 128 <= x) -> size_hash N s = len (enc_str s).
Proof.
  intros HN Hr Hz Hone. unfold size_hash. rewrite Hz.
  rewrite (enc_str_header s Hone), length_app.
  unfold c_rlpDataImmLenCount, c_rlpListStart, c_rlpDataImmLenStart, c_rlpMaxLengthBytes.
  pose proof (len_header 128 (len s) ltac:(lia)) as HH. rewrite HN in HH |- *.
  change (192 - 128 - 8) with 56. destruct (N <? 56); lia.
Qed.
