(* ===== verification/Serialize.v ===== *)
(** * rlp_extend.hpp, rlp_serialize.hpp: C++ values as RLP

    The overloads of [operator<<] for RLPStream and RLPSize and of [fetch], one [codec]
    per C++ type. A container's codec is built from those of its elements, the way the
    templates are; [fields] are the members of a tuple or of a class declared with
    [PLATON_SERIALIZE]. *)

From Stdlib Require Import Sorted.
From S2P Require Import Prelude Common RlpSpec VectorRef RlpReader RlpReaderFacts RlpConvert.
From S2P Require Import BytesBuffer HostRlp RlpStream RlpSize.

(** ** Definitions *)

(** [stream << x], [size << x] and [fetch(rlp, x)]. *)
Record codec (A : Type) := mkCodec {
  put : RLPStream -> A -> res RLPStream;
  measure : RLPSize -> A -> res RLPSize;
  fetch : bytes -> RLP -> res A
}.
Arguments mkCodec {A}.
Arguments put {A}.
Arguments measure {A}.
Arguments fetch {A}.

(** The members of a class, in order: how many there are, and the three operations
    on all of them. [fetch] reads the item of each member from index [i] on, through
    the list-indexing cache of [rlp]. *)
Record fields (A : Type) := mkFields {
  f_count : Z;
  f_put : RLPStream -> A -> res RLPStream;
  f_measure : RLPSize -> A -> res RLPSize;
  f_fetch : bytes -> Z -> RLP -> res (A * RLP)
}.
Arguments mkFields {A}.
Arguments f_count {A}.
Arguments f_put {A}.
Arguments f_measure {A}.
Arguments f_fetch {A}.

(** [std::set]'s insertion: an equivalent element is left alone. *)
Fixpoint set_insert {A} (less : A -> A -> bool) (x : A) (l : list A) : list A :=
  match l with
  | [] => [x]
  | y :: l' =>
      if less x y then x :: y :: l'
      else if less y x then y :: set_insert less x l'
      else y :: l'
  end.

Definition map_insert {K V} (less : K -> K -> bool) (kv : K * V) (l : list (K * V)) : list (K * V) :=
  set_insert (fun a b => less (fst a) (fst b)) kv l.

(** [for (auto const& i : _s) *this << i;] *)
Fixpoint put_elements {A} (put : RLPStream -> A -> res RLPStream) (s : RLPStream) (l : list A)
    : res RLPStream :=
  match l with
  | [] => Ok s
  | x :: l' => s' ← put s x; put_elements put s' l'
  end.

(** [for (auto const& i : rlp) { T one; fetch(i, one); ... }] *)
Definition fetch_loop {A B} (conv : RLP -> res A) (add : B -> A -> B) (mem : bytes)
    (rlp : RLP) (ret : B) : res B :=
  rlp_foreach mem (fun ret i => one ← conv i; Ok (add ret one)) (m_data rlp) ret.

(** [fetch] of a list, a set or a map: any other value is a bad cast. *)
Definition fetch_elements {A B} (conv : RLP -> res A) (add : B -> A -> B) (mem : bytes)
    (rlp : RLP) (ret : B) : res B :=
  b ← isList mem (m_data rlp);
  if b : bool then fetch_loop conv add mem rlp ret else platon_throw "bad cast".

Section Codecs.
Context `{HostRLP}.

(** *** Values *)

Definition c_uint (w : Z) : codec Z := mkCodec
  append_bigint
  (fun r v => Ok (size_append_bigint r v))
  (fun mem rlp => toInt mem w Strict (m_data rlp)).

Definition c_int (w : Z) : codec Z := mkCodec
  append_int128
  (fun r v => Ok (size_append_int128 r v))
  (fun mem rlp => toSignedInt mem w Strict (m_data rlp)).

Definition c_bool : codec bool := mkCodec
  append_bool
  (fun r b => Ok (size_append_bool r b))
  (fun mem rlp => toBool mem Strict (m_data rlp)).

(** A floating-point value is its bit pattern. *)
Definition c_float : codec Z := mkCodec
  append_bigint
  (fun r v => Ok (size_append_bigint r v))
  (fun mem rlp => toFloat mem Strict (m_data rlp)).

Definition c_double : codec Z := mkCodec
  append_bigint
  (fun r v => Ok (size_append_bigint r v))
  (fun mem rlp => toDouble mem Strict (m_data rlp)).

Definition c_bytes : codec bytes := mkCodec
  append_bytes
  (fun r v => Ok (size_append_bytes r v))
  (fun mem rlp => toBytes mem LaissezFaire (m_data rlp)).

Definition c_string : codec bytes := mkCodec
  append_bytes
  (fun r v => Ok (size_append_bytes r v))
  (fun mem rlp => rlp_toString mem LaissezFaire (m_data rlp)).

Definition c_hash (N : Z) : codec bytes := mkCodec
  append_bytes
  (fun r v => Ok (size_append_hash N r v))
  (fun mem rlp => toHash mem N Strict (m_data rlp)).

(** *** Containers *)

Definition put_sequence {A} (c : codec A) (s : RLPStream) (l : list A) : res RLPStream :=
  s' ← appendList s (len l); put_elements (put c) s' l.

Definition c_vector {A} (c : codec A) : codec (list A) := mkCodec
  (put_sequence c)
  (size_container (measure c))
  (fun mem rlp =>
     b ← isList mem (m_data rlp);
     if b : bool then
       _ ← itemCount mem (m_data rlp);
       fetch_loop (fetch c mem) (fun l x => l ++ [x]) mem rlp []
     else platon_throw "bad cast").

Definition c_list {A} (c : codec A) : codec (list A) := mkCodec
  (put_sequence c)
  (size_container (measure c))
  (fun mem rlp => fetch_elements (fetch c mem) (fun l x => l ++ [x]) mem rlp []).

Definition c_set {A} (less : A -> A -> bool) (c : codec A) : codec (list A) := mkCodec
  (put_sequence c)
  (size_container (measure c))
  (fun mem rlp => fetch_elements (fetch c mem) (fun l x => set_insert less x l) mem rlp []).

Definition c_array {A} (N : Z) (c : codec A) : codec (list A) := mkCodec
  (put_sequence c)
  (size_container (measure c))
  (fun mem rlp =>
     n ← itemCountStrict mem (m_data rlp);
     if negb (n =? N) then platon_throw "bad cast"
     else array_loop mem (fetch c mem) (Z.to_nat N) 0 rlp).

Definition c_pair {A B} (ca : codec A) (cb : codec B) : codec (A * B) := mkCodec
  (fun s x => s1 ← appendList s 2; s2 ← put ca s1 (fst x); put cb s2 (snd x))
  (fun r x => r1 ← measure ca (size_start r) (fst x); r2 ← measure cb r1 (snd x); size_end r2)
  (fun mem rlp =>
     n ← itemCountStrict mem (m_data rlp);
     if negb (n =? 2) then platon_throw "bad cast"
     else
       '(i0, rlp1) ← rlp_index mem rlp 0;
       one ← fetch ca mem i0;
       '(i1, _) ← rlp_index mem rlp1 1;
       two ← fetch cb mem i1;
       Ok (one, two)).

Definition c_map {K V} (less : K -> K -> bool) (ck : codec K) (cv : codec V)
    : codec (list (K * V)) := mkCodec
  (put_sequence (c_pair ck cv))
  (size_container (measure (c_pair ck cv)))
  (fun mem rlp =>
     fetch_elements (fetch (c_pair ck cv) mem) (fun l x => map_insert less x l) mem rlp []).

(** *** Classes and tuples *)

Definition fields_nil : fields unit := mkFields 0
  (fun s _ => Ok s) (fun r _ => Ok r) (fun _ _ rlp => Ok (tt, rlp)).

Definition fields_cons {A B} (c : codec A) (f : fields B) : fields (A * B) := mkFields
  (1 + f_count f)
  (fun s x => s' ← put c s (fst x); f_put f s' (snd x))
  (fun r x => r' ← measure c r (fst x); f_measure f r' (snd x))
  (fun mem i rlp =>
     '(it, rlp1) ← rlp_index mem rlp i;
     v ← fetch c mem it;
     '(rest, rlp2) ← f_fetch f mem (i + 1) rlp1;
     Ok ((v, rest), rlp2)).

Definition put_tuple {A} (f : fields A) (s : RLPStream) (t : A) : res RLPStream :=
  s' ← appendList s (f_count f); f_put f s' t.

Definition measure_members {A} (f : fields A) (r : RLPSize) (t : A) : res RLPSize :=
  r' ← f_measure f (size_start r) t; size_end r'.

Definition fetch_members {A} (f : fields A) (mem : bytes) (rlp : RLP) : res A :=
  '(t, _) ← f_fetch f mem 0 rlp; Ok t.

Definition c_tuple {A} (f : fields A) : codec A :=
  mkCodec (put_tuple f) (measure_members f) (fetch_members f).

(** [PLATON_SERIALIZE]: the stream's buffer is grown to the measured size first. *)
Definition put_struct {A} (f : fields A) (s : RLPStream) (t : A) : res RLPStream :=
  s' ← appendList s (f_count f);
  rlps ← f_measure f size_new t;
  f_put f (stream_reserve s' (rs_size_ rlps)) t.

Definition c_struct {A} (f : fields A) : codec A :=
  mkCodec (put_struct f) (measure_members f) (fetch_members f).

(** [PLATON_SERIALIZE_DERIVED]: the base class is the first item. *)
Definition c_derived {A B} (base : codec A) (f : fields B) : codec (A * B) :=
  c_struct (fields_cons base f).

(** A class serialised through the tuple of its members: [f] reads the members of an
    object, [g] sets them. *)
Definition c_view {A B} (f : A -> B) (g : B -> A) (c : codec B) : codec A := mkCodec
  (fun s x => put c s (f x))
  (fun r x => measure c r (f x))
  (fun mem rlp => y ← fetch c mem rlp; Ok (g y)).

(** [rlp(t)] and [pack_size(t)]. *)
Definition rlp {A} (c : codec A) (t : A) : res bytes :=
  s ← put c stream_new t; stream_out s.

Definition pack_size {A} (c : codec A) (t : A) : res Z :=
  r ← measure c size_new t; Ok (rs_size_ r).
End Codecs.

(** [RLP(data)] of a whole buffer and [fetch]. *)
Definition unpack {A} (c : codec A) (data : bytes) : res A :=
  r ← RLP_new data (mk_ref (Some 0) (len data)) VeryStrict;
  fetch c data r.

(** *** What a codec promises *)

(** [tree] is the RLP value of a C++ value; the laws hold for [valid] values, and the
    computed size is right for the [sized] ones. *)
Definition size_ok (r : RLPSize) : Prop :=
  0 <= rs_size_ r < 2 ^ 32 /\ Forall (fun n => 0 <= n < 2 ^ 32) (pending_ r).

Definition total_cost (l : list item) : Z := foldr (fun x acc => cost x + acc) 0 l.

Class CodecLaws {A} (c : codec A) (tree : A -> item) (valid sized : A -> Prop) : Prop := {
  tree_leaves x : valid x -> leaves_ok (tree x);
  put_law x s b :
    valid x -> represents s b -> budget b + cost (tree x) < 2 ^ 32 ->
    exists s', put c s x = Ok s' /\ represents s' (add_item b (tree x)) /\
               budget (add_item b (tree x)) <= budget b + cost (tree x);
  measure_law x :
    valid x -> exists n, 0 <= n /\
      (forall r, size_ok r -> measure c r x = Ok (size_bump r n)) /\
      (sized x -> len (enc (tree x)) < 2 ^ 32 -> n = len (enc (tree x)));
  fetch_law mem x : valid x -> item_ok (tree x) -> converts mem tree (fetch c mem) x
}.

Class FieldsLaws {A} (f : fields A) (trees : A -> list item) (valid sized : A -> Prop) : Prop := {
  fields_count x : valid x -> f_count f = len (trees x);
  fields_leaves x : valid x -> Forall leaves_ok (trees x);
  fields_put x s b :
    valid x -> represents s b -> budget b + total_cost (trees x) < 2 ^ 32 ->
    exists s', f_put f s x = Ok s' /\ represents s' (foldl add_item b (trees x)) /\
               budget (foldl add_item b (trees x)) <= budget b + total_cost (trees x);
  fields_measure x :
    valid x -> exists n, 0 <= n /\
      (forall r, size_ok r -> f_measure f r x = Ok (size_bump r n)) /\
      (sized x -> len (flat_map enc (trees x)) < 2 ^ 32 -> n = len (flat_map enc (trees x)));
  fields_fetch mem x pre post d p r :
    valid x -> item_ok (Lst (pre ++ trees x ++ post)) ->
    shows mem d p (enc (Lst (pre ++ trees x ++ post))) -> m_data r = d ->
    cache_ok (p + len (prefix_of (Lst (pre ++ trees x ++ post)))) (pre ++ trees x ++ post) r ->
    exists r', f_fetch f mem (len pre) r = Ok (x, r') /\ m_data r' = d /\
      cache_ok (p + len (prefix_of (Lst (pre ++ trees x ++ post)))) (pre ++ trees x ++ post) r'
}.

(** The order of a [std::set] or [std::map]: [operator<] of the key. *)
Class CppLess {A} (less : A -> A -> bool) : Prop :=
  less_asym x y : less x y = true -> less y x = false.

(** Elements in the order a set iterates over them. *)
Definition ascending {A} (less : A -> A -> bool) (l : list A) : Prop :=
  StronglySorted (fun x y => less x y = true) l.
