(* ===== verification/SerializeFacts.v ===== *)
(** * Every codec keeps its promise

    The laws of [CodecLaws] for the codecs of Serialize, type by type: the stream gets
    the value's RLP tree, the computed size is the size of its encoding, and [fetch]
    reads the value back. A container's laws follow from those of its elements. *)

From Stdlib Require Import Sorted.
From S2P Require Import Prelude Common RlpSpec VectorRef RlpReader RlpReaderFacts RlpConvert.
From S2P Require Import BytesBuffer HostRlp RlpStream RlpSize Serialize.

(** *** The RLP tree of each type *)

Definition uint_valid (w v : Z) : Prop := 0 <= v < 2 ^ w.
Definition int_valid (w v : Z) : Prop := - 2 ^ (w - 1) <= v < 2 ^ (w - 1).
Definition bool_tree (b : bool) : item := int_item (if b then 1 else 0).
Definition int_tree (v : Z) : item := int_item (zigzag v).
Definition bytes_valid (b : bytes) : Prop := bytes_ok b /\ len b < 2 ^ 32.
Definition hash_valid (N : Z) (b : bytes) : Prop :=
  bytes_ok b /\ len b = N /\ 0 < N < 2 ^ 32.
Definition hash_sized (b : bytes) : Prop :=
  forallb (Z.eqb 0) b = false /\ (forall x, b = [x] -> 128 <= x).
Definition list_tree {A} (tree : A -> item) (l : list A) : item := Lst (tree <$> l).
Definition pair_tree {A B} (ta : A -> item) (tb : B -> item) (x : A * B) : item :=
  Lst [ta (fst x); tb (snd x)].
Definition pair_prop {A B} (pa : A -> Prop) (pb : B -> Prop) (x : A * B) : Prop :=
  pa (fst x) /\ pb (snd x).
Definition all_prop {A} (P : A -> Prop) (l : list A) : Prop := Forall P l.
Definition set_valid {A} (less : A -> A -> bool) (P : A -> Prop) (l : list A) : Prop :=
  Forall P l /\ ascending less l.
Definition array_valid {A} (N : Z) (P : A -> Prop) (l : list A) : Prop :=
  Forall P l /\ len l = N.
Definition cons_trees {A B} (ta : A -> item) (tb : B -> list item) (x : A * B) : list item :=
  ta (fst x) :: tb (snd x).
Definition anything {A} (_ : A) : Prop := True.

Arguments bool_tree : simpl never.
Arguments int_tree : simpl never.

(** ** Room and sizes *)

Lemma total_cost_app a b : total_cost (a ++ b) = total_cost a + total_cost b.
Proof. induction a as [|x a IH]; [done |]. simpl. rewrite IH. lia. Qed.

Lemma cost_pos it : 1 <= cost it.
Proof.
  induction it as [b | l IH] using item_induction; simpl.
  - pose proof (enc_nonempty (Str b)). done.
  - induction IH as [|x l Hx _ IHl]; simpl in *; lia.
Qed.

Lemma total_cost_len l : len l <= total_cost l.
Proof.
  induction l as [|x l IH]; [done |]. simpl. pose proof (cost_pos x). lia.
Qed.

Lemma cost_list l : cost (Lst l) = 9 + total_cost l.
Proof. done. Qed.

(** A number takes up to nine bytes. *)
Lemma bytesRequired_64 v : uint_valid 64 v -> bytesRequired v <= 8.
Proof.
  intros Hv. unfold uint_valid in Hv. destruct (bytesRequired_spec v) as (H0 & _ & HM); [lia |].
  destruct (Z.eq_dec v 0) as [-> | Hn]; [done |]. destruct HM as [H1 HM]; [lia |].
  destruct (Z.le_gt_cases (bytesRequired v) 8); [done |].
  assert (256 ^ 8 <= 256 ^ (bytesRequired v - 1)) by (apply Z.pow_le_mono_r; lia). lia.
Qed.

Lemma int_item_cost v : uint_valid 64 v -> cost (int_item v) <= 9.
Proof.
  intros Hv. pose proof (bytesRequired_64 v Hv) as HB. unfold uint_valid in Hv.
  rewrite <- len_be_min in HB by lia. cbn [cost int_item]. unfold enc_str.
  assert (len (header 128 (len (be_min v)) ++ be_min v) <= 9) as HH.
  { unfold header. rewrite length_app. case_bool; bool_hyps; simpl length; lia. }
  destruct (be_min v) as [| b [| b' l]]; [done | | done].
  case_bool; [done | exact HH].
Qed.

Lemma int_items_cost l : Forall (uint_valid 64) l -> total_cost (int_item <$> l) <= 9 * len l.
Proof.
  induction 1 as [| x l Hx _ IH]; [done |]. rewrite fmap_cons. cbn [total_cost foldr].
  fold (total_cost (int_item <$> l)). pose proof (int_item_cost x Hx). simpl length. lia.
Qed.

(** The room a value takes bounds its encoding. *)
Lemma cost_enc it : cost it < 2 ^ 32 -> len (enc it) <= cost it.
Proof.
  induction it as [b | l IH] using item_induction; intros HC; [done |].
  rewrite cost_list in *. cbn [enc].
  assert (len (flat_map enc l) <= total_cost l) as HS.
  { clear -IH HC. induction IH as [|x l Hx _ IHl]; [done |]. simpl in *.
    pose proof (cost_pos x). pose proof (total_cost_len l). rewrite length_app.
    fold (total_cost l) in *. specialize (IHl ltac:(lia)). specialize (Hx ltac:(lia)). lia. }
  pose proof (len_enc_payload_le (flat_map enc l) ltac:(lia)). lia.
Qed.

Lemma cost_ok it : leaves_ok it -> cost it < RLP_LIMIT -> item_ok it.
Proof.
  intros HL HC. split; [done |]. unfold RLP_LIMIT, SIZE_MAX in *.
  pose proof (cost_enc it ltac:(lia)). lia.
Qed.

(** *** The running total *)

Lemma size_ok_bump r n : size_ok r -> size_ok (size_bump r n).
Proof.
  intros [H1 H2]. unfold size_bump. destruct (pending_ r) as [|t l].
  - split; cbn; [apply wrap_range; lia | done].
  - apply Forall_cons in H2 as [_ H2]. split; cbn; [done |].
    apply Forall_cons. split; [apply wrap_range; lia | done].
Qed.

Lemma size_ok_start r : size_ok r -> size_ok (size_start r).
Proof. intros [H1 H2]. split; [done |]. apply Forall_cons. by split. Qed.

Lemma size_ok_new : size_ok size_new.
Proof. by split. Qed.

Lemma bump_nothing r : size_ok r -> size_bump r 0 = r.
Proof.
  intros [H1 H2]. destruct r as [s [|t l]]; unfold size_bump; cbn in *; rewrite Z.add_0_r.
  - by rewrite wrap_small.
  - apply Forall_cons in H2 as [H2 _]. by rewrite wrap_small.
Qed.

Lemma list_total_nonneg n : 0 <= n -> 0 <= list_total n.
Proof. intros. unfold list_total. case_bool; [lia |]. destruct (bytesRequired_spec n); lia. Qed.

Create HintDb codec.
#[export] Hint Resolve size_ok_bump size_ok_start size_ok_new list_total_nonneg : codec.

(** Start, members worth [n] bytes, end. *)
Lemma size_list_bump r n :
  size_end (size_bump (size_start r) n) = Ok (size_bump r (list_total (u32 n))).
Proof. apply size_end_bump. Qed.

Lemma list_total_exact l n :
  len (enc (Lst l)) < 2 ^ 32 -> n = len (flat_map enc l) ->
  list_total (u32 n) = len (enc (Lst l)).
Proof.
  intros HL ->. cbn [enc] in *. rewrite len_enc_payload in HL.
  pose proof (header_pos 192 (len (flat_map enc l)) ltac:(lia)).
  rewrite wrap_small by lia. rewrite list_total_spec by lia. done.
Qed.

Lemma payload_lt l : len (enc (Lst l)) < 2 ^ 32 -> len (flat_map enc l) < 2 ^ 32.
Proof.
  cbn [enc]. rewrite len_enc_payload.
  pose proof (header_pos 192 (len (flat_map enc l)) ltac:(lia)). lia.
Qed.

(** *** Lists, item by item *)

(** The items of an open list, one at a time, complete it. *)
Lemma add_items_one_by_one xs n its fs top :
  n = len xs -> xs <> [] ->
  foldl add_item (mkBuilder ((n, its) :: fs) top) xs = add_items fs top [Lst (its ++ xs)].
Proof.
  revert n its. induction xs as [|x xs IH]; intros n its Hn Hx; [done |]. cbn [foldl].
  unfold add_item at 2. cbn [b_open b_done add_items]. change (len [x]) with 1.
  destruct xs as [|y xs].
  - subst n. by rewrite Z.eqb_refl.
  - rewrite length_cons in Hn. destruct (Z.eqb_spec n 1); [simpl in *; lia |].
    rewrite IH; [by rewrite <- app_assoc | simpl in *; lia | done].
Qed.

Lemma open_list_full b xs :
  xs <> [] -> foldl add_item (open_list b (len xs)) xs = add_item b (Lst xs).
Proof. intros. unfold open_list, add_item at 2. by rewrite (add_items_one_by_one xs _ []). Qed.

(** *** Ordered containers *)

Section Ordered.
Context {A} (less : A -> A -> bool) `{!CppLess less}.

Lemma insert_last l x :
  Forall (fun y => less y x = true) l -> set_insert less x l = l ++ [x].
Proof using All.
  induction 1 as [|y l Hy _ IH]; [done |]. cbn [set_insert].
  rewrite (less_asym y x Hy), Hy. by rewrite IH.
Qed.

(** Inserting the elements in ascending order rebuilds the set. *)
Lemma insert_all l :
  ascending less l -> foldl (fun s x => set_insert less x s) [] l = l.
Proof using All.
  intros H. assert (forall pre, ascending less (pre ++ l) ->
    foldl (fun s x => set_insert less x s) pre l = pre ++ l) as HG; [| by apply (HG [])].
  clear H. induction l as [|x l IH]; intros pre H; [by rewrite app_nil_r |].
  cbn [foldl]. rewrite insert_last.
  - rewrite IH; by rewrite <- app_assoc.
  - clear IH. induction pre as [|y pre IHp]; [constructor |].
    inversion H as [|? ? HS HF]; subst. constructor; [| by apply IHp].
    rewrite Forall_forall in HF. apply HF. set_solver.
Qed.
End Ordered.

(** ** Values *)

Section Values.
Context `{HL : HostRLPLaws}.

Lemma int_item_leaves i : leaves_ok (int_item i).
Proof. apply be_min_ok. Qed.

(** The law of [put] for a type whose [put] is [append(bigint)]. *)
Lemma put_int_item i s b :
  0 <= i < 2 ^ 128 -> represents s b -> budget b + cost (int_item i) < 2 ^ 32 ->
  exists s', append_bigint s i = Ok s' /\ represents s' (add_item b (int_item i)) /\
             budget (add_item b (int_item i)) <= budget b + cost (int_item i).
Proof using All. intros Hi HR HB. by apply append_bigint_spec. Qed.

Lemma measure_int_item i (f : RLPSize -> res RLPSize) (sized : Prop) :
  0 <= i < 2 ^ 128 -> (forall r, f r = Ok (size_append_bigint r i)) ->
  exists n, 0 <= n /\ (forall r, size_ok r -> f r = Ok (size_bump r n)) /\
    (sized -> len (enc (int_item i)) < 2 ^ 32 -> n = len (enc (int_item i))).
Proof using Type.
  intros Hi Hf. exists (len (enc (int_item i))). split; [lia |]. split; [| done].
  intros r _. rewrite Hf. unfold size_append_bigint. by rewrite size_bigint_spec.
Qed.

Lemma int_of_int_item w flags i :
  (8 | w) -> 0 < w -> 0 <= i < 2 ^ w -> int_of w flags (int_item i) = Ok i.
Proof using Type.
  intros [k ->] Hw Hi. unfold int_item, int_of.
  assert (leading_zero (be_min i) = false) as ->.
  { destruct (Z.eq_dec i 0) as [-> |]; [done |].
    destruct (be_min_head i ltac:(lia)) as (x & l & -> & Hx). rewrite leading_zero_cons.
    by apply Z.eqb_neq. }
  rewrite Z.div_mul, len_be_min by lia.
  replace (2 ^ (k * 8)) with (256 ^ k) in Hi
    by (rewrite Z.mul_comm, Z.pow_mul_r by lia; done).
  pose proof (bytesRequired_le i k ltac:(lia) ltac:(lia)).
  destruct (Z.ltb_spec k (bytesRequired i)); [lia |]. cbn [andb orb].
  rewrite be_value_be_min by lia. rewrite Z.mul_comm, Z.pow_mul_r by lia.
  change (2 ^ 8) with 256. by rewrite Z.mod_small by lia.
Qed.

Lemma pow2_128 w i : 0 < w <= 128 -> 0 <= i < 2 ^ w -> 0 <= i < 2 ^ 128.
Proof. intros Hw Hi. assert (2 ^ w <= 2 ^ 128) by (apply Z.pow_le_mono_r; lia). lia. Qed.

Lemma uint_laws w f (Hw : (8 | w)) (H0 : 0 < w <= 128) :
  (forall mem rlp, f mem rlp = toInt mem w Strict (m_data rlp)) ->
  CodecLaws (mkCodec append_bigint (fun r v => Ok (size_append_bigint r v)) f)
            int_item (uint_valid w) anything.
Proof using All.
  intros Hf. unfold uint_valid. split.
  - intros. apply int_item_leaves.
  - intros x s b Hx. apply put_int_item. by apply (pow2_128 w).
  - intros x Hx. apply (measure_int_item x (fun r => measure _ r x)); [| done].
    by apply (pow2_128 w).
  - intros mem x Hx HI d q HS. cbn [fetch]. rewrite Hf. cbn [m_data fresh].
    rewrite (toInt_item mem d q w Strict (int_item x)) by (done || lia).
    apply int_of_int_item; (done || lia).
Qed.

#[export] Instance c_uint_laws w :
  (8 | w) -> 0 < w <= 128 -> CodecLaws (c_uint w) int_item (uint_valid w) anything.
Proof using All. intros. by apply uint_laws. Qed.

#[export] Instance c_uint64_laws : CodecLaws (c_uint 64) int_item (uint_valid 64) anything.
Proof using All. apply uint_laws; [by exists 8 | lia | done]. Qed.

#[export] Instance c_float_laws : CodecLaws c_float int_item (uint_valid 32) anything.
Proof using All. apply uint_laws; [by exists 4 | lia | done]. Qed.

#[export] Instance c_double_laws : CodecLaws c_double int_item (uint_valid 64) anything.
Proof using All. apply uint_laws; [by exists 8 | lia | done]. Qed.

#[export] Instance c_bool_laws : CodecLaws c_bool bool_tree anything anything.
Proof using All.
  unfold bool_tree. split.
  - intros. apply int_item_leaves.
  - intros x s b _. apply put_int_item. by destruct x.
  - intros x _. apply (measure_int_item _ (fun r => measure c_bool r x)); [by destruct x | done].
  - intros mem x _ HI d q HS. cbn [fetch c_bool]. unfold toBool. cbn [m_data fresh].
    rewrite (toInt_item mem d q 8 Strict _) by (done || lia).
    rewrite int_of_int_item; [by destruct x | by exists 1 | lia | by destruct x].
Qed.

(** Undoing the zigzag map. *)
Lemma unzigzag_zigzag l : int_valid 128 l -> 0 <= zigzag l < 2 ^ 128 /\ unzigzag (zigzag l) = l.
Proof using Type.
  unfold int_valid. intros Hl. rewrite zigzag_value by done. change (128 - 1) with 127 in *.
  split; [case_bool; bool_hyps; lia |]. unfold unzigzag. rewrite shiftr_div by lia.
  rewrite land_1. change (2 ^ 1) with 2.
  destruct (Z.ltb_spec l 0).
  - replace (-2 * l - 1) with (2 * (- l - 1) + 1) by lia.
    replace ((2 * (- l - 1) + 1) `div` 2) with (- l - 1)
      by (apply Z.div_unique with 1; lia).
    replace ((2 * (- l - 1) + 1) `mod` 2) with 1
      by (apply Z.mod_unique with (- l - 1); lia).
    change (u128 (- (1))) with (2 ^ 128 - 1).
    replace (Z.lxor (- l - 1) (2 ^ 128 - 1)) with (2 ^ 128 + l).
    + unfold swrap. change (128 - 1) with 127.
      replace ((2 ^ 128 + l + 2 ^ 127) `mod` 2 ^ 128) with (l + 2 ^ 127)
        by (apply Z.mod_unique with 1; lia). lia.
    + change (2 ^ 128 - 1) with (Z.ones 128). rewrite lxor_ones by lia. lia.
  - rewrite Z.mul_comm, Z.div_mul, Z.mod_mul by lia. change (u128 (- 0)) with 0.
    rewrite Z.lxor_0_r. apply swrap_small; lia.
Qed.

#[export] Instance c_int_laws w :
  0 < w <= 128 -> CodecLaws (c_int w) int_tree (int_valid w) anything.
Proof using All.
  intros Hw. assert (forall x, int_valid w x -> int_valid 128 x) as HV.
  { unfold int_valid. intros x Hx.
    assert (2 ^ (w - 1) <= 2 ^ (128 - 1)) by (apply Z.pow_le_mono_r; lia). lia. }
  unfold int_tree. split.
  - intros. apply int_item_leaves.
  - intros x s b Hx. apply put_int_item. by apply unzigzag_zigzag, HV.
  - intros x Hx. apply (measure_int_item _ (fun r => measure (c_int w) r x)); [| done].
    by apply unzigzag_zigzag, HV.
  - intros mem x Hx HI d q HS. cbn [fetch c_int]. unfold toSignedInt. cbn [m_data fresh].
    destruct (unzigzag_zigzag x (HV x Hx)) as [HR HU].
    rewrite (toInt_item mem d q 128 Strict _) by (done || lia).
    rewrite int_of_int_item by (done || lia || by exists 16). cbn [mbind res_bind]. rewrite HU.
    f_equal. apply swrap_small; [lia | done].
Qed.

Lemma bytes_like_laws (f : bytes -> RLP -> res bytes) :
  (forall mem d p it, item_ok it -> shows mem d p (enc it) ->
     f mem (fresh d) = match it with Str b => Ok b | Lst _ => bad_cast LaissezFaire [] end) ->
  CodecLaws (mkCodec append_bytes (fun r v => Ok (size_append_bytes r v)) f)
            Str bytes_valid anything.
Proof using All.
  intros Hf. split.
  - by intros x [Hx _].
  - intros x s b [Hx _] HR HB. by apply append_bytes_spec.
  - intros x [_ Hx]. exists (len (enc_str x)). split; [lia |]. split; [| done].
    intros r _. cbn [measure]. unfold size_append_bytes. by rewrite size_bytes_spec.
  - intros mem x Hx HI d q HS. cbn [fetch]. by rewrite (Hf mem d q (Str x)).
Qed.

#[export] Instance c_bytes_laws : CodecLaws c_bytes Str bytes_valid anything.
Proof using All. apply bytes_like_laws. intros. by apply (toBytes_spec mem d p it). Qed.

#[export] Instance c_string_laws : CodecLaws c_string Str bytes_valid anything.
Proof using All. apply bytes_like_laws. intros. by apply (rlp_toString_spec mem d p it). Qed.

#[export] Instance c_hash_laws N : CodecLaws (c_hash N) Str (hash_valid N) hash_sized.
Proof using All.
  split.
  - by intros x [Hx _].
  - intros x s b [Hx _] HR HB. by apply append_bytes_spec.
  - intros x (Hx & HE & HN). exists (size_hash N x). split; [| split; [done |]].
    + unfold size_hash. case_bool; [lia |]. case_bool; [lia |].
      destruct (bytesRequired_spec N); lia.
    + intros [Hz Hone] _. by apply size_hash_spec.
  - intros mem x (Hx & HE & HN) HI d q HS. cbn [fetch c_hash m_data fresh].
    rewrite (toHash_item mem d q N Strict (Str x)) by (done || lia).
    unfold hash_of. rewrite HE, Z.ltb_irrefl. cbn [andb orb].
    rewrite Z.sub_diag. cbn. by rewrite ztake_all by lia.
Qed.
End Values.

(** ** Containers *)

Section Containers.
Context `{HL : HostRLPLaws}.

Section Elements.
Context {A} (c : codec A) (tree : A -> item) (valid sized : A -> Prop).
Context `{HC : !CodecLaws c tree valid sized}.

Lemma list_leaves l : Forall valid l -> leaves_ok (list_tree tree l).
Proof using HC.
  intros HF. apply leaves_ok_lst, Forall_fmap. eapply Forall_impl; [exact HF |].
  intros x Hx. by apply (tree_leaves x Hx).
Qed.

Lemma put_elements_spec l s b :
  Forall valid l -> represents s b -> budget b + total_cost (tree <$> l) < 2 ^ 32 ->
  exists s', put_elements (put c) s l = Ok s' /\
             represents s' (foldl add_item b (tree <$> l)) /\
             budget (foldl add_item b (tree <$> l)) <= budget b + total_cost (tree <$> l).
Proof using HC.
  revert s b. induction l as [|x l IH]; intros s b HF HR HB.
  { exists s. cbn in *. split; [done |]. split; [done | lia]. }
  apply Forall_cons in HF as [Hx HF]. cbn in HB. fold (total_cost (tree <$> l)) in HB.
  pose proof (total_cost_len (tree <$> l)).
  destruct (put_law x s b Hx HR) as (s1 & E1 & HR1 & HB1); [lia |].
  destruct (IH s1 _ HF HR1) as (s2 & E2 & HR2 & HB2); [lia |].
  exists s2. cbn. rewrite E1. cbn [mbind res_bind]. split; [done |]. split; [done |].
  fold (total_cost (tree <$> l)). cbn in HB2. lia.
Qed.

Lemma put_sequence_spec l s b :
  Forall valid l -> represents s b -> budget b + cost (list_tree tree l) < 2 ^ 32 ->
  exists s', put_sequence c s l = Ok s' /\ represents s' (add_item b (list_tree tree l)) /\
             budget (add_item b (list_tree tree l)) <= budget b + cost (list_tree tree l).
Proof using All.
  intros HF HR HB. unfold list_tree in *. rewrite cost_list in *.
  pose proof (total_cost_len (tree <$> l)). unfold put_sequence.
  destruct (appendList_spec s b (len l) HR) as (s1 & E1 & HR1 & HB1); [lia | lia |].
  rewrite E1. cbn [mbind res_bind].
  destruct (Z.eqb_spec (len l) 0) as [E0 | E0].
  - destruct l; [| done]. exists s1. cbn in *. split; [done |]. split; [done | lia].
  - destruct (put_elements_spec l s1 _ HF HR1) as (s2 & E2 & HR2 & HB2); [lia |].
    rewrite <- (length_fmap tree l), open_list_full in HR2, HB2 by (by destruct l).
    exists s2. split; [done |]. split; [done |]. rewrite length_fmap in HB2. lia.
Qed.

Lemma size_elements_spec l :
  Forall valid l -> exists n, 0 <= n /\
    (forall r, size_ok r -> size_elements (measure c) l r = Ok (size_bump r n)) /\
    (Forall sized l -> len (flat_map enc (tree <$> l)) < 2 ^ 32 ->
     n = len (flat_map enc (tree <$> l))).
Proof using HC.
  induction 1 as [|x l Hx _ (m & Hm & IHm & IHs)].
  { exists 0. split; [done |]. split; [| done]. intros r Hr. cbn. by rewrite bump_nothing. }
  destruct (measure_law x Hx) as (n & Hn & Em & Es). exists (n + m).
  split; [lia |]. split.
  - intros r Hr. cbn [size_elements]. rewrite Em by done. cbn [mbind res_bind].
    rewrite IHm by auto with codec. by rewrite bump_bump.
  - intros [Hsx Hsl]%Forall_cons. cbn. rewrite length_app. intros HL'.
    rewrite IHs, Es by (done || lia). lia.
Qed.

Lemma size_container_spec l :
  Forall valid l -> exists n, 0 <= n /\
    (forall r, size_ok r -> size_container (measure c) r l = Ok (size_bump r n)) /\
    (Forall sized l -> len (enc (list_tree tree l)) < 2 ^ 32 ->
     n = len (enc (list_tree tree l))).
Proof using HC.
  intros HF. destruct (size_elements_spec l HF) as (n & Hn & Em & Es).
  destruct l as [|x l].
  { exists 1. split; [done |]. by split. }
  exists (list_total (u32 n)). split; [apply list_total_nonneg, wrap_range; lia |].
  split.
  - intros r Hr. unfold size_container. rewrite Em by auto with codec.
    cbn [mbind res_bind]. apply size_list_bump.
  - intros HS HL'. apply list_total_exact; [done |]. apply Es; [done |].
    by apply payload_lt.
Qed.

Lemma converts_all mem l :
  Forall valid l -> item_ok (list_tree tree l) -> Forall (converts mem tree (fetch c mem)) l.
Proof using HC.
  intros HF HI. rewrite Forall_forall in *. intros x Hx. apply fetch_law; [by apply HF |].
  eapply item_ok_elem; [exact HI |]. by apply list_elem_of_fmap_2.
Qed.

Lemma fetch_loop_spec {B} (add : B -> A -> B) mem d q l acc :
  Forall valid l -> item_ok (list_tree tree l) -> shows mem d q (enc (list_tree tree l)) ->
  fetch_loop (fetch c mem) add mem (fresh d) acc = Ok (foldl add acc l).
Proof using HC.
  intros HF HI HS. unfold fetch_loop.
  apply (foreach_values mem tree (fetch c mem) add l d q acc); [done | done |].
  by apply converts_all.
Qed.

Lemma fetch_elements_spec {B} (add : B -> A -> B) mem d q l acc :
  Forall valid l -> item_ok (list_tree tree l) -> shows mem d q (enc (list_tree tree l)) ->
  fetch_elements (fetch c mem) add mem (fresh d) acc = Ok (foldl add acc l).
Proof using HC.
  intros HF HI HS. unfold fetch_elements. cbn [m_data fresh].
  destruct (head_exact mem d q _ HI HS). rewrite hv_list. cbn [mbind res_bind is_lst list_tree].
  by apply (fetch_loop_spec add mem d q).
Qed.
End Elements.

#[export] Instance c_vector_laws {A} (c : codec A) tree valid sized :
  CodecLaws c tree valid sized ->
  CodecLaws (c_vector c) (list_tree tree) (all_prop valid) (all_prop sized).
Proof using All.
  intros HC. split.
  - apply (list_leaves c tree valid sized).
  - intros x s b. apply (put_sequence_spec c tree valid sized).
  - apply (size_container_spec c tree valid sized).
  - intros mem l HF HI d q HS. cbn [fetch c_vector m_data fresh].
    destruct (head_exact mem d q _ HI HS). rewrite hv_list. cbn [mbind res_bind is_lst list_tree].
    unfold itemCount. rewrite hv_list. cbn [mbind res_bind is_lst list_tree].
    rewrite (items_spec mem d q _ HI HS). cbn [mbind res_bind].
    rewrite (fetch_loop_spec c tree valid sized _ mem d q l) by done. by rewrite foldl_snoc.
Qed.

#[export] Instance c_list_laws {A} (c : codec A) tree valid sized :
  CodecLaws c tree valid sized ->
  CodecLaws (c_list c) (list_tree tree) (all_prop valid) (all_prop sized).
Proof using All.
  intros HC. split.
  - apply (list_leaves c tree valid sized).
  - intros x s b. apply (put_sequence_spec c tree valid sized).
  - apply (size_container_spec c tree valid sized).
  - intros mem l HF HI d q HS. cbn [fetch c_list].
    rewrite (fetch_elements_spec c tree valid sized _ mem d q l) by done. by rewrite foldl_snoc.
Qed.

#[export] Instance c_set_laws {A} (c : codec A) less tree valid sized :
  CodecLaws c tree valid sized -> CppLess less ->
  CodecLaws (c_set less c) (list_tree tree) (set_valid less valid) (all_prop sized).
Proof using All.
  intros HC HLess. split.
  - intros x [Hx _]. by apply (list_leaves c tree valid sized).
  - intros x s b [Hx _]. by apply (put_sequence_spec c tree valid sized).
  - intros x [Hx _]. by apply (size_container_spec c tree valid sized).
  - intros mem l [HF HA] HI d q HS. cbn [fetch c_set].
    rewrite (fetch_elements_spec c tree valid sized _ mem d q l) by done.
    by rewrite insert_all.
Qed.

#[export] Instance c_array_laws {A} (c : codec A) N tree valid sized :
  CodecLaws c tree valid sized ->
  CodecLaws (c_array N c) (list_tree tree) (array_valid N valid) (all_prop sized).
Proof using All.
  intros HC. split.
  - intros x [Hx _]. by apply (list_leaves c tree valid sized).
  - intros x s b [Hx _]. by apply (put_sequence_spec c tree valid sized).
  - intros x [Hx _]. by apply (size_container_spec c tree valid sized).
  - intros mem l [HF HN] HI d q HS. cbn [fetch c_array m_data fresh].
    rewrite (itemCountStrict_spec mem d q _ HI HS). unfold list_tree in *. rewrite length_fmap, HN. cbn [mbind res_bind].
    rewrite Z.eqb_refl. cbn [negb].
    apply (array_loop_values mem tree (fetch c mem) l d q HI HS) with (i := 0%nat);
      [by apply (converts_all c tree valid sized) | done | by left | lia].
Qed.

#[export] Instance c_pair_laws {A B} (ca : codec A) (cb : codec B) ta tb va vb sa sb :
  CodecLaws ca ta va sa -> CodecLaws cb tb vb sb ->
  CodecLaws (c_pair ca cb) (pair_tree ta tb) (pair_prop va vb) (pair_prop sa sb).
Proof using All.
  intros HA HB. unfold pair_tree. split.
  - intros [x y] [Hx Hy]. apply leaves_ok_lst. repeat constructor;
      [by apply (tree_leaves (c := ca)) | by apply (tree_leaves (c := cb))].
  - intros [x y] s b [Hx Hy] HR HBu. simpl in Hx, Hy. rewrite cost_list in *.
    cbn [total_cost foldr fst snd] in HBu |- *.
    pose proof (cost_pos (ta x)). pose proof (cost_pos (tb y)). cbn [put c_pair fst snd].
    destruct (appendList_spec s b 2 HR) as (s1 & E1 & HR1 & HB1); [lia | lia |].
    rewrite E1. cbn [mbind res_bind]. change (2 =? 0) with false in *. cbv iota in HR1, HB1.
    destruct (put_law (c := ca) x s1 _ Hx HR1) as (s2 & E2 & HR2 & HB2); [lia |].
    rewrite E2. cbn [mbind res_bind].
    destruct (put_law (c := cb) y s2 _ Hy HR2) as (s3 & E3 & HR3 & HB3); [lia |].
    exists s3. split; [done |].
    change (add_item (add_item (open_list b 2) (ta x)) (tb y))
      with (foldl add_item (open_list b (len [ta x; tb y])) [ta x; tb y]) in HR3, HB3.
    rewrite open_list_full in HR3, HB3 by done. split; [done | lia].
  - intros [x y] [Hx Hy]. simpl in Hx, Hy.
    destruct (measure_law (c := ca) x Hx) as (n & Hn & En & Sn).
    destruct (measure_law (c := cb) y Hy) as (m & Hm & Em & Sm).
    exists (list_total (u32 (n + m))). split; [apply list_total_nonneg, wrap_range; lia |].
    cbn [measure c_pair fst snd]. split.
    + intros r Hr. rewrite En by auto with codec. cbn [mbind res_bind].
      rewrite Em by auto with codec. cbn [mbind res_bind]. rewrite bump_bump.
      apply size_list_bump.
    + intros [Sx Sy] HL'. simpl in Sx, Sy. pose proof (payload_lt _ HL') as HP.
      apply list_total_exact; [done |]. cbn in HP |- *. rewrite app_nil_r, length_app in *.
      rewrite Sn, Sm by (done || lia). lia.
  - intros mem [x y] [Hx Hy] HI d q HS. simpl in Hx, Hy. cbn [fst snd] in HI, HS.
    cbn [fetch c_pair m_data fresh].
    rewrite (itemCountStrict_spec mem d q _ HI HS). cbn [mbind res_bind].
    change (len [ta x; tb y] =? 2) with true. cbn [negb].
    destruct (index_item mem d q _ (fresh d) 0 (ta x) HI HS) as (v & p & r & E & HV & Ed & HC);
      [done | by left | done |].
    change (Z.of_nat 0) with 0 in E. rewrite E. cbn [mbind res_bind].
    rewrite (fetch_law (c := ca) mem x Hx) with (q := p);
      [| eapply item_ok_elem; [exact HI | set_solver] | done]. cbn [mbind res_bind].
    destruct (index_item mem d q _ r 1 (tb y) HI HS) as (v' & p' & r' & E' & HV' & _ & _);
      [done | done | done |].
    change (Z.of_nat 1) with 1 in E'. rewrite E'. cbn [mbind res_bind].
    rewrite (fetch_law (c := cb) mem y Hy) with (q := p');
      [done | eapply item_ok_elem; [exact HI | set_solver] | done].
Qed.

(** A map is a set of pairs ordered by their keys. *)
#[export] Instance c_map_laws {K V} (ck : codec K) (cv : codec V) less tk tv vk vv sk sv :
  CodecLaws ck tk vk sk -> CodecLaws cv tv vv sv -> CppLess less ->
  CodecLaws (c_map less ck cv) (list_tree (pair_tree tk tv))
    (set_valid (fun a b => less (fst a) (fst b)) (pair_prop vk vv)) (all_prop (pair_prop sk sv)).
Proof using All.
  intros HK HV HLess. set (less' := fun a b : K * V => less (fst a) (fst b)).
  assert (CppLess less') as HLess' by (intros a b; apply HLess).
  exact (c_set_laws (c_pair ck cv) less' _ _ _ _ HLess').
Qed.
End Containers.

(** ** Members, classes and tuples *)

Section Members.
Context `{HL : HostRLPLaws}.

#[export] Instance fields_nil_laws : FieldsLaws fields_nil (fun _ => []) anything anything.
Proof using All.
  split; try done.
  - intros x s b _ HR _. exists s. cbn. split; [done |]. split; [done | lia].
  - intros x _. exists 0. split; [done |]. split; [| done]. intros r Hr. by rewrite bump_nothing.
  - intros mem [] pre post d p r _ _ _ Ed HC. by exists r.
Qed.

#[export] Instance fields_cons_laws {A B} (c : codec A) (f : fields B) ta tb va vb sa sb :
  CodecLaws c ta va sa -> FieldsLaws f tb vb sb ->
  FieldsLaws (fields_cons c f) (cons_trees ta tb) (pair_prop va vb) (pair_prop sa sb).
Proof using All.
  intros HA HB. unfold cons_trees. split.
  - intros [x y] [Hx Hy]. cbn [f_count fields_cons fst snd]. rewrite (fields_count y Hy).
    rewrite length_cons. lia.
  - intros [x y] [Hx Hy]. constructor; [by apply (tree_leaves (c := c)) | by apply fields_leaves].
  - intros [x y] s b [Hx Hy] HR HBu. cbn [f_put fields_cons fst snd] in *.
    cbn in HBu. fold (total_cost (tb y)) in HBu.
    pose proof (total_cost_len (tb y)). pose proof (cost_pos (ta x)).
    destruct (put_law (c := c) x s b Hx HR) as (s1 & E1 & HR1 & HB1); [lia |].
    destruct (fields_put y s1 _ Hy HR1) as (s2 & E2 & HR2 & HB2); [lia |].
    exists s2. rewrite E1. cbn. fold (total_cost (tb y)). split; [done |]. split; [done | lia].
  - intros [x y] [Hx Hy]. cbn [f_measure fields_cons fst snd] in *.
    destruct (measure_law (c := c) x Hx) as (n & Hn & En & Sn).
    destruct (fields_measure y Hy) as (m & Hm & Em & Sm).
    exists (n + m). split; [lia |]. split.
    + intros r Hr. rewrite En by done. cbn [mbind res_bind].
      rewrite Em by auto with codec. by rewrite bump_bump.
    + intros [Sx Sy]. cbn. rewrite length_app. intros HL'.
      rewrite Sn, Sm by (done || lia). lia.
  - intros mem [x y] pre post d p r [Hx Hy] HI HS Ed HC.
    cbn [f_fetch fields_cons fst snd] in *.
    set (l := pre ++ (ta x :: tb y) ++ post) in *.
    destruct (index_item mem d p l r (length pre) (ta x) HI HS)
      as (v & q & r1 & E & HV & Ed1 & HC1); [done | done | by apply list_lookup_middle |].
    rewrite E. cbn [mbind res_bind].
    rewrite (fetch_law (c := c) mem x Hx) with (q := q);
      [| eapply item_ok_elem; [exact HI | unfold l; set_solver] | done]. cbn [mbind res_bind].
    assert (l = (pre ++ [ta x]) ++ tb y ++ post) as El by (unfold l; by rewrite <- app_assoc).
    rewrite El in HI, HS, HC1 |- *.
    destruct (fields_fetch mem y (pre ++ [ta x]) post d p r1 Hy HI HS Ed1 HC1)
      as (r2 & E2 & Ed2 & HC2).
    rewrite length_app, Nat2Z.inj_add in E2. change (len [ta x]) with 1 in E2.
    rewrite E2. cbn [mbind res_bind]. by exists r2.
Qed.

Section Class.
Context {A} (f : fields A) (trees : A -> list item) (valid sized : A -> Prop).
Context `{HF : !FieldsLaws f trees valid sized}.

Let tree (x : A) : item := Lst (trees x).

Lemma members_leaves x : valid x -> leaves_ok (tree x).
Proof using HF. intros Hx. apply leaves_ok_lst. by apply (fields_leaves x Hx). Qed.

Lemma reserve_represents s b n : represents s b -> represents (stream_reserve s n) b.
Proof using Type.
  intros (HO & HS & HFr). unfold stream_reserve. case_bool; [| done].
  split; [by apply reserve_holds | done].
Qed.

(** [appendList] of the number of members, then the members, however much room is
    reserved in between. *)
Lemma put_members x s b :
  valid x -> represents s b -> budget b + cost (tree x) < 2 ^ 32 ->
  exists s1 b1, appendList s (f_count f) = Ok s1 /\ represents s1 b1 /\
    forall s2, represents s2 b1 ->
      exists s', f_put f s2 x = Ok s' /\ represents s' (add_item b (tree x)) /\
                 budget (add_item b (tree x)) <= budget b + cost (tree x).
Proof using All.
  intros Hx HR HB. unfold tree in *. rewrite cost_list in *. rewrite (fields_count x Hx).
  pose proof (total_cost_len (trees x)).
  destruct (appendList_spec s b (len (trees x)) HR) as (s1 & E1 & HR1 & HB1); [lia | lia |].
  eexists s1, _. split; [exact E1 |]. split; [exact HR1 |]. intros s2 HR2.
  destruct (fields_put x s2 _ Hx HR2) as (s3 & E3 & HR3 & HB3); [lia |].
  exists s3. split; [done |]. destruct (Z.eqb_spec (len (trees x)) 0) as [E0 | E0].
  - destruct (trees x) as [|t l]; [| done]. cbn in *. split; [done | lia].
  - rewrite open_list_full in HR3, HB3 by (by destruct (trees x)). split; [done | lia].
Qed.

Lemma measure_members_spec x :
  valid x -> exists n, 0 <= n /\
    (forall r, size_ok r -> measure_members f r x = Ok (size_bump r n)) /\
    (sized x -> len (enc (tree x)) < 2 ^ 32 -> n = len (enc (tree x))).
Proof using HF.
  intros Hx. destruct (fields_measure x Hx) as (n & Hn & En & Sn).
  exists (list_total (u32 n)). split; [apply list_total_nonneg, wrap_range; lia |]. split.
  - intros r Hr. unfold measure_members. rewrite En by auto with codec.
    cbn [mbind res_bind]. apply size_list_bump.
  - intros Sx HL'. apply list_total_exact; [done |]. apply Sn; [done |]. by apply payload_lt.
Qed.

Lemma fetch_members_spec mem x :
  valid x -> item_ok (tree x) -> converts mem tree (fetch_members f mem) x.
Proof using HF.
  intros Hx HI d q HS. unfold tree in *. rewrite <- (app_nil_r (trees x)) in HI, HS.
  destruct (fields_fetch mem x [] [] d q (fresh d) Hx HI HS) as (r & E & _);
    [done | by left |].
  unfold fetch_members. change (len (@nil item)) with 0 in E. by rewrite E.
Qed.

#[export] Instance c_tuple_laws : CodecLaws (c_tuple f) tree valid sized.
Proof using All.
  split.
  - apply members_leaves.
  - intros x s b Hx HR HB. cbn [put c_tuple]. unfold put_tuple.
    destruct (put_members x s b Hx HR HB) as (s1 & b1 & -> & HR1 & HP).
    by apply HP.
  - apply measure_members_spec.
  - intros mem x. apply fetch_members_spec.
Qed.

#[export] Instance c_struct_laws : CodecLaws (c_struct f) tree valid sized.
Proof using All.
  split.
  - apply members_leaves.
  - intros x s b Hx HR HB. cbn [put c_struct]. unfold put_struct.
    destruct (put_members x s b Hx HR HB) as (s1 & b1 & -> & HR1 & HP).
    destruct (fields_measure x Hx) as (n & Hn & En & _).
    cbn [mbind res_bind]. rewrite En by apply size_ok_new. cbn [mbind res_bind].
    apply HP. by apply reserve_represents.
  - apply measure_members_spec.
  - intros mem x. apply fetch_members_spec.
Qed.
End Class.
End Members.

Section Views.
Context `{HL : HostRLPLaws} {A B : Type} (c : codec B) (tree : B -> item) (valid sized : B -> Prop).
Context `{HC : !CodecLaws c tree valid sized} (f : A -> B) (g : B -> A).

Lemma c_view_laws :
  (forall x, g (f x) = x) ->
  CodecLaws (c_view f g c) (fun x => tree (f x)) (fun x => valid (f x)) (fun x => sized (f x)).
Proof using All.
  intros Hg. split.
  - intros x. apply (tree_leaves (f x)).
  - intros x s b. apply (put_law (f x)).
  - intros x. apply (measure_law (f x)).
  - intros mem x Hx HI d q HS. cbn [fetch c_view]. rewrite (fetch_law mem (f x) Hx HI d q HS).
    cbn [mbind res_bind]. by rewrite Hg.
Qed.

(** The same for objects that their members determine only when they are proper. *)
Lemma c_view_laws_on (P : A -> Prop) :
  (forall x, P x -> g (f x) = x) ->
  CodecLaws (c_view f g c) (fun x => tree (f x)) (fun x => P x /\ valid (f x))
            (fun x => sized (f x)).
Proof using All.
  intros Hg. split.
  - intros x [_ Hx]. by apply (tree_leaves (f x)).
  - intros x s b [_ Hx]. by apply (put_law (f x)).
  - intros x [_ Hx]. by apply (measure_law (f x)).
  - intros mem x [HP Hx] HI d q HS. cbn [fetch c_view].
    rewrite (fetch_law mem (f x) Hx HI d q HS). cbn [mbind res_bind]. by rewrite Hg.
Qed.
End Views.

(** ** Whole values *)

Section Whole.
Context `{HL : HostRLPLaws} {A} (c : codec A) (tree : A -> item) (valid sized : A -> Prop).
Context `{HC : !CodecLaws c tree valid sized}.

Lemma represents_new : represents stream_new empty_builder.
Proof using Type. split; [apply holds_new |]. done. Qed.

Lemma rlp_enc x :
  valid x -> cost (tree x) < RLP_LIMIT -> rlp c x = Ok (enc (tree x)).
Proof using All.
  intros Hx HB. unfold RLP_LIMIT, SIZE_MAX in HB.
  destruct (put_law x stream_new empty_builder Hx represents_new) as (s & E & HR & _).
  { change (budget empty_builder) with 0. lia. }
  unfold rlp. rewrite E. cbn [mbind res_bind].
  rewrite (stream_out_spec s _ HR). cbn. by rewrite app_nil_r.
Qed.

Lemma shows_whole (data : bytes) : shows data (mk_ref (Some 0) (len data)) 0 data.
Proof using Type.
  repeat split; cbn; try lia. unfold slice. rewrite zdrop_0. by apply ztake_all.
Qed.

Lemma unpack_enc x :
  valid x -> cost (tree x) < RLP_LIMIT -> unpack c (enc (tree x)) = Ok x.
Proof using HC.
  intros Hx HB. pose proof (cost_ok _ (tree_leaves x Hx) HB) as HI.
  pose proof (shows_whole (enc (tree x))) as HS. unfold unpack.
  rewrite (new_exact _ _ 0 (tree x)) by done. cbn [mbind res_bind].
  by apply (fetch_law _ x Hx HI _ 0).
Qed.

Lemma pack_size_enc x :
  valid x -> sized x -> cost (tree x) < RLP_LIMIT -> pack_size c x = Ok (len (enc (tree x))).
Proof using HC.
  intros Hx Hs HB. unfold RLP_LIMIT, SIZE_MAX in HB.
  pose proof (cost_enc (tree x) ltac:(lia)).
  destruct (measure_law x Hx) as (n & Hn & En & Sn). unfold pack_size.
  rewrite En by apply size_ok_new. cbn [mbind res_bind size_bump pending_ size_new rs_size_].
  rewrite Sn by (done || lia). by rewrite wrap_small by lia.
Qed.
End Whole.
