(* ===== verification/CppTypes.v ===== *)
(** * The serialisable C++ types, together

    [ty] is the language of the types a contract can put on the wire: what
    [operator<<] and [fetch] are overloaded on, closed under the containers, tuples and
    classes declared with [PLATON_SERIALIZE]. [codec_of] is the overload the compiler
    selects for a type, and the theorems say that it serialises every value of every
    type faithfully. *)

From Stdlib Require Import Sorted.
From S2P Require Import Prelude Common RlpSpec VectorRef RlpReader RlpReaderFacts RlpConvert.
From S2P Require Import BytesBuffer HostRlp RlpStream RlpSize Serialize SerializeFacts.

(** ** Definitions *)

Inductive width := W8 | W16 | W32 | W64 | W128.

Definition bits (w : width) : Z :=
  match w with W8 => 8 | W16 => 16 | W32 => 32 | W64 => 64 | W128 => 128 end.

(** [TStruct] is a class; a class derived from another has the base as first member. *)
Inductive ty : Type :=
| TBool
| TUint (w : width)
| TInt (w : width)
| TFloat
| TDouble
| TBytes
| TString
| TFixedHash (N : Z)
| TVector (t : ty)
| TList (t : ty)
| TArray (N : Z) (t : ty)
| TSet (t : ty)
| TMap (k v : ty)
| TPair (a b : ty)
| TTuple (ts : tys)
| TStruct (ts : tys)
with tys : Type :=
| TNil
| TCons (t : ty) (ts : tys).

Scheme ty_mind := Induction for ty Sort Prop
  with tys_mind := Induction for tys Sort Prop.
Combined Scheme ty_tys_ind from ty_mind, tys_mind.

(** The values of a type: numbers, bytes, or the elements in iteration order. *)
Fixpoint val (t : ty) : Type :=
  match t with
  | TBool => bool
  | TUint _ | TInt _ | TFloat | TDouble => Z
  | TBytes | TString | TFixedHash _ => bytes
  | TVector t | TList t | TArray _ t | TSet t => list (val t)
  | TMap k v => list (val k * val v)
  | TPair a b => val a * val b
  | TTuple ts | TStruct ts => vals ts
  end
with vals (ts : tys) : Type :=
  match ts with TNil => unit | TCons t ts => val t * vals ts end.

(** [operator<] of the standard library: lexicographic on containers and tuples,
    [memcmp] on hashes, the IEEE order on floating-point bit patterns. *)
Definition less_float (w : Z) (e : Z) (a b : Z) : bool :=
  let sign v := Z.testbit v (w - 1) in
  let magnitude v := v mod 2 ^ (w - 1) in
  let nan v := e <? magnitude v in
  let key v := if sign v : bool then - magnitude v else magnitude v in
  negb (nan a) && negb (nan b) && (key a <? key b).

Definition less_pair {A B} (la : A -> A -> bool) (lb : B -> B -> bool) (x y : A * B) : bool :=
  la (fst x) (fst y) || (negb (la (fst y) (fst x)) && lb (snd x) (snd y)).

Fixpoint less_list {A} (la : A -> A -> bool) (x y : list A) : bool :=
  match x, y with
  | _, [] => false
  | [], _ :: _ => true
  | a :: x', b :: y' => la a b || (negb (la b a) && less_list la x' y')
  end.

Fixpoint less (t : ty) : val t -> val t -> bool :=
  match t with
  | TBool => fun a b => negb a && b
  | TUint _ | TInt _ => Z.ltb
  | TFloat => less_float 32 2139095040
  | TDouble => less_float 64 9218868437227405312
  | TBytes | TString | TFixedHash _ => less_list Z.ltb
  | TVector t | TList t | TArray _ t | TSet t => less_list (less t)
  | TMap k v => less_list (less_pair (less k) (less v))
  | TPair a b => less_pair (less a) (less b)
  | TTuple ts | TStruct ts => less_members ts
  end
with less_members (ts : tys) : vals ts -> vals ts -> bool :=
  match ts with
  | TNil => fun _ _ => false
  | TCons t ts => less_pair (less t) (less_members ts)
  end.

(** The overloads selected for a type. [std::vector<uint8_t>] is the type [bytes], whose
    overload serialises a string: it is [TBytes] here, and [TVector (TUint W8)] stands for
    no C++ type. *)
Section Overloads.
Context `{HostRLP}.

Fixpoint codec_of (t : ty) : codec (val t) :=
  match t with
  | TBool => c_bool
  | TUint w => c_uint (bits w)
  | TInt w => c_int (bits w)
  | TFloat => c_float
  | TDouble => c_double
  | TBytes => c_bytes
  | TString => c_string
  | TFixedHash N => c_hash N
  | TVector t => c_vector (codec_of t)
  | TList t => c_list (codec_of t)
  | TArray N t => c_array N (codec_of t)
  | TSet t => c_set (less t) (codec_of t)
  | TMap k v => c_map (less k) (codec_of k) (codec_of v)
  | TPair a b => c_pair (codec_of a) (codec_of b)
  | TTuple ts => c_tuple (fields_of ts)
  | TStruct ts => c_struct (fields_of ts)
  end
with fields_of (ts : tys) : fields (vals ts) :=
  match ts with
  | TNil => fields_nil
  | TCons t ts => fields_cons (codec_of t) (fields_of ts)
  end.
End Overloads.

(** *** Specification *)

(** The RLP value of a C++ value. *)
Fixpoint tree (t : ty) : val t -> item :=
  match t with
  | TBool => bool_tree
  | TUint _ | TFloat | TDouble => int_item
  | TInt _ => int_tree
  | TBytes | TString | TFixedHash _ => Str
  | TVector t | TList t | TArray _ t | TSet t => list_tree (tree t)
  | TMap k v => list_tree (pair_tree (tree k) (tree v))
  | TPair a b => pair_tree (tree a) (tree b)
  | TTuple ts | TStruct ts => fun x => Lst (trees ts x)
  end
with trees (ts : tys) : vals ts -> list item :=
  match ts with
  | TNil => fun _ => []
  | TCons t ts => cons_trees (tree t) (trees ts)
  end.

(** Values the C++ types can hold: numbers in range, arrays of their length, sets and
    maps in strictly ascending order. *)
Fixpoint valid (t : ty) : val t -> Prop :=
  match t with
  | TBool => anything
  | TUint w => uint_valid (bits w)
  | TInt w => int_valid (bits w)
  | TFloat => uint_valid 32
  | TDouble => uint_valid 64
  | TBytes | TString => bytes_valid
  | TFixedHash N => hash_valid N
  | TVector t | TList t => all_prop (valid t)
  | TArray N t => array_valid N (valid t)
  | TSet t => set_valid (less t) (valid t)
  | TMap k v => set_valid (fun a b => less k (fst a) (fst b)) (pair_prop (valid k) (valid v))
  | TPair a b => pair_prop (valid a) (valid b)
  | TTuple ts | TStruct ts => valid_members ts
  end
with valid_members (ts : tys) : vals ts -> Prop :=
  match ts with
  | TNil => anything
  | TCons t ts => pair_prop (valid t) (valid_members ts)
  end.

(** Values RLPSize counts correctly: all, but for some hashes. *)
Fixpoint sized (t : ty) : val t -> Prop :=
  match t with
  | TBool => anything
  | TUint _ | TInt _ | TFloat | TDouble => anything
  | TBytes | TString => anything
  | TFixedHash _ => hash_sized
  | TVector t | TList t | TArray _ t | TSet t => all_prop (sized t)
  | TMap k v => all_prop (pair_prop (sized k) (sized v))
  | TPair a b => pair_prop (sized a) (sized b)
  | TTuple ts | TStruct ts => sized_members ts
  end
with sized_members (ts : tys) : vals ts -> Prop :=
  match ts with
  | TNil => anything
  | TCons t ts => pair_prop (sized t) (sized_members ts)
  end.

(** ** Properties *)

#[export] Instance less_ltb : CppLess Z.ltb.
Proof. intros x y. rewrite Z.ltb_lt, Z.ltb_ge. lia. Qed.

#[export] Instance less_float_asym w e : CppLess (less_float w e).
Proof.
  intros x y. unfold less_float. cbv zeta. intros HL. apply andb_prop in HL as [_ HL].
  apply Z.ltb_lt in HL. apply andb_false_intro2, Z.ltb_ge. lia.
Qed.

#[export] Instance less_pair_asym {A B} (la : A -> A -> bool) (lb : B -> B -> bool) :
  CppLess la -> CppLess lb -> CppLess (less_pair la lb).
Proof.
  intros HA HB [a b] [c d]. unfold less_pair. cbn. pose proof (HA a c). pose proof (HB b d).
  destruct (la a c), (la c a), (lb b d), (lb d b); naive_solver.
Qed.

#[export] Instance less_list_asym {A} (la : A -> A -> bool) : CppLess la -> CppLess (less_list la).
Proof.
  intros HA x. induction x as [|a x IH]; intros [|b y] Hxy; try done.
  cbn in *. pose proof (HA a b). specialize (IH y).
  destruct (la a b), (la b a), (less_list la x y), (less_list la y x); naive_solver.
Qed.

Lemma less_laws :
  (forall t, CppLess (less t)) /\ (forall ts, CppLess (less_members ts)).
Proof.
  apply ty_tys_ind; cbn; intros; try apply _.
  - by intros [|] [|].
  - done.
Qed.

#[export] Instance less_law t : CppLess (less t).
Proof. apply less_laws. Qed.

Section Types.
Context `{HL : HostRLPLaws}.

(** Every overload keeps the promise of a codec, by induction on the type. *)
Lemma type_laws :
  (forall t, CodecLaws (codec_of t) (tree t) (valid t) (sized t)) /\
  (forall ts, FieldsLaws (fields_of ts) (trees ts) (valid_members ts) (sized_members ts)).
Proof using All.
  apply ty_tys_ind; cbn [codec_of fields_of tree trees valid valid_members sized sized_members];
    intros; try apply _.
  - apply c_uint_laws; [| destruct w; cbn; lia].
    destruct w; [by exists 1 | by exists 2 | by exists 4 | by exists 8 | by exists 16].
  - apply c_int_laws; destruct w; cbn; lia.
Qed.

#[export] Instance codec_of_laws t : CodecLaws (codec_of t) (tree t) (valid t) (sized t).
Proof using All. apply type_laws. Qed.

(** C1. The round trip of every serialisable C++ type: writing a value to an
    RLPStream, taking the stream's bytes, reading them with RLP's default checks and
    fetching gives the value back. *)
Theorem serialize_roundtrip (t : ty) (x : val t) :
  valid t x -> cost (tree t x) < RLP_LIMIT ->
  (data ← rlp (codec_of t) x; unpack (codec_of t) data) = Ok x.
Proof using All.
  intros Hx HB. rewrite (rlp_enc (codec_of t) (tree t) (valid t) (sized t)) by done.
  cbn [mbind res_bind]. by apply (unpack_enc (codec_of t) (tree t) (valid t) (sized t)).
Qed.

(** C2. The stream with its list stack writes exactly the RLP encoding of the value:
    lists are completed where they must be and every header has the right length. *)
Theorem serialize_is_rlp (t : ty) (x : val t) :
  valid t x -> cost (tree t x) < RLP_LIMIT ->
  rlp (codec_of t) x = Ok (enc (tree t x)).
Proof using All. apply (rlp_enc (codec_of t) (tree t) (valid t) (sized t)). Qed.

(** C23. [pack_size] computes the size of the encoding without encoding, for every value
    without an all-zero hash or a one-byte hash below 128. *)
Theorem pack_size_exact (t : ty) (x : val t) :
  valid t x -> sized t x -> cost (tree t x) < RLP_LIMIT ->
  exists data, rlp (codec_of t) x = Ok data /\ pack_size (codec_of t) x = Ok (len data).
Proof using All.
  intros Hx Hs HB. eexists.
  split; [by apply (rlp_enc (codec_of t) (tree t) (valid t) (sized t)) |].
  by apply (pack_size_enc (codec_of t) (tree t) (valid t) (sized t)).
Qed.
End Types.

(** A class with a signed number, a map from numbers to strings and a tuple with a hash
    and an array. *)
Definition sample_type : ty :=
  TStruct (TCons (TInt W32) (TCons (TMap (TUint W8) TString)
    (TCons (TTuple (TCons (TFixedHash 2) (TCons (TArray 2 TBool) TNil))) TNil))).

Definition sample : val sample_type :=
  (-300, ([(1, [97; 98]); (200, [])], (([7; 0], ([true; false], tt)), tt))).

Lemma sample_valid : valid sample_type sample.
Proof.
  repeat split; cbn; try lia; repeat constructor; cbn; unfold uint_valid, is_byte; try lia; done.
Qed.

Lemma serialize_roundtrip_witness :
  (data ← @rlp _ (@codec_of host_rlp sample_type) sample;
   unpack (@codec_of host_rlp sample_type) data) = Ok sample.
Proof.
  apply (@serialize_roundtrip host_rlp host_rlp_laws sample_type sample).
  - apply sample_valid.
  - vm_compute. reflexivity.
Defined.

Lemma serialize_is_rlp_witness :
  @rlp _ (@codec_of host_rlp sample_type) sample = Ok (enc (tree sample_type sample)).
Proof.
  apply (@serialize_is_rlp host_rlp host_rlp_laws sample_type sample).
  - apply sample_valid.
  - vm_compute. reflexivity.
Defined.

Lemma pack_size_exact_witness :
  exists data, @rlp _ (@codec_of host_rlp sample_type) sample = Ok data /\
    @pack_size _ (@codec_of host_rlp sample_type) sample = Ok (len data).
Proof.
  apply (@pack_size_exact host_rlp host_rlp_laws sample_type sample).
  - apply sample_valid.
  - repeat split; cbn; repeat constructor; done.
  - vm_compute. reflexivity.
Defined.
