(* ===== verification/RlpValue.v ===== *)
(** * RLP.h: a value converted to any type, and compared

    [RLP::convert<T>] with the [Converter] specialisations of
    [src/libraries/platonlib/include/platon/RLP.h], the explicit conversion operators
    with their default flags, the comparison operators and the two remaining
    conversions of [class RLP]. [value_of] says what each conversion makes of an RLP
    value, for every type and all flags; the theorems show that the reader computes it. *)

From S2P Require Import Prelude Common RlpSpec VectorRef RlpReader RlpReaderFacts RlpConvert BytesBuffer HostRlp RlpStream RlpSize Serialize SerializeFacts CppTypes.

(** ** Definitions *)

(** The value-initialised [T()]. *)
Fixpoint dflt (t : ty) : val t :=
  match t with
  | TBool => false
  | TUint _ | TInt _ | TFloat | TDouble => 0
  | TBytes | TString => []
  | TFixedHash N => replicate (Z.to_nat N) 0
  | TVector _ | TList _ | TSet _ | TMap _ _ => []
  | TArray N t => replicate (Z.to_nat N) (dflt t)
  | TPair a b => (dflt a, dflt b)
  | TTuple ts | TStruct ts => dflts ts
  end
with dflts (ts : tys) : vals ts :=
  match ts with TNil => tt | TCons t ts => (dflt t, dflts ts) end.

Section Value.
Context (mem : bytes).

(** [Converter<T>::convert]: the types without a specialisation fall to the general
    template, which throws. [bigint] is the 128-bit unsigned integer; there is no
    specialisation for the signed one. *)
Fixpoint convert (t : ty) : Z -> RLP -> res (val t) :=
  match t with
  | TBool => fun flags r => toBool mem flags (m_data r)
  | TUint w => fun flags r => toInt mem (bits w) flags (m_data r)
  | TInt w => fun flags r =>
      match w with
      | W128 => platon_throw "bad cast"
      | _ => toSignedInt mem (bits w) flags (m_data r)
      end
  | TFloat => fun flags r => toFloat mem flags (m_data r)
  | TDouble => fun flags r => toDouble mem flags (m_data r)
  | TBytes => fun flags r => toBytes mem flags (m_data r)
  | TString => fun flags r => rlp_toString mem flags (m_data r)
  | TFixedHash N => fun flags r => toHash mem N flags (m_data r)
  | TVector t => fun flags r => toVector mem (convert t flags) flags (m_data r)
  | TSet t => fun flags r => toSet mem (set_insert (less t)) (convert t flags) flags (m_data r)
  | TArray N t => fun flags r => toArray mem (convert t flags) N (dflt t) flags r
  | TPair a b => fun flags r =>
      toPair mem (convert a flags) (convert b flags) (dflt a, dflt b) flags r
  | TList _ | TMap _ _ | TTuple _ | TStruct _ => fun _ _ => platon_throw "bad cast"
  end.

(** The conversion operators call the conversions with their default arguments. *)
Definition default_flags (t : ty) : Z :=
  match t with
  | TBytes | TString | TVector _ | TSet _ | TArray _ _ => LaissezFaire
  | _ => Strict
  end.

(** [explicit operator T() const] for the numbers, bytes and containers; there is one
    for [int128_t]. [operator bool] does not convert: it says that the view is not null. *)
Definition cast (t : ty) (r : RLP) : res (val t) :=
  match t with
  | TBool => Ok (negb (isNull (m_data r)))
  | TInt w => toSignedInt mem (bits w) Strict (m_data r)
  | t => convert t (default_flags t) r
  end.

(** The comparisons with text: a [char const*] ends at its first zero byte. *)
Fixpoint c_text (s : bytes) : bytes :=
  match s with [] => [] | c :: s' => if c =? 0 then [] else c :: c_text s' end.

Definition eq_string (s : bytes) (d : vector_ref) : res bool :=
  b ← isData mem d;
  if b : bool then x ← rlp_toString mem LaissezFaire d; Ok (bool_decide (x = s)) else Ok false.

Definition ne_string (s : bytes) (d : vector_ref) : res bool :=
  b ← isData mem d;
  if b : bool then x ← rlp_toString mem LaissezFaire d; Ok (bool_decide (x <> s)) else Ok false.

Definition eq_cstr (s : bytes) (d : vector_ref) : res bool := eq_string (c_text s) d.
Definition ne_cstr (s : bytes) (d : vector_ref) : res bool := ne_string (c_text s) d.

(** The comparisons with an integer of [w] bits: [unsigned] (32) and [bigint] (128). *)
Definition eq_int (w i : Z) (d : vector_ref) : res bool :=
  b ← isInt mem d;
  if b : bool then x ← toInt mem w Strict d; Ok (x =? i) else Ok false.

Definition ne_int (w i : Z) (d : vector_ref) : res bool :=
  b ← isInt mem d;
  if b : bool then x ← toInt mem w Strict d; Ok (negb (x =? i)) else Ok false.

(** [toInt<int64_t>]: the shifts and casts of [fromBigEndian] in a signed type give the
    two's complement of what they give in the unsigned one. *)
Definition toPositiveInt64 (flags : Z) (d : vector_ref) : res Z :=
  u ← toInt mem 64 flags d;
  let i := swrap 64 u in
  if has flags ThrowOnFail && (i <? 0) then platon_throw "bad cast" else Ok i.

(** A [std::unordered_set] is the list of its elements without repetition; the order
    in which the library iterates over them is not modelled. *)
Definition unordered_insert {T} `{EqDecision T} (x : T) (l : list T) : list T :=
  if bool_decide (x ∈ l) then l else l ++ [x].

Definition toUnorderedSet {T} `{EqDecision T} (conv : RLP -> res T) (flags : Z) (d : vector_ref)
    : res (list T) :=
  b ← isList mem d;
  if b : bool then
    rlp_foreach mem (fun ret i => x ← conv i; Ok (unordered_insert x ret)) d []
  else bad_cast flags [].
End Value.

(** [operator<<], [fetch] and the size of a [std::unordered_set]. *)
Definition c_unordered_set {T} `{HostRLP} `{EqDecision T} (c : codec T) : codec (list T) := mkCodec
  (put_sequence c)
  (size_container (measure c))
  (fun mem rlp => fetch_elements (fetch c mem) (fun l x => unordered_insert x l) mem rlp []).

(** *** Specification *)

(** Every element of a list, in order, up to the first that fails. *)
Fixpoint traverse {A B} (f : A -> res B) (l : list A) : res (list B) :=
  match l with
  | [] => Ok []
  | x :: l' => y ← f x; ys ← traverse f l'; Ok (y :: ys)
  end.

Definition str_of (flags : Z) (it : item) : res bytes :=
  match it with Str b => Ok b | Lst _ => bad_cast flags [] end.

Definition signed_of (w flags : Z) (it : item) : res Z :=
  u ← int_of 128 flags it; Ok (swrap w (unzigzag u)).

Definition elements_of {A} (f : item -> res A) (flags : Z) (it : item) : res (list A) :=
  match it with Lst l => traverse f l | Str _ => bad_cast flags [] end.

(** What [convert<T>] makes of an RLP value. *)
Fixpoint value_of (t : ty) : Z -> item -> res (val t) :=
  match t with
  | TBool => fun flags it => i ← int_of 8 flags it; Ok (negb (i =? 0))
  | TUint w => fun flags it => int_of (bits w) flags it
  | TInt w => fun flags it =>
      match w with W128 => platon_throw "bad cast" | _ => signed_of (bits w) flags it end
  | TFloat => int_of 32
  | TDouble => fun _ it => int_of 64 Strict it
  | TBytes | TString => str_of
  | TFixedHash N => hash_of N
  | TVector t => fun flags it => elements_of (value_of t flags) flags it
  | TSet t => fun flags it =>
      xs ← elements_of (value_of t flags) flags it;
      Ok (foldl (fun s x => set_insert (less t) x s) [] xs)
  | TArray N t => fun flags it =>
      match it with
      | Lst l => if len l =? N then traverse (value_of t flags) l
                 else bad_cast flags (replicate (Z.to_nat N) (dflt t))
      | Str _ => platon_throw "bad cast"
      end
  | TPair a b => fun flags it =>
      match it with
      | Lst [x; y] => x' ← value_of a flags x; y' ← value_of b flags y; Ok (x', y')
      | Lst _ => bad_cast flags (dflt a, dflt b)
      | Str _ => platon_throw "bad cast"
      end
  | TList _ | TMap _ _ | TTuple _ | TStruct _ => fun _ _ => platon_throw "bad cast"
  end.

(** Hashes of no negative size. *)
Fixpoint sizes_ok (t : ty) : Prop :=
  match t with
  | TFixedHash N => 0 <= N
  | TVector t | TSet t | TArray _ t => sizes_ok t
  | TPair a b => sizes_ok a /\ sizes_ok b
  | _ => True
  end.

(** The types with a conversion. *)
Fixpoint convertible (t : ty) : bool :=
  match t with
  | TInt W128 | TList _ | TMap _ _ | TTuple _ | TStruct _ => false
  | TVector t | TSet t | TArray _ t => convertible t
  | TPair a b => convertible a && convertible b
  | _ => true
  end.

(** ** Lemmas *)

Lemma elements_of_ok {A} (f : item -> res A) flags xs l :
  Forall2 (fun x y => f x = Ok y) l xs -> elements_of f flags (Lst l) = Ok xs.
Proof. cbn. induction 1 as [|x y l ys E _ IH]; [done |]. cbn. by rewrite E, IH. Qed.

Lemma traverse_length {A B} (f : A -> res B) l ys : traverse f l = Ok ys -> length ys = length l.
Proof.
  revert ys. induction l as [|x l IH]; intros ys E; cbn in E; inv_ok; [done |].
  cbn. f_equal. by apply IH.
Qed.

Section Facts.
Context (mem : bytes).

(** [conv] makes of the encoding of [it] what [f] says. *)
Definition computes {T} (f : item -> res T) (conv : RLP -> res T) (it : item) : Prop :=
  forall d q, shows mem d q (enc it) -> conv (fresh d) = f it.

(** A loop that converts every element: it fails where the first element fails. *)
Lemma foldM_traverse {T A} (f : item -> res T) conv (g : A -> T -> A) l q acc :
  shows mem (mk_ref (Some q) (len (flat_map enc l))) q (flat_map enc l) ->
  Forall (computes f conv) l ->
  foldM (fun a r => x ← conv (fresh r); Ok (g a x)) acc (item_refs q l)
  = (xs ← traverse f l; Ok (foldl g acc xs)).
Proof.
  revert q acc. induction l as [|x l IH]; intros q acc H HF; [done |].
  destruct (shows_sequence mem _ _ _ H) as [H1 H2]. apply Forall_cons in HF as [Hx HF].
  cbn [item_refs foldM traverse]. rewrite (Hx _ _ H1).
  destruct (f x) as [y | | | |]; cbn [mbind res_bind]; try done.
  rewrite IH by done. by destruct (traverse f l).
Qed.

Lemma foreach_traverse {T A} (f : item -> res T) conv (g : A -> T -> A) l d p acc :
  item_ok (Lst l) -> shows mem d p (enc (Lst l)) -> Forall (computes f conv) l ->
  rlp_foreach mem (fun a i => x ← conv i; Ok (g a x)) d acc
  = (xs ← traverse f l; Ok (foldl g acc xs)).
Proof.
  intros HI H HF. rewrite (rlp_foreach_spec mem _ d p l) by done.
  destruct (payload_exact mem d p _ HI H) as [_ HP]. by apply foldM_traverse.
Qed.

Lemma toVector_total {T} (f : item -> res T) conv flags it d p :
  item_ok it -> shows mem d p (enc it) ->
  (forall l, it = Lst l -> Forall (computes f conv) l) ->
  toVector mem conv flags d = elements_of f flags it.
Proof.
  intros HI H HF. destruct (head_exact mem d p _ HI H). unfold toVector. rewrite hv_list.
  destruct it as [b | l]; [done |]. cbn [mbind res_bind is_lst elements_of]. unfold itemCount.
  rewrite hv_list. cbn [mbind res_bind is_lst]. rewrite (items_spec mem d p _ HI H).
  cbn [mbind res_bind]. rewrite (foreach_traverse f conv _ l d p) by auto.
  destruct (traverse f l); try done. cbn. by rewrite foldl_snoc.
Qed.

Lemma toSet_total {T} insert (f : item -> res T) conv flags it d p :
  item_ok it -> shows mem d p (enc it) ->
  (forall l, it = Lst l -> Forall (computes f conv) l) ->
  toSet mem insert conv flags d =
  (xs ← elements_of f flags it; Ok (foldl (fun s x => insert x s) [] xs)).
Proof.
  intros HI H HF. destruct (head_exact mem d p _ HI H). unfold toSet. rewrite hv_list.
  destruct it as [b | l]; cbn [mbind res_bind is_lst elements_of].
  - unfold bad_cast. by case_bool.
  - by rewrite (foreach_traverse f conv (fun s x => insert x s) l d p) by auto.
Qed.

Lemma toPair_total {T U} (f : item -> res T) (f' : item -> res U) conv conv' ret flags it d p :
  item_ok it -> shows mem d p (enc it) ->
  (forall l, it = Lst l -> Forall (computes f conv) l) ->
  (forall l, it = Lst l -> Forall (computes f' conv') l) ->
  toPair mem conv conv' ret flags (fresh d) =
  match it with
  | Lst [x; y] => x' ← f x; y' ← f' y; Ok (x', y')
  | Lst _ => bad_cast flags ret
  | Str _ => platon_throw "bad cast"
  end.
Proof.
  intros HI H HF HF'. unfold toPair. cbn [m_data fresh].
  rewrite (itemCountStrict_spec mem d p _ HI H).
  destruct it as [b | [|x [|y [|z l]]]]; try done; cbn [mbind res_bind].
  2: { destruct (Z.eqb_spec (len (x :: y :: z :: l)) 2); [cbn in *; lia | done]. }
  change (negb (len [x; y] =? 2)) with false. cbn iota.
  specialize (HF _ eq_refl). specialize (HF' _ eq_refl). decompose_Forall_hyps.
  destruct (index_item mem d p _ (fresh d) 0 x HI H) as (v & q & r & E & HS & Ed & HC);
    [done | by left | done |].
  change (Z.of_nat 0) with 0 in E. rewrite E. cbn [mbind res_bind].
  match goal with HX : computes f conv x |- _ => rewrite (HX _ _ HS) end.
  destruct (f x); try done. cbn [mbind res_bind].
  destruct (index_item mem d p _ r 1 y HI H) as (v' & q' & r' & E' & HS' & _ & _); try done.
  change (Z.of_nat 1) with 1 in E'. rewrite E'. cbn [mbind res_bind].
  match goal with HX : computes f' conv' y |- _ => by rewrite (HX _ _ HS') end.
Qed.

Lemma array_loop_traverse {T} (f : item -> res T) conv l d p :
  item_ok (Lst l) -> shows mem d p (enc (Lst l)) -> Forall (computes f conv) l ->
  forall k i r, m_data r = d -> cache_ok (p + len (prefix_of (Lst l))) l r ->
    (i + k = length l)%nat ->
    array_loop mem conv k (Z.of_nat i) r = traverse f (drop i l).
Proof.
  intros HI H HF. induction k as [|k IH]; intros i r Ed HC Hk.
  { by rewrite drop_ge by lia. }
  destruct (lookup_lt_is_Some_2 l i ltac:(lia)) as [x Hx].
  destruct (index_item mem d p _ r i x HI H) as (v & q & r' & E & HS & Ed' & HC'); try done.
  cbn [array_loop]. rewrite E, (drop_S l x i Hx). cbn [mbind res_bind traverse].
  rewrite Forall_lookup in HF. rewrite (HF i x Hx _ _ HS).
  destruct (f x); try done. cbn [mbind res_bind].
  replace (Z.of_nat i + 1) with (Z.of_nat (S i)) by lia. by rewrite IH by (done || lia).
Qed.

Lemma toArray_total {T} (f : item -> res T) conv N dflt flags it d p :
  item_ok it -> shows mem d p (enc it) ->
  (forall l, it = Lst l -> Forall (computes f conv) l) ->
  toArray mem conv N dflt flags (fresh d) =
  match it with
  | Lst l => if len l =? N then traverse f l else bad_cast flags (replicate (Z.to_nat N) dflt)
  | Str _ => platon_throw "bad cast"
  end.
Proof.
  intros HI H HF. unfold toArray. cbn [m_data fresh].
  rewrite (itemCountStrict_spec mem d p _ HI H). destruct it as [b | l]; [done |].
  cbn [mbind res_bind]. destruct (Z.eqb_spec (len l) N) as [<- |]; [| done]. cbn [negb].
  rewrite Nat2Z.id. rewrite <- (drop_0 l) at 2.
  apply (array_loop_traverse f conv l d p HI H) with (i := 0%nat); [auto | done | by left | lia].
Qed.

Lemma toInt_of d p w flags it :
  item_ok it -> shows mem d p (enc it) -> 0 <= w -> toInt mem w flags d = int_of w flags it.
Proof. intros. by apply (toInt_item mem d p). Qed.

Lemma bits_pos w : 0 < bits w.
Proof. by destruct w. Qed.

(** Every conversion of every value, nested to any depth. *)
Lemma convert_computes t : forall flags it,
  sizes_ok t -> item_ok it -> computes (value_of t flags) (convert mem t flags) it.
Proof.
  induction t; intros flags it Hs HI d q H; cbn [convert value_of m_data fresh] in *; try done.
  - unfold toBool. by rewrite (toInt_of d q _ _ it) by done.
  - pose proof (bits_pos w). apply (toInt_of d q); [done | done | lia].
  - unfold toSignedInt, signed_of. by destruct w; rewrite ?(toInt_of d q _ _ it) by done.
  - by apply (toInt_of d q).
  - by apply (toInt_of d q).
  - by apply (toBytes_spec mem d q).
  - by apply (rlp_toString_spec mem d q).
  - by apply (toHash_item mem d q).
  - apply (toVector_total _ _ _ _ d q HI H). intros l ->.
    pose proof (item_ok_forall l HI) as HF. eapply Forall_impl; [exact HF | auto].
  - apply (toArray_total _ _ _ _ _ _ d q HI H). intros l ->.
    pose proof (item_ok_forall l HI) as HF. eapply Forall_impl; [exact HF | auto].
  - apply (toSet_total _ _ _ _ _ d q HI H). intros l ->.
    pose proof (item_ok_forall l HI) as HF. eapply Forall_impl; [exact HF | auto].
  - destruct Hs as [Ha Hb]. apply (toPair_total _ _ _ _ _ _ _ d q HI H); intros l ->;
      pose proof (item_ok_forall l HI) as HF; (eapply Forall_impl; [exact HF | auto]).
Qed.
End Facts.

(** ** Values written by [operator<<] *)

Lemma traverse_values {A} (tree : A -> item) (f : item -> res A) xs :
  Forall (fun x => f (tree x) = Ok x) xs -> traverse f (tree <$> xs) = Ok xs.
Proof. induction 1 as [|x xs E _ IH]; [done |]. cbn. by rewrite E, IH. Qed.

Lemma int_valid_128 w v : 0 < w <= 128 -> int_valid w v -> int_valid 128 v.
Proof.
  unfold int_valid. intros Hw Hv.
  assert (2 ^ (w - 1) <= 2 ^ (128 - 1)) by (apply Z.pow_le_mono_r; lia). lia.
Qed.

Lemma signed_of_tree w v flags :
  0 < w <= 128 -> int_valid w v -> signed_of w flags (int_tree v) = Ok v.
Proof.
  intros Hw Hv. unfold signed_of, int_tree.
  destruct (unzigzag_zigzag v (int_valid_128 w v Hw Hv)) as [HR HU].
  rewrite int_of_int_item by (done || lia || by exists 16). cbn [mbind res_bind]. rewrite HU.
  f_equal. by apply swrap_small; [lia |].
Qed.

Lemma bits_octets w : (8 | bits w).
Proof. destruct w; [by exists 1 | by exists 2 | by exists 4 | by exists 8 | by exists 16]. Qed.

(** Whatever the flags, a conversion gives back the value of its type. *)
Lemma value_of_tree t : forall flags x,
  convertible t = true -> valid t x -> value_of t flags (tree t x) = Ok x.
Proof.
  induction t; intros flags x Hc Hx; cbn [convertible valid tree value_of val] in *; try done.
  - unfold bool_tree. by destruct x; rewrite int_of_int_item by (done || by exists 1).
  - apply int_of_int_item; [apply bits_octets | apply bits_pos | done].
  - destruct w; try done; by apply signed_of_tree.
  - by apply int_of_int_item; [exists 4 | |].
  - by apply int_of_int_item; [exists 8 | |].
  - destruct Hx as (_ & HL & HN). cbn. rewrite HL, Z.ltb_irrefl. cbn. f_equal.
    rewrite Z.sub_diag. cbn. apply ztake_all. lia.
  - apply traverse_values. eapply Forall_impl; [exact Hx | auto].
  - destruct Hx as [HF <-]. cbn. rewrite length_fmap, Z.eqb_refl. apply traverse_values.
    eapply Forall_impl; [exact HF | auto].
  - destruct Hx as [HF HA]. cbn. rewrite traverse_values.
    + cbn [mbind res_bind]. f_equal. by apply insert_all; [apply _ |].
    + eapply Forall_impl; [exact HF | auto].
  - apply andb_prop in Hc as [Ha Hb]. destruct x as [x y], Hx as [Hx Hy]. cbn.
    by rewrite IHt1, IHt2.
Qed.

(** ** Properties *)

(** C21. A conversion of an RLP value to any type, with any flags, nested to any depth:
    [convert<T>] computes [value_of], which never looks past the value; it throws, or
    falls back to the default of the type, exactly where [value_of] does, and the first
    element that does not convert decides the result of a list. *)
Theorem convert_total (pre post : bytes) (it : item) (t : ty) (flags : Z) :
  sizes_ok t -> item_ok it ->
  convert (pre ++ enc it ++ post) t flags (fresh (view_of pre it)) = value_of t flags it.
Proof. intros Hs HI. by apply (convert_computes _ t flags it Hs HI _ _ (view_shows pre it post)). Qed.

(** C22. What [operator<<] writes, [convert<T>] reads, for every type that has a
    [Converter] and every set of flags: the two ways to read a value, [fetch] and
    [convert], agree. *)
Theorem convert_roundtrip `{HL : HostRLPLaws} (t : ty) (x : val t) (flags : Z) :
  convertible t = true -> sizes_ok t -> valid t x -> cost (tree t x) < RLP_LIMIT ->
  (data ← rlp (codec_of t) x;
   r ← RLP_new data (mk_ref (Some 0) (len data)) VeryStrict;
   convert data t flags r) = Ok x.
Proof.
  intros Hc Hs Hx HB.
  pose proof (tree_leaves (CodecLaws := codec_of_laws t) x Hx) as HV.
  rewrite (rlp_enc (codec_of t) (tree t) (valid t) (sized t)) by done. cbn [mbind res_bind].
  pose proof (cost_ok _ HV HB) as HI.
  pose proof (shows_whole (enc (tree t x))) as HS.
  rewrite (new_exact _ _ 0 (tree t x)) by done. cbn [mbind res_bind].
  rewrite (convert_computes _ t flags _ Hs HI _ _ HS). by apply value_of_tree.
Qed.

(** The comparisons of an RLP value: with a text both operators look at strings only,
    so that a list is neither equal nor different; with an integer a string too long for
    the integer's type is not unequal but ends the transaction. *)
Theorem comparisons (pre post : bytes) (it : item) (s : bytes) (w i : Z) :
  0 <= w -> item_ok it ->
  eq_string (pre ++ enc it ++ post) s (view_of pre it)
    = Ok (match it with Str b => bool_decide (b = s) | Lst _ => false end) /\
  ne_string (pre ++ enc it ++ post) s (view_of pre it)
    = Ok (match it with Str b => bool_decide (b <> s) | Lst _ => false end) /\
  eq_int (pre ++ enc it ++ post) w i (view_of pre it) =
    match it with
    | Lst _ => Ok false
    | Str b =>
        if leading_zero b then Ok false
        else if w / 8 <? len b then platon_throw "bad cast"
        else Ok (be_value b mod 2 ^ w =? i)
    end.
Proof.
  intros Hw HI. pose proof (view_shows pre it post) as HS.
  destruct (head_exact _ _ _ _ HI HS). unfold eq_string, ne_string, eq_int.
  rewrite hv_data, (rlp_toString_spec _ _ _ _ LaissezFaire HI HS). destruct it as [b | l].
  - do 2 (split; [done |]). rewrite (isInt_spec _ _ _ b HI HS), (toInt_item _ _ _ w Strict _ Hw HI HS).
    cbn. destruct (leading_zero b); [done |]. cbn.
    change (has Strict FailIfTooBig) with true. rewrite andb_true_r. by case_bool.
  - do 2 (split; [done |]). by rewrite (isInt_list _ _ _ l HI HS).
Qed.

(** [toUnorderedSet] of a list: the converted elements, each once. *)
Lemma unordered_elements `{EqDecision T} (xs acc : list T) :
  NoDup acc -> let s := foldl (fun s x => unordered_insert x s) acc xs in
  NoDup s /\ forall x, x ∈ s <-> x ∈ acc \/ x ∈ xs.
Proof.
  revert acc. induction xs as [|x xs IH]; intros acc HN; [split; set_solver |].
  cbn [foldl]. destruct (IH (unordered_insert x acc)) as [H1 H2].
  { unfold unordered_insert. case_bool_decide; [done |]. apply NoDup_app.
    split; [done |]. split; [set_solver | apply NoDup_singleton]. }
  split; [done |]. intros y. rewrite H2. unfold unordered_insert. case_bool_decide; set_solver.
Qed.

(** Elements inserted in the order they were written. *)
Lemma unordered_rebuild `{EqDecision T} (l pre : list T) :
  NoDup (pre ++ l) -> foldl (fun s x => unordered_insert x s) pre l = pre ++ l.
Proof.
  revert pre. induction l as [|x l IH]; intros pre HN; [by rewrite app_nil_r |]. cbn [foldl].
  unfold unordered_insert at 2. rewrite bool_decide_eq_false_2.
  - rewrite IH; rewrite <- app_assoc; done.
  - apply NoDup_app in HN as (_ & HN & _). intros Hx. apply (HN x Hx). by left.
Qed.

(** What is written of an unordered set is read back with the same elements. *)
#[export] Instance c_unordered_set_laws `{HL : HostRLPLaws} {T} `{EqDecision T} (c : codec T) tree valid sized :
  CodecLaws c tree valid sized ->
  CodecLaws (c_unordered_set c) (list_tree tree) (fun l => Forall valid l /\ NoDup l) (all_prop sized).
Proof using All.
  intros HC. split.
  - intros x [Hx _]. by apply (list_leaves c tree valid sized).
  - intros x s b [Hx _]. by apply (put_sequence_spec c tree valid sized).
  - intros x [Hx _]. by apply (size_container_spec c tree valid sized).
  - intros mem l [HF HA] HI d q HS. cbn [fetch c_unordered_set].
    rewrite (fetch_elements_spec c tree valid sized _ mem d q l) by done.
    by rewrite unordered_rebuild.
Qed.

Lemma toUnorderedSet_total `{EqDecision T} mem (f : item -> res T) conv flags it d p :
  item_ok it -> shows mem d p (enc it) ->
  (forall l, it = Lst l -> Forall (computes mem f conv) l) ->
  toUnorderedSet mem conv flags d =
  (xs ← elements_of f flags it; Ok (foldl (fun s x => unordered_insert x s) [] xs)).
Proof.
  intros HI H HF. destruct (head_exact mem d p _ HI H). unfold toUnorderedSet. rewrite hv_list.
  destruct it as [b | l]; cbn [mbind res_bind is_lst elements_of].
  - unfold bad_cast. by case_bool.
  - by rewrite (foreach_traverse mem f conv (fun s x => unordered_insert x s) l d p) by auto.
Qed.

(** With [ThrowOnFail] no negative number is returned. *)
Lemma toPositiveInt64_positive mem flags d i :
  has flags ThrowOnFail = true -> toPositiveInt64 mem flags d = Ok i -> 0 <= i.
Proof.
  intros HF E. unfold toPositiveInt64 in E. inv_ok. rewrite HF in *. cbn [andb] in *.
  destruct (Z.ltb_spec (swrap 64 x) 0); inv_ok; lia.
Qed.

(** A pair of a set and a vector of hashes, read from a list with a repeated element;
    and from one whose second element is no list of hashes. *)
Lemma convert_total_witness :
  let t := TPair (TSet (TUint W8)) (TVector (TFixedHash 2)) in
  let it l := Lst [Lst [Str [7]; Str [5]; Str [7]]; l] in
  convert ([9] ++ enc (it (Lst [Str [1; 2]])) ++ [3]) t Strict (fresh (view_of [9] (it (Lst [Str [1; 2]]))))
    = Ok ([5; 7], [[1; 2]]) /\
  convert ([9] ++ enc (it (Lst [Str [1; 2; 3]])) ++ [3]) t Strict
    (fresh (view_of [9] (it (Lst [Str [1; 2; 3]])))) = Panic "bad cast".
Proof.
  split; (etransitivity; [apply convert_total | vm_compute; reflexivity]); try (cbn; lia);
    (split; [| vm_compute; reflexivity]); repeat split; repeat constructor; unfold is_byte; lia.
Defined.

Definition sample_pair_type : ty :=
  TPair (TArray 2 (TInt W16)) (TVector (TSet (TFixedHash 2))).

Definition sample_pair : val sample_pair_type := ([-300; 7], [[[1; 0]; [2; 0]]; []]).

Lemma convert_roundtrip_witness :
  (data ← @rlp _ (@codec_of host_rlp sample_pair_type) sample_pair;
   r ← RLP_new data (mk_ref (Some 0) (len data)) VeryStrict;
   convert data sample_pair_type LaissezFaire r) = Ok sample_pair.
Proof.
  apply (@convert_roundtrip host_rlp host_rlp_laws sample_pair_type sample_pair LaissezFaire).
  - reflexivity.
  - cbn. lia.
  - repeat split; cbn; try lia; repeat constructor; cbn; unfold is_byte; try lia; done.
  - vm_compute. reflexivity.
Defined.

Lemma comparisons_witness :
  eq_int ([9] ++ enc (Str [1; 0; 0; 0; 0]) ++ []) 32 5 (view_of [9] (Str [1; 0; 0; 0; 0]))
    = Panic "bad cast" /\
  ne_string ([9] ++ enc (Str [1; 0; 0; 0; 0]) ++ []) [1] (view_of [9] (Str [1; 0; 0; 0; 0])) = Ok true.
Proof.
  destruct (comparisons [9] [] (Str [1; 0; 0; 0; 0]) [1] 32 5) as (_ & E & E').
  - lia.
  - split; [| vm_compute; reflexivity]. repeat constructor; unfold is_byte; lia.
  - split; [rewrite E'; reflexivity | rewrite E; reflexivity].
Defined.
