(* ===== verification/RlpUntrusted.v ===== *)
(** * Untrusted bytes: everything the RLP reader offers

    What a contract may do with an RLP object made of bytes it does not trust: the objects it
    can come by, and that every operation on them stays inside the buffer and ends. *)

From S2P Require Import Prelude Common RlpSpec VectorRef RlpReader RlpReaderFacts RlpConvert RlpSafety.
From S2P Require Import BytesBuffer HostRlp RlpStream RlpSize Serialize SerializeFacts CppTypes RlpValue.

(** ** Definitions *)

(** The RLP objects over a buffer: what the default constructor makes of any view of it (the
    items of a range-for loop are such objects), what indexing returns, and an object with the
    cache that indexing has left in it. *)
Inductive reached (mem : bytes) : RLP -> Prop :=
| reached_new d r : vr_ok mem d -> RLP_new mem d VeryStrict = Ok r -> reached mem r
| reached_item r i it r' : reached mem r -> rlp_index mem r i = Ok (it, r') -> reached mem it
| reached_moved r i it r' : reached mem r -> rlp_index mem r i = Ok (it, r') -> reached mem r'.

(** Hashes of no negative size, in any type that [fetch] reads. *)
Fixpoint hashes_ok (t : ty) : Prop :=
  match t with
  | TFixedHash N => 0 <= N
  | TVector t | TList t | TSet t | TArray _ t => hashes_ok t
  | TPair a b | TMap a b => hashes_ok a /\ hashes_ok b
  | TTuple ts | TStruct ts => all_hashes_ok ts
  | _ => True
  end
with all_hashes_ok (ts : tys) : Prop :=
  match ts with TNil => True | TCons t ts => hashes_ok t /\ all_hashes_ok ts end.

(** What a reader may do with an RLP object: the predicates and sizes, the conversions by
    [convert] and the cast operators to every type, [fetch] of every type, the other
    conversions, the comparisons with texts and integers, the number of items, any item, and a
    loop over the items with any body that is safe on such objects. *)
Record read_safely `{HostRLP} (mem : bytes) (r : RLP) : Prop := {
  safe_predicates : let d := m_data r in
    defined (isEmpty mem d) /\ defined (isData mem d) /\ defined (isList mem d) /\
    defined (isInt mem d) /\ defined (rlp_size mem d) /\ defined (sizeStrict mem d);
  safe_view : defined (actualSize mem (m_data r)) /\
    exists pl, payload mem (m_data r) = Ok pl /\ vr_ok mem pl;
  safe_convert t flags : sizes_ok t -> defined (convert mem t flags r);
  safe_cast t : sizes_ok t -> defined (cast mem t r);
  safe_fetch t : hashes_ok t -> defined (fetch (codec_of t) mem r);
  safe_ref flags : toBytesConstRef mem flags (m_data r) = Panic "bad cast" \/
    exists v, toBytesConstRef mem flags (m_data r) = Ok v /\ vr_ok mem v;
  safe_positive flags : defined (toPositiveInt64 mem flags (m_data r));
  safe_unordered T (HT : EqDecision T) (conv : RLP -> res T) flags :
    (forall r', reached mem r' -> defined (conv r')) -> defined (toUnorderedSet mem conv flags (m_data r));
  safe_text s : let d := m_data r in
    defined (eq_string mem s d) /\ defined (ne_string mem s d) /\
    defined (eq_cstr mem s d) /\ defined (ne_cstr mem s d);
  safe_int w i : defined (eq_int mem w i (m_data r)) /\ defined (ne_int mem w i (m_data r));
  safe_count : defined (itemCount mem (m_data r)) /\ defined (itemCountStrict mem (m_data r));
  safe_index i : defined (rlp_index mem r i);
  safe_loop A (body : A -> RLP -> res A) (acc : A) :
    (forall acc r', reached mem r' -> defined (body acc r')) ->
    defined (rlp_foreach mem body (m_data r) acc)
}.

(** ** Properties *)

Section Untrusted.
Context (mem : bytes) (Hmem : bytes_ok mem).

(** The invariant of the objects. *)
Definition sound (r : RLP) : Prop := exact mem (m_data r) /\ cache_safe mem r.

Lemma sound_fresh d : exact mem d -> sound (fresh d).
Proof using Hmem. intros H. split; [done |]. apply fresh_safe; [done | apply H]. Qed.

Lemma index_sound r i :
  sound r -> defined (rlp_index mem r i) /\
  forall it r', rlp_index mem r i = Ok (it, r') -> (exists v, it = fresh v /\ exact mem v) /\ sound r'.
Proof using Hmem.
  intros [HX HC]. destruct (rlp_index_safe mem Hmem r i (proj1 HX) HC) as [HD HI]. split; [done |].
  intros it r' E. destruct (HI it r' E) as (Hv & Ed & HC'). split; [done |]. by split; [rewrite Ed |].
Qed.

Lemma reached_sound r : reached mem r -> sound r.
Proof using Hmem.
  induction 1 as [d r Hd E | r i it r' _ IH E | r i it r' _ IH E].
  - destruct (new_safe mem Hmem d VeryStrict Hd eq_refl eq_refl) as [_ HR].
    destruct (HR r E) as (-> & _ & HX). by apply sound_fresh, HX.
  - destruct (index_sound r i IH) as [_ HI]. destruct (HI it r' E) as [(v & -> & Hv) _]. by apply sound_fresh.
  - destruct (index_sound r i IH) as [_ HI]. by destruct (HI it r' E).
Qed.

Lemma exact_reached d : exact mem d -> reached mem (fresh d).
Proof using Type. intros H. apply (reached_new mem d); [apply H | by apply new_exact_view]. Qed.

(** A conversion of elements that is safe on what the lists hold. *)
Definition conv_safe {T} (conv : RLP -> res T) : Prop := forall r, sound r -> defined (conv r).

Lemma conv_item {T} (conv : RLP -> res T) d : conv_safe conv -> exact mem d -> defined (conv (fresh d)).
Proof using Hmem. intros H Hd. by apply H, sound_fresh. Qed.

Lemma list_if_safe {A} d (x y : res A) :
  whole mem d -> defined x -> defined y -> defined (b ← isList mem d; if b : bool then x else y).
Proof using Hmem. intros HW Hx Hy. destruct (isList_ok mem Hmem d (proj1 HW)) as [[] ->]; done. Qed.

Lemma data_if_safe {A} d (x y : res A) :
  whole mem d -> defined x -> defined y -> defined (b ← isData mem d; if b : bool then x else y).
Proof using Hmem. intros HW Hx Hy. destruct (isData_ok mem Hmem d (proj1 HW)) as [[] ->]; done. Qed.

Lemma length_safe d : whole mem d -> defined (rlp_length mem d).
Proof using Hmem. intros HW. by destruct (payload_safe mem Hmem d HW) as (pl & _ & _ & -> & _). Qed.

Lemma itemCount_safe d : whole mem d -> defined (itemCount mem d).
Proof using Hmem.
  intros HW. pose proof (itemCountStrict_safe mem Hmem d HW) as HS. unfold itemCount. unfold itemCountStrict in HS.
  destruct (isList_ok mem Hmem d (proj1 HW)) as [[] E]; rewrite E in HS |- *; done.
Qed.

Lemma foreach_sound {A} (body : A -> RLP -> res A) d acc :
  exact mem d -> (forall acc r, sound r -> defined (body acc r)) -> defined (rlp_foreach mem body d acc).
Proof using Hmem. intros Hd HB. apply rlp_foreach_safe; [done..|]. intros acc' d' Hd'. by apply HB, sound_fresh. Qed.

Lemma collect_safe {A T} (conv : RLP -> res T) (add : A -> T -> A) d acc :
  exact mem d -> conv_safe conv -> defined (rlp_foreach mem (fun a i => x ← conv i; Ok (add a x)) d acc).
Proof using Hmem. intros Hd HC. apply foreach_sound; [done |]. intros a r Hr. by apply bind_defined; [apply HC |]. Qed.

(** *** The conversions of lists *)

Lemma toVector_safe {T} (conv : RLP -> res T) flags d :
  exact mem d -> conv_safe conv -> defined (toVector mem conv flags d).
Proof using Hmem.
  intros Hd HC. apply list_if_safe; [apply Hd | | apply bad_cast_safe].
  apply bind_defined; [apply itemCount_safe, Hd |]. intros _ _. by apply collect_safe.
Qed.

Lemma toSet_safe {T} insert (conv : RLP -> res T) flags d :
  exact mem d -> conv_safe conv -> defined (toSet mem insert conv flags d).
Proof using Hmem.
  intros Hd HC. apply list_if_safe; [apply Hd | | apply bad_cast_safe].
  by apply (collect_safe conv (fun s x => insert x s)).
Qed.

Lemma pair_items_safe {T U} (conv : RLP -> res T) (conv' : RLP -> res U) r :
  sound r -> conv_safe conv -> conv_safe conv' ->
  defined ('(i0, r1) ← rlp_index mem r 0; first ← conv i0;
           '(i1, _) ← rlp_index mem r1 1; second ← conv' i1; Ok (first, second)).
Proof using Hmem.
  intros Hr HC HC'. destruct (index_sound r 0 Hr) as [HD HI]. apply bind_defined; [done |].
  intros [i0 r1] E. destruct (HI _ _ E) as [(v & -> & Hv) Hr1].
  apply bind_defined; [by apply conv_item |]. intros x _.
  destruct (index_sound r1 1 Hr1) as [HD' HI']. apply bind_defined; [done |].
  intros [i1 r2] E'. destruct (HI' _ _ E') as [(v' & -> & Hv') _].
  by apply bind_defined; [apply conv_item |].
Qed.

Lemma array_loop_safe {T} (conv : RLP -> res T) k : forall i r,
  sound r -> conv_safe conv -> defined (array_loop mem conv k i r).
Proof using Hmem.
  induction k as [|k IH]; intros i r Hr HC; [done |]. cbn [array_loop].
  destruct (index_sound r i Hr) as [HD HI]. apply bind_defined; [done |].
  intros [it r'] E. destruct (HI _ _ E) as [(v & -> & Hv) Hr'].
  apply bind_defined; [by apply conv_item |]. intros x _.
  apply bind_defined; [by apply IH |]. done.
Qed.

Lemma count_is_safe {A} r N (x y : res A) :
  sound r -> defined x -> defined y ->
  defined (n ← itemCountStrict mem (m_data r); if negb (n =? N) then x else y).
Proof using Hmem.
  intros [HX _] Hx Hy. apply bind_defined; [apply itemCountStrict_safe; [done | apply HX] |].
  intros n _. by destruct (negb _).
Qed.

(** *** To every type *)

Lemma scalar_safe w flags d : whole mem d -> defined (toSignedInt mem w flags d).
Proof using Hmem. intros HW. by apply bind_defined; [apply toInt_safe |]. Qed.

Lemma bool_safe flags d : whole mem d -> defined (toBool mem flags d).
Proof using Hmem. intros HW. by apply bind_defined; [apply toInt_safe |]. Qed.

Lemma convert_safe t flags : sizes_ok t -> conv_safe (convert mem t flags).
Proof using Hmem.
  induction t; intros Hs r Hr; pose proof (proj1 Hr) as HX; pose proof (proj1 HX) as HW; cbn [convert sizes_ok] in *; try done.
  - by apply bool_safe.
  - by apply toInt_safe.
  - destruct w; try done; by apply scalar_safe.
  - by apply toInt_safe.
  - by apply toInt_safe.
  - by apply toBytes_safe.
  - by apply toString_safe.
  - by apply toHash_safe.
  - by apply toVector_safe; [| apply IHt].
  - apply count_is_safe; [done | apply bad_cast_safe |]. by apply array_loop_safe; [| apply IHt].
  - by apply toSet_safe; [| apply IHt].
  - destruct Hs. apply count_is_safe; [done | apply bad_cast_safe |]. apply pair_items_safe; auto.
Qed.

Lemma cast_safe t : sizes_ok t -> conv_safe (cast mem t).
Proof using Hmem.
  intros Hs r Hr. pose proof (convert_safe t (default_flags t) Hs r Hr) as HC.
  destruct t; try exact HC; [done |]. apply scalar_safe, Hr.
Qed.

Lemma elements_safe {A B} (conv : RLP -> res A) (add : B -> A -> B) r ret :
  sound r -> conv_safe conv -> defined (fetch_elements conv add mem r ret).
Proof using Hmem.
  intros [HX _] HC. apply list_if_safe; [apply HX | | done]. by apply (collect_safe conv add).
Qed.

Lemma pair_safe `{HostRLP} {A B} (ca : codec A) (cb : codec B) :
  conv_safe (fetch ca mem) -> conv_safe (fetch cb mem) -> conv_safe (fetch (c_pair ca cb) mem).
Proof using Hmem. intros Ha Hb r Hr. apply count_is_safe; [done | done |]. by apply pair_items_safe. Qed.

Lemma members_safe {A} (f : fields A) r :
  defined (f_fetch f mem 0 r) -> defined (fetch_members f mem r).
Proof using Type. intros HF. apply bind_defined; [done |]. by intros []. Qed.

(** [fetch] of a type, and of the members of a class from any index on. *)
Lemma fetch_safe `{HostRLP} :
  (forall t, hashes_ok t -> conv_safe (fetch (codec_of t) mem)) /\
  (forall ts, all_hashes_ok ts -> forall i r, sound r -> defined (f_fetch (fields_of ts) mem i r)).
Proof using Hmem.
  apply ty_tys_ind; cbn [hashes_ok all_hashes_ok codec_of fields_of]; intros.
  all: match goal with |- conv_safe _ => intros r Hr; pose proof (proj1 Hr) as HX; pose proof (proj1 HX) as HW | _ => idtac end.
  - by apply bool_safe.
  - by apply toInt_safe.
  - by apply scalar_safe.
  - by apply toInt_safe.
  - by apply toInt_safe.
  - by apply toBytes_safe.
  - by apply toString_safe.
  - by apply toHash_safe.
  - apply list_if_safe; [done | | done]. apply bind_defined; [by apply itemCount_safe |].
    intros _ _. apply (collect_safe (fetch (codec_of t) mem) (fun l x => l ++ [x])); auto.
  - apply elements_safe; auto.
  - apply count_is_safe; [done | done |]. apply array_loop_safe; auto.
  - apply elements_safe; auto.
  - destruct H2. apply elements_safe; [done |]. apply pair_safe; auto.
  - destruct H2. apply pair_safe; auto.
  - apply members_safe; auto.
  - apply members_safe; auto.
  - done.
  - destruct H2. cbn [f_fetch fields_cons]. destruct (index_sound r i) as [HD HI]; [done |].
    apply bind_defined; [done |]. intros [it r'] E. destruct (HI _ _ E) as [(v & -> & Hv) Hr'].
    apply bind_defined; [apply conv_item; auto |]. intros x _.
    apply bind_defined; [auto |]. by intros [].
Qed.

(** *** The other operations *)

Lemma view_safe d : whole mem d ->
  defined (actualSize mem d) /\ exists pl, payload mem d = Ok pl /\ vr_ok mem pl.
Proof using Hmem.
  intros HW. destruct (payload_safe mem Hmem d HW) as (pl & E & Hpl & _).
  split; [| by exists pl]. destruct HW as [_ [HN | (l & o & _ & _ & -> & _)]]; [| done].
  by rewrite null_size.
Qed.

Lemma isEmpty_safe d : vr_ok mem d -> defined (isEmpty mem d).
Proof using Hmem.
  intros H. unfold isEmpty. destruct (isNull d) eqn:E; [done |]. pose proof (count_pos mem d H E).
  destruct (at_ok mem Hmem d 0 H ltac:(lia)) as (b & -> & _). done.
Qed.

Lemma ref_safe flags d : whole mem d ->
  toBytesConstRef mem flags d = Panic "bad cast" \/
  exists v, toBytesConstRef mem flags d = Ok v /\ vr_ok mem v.
Proof using Hmem.
  intros HW. unfold toBytesConstRef. destruct (isData_ok mem Hmem d (proj1 HW)) as [[] ->]; cbn [mbind res_bind negb].
  - destruct (payload_safe mem Hmem d HW) as (pl & -> & Hpl & -> & _). cbn [mbind res_bind]. right.
    eexists. split; [done |]. pose proof (vr_ok_count mem pl Hpl) as HC. unfold SIZE_MAX in HC.
    apply (vr_cropped_ok mem pl 0 (vr_count pl) Hpl); lia.
  - unfold bad_cast. case_bool; [by left | right; by exists vr_null].
Qed.

Lemma compare_safe {A} d (x : res A) (f : A -> bool) :
  whole mem d -> defined x -> defined (b ← isData mem d; if b : bool then y ← x; Ok (f y) else Ok false).
Proof using Hmem. intros HW Hx. apply data_if_safe; [done | | done]. by apply bind_defined. Qed.

Lemma compare_int_safe w d (f : Z -> bool) :
  whole mem d -> defined (b ← isInt mem d; if b : bool then x ← toInt mem w Strict d; Ok (f x) else Ok false).
Proof using Hmem.
  intros HW. apply bind_defined; [by apply isInt_safe, HW |]. intros [] _; [| done].
  by apply bind_defined; [apply toInt_safe |].
Qed.

Lemma sound_read `{HostRLP} r : sound r -> read_safely mem r.
Proof using Hmem.
  intros Hr. pose proof (proj1 Hr) as HX. pose proof (proj1 HX) as HW. pose proof (proj1 HW) as HV.
  split; intros.
  - destruct (isData_ok mem Hmem d HV) as [b1 E1]. destruct (isList_ok mem Hmem d HV) as [b2 E2].
    split_and!; [by apply isEmpty_safe | by rewrite E1 | by rewrite E2 | by apply isInt_safe | |].
    + apply data_if_safe; [done | by apply length_safe | done].
    + unfold sizeStrict. rewrite E1. destruct b1; [by apply length_safe | done].
  - by apply view_safe.
  - by apply convert_safe.
  - by apply cast_safe.
  - by apply (proj1 fetch_safe).
  - by apply ref_safe.
  - apply bind_defined; [by apply toInt_safe |]. intros u _. cbv zeta. by case_bool.
  - apply list_if_safe; [done | | apply bad_cast_safe].
    apply rlp_foreach_safe; [done | done |]. intros acc d Hd.
    apply bind_defined; [match goal with HC : forall r', reached mem r' -> _ |- _ => by apply HC, exact_reached end | done].
  - pose proof (toString_safe mem Hmem d LaissezFaire HW). split_and!; by apply compare_safe.
  - split; by apply compare_int_safe.
  - split; [by apply itemCount_safe | by apply itemCountStrict_safe].
  - by apply index_sound.
  - apply rlp_foreach_safe; [done | done |]. intros a d Hd.
    match goal with HC : forall _ r', reached mem r' -> _ |- _ => by apply HC, exact_reached end.
Qed.
End Untrusted.

(** C3. Untrusted bytes never make the reader leave its buffer or run forever. The default
    constructor on any view of any bytes returns or panics; and on every RLP object a
    program can come by from there, by the constructor, by indexing any number of times in
    any order through the cache, and by looping, every operation returns or panics: the
    predicates and sizes, the conversions and casts to every type nested to any depth
    (toBytes, toString, toInt, toHash, toVector, toSet, toPair, toArray and the rest, with any
    flags), [fetch] of every serialisable type, toBytesConstRef (its view lies in the buffer),
    toPositiveInt64, toUnorderedSet, the comparisons with texts and integers (those with a
    hash do not compile), the item count, indexing, and a loop whose body does on such
    objects. *)
Theorem reader_memory_safe `{HostRLP} (mem : bytes) :
  bytes_ok mem ->
  (forall d, vr_ok mem d -> defined (RLP_new mem d VeryStrict)) /\
  (forall r, reached mem r -> read_safely mem r).
Proof.
  intros Hm. split.
  - intros d Hd. by apply (new_safe mem Hm d VeryStrict Hd).
  - intros r Hr. by apply sound_read, reached_sound.
Qed.

#[local] Existing Instance host_rlp.

(** A list of two items, the second of them cut short: it is indexed, the first item is
    read, the second one throws, and so does the conversion to a vector. *)
Definition cut_short : bytes := [195; 129; 200; 131].

Lemma reader_memory_safe_witness :
  let r := fresh (mk_ref (Some 0) 4) in
  (exists it r1, rlp_index cut_short r 0 = Ok (it, r1) /\ toInt cut_short 8 Strict (m_data it) = Ok 200 /\
     read_safely cut_short it /\ read_safely cut_short r1 /\ rlp_index cut_short r1 1 = Panic "under size rlp") /\
  read_safely cut_short r /\ defined (convert cut_short (TVector (TUint W8)) Strict r) /\
  convert cut_short (TVector (TUint W8)) Strict r = Panic "under size rlp".
Proof.
  intros r. assert (bytes_ok cut_short) as Hm by (apply (bool_decide_unpack _); reflexivity).
  destruct (reader_memory_safe cut_short Hm) as [_ HR].
  assert (reached cut_short r) as Hr.
  { apply (reached_new _ (mk_ref (Some 0) 4)); [unfold vr_ok; cbn; unfold SIZE_MAX; lia | reflexivity]. }
  split.
  - eexists _, _. split; [vm_compute; reflexivity |]. split; [vm_compute; reflexivity |].
    split; [apply HR; by apply (reached_item _ r 0 _ (mkRLP (mk_ref (Some 0) 4) 0 2 (mk_ref (Some 1) 2))) |].
    split; [apply HR; by apply (reached_moved _ r 0 (fresh (mk_ref (Some 1) 2))) | vm_compute; reflexivity].
  - split; [by apply HR |]. split; [by apply (HR r Hr) | vm_compute; reflexivity].
Defined.
