(* ===== verification/HostState.v ===== *)
(** * The contract's persistent state

    [platon_set_state], [platon_get_state_length] and [platon_get_state] are declared
    in [src/libraries/platonlib/include/platon/chain.hpp] and implemented by the chain,
    outside this repository. [HostState] is their interface. *)

From S2P Require Import Prelude.

Class HostState := {
  world : Type;
  platon_set_state : world -> bytes -> bytes -> world;
  platon_get_state_length : world -> bytes -> Z;
  (** The bytes copied to a buffer of the given length, or -1. *)
  platon_get_state : world -> bytes -> Z -> option bytes
}.

(** Documented behaviour: a store from keys to byte strings, where the empty string
    means there is no such key. *)
Class HostStateLaws `{HostState} := {
  contents : world -> bytes -> bytes;
  set_law w k v k' : contents (platon_set_state w k v) k' = if decide (k' = k) then v else contents w k';
  length_law w k : len (contents w k) < 2 ^ 32 -> platon_get_state_length w k = len (contents w k);
  get_law w k n : contents w k <> [] -> len (contents w k) <= n ->
    platon_get_state w k n = Some (contents w k)
}.

(** A host that satisfies the laws, for concrete runs: a finite map. *)
Definition host_state : HostState := {|
  world := gmap bytes bytes;
  platon_set_state w k v := <[k := v]> w;
  platon_get_state_length w k := len (default [] (w !! k));
  platon_get_state w k n :=
    match w !! k with Some v => Some (ztake n v) | None => None end
|}.

Definition host_state_laws : @HostStateLaws host_state.
Proof.
  refine {| contents := fun (w : @world host_state) k => default [] ((w : gmap bytes bytes) !! k) |}.
  - intros w k v k'. simpl in w |- *. case_decide; simplify_map_eq; done.
  - done.
  - intros w k n Hk Hn. simpl in w, Hk, Hn |- *. destruct (w !! k); [| done].
    simpl in *. by rewrite ztake_all.
Defined.
