(* ===== verification/Storage.v ===== *)
(** * storage.hpp: typed access to the persistent state

    [set_state], [get_state], [del_state] and [has_state]: keys and values of any
    serialisable type, a value stored behind one prefix byte. *)

From S2P Require Import Prelude Common RlpSpec VectorRef RlpReader RlpReaderFacts RlpConvert.
From S2P Require Import BytesBuffer HostRlp RlpStream RlpSize Serialize SerializeFacts.
From S2P Require Import HostState.

(** ** Definitions *)

Definition value_prefix : Z := 254.

Section Storage.
Context `{HostRLP, HostState}.

(** The bytes of a key: [RLPStream stream; stream << key; stream.out()]. *)
Definition state_key {K} (ck : codec K) (key : K) : res bytes :=
  s ← put ck stream_new key; stream_out s.

Definition set_state {K V} (ck : codec K) (cv : codec V) (w : world) (key : K) (value : V)
    : res world :=
  key_size ← pack_size ck key;
  state_stream ← put ck (stream_reserve stream_new key_size) key;
  vect_key ← stream_out state_stream;
  value_size ← pack_size cv value;
  value_stream ← appendPrefix stream_new [value_prefix];
  value_stream' ← put cv (stream_reserve value_stream (u32 (1 + value_size))) value;
  vect_value ← stream_out value_stream';
  Ok (platon_set_state w vect_key vect_value).

(** Returns the length found; [value] keeps its old contents when that is 0. *)
Definition get_state {K V} (ck : codec K) (cv : codec V) (w : world) (key : K) (value : V)
    : res (Z * V) :=
  vect_key ← state_key ck key;
  let l := platon_get_state_length w vect_key in
  if l =? 0 then Ok (0, value)
  else
    match platon_get_state w vect_key l with
    | None => Ok (0, value)
    | Some bs =>
        let result := bs ++ replicate (Z.to_nat l - length bs) 0 in
        r ← RLP_new result (mk_ref (Some 1) (u32 (l - 1))) VeryStrict;
        v ← fetch cv result r;
        Ok (l, v)
    end.

(** [Value v; get_state(key, v);] and a use of [v]. Where nothing is stored [v] keeps what
    default-initialisation gave it: for a class with a default constructor the value
    [dflt]; for a type that [indet]ermines none (an integer, a [bool], an enumeration, a
    class with such members) [v] is uninitialised, [dflt] are the bits it happens to hold,
    and copying it is undefined. *)
Definition read_state {K V} (ck : codec K) (cv : codec V) (dflt : V) (indet : bool) (w : world)
    (key : K) : res V :=
  '(n, v) ← get_state ck cv w key dflt;
  if indet && (n =? 0) then Undef "indeterminate value" else Ok v.

Definition del_state {K} (ck : codec K) (w : world) (key : K) : res world :=
  vect_key ← state_key ck key; Ok (platon_set_state w vect_key []).

Definition has_state {K} (ck : codec K) (w : world) (key : K) : res bool :=
  vect_key ← state_key ck key; Ok (negb (platon_get_state_length w vect_key =? 0)).
End Storage.

(** Specification: the value of a variable read from a table whose entry is [o]. *)
Definition initial {V} (dflt : V) (indet : bool) (o : option V) : res V :=
  match o with
  | Some v => Ok v
  | None => if indet then Undef "indeterminate value" else Ok dflt
  end.

(** ** Properties *)

Section StorageFacts.
Context `{HL : HostRLPLaws, HS : HostStateLaws}.

Section Keys.
Context {K} (ck : codec K) (tk : K -> item) (vk sk : K -> Prop).
Context `{HK : !CodecLaws ck tk vk sk}.

Lemma state_key_spec k :
  vk k -> cost (tk k) < RLP_LIMIT -> state_key ck k = Ok (enc (tk k)).
Proof using All. intros Hk HB. apply (rlp_enc ck tk vk sk k Hk HB). Qed.

Lemma del_state_spec w k :
  vk k -> cost (tk k) < RLP_LIMIT ->
  del_state ck w k = Ok (platon_set_state w (enc (tk k)) []).
Proof using All. intros Hk HB. unfold del_state. by rewrite state_key_spec. Qed.

Lemma has_state_spec w k :
  vk k -> cost (tk k) < RLP_LIMIT -> len (contents w (enc (tk k))) < 2 ^ 32 ->
  has_state ck w k = Ok (negb (bool_decide (contents w (enc (tk k)) = []))).
Proof using All.
  intros Hk HB HC. unfold has_state. rewrite state_key_spec by done. cbn [mbind res_bind].
  rewrite length_law by done. do 2 f_equal.
  destruct (contents w (enc (tk k))); [done |]. by rewrite bool_decide_eq_false_2.
Qed.
End Keys.

Section Values.
Context {K V} (ck : codec K) (cv : codec V).
Context (tk : K -> item) (vk sk : K -> Prop) (tv : V -> item) (vv sv : V -> Prop).
Context `{HK : !CodecLaws ck tk vk sk} `{HV : !CodecLaws cv tv vv sv}.

(** What is stored for a value. *)
Definition stored (v : V) : bytes := value_prefix :: enc (tv v).

Lemma set_state_spec w k v :
  vk k -> vv v -> cost (tk k) < RLP_LIMIT -> cost (tv v) < RLP_LIMIT ->
  set_state ck cv w k v = Ok (platon_set_state w (enc (tk k)) (stored v)).
Proof using All.
  intros Hk Hv HBk HBv. unfold set_state, RLP_LIMIT, SIZE_MAX in *.
  destruct (measure_law (c := ck) k Hk) as (n & _ & En & _).
  destruct (measure_law (c := cv) v Hv) as (m & _ & Em & _).
  unfold pack_size. rewrite En, Em by apply size_ok_new. cbn [mbind res_bind].
  destruct (put_law (c := ck) k (stream_reserve stream_new (rs_size_ (size_bump size_new n)))
              empty_builder Hk) as (s1 & E1 & R1 & _).
  { apply reserve_represents, represents_new. }
  { change (budget empty_builder) with 0. lia. }
  rewrite E1. cbn [mbind res_bind]. rewrite (stream_out_spec s1 _ R1). cbn [mbind res_bind].
  destruct (appendPrefix_spec stream_new empty_builder [value_prefix] represents_new eq_refl)
    as (s2 & E2 & R2); [done |].
  rewrite E2. cbn [mbind res_bind b_open b_done empty_builder app] in *.
  destruct (put_law (c := cv) v
              (stream_reserve s2 (u32 (1 + rs_size_ (size_bump size_new m))))
              (mkBuilder [] [value_prefix]) Hv)
    as (s3 & E3 & R3 & _).
  { apply reserve_represents, R2. }
  { change (budget (mkBuilder [] [value_prefix])) with 1. lia. }
  rewrite E3. cbn [mbind res_bind]. rewrite (stream_out_spec s3 _ R3).
  cbn [mbind res_bind add_item add_items b_open b_done empty_builder flat_map app].
  by rewrite !app_nil_r.
Qed.

(** Reading what was stored. *)
Lemma get_state_stored w k v v0 :
  vk k -> vv v -> cost (tk k) < RLP_LIMIT -> cost (tv v) < RLP_LIMIT ->
  contents w (enc (tk k)) = stored v ->
  get_state ck cv w k v0 = Ok (1 + len (enc (tv v)), v).
Proof using All.
  intros Hk Hv HBk HBv HC. unfold get_state.
  rewrite (state_key_spec ck tk vk sk) by done. cbn [mbind res_bind].
  pose proof (cost_ok _ (tree_leaves v Hv) HBv) as HI.
  pose proof (item_room _ HI) as HR. unfold SIZE_MAX in HR.
  pose proof (enc_nonempty (tv v)) as HN.
  assert (len (stored v) = 1 + len (enc (tv v))) as EL by (unfold stored; simpl; lia).
  rewrite length_law, HC, EL by (rewrite HC; lia).
  destruct (Z.eqb_spec (1 + len (enc (tv v))) 0); [lia |].
  rewrite get_law, HC by (rewrite HC; (lia || done)).
  replace (Z.to_nat (1 + len (enc (tv v))) - length (stored v))%nat with 0%nat by lia.
  cbn [replicate]. rewrite app_nil_r, wrap_small by lia.
  replace (1 + len (enc (tv v)) - 1) with (len (enc (tv v))) by lia.
  assert (shows (stored v) (mk_ref (Some 1) (len (enc (tv v)))) 1 (enc (tv v))) as HSh.
  { pose proof (view_shows [value_prefix] (tv v) []) as HV0. rewrite app_nil_r in HV0.
    exact HV0. }
  rewrite (new_exact _ _ 1 (tv v)) by done. cbn [mbind res_bind].
  by rewrite (fetch_law _ v Hv HI _ 1 HSh).
Qed.

Lemma get_state_missing w k v0 :
  vk k -> cost (tk k) < RLP_LIMIT -> contents w (enc (tk k)) = [] ->
  get_state ck cv w k v0 = Ok (0, v0).
Proof using HL HS HK.
  intros Hk HBk HC. unfold get_state.
  rewrite (state_key_spec ck tk vk sk) by done. cbn [mbind res_bind].
  by rewrite length_law, HC by by rewrite HC.
Qed.
End Values.

(** *** A table in the state: every key of a family and the value it has *)

Section Table.
Context {K V} (ck : codec K) (cv : codec V).
Context (tk : K -> item) (vk sk : K -> Prop) (tv : V -> item) (vv sv : V -> Prop).
Context `{HK : !CodecLaws ck tk vk sk} `{HV : !CodecLaws cv tv vv sv}.

Definition key_ok (k : K) : Prop := vk k /\ cost (tk k) < RLP_LIMIT.
Definition value_ok (v : V) : Prop := vv v /\ cost (tv v) < RLP_LIMIT.

(** Key [k] has the value [o]. *)
Definition has_value (w : world) (k : K) (o : option V) : Prop :=
  match o with
  | Some v => value_ok v /\ contents w (enc (tk k)) = stored tv v
  | None => contents w (enc (tk k)) = []
  end.

Definition table (w : world) (f : K -> option V) : Prop :=
  forall k, key_ok k -> has_value w k (f k).

(** Different keys have different encodings. *)
Lemma key_enc_inj k k' :
  key_ok k -> key_ok k' -> enc (tk k) = enc (tk k') -> k = k'.
Proof using HK.
  intros [Hk HB] [Hk' HB'] E.
  pose proof (unpack_enc ck tk vk sk k Hk HB) as E1.
  pose proof (unpack_enc ck tk vk sk k' Hk' HB') as E2.
  rewrite E in E1. congruence.
Qed.

Lemma has_value_state w k o :
  has_value w k o -> len (contents w (enc (tk k))) < 2 ^ 32.
Proof using HV.
  destruct o as [v |]; cbn [has_value]; [intros [[Hv HB] ->] | by intros ->].
  pose proof (cost_ok _ (tree_leaves v Hv) HB) as HI. pose proof (item_room _ HI) as HR.
  unfold SIZE_MAX, stored in *. simpl. lia.
Qed.

Lemma table_get w f k v0 :
  table w f -> key_ok k ->
  exists n, get_state ck cv w k v0 = Ok (n, default v0 (f k)) /\ (n = 0 <-> f k = None).
Proof using All.
  intros HT Hk. pose proof (HT k Hk) as Hv. destruct Hk as [Hk HB].
  destruct (f k) as [v |]; cbn [has_value] in Hv.
  - destruct Hv as [[Hv HBv] EC]. exists (1 + len (enc (tv v))).
    split; [by apply (get_state_stored ck cv tk vk sk tv vv sv) |].
    split; [intros; pose proof (enc_nonempty (tv v)); lia | done].
  - exists 0. split; [by apply (get_state_missing ck cv tk vk sk) | done].
Qed.

Lemma table_read w f k dflt indet :
  table w f -> key_ok k ->
  read_state ck cv dflt indet w k = initial dflt indet (f k).
Proof using All.
  intros HT Hk. unfold read_state.
  destruct (table_get w f k dflt HT Hk) as (n & -> & Hn). cbn [mbind res_bind].
  destruct (f k) as [v |]; cbn.
  - destruct (Z.eqb_spec n 0) as [E | _]; [by apply Hn in E | by rewrite andb_false_r].
  - destruct (Z.eqb_spec n 0) as [_ | E]; [by rewrite andb_true_r | by destruct E; apply Hn].
Qed.

Lemma table_has w f k :
  table w f -> key_ok k -> has_state ck w k = Ok (bool_decide (is_Some (f k))).
Proof using All.
  intros HT Hk. pose proof (HT k Hk) as Hv. pose proof (has_value_state w k _ Hv) as HLen.
  destruct Hk as [Hk HB]. rewrite (has_state_spec ck tk vk sk) by done.
  f_equal. destruct (f k) as [v |]; cbn [has_value] in Hv.
  - destruct Hv as [_ ->]. by rewrite bool_decide_eq_false_2, bool_decide_eq_true_2 by done.
  - rewrite Hv, bool_decide_eq_true_2 by done. rewrite bool_decide_eq_false_2; [done |].
    by apply eq_None_not_Some.
Qed.

Context `{!EqDecision K}.

Definition update (f : K -> option V) (k : K) (o : option V) : K -> option V :=
  fun k' => if decide (k' = k) then o else f k'.

Lemma table_write w f k o bs :
  table w f -> key_ok k ->
  bs = match o with Some v => stored tv v | None => [] end ->
  (forall v, o = Some v -> value_ok v) ->
  table (platon_set_state w (enc (tk k)) bs) (update f k o).
Proof using HK.
  intros HT Hk -> Hv k' Hk'. unfold update, has_value. rewrite set_law.
  case_decide as E1.
  - subst k'. rewrite decide_True by done. destruct o; [by auto | done].
  - rewrite decide_False; [by apply HT |]. intros E. by apply E1, key_enc_inj.
Qed.

Lemma table_set w f k v :
  table w f -> key_ok k -> value_ok v ->
  exists w', set_state ck cv w k v = Ok w' /\ table w' (update f k (Some v)) /\
    forall kb, kb <> enc (tk k) -> contents w' kb = contents w kb.
Proof using All.
  intros HT Hk Hv. eexists. destruct Hk as [Hk HB], Hv as [Hv HBv].
  split; [by apply (set_state_spec ck cv tk vk sk tv vv sv) |]. split.
  - apply table_write; [done | done | done |]. intros ? [= <-]. done.
  - intros kb Hkb. rewrite set_law. by rewrite decide_False.
Qed.

Lemma table_del w f k :
  table w f -> key_ok k ->
  exists w', del_state ck w k = Ok w' /\ table w' (update f k None) /\
    forall kb, kb <> enc (tk k) -> contents w' kb = contents w kb.
Proof using All.
  intros HT Hk. eexists. split; [by apply (del_state_spec ck tk vk sk); apply Hk |]. split.
  - by apply table_write.
  - intros kb Hkb. rewrite set_law. by rewrite decide_False.
Qed.
End Table.
End StorageFacts.
