(* ===== verification/DbMap.v ===== *)
(** * db/map.hpp: the persistent map

    [platon::db::Map]: a cache of values, the set of keys modified since the object was
    made, and [flush], which the destructor calls. The C++ [std::map] and [std::set] are
    finite maps and sets; the order in which [flush] visits the keys is a parameter. *)

From S2P Require Import Prelude Common RlpSpec RlpReader RlpConvert HostRlp RlpStream.
From S2P Require Import RlpSize Serialize SerializeFacts HostState Storage.

(** ** Definitions *)

Record Map (K V : Type) `{Countable K} := mkMap { map_ : gmap K V; modify_ : gset K }.
Arguments mkMap {K V _ _}.
Arguments map_ {K V _ _}.
Arguments modify_ {K V _ _}.

(** [KeyWrapper]: the key of the state is the pair of the table's name and the key. *)
Definition wrap_key {K} (name : Z) (k : K) : Z * (K * unit) := (name, (k, tt)).

Section DbMap.
Context `{HostRLP, HostState} `{Countable K} {V : Type}.
Context (ck : codec K) (cv : codec V).

(** [keyPrefix_], the table's name, and what [Value v;] leaves in [v] (see [read_state]). *)
Context (keyPrefix_ : Z) (dflt : V) (indet : bool).

Definition KeyWrapper : codec K :=
  c_view (wrap_key keyPrefix_) (fun x => fst (snd x))
    (c_struct (fields_cons (c_uint 64) (fields_cons ck fields_nil))).

Definition map_new : Map K V := mkMap ∅ ∅.

Definition map_insert_op (m : Map K V) (k : K) (v : V) : Map K V :=
  mkMap (<[k := v]> (map_ m)) ({[k]} ∪ modify_ m).

Definition map_insert_const (m : Map K V) (w : world) (k : K) (v : V) : res (Map K V * world) :=
  let m' := match map_ m !! k with
            | Some _ => mkMap (<[k := v]> (map_ m)) (modify_ m)
            | None => m
            end in
  w' ← set_state KeyWrapper cv w k v;
  Ok (m', w').

Definition map_get_const (m : Map K V) (w : world) (k : K) : res V :=
  match map_ m !! k with
  | Some v => Ok v
  | None => read_state KeyWrapper cv dflt indet w k
  end.

Definition map_at (m : Map K V) (w : world) (k : K) : res (V * Map K V) :=
  match map_ m !! k with
  | Some v => Ok (v, m)
  | None =>
      v ← read_state KeyWrapper cv dflt indet w k;
      Ok (v, mkMap (<[k := v]> (map_ m)) ({[k]} ∪ modify_ m))
  end.

(** [map[k] = v]: the reference [operator[]] returns is assigned. [at] has then copied the
    old value into the cache, or an uninitialised one. *)
Definition map_assign (m : Map K V) (w : world) (k : K) (v : V) : res (Map K V) :=
  '(_, m') ← map_at m w k; Ok (mkMap (<[k := v]> (map_ m')) (modify_ m')).

Definition map_erase (m : Map K V) (k : K) : Map K V :=
  mkMap (delete k (map_ m)) ({[k]} ∪ modify_ m).

Definition map_contains (m : Map K V) (w : world) (k : K) : res bool :=
  match map_ m !! k with
  | Some _ => Ok true
  | None =>
      if decide (k ∈ modify_ m) then Ok false
      else has_state KeyWrapper w k
  end.

Fixpoint map_flush (m : Map K V) (order : list K) (w : world) : res world :=
  match order with
  | [] => Ok w
  | k :: order' =>
      w' ← match map_ m !! k with
           | Some v => set_state KeyWrapper cv w k v
           | None => del_state KeyWrapper w k
           end;
      map_flush m order' w'
  end.
End DbMap.

(** *** Specification: the map a session works on *)

Inductive map_op (K V : Type) : Type :=
| MInsert (k : K) (v : V)       (** [insert] *)
| MAssign (k : K) (v : V)       (** [map[k] = v] *)
| MAt (k : K)                   (** [at], [operator[]] *)
| MGetConst (k : K)
| MInsertConst (k : K) (v : V)
| MErase (k : K)
| MContains (k : K).
Arguments MInsert {K V}.
Arguments MAssign {K V}.
Arguments MAt {K V}.
Arguments MGetConst {K V}.
Arguments MInsertConst {K V}.
Arguments MErase {K V}.
Arguments MContains {K V}.

(** What an operation returns. *)
Inductive map_out (V : Type) : Type := ONone | OVal (v : V) | OBool (b : bool).
Arguments ONone {V}.
Arguments OVal {V}.
Arguments OBool {V}.

Section Ops.
Context `{HostRLP, HostState} `{Countable K} {V : Type}.
Context (ck : codec K) (cv : codec V) (keyPrefix_ : Z) (dflt : V) (indet : bool).

(** One call on the object. *)
Definition map_step (m : Map K V) (w : world) (o : map_op K V)
    : res (Map K V * world * map_out V) :=
  match o with
  | MInsert k v => Ok (map_insert_op m k v, w, ONone)
  | MAssign k v => m' ← map_assign ck cv keyPrefix_ dflt indet m w k v; Ok (m', w, ONone)
  | MAt k => '(v, m') ← map_at ck cv keyPrefix_ dflt indet m w k; Ok (m', w, OVal v)
  | MGetConst k => v ← map_get_const ck cv keyPrefix_ dflt indet m w k; Ok (m, w, OVal v)
  | MInsertConst k v =>
      '(m', w') ← map_insert_const ck cv keyPrefix_ m w k v; Ok (m', w', ONone)
  | MErase k => Ok (map_erase m k, w, ONone)
  | MContains k => b ← map_contains ck keyPrefix_ m w k; Ok (m, w, OBool b)
  end.

(** A whole session: the calls, then the destructor. *)
Fixpoint map_run (m : Map K V) (w : world) (os : list (map_op K V))
    : res (Map K V * world * list (map_out V)) :=
  match os with
  | [] => Ok (m, w, [])
  | o :: os' =>
      '(m', w', out) ← map_step m w o;
      '(m'', w'', outs) ← map_run m' w' os';
      Ok (m'', w'', out :: outs)
  end.

(** The same calls on an ideal map: a function from keys to values. To read or assign
    through [at] a key that has no value reads the variable's initial value. *)
Definition spec_step (f : K -> option V) (o : map_op K V) : res ((K -> option V) * map_out V) :=
  match o with
  | MInsert k v | MInsertConst k v => Ok (update f k (Some v), ONone)
  | MAssign k v => _ ← initial dflt indet (f k); Ok (update f k (Some v), ONone)
  | MAt k => v ← initial dflt indet (f k); Ok (update f k (Some v), OVal v)
  | MGetConst k => v ← initial dflt indet (f k); Ok (f, OVal v)
  | MErase k => Ok (update f k None, ONone)
  | MContains k => Ok (f, OBool (bool_decide (is_Some (f k))))
  end.

Fixpoint spec_run (f : K -> option V) (os : list (map_op K V))
    : res ((K -> option V) * list (map_out V)) :=
  match os with
  | [] => Ok (f, [])
  | o :: os' =>
      '(f', out) ← spec_step f o;
      '(f'', outs) ← spec_run f' os';
      Ok (f'', out :: outs)
  end.

(** The keys erased and not set again, after an operation; the operations that read
    the old state of such a key. *)
Definition erased_after (e : gset K) (o : map_op K V) : gset K :=
  match o with
  | MErase k => {[k]} ∪ e
  | MInsert k _ | MAssign k _ | MAt k => e ∖ {[k]}
  | _ => e
  end.

Definition reads_erased (e : gset K) (o : map_op K V) : Prop :=
  match o with
  | MAt k | MGetConst k | MInsertConst k _ => k ∈ e
  | MAssign k _ => indet = true /\ k ∈ e
  | _ => False
  end.

Fixpoint no_stale_reads (e : gset K) (os : list (map_op K V)) : Prop :=
  match os with
  | [] => True
  | o :: os' => ~ reads_erased e o /\ no_stale_reads (erased_after e o) os'
  end.
End Ops.

(** ** Properties *)

Section MapFacts.
Context `{HL : HostRLPLaws, HS : HostStateLaws} `{Countable K} {V : Type}.
Context (ck : codec K) (cv : codec V).
Context (tk : K -> item) (vk sk : K -> Prop) (tv : V -> item) (vv sv : V -> Prop).
Context `{HK : !CodecLaws ck tk vk sk} `{HV : !CodecLaws cv tv vv sv}.
Context (name : Z) (dflt : V) (indet : bool).

Definition wrapped_tree (k : K) : item := Lst [int_item name; tk k].
Definition wrapped_valid (k : K) : Prop := uint_valid 64 name /\ vk k /\ True.
Definition wrapped_sized (k : K) : Prop := True /\ sk k /\ True.

#[local] Instance KeyWrapper_laws :
  CodecLaws (KeyWrapper ck name) wrapped_tree wrapped_valid wrapped_sized.
Proof using HL HK.
  exact (c_view_laws (c_struct (fields_cons (c_uint 64) (fields_cons ck fields_nil)))
           _ _ _ (wrap_key name) _ (fun _ => eq_refl)).
Qed.

Abbreviation mkey_ok := (key_ok wrapped_tree wrapped_valid).
Abbreviation mvalue_ok := (value_ok tv vv).
Abbreviation mtable := (table wrapped_tree wrapped_valid tv vv).

(** What the object stands for, over the table [f] in the state: a cached value, no
    value for a key erased, else the table's. *)
Definition view (m : Map K V) (f : K -> option V) (k : K) : option V :=
  match map_ m !! k with
  | Some v => Some v
  | None => if decide (k ∈ modify_ m) then None else f k
  end.

(** The object [m] over the state [w] implements the ideal map [g]. *)
Record implements (m : Map K V) (w : world) (f g : K -> option V) (e : gset K) : Prop := {
  im_table : mtable w f;
  im_view k : g k = view m f k;
  im_dom k v : map_ m !! k = Some v -> k ∈ modify_ m /\ mvalue_ok v;
  im_keys k : k ∈ modify_ m -> mkey_ok k;
  im_erased k : k ∈ e <-> k ∈ modify_ m /\ map_ m !! k = None
}.

Definition op_valid (o : map_op K V) : Prop :=
  match o with
  | MInsert k v | MAssign k v | MInsertConst k v => mkey_ok k /\ mvalue_ok v
  | MAt k | MGetConst k | MErase k | MContains k => mkey_ok k
  end.

(** The part of the state that is not this table is untouched. *)
Definition untouched (w w' : world) : Prop :=
  forall kb, (forall k, mkey_ok k -> kb <> enc (wrapped_tree k)) -> contents w' kb = contents w kb.

Lemma implements_new w f : mtable w f -> implements map_new w f f ∅.
Proof using All.
  intros HT. split; [done | | | |].
  - intros k. unfold view. cbn. rewrite lookup_empty.
    by rewrite decide_False by set_solver.
  - intros k v Hk. cbn in Hk. by rewrite lookup_empty in Hk.
  - intros k. cbn. set_solver.
  - intros k. cbn. set_solver.
Qed.

(** Setting a key in the cache. *)
Lemma implements_cache m w f g e k v :
  implements m w f g e -> mkey_ok k -> mvalue_ok v ->
  implements (mkMap (<[k := v]> (map_ m)) ({[k]} ∪ modify_ m)) w f
             (update g k (Some v)) (e ∖ {[k]}).
Proof using All.
  intros [HT HW HD HKs HE] Hk Hv. split; [done | | | |]; cbn [map_ modify_].
  - intros k'. unfold update, view. cbn [map_ modify_]. case_decide as Ek.
    + subst. by rewrite lookup_insert_eq.
    + rewrite lookup_insert_ne by done. rewrite HW. unfold view.
      destruct (map_ m !! k'); [done |].
      destruct (decide (k' ∈ modify_ m)) as [? | Hn].
      * by rewrite decide_True by set_solver.
      * by rewrite decide_False by set_solver.
  - intros k' v'. rewrite lookup_insert_Some. intros [[<- <-] | [? Hk']]; [set_solver |].
    destruct (HD k' v' Hk'). set_solver.
  - intros k'. rewrite elem_of_union, elem_of_singleton. intros [-> | ?]; [done | by apply HKs].
  - intros k'. destruct (decide (k' = k)) as [-> |].
    + rewrite lookup_insert_eq. set_solver.
    + rewrite lookup_insert_ne by done. specialize (HE k'). set_solver.
Qed.

Lemma implements_erase m w f g e k :
  implements m w f g e -> mkey_ok k ->
  implements (map_erase m k) w f (update g k None) ({[k]} ∪ e).
Proof using All.
  intros [HT HW HD HKs HE] Hk. split; [done | | | |]; cbn [map_ modify_ map_erase].
  - intros k'. unfold update, view. cbn [map_ modify_ map_erase]. case_decide as Ek.
    + subst. rewrite lookup_delete_eq. by rewrite decide_True by set_solver.
    + rewrite lookup_delete_ne by done. rewrite HW. unfold view.
      destruct (map_ m !! k'); [done |].
      destruct (decide (k' ∈ modify_ m)) as [? | Hn].
      * by rewrite decide_True by set_solver.
      * by rewrite decide_False by set_solver.
  - intros k' v'. rewrite lookup_delete_Some. intros [? Hk'].
    destruct (HD k' v' Hk'). set_solver.
  - intros k'. rewrite elem_of_union, elem_of_singleton. intros [-> | ?]; [done | by apply HKs].
  - intros k'. destruct (decide (k' = k)) as [-> |].
    + rewrite lookup_delete_eq. set_solver.
    + rewrite lookup_delete_ne by done. specialize (HE k'). set_solver.
Qed.

(** A key that is not erased is either cached or not modified. *)
Lemma implements_uncached m w f g e k :
  implements m w f g e -> k ∉ e -> map_ m !! k = None -> (k ∉ modify_ m) /\ g k = f k.
Proof using All.
  intros [HT HW HD HKs HE] Hk Em. assert (k ∉ modify_ m) as Hm by (specialize (HE k); tauto).
  split; [done |]. rewrite HW. unfold view. by rewrite Em, decide_False.
Qed.

Lemma implements_default m w f g e k v :
  implements m w f g e -> mkey_ok k -> (indet = false -> mvalue_ok dflt) ->
  initial dflt indet (f k) = Ok v -> mvalue_ok v.
Proof using All.
  intros HI Hk Hd. pose proof (im_table _ _ _ _ _ HI k Hk) as Hv. unfold initial.
  destruct (f k) as [v0 |]; [| destruct indet]; cbn; intros [= <-]; [apply Hv | by apply Hd].
Qed.

(** Where the key is not cached, [at] and [get_const] read the ideal map's value. *)
Lemma implements_read m w f g e k :
  implements m w f g e -> mkey_ok k -> k ∉ e -> map_ m !! k = None ->
  read_state (KeyWrapper ck name) cv dflt indet w k = initial dflt indet (g k).
Proof using All.
  intros HI Hk He Em. destruct (implements_uncached m w f g e k HI He Em) as [_ ->].
  by apply (table_read (KeyWrapper ck name) cv wrapped_tree wrapped_valid wrapped_sized tv vv sv
              w f k dflt indet (im_table _ _ _ _ _ HI)).
Qed.

(** A cached value is the ideal map's. *)
Lemma implements_cached m w f g e k v :
  implements m w f g e -> map_ m !! k = Some v -> g k = Some v /\ k ∈ modify_ m /\ mvalue_ok v.
Proof using All.
  intros HI Em. split; [| by apply (im_dom _ _ _ _ _ HI)].
  rewrite (im_view _ _ _ _ _ HI). unfold view. by rewrite Em.
Qed.

(** [at] returns what the ideal map holds, which is then cached. *)
Lemma map_at_spec m w f g e k :
  implements m w f g e -> mkey_ok k -> (indet = false -> mvalue_ok dflt) -> k ∉ e ->
  follows (fun v r => r.1 = v /\ map_ r.2 = <[k := v]> (map_ m) /\
                      modify_ r.2 = {[k]} ∪ modify_ m /\
                      implements r.2 w f (update g k (Some v)) (e ∖ {[k]}))
    (initial dflt indet (g k)) (map_at ck cv name dflt indet m w k).
Proof using All.
  intros HI Hk Hd He. unfold map_at. destruct (map_ m !! k) as [v |] eqn:Em.
  - destruct (implements_cached m w f g e k v HI Em) as (-> & Hin & Hv). cbn.
    eexists. split; [done |]. cbn. split; [done |]. rewrite insert_id by done.
    assert ({[k]} ∪ modify_ m = modify_ m) as EM by set_solver. split; [done |].
    split; [done |]. pose proof (implements_cache m w f g e k v HI Hk Hv) as HC.
    rewrite insert_id, EM in HC by done. by destruct m.
  - rewrite (implements_read m w f g e k HI Hk He Em).
    destruct (implements_uncached m w f g e k HI He Em) as [_ Eg].
    assert (forall v, initial dflt indet (g k) = Ok v -> mvalue_ok v) as Hv.
    { intros v. rewrite Eg. by apply (implements_default m w f g e). }
    destruct (initial dflt indet (g k)) as [v | | | |] eqn:Ei; [| done..|].
    + eexists. split; [done |]. cbn. split; [done |]. split; [done |]. split; [done |].
      apply implements_cache; auto.
    + unfold initial in Ei. by destruct (g k), indet.
Qed.

(** [insert_const]: the state is set at once, and the cached copy if there is one. *)
Lemma implements_const m w f g e k v :
  implements m w f g e -> mkey_ok k -> mvalue_ok v -> k ∉ e ->
  exists m' w', map_insert_const ck cv name m w k v = Ok (m', w') /\
    implements m' w' (update f k (Some v)) (update g k (Some v)) e /\ untouched w w'.
Proof using All.
  intros HI Hk Hv He. pose proof HI as [HT HW HD HKs HE]. unfold map_insert_const.
  destruct (table_set (KeyWrapper ck name) cv wrapped_tree wrapped_valid wrapped_sized tv vv sv
              w f k v HT Hk Hv) as (w' & -> & HT' & HF).
  cbn [mbind res_bind]. eexists _, w'. split; [done |]. split; [| intros kb Hkb; by apply HF, Hkb].
  destruct (map_ m !! k) as [v0 |] eqn:Em.
  - split; [done | | | |]; cbn [map_ modify_].
    + intros k'. unfold update, view. cbn [map_ modify_]. case_decide as Ek.
      * subst. by rewrite lookup_insert_eq.
      * rewrite lookup_insert_ne by done. apply HW.
    + intros k' v'. rewrite lookup_insert_Some. intros [[<- <-] | [? Hk']].
      * split; [by eapply HD | done].
      * by apply HD.
    + done.
    + intros k'. rewrite HE. destruct (decide (k' = k)) as [-> |].
      * rewrite lookup_insert_eq, Em. naive_solver.
      * by rewrite lookup_insert_ne.
  - destruct (implements_uncached m w f g e k HI He Em) as [Hm _].
    split; [done | | done | done | done].
    intros k'. unfold update, view. case_decide as Ek.
    + subst. by rewrite Em, decide_False.
    + apply HW.
Qed.

(** Assigning through [at] a key erased earlier, when the old value does not matter. *)
Lemma map_assign_erased m w f g e k v :
  implements m w f g e -> mkey_ok k -> k ∈ e -> indet = false ->
  map_assign ck cv name dflt indet m w k v = Ok (map_insert_op m k v).
Proof using All.
  intros HI Hk He Hi. apply (im_erased _ _ _ _ _ HI) in He as [Hm Em].
  unfold map_assign, map_at. rewrite Em.
  rewrite (table_read (KeyWrapper ck name) cv wrapped_tree wrapped_valid wrapped_sized tv vv sv
             w f k dflt indet (im_table _ _ _ _ _ HI) Hk).
  unfold initial, map_insert_op. rewrite Hi. destruct (f k); cbn; by rewrite insert_insert_eq.
Qed.

(** What a call or a session leaves, over the state [w] it began in. *)
Definition steps_to {A} (w : world) (e : gset K) (x : (K -> option V) * A)
    (r : Map K V * world * A) : Prop :=
  exists f, implements r.1.1 r.1.2 f x.1 e /\ untouched w r.1.2 /\ r.2 = x.2.

Lemma map_assign_spec m w f g e k v :
  implements m w f g e -> mkey_ok k -> mvalue_ok v -> (indet = false -> mvalue_ok dflt) ->
  ~ reads_erased indet e (MAssign k v) ->
  follows (fun _ m' => implements m' w f (update g k (Some v)) (e ∖ {[k]}))
    (initial dflt indet (g k)) (map_assign ck cv name dflt indet m w k v).
Proof using All.
  intros HI Hk Hv Hd Hs. destruct (decide (k ∈ e)) as [He | He].
  - assert (indet = false) as Hi by (cbn in Hs; destruct indet; naive_solver).
    rewrite (map_assign_erased m w f g e) by done.
    pose proof (implements_cache m w f g e k v HI Hk Hv).
    unfold initial. rewrite Hi. destruct (g k); by eexists.
  - unfold map_assign. pose proof (map_at_spec m w f g e k HI Hk Hd He) as HA.
    destruct (initial dflt indet (g k)) as [v0 | | | |]; cbn [follows] in HA;
      [| by rewrite HA .. | done].
    destruct HA as ([v1 m'] & -> & _ & Em & Eo & _). cbn in Em, Eo |- *. eexists.
    split; [done |]. rewrite Em, Eo, insert_insert_eq. by apply implements_cache.
Qed.

(** One call: the object does what the ideal map does. *)
Lemma map_step_spec m w f g e o :
  implements m w f g e -> op_valid o -> (indet = false -> mvalue_ok dflt) ->
  ~ reads_erased indet e o ->
  follows (steps_to w (erased_after e o)) (spec_step dflt indet g o)
    (map_step ck cv name dflt indet m w o).
Proof using All.
  intros HI Ho Hd Hs. destruct o as [k v | k v | k | k | k v | k | k];
    cbn [map_step spec_step erased_after op_valid] in *.
  - destruct Ho. apply follows_ok. exists f. split; [by apply implements_cache | done].
  - destruct Ho. eapply follows_bind; [by apply (map_assign_spec m w f g e) |].
    intros v0 m' HI'. apply follows_ok. by exists f.
  - eapply follows_bind; [by apply (map_at_spec m w f g e) |].
    intros v [v' m'] (E & _ & _ & HI'). cbn in E, HI'. subst v'. apply follows_ok. by exists f.
  - eapply (follows_bind eq).
    + unfold map_get_const. destruct (map_ m !! k) as [v |] eqn:Em.
      * destruct (implements_cached m w f g e k v HI Em) as (-> & _). by eexists.
      * rewrite (implements_read m w f g e k HI Ho Hs Em). unfold initial.
        destruct (g k); [by eexists |]. destruct indet; [done | by eexists].
    + intros v ? <-. apply follows_ok. by exists f.
  - destruct Ho as [Hk Hv].
    destruct (implements_const m w f g e k v HI Hk Hv Hs) as (m' & w' & -> & HI' & HU').
    apply follows_ok. by eexists.
  - apply follows_ok. exists f. split; [by apply implements_erase | done].
  - unfold map_contains. pose proof (im_view _ _ _ _ _ HI k) as Eg. unfold view in Eg.
    destruct (map_ m !! k) as [v0 |] eqn:Em; [| destruct (decide (k ∈ modify_ m))].
    + rewrite Eg. apply follows_ok. by exists f.
    + rewrite Eg. apply follows_ok. by exists f.
    + rewrite (table_has (KeyWrapper ck name) cv wrapped_tree wrapped_valid wrapped_sized tv vv sv w f k
                 (im_table _ _ _ _ _ HI) Ho), Eg. apply follows_ok. by exists f.
Qed.

Lemma map_run_spec os m w f g e :
  implements m w f g e -> Forall op_valid os -> (indet = false -> mvalue_ok dflt) ->
  no_stale_reads indet e os ->
  follows (fun x r => exists e', steps_to w e' x r) (spec_run dflt indet g os)
    (map_run ck cv name dflt indet m w os).
Proof using All.
  revert m w f g e. induction os as [|o os IH]; intros m w f g e HI HO Hd HN.
  { apply follows_ok. by exists e, f. }
  apply Forall_cons in HO as [Ho HO]. destruct HN as [Hs HN]. cbn [map_run spec_run].
  eapply follows_bind; [by apply (map_step_spec m w f g e) |].
  intros [g1 out] [[m1 w1] out'] (f1 & HI1 & HU1 & E1). cbn in HI1, HU1, E1. subst out'.
  eapply follows_bind; [by apply (IH m1 w1 f1 g1 _ HI1) |].
  intros [g2 outs] [[m2 w2] outs'] (e2 & f2 & HI2 & HU2 & E2). cbn in HI2, HU2, E2. subst outs'.
  apply follows_ok. exists e2, f2. split; [done |]. split; [| done].
  intros kb Hkb. cbn. by rewrite HU2, HU1.
Qed.

(** The specification ends with a result or with the uninitialised read. *)
Lemma spec_run_outcome os (g : K -> option V) :
  match spec_run dflt indet g os with Ok _ | Undef _ => True | _ => False end.
Proof using Type.
  assert (forall o, match initial dflt indet o with Ok _ | Undef _ => True | _ => False end) as HN.
  { intros [v |]; cbn; [done | by destruct indet]. }
  revert g. induction os as [|o os IH]; intros g; [done |]. cbn [spec_run].
  assert (match spec_step dflt indet g o with Ok _ | Undef _ => True | _ => False end) as Hs.
  { destruct o as [k v | k v | k | k | k v | k | k]; cbn; try done;
      specialize (HN (g k)); by destruct (initial dflt indet (g k)). }
  destruct (spec_step dflt indet g o) as [[g1 out] | | | |]; try done.
  cbn. specialize (IH g1). by destruct (spec_run dflt indet g1 os) as [[] | | | |].
Qed.

(** [flush] writes the cached values and deletes the erased keys, in any order. *)
Lemma map_flush_spec m order w f :
  (forall k, k ∈ order -> mkey_ok k) ->
  (forall k v, map_ m !! k = Some v -> mvalue_ok v) -> mtable w f ->
  exists w', map_flush ck cv name m order w = Ok w' /\ untouched w w' /\
    mtable w' (fun k => if decide (k ∈ order) then map_ m !! k else f k).
Proof using All.
  revert w f. induction order as [|k order IH]; intros w f HKs HVs HT.
  { exists w. split; [done |]. split; [done |]. intros k Hk.
    rewrite decide_False by set_solver. by apply HT. }
  assert (exists w1, match map_ m !! k with
      | Some v => set_state (KeyWrapper ck name) cv w k v
      | None => del_state (KeyWrapper ck name) w k
      end = Ok w1 /\ mtable w1 (update f k (map_ m !! k)) /\ untouched w w1) as (w1 & E1 & HT1 & HU1).
  { specialize (HKs k ltac:(set_solver)). destruct (map_ m !! k) as [v |] eqn:Em.
    - destruct (table_set (KeyWrapper ck name) cv wrapped_tree wrapped_valid wrapped_sized tv vv sv
                  w f k v HT HKs (HVs k v Em)) as (w1 & E1 & HT1 & HF).
      exists w1. split; [done |]. split; [done |]. intros kb Hkb. by apply HF, Hkb.
    - destruct (table_del (KeyWrapper ck name) cv wrapped_tree wrapped_valid wrapped_sized tv vv sv
                  w f k HT HKs) as (w1 & E1 & HT1 & HF).
      exists w1. split; [done |]. split; [done |]. intros kb Hkb. by apply HF, Hkb. }
  destruct (IH w1 _ ltac:(set_solver) HVs HT1) as (w2 & E2 & HU2 & HT2).
  exists w2. cbn [map_flush]. rewrite E1. cbn [mbind res_bind]. split; [done |].
  split; [intros kb Hkb; by rewrite HU2, HU1 |]. intros k' Hk'. specialize (HT2 k' Hk').
  cbn beta in HT2. unfold update in HT2. destruct (decide (k' ∈ k :: order)) as [Hin | Hin].
  - destruct (decide (k' ∈ order)); [done |].
    rewrite decide_True in HT2 by set_solver. replace k' with k by set_solver.
    by replace k' with k in HT2 by set_solver.
  - rewrite decide_False, decide_False in HT2 by set_solver. done.
Qed.

(** C5. The persistent map is a map. In any session on a fresh object, whatever the
    sequence of insert, assignment through [operator[]], at, get_const, insert_const,
    erase and contains, every call returns what an ideal map started from the stored
    table returns; after the destructor's flush, in any order of the modified keys,
    the stored table is the ideal map, and no other key of the state has changed.
    A key without a value reads as the default-constructed value; where the type has none
    ([indet], as for an integer), the first at, get_const or [map[k] = v] on such a key is
    undefined behaviour, since it copies the uninitialised [Value v;], and only then.
    Excluded are calls that read or [insert_const] a key erased earlier in the session
    (see erased_key_still_read and insert_const_after_erase_lost), and for such a type
    [map[k] = v] on it. *)
Theorem map_session_correct (os : list (map_op K V)) (w : world) (f : K -> option V) :
  mtable w f -> Forall op_valid os -> (indet = false -> mvalue_ok dflt) ->
  no_stale_reads indet ∅ os ->
  match spec_run dflt indet f os with
  | Ok (g, outs) =>
      exists m w', map_run ck cv name dflt indet map_new w os = Ok (m, w', outs) /\
        forall order, (forall k, k ∈ order <-> k ∈ modify_ m) ->
          exists w'', map_flush ck cv name m order w' = Ok w'' /\
            mtable w'' g /\ untouched w w''
  | Undef why => map_run ck cv name dflt indet map_new w os = Undef why
  | _ => False
  end.
Proof using All.
  intros HT HO Hd HN.
  pose proof (map_run_spec os map_new w f f ∅ (implements_new w f HT) HO Hd HN) as HR.
  pose proof (spec_run_outcome os f) as HS'.
  destruct (spec_run dflt indet f os) as [[g outs] | | | |]; try done.
  destruct HR as ([[m w'] outs'] & E & e & f' & HI & HU & Eo). cbn in HI, HU, Eo. subst outs'.
  exists m, w'. split; [done |]. intros order Hord.
  destruct (map_flush_spec m order w' f') as (w'' & EF & HUF & HTF).
  - intros k Hk. apply (im_keys _ _ _ _ _ HI). by apply Hord.
  - intros k v Ek. by apply (im_dom _ _ _ _ _ HI k).
  - apply (im_table _ _ _ _ _ HI).
  - exists w''. split; [done |]. split; [| intros kb Hkb; by rewrite HUF, HU].
    intros k Hk. specialize (HTF k Hk). cbn beta in HTF.
    rewrite (im_view _ _ _ _ _ HI). unfold view.
    destruct (decide (k ∈ order)) as [Hin | Hin].
    + apply Hord in Hin. rewrite decide_True by done. by destruct (map_ m !! k).
    + rewrite Hord in Hin. rewrite (decide_False _ _ Hin).
      destruct (map_ m !! k) as [v |] eqn:Ek; [| done].
      by destruct (im_dom _ _ _ _ _ HI k v Ek).
Qed.

(** After [erase(k)], [contains(k)] is false, but [get_const(k)] still returns the
    value in the state: the two disagree until the object is destroyed. *)
Theorem erased_key_still_read (w : world) (f : K -> option V) (k : K) (v : V) :
  mtable w f -> mkey_ok k -> f k = Some v ->
  let m := map_erase map_new k in
  map_contains ck name m w k = Ok false /\ map_get_const ck cv name dflt indet m w k = Ok v.
Proof using All.
  intros HT Hk Ef m. unfold m, map_contains, map_get_const.
  cbn [map_ modify_ map_erase map_new]. rewrite delete_empty, lookup_empty.
  rewrite decide_True by set_solver. split; [done |].
  rewrite (table_read (KeyWrapper ck name) cv wrapped_tree wrapped_valid wrapped_sized tv vv sv
              w f k dflt indet HT Hk). by rewrite Ef.
Qed.

(** [erase(k)] then [insert_const(k, v)]: the value is in the state until the object
    is destroyed, and then it is deleted. *)
Theorem insert_const_after_erase_lost (w : world) (f : K -> option V) (k : K) (v : V) :
  mtable w f -> mkey_ok k -> mvalue_ok v ->
  exists w1 w2,
    map_insert_const ck cv name (map_erase map_new k) w k v = Ok (map_erase map_new k, w1) /\
    contents w1 (enc (wrapped_tree k)) = stored tv v /\
    map_flush ck cv name (map_erase map_new k) [k] w1 = Ok w2 /\
    contents w2 (enc (wrapped_tree k)) = [].
Proof using All.
  intros HT Hk Hv. unfold map_insert_const. cbn [map_ map_erase map_new].
  rewrite delete_empty, lookup_empty.
  destruct (table_set (KeyWrapper ck name) cv wrapped_tree wrapped_valid wrapped_sized tv vv sv
              w f k v HT Hk Hv) as (w1 & -> & HT1 & _).
  destruct (map_flush_spec (map_erase map_new k) [k] w1 (update f k (Some v)))
    as (w2 & E2 & _ & HT2); [| | done |].
  - intros k' ->%list_elem_of_singleton. done.
  - intros k' v'. cbn. by rewrite delete_empty, lookup_empty.
  - exists w1, w2. cbn [mbind res_bind]. split; [done |]. specialize (HT1 k Hk). specialize (HT2 k Hk).
    unfold update in HT1. rewrite decide_True in HT1 by done. cbn beta in HT2.
    rewrite decide_True in HT2 by set_solver. cbn in HT2.
    rewrite delete_empty, lookup_empty in HT2. split; [apply HT1 |]. by split.
Qed.
End MapFacts.

#[local] Existing Instance host_rlp.
#[local] Existing Instance host_rlp_laws.
#[local] Existing Instance host_state.
#[local] Existing Instance host_state_laws.

(** A table of strings named 7: two keys stored, one erased, one added. *)
Definition sample_world : gmap bytes bytes :=
  {[ enc (Lst [int_item 7; Str [97]]) := 254 :: enc (Str [1; 2]);
     enc (Lst [int_item 7; Str [98]]) := 254 :: enc (Str [3]) ]}.

Definition sample_table (k : bytes) : option bytes :=
  if decide (k = [97]) then Some [1; 2] else if decide (k = [98]) then Some [3] else None.

Definition sample_session : list (map_op bytes bytes) :=
  [MContains [97]; MErase [97]; MContains [97]; MAssign [99] [5]; MAt [98]; MInsertConst [98] [9];
   MGetConst [98]].

Lemma small_value_ok (b : bytes) : bytes_ok b -> len b < 1000 -> value_ok Str bytes_valid b.
Proof.
  intros Hb HL. split; [split; [done | lia] |]. cbn [cost]. unfold enc_str.
  assert (forall n, 0 <= n < 1000 -> len (header 128 n) <= 3) as HH.
  { intros n Hn. rewrite len_header by lia. case_bool; [lia |].
    pose proof (bytesRequired_le n 2 ltac:(change (256 ^ 2) with 65536; lia) ltac:(lia)). lia. }
  unfold RLP_LIMIT, SIZE_MAX. specialize (HH (len b) ltac:(lia)).
  destruct b as [|x [|y b]]; [done | case_bool; vm_compute; reflexivity |].
  rewrite length_app. lia.
Qed.

Lemma sample_key_ok x :
  is_byte x -> len (enc (Lst [int_item 7; Str [x]])) < RLP_LIMIT ->
  item_ok (Lst [int_item 7; Str [x]]).
Proof.
  intros Hx HL. split; [| done]. apply leaves_ok_lst. constructor; [apply int_item_leaves |].
  constructor; [| done]. by apply bytes_ok_cons.
Qed.

Lemma sample_table_ok :
  table (wrapped_tree Str 7) (wrapped_valid bytes_valid 7)
    Str bytes_valid (sample_world : world) sample_table.
Proof.
  intros k Hk. unfold sample_table, has_value, contents, host_state_laws, sample_world.
  case_decide as E1; [| case_decide as E2]; subst; cbn [default].
  - split; [apply small_value_ok; [| cbn; lia]; repeat constructor; unfold is_byte; lia |].
    vm_compute. reflexivity.
  - split; [apply small_value_ok; [| cbn; lia]; repeat constructor; unfold is_byte; lia |].
    vm_compute. reflexivity.
  - assert (forall x, item_ok (Lst [int_item 7; Str x]) -> x <> k ->
              enc (wrapped_tree Str 7 k) <> enc (Lst [int_item 7; Str x])) as HN.
    { intros x Hx Hne E. destruct Hk as [[_ [[Hb _] _]] HB].
      apply enc_inj in E; [by injection E as -> | | done].
      apply cost_ok; [| done]. apply leaves_ok_lst.
      constructor; [apply int_item_leaves | by constructor]. }
    rewrite lookup_insert_ne, lookup_singleton_ne; [done | |].
    + apply not_eq_sym, HN; [| done]. by apply sample_key_ok; [unfold is_byte; lia | vm_compute].
    + apply not_eq_sym, HN; [| done]. by apply sample_key_ok; [unfold is_byte; lia | vm_compute].
Qed.

(** A map of integers without stored values, and a session that assigns to a fresh key. *)
Definition no_value (k : bytes) : option Z := None.

Definition scalar_session : list (map_op bytes Z) :=
  [MInsert [99] 5; MAt [99]; MAssign [100] 6].

Lemma no_value_ok :
  table (wrapped_tree Str 7) (wrapped_valid bytes_valid 7) int_item (uint_valid 64)
    (∅ : @world host_state) no_value.
Proof. intros k _. reflexivity. Qed.

Lemma scalar_session_ok :
  Forall (op_valid Str bytes_valid int_item (uint_valid 64) 7) scalar_session.
Proof. repeat constructor; unfold wrapped_valid, uint_valid, is_byte; try lia. Qed.

Lemma scalar_session_fresh : no_stale_reads true ∅ scalar_session.
Proof. cbn. set_solver. Qed.

Lemma map_session_correct_witness :
  (exists g, spec_run [] false sample_table sample_session
     = Ok (g, [OBool true; ONone; OBool false; ONone; OVal [3]; ONone; OVal [9]])) /\
  match spec_run [] false sample_table sample_session with
  | Ok (g, outs) =>
      exists (m : Map bytes bytes) (w' : world),
        map_run c_bytes c_bytes 7 [] false map_new (sample_world : world) sample_session
          = Ok (m, w', outs) /\
        forall order, (forall k, k ∈ order <-> k ∈ modify_ m) ->
          exists w'' : world, map_flush c_bytes c_bytes 7 m order w' = Ok w'' /\
            table (wrapped_tree Str 7) (wrapped_valid bytes_valid 7) Str bytes_valid w'' g /\
            untouched Str bytes_valid 7 (sample_world : world) w''
  | Undef why =>
      map_run c_bytes c_bytes 7 [] false map_new (sample_world : world) sample_session = Undef why
  | _ => False
  end /\
  map_run c_bytes (c_uint 64) 7 0 true map_new (∅ : world) scalar_session
    = Undef "indeterminate value".
Proof.
  split; [eexists; vm_compute; reflexivity |]. split.
  - apply (map_session_correct c_bytes c_bytes Str bytes_valid anything Str bytes_valid anything 7 []
             false sample_session (sample_world : @world host_state) sample_table).
    + apply sample_table_ok.
    + repeat constructor; unfold wrapped_valid, uint_valid, is_byte; try lia.
    + intros _. apply small_value_ok; [constructor | cbn; lia].
    + cbn. set_solver.
  - exact (map_session_correct c_bytes (c_uint 64) Str bytes_valid anything int_item (uint_valid 64)
             anything 7 0 true scalar_session (∅ : @world host_state) no_value no_value_ok
             scalar_session_ok (fun E => match Bool.diff_true_false E with end)
             scalar_session_fresh).
Defined.

Lemma erased_key_still_read_witness :
  let m := map_erase map_new [97] in
  map_contains c_bytes 7 m (sample_world : world) [97] = Ok false /\
  map_get_const c_bytes c_bytes 7 [] false m (sample_world : world) [97] = Ok [1; 2].
Proof.
  apply (erased_key_still_read c_bytes c_bytes Str bytes_valid anything Str bytes_valid anything 7 [] false
           (sample_world : @world host_state) sample_table).
  - apply sample_table_ok.
  - repeat constructor; unfold uint_valid, is_byte; lia.
  - reflexivity.
Defined.

Lemma insert_const_after_erase_lost_witness :
  exists w1 w2 : world,
    map_insert_const c_bytes c_bytes 7 (map_erase map_new [97]) (sample_world : world) [97] [8]
      = Ok (map_erase map_new [97], w1) /\
    contents w1 (enc (wrapped_tree Str 7 [97])) = stored Str [8] /\
    map_flush c_bytes c_bytes 7 (map_erase map_new [97]) [[97]] w1 = Ok w2 /\
    contents w2 (enc (wrapped_tree Str 7 [97])) = [].
Proof.
  apply (insert_const_after_erase_lost c_bytes c_bytes Str bytes_valid anything Str bytes_valid anything
           7 [] false (sample_world : @world host_state) sample_table).
  - apply sample_table_ok.
  - repeat constructor; unfold uint_valid, is_byte; lia.
  - apply small_value_ok; [repeat constructor; unfold is_byte; lia | cbn; lia].
Defined.
