(* ===== verification/StorageType.v ===== *)
(** * storagetype.hpp: one persistent value

    [StorageType<Name, T>]: the constructor loads the value stored under the name, or
    takes the default; the destructor stores it. *)

From S2P Require Import Prelude Common RlpSpec RlpReader RlpConvert HostRlp RlpStream RlpSize.
From S2P Require Import Serialize SerializeFacts HostState Storage.

(** ** Definitions *)

Record StorageType (T : Type) := mkStorage { name_ : Z; default_ : T; t_ : T }.
Arguments mkStorage {T}.
Arguments name_ {T}.
Arguments default_ {T}.
Arguments t_ {T}.

Section StorageType.
Context `{HostRLP, HostState} {T : Type} (ct : codec T).

(** [StorageType(d)] and [Init]; [t0] is the value of an uninitialised [T t_]. *)
Definition storage_init (w : world) (name : Z) (d t0 : T) : res (StorageType T) :=
  '(n, v) ← get_state (c_uint 64) ct w name t0;
  Ok (mkStorage name d (if n =? 0 then d else v)).

(** [Flush], run by the destructor. *)
Definition storage_flush (w : world) (s : StorageType T) : res world :=
  set_state (c_uint 64) ct w (name_ s) (t_ s).

(** [operator=] assigns, then flows off its end without the reference it should return. *)
Definition storage_assign (s : StorageType T) (t : T) : res (StorageType T) :=
  Undef "operator= returns no value".

(** [get], and a change through [self()], [operator*] or a compound assignment. *)
Definition storage_get (s : StorageType T) : T := t_ s.
Definition storage_self (s : StorageType T) (change : T -> T) : StorageType T :=
  mkStorage (name_ s) (default_ s) (change (t_ s)).

(** The comparisons; [operator!=] compares for equality. *)
Definition storage_eq (eqb : T -> T -> bool) (s : StorageType T) (t : T) : bool := eqb (t_ s) t.
Definition storage_ne (eqb : T -> T -> bool) (s : StorageType T) (t : T) : bool := eqb (t_ s) t.

(** [operator++()] and [operator++(int)]: both return the value after the increment. *)
Definition storage_pre_incr (succ : T -> T) (s : StorageType T) : StorageType T * T :=
  (storage_self s succ, succ (t_ s)).
Definition storage_post_incr (succ : T -> T) (s : StorageType T) : StorageType T * T :=
  (storage_self s succ, succ (t_ s)).

(** [operator<<(int)] computes a shift and drops it. *)
Definition storage_shl (s : StorageType T) (offset : Z) : StorageType T * T := (s, t_ s).

(** The life of one object: construct, change, destroy. *)
Definition storage_session (w : world) (name : Z) (d t0 : T) (change : T -> T) : res (T * world) :=
  s ← storage_init w name d t0;
  w' ← storage_flush w (storage_self s change);
  Ok (storage_get s, w').
End StorageType.

(** ** Properties *)

Section StorageTypeFacts.
Context `{HL : HostRLPLaws, HS : HostStateLaws} {T : Type} (ct : codec T).
Context (tt' : T -> item) (vt st : T -> Prop) `{HT : !CodecLaws ct tt' vt st}.

Abbreviation names := (table int_item (uint_valid 64) tt' vt).

Lemma name_cost n : uint_valid 64 n -> cost (int_item n) < RLP_LIMIT.
Proof using Type.
  intros Hn. assert (item_ok (int_item n)) as [_ H1] by (apply int_item_ok; unfold uint_valid in Hn; lia).
  exact H1.
Qed.

Lemma init_spec w f name d t0 :
  names w f -> uint_valid 64 name ->
  storage_init ct w name d t0 = Ok (mkStorage name d (default d (f name))).
Proof using All.
  intros HN Hn. unfold storage_init.
  destruct (table_get (c_uint 64) ct int_item (uint_valid 64) anything tt' vt st w f name t0 HN)
    as (n & -> & Hz); [split; [done | by apply name_cost] |].
  cbn. do 2 f_equal. destruct (f name) as [v |] eqn:Ef; cbn; destruct (Z.eqb_spec n 0); naive_solver.
Qed.

(** C24. A persistent value persists: an object constructed under a name sees the value
    stored there, else its own default; when it is destroyed the changed value is stored
    under that name, no other name and no other key of the state changes, and the next
    object of that name sees exactly that value whatever its default. *)
Theorem storage_type_persists (w : world) (f : Z -> option T) (name : Z) (d t0 : T) (change : T -> T) :
  names w f -> uint_valid 64 name -> value_ok tt' vt (change (default d (f name))) ->
  exists w',
    storage_session ct w name d t0 change = Ok (default d (f name), w') /\
    names w' (update f name (Some (change (default d (f name))))) /\
    (forall kb, kb <> enc (int_item name) -> contents w' kb = contents w kb) /\
    forall d' t0', storage_init ct w' name d' t0'
                   = Ok (mkStorage name d' (change (default d (f name)))).
Proof using All.
  intros HN Hn Hv. unfold storage_session. rewrite (init_spec w f) by done.
  cbn [mbind res_bind]. unfold storage_flush. cbn [storage_self name_ t_ storage_get].
  destruct (table_set (c_uint 64) ct int_item (uint_valid 64) anything tt' vt st w f name
              (change (default d (f name))) HN) as (w' & E & HN' & HF).
  - split; [done | by apply name_cost].
  - done.
  - rewrite E. cbn [mbind res_bind]. exists w'. split; [done |]. split; [done |].
    split; [done |]. intros d' t0'. rewrite (init_spec w' _ name d' t0' HN' Hn).
    unfold update. by rewrite decide_True.
Qed.

(** The same at one name, whatever the types of the values under other names. *)
Abbreviation stored_at := (has_value int_item tt' vt).

Lemma init_at w name d t0 o :
  uint_valid 64 name -> stored_at w name o -> storage_init ct w name d t0 = Ok (mkStorage name d (default d o)).
Proof using All.
  intros Hn HV. unfold storage_init. destruct o as [v |]; cbn [has_value default from_option] in *.
  - destruct HV as [[Hv HB] EC].
    rewrite (get_state_stored (c_uint 64) ct int_item (uint_valid 64) anything tt' vt st w name v t0)
      by (done || by apply name_cost).
    cbn [mbind res_bind]. pose proof (enc_nonempty (tt' v)).
    destruct (Z.eqb_spec (1 + len (enc (tt' v))) 0); [lia | done].
  - unfold get_state. rewrite (state_key_spec (c_uint 64) int_item (uint_valid 64) anything)
      by (done || by apply name_cost).
    cbn [mbind res_bind]. rewrite length_law, HV by (by rewrite HV). done.
Qed.

Lemma flush_at w s :
  uint_valid 64 (name_ s) -> value_ok tt' vt (t_ s) ->
  exists w', storage_flush ct w s = Ok w' /\ stored_at w' (name_ s) (Some (t_ s)) /\
    forall kb, kb <> enc (int_item (name_ s)) -> contents w' kb = contents w kb.
Proof using All.
  intros Hn [Hv HB]. eexists. unfold storage_flush.
  split; [by apply (set_state_spec (c_uint 64) ct int_item (uint_valid 64) anything tt' vt st); [..| apply name_cost |] |].
  split; [split; [done |] |].
  - rewrite set_law. by rewrite decide_True.
  - intros kb Hkb. rewrite set_law. by rewrite decide_False.
Qed.
End StorageTypeFacts.

#[local] Existing Instance host_rlp.
#[local] Existing Instance host_rlp_laws.
#[local] Existing Instance host_state.
#[local] Existing Instance host_state_laws.

Lemma storage_type_persists_witness :
  exists w' : world,
    storage_session (c_uint 32) (∅ : world) 5 40 0 (fun t => t + 2) = Ok (40, w') /\
    table int_item (uint_valid 64) int_item (uint_valid 32) w' (update (fun _ => None) 5 (Some 42)) /\
    (forall kb, kb <> enc (int_item 5) -> contents w' kb = contents (∅ : world) kb) /\
    forall d' t0', storage_init (c_uint 32) w' 5 d' t0' = Ok (mkStorage 5 d' 42).
Proof.
  assert (CodecLaws (c_uint 32) int_item (uint_valid 32) anything) as HC
    by (apply c_uint_laws; [by exists 4 | lia]).
  apply (storage_type_persists (c_uint 32) int_item (uint_valid 32) anything
           (∅ : @world host_state) (fun _ => None) 5 40 0 (fun t => t + 2)).
  - intros k _. reflexivity.
  - unfold uint_valid. lia.
  - split; [unfold uint_valid; cbn; lia | vm_compute; reflexivity].
Defined.
