(* ===== verification/DbArray.v ===== *)
(** * db/array.hpp: the persistent array

    [platon::db::Array]: a cache of the elements accessed, flushed by the destructor; an
    element's key is a string made of the array's name and the index. *)

From S2P Require Import Prelude Common RlpSpec RlpReader RlpConvert HostRlp RlpStream RlpSize.
From S2P Require Import Serialize SerializeFacts HostState Storage.

(** ** Definitions *)

(** The bytes of an integer in memory, least significant first. *)
Definition le_bytes (n : nat) (v : Z) : bytes := reverse (toBigEndian n v).

(** [EncodeKey]: eight bytes of name, the letter A, four bytes of index. *)
Definition EncodeKey (name index : Z) : bytes := le_bytes 8 name ++ [65] ++ le_bytes 4 index.

(** Where the index is in such a key. *)
Definition key_index (key : bytes) : Z := be_value (reverse (zdrop 9 key)).

Section DbArray.
Context `{HostRLP, HostState} {V : Type} (cv : codec V).

(** [name_], [N], and what [Key key;] leaves in [key] (see [read_state]). *)
Context (name N : Z) (dflt : V) (indet : bool).

Abbreviation cache := (gmap Z V).

Definition ArrayKey : codec Z := c_view (EncodeKey name) key_index c_string.

Definition array_at (c : cache) (w : world) (pos : Z) : res (V * cache) :=
  _ ← platon_assert (pos <? N) "out of range";
  match c !! pos with
  | Some v => Ok (v, c)
  | None =>
      v ← read_state ArrayKey cv dflt indet w pos;
      Ok (v, <[pos := v]> c)
  end.

(** [array[pos] = v]: the reference [operator[]] returns is assigned. [at] has then copied
    the old element into the cache, or an uninitialised one. *)
Definition array_assign (c : cache) (w : world) (pos : Z) (v : V) : res cache :=
  '(_, c') ← array_at c w pos; Ok (<[pos := v]> c').

Definition array_get_const (c : cache) (w : world) (pos : Z) : res V :=
  match c !! pos with
  | Some v => Ok v
  | None => read_state ArrayKey cv dflt indet w pos
  end.

Definition array_set_const (c : cache) (w : world) (pos : Z) (v : V) : res (cache * world) :=
  let c' := match c !! pos with Some _ => <[pos := v]> c | None => c end in
  w' ← set_state ArrayKey cv w pos v;
  Ok (c', w').

(** [Flush] over the entries of the cache in some order. *)
Fixpoint array_flush (entries : list (Z * V)) (w : world) : res world :=
  match entries with
  | [] => Ok w
  | (pos, v) :: rest => w' ← set_state ArrayKey cv w pos v; array_flush rest w'
  end.

Definition array_size : Z := N.

(** *** Iterators: a position from 1 to N, one past the element it denotes *)

Definition array_begin : Z := 1.
Definition array_end : Z := u32 (N + 1).
Definition array_deref (c : cache) (w : world) (pos : Z) : res (V * cache) :=
  array_at c w (u32 (pos - 1)).
Definition array_next (pos : Z) : Z := u32 (pos + 1).
Definition array_prev (pos : Z) : Z := u32 (pos - 1).
Definition array_iter_neq (a b : Z) : bool := negb (a =? b).

(** [operator++(int)]: the iterator it returns has already moved. *)
Definition array_post_incr (pos : Z) : Z * Z := (array_next pos, array_next pos).

(** [operator--(int)] asserts that the position is positive. *)
Definition array_post_decr (pos : Z) : res (Z * Z) :=
  _ ← platon_assert (0 <? pos) "pos can't be negative";
  Ok (array_prev pos, array_prev pos).

(** A loop from [begin()] to [end()] that applies [f] to each element. *)
Fixpoint array_loop_from {A} (fuel : nat) (f : A -> V -> res A) (c : cache) (w : world) (pos : Z)
    (acc : A) : res (A * cache) :=
  match fuel with
  | O => Fuel
  | S fuel' =>
      if array_iter_neq pos array_end then
        '(v, c') ← array_deref c w pos;
        acc' ← f acc v;
        array_loop_from fuel' f c' w (array_next pos) acc'
      else Ok (acc, c)
  end.

Definition array_foreach {A} (f : A -> V -> res A) (c : cache) (w : world) (acc : A) : res (A * cache) :=
  array_loop_from (S (Z.to_nat N)) f c w array_begin acc.

(** The reverse iterators, [std::reverse_iterator] of the above: one holds the iterator
    that stands one element after what it denotes; [operator*] steps a copy back and
    dereferences it. *)
Definition array_rbegin : Z := array_end.
Definition array_rend : Z := array_begin.
Definition array_mut_rderef (c : cache) (w : world) (base : Z) : res (V * cache) :=
  array_deref c w (array_prev base).
Definition array_mut_rnext (base : Z) : Z := array_prev base.

Fixpoint array_mut_reverse_loop {A} (fuel : nat) (f : A -> V -> res A) (c : cache) (w : world)
    (base : Z) (acc : A) : res (A * cache) :=
  match fuel with
  | O => Fuel
  | S fuel' =>
      if array_iter_neq base array_rend then
        '(v, c') ← array_mut_rderef c w base;
        acc' ← f acc v;
        array_mut_reverse_loop fuel' f c' w (array_mut_rnext base) acc'
      else Ok (acc, c)
  end.

Definition array_mut_reverse_foreach {A} (f : A -> V -> res A) (c : cache) (w : world) (acc : A)
    : res (A * cache) :=
  array_mut_reverse_loop (S (Z.to_nat N)) f c w array_rbegin acc.

(** The constant iterators: same positions, [get_const] to read, no caching. *)
Definition array_cbegin : Z := 1.
Definition array_cend : Z := u32 (N + 1).
Definition array_const_deref (c : cache) (w : world) (pos : Z) : res V :=
  array_get_const c w (u32 (pos - 1)).

Fixpoint array_const_loop {A} (fuel : nat) (f : A -> V -> res A) (c : cache) (w : world) (pos : Z)
    (acc : A) : res A :=
  match fuel with
  | O => Fuel
  | S fuel' =>
      if array_iter_neq pos array_cend then
        v ← array_const_deref c w pos;
        acc' ← f acc v;
        array_const_loop fuel' f c w (array_next pos) acc'
      else Ok acc
  end.

Definition array_const_foreach {A} (f : A -> V -> res A) (c : cache) (w : world) (acc : A) : res A :=
  array_const_loop (S (Z.to_nat N)) f c w array_cbegin acc.

(** The constant reverse iterators start at N and end at 0; [operator++] goes down. *)
Definition array_crbegin : Z := N.
Definition array_crend : Z := 0.
Definition array_rnext (pos : Z) : Z := u32 (pos - 1).
Definition array_rprev (pos : Z) : Z := u32 (pos + 1).

(** [operator++(int)] and [operator--(int)] of the reverse iterator: the new position, and
    that of the iterator returned, which has moved from the old one the other way. *)
Definition array_rpost_incr (pos : Z) : Z * Z := (array_rnext pos, array_rprev pos).
Definition array_rpost_decr (pos : Z) : res (Z * Z) :=
  _ ← platon_assert (0 <? pos) "pos can't be negative";
  Ok (array_rprev pos, array_rnext pos).

Fixpoint array_reverse_loop {A} (fuel : nat) (f : A -> V -> res A) (c : cache) (w : world) (pos : Z)
    (acc : A) : res A :=
  match fuel with
  | O => Fuel
  | S fuel' =>
      if array_iter_neq pos array_crend then
        v ← array_const_deref c w pos;
        acc' ← f acc v;
        array_reverse_loop fuel' f c w (array_rnext pos) acc'
      else Ok acc
  end.

Definition array_reverse_foreach {A} (f : A -> V -> res A) (c : cache) (w : world) (acc : A) : res A :=
  array_reverse_loop (S (Z.to_nat N)) f c w array_crbegin acc.
End DbArray.

(** *** Specification: the array a session works on *)

Inductive array_op (V : Type) : Type :=
| AAt (pos : Z)                 (** [at], [operator[]] *)
| AAssign (pos : Z) (v : V)     (** [array[pos] = v] *)
| AGetConst (pos : Z)
| ASetConst (pos : Z) (v : V)
| ASum                          (** a loop over all elements *)
| AConstSum                     (** the same with constant iterators *)
| AReverseSum                   (** with the reverse iterators, rbegin to rend *)
| AReverse.                     (** and with constant reverse iterators *)
Arguments AAt {V}.
Arguments AAssign {V}.
Arguments AGetConst {V}.
Arguments ASetConst {V}.
Arguments ASum {V}.
Arguments AConstSum {V}.
Arguments AReverseSum {V}.
Arguments AReverse {V}.

Section Ops.
Context `{HostRLP, HostState} {V : Type} (cv : codec V) (name N : Z) (dflt : V) (indet : bool).

(** One call on the object; the values it returns. *)
Definition array_step (c : gmap Z V) (w : world) (o : array_op V)
    : res (gmap Z V * world * list V) :=
  match o with
  | AAt pos => '(v, c') ← array_at cv name N dflt indet c w pos; Ok (c', w, [v])
  | AAssign pos v => c' ← array_assign cv name N dflt indet c w pos v; Ok (c', w, [])
  | AGetConst pos => v ← array_get_const cv name dflt indet c w pos; Ok (c, w, [v])
  | ASetConst pos v => '(c', w') ← array_set_const cv name c w pos v; Ok (c', w', [])
  | ASum =>
      '(vs, c') ← array_foreach cv name N dflt indet (fun acc v => Ok (acc ++ [v])) c w [];
      Ok (c', w, vs)
  | AConstSum =>
      vs ← array_const_foreach cv name N dflt indet (fun acc v => Ok (acc ++ [v])) c w [];
      Ok (c, w, vs)
  | AReverseSum =>
      '(vs, c') ← array_mut_reverse_foreach cv name N dflt indet (fun acc v => Ok (acc ++ [v])) c w [];
      Ok (c', w, vs)
  | AReverse =>
      vs ← array_reverse_foreach cv name N dflt indet (fun acc v => Ok (acc ++ [v])) c w [];
      Ok (c, w, vs)
  end.

Fixpoint array_run (c : gmap Z V) (w : world) (os : list (array_op V))
    : res (gmap Z V * world * list (list V)) :=
  match os with
  | [] => Ok (c, w, [])
  | o :: os' =>
      '(c', w', out) ← array_step c w o;
      '(c'', w'', outs) ← array_run c' w' os';
      Ok (c'', w'', out :: outs)
  end.

(** An ideal array: every index may have a value. Access through [at] gives the index the
    value it reads, [get_const] only reads it. *)
Definition ideal_at (g : Z -> option V) (p : Z) : res ((Z -> option V) * V) :=
  v ← initial dflt indet (g p); Ok (update g p (Some v), v).

Fixpoint ideal_visit (g : Z -> option V) (ps : list Z) : res ((Z -> option V) * list V) :=
  match ps with
  | [] => Ok (g, [])
  | p :: ps' =>
      '(g', v) ← ideal_at g p;
      '(g'', vs) ← ideal_visit g' ps';
      Ok (g'', v :: vs)
  end.

Fixpoint ideal_view (g : Z -> option V) (ps : list Z) : res (list V) :=
  match ps with
  | [] => Ok []
  | p :: ps' => v ← initial dflt indet (g p); vs ← ideal_view g ps'; Ok (v :: vs)
  end.

(** Access through [at] is checked, the two [const] operations are not. *)
Definition ideal_step (g : Z -> option V) (o : array_op V) : res ((Z -> option V) * list V) :=
  match o with
  | AAt pos =>
      _ ← platon_assert (pos <? N) "out of range";
      '(g', v) ← ideal_at g pos; Ok (g', [v])
  | AAssign pos v =>
      _ ← platon_assert (pos <? N) "out of range";
      '(g', _) ← ideal_at g pos; Ok (update g' pos (Some v), [])
  | AGetConst pos => v ← initial dflt indet (g pos); Ok (g, [v])
  | ASetConst pos v => Ok (update g pos (Some v), [])
  | ASum => ideal_visit g (seqZ 0 N)
  | AConstSum => vs ← ideal_view g (seqZ 0 N); Ok (g, vs)
  | AReverseSum => ideal_visit g (reverse (seqZ 0 N))
  | AReverse => vs ← ideal_view g (reverse (seqZ 0 N)); Ok (g, vs)
  end.

Fixpoint ideal_run (g : Z -> option V) (os : list (array_op V))
    : res ((Z -> option V) * list (list V)) :=
  match os with
  | [] => Ok (g, [])
  | o :: os' =>
      '(g', out) ← ideal_step g o;
      '(g'', outs) ← ideal_run g' os';
      Ok (g'', out :: outs)
  end.
End Ops.

(** ** Properties *)

Lemma length_le_bytes n v : length (le_bytes n v) = n.
Proof. unfold le_bytes. by rewrite length_reverse, length_toBigEndian. Qed.

Lemma le_bytes_ok n v : bytes_ok (le_bytes n v).
Proof. unfold le_bytes, bytes_ok. apply Forall_reverse, toBigEndian_ok. Qed.

(** The iterator that a post-increment of the reverse iterator returns is two elements
    behind the one incremented. *)
Lemma rpost_incr_backwards pos :
  0 < pos < 2 ^ 32 - 1 -> array_rpost_incr pos = (pos - 1, pos + 1).
Proof. intros Hp. unfold array_rpost_incr, array_rnext, array_rprev. by rewrite !wrap_small by lia. Qed.

(** An index is read back from its key. *)
Lemma key_index_EncodeKey name i : 0 <= i < 2 ^ 32 -> key_index (EncodeKey name i) = i.
Proof.
  intros Hi. unfold key_index, EncodeKey.
  rewrite app_assoc, zdrop_app_exact by (rewrite length_app, length_le_bytes; done).
  unfold le_bytes. rewrite reverse_involutive, be_value_toBigEndian.
  change (256 ^ Z.of_nat 4) with (2 ^ 32). by apply Z.mod_small.
Qed.

Lemma length_EncodeKey name i : length (EncodeKey name i) = 13%nat.
Proof. unfold EncodeKey. by rewrite !length_app, !length_le_bytes. Qed.

Lemma EncodeKey_ok name i : bytes_ok (EncodeKey name i).
Proof.
  unfold EncodeKey. rewrite !bytes_ok_app. split; [apply le_bytes_ok |].
  split; [by repeat constructor | apply le_bytes_ok].
Qed.

Lemma reverse_seqZ k : 0 < k -> reverse (seqZ 0 k) = (k - 1) :: reverse (seqZ 0 (k - 1)).
Proof.
  intros Hk. replace (seqZ 0 k) with (seqZ 0 (k - 1 + 1)) by (f_equal; lia).
  rewrite seqZ_app by lia. by rewrite reverse_app, Z.add_0_l.
Qed.

(** A loop that has moved its first result to its accumulator. *)
Lemma follows_post {A B R} (x : res A) (k : A -> res B) (Q : A -> R -> Prop) (Q' : B -> R -> Prop) y :
  (forall a r, Q a r -> exists b, k a = Ok b /\ Q' b r) -> follows Q x y -> follows Q' (x ≫= k) y.
Proof.
  intros HQ. destruct x as [a | | | |]; cbn; [| done..]. intros (r & -> & HR).
  destruct (HQ a r HR) as (b & -> & HR'). by exists r.
Qed.

Section ArrayFacts.
Context `{HL : HostRLPLaws, HS : HostStateLaws} {V : Type} (cv : codec V).
Context (tv : V -> item) (vv sv : V -> Prop) `{HV : !CodecLaws cv tv vv sv}.
Context (name N : Z) (dflt : V) (indet : bool).

Definition index_valid (i : Z) : Prop := 0 <= i < 2 ^ 32.
Definition index_tree (i : Z) : item := Str (EncodeKey name i).
Definition index_key_valid (i : Z) : Prop := index_valid i /\ bytes_valid (EncodeKey name i).
Definition index_sized (i : Z) : Prop := anything (EncodeKey name i).

#[local] Instance ArrayKey_laws : CodecLaws (ArrayKey name) index_tree index_key_valid index_sized.
Proof using HL.
  apply (c_view_laws_on c_string Str bytes_valid anything (EncodeKey name) key_index index_valid).
  intros i Hi. by apply key_index_EncodeKey.
Qed.

Abbreviation akey_ok := (key_ok index_tree index_key_valid).
Abbreviation avalue_ok := (value_ok tv vv).
Abbreviation atable := (table index_tree index_key_valid tv vv).

Lemma index_key_ok i : index_valid i -> akey_ok i.
Proof using Type.
  intros Hi. pose proof (length_EncodeKey name i) as HLen. split; [split; [done |] |].
  - split; [apply EncodeKey_ok | rewrite HLen; done].
  - unfold index_tree. cbn [cost]. unfold enc_str, RLP_LIMIT, SIZE_MAX.
    destruct (EncodeKey name i) as [|x [|y l]]; [done | done |].
    rewrite length_app, HLen. vm_compute. done.
Qed.

(** The object over the stored table [f] implements the ideal array [g]. *)
Record array_implements (c : gmap Z V) (w : world) (f g : Z -> option V) : Prop := {
  ai_table : atable w f;
  ai_view i : index_valid i -> g i = match c !! i with Some v => Some v | None => f i end;
  ai_cache i v : c !! i = Some v -> index_valid i /\ avalue_ok v
}.

(** The default is an element, where it is one at all. *)
Definition dflt_ok : Prop := indet = false -> avalue_ok dflt.

(** A read through [at], or several: the values returned are the ideal ones, after [acc]. *)
Definition reads {A} (w : world) (f : Z -> option V) (t : A -> A) (x : (Z -> option V) * A)
    (r : A * gmap Z V) : Prop :=
  r.1 = t x.2 /\ array_implements r.2 w f x.1.

Lemma initial_follows (o : option V) :
  follows (fun v v' => v' = v /\ (o = Some v \/ indet = false /\ v = dflt))
    (initial dflt indet o) (initial dflt indet o).
Proof using Type.
  destruct o as [v |]; cbn; [exists v; auto |]. destruct indet; [done | exists dflt; auto].
Qed.

(** Where nothing is cached the stored element is read. *)
Lemma array_read c w f g i :
  array_implements c w f g -> index_valid i -> c !! i = None ->
  read_state (ArrayKey name) cv dflt indet w i = initial dflt indet (g i).
Proof using HL HS HV.
  intros [HT HG HC] Hi Ec. rewrite HG, Ec by done.
  apply (table_read (ArrayKey name) cv index_tree index_key_valid index_sized tv vv sv w f i
           dflt indet HT). by apply index_key_ok.
Qed.

Lemma array_value c w f g i v :
  array_implements c w f g -> index_valid i -> dflt_ok -> g i = Some v \/ indet = false /\ v = dflt ->
  avalue_ok v.
Proof using Type.
  intros [HT HG HC] Hi Hd [E | [E ->]]; [| by apply Hd]. rewrite HG in E by done.
  destruct (c !! i) as [v' |] eqn:Ec.
  - injection E as ->. by apply (HC i).
  - specialize (HT i (index_key_ok i Hi)). rewrite E in HT. by destruct HT.
Qed.

Lemma array_update c w f g i v :
  array_implements c w f g -> index_valid i -> avalue_ok v ->
  array_implements (<[i := v]> c) w f (update g i (Some v)).
Proof using Type.
  intros [HT HG HC] Hi Hv. split; [done | |].
  - intros j Hj. unfold update. destruct (decide (j = i)) as [-> |].
    + by rewrite lookup_insert_eq.
    + rewrite lookup_insert_ne by done. by apply HG.
  - intros j v'. rewrite lookup_insert_Some. intros [[<- <-] | [_ Hj]]; [done | by apply HC].
Qed.

(** [at] within the bounds. *)
Lemma array_at_spec c w f g i :
  array_implements c w f g -> index_valid i -> dflt_ok -> i < N ->
  follows (reads w f id)
    (ideal_at dflt indet g i) (array_at cv name N dflt indet c w i).
Proof using HL HS HV.
  intros HI Hi Hd HN. unfold array_at, ideal_at, platon_assert. destruct (Z.ltb_spec i N); [| lia].
  cbn [mbind res_bind]. pose proof (ai_view _ _ _ _ HI i Hi) as Eg.
  destruct (c !! i) as [v |] eqn:Ec.
  - rewrite Eg. cbn. pose proof HI as [_ _ HC]. destruct (HC i v Ec) as [_ Hv].
    pose proof (array_update c w f g i v HI Hi Hv) as HU. rewrite insert_id in HU by done.
    eexists. by split; [| split].
  - rewrite (array_read c w f g i HI Hi Ec).
    eapply follows_bind; [apply initial_follows |]. intros v ? [-> Hv]. apply follows_ok.
    split; [done |]. apply array_update; [done | done |]. by apply (array_value c w f g i).
Qed.

Lemma array_get_const_spec c w f g i :
  array_implements c w f g -> index_valid i ->
  array_get_const cv name dflt indet c w i = initial dflt indet (g i).
Proof using HL HS HV.
  intros HI Hi. unfold array_get_const. pose proof (ai_view _ _ _ _ HI i Hi) as Eg.
  destruct (c !! i) as [v |] eqn:Ec; [by rewrite Eg |]. by apply (array_read c w f g).
Qed.

(** The iterators visit the elements in order and end. *)
Lemma array_loop_spec c w f g k fuel acc :
  array_implements c w f g -> dflt_ok -> 0 <= N < 2 ^ 32 - 1 -> 0 <= k <= N ->
  (Z.to_nat (N - k) < fuel)%nat ->
  follows (reads w f (app acc)) (ideal_visit dflt indet g (seqZ k (N - k)))
    (array_loop_from cv name N dflt indet fuel (fun acc v => Ok (acc ++ [v])) c w (k + 1) acc).
Proof using HL HS HV.
  intros HI Hd HN. revert c g k acc HI. induction fuel as [|fuel IH]; intros c g k acc HI Hk Hf; [lia |].
  cbn [array_loop_from]. unfold array_iter_neq, array_end. rewrite wrap_small by lia.
  destruct (Z.eqb_spec (k + 1) (N + 1)) as [E | E]; cbn [negb].
  - rewrite seqZ_nil by lia. apply follows_ok. split; [cbn; by rewrite app_nil_r | done].
  - unfold array_deref. replace (k + 1 - 1) with k by lia. rewrite wrap_small by lia.
    rewrite (seqZ_cons k) by lia. cbn [ideal_visit].
    eapply follows_bind; [apply (array_at_spec c w f g k HI); [unfold index_valid; lia | done | lia] |].
    intros [g1 v] [v' c1] [Ev HI1]. cbn in Ev, HI1 |- *. subst v'.
    unfold array_next. rewrite wrap_small by lia.
    replace (Z.pred (N - k)) with (N - Z.succ k) by lia. rewrite <- Z.add_1_r.
    eapply (follows_post _ _ (reads w f (app (acc ++ [v])))); [| apply IH; (done || lia)].
    intros [g2 vs] [vs' c2] [Evs HI2]. cbn in *. eexists. split; [done |].
    split; [cbn; by rewrite Evs, <- app_assoc | done].
Qed.

Lemma array_mut_reverse_loop_spec c w f g k fuel acc :
  array_implements c w f g -> dflt_ok -> 0 <= N < 2 ^ 32 - 1 -> 0 <= k <= N ->
  (Z.to_nat k < fuel)%nat ->
  follows (reads w f (app acc)) (ideal_visit dflt indet g (reverse (seqZ 0 k)))
    (array_mut_reverse_loop cv name N dflt indet fuel (fun acc v => Ok (acc ++ [v])) c w (k + 1) acc).
Proof using HL HS HV.
  intros HI Hd HN. revert c g k acc HI. induction fuel as [|fuel IH]; intros c g k acc HI Hk Hf; [lia |].
  cbn [array_mut_reverse_loop]. unfold array_iter_neq, array_rend, array_begin.
  destruct (Z.eqb_spec (k + 1) 1) as [E | E]; cbn [negb].
  - replace k with 0 by lia. apply follows_ok. split; [cbn; by rewrite app_nil_r | done].
  - unfold array_mut_rderef, array_mut_rnext, array_deref, array_prev.
    assert (u32 (k + 1 - 1) = k) as -> by (rewrite wrap_small; lia).
    rewrite (wrap_small 32 (k - 1)) by lia.
    rewrite reverse_seqZ by lia. cbn [ideal_visit].
    eapply follows_bind; [apply (array_at_spec c w f g (k - 1) HI); [unfold index_valid; lia | done | lia] |].
    intros [g1 v] [v' c1] [Ev HI1]. cbn in Ev, HI1 |- *. subst v'.
    replace k with (k - 1 + 1) at 2 by lia.
    eapply (follows_post _ _ (reads w f (app (acc ++ [v])))); [| apply IH; (done || lia)].
    intros [g2 vs] [vs' c2] [Evs HI2]. cbn in *. eexists. split; [done |].
    split; [cbn; by rewrite Evs, <- app_assoc | done].
Qed.

Lemma array_const_loop_spec c w f g k fuel acc :
  array_implements c w f g -> 0 <= N < 2 ^ 32 - 1 -> 0 <= k <= N ->
  (Z.to_nat (N - k) < fuel)%nat ->
  follows (fun vs r => r = acc ++ vs) (ideal_view dflt indet g (seqZ k (N - k)))
    (array_const_loop cv name N dflt indet fuel (fun acc v => Ok (acc ++ [v])) c w (k + 1) acc).
Proof using HL HS HV.
  intros HI HN. revert k acc. induction fuel as [|fuel IH]; intros k acc Hk Hf; [lia |].
  cbn [array_const_loop]. unfold array_iter_neq, array_cend. rewrite wrap_small by lia.
  destruct (Z.eqb_spec (k + 1) (N + 1)) as [E | E]; cbn [negb].
  - rewrite seqZ_nil by lia. apply follows_ok. by rewrite app_nil_r.
  - unfold array_const_deref. replace (k + 1 - 1) with k by lia. rewrite wrap_small by lia.
    rewrite (array_get_const_spec c w f g k HI) by (unfold index_valid; lia).
    rewrite (seqZ_cons k) by lia. cbn [ideal_view].
    eapply follows_bind; [apply initial_follows |]. intros v ? [-> _]. cbn [mbind res_bind].
    unfold array_next. rewrite wrap_small by lia.
    replace (Z.pred (N - k)) with (N - Z.succ k) by lia. rewrite <- Z.add_1_r.
    eapply (follows_post _ _ (fun vs r => r = (acc ++ [v]) ++ vs)); [| apply IH; lia].
    intros vs r ->. eexists. split; [done |]. by rewrite <- app_assoc.
Qed.

Lemma array_reverse_loop_spec c w f g k fuel acc :
  array_implements c w f g -> 0 <= k < 2 ^ 32 -> (Z.to_nat k < fuel)%nat ->
  follows (fun vs r => r = acc ++ vs) (ideal_view dflt indet g (reverse (seqZ 0 k)))
    (array_reverse_loop cv name dflt indet fuel (fun acc v => Ok (acc ++ [v])) c w k acc).
Proof using HL HS HV.
  intros HI. revert k acc. induction fuel as [|fuel IH]; intros k acc Hk Hf; [lia |].
  cbn [array_reverse_loop]. unfold array_iter_neq, array_crend.
  destruct (Z.eqb_spec k 0) as [-> | E]; cbn [negb].
  - apply follows_ok. by rewrite app_nil_r.
  - unfold array_const_deref, array_rnext. rewrite wrap_small by lia.
    rewrite (array_get_const_spec c w f g (k - 1) HI) by (unfold index_valid; lia).
    rewrite reverse_seqZ by lia. cbn [ideal_view].
    eapply follows_bind; [apply initial_follows |]. intros v ? [-> _]. cbn [mbind res_bind].
    eapply (follows_post _ _ (fun vs r => r = (acc ++ [v]) ++ vs)); [| apply IH; lia].
    intros vs r ->. eexists. split; [done |]. by rewrite <- app_assoc.
Qed.

Definition array_op_valid (o : array_op V) : Prop :=
  match o with
  | AAt i | AGetConst i => index_valid i
  | AAssign i v | ASetConst i v => index_valid i /\ avalue_ok v
  | ASum | AConstSum | AReverseSum | AReverse => True
  end.

(** [set_const] writes the state, and the cached copy if there is one. *)
Lemma array_set_const_spec c w f g i v :
  array_implements c w f g -> index_valid i -> avalue_ok v ->
  exists c' w' f', array_set_const cv name c w i v = Ok (c', w') /\
    array_implements c' w' f' (update g i (Some v)).
Proof using HL HS HV.
  intros HI Hi Hv. unfold array_set_const. pose proof HI as [HT HG HC].
  destruct (table_set (ArrayKey name) cv index_tree index_key_valid index_sized tv vv sv w f i v HT)
    as (w' & -> & HT' & _); [by apply index_key_ok | done |].
  cbn [mbind res_bind]. eexists _, w', _. split; [done |]. split; [exact HT' | |].
  - intros j Hj. unfold update. destruct (decide (j = i)) as [-> | Hne].
    + destruct (c !! i) eqn:Ec; [by rewrite lookup_insert_eq | by rewrite Ec].
    + rewrite HG by done. destruct (c !! i); [by rewrite lookup_insert_ne | done].
  - intros j v'. destruct (c !! i); [| apply HC]. rewrite lookup_insert_Some.
    intros [[<- <-] | [_ Hj]]; [done | by apply HC].
Qed.

(** One call, or several. *)
Definition array_does {A} (x : (Z -> option V) * A) (r : gmap Z V * world * A) : Prop :=
  r.2 = x.2 /\ exists f, array_implements r.1.1 r.1.2 f x.1.

Lemma reads_does {A} w f (x : res ((Z -> option V) * A)) (t : A -> A) y :
  (forall a, t a = a) -> follows (reads w f t) x y ->
  follows array_does x ('(vs, c') ← y; Ok (c', w, vs)).
Proof using Type.
  intros Ht. destruct x as [[g a] | | | |]; cbn; [| by intros -> .. | done].
  intros ([vs c'] & -> & Ev & HI). cbn in Ev, HI |- *. eexists. split; [done |].
  split; [cbn; by rewrite Ev, Ht | by exists f].
Qed.

Lemma views_does {A} c w f g (x y : res A) :
  array_implements c w f g -> follows (fun v r => r = v) x y ->
  follows array_does (v ← x; Ok (g, v)) (v ← y; Ok (c, w, v)).
Proof using Type.
  intros HI HF. eapply follows_bind; [exact HF |]. intros v ? ->. apply follows_ok.
  split; [done | by exists f].
Qed.

Lemma array_step_spec c w f g o :
  array_implements c w f g -> array_op_valid o -> dflt_ok -> 0 <= N < 2 ^ 32 - 1 ->
  follows array_does (ideal_step N dflt indet g o) (array_step cv name N dflt indet c w o).
Proof using HL HS HV.
  intros HI Ho Hd HN. pose proof (Z.sub_0_r N) as E0.
  destruct o as [i | i v | i | i v | | | |]; cbn [ideal_step array_step array_op_valid] in *.
  - destruct (Z.ltb_spec i N); cbn [platon_assert mbind res_bind].
    + eapply follows_bind; [by apply (array_at_spec c w f g i HI) |].
      intros [g1 v] [v' c1] [Ev HI1]. cbn in Ev, HI1. subst v'. apply follows_ok.
      split; [done | by exists f].
    + unfold array_at, platon_assert. by destruct (Z.ltb_spec i N); [lia |].
  - destruct Ho as [Hi Hv]. unfold array_assign.
    destruct (Z.ltb_spec i N); cbn [platon_assert mbind res_bind].
    + pose proof (array_at_spec c w f g i HI Hi Hd H1) as HA.
      destruct (ideal_at dflt indet g i) as [[g1 v0] | | | |]; cbn in HA;
        [| by rewrite HA .. | done].
      destruct HA as ([v1 c1] & -> & _ & HI1). apply follows_ok. split; [done |].
      exists f. by apply array_update.
    + unfold array_at, platon_assert. by destruct (Z.ltb_spec i N); [lia |].
  - rewrite (array_get_const_spec c w f g i HI Ho). eapply follows_bind; [apply initial_follows |].
    intros v ? [-> _]. apply follows_ok. split; [done | by exists f].
  - destruct Ho as [Hi Hv].
    destruct (array_set_const_spec c w f g i v HI Hi Hv) as (c' & w' & f' & -> & HI').
    apply follows_ok. split; [done | by exists f'].
  - apply (reads_does w f _ (app [])); [done |]. unfold array_foreach, array_begin.
    rewrite <- E0 at 1. apply (array_loop_spec c w f g 0); (done || lia).
  - apply (views_does c w f g); [done |]. unfold array_const_foreach, array_cbegin.
    rewrite <- E0 at 1. apply (array_const_loop_spec c w f g 0 _ []); (done || lia).
  - apply (reads_does w f _ (app [])); [done |]. unfold array_mut_reverse_foreach, array_rbegin, array_end.
    rewrite wrap_small by lia. apply (array_mut_reverse_loop_spec c w f g N); (done || lia).
  - apply (views_does c w f g); [done |]. unfold array_reverse_foreach, array_crbegin.
    apply (array_reverse_loop_spec c w f g N _ []); (done || lia).
Qed.

Lemma array_run_spec os c w f g :
  array_implements c w f g -> Forall array_op_valid os -> dflt_ok -> 0 <= N < 2 ^ 32 - 1 ->
  follows array_does (ideal_run N dflt indet g os) (array_run cv name N dflt indet c w os).
Proof using HL HS HV.
  intros HI HO Hd HN. revert c w f g HI. induction HO as [|o os Ho _ IH]; intros c w f g HI.
  { apply follows_ok. split; [done | by exists f]. }
  cbn [ideal_run array_run]. eapply follows_bind; [by apply (array_step_spec c w f g) |].
  intros [g1 out] [[c1 w1] out'] [Eo [f1 HI1]]. cbn in Eo, HI1. subst out'.
  eapply follows_bind; [by apply (IH c1 w1 f1 g1) |].
  intros [g2 outs] [[c2 w2] outs'] [Eos HI2]. cbn in Eos. subst outs'. by apply follows_ok.
Qed.

(** The specification ends with a result, the revert or the uninitialised read. *)
Lemma ideal_run_outcome os (g : Z -> option V) :
  match ideal_run N dflt indet g os with Ok _ | Revert _ | Undef _ => True | _ => False end.
Proof using Type.
  set (fine := fun A (x : res A) => match x with Ok _ | Revert _ | Undef _ => True | _ => False end).
  assert (forall A B (x : res A) (k : A -> res B),
    fine A x -> (forall a, fine B (k a)) -> fine B (x ≫= k)) as HB.
  { intros A B [a | | | |] k; cbn; auto. }
  assert (forall o, fine V (initial dflt indet o)) as HN.
  { intros [v |]; cbn; [done | by destruct indet]. }
  assert (forall g p, fine _ (ideal_at dflt indet g p)) as HA.
  { intros g' p. unfold ideal_at. by apply HB. }
  assert (forall ps g, fine _ (ideal_visit dflt indet g ps)) as HVi.
  { induction ps as [|p ps IH]; intros g'; [done |]. cbn [ideal_visit]. apply HB; [done |].
    intros [? ?]. apply HB; [done |]. by intros []. }
  assert (forall g ps, fine _ (ideal_view dflt indet g ps)) as HVw.
  { intros g' ps. induction ps; [done |]. cbn [ideal_view]. apply HB; [done |]. intros ?. by apply HB. }
  assert (forall b m, fine _ (platon_assert b m)) as HP by (by intros []).
  change (fine _ (ideal_run N dflt indet g os)). revert g.
  induction os as [|o os IH]; intros g; [done |]. cbn [ideal_run]. apply HB.
  - destruct o; cbn [ideal_step]; try done; repeat (apply HB; [done |]; intros []); try done; by apply HB.
  - intros [g' out]. apply HB; [done |]. by intros [].
Qed.

(** [Flush] stores the cache, whatever the order of its entries. *)
Lemma array_flush_spec entries w f :
  (forall i v, (i, v) ∈ entries -> index_valid i /\ avalue_ok v) -> NoDup entries.*1 ->
  atable w f ->
  exists w', array_flush cv name entries w = Ok w' /\
    atable w' (fun i => match (list_to_map entries : gmap Z V) !! i with
                        | Some v => Some v | None => f i end).
Proof using HL HS HV.
  revert w f. induction entries as [|[i v] entries IH]; intros w f HE HND HT.
  { exists w. split; [done |]. intros i Hi. cbn. by apply HT. }
  destruct (HE i v) as [Hi Hv]; [by left |]. apply NoDup_cons in HND as [Hni HND].
  destruct (table_set (ArrayKey name) cv index_tree index_key_valid index_sized tv vv sv w f i v HT)
    as (w1 & E1 & HT1 & _); [by apply index_key_ok | done |].
  destruct (IH w1 _ (fun j u Hj => HE j u (list_elem_of_further _ _ _ Hj)) HND HT1) as (w2 & E2 & HT2).
  exists w2. cbn [array_flush]. rewrite E1. cbn [mbind res_bind]. split; [done |].
  intros j Hj. specialize (HT2 j Hj). cbn beta in HT2 |- *. cbn [list_to_map foldr fst snd].
  unfold update in HT2. destruct (decide (j = i)) as [-> |].
  - rewrite lookup_insert_eq. by rewrite not_elem_of_list_to_map_1 in HT2.
  - by rewrite lookup_insert_ne.
Qed.

End ArrayFacts.

#[local] Existing Instance host_rlp.
#[local] Existing Instance host_rlp_laws.
#[local] Existing Instance host_state.
#[local] Existing Instance host_state_laws.

Definition no_element {V} (i : Z) : option V := None.

(** An array of three strings. *)
Definition sample_array_session : list (array_op bytes) :=
  [AAssign 1 [7]; ASetConst 2 [9]; ASum; AAt 0; AGetConst 5; AConstSum; AReverseSum; AReverse].

(** An array of three integers: the elements are set with [set_const]; the fourth call,
    an assignment, copies an uninitialised one. *)
Definition integer_session : list (array_op Z) :=
  [ASetConst 0 7; ASetConst 2 9; AAssign 2 8; AAssign 1 5; ASum].

