(* ===== verification/Bech32.v ===== *)
(** * bech32.hpp: Bech32 checksums and regrouping of bits

    [src/libraries/platonlib/include/platon/bech32.hpp]. The checksum is a linear code
    over 5-bit symbols; the proofs use that [polymod] is linear for exclusive or. *)

From Stdlib Require Import Btauto.
From S2P Require Import Prelude Common.

(** ** Definitions *)

(** qpzry9x8gf2tvdw0s3jn54khce6mua7l *)
Definition charset : bytes :=
  [113; 112; 122; 114; 121; 57; 120; 56; 103; 102; 50; 116; 118; 100; 119; 48;
   115; 51; 106; 110; 53; 52; 107; 104; 99; 101; 54; 109; 117; 97; 55; 108].

Definition charset_rev : list Z :=
  [-1; -1; -1; -1; -1; -1; -1; -1; -1; -1; -1; -1; -1; -1; -1; -1; -1; -1; -1;
   -1; -1; -1; -1; -1; -1; -1; -1; -1; -1; -1; -1; -1; -1; -1; -1; -1; -1; -1;
   -1; -1; -1; -1; -1; -1; -1; -1; -1; -1; 15; -1; 10; 17; 21; 20; 26; 30; 7;
   5;  -1; -1; -1; -1; -1; -1; -1; 29; -1; 24; 13; 25; 9;  8;  23; -1; 18; 22;
   31; 27; 19; -1; 1;  0;  3;  16; 11; 28; 12; 14; 6;  4;  2;  -1; -1; -1; -1;
   -1; -1; 29; -1; 24; 13; 25; 9;  8;  23; -1; 18; 22; 31; 27; 19; -1; 1;  0;
   3;  16; 11; 28; 12; 14; 6;  4;  2;  -1; -1; -1; -1; -1].

Definition cat (x y : bytes) : bytes := x ++ y.

(** [-((top >> i) & 1) & k]. *)
Definition generator_term (top i k : Z) : Z := Z.land (- Z.land (Z.shiftr top i) 1) k.

(** One round of [polymod]; [chk] has 32 bits, [top] has 8. *)
Definition polymod_step (chk value : Z) : Z :=
  let top := wrap 8 (Z.shiftr chk 25) in
  u32 (Z.lxor (Z.lxor (Z.lxor (Z.lxor (Z.lxor (Z.lxor
    (Z.shiftl (Z.land chk 0x1ffffff) 5) value)
    (generator_term top 0 0x3b6a57b2))
    (generator_term top 1 0x26508e6d))
    (generator_term top 2 0x1ea119fa))
    (generator_term top 3 0x3d4233dd))
    (generator_term top 4 0x2a1462b3)).

Definition polymod (values : bytes) : Z := foldl polymod_step 1 values.

Definition expand_hrp (hrp : bytes) : bytes :=
  ((fun c => Z.shiftr c 5) <$> hrp) ++ [0] ++ ((fun c => Z.land c 0x1f) <$> hrp).

Definition verify_checksum (hrp values : bytes) : bool :=
  polymod (cat (expand_hrp hrp) values) =? 1.

Definition create_checksum (hrp values : bytes) : bytes :=
  let enc := cat (expand_hrp hrp) values ++ replicate 6 0 in
  let mod' := Z.lxor (polymod enc) 1 in
  (fun i => Z.land (Z.shiftr mod' (5 * (5 - i))) 31) <$> seqZ 0 6.

Section ConvertBits.
Context (frombits tobits : Z).

(** A left shift of an [int]: undefined when the result needs more than 31 bits. *)
Definition int_shl (a n : Z) : res Z :=
  let r := Z.shiftl a n in
  if (0 <=? r) && (r <? 2 ^ 31) then Ok r else Undef "signed integer overflow".

Definition maxv : Z := Z.shiftl 1 tobits - 1.
Definition max_acc : Z := Z.shiftl 1 (frombits + tobits - 1) - 1.

(** [while (bits >= tobits)]. *)
Fixpoint convertbits_emit (fuel : nat) (acc bits : Z) (out : bytes) : res (bytes * Z) :=
  if tobits <=? bits then
    match fuel with
    | O => Fuel
    | S fuel' =>
        let bits' := bits - tobits in
        convertbits_emit fuel' acc bits' (out ++ [Z.land (Z.shiftr acc bits') maxv])
    end
  else Ok (out, bits).

Fixpoint convertbits_loop (inp : bytes) (acc bits : Z) (out : bytes) : res (bytes * Z * Z) :=
  match inp with
  | [] => Ok (out, acc, bits)
  | value :: inp' =>
      shifted ← int_shl acc frombits;
      let acc' := Z.land (Z.lor shifted value) max_acc in
      let bits' := bits + frombits in
      '(out', bits'') ← convertbits_emit (Z.to_nat bits') acc' bits' out;
      convertbits_loop inp' acc' bits'' out'
  end.

Definition convertbits (pad : bool) (out inp : bytes) : res (bytes * bool) :=
  '(out', acc, bits) ← convertbits_loop inp 0 0 out;
  if pad then
    if negb (bits =? 0)
    then last ← int_shl acc (tobits - bits); Ok (out' ++ [Z.land last maxv], true)
    else Ok (out', true)
  else if frombits <=? bits then Ok (out', false)
  else last ← int_shl acc (tobits - bits);
       if negb (Z.land last maxv =? 0) then Ok (out', false) else Ok (out', true).
End ConvertBits.

(** *** Reference values *)

(** The number whose digits in base [2 ^ w] are the symbols of a list. *)
Definition digits_value (w : Z) (l : list Z) : Z := foldl (fun a d => a * 2 ^ w + d) 0 l.

Definition is_digit (w d : Z) : Prop := 0 <= d < 2 ^ w.
#[export] Instance is_digit_dec w d : Decision (is_digit w d).
Proof. unfold is_digit. apply _. Defined.

Definition digits_ok (w : Z) (l : list Z) : Prop := Forall (is_digit w) l.

(** [polymod] without the initial 1, from a given remainder. *)
Definition remainder (r : Z) (l : list Z) : Z := foldl polymod_step r l.

(** A remainder fits in 30 bits. *)
Definition rem_ok (r : Z) : Prop := 0 <= r < 2 ^ 30.

(** ** Properties of the regrouping *)

Section Digits.
Context (w : Z) (Hw : 0 < w).

Lemma digits_value_snoc l d : digits_value w (l ++ [d]) = digits_value w l * 2 ^ w + d.
Proof using Type. unfold digits_value. by rewrite foldl_app. Qed.

Lemma digits_value_inj l k :
  digits_ok w l -> digits_ok w k -> length l = length k ->
  digits_value w l = digits_value w k -> l = k.
Proof using Hw.
  revert k. induction l as [|d l IH] using rev_ind; intros k Hl Hk HL HV.
  - by destruct k.
  - destruct k as [|e k _] using rev_ind; [rewrite length_app in HL; simpl in HL; lia |].
    rewrite !length_app in HL. simpl in HL. rewrite !digits_value_snoc in HV.
    apply Forall_app in Hl as [Hl Hd]. apply Forall_app in Hk as [Hk He].
    rewrite Forall_singleton in Hd. rewrite Forall_singleton in He. unfold is_digit in Hd, He.
    destruct (Z.div_mod_unique (2 ^ w) (digits_value w l) (digits_value w k) d e) as [E ->]; [lia.. |].
    f_equal. apply IH; [done | done | lia | done].
Qed.
End Digits.

(** The accumulator: [bits] pending bits below the digits already in [out]. *)
Section Regroup.
Context (f t : Z) (Hf : 0 < f <= 8) (Ht : 0 < t <= 8).

Record regrouped (seen out : list Z) (acc bits : Z) : Prop := {
  rg_out : digits_ok t out;
  rg_len : len out * t + bits = len seen * f;
  rg_value : digits_value f seen = digits_value t out * 2 ^ bits + acc mod 2 ^ bits
}.

Lemma land_maxv a : Z.land a (maxv t) = a mod 2 ^ t.
Proof using Ht.
  unfold maxv. rewrite Z.shiftl_1_l, Z.sub_1_r, <- Z.ones_equiv. by apply Z.land_ones; lia.
Qed.

Lemma land_max_acc a : Z.land a (max_acc f t) = a mod 2 ^ (f + t - 1).
Proof using Hf Ht.
  unfold max_acc. rewrite Z.shiftl_1_l, Z.sub_1_r, <- Z.ones_equiv. by apply Z.land_ones; lia.
Qed.

(** Splitting [m] low bits off [n + m]. *)
Lemma mod_pow2_split a n m :
  0 <= n -> 0 <= m -> a mod 2 ^ (n + m) = (Z.shiftr a m mod 2 ^ n) * 2 ^ m + a mod 2 ^ m.
Proof using Type.
  intros Hn Hm. rewrite Z.shiftr_div_pow2, Z.pow_add_r, (Z.mul_comm (2 ^ n)) by lia.
  rewrite Z.rem_mul_r by lia. lia.
Qed.

Lemma mod_mod_pow2 a n m : 0 <= n <= m -> (a mod 2 ^ m) mod 2 ^ n = a mod 2 ^ n.
Proof using Type. intros H. exact (wrap_wrap n m a H). Qed.

Lemma regroup_emit_spec fuel seen acc bits out :
  regrouped seen out acc bits -> 0 <= bits <= Z.of_nat fuel ->
  exists out' bits', convertbits_emit t fuel acc bits out = Ok (out', bits') /\
    regrouped seen out' acc bits' /\ 0 <= bits' < t.
Proof using Ht.
  revert bits out. induction fuel as [|fuel IH]; intros bits out HR Hb; cbn [convertbits_emit];
    destruct (Z.leb_spec t bits); try lia; try (exists out, bits; split_and!; [done | done | lia | lia]).
  apply IH; [| lia]. destruct HR as [HO HL HV].
  assert (digits_ok t [Z.land (Z.shiftr acc (bits - t)) (maxv t)]) as Hd.
  { apply Forall_singleton. rewrite land_maxv. unfold is_digit. apply Z.mod_pos_bound. lia. }
  split.
  - by apply Forall_app.
  - rewrite length_app. cbn [length]. lia.
  - rewrite HV, digits_value_snoc, land_maxv. replace bits with (t + (bits - t)) at 1 2 by lia.
    rewrite mod_pow2_split, Z.pow_add_r by lia. lia.
Qed.

Lemma int_shl_ok a n m : 0 <= n -> 0 <= a < 2 ^ m -> 0 <= m -> m + n <= 31 -> int_shl a n = Ok (a * 2 ^ n).
Proof using Type.
  intros Hn Ha Hm H31. unfold int_shl. rewrite Z.shiftl_mul_pow2 by lia.
  assert (a * 2 ^ n < 2 ^ 31).
  { apply Z.lt_le_trans with (2 ^ m * 2 ^ n); [nia |].
    rewrite <- Z.pow_add_r by lia. apply Z.pow_le_mono_r; lia. }
  destruct (Z.leb_spec 0 (a * 2 ^ n)); [| nia]. by destruct (Z.ltb_spec (a * 2 ^ n) (2 ^ 31)); [| lia].
Qed.

Lemma loop_spec inp seen out acc bits :
  regrouped seen out acc bits -> 0 <= acc < 2 ^ (f + t - 1) -> 0 <= bits < t -> digits_ok f inp ->
  exists out' acc' bits', convertbits_loop f t inp acc bits out = Ok (out', acc', bits') /\
    regrouped (seen ++ inp) out' acc' bits' /\ 0 <= acc' < 2 ^ (f + t - 1) /\ 0 <= bits' < t.
Proof using Hf Ht.
  intros HR Ha Hb Hi. revert seen out acc bits HR Ha Hb.
  induction Hi as [|v inp Hv Hi IH]; intros seen out acc bits HR Ha Hb.
  { exists out, acc, bits. by rewrite app_nil_r. }
  cbn [convertbits_loop]. rewrite (int_shl_ok acc f (f + t - 1)) by lia. cbn [mbind res_bind].
  rewrite <- Z.shiftl_mul_pow2, lor_shiftl_add, land_max_acc by (unfold is_digit in Hv; lia).
  set (acc1 := (acc * 2 ^ f + v) mod 2 ^ (f + t - 1)).
  assert (regrouped (seen ++ [v]) out acc1 (bits + f)) as HR1.
  { destruct HR as [HO HL HV]. split; [done | rewrite length_app; cbn [length]; lia |].
    unfold acc1. rewrite digits_value_snoc, HV.
    rewrite mod_mod_pow2 by lia.
    rewrite mod_pow2_split, Z.pow_add_r, Z.shiftr_div_pow2 by lia.
    unfold is_digit in Hv. rewrite Z.div_add_l, (Z.div_small v), Z.add_0_r by lia.
    rewrite (Z.add_comm (acc * 2 ^ f) v), Z.mod_add, (Z.mod_small v) by lia. lia. }
  destruct (regroup_emit_spec (Z.to_nat (bits + f)) _ _ _ _ HR1) as (out' & bits' & -> & HR' & Hb'); [lia |].
  cbn [mbind res_bind].
  destruct (IH (seen ++ [v]) out' acc1 bits' HR') as (o & a & b & E & HR2 & Ha2 & Hb2).
  - apply Z.mod_pos_bound. lia.
  - done.
  - exists o, a, b. rewrite <- app_assoc in HR2. done.
Qed.

Lemma regrouped_nil : regrouped [] [] 0 0.
Proof using Type. split; [by constructor | done | done]. Qed.

(** With padding: the value, shifted to fill the last digit. *)
Lemma convertbits_pad inp :
  digits_ok f inp ->
  exists out p, convertbits f t true [] inp = Ok (out, true) /\ digits_ok t out /\
    0 <= p < t /\ len out * t = len inp * f + p /\ digits_value t out = digits_value f inp * 2 ^ p.
Proof using Hf Ht.
  intros Hi. unfold convertbits.
  destruct (loop_spec inp [] [] 0 0 regrouped_nil) as (out & acc & bits & -> & [HO HL HV] & Ha & Hb);
    [lia | lia | done |].
  cbn [mbind res_bind app] in *. destruct (Z.eqb_spec bits 0) as [-> | Hne]; cbn [negb].
  - exists out, 0. split_and!; [done | done | lia | lia | lia |]. rewrite HV, Z.mod_1_r. lia.
  - rewrite (int_shl_ok acc (t - bits) (f + t - 1)) by lia. cbn [mbind res_bind].
    eexists _, (t - bits). split; [done |]. rewrite land_maxv.
    assert ((acc * 2 ^ (t - bits)) mod 2 ^ t = (acc mod 2 ^ bits) * 2 ^ (t - bits)) as ->.
    { replace t with (bits + (t - bits)) at 2 by lia. rewrite Z.pow_add_r by lia.
      by rewrite Z.mul_mod_distr_r by lia. }
    pose proof (Z.mod_pos_bound acc (2 ^ bits)).
    assert (2 ^ t = 2 ^ bits * 2 ^ (t - bits)) as E by (rewrite <- Z.pow_add_r by lia; f_equal; lia).
    split_and!; [| lia | lia | rewrite length_app; cbn [length]; lia |].
    + apply Forall_app. split; [done |]. apply Forall_singleton. unfold is_digit. rewrite E. nia.
    + rewrite digits_value_snoc, HV, E. lia.
Qed.

(** Without padding: an answer of [true] says that fewer than [f] bits remain and all
    are 0. *)
Lemma convertbits_nopad inp :
  digits_ok f inp ->
  exists out p r ok, convertbits f t false [] inp = Ok (out, ok) /\ digits_ok t out /\
    0 <= p < t /\ len out * t + p = len inp * f /\ 0 <= r < 2 ^ p /\
    digits_value f inp = digits_value t out * 2 ^ p + r /\
    (ok = true <-> p < f /\ r = 0).
Proof using Hf Ht.
  intros Hi. unfold convertbits.
  destruct (loop_spec inp [] [] 0 0 regrouped_nil) as (out & acc & bits & -> & [HO HL HV] & Ha & Hb);
    [lia | lia | done |].
  cbn [mbind res_bind app] in *. pose proof (Z.mod_pos_bound acc (2 ^ bits)).
  exists out, bits, (acc mod 2 ^ bits). destruct (Z.leb_spec f bits).
  - exists false. split_and!; try done; lia.
  - rewrite (int_shl_ok acc (t - bits) (f + t - 1)) by lia. cbn [mbind res_bind].
    assert ((acc * 2 ^ (t - bits)) mod 2 ^ t = (acc mod 2 ^ bits) * 2 ^ (t - bits)) as E.
    { replace t with (bits + (t - bits)) at 2 by lia. rewrite Z.pow_add_r by lia.
      by rewrite Z.mul_mod_distr_r by lia. }
    rewrite land_maxv, E.
    destruct (Z.eqb_spec (acc mod 2 ^ bits * 2 ^ (t - bits)) 0) as [Hz | Hnz]; cbn [negb].
    + assert (acc mod 2 ^ bits = 0) by nia. exists true. split_and!; try done; lia.
    + assert (acc mod 2 ^ bits <> 0) by (intros Hr; rewrite Hr in Hnz; lia).
      exists false. split_and!; try done; lia.
Qed.
End Regroup.

(** Regrouping bytes to smaller digits and back. *)
Lemma convertbits_back f t inp :
  0 < t <= f -> f <= 8 -> digits_ok f inp ->
  exists out, convertbits f t true [] inp = Ok (out, true) /\ digits_ok t out /\
              len out * t < len inp * f + t /\ len inp * f <= len out * t /\
              convertbits t f false [] out = Ok (inp, true).
Proof.
  intros Ht Hf Hi.
  destruct (convertbits_pad f t) with inp as (out & p & E & HO & Hp & HL & HV); [lia | lia | done |].
  exists out. split_and!; [done | done | lia | lia |].
  destruct (convertbits_nopad t f) with out as (inp' & q & r & ok & E' & HO' & Hq & HL' & Hr & HV' & Hok);
    [lia | lia | done |].
  destruct (Z.div_mod_unique f (len inp') (len inp) q p) as [HLen ->]; [lia.. |].
  destruct (Z.div_mod_unique (2 ^ p) (digits_value f inp') (digits_value f inp) r 0) as [EV ->]; [lia.. |].
  rewrite E', (digits_value_inj f) with (l := inp') (k := inp); [| lia | done | done | lia | done].
  do 2 f_equal. apply Hok. lia.
Qed.

(** Regrouping accepted digits to bytes and back. *)
Lemma convertbits_forth f t inp out :
  0 < f <= t -> t <= 8 -> digits_ok f inp ->
  convertbits f t false [] inp = Ok (out, true) ->
  digits_ok t out /\ convertbits t f true [] out = Ok (inp, true).
Proof.
  intros Hf Ht Hi E.
  destruct (convertbits_nopad f t) with inp as (out' & p & r & ok & E' & HO & Hp & HL & Hr & HV & Hok);
    [lia | lia | done |].
  rewrite E in E'. injection E' as <- <-. destruct Hok as [[Hpf ->] _]; [done |]. split; [done |].
  destruct (convertbits_pad t f) with out as (inp' & q & -> & HO' & Hq & HL' & HV'); [lia | lia | done |].
  destruct (Z.div_mod_unique f (len inp') (len inp) p q) as [HLen ->]; [lia.. |].
  rewrite (digits_value_inj f) with (l := inp') (k := inp); [done | lia | done | done | lia | lia].
Qed.

(** ** Properties of the checksum *)

(** [polymod_step] is linear for exclusive or. *)

Lemma land_lxor_distr a b k : Z.land (Z.lxor a b) k = Z.lxor (Z.land a k) (Z.land b k).
Proof.
  apply Z.bits_inj'. intros i _. rewrite !Z.land_spec, !Z.lxor_spec, !Z.land_spec. btauto.
Qed.

Lemma wrap_lxor w a b : 0 <= w -> wrap w (Z.lxor a b) = Z.lxor (wrap w a) (wrap w b).
Proof. intros Hw. rewrite <- !land_ones_wrap by done. apply land_lxor_distr. Qed.

Lemma generator_term_eq chk i k :
  0 <= i < 8 -> generator_term (wrap 8 (Z.shiftr chk 25)) i k = if Z.testbit chk (25 + i) then k else 0.
Proof.
  intros Hi. unfold generator_term. rewrite land_1, Z.shiftr_div_pow2, <- Z.testbit_spec' by lia.
  unfold wrap. rewrite Z.mod_pow2_bits_low, Z.shiftr_spec by lia. rewrite (Z.add_comm i).
  destruct (Z.testbit chk (25 + i)); cbn [Z.b2z]; [apply Z.land_m1_l | apply Z.land_0_l].
Qed.

Lemma generator_term_lxor a b i k :
  0 <= i < 8 ->
  generator_term (wrap 8 (Z.shiftr (Z.lxor a b) 25)) i k
  = Z.lxor (generator_term (wrap 8 (Z.shiftr a 25)) i k) (generator_term (wrap 8 (Z.shiftr b 25)) i k).
Proof.
  intros Hi. rewrite !generator_term_eq, Z.lxor_spec by done.
  destruct (Z.testbit a (25 + i)), (Z.testbit b (25 + i)); cbn [xorb];
    by rewrite ?Z.lxor_nilpotent, ?Z.lxor_0_r, ?Z.lxor_0_l.
Qed.

Lemma polymod_step_lxor a b u v :
  polymod_step (Z.lxor a b) (Z.lxor u v) = Z.lxor (polymod_step a u) (polymod_step b v).
Proof.
  unfold polymod_step. cbv zeta. rewrite !generator_term_lxor, <- wrap_lxor by lia.
  rewrite land_lxor_distr, Z.shiftl_lxor. f_equal.
  apply Z.bits_inj'. intros i _. rewrite !Z.lxor_spec. btauto.
Qed.

Lemma remainder_lxor a b l k :
  length l = length k ->
  remainder (Z.lxor a b) (zip_with Z.lxor l k) = Z.lxor (remainder a l) (remainder b k).
Proof.
  unfold remainder. revert a b k. induction l as [|u l IH]; intros a b [|v k] HL; try done.
  cbn [zip_with foldl]. rewrite polymod_step_lxor. apply IH. by injection HL.
Qed.

Lemma generator_term_range top i k : rem_ok k -> rem_ok (generator_term top i k).
Proof.
  intros Hk. unfold generator_term. rewrite land_1.
  destruct (Z.mod_pos_bound (Z.shiftr top i) 2) as [H1 H2]; [lia |].
  assert (Z.shiftr top i mod 2 = 0 \/ Z.shiftr top i mod 2 = 1) as [-> | ->] by lia.
  - rewrite Z.land_0_l. unfold rem_ok. lia.
  - by rewrite Z.land_m1_l.
Qed.

Lemma land_low chk : Z.land chk 0x1ffffff = chk mod 2 ^ 25.
Proof. exact (Z.land_ones chk 25 ltac:(lia)). Qed.

Lemma polymod_step_ok chk v : rem_ok v -> rem_ok (polymod_step chk v).
Proof.
  intros Hv. unfold polymod_step. cbv zeta. unfold rem_ok.
  enough (forall x, rem_ok x -> rem_ok (u32 x)) as HW.
  { apply HW. unfold rem_ok.
    repeat (apply lxor_range; [lia | |]); try (apply generator_term_range; unfold rem_ok; lia); [| done].
    rewrite land_low, Z.shiftl_mul_pow2 by lia. pose proof (Z.mod_pos_bound chk (2 ^ 25)). lia. }
  intros x Hx. unfold rem_ok in *. rewrite wrap_small; lia.
Qed.

(** A remainder below [2 ^ 25] is shifted by one symbol. *)
Lemma polymod_step_low chk v :
  0 <= chk < 2 ^ 25 -> is_digit 5 v -> polymod_step chk v = chk * 2 ^ 5 + v.
Proof.
  intros Hc Hv. unfold polymod_step, is_digit in *. cbv zeta.
  rewrite !generator_term_eq, !(testbit_above chk 25) by lia.
  rewrite !Z.lxor_0_r, land_low, Z.mod_small by lia.
  rewrite <- Z.add_nocarry_lxor by (by apply land_shiftl_small).
  rewrite Z.shiftl_mul_pow2 by lia. by rewrite wrap_small by lia.
Qed.

(** Whether [f] holds for all of [0, n). *)
Definition all_below (n : nat) (f : Z -> bool) : bool := forallb f (seqZ 0 (Z.of_nat n)).

Lemma all_below_true n f x : all_below n f = true -> 0 <= x < Z.of_nat n -> f x = true.
Proof.
  unfold all_below. rewrite forallb_forall. intros H Hx. apply H.
  apply list_elem_of_In. apply elem_of_seqZ. lia.
Qed.

(** The feedback of a non-zero top symbol changes the lowest symbol: no non-zero
    remainder is mapped to 0. *)
Lemma polymod_step_kernel chk : rem_ok chk -> polymod_step chk 0 = 0 -> chk = 0.
Proof.
  unfold rem_ok. intros Hc H. set (top := chk / 2 ^ 25). set (low := chk mod 2 ^ 25).
  assert (0 <= top < 32) as Ht by (subst top; split; [apply Z.div_pos | apply Z.div_lt_upper_bound]; lia).
  assert (0 <= low < 2 ^ 25) as Hl by (apply Z.mod_pos_bound; lia).
  assert (chk = Z.lxor (Z.shiftl top 25) low) as E.
  { rewrite <- Z.add_nocarry_lxor, Z.shiftl_mul_pow2 by (lia || by apply land_shiftl_small).
    pose proof (Z.div_mod chk (2 ^ 25) ltac:(lia)). lia. }
  change 0 with (Z.lxor 0 0) in H at 1. rewrite E, polymod_step_lxor, (polymod_step_low low) in H
    by (unfold is_digit; lia).
  apply Z.lxor_eq in H.
  assert (implb (polymod_step (Z.shiftl top 25) 0 mod 32 =? 0) (top =? 0) = true) as HK.
  { by apply (all_below_true 32 (fun top => implb (polymod_step (Z.shiftl top 25) 0 mod 32 =? 0) (top =? 0))). }
  rewrite H in HK. replace ((low * 2 ^ 5 + 0) mod 32) with 0 in HK
    by (symmetry; apply Z.mod_divide; [lia | exists low; lia]).
  cbn [Z.eqb implb] in HK. apply Z.eqb_eq in HK. rewrite HK in H.
  change (polymod_step (Z.shiftl 0 25) 0) with 0 in H. assert (low = 0) by lia. pose proof (Z.div_mod chk (2 ^ 25) ltac:(lia)). lia.
Qed.

Lemma remainder_ok r l : rem_ok r -> digits_ok 5 l -> rem_ok (remainder r l).
Proof.
  unfold remainder. intros Hr Hl. revert r Hr.
  induction Hl as [|v l Hv Hl IH]; intros r Hr; [done |]. cbn [foldl]. apply IH.
  apply polymod_step_ok. unfold is_digit, rem_ok in *. lia.
Qed.

(** Six symbols after a zero remainder are its digits. *)
Lemma remainder_digits l :
  digits_ok 5 l -> len l <= 6 -> remainder 0 l = digits_value 5 l /\ 0 <= digits_value 5 l < 2 ^ (5 * len l).
Proof.
  induction l as [|v l IH] using rev_ind; intros Hl HL; [done |].
  apply Forall_app in Hl as [Hl Hv]. rewrite Forall_singleton in Hv.
  rewrite length_app in HL |- *. cbn [length] in HL |- *.
  destruct IH as [E Hb]; [done | lia |].
  assert (2 ^ (5 * len l) <= 2 ^ 25) by (apply Z.pow_le_mono_r; lia).
  unfold remainder in E |- *. rewrite foldl_app, E, digits_value_snoc. cbn [foldl].
  rewrite polymod_step_low by (lia || done). split; [done |].
  rewrite Nat2Z.inj_add, Z.mul_add_distr_l, Z.pow_add_r by lia. unfold is_digit in Hv.
  change (5 * Z.of_nat 1) with 5. lia.
Qed.

Lemma remainder_checksum r l :
  digits_ok 5 l -> length l = 6%nat ->
  remainder r l = Z.lxor (remainder r (replicate 6 0)) (digits_value 5 l).
Proof.
  intros Hl HL. destruct (remainder_digits l) as [<- _]; [done | lia |].
  rewrite <- remainder_lxor by by rewrite length_replicate. rewrite Z.lxor_0_r. f_equal.
  do 7 (destruct l as [|? l]; try done).
Qed.

Lemma polymod_app a b : polymod (a ++ b) = remainder (polymod a) b.
Proof. unfold polymod, remainder. by rewrite foldl_app. Qed.

Lemma expand_hrp_ok hrp : bytes_ok hrp -> digits_ok 5 (expand_hrp hrp).
Proof.
  intros H. unfold expand_hrp. apply Forall_app. split; [| apply Forall_cons; split].
  - apply Forall_fmap. eapply Forall_impl; [done |]. intros c Hc. unfold is_byte in Hc.
    cbn. unfold is_digit. rewrite shiftr_div by lia.
    split; [apply Z.div_pos | apply Z.div_lt_upper_bound]; lia.
  - unfold is_digit. lia.
  - apply Forall_fmap. eapply Forall_impl; [done |]. intros c Hc. unfold is_byte in Hc.
    cbn. unfold is_digit. apply (land_range c 5 31); lia.
Qed.

(** The digits of a 30-bit number, first the most significant. *)
Definition symbols6 (m : Z) : bytes :=
  (fun i => Z.land (Z.shiftr m (5 * (5 - i))) 31) <$> seqZ 0 6.

Lemma symbols6_spec m : rem_ok m -> digits_ok 5 (symbols6 m) /\ digits_value 5 (symbols6 m) = m.
Proof.
  unfold rem_ok. intros Hm. split.
  - apply Forall_fmap, Forall_forall. intros i _. cbn. unfold is_digit.
    rewrite (Z.land_ones (Z.shiftr m (5 * (5 - i))) 5 ltac:(lia) : Z.land _ 31 = _).
    by apply Z.mod_pos_bound.
  - unfold symbols6. change (seqZ 0 6) with [0; 1; 2; 3; 4; 5].
    cbn [fmap list_fmap digits_value foldl]. unfold digits_value. cbn [foldl].
    rewrite !(fun a => Z.land_ones a 5 ltac:(lia) : Z.land a 31 = a mod 2 ^ 5).
    rewrite !Z.shiftr_div_pow2 by lia. cbn [Z.mul Z.sub Z.add Z.opp Z.pos_sub Pos.mul Z.pow Z.pow_pos Pos.iter Pos.sub].
    Z.div_mod_to_equations. lia.
Qed.

(** Appending the checksum makes a valid codeword, and no other six symbols do. *)
Lemma checksum_unique hrp values c :
  bytes_ok hrp -> digits_ok 5 values -> digits_ok 5 c -> length c = 6%nat ->
  verify_checksum hrp (values ++ c) = true <-> c = create_checksum hrp values.
Proof.
  intros Hh Hv Hc HL. set (m := polymod (cat (expand_hrp hrp) values ++ replicate 6 0)).
  assert (create_checksum hrp values = symbols6 (Z.lxor m 1)) as -> by done.
  assert (rem_ok m) as Hm.
  { unfold m, polymod, cat. apply (remainder_ok 1); [unfold rem_ok; lia |].
    apply Forall_app. split; [apply Forall_app; split; [by apply expand_hrp_ok | done] |].
    apply Forall_replicate. unfold is_digit. lia. }
  destruct (symbols6_spec (Z.lxor m 1)) as [HO HV]; [apply lxor_range; unfold rem_ok in Hm; lia |].
  assert (polymod (cat (expand_hrp hrp) (values ++ c)) = Z.lxor m (digits_value 5 c)) as E.
  { unfold m, cat. rewrite app_assoc, !(polymod_app (_ ++ values)). by apply remainder_checksum. }
  unfold verify_checksum. rewrite E, Z.eqb_eq. split.
  - intros H. apply (digits_value_inj 5); [lia | done | done | done |]. rewrite HV, <- H.
    by rewrite <- Z.lxor_assoc, Z.lxor_nilpotent, Z.lxor_0_l.
  - intros ->. rewrite HV, <- Z.lxor_assoc, Z.lxor_nilpotent. done.
Qed.

Lemma create_checksum_ok hrp values :
  bytes_ok hrp -> digits_ok 5 values ->
  digits_ok 5 (create_checksum hrp values) /\ length (create_checksum hrp values) = 6%nat.
Proof.
  intros Hh Hv. split; [| done].
  apply Forall_fmap, Forall_forall. intros i _. cbn. unfold is_digit.
  rewrite (Z.land_ones _ 5 ltac:(lia) : Z.land _ 31 = _). by apply Z.mod_pos_bound.
Qed.

(** *** Distance *)

(** The number of positions where two lists differ. *)
Fixpoint distance (l k : list Z) : nat :=
  match l, k with
  | a :: l', b :: k' => (if a =? b then 0 else 1) + distance l' k'
  | _, _ => 0
  end.

Fixpoint weight (d : list Z) : nat :=
  match d with [] => 0 | x :: d' => (if x =? 0 then 0 else 1) + weight d' end.

Lemma distance_weight l k : length l = length k -> distance l k = weight (zip_with Z.lxor l k).
Proof.
  revert k. induction l as [|a l IH]; intros [|b k] HL; try done.
  cbn [distance zip_with weight]. rewrite IH by by injection HL. f_equal.
  destruct (Z.eqb_spec (Z.lxor a b) 0) as [H | H], (Z.eqb_spec a b) as [E | E]; try done.
  - by apply Z.lxor_eq in H.
  - by rewrite E, Z.lxor_nilpotent in H.
Qed.

Lemma distance_0 l k : length l = length k -> distance l k = 0%nat -> l = k.
Proof.
  revert k. induction l as [|a l IH]; intros [|b k] HL; try done.
  cbn [distance]. destruct (Z.eqb_spec a b) as [-> |]; [| done].
  intros H. f_equal. apply IH; [by injection HL | done].
Qed.

Lemma step_split r v : polymod_step r v = Z.lxor (polymod_step r 0) (polymod_step 0 v).
Proof. rewrite <- polymod_step_lxor. by rewrite Z.lxor_0_r, Z.lxor_0_l. Qed.

(** A non-zero remainder stays non-zero unless another error follows. *)
Lemma weight_after_nonzero r d : rem_ok r -> r <> 0 -> digits_ok 5 d -> remainder r d = 0 -> (1 <= weight d)%nat.
Proof.
  intros Hr Hne Hd. revert r Hr Hne. induction Hd as [|v d Hv Hd IH]; intros r Hr Hne H; [done |].
  cbn [weight]. destruct (Z.eqb_spec v 0) as [-> |]; [| lia]. cbn [Nat.add].
  apply (IH (polymod_step r 0)); [| | done].
  - apply polymod_step_ok. unfold rem_ok. lia.
  - intros Hz. by apply polymod_step_kernel in Hz.
Qed.

(** A single wrong symbol never again looks like a single symbol, [n] symbols on. *)
Fixpoint spreads (n : nat) (r : Z) : bool :=
  match n with
  | O => true
  | S n' => let r' := polymod_step r 0 in (32 <=? r') && spreads n' r'
  end.

Lemma weight_after_error n r d :
  spreads n r = true -> 0 < r -> digits_ok 5 d -> (length d <= n)%nat ->
  remainder r d = 0 -> (2 <= weight d)%nat.
Proof.
  revert r d. induction n as [|n IH]; intros r d HS Hr Hd HL H.
  - destruct d; [cbn in H; lia | simpl in HL; lia].
  - destruct d as [|v d]; [cbn in H; lia |]. cbn [spreads] in HS.
    apply andb_true_iff in HS as [H32 HS]. apply Z.leb_le in H32.
    apply Forall_cons in Hd as [Hv Hd]. cbn [weight]. simpl in HL.
    unfold remainder in H. cbn [foldl] in H. fold (remainder (polymod_step r v) d) in H.
    destruct (Z.eqb_spec v 0) as [-> | Hne].
    + apply (IH _ d HS); [lia | done | lia | done].
    + apply le_n_S, (weight_after_nonzero (polymod_step r v)); [| | done | done].
      * apply polymod_step_ok. unfold is_digit, rem_ok in *. lia.
      * rewrite step_split, (polymod_step_low 0 v) by (lia || done).
        intros Hx. apply Z.lxor_eq in Hx. unfold is_digit in Hv. lia.
Qed.

(** A non-zero word of up to 89 symbols with remainder 0 has at least three. *)
Lemma weight_codeword d :
  digits_ok 5 d -> (length d <= 89)%nat -> remainder 0 d = 0 -> weight d <> 0%nat -> (3 <= weight d)%nat.
Proof.
  intros Hd. induction Hd as [|v d Hv Hd IH]; intros HL H HW; [done |].
  cbn [weight] in *. simpl in HL.
  unfold remainder in H. cbn [foldl] in H. fold (remainder (polymod_step 0 v) d) in H.
  destruct (Z.eqb_spec v 0) as [-> | Hne]; [apply IH; [lia | done | done] |].
  rewrite polymod_step_low in H by (lia || done). unfold is_digit in Hv.
  apply le_n_S, (weight_after_error 88 v); [| lia | done | lia | done].
  apply (all_below_true 32 (fun v => (v =? 0) || spreads 88 v)) in Hv; [| by vm_compute].
  apply orb_true_iff in Hv as [Hv | Hv]; [by apply Z.eqb_eq in Hv | done].
Qed.

Lemma zip_lxor_ok l k : digits_ok 5 l -> digits_ok 5 k -> digits_ok 5 (zip_with Z.lxor l k).
Proof.
  intros Hl. revert k. induction Hl as [|a l Ha Hl IH]; intros [|b k] Hk; try by constructor.
  apply Forall_cons in Hk as [Hb Hk]. constructor; [| by apply IH].
  apply (lxor_range a b 5); [lia | done | done].
Qed.

(** C28. The checksum detects every one or two wrong symbols: two different words that
    verify for the same human-readable part, up to 89 symbols long, differ in at least
    three positions. *)
Theorem checksum_distance (hrp v v' : bytes) :
  digits_ok 5 v -> digits_ok 5 v' -> length v = length v' -> (length v <= 89)%nat ->
  verify_checksum hrp v = true -> verify_checksum hrp v' = true -> v <> v' ->
  (3 <= distance v v')%nat.
Proof.
  unfold verify_checksum, cat. rewrite !Z.eqb_eq, !polymod_app.
  intros Hv Hv' HL H89 H H' Hne. rewrite distance_weight by done. apply weight_codeword.
  - by apply zip_lxor_ok.
  - rewrite length_zip_with. lia.
  - pose proof (remainder_lxor (polymod (expand_hrp hrp)) (polymod (expand_hrp hrp)) v v' HL) as E.
    rewrite H, H', !Z.lxor_nilpotent in E. done.
  - rewrite <- distance_weight by done. intros H0. by apply Hne, distance_0.
Qed.

(** The words of the addresses 0 and 1. *)
Definition sample_word (b : Z) : bytes :=
  let values := replicate 31 0 ++ [b] in values ++ create_checksum [108; 97; 116] values.

Lemma checksum_distance_witness :
  verify_checksum [108; 97; 116] (sample_word 0) = true /\
  verify_checksum [108; 97; 116] (sample_word 1) = true /\
  (3 <= distance (sample_word 0) (sample_word 1))%nat.
Proof.
  assert (forall b, b = 0 \/ b = 1 -> digits_ok 5 (sample_word b) /\
            verify_checksum [108; 97; 116] (sample_word b) = true) as H.
  { intros b [-> | ->]; (split; [apply (bool_decide_unpack _) |]; vm_compute; reflexivity). }
  destruct (H 0) as [H0 V0]; [auto |]. destruct (H 1) as [H1 V1]; [auto |].
  split; [exact V0 |]. split; [exact V1 |].
  apply (checksum_distance [108; 97; 116]); [exact H0 | exact H1 | reflexivity | | exact V0 | exact V1 |].
  - apply (bool_decide_unpack _). reflexivity.
  - vm_compute. discriminate.
Defined.
