(* ===== verification/FixedHash.v ===== *)
(** * fixedhash.hpp: fixed-size hashes and account addresses

    [FixedHash<N>] is a list of N bytes; an [Address] has N = 20. Text is a list of
    character codes. *)

From S2P Require Import Prelude Common Bech32.

(** ** Definitions *)

(** *** FixedHash *)

Section FixedHash.
Context (N : Z).

Definition hash_zero : bytes := replicate (Z.to_nat N) 0.

(** [FixedHash(bytes)] and [FixedHash(initializer_list)]: at most N bytes of the
    argument, then zeros. *)
Definition hash_of_bytes (b : bytes) : bytes :=
  ztake N b ++ replicate (Z.to_nat N - length b) 0.

(** [FixedHash(FixedHash<M>)]. *)
Definition hash_of_hash (M : Z) (h : bytes) : bytes :=
  let c := Z.min M N in ztake c h ++ replicate (Z.to_nat (N - c)) 0.

Definition hash_of_u128 (u : Z) : bytes := toBigEndian (Z.to_nat N) u.

(** [FixedHash(byte const *, size_t)], the pointed memory as a list. *)
Definition hash_of_memory (h : bytes) (len : Z) : res bytes :=
  let real_len := if len <? N then len else N in
  if real_len <=? Z.of_nat (length h)
  then Ok (ztake real_len h ++ replicate (Z.to_nat (N - real_len)) 0)
  else Undef "memcpy past the source".

Definition hash_of_string (s : bytes) (isHex : bool) : bytes :=
  hash_of_bytes (if isHex then fromHex s else asBytes s).

Definition hash_of_view (s : bytes) : res bytes := fromHex_array s hash_zero true.
End FixedHash.

(** [operator bool]. *)
Definition hash_nonzero (h : bytes) : bool := existsb (fun b => negb (b =? 0)) h.

Definition hash_eqb (a b : bytes) : bool := bool_decide (a = b).

Fixpoint hash_ltb (a b : bytes) : bool :=
  match a, b with
  | x :: a', y :: b' => if x <? y then true else if y <? x then false else hash_ltb a' b'
  | _, _ => false
  end.

Definition hash_geb (a b : bytes) : bool := negb (hash_ltb a b).
Definition hash_leb (a b : bytes) : bool := hash_eqb a b || hash_ltb a b.
Definition hash_gtb (a b : bytes) : bool := negb (hash_leb a b).

Definition hash_xor (a b : bytes) : bytes := zip_with Z.lxor a b.
Definition hash_or (a b : bytes) : bytes := zip_with Z.lor a b.
Definition hash_and (a b : bytes) : bytes := zip_with Z.land a b.
Definition hash_not (a : bytes) : bytes := (fun b => wrap 8 (Z.lnot b)) <$> a.

Definition hash_at (a : bytes) (i : Z) : res Z :=
  match zget a i with Some b => Ok b | None => Undef "std::array index out of range" end.

Definition hash_contains (a c : bytes) : bool := hash_eqb (hash_and a c) c.

(** [toString] for N other than 20, and [toHexString]. *)
Definition hash_toString (h : bytes) : bytes := [48; 120] ++ toHex h.

(** *** Addresses as Bech32 text *)

Definition charset_at (v : Z) : res Z :=
  match zget charset v with Some c => Ok c | None => Undef "read past charset" end.

Definition charset_rev_at (c : Z) : res Z :=
  match zget charset_rev c with Some v => Ok v | None => Undef "read past charset_rev" end.

Definition encode (address hrp : bytes) : res bytes :=
  '(values, _) ← convertbits 8 5 true [] address;
  let checksum := create_checksum hrp values in
  let combined := cat values checksum in
  text ← mapM (M:=res) charset_at combined;
  Ok (hrp ++ [49] ++ text).

(** The C library's, in the C locale. *)
Definition tolower (c : Z) : Z := if (65 <=? c) && (c <=? 90) then c + 32 else c.
Definition toupper (c : Z) : Z := if (97 <=? c) && (c <=? 122) then c - 32 else c.

(** The first loop of [decode], which stops when [ok] fails. *)
Fixpoint decode_scan (s : bytes) (lower upper : bool) : bool * bool * bool :=
  match s with
  | [] => (true, lower, upper)
  | c :: s' =>
      let ok := negb ((c <? 33) || (126 <? c)) in
      let lower' := if (97 <=? c) && (c <=? 122) then true else lower in
      let upper' := if (65 <=? c) && (c <=? 90) then true else upper in
      if ok then decode_scan s' lower' upper' else (false, lower', upper')
  end.

(** [rfind]: the last position of a character. *)
Fixpoint rfind (s : bytes) (c : Z) : option Z :=
  match s with
  | [] => None
  | x :: s' =>
      match rfind s' c with
      | Some p => Some (p + 1)
      | None => if x =? c then Some 0 else None
      end
  end.

(** The second loop: all symbols are looked up, a bad one clears [ok]. *)
Fixpoint decode_symbols (s : bytes) (ok : bool) : res (bytes * bool) :=
  match s with
  | [] => Ok ([], ok)
  | c :: s' =>
      r ← charset_rev_at c;
      '(values, ok') ← decode_symbols s' (if r =? -1 then false else ok);
      Ok (wrap 8 r :: values, ok')
  end.

Definition no_address : bytes * bool := (hash_zero 20, false).

Definition decode (str_address str_hrp : bytes) : res (bytes * bool) :=
  let '(scanned, lower, upper) := decode_scan str_address false false in
  let ok := if lower && upper then false else scanned in
  let size := Z.of_nat (length str_address) in
  match rfind str_address 49 with
  | Some pos =>
      if ok && (size <=? 90) && (1 <=? pos) && (pos + 7 <=? size) then
        '(values, ok') ← decode_symbols (zdrop (pos + 1) str_address) ok;
        if (ok' : bool) then
          let hrp := tolower <$> ztake pos str_address in
          if negb (bool_decide (hrp = str_hrp)) then Ok no_address
          else if verify_checksum hrp values then
            '(conv, ok_convert) ← convertbits 5 8 false [] (ztake (Z.of_nat (length values) - 6) values);
            if (ok_convert : bool) && (Z.of_nat (length conv) =? 20)
            then Ok (hash_of_bytes 20 conv, true)
            else Ok no_address
          else Ok no_address
        else Ok no_address
      else Ok no_address
  | None => Ok no_address
  end.

(** [std::string] from a character array: up to the first zero. *)
Fixpoint c_str (s : bytes) : bytes :=
  match s with [] => [] | c :: s' => if c =? 0 then [] else c :: c_str s' end.

Section Network.
(** Whether [TESTNET] is defined: the prefix is lax, else lat. *)
Context (testnet : bool).

Definition hrp : bytes := if testnet then [108; 97; 120] else [108; 97; 116].

Definition make_address (str_address : bytes) : res (bytes * bool) :=
  if has_0x str_address then
    let bytes_address := fromHex str_address in
    if Z.of_nat (length bytes_address) =? 20
    then Ok (hash_of_bytes 20 bytes_address, true)
    else Ok no_address
  else decode str_address hrp.

(** [make_address(const char (&)[43])]: a literal of 42 characters. *)
Definition make_address_literal (str_address : bytes) : res (bytes * bool) :=
  if has_0x str_address then
    let bytes_address := fromHex (c_str str_address) in
    if Z.of_nat (length bytes_address) =? 20
    then Ok (hash_of_bytes 20 bytes_address, true)
    else Ok no_address
  else decode (c_str str_address) hrp.

Definition address_toString (a : bytes) : res bytes := encode a hrp.
End Network.

Section EIP55.
(** The chain's hash function [platon_sha3], at 32 bytes. *)
Context (platon_sha3 : bytes -> bytes).

Definition is_hex_digit (c : Z) : bool :=
  ((48 <=? c) && (c <=? 57)) || ((97 <=? c) && (c <=? 102)) || ((65 <=? c) && (c <=? 70)).

Definition eip55_char (hash : bytes) (i addressCharacter : Z) : res Z :=
  b ← hash_at hash (i / 2);
  let nibble := Z.land (Z.shiftr b (4 * (1 - i mod 2))) 0xf in
  Ok (if 8 <=? nibble then toupper addressCharacter else tolower addressCharacter).

Fixpoint eip55_loop (hash : bytes) (i : Z) (s : bytes) : res bytes :=
  match s with
  | [] => Ok []
  | c :: s' => c' ← eip55_char hash i c; rest ← eip55_loop hash (i + 1) s'; Ok (c' :: rest)
  end.

Definition getEIP55ChecksummedAddress (addr : bytes) : res bytes :=
  let s := if has_0x addr then zdrop 2 addr else addr in
  if negb (Z.of_nat (length s) =? 40) || negb (forallb is_hex_digit s) then Ok []
  else
    hash ← hash_of_memory 32 (platon_sha3 s) 32;
    rest ← eip55_loop hash 0 s;
    Ok ([48; 120] ++ rest).

Definition toEthAddress (a : bytes) : res bytes := getEIP55ChecksummedAddress (hash_toString a).
End EIP55.

(** *** Specification of address text *)

Definition is_lower (c : Z) : bool := (97 <=? c) && (c <=? 122).
Definition is_upper (c : Z) : bool := (65 <=? c) && (c <=? 90).
Definition printable (c : Z) : Prop := 33 <= c <= 126.

(** Not both lower and upper case letters. *)
Definition single_case (s : bytes) : Prop := existsb is_lower s && existsb is_upper s = false.

(** Text that denotes an address for a human-readable part: up to case, what [encode]
    prints for it. *)
Definition denotes (s hrp a : bytes) : Prop :=
  Forall printable s /\ single_case s /\ len s <= 90 /\ hrp <> [] /\
  length a = 20%nat /\ bytes_ok a /\ encode a hrp = Ok (tolower <$> s).

(** ** Properties of hashes *)

Lemma hash_ltb_value a b :
  bytes_ok a -> bytes_ok b -> length a = length b -> hash_ltb a b = (be_value a <? be_value b).
Proof.
  intros Ha. revert b. induction Ha as [|x a Hx Ha IH]; intros [|y b] Hb HL; try done.
  apply Forall_cons in Hb as [Hy Hb]. injection HL as HL. cbn [hash_ltb].
  rewrite !be_value_cons, HL, IH by done.
  pose proof (be_value_nonneg a Ha). pose proof (be_value_nonneg b Hb).
  pose proof (be_value_bound a Ha) as Ba. pose proof (be_value_bound b Hb). rewrite HL in Ba.
  destruct (Z.ltb_spec x y); [| destruct (Z.ltb_spec y x)]; cmp; try done; nia.
Qed.

Lemma be_value_inj a b : bytes_ok a -> bytes_ok b -> length a = length b -> be_value a = be_value b -> a = b.
Proof.
  intros Ha Hb HL E. rewrite <- (toBigEndian_be_value a Ha), <- (toBigEndian_be_value b Hb). by rewrite E, HL.
Qed.

(** The comparison operators of hashes of one size compare the numbers they are the
    big-endian bytes of; so they are a total order, the one [std::map] and [std::set]
    need. *)
Theorem hash_order_numeric (a b : bytes) :
  bytes_ok a -> bytes_ok b -> length a = length b ->
  hash_ltb a b = (be_value a <? be_value b) /\
  hash_leb a b = (be_value a <=? be_value b) /\
  hash_gtb a b = (be_value b <? be_value a) /\
  hash_geb a b = (be_value b <=? be_value a) /\
  hash_eqb a b = (be_value a =? be_value b).
Proof.
  intros Ha Hb HL. pose proof (hash_ltb_value a b Ha Hb HL) as HLt.
  assert (hash_eqb a b = (be_value a =? be_value b)) as HEq.
  { unfold hash_eqb. destruct (Z.eqb_spec (be_value a) (be_value b)) as [E | E].
    - by apply bool_decide_eq_true_2, be_value_inj.
    - apply bool_decide_eq_false_2. congruence. }
  unfold hash_gtb, hash_leb, hash_geb. rewrite HLt, HEq. split_and!; try done; cmp_lia.
Qed.

Lemma hash_order_numeric_witness :
  hash_ltb [1; 200] [2; 0] = true /\ hash_geb [1; 200] [2; 0] = false.
Proof.
  destruct (hash_order_numeric [1; 200] [2; 0]) as (H1 & _ & _ & H2 & _);
    [apply (bool_decide_unpack _); reflexivity.. | reflexivity |].
  rewrite H1, H2. split; reflexivity.
Defined.

Lemma hash_of_bytes_exact N b : len b = N -> hash_of_bytes N b = b.
Proof.
  intros H. unfold hash_of_bytes. rewrite ztake_all by lia.
  replace (Z.to_nat N - length b)%nat with 0%nat by lia. apply app_nil_r.
Qed.

Lemma length_hash_of_bytes N b : 0 <= N -> len (hash_of_bytes N b) = N.
Proof.
  intros HN. unfold hash_of_bytes, ztake. rewrite length_app, length_take, length_replicate. lia.
Qed.

(** ** Properties of Bech32 addresses *)

(** The character of a symbol, and the text of a word. *)
Definition symbol_char (v : Z) : Z := default 0 (zget charset v).
Definition word_text (vs : bytes) : bytes := symbol_char <$> vs.

Definition symbol_good (v : Z) : bool :=
  let c := symbol_char v in
  bool_decide (zget charset v = Some c) && bool_decide (zget charset_rev c = Some v)
  && negb (is_upper c) && negb (c =? 49) && (33 <=? c) && (c <=? 126).

Lemma symbol_good_all v : is_digit 5 v -> symbol_good v = true.
Proof. apply (all_below_true 32 symbol_good). by vm_compute. Qed.

Lemma symbol_facts v :
  is_digit 5 v -> zget charset v = Some (symbol_char v) /\ zget charset_rev (symbol_char v) = Some v /\
    tolower (symbol_char v) = symbol_char v /\ symbol_char v <> 49 /\ printable (symbol_char v).
Proof.
  intros Hv. pose proof (symbol_good_all v Hv) as H. unfold symbol_good in H.
  repeat (apply andb_true_iff in H as [H ?]). unfold printable, tolower, is_upper in *.
  apply bool_decide_eq_true_1 in H. apply bool_decide_eq_true_1 in H4.
  apply negb_true_iff in H3, H2. rewrite H3. split_and!; try done; lia.
Qed.

(** Looking a character up ignores its case; what is found prints as it. *)
Definition char_good (c : Z) : bool :=
  match zget charset_rev c with
  | Some r =>
      if r =? -1 then bool_decide (zget charset_rev (tolower c) = Some (-1))
      else bool_decide (is_digit 5 r) && (symbol_char r =? tolower c)
           && bool_decide (zget charset_rev (tolower c) = Some r)
  | None => false
  end.

Lemma char_good_all c : printable c -> char_good c = true.
Proof.
  intros Hc. assert (implb (33 <=? c) (char_good c) = true) as H.
  { apply (all_below_true 127 (fun c => implb (33 <=? c) (char_good c))); [by vm_compute |].
    unfold printable in Hc. lia. }
  unfold printable in Hc. destruct (Z.leb_spec 33 c); [done | lia].
Qed.

Lemma mapM_charset vs : digits_ok 5 vs -> mapM (M:=res) charset_at vs = Ok (word_text vs).
Proof.
  induction 1 as [|v vs Hv Hvs IH]; [done |].
  change (mapM (M:=res) charset_at (v :: vs))
    with (y ← charset_at v; k ← mapM (M:=res) charset_at vs; Ok (y :: k)).
  rewrite IH. unfold charset_at. by destruct (symbol_facts v Hv) as [-> _].
Qed.

Lemma decode_symbols_word s vs ok :
  Forall printable s -> digits_ok 5 vs -> tolower <$> s = word_text vs ->
  decode_symbols s ok = Ok (vs, ok).
Proof.
  intros Hs. revert vs ok. induction Hs as [|c s Hc Hs IH]; intros vs ok Hvs E.
  { by destruct vs. }
  destruct vs as [|v vs]; [done |]. apply Forall_cons in Hvs as [Hv Hvs].
  cbn [word_text fmap list_fmap] in E. injection E as Ec Es.
  destruct (symbol_facts v Hv) as (_ & HR & _). pose proof (char_good_all c Hc) as HG.
  unfold char_good in HG. cbn [decode_symbols]. unfold charset_rev_at.
  rewrite Ec in HG. unfold is_digit in Hv.
  destruct (zget charset_rev c) as [r |]; [| done]. rewrite HR in HG.
  assert (r = v) as ->.
  { destruct (Z.eqb_spec r (-1)) as [E | E].
    - apply bool_decide_eq_true_1 in HG. congruence.
    - apply andb_true_iff in HG as [_ HG]. apply bool_decide_eq_true_1 in HG. congruence. }
  cbn [mbind res_bind]. destruct (Z.eqb_spec v (-1)); [lia |].
  rewrite (IH vs ok Hvs Es). cbn [mbind res_bind]. by rewrite wrap_small by lia.
Qed.

Lemma decode_symbols_inv s ok :
  Forall printable s ->
  exists vs ok', decode_symbols s ok = Ok (vs, ok') /\
    (ok' = true -> ok = true /\ digits_ok 5 vs /\ tolower <$> s = word_text vs).
Proof.
  intros Hs. revert ok. induction Hs as [|c s Hc Hs IH]; intros ok.
  { exists [], ok. split; [done |]. intros ->. split_and!; by constructor. }
  pose proof (char_good_all c Hc) as HG. unfold char_good in HG. cbn [decode_symbols].
  unfold charset_rev_at. destruct (zget charset_rev c) as [r |]; [| done]. cbn [mbind res_bind].
  destruct (IH (if r =? -1 then false else ok)) as (vs & ok' & -> & H). cbn [mbind res_bind].
  exists (wrap 8 r :: vs), ok'. split; [done |]. intros Hok'. destruct (H Hok') as (H1 & H2 & H3).
  destruct (Z.eqb_spec r (-1)); [done |].
  apply andb_true_iff in HG as [HG _]. apply andb_true_iff in HG as [HD HG].
  apply bool_decide_eq_true_1 in HD. apply Z.eqb_eq in HG. rewrite wrap_small by (unfold is_digit in HD; lia).
  split_and!; [done | by constructor |]. cbn [word_text fmap list_fmap]. rewrite HG. f_equal. exact H3.
Qed.

Lemma rfind_spec s c :
  match rfind s c with
  | Some p => exists a b, s = a ++ c :: b /\ len a = p /\ c ∉ b
  | None => c ∉ s
  end.
Proof.
  induction s as [|x s IH]; [apply not_elem_of_nil |]. cbn [rfind].
  destruct (rfind s c) as [p |].
  - destruct IH as (a & b & -> & <- & Hb). exists (x :: a), b. split_and!; [done | | done].
    cbn [length]. lia.
  - destruct (Z.eqb_spec x c) as [-> |].
    + by exists [], s.
    + apply not_elem_of_cons. by split.
Qed.

Lemma rfind_last a b c : c ∉ b -> rfind (a ++ c :: b) c = Some (len a).
Proof.
  intros Hb. induction a as [|x a IH]; cbn [app rfind].
  - pose proof (rfind_spec b c) as H. destruct (rfind b c) as [p |].
    + destruct H as (a' & b' & -> & _). set_solver.
    + by rewrite Z.eqb_refl.
  - rewrite IH. cbn [length]. f_equal. lia.
Qed.

Lemma decode_scan_spec s lower upper :
  decode_scan s lower upper
  = (true, lower || existsb is_lower s, upper || existsb is_upper s) /\ Forall printable s \/
  (exists l u, decode_scan s lower upper = (false, l, u)) /\ ~ Forall printable s.
Proof.
  revert lower upper. induction s as [|c s IH]; intros lower upper.
  { left. cbn. by rewrite !orb_false_r. }
  cbn [decode_scan existsb]. change ((97 <=? c) && (c <=? 122)) with (is_lower c).
  change ((65 <=? c) && (c <=? 90)) with (is_upper c).
  destruct (Z.ltb_spec c 33), (Z.ltb_spec 126 c); cbn [orb negb].
  1-3: right; split; [eauto |]; intros HF; apply Forall_cons in HF as [HF _]; unfold printable in HF; lia.
  destruct (IH (if is_lower c then true else lower) (if is_upper c then true else upper))
    as [[-> HF] | [HX HF]].
  - left. split; [| constructor; [unfold printable; lia | done]].
    by destruct (is_lower c), (is_upper c), lower, upper.
  - right. split; [done |]. intros HF'. by apply Forall_cons in HF' as [_ HF'].
Qed.

Lemma tolower_printable c : printable c -> is_byte (tolower c).
Proof. unfold printable, is_byte, tolower. intros Hc. case_match; lia. Qed.

Lemma tolower_49 c : tolower c = 49 -> c = 49.
Proof. unfold tolower. cmp_lia. Qed.

Lemma lower_bytes s : Forall printable s -> bytes_ok (tolower <$> s).
Proof. intros Hs. apply Forall_fmap. eapply Forall_impl; [done |]. apply tolower_printable. Qed.

(** What [encode] prints for an address: the symbols of its bytes, then the checksum. *)
Lemma encode_spec a h values :
  bytes_ok h -> convertbits 8 5 true [] a = Ok (values, true) -> digits_ok 5 values ->
  encode a h = Ok (h ++ [49] ++ word_text (values ++ create_checksum h values)).
Proof.
  intros Hh E Hv. unfold encode. rewrite E. cbn [mbind res_bind]. unfold cat.
  rewrite mapM_charset; [done |]. apply Forall_app. split; [done |]. by apply create_checksum_ok.
Qed.

(** [decode] is defined on every text; what it accepts denotes the address. *)
Lemma decode_sound s h :
  exists a ok, decode s h = Ok (a, ok) /\ (ok = false -> a = hash_zero 20) /\ (ok = true -> denotes s h a).
Proof.
  assert (exists a ok, Ok no_address = Ok (a, ok) /\ (ok = false -> a = hash_zero 20) /\
                       (ok = true -> denotes s h a)) as HNo by (by exists (hash_zero 20), false).
  unfold decode. destruct (decode_scan_spec s false false) as [[-> HP] | [(l & u & ->) HP]]; cycle 1.
  { assert ((if l && u then false else false) = false) as -> by by destruct (l && u).
    by destruct (rfind s 49). }
  cbn [orb]. pose proof (rfind_spec s 49) as HR. destruct (rfind s 49) as [pos |]; [| exact HNo].
  destruct HR as (p & b & Es & <- & Hb).
  destruct (existsb is_lower s && existsb is_upper s) eqn:Ecase; [exact HNo |].
  destruct (true && _ && _ && _) eqn:Eok; [| exact HNo]. bool_hyps.
  assert (Forall printable p /\ Forall printable b) as [HPp HPb].
  { rewrite Es in HP. apply Forall_app in HP as [? HP]. by apply Forall_cons in HP as [_ ?]. }
  assert (len s = len p + 1 + len b) as HLs by (rewrite Es, length_app; cbn [length]; lia).
  assert (zdrop (len p + 1) s = b) as ->.
  { rewrite Es, (app_assoc p [49] b : p ++ 49 :: b = _). apply zdrop_app_exact. rewrite length_app. cbn. lia. }
  assert (ztake (len p) s = p) as -> by (rewrite Es; by apply ztake_app_exact).
  destruct (decode_symbols_inv b true HPb) as (vs & ok' & E & HV). rewrite E. cbn [mbind res_bind].
  destruct ok'; [| exact HNo]. destruct HV as (_ & HVs & Htext); [done |].
  destruct (bool_decide_reflect (tolower <$> p = h)) as [<- |]; cbn [negb]; [| exact HNo].
  destruct (verify_checksum (tolower <$> p) vs) eqn:Ever; [| exact HNo].
  assert (len vs = len b) as HLvs.
  { apply (f_equal length) in Htext. unfold word_text in Htext. rewrite !length_fmap in Htext. lia. }
  set (data := ztake (len vs - 6) vs) in *. set (check := zdrop (len vs - 6) vs).
  assert (vs = data ++ check) as Evs by by rewrite <- (ztake_zdrop (len vs - 6) vs) at 1.
  assert (length check = 6%nat) as HLc.
  { pose proof (len_zdrop (len vs - 6) vs) as HX. subst check. lia. }
  rewrite Evs in HVs, Ever, Htext. apply Forall_app in HVs as [Hdata Hcheck].
  apply checksum_unique in Ever; [| by apply lower_bytes | done | done | done].
  destruct (convertbits_nopad 5 8) with data as (conv & q & r & ok & E5 & _); [lia | lia | done |].
  rewrite E5. cbn [mbind res_bind]. destruct ok; [| exact HNo].
  destruct (convertbits_forth 5 8 data conv) as [Hconv E8]; [lia | lia | done | done |].
  destruct (Z.eqb_spec (len conv) 20) as [HL20 |]; [| exact HNo]. cbn [andb].
  exists conv, true. split; [by rewrite hash_of_bytes_exact |]. split; [done |]. intros _.
  split_and!; [done | done | lia | | lia | done |].
  - intros Hn. apply (f_equal length) in Hn. rewrite length_fmap in Hn. simpl in Hn. lia.
  - rewrite (encode_spec conv (tolower <$> p) data) by (done || by apply lower_bytes).
    rewrite <- Ever, <- Htext, Es. by rewrite fmap_app.
Qed.

(** The text is, up to case, the human-readable part, a 1 and the symbols. *)
Lemma denotes_split s h a values :
  Forall printable s -> encode a h = Ok (tolower <$> s) ->
  convertbits 8 5 true [] a = Ok (values, true) -> digits_ok 5 values ->
  bytes_ok h /\ exists p b, s = p ++ 49 :: b /\ tolower <$> p = h /\
    tolower <$> b = word_text (values ++ create_checksum h values).
Proof.
  intros HP E E8 HV.
  assert (bytes_ok h) as Hh.
  { unfold encode in E. rewrite E8 in E. cbn [mbind res_bind] in E.
    destruct (mapM (M:=res) charset_at _) as [text | | | |]; try done. injection E as E.
    pose proof (lower_bytes s HP) as HB. rewrite <- E in HB. by apply bytes_ok_app in HB as [HB _]. }
  split; [done |]. rewrite (encode_spec a h values) in E by done. injection E as E.
  symmetry in E. apply fmap_app_inv in E as (p & q & Eh & Eq & ->).
  symmetry in Eq. apply fmap_cons_inv in Eq as (c & b & Ec & Eb & ->).
  exists p, b. split_and!; [| done | done]. f_equal. f_equal. by apply tolower_49.
Qed.

Lemma word_text_no_49 vs : digits_ok 5 vs -> 49 ∉ word_text vs.
Proof.
  intros Hvs. unfold word_text. rewrite list_elem_of_fmap. intros (v & Ev & Hv).
  pose proof (proj1 (Forall_forall _ _) Hvs v Hv) as Hd. destruct (symbol_facts v Hd) as (_ & _ & _ & H & _). by symmetry in Ev.
Qed.

Lemma decode_complete s h a : denotes s h a -> decode s h = Ok (a, true).
Proof.
  intros (HP & HC & HL & Hh & Ha & Hok & E).
  destruct (convertbits_back 8 5 a) as (values & E8 & HV & HL1 & HL2 & E5); [lia | lia | done |].
  destruct (denotes_split s h a values HP E E8 HV) as (HBh & p & b & Es & Ep & Eb).
  destruct (create_checksum_ok h values HBh HV) as [HCk HCl].
  set (word := values ++ create_checksum h values) in *.
  assert (digits_ok 5 word) as HW by by apply Forall_app.
  assert (49 ∉ b) as Hb.
  { intros Hin. apply (word_text_no_49 word HW). rewrite <- Eb. by apply (list_elem_of_fmap_2 tolower b 49). }
  assert (len word = len values + 6) as HLw by (unfold word; rewrite length_app, HCl; lia).
  assert (len b = len word) as HLb.
  { apply (f_equal length) in Eb. unfold word_text in Eb. rewrite !length_fmap in Eb. lia. }
  assert (1 <= len p) as HLp.
  { destruct p; [| cbn [length]; lia]. by rewrite <- Ep in Hh. }
  assert (len s = len p + 1 + len b) as HLs by (rewrite Es, length_app; cbn [length]; lia).
  assert (Forall printable b) as HPb.
  { rewrite Es in HP. apply Forall_app in HP as [_ HP]. by apply Forall_cons in HP as [_ ?]. }
  unfold decode. destruct (decode_scan_spec s false false) as [[-> _] | [_ HX]]; [| done].
  cbn [orb]. unfold single_case in HC. rewrite HC. rewrite Es at 1. rewrite rfind_last by done.
  destruct (Z.leb_spec (len s) 90); [| lia]. destruct (Z.leb_spec 1 (len p)); [| lia].
  destruct (Z.leb_spec (len p + 7) (len s)); [| lia]. cbn [andb].
  assert (zdrop (len p + 1) s = b) as ->.
  { rewrite Es, (app_assoc p [49] b : p ++ 49 :: b = _). apply zdrop_app_exact. rewrite length_app. cbn. lia. }
  assert (ztake (len p) s = p) as -> by (rewrite Es; by apply ztake_app_exact).
  rewrite (decode_symbols_word b word true HPb HW Eb). cbn [mbind res_bind].
  rewrite Ep, bool_decide_eq_true_2 by done. cbn [negb].
  assert (verify_checksum h word = true) as -> by by apply checksum_unique.
  unfold word at 2. rewrite ztake_app_exact by lia. rewrite E5. cbn [mbind res_bind].
  rewrite Ha. cbn [Z.of_nat Z.eqb andb]. by rewrite hash_of_bytes_exact by lia.
Qed.

(** C26. [decode] accepts exactly the texts that denote an address: it is defined on
    every text, and answers [true] with address [a] when and only when the text is
    printable, in one case, at most 90 characters long and, lowered, what [encode] prints
    for [a]; otherwise it answers the zero address and [false]. *)
Theorem decode_accepts_exactly (s h : bytes) :
  exists a ok, decode s h = Ok (a, ok) /\ (ok = false -> a = hash_zero 20) /\
    forall a', (a, ok) = (a', true) <-> denotes s h a'.
Proof.
  destruct (decode_sound s h) as (a & ok & E & Hf & Ht). exists a, ok. split_and!; [done | done |].
  intros a'. split.
  - intros [= -> ->]. by apply Ht.
  - intros HD. apply decode_complete in HD. rewrite E in HD. by injection HD as -> ->.
Qed.

Lemma fromHexChar_nibble c : fromHexChar c = -1 \/ 0 <= fromHexChar c < 16.
Proof. unfold fromHexChar. cmp_lia. Qed.

Lemma fromHex_pairs_ok s : forall ret, bytes_ok ret -> bytes_ok (fromHex_pairs ret s).
Proof.
  induction s as [s IH] using (well_founded_induction (well_founded_ltof _ length)). unfold ltof in IH.
  intros ret Hr. destruct s as [|c [|d s]]; [done | by constructor |]. cbn [fromHex_pairs].
  case_match; [| by constructor]. apply IH; [simpl; lia |]. apply bytes_ok_app. split; [done |].
  apply Forall_singleton. apply (wrap_range 8). lia.
Qed.

Lemma fromHex_ok s : bytes_ok (fromHex s).
Proof.
  unfold fromHex. set (rest := if has_0x s then drop 2 s else s).
  destruct (Z.odd (len s)); [| by apply fromHex_pairs_ok].
  destruct rest as [|c rest]; [by constructor |].
  destruct (Z.eqb_spec (fromHexChar c) (-1)); cbn [negb]; [by constructor |].
  apply fromHex_pairs_ok, Forall_singleton. unfold is_byte. destruct (fromHexChar_nibble c); lia.
Qed.

Definition address_valid (a : bytes) : Prop := bytes_ok a /\ length a = 20%nat.

Lemma address_zero_valid : address_valid (hash_zero 20).
Proof. split; [apply (bool_decide_unpack _); reflexivity | done]. Qed.

(** [make_address] is defined on every text and always gives 20 bytes. *)
Lemma make_address_total testnet s :
  exists a ok, make_address testnet s = Ok (a, ok) /\ address_valid a.
Proof.
  unfold make_address. destruct (has_0x s).
  - destruct (Z.eqb_spec (len (fromHex s)) 20) as [E |].
    + eexists _, _. split; [done |]. rewrite hash_of_bytes_exact by done. split; [apply fromHex_ok | lia].
    + eexists _, _. split; [done | apply address_zero_valid].
  - destruct (decode_sound s (hrp testnet)) as (a & ok & E & Hf & Ht). exists a, ok. split; [done |].
    destruct ok; [destruct (Ht eq_refl) as (_ & _ & _ & _ & HL & HO & _); by split |].
    rewrite Hf by done. apply address_zero_valid.
Qed.

(** Human-readable parts that [encode] can be used with. *)
Definition hrp_valid (h : bytes) : Prop :=
  Forall printable h /\ existsb is_upper h = false /\ 1 <= len h <= 51.

Lemma tolower_fix s : existsb is_upper s = false -> tolower <$> s = s.
Proof.
  induction s as [|c s IH]; [done |]. cbn [existsb fmap list_fmap]. rewrite orb_false_iff.
  intros [Hc Hs]. rewrite IH by done. f_equal. unfold is_upper in Hc. unfold tolower. by rewrite Hc.
Qed.

Lemma word_text_facts vs :
  digits_ok 5 vs -> Forall printable (word_text vs) /\ existsb is_upper (word_text vs) = false.
Proof.
  induction 1 as [|v vs Hv _ [IH1 IH2]]; [done |]. cbn [word_text fmap list_fmap existsb].
  destruct (symbol_facts v Hv) as (_ & _ & H1 & _ & H2). split; [by constructor |].
  rewrite orb_false_iff. split; [| done]. unfold tolower in H1. unfold is_upper. case_match; [lia | done].
Qed.

(** C27. Addresses survive printing and parsing: for every 20-byte address and every
    human-readable part of printable characters without upper case, short enough for the
    90 characters [decode] allows. *)
Theorem decode_encode (a h : bytes) :
  bytes_ok a -> length a = 20%nat -> hrp_valid h ->
  exists s, encode a h = Ok s /\ len s = len h + 39 /\ decode s h = Ok (a, true).
Proof.
  intros Hok Ha (HP & HU & HL).
  destruct (convertbits_back 8 5 a) as (values & E8 & HV & HL1 & HL2 & E5); [lia | lia | done |].
  assert (bytes_ok h) as HBh by (rewrite <- (tolower_fix h HU); by apply lower_bytes).
  destruct (create_checksum_ok h values HBh HV) as [HCk HCl].
  set (word := values ++ create_checksum h values).
  assert (digits_ok 5 word) as HW by by apply Forall_app.
  destruct (word_text_facts word HW) as [HWp HWu].
  pose proof (encode_spec a h values HBh E8 HV) as E. fold word in E.
  set (s := h ++ [49] ++ word_text word) in *. exists s.
  assert (existsb is_upper s = false) as Hs.
  { unfold s. rewrite !existsb_app, HU, HWu. done. }
  assert (len s = len h + 39) as HLs.
  { unfold s, word_text, word. rewrite !length_app, length_fmap, length_app, HCl. cbn [length]. lia. }
  split_and!; [done | done |]. apply decode_complete. split_and!; try done.
  - apply Forall_app. split; [done |]. apply Forall_app. split; [| done].
    apply Forall_singleton. unfold printable. lia.
  - unfold single_case. rewrite Hs. apply andb_false_r.
  - lia.
  - intros ->. simpl in HL. lia.
  - by rewrite (tolower_fix s).
Qed.

#[local] Definition sample_address : bytes := Z.of_nat <$> seq 1 20.

Lemma decode_encode_witness :
  (bytes_ok sample_address /\ length sample_address = 20%nat /\ hrp_valid [108; 97; 116]) /\
  exists s, encode sample_address [108; 97; 116] = Ok s /\ len s = len [108; 97; 116] + 39 /\
            decode s [108; 97; 116] = Ok (sample_address, true).
Proof.
  assert (bytes_ok sample_address) as H1 by (apply (bool_decide_unpack _); reflexivity).
  assert (hrp_valid [108; 97; 116]) as H2.
  { split; [| split; [reflexivity | simpl; lia]]. unfold printable. repeat constructor; lia. }
  split; [split; [exact H1 | split; [reflexivity | exact H2]] |].
  apply decode_encode; [exact H1 | reflexivity | exact H2].
Defined.

(** ** Properties of EIP-55 text *)

Lemma fromHex_pairs_same s t ret :
  fromHexChar <$> s = fromHexChar <$> t -> fromHex_pairs ret s = fromHex_pairs ret t.
Proof.
  revert t ret. induction s as [s IH] using (well_founded_induction (well_founded_ltof _ length)).
  unfold ltof in IH. intros t ret E.
  destruct s as [|c [|d s]], t as [|c' [|d' t]]; try done. cbn [fmap list_fmap] in E.
  injection E as E1 E2 E3. cbn [fromHex_pairs]. rewrite E1, E2. case_match; [| done].
  apply IH; [simpl; lia | done].
Qed.

Lemma fromHex_same s t :
  has_0x s = has_0x t -> fromHexChar <$> s = fromHexChar <$> t -> fromHex s = fromHex t.
Proof.
  intros H0 E. assert (length s = length t) as HL.
  { apply (f_equal length) in E. by rewrite !length_fmap in E. }
  unfold fromHex. rewrite H0, HL.
  set (s' := if has_0x t then drop 2 s else s). set (t' := if has_0x t then drop 2 t else t).
  assert (fromHexChar <$> s' = fromHexChar <$> t') as E'.
  { subst s' t'. destruct (has_0x t); [| done]. by rewrite !fmap_drop, E. }
  destruct (Z.odd (len t)); [| by apply fromHex_pairs_same].
  destruct s' as [|c s'], t' as [|c' t']; try done. cbn [fmap list_fmap] in E'.
  injection E' as Ec E'. rewrite Ec. case_match; [| done]. by apply fromHex_pairs_same.
Qed.

Lemma change_case c b :
  is_hex_digit c = true ->
  let c' := if b : bool then toupper c else tolower c in
  tolower c' = tolower c /\ fromHexChar c' = fromHexChar c.
Proof.
  intros Hc. set (c' := if b then toupper c else tolower c).
  assert (0 <= c < 128) as Hr by (unfold is_hex_digit in Hc; bool_hyps; revert Hc; cmp_lia).
  apply (all_below_true 128 (fun c => implb (is_hex_digit c)
    ((tolower (toupper c) =? tolower c) && (tolower (tolower c) =? tolower c) &&
     (fromHexChar (toupper c) =? fromHexChar c) && (fromHexChar (tolower c) =? fromHexChar c)))) in Hr;
    [| by vm_compute].
  rewrite Hc in Hr. cbn [implb] in Hr. bool_hyps. subst c'. destruct b; split; lia.
Qed.

Lemma eip55_loop_spec hash i s :
  forallb is_hex_digit s = true -> 0 <= i -> i + len s <= 2 * len hash ->
  exists s', eip55_loop hash i s = Ok s' /\ tolower <$> s' = tolower <$> s /\
             fromHexChar <$> s' = fromHexChar <$> s.
Proof.
  revert i. induction s as [|c s IH]; intros i Hs Hi HL; [by exists [] |].
  cbn [forallb] in Hs. apply andb_true_iff in Hs as [Hc Hs]. cbn [length] in HL.
  destruct (IH (i + 1)) as (s' & E & H1 & H2); [done | lia | lia |].
  cbn [eip55_loop]. unfold eip55_char, hash_at.
  destruct (zget_in hash (i / 2)) as [b ->].
  { split; [apply Z.div_pos; lia | apply Z.div_lt_upper_bound; lia]. }
  cbn [mbind res_bind]. rewrite E. cbn [mbind res_bind]. eexists. split; [done |].
  rewrite !fmap_cons, H1, H2.
  by destruct (change_case c (8 <=? Z.land (Z.shiftr b (4 * (1 - i mod 2))) 15) Hc) as [-> ->].
Qed.

Lemma hexdigit_facts n :
  0 <= n < 16 -> is_hex_digit (hexdigit n) = true /\ tolower (hexdigit n) = hexdigit n.
Proof.
  intros Hn. apply (all_below_true 16 (fun n => is_hex_digit (hexdigit n) && (tolower (hexdigit n) =? hexdigit n)))
    in Hn; [| by vm_compute]. by bool_hyps.
Qed.

Lemma toHex_digits b : forallb is_hex_digit (toHex b) = true.
Proof.
  induction b as [|x b IH]; [done |]. rewrite toHex_cons. cbn [forallb]. rewrite IH, andb_true_r.
  destruct (hexdigit_facts _ (land_15_range (Z.shiftr x 4))) as [-> _].
  by destruct (hexdigit_facts _ (land_15_range x)) as [-> _].
Qed.

Lemma toHex_lower b : tolower <$> toHex b = toHex b.
Proof.
  induction b as [|x b IH]; [done |]. rewrite toHex_cons, !fmap_cons, IH.
  destruct (hexdigit_facts _ (land_15_range (Z.shiftr x 4))) as [_ ->].
  by destruct (hexdigit_facts _ (land_15_range x)) as [_ ->].
Qed.

(** Whatever the hash function answers, the Ethereum form of an address is its
    hexadecimal text with some letters in upper case, and [make_address] reads it back. *)
Theorem eth_address_roundtrip (platon_sha3 : bytes -> bytes) (testnet : bool) (a : bytes) :
  (forall m, length (platon_sha3 m) = 32%nat) -> bytes_ok a -> length a = 20%nat ->
  exists s, toEthAddress platon_sha3 a = Ok s /\ tolower <$> s = hash_toString a /\
            make_address testnet s = Ok (a, true).
Proof.
  intros HS Ha HL. unfold toEthAddress, getEIP55ChecksummedAddress, hash_toString.
  cbn [app has_0x Z.eqb andb Pos.eqb]. change (zdrop 2 (48 :: 120 :: toHex a)) with (toHex a).
  rewrite length_toHex, HL, toHex_digits. cbn [Nat.mul Nat.add Z.of_nat Z.eqb negb orb Pos.of_succ_nat Pos.succ Pos.eqb].
  unfold hash_of_memory. cbn [Z.ltb Z.compare Pos.compare Pos.compare_cont]. rewrite HS.
  destruct (Z.leb_spec 32 (Z.of_nat 32)) as [_ |]; [| lia]. cbn [mbind res_bind].
  set (hash := ztake 32 _ ++ _).
  destruct (eip55_loop_spec hash 0 (toHex a)) as (s' & -> & H1 & H2); [apply toHex_digits | lia | |].
  { rewrite length_toHex, HL. unfold hash, ztake. rewrite length_app, length_take, HS. lia. }
  cbn [mbind res_bind]. exists (48 :: 120 :: s'). split; [done |].
  split; [change (48 :: 120 :: (tolower <$> s') = 48 :: 120 :: toHex a); by rewrite H1, toHex_lower |].
  unfold make_address.
  assert (fromHex (48 :: 120 :: s') = a) as ->.
  { rewrite (fromHex_same _ (48 :: 120 :: toHex a)); [by apply (fromHex_toHex a true) | done |].
    by rewrite !fmap_cons, H2. }
  cbn [has_0x Z.eqb andb Pos.eqb]. rewrite HL. cbn [Z.of_nat Z.eqb Pos.of_succ_nat Pos.succ Pos.eqb].
  by rewrite hash_of_bytes_exact by lia.
Qed.

Lemma eth_address_roundtrip_witness :
  exists s, toEthAddress (fun m => replicate 32 (len m + 129)) sample_address = Ok s /\
            tolower <$> s = hash_toString sample_address /\
            make_address false s = Ok (sample_address, true).
Proof.
  apply (eth_address_roundtrip (fun m => replicate 32 (len m + 129)) false sample_address).
  - intros m. reflexivity.
  - apply (bool_decide_unpack _). reflexivity.
  - reflexivity.
Defined.
