(* ===== verification/Name.v ===== *)
(** * name.hpp: names as 64-bit hashes

    A [Name] is an unsigned 64-bit integer; made from text it is the text's FNV hash.
    Text is a list of character codes; [char] is signed. *)

From S2P Require Import Prelude Common HostRlp RlpStream RlpSize Serialize.

(** ** Definitions *)

Definition kOffset64 : Z := 14695981039346656037.
Definition kPrime64 : Z := 1099511628211.

(** [(uint64_t)str[i]]: a [char] from 128 on is negative. *)
Definition char_to_u64 (c : Z) : Z := u64 (swrap 8 c).

(** One round of both hash functions. *)
Definition hash_step (hash c : Z) : Z := Z.lxor (u64 (hash * kPrime64)) (char_to_u64 c).

(** [Name(std::string_view)] and the literal operator [_n]. *)
Definition Name_hash (str : bytes) : Z := foldl hash_step kOffset64 str.

(** [name_value] of a C string: it ends at the first zero. *)
Fixpoint name_value (str : bytes) (last_value : Z) : Z :=
  match str with
  | [] => last_value
  | c :: str' =>
      if c =? 0 then last_value
      else name_value str' (Z.lxor (u64 (kPrime64 * last_value)) (char_to_u64 c))
  end.

Definition name_bool (n : Z) : bool := negb (n =? 0).
Definition name_eqb (a b : Z) : bool := a =? b.
Definition name_neb (a b : Z) : bool := negb (a =? b).
Definition name_ltb (a b : Z) : bool := a <? b.

(** [PLATON_SERIALIZE(Name, (value))]. *)
Definition c_name `{HostRLP} : codec Z :=
  c_view (fun n => (n, tt)) fst (c_struct (fields_cons (c_uint 64) fields_nil)).

(** *** Specification *)

(** FNV-1 as it is usually written: multiply modulo [2 ^ 64], then exclusive or. *)
Definition fnv1 (octets : list Z) : Z :=
  foldl (fun h o => Z.lxor ((h * kPrime64) mod 2 ^ 64) o) kOffset64 octets.

(** Characters of plain text: no zero, nothing from 128 on. *)
Definition plain_text (s : bytes) : Prop := Forall (fun c => 0 < c < 128) s.

(** ** Properties *)

Lemma char_to_u64_range c : 0 <= char_to_u64 c < 2 ^ 64.
Proof. apply wrap_range. lia. Qed.

Lemma hash_step_range h c : 0 <= hash_step h c < 2 ^ 64.
Proof. apply lxor_range; [lia | apply wrap_range; lia | apply char_to_u64_range]. Qed.

Lemma Name_hash_range s : 0 <= Name_hash s < 2 ^ 64.
Proof.
  destruct s as [|c s _] using rev_ind; [unfold Name_hash, kOffset64; simpl; lia |].
  unfold Name_hash. rewrite foldl_app. apply hash_step_range.
Qed.

(** The two functions agree on text without a zero, whatever its other characters. *)
Lemma name_value_hash s :
  Forall (fun c => c <> 0) s -> name_value s kOffset64 = Name_hash s.
Proof.
  unfold Name_hash. intros Hs. generalize kOffset64 as h.
  induction Hs as [|c s Hc _ IH]; intros h; [done |]. cbn [name_value foldl].
  destruct (Z.eqb_spec c 0); [done |]. rewrite IH. unfold hash_step. by rewrite Z.mul_comm.
Qed.

Lemma char_to_u64_plain c : 0 < c < 128 -> char_to_u64 c = c.
Proof. intros Hc. unfold char_to_u64. rewrite swrap_small, wrap_small by lia. done. Qed.

(** A method name hashes the same on both sides of a call: the dispatcher's compile
    time [name_value] and the caller's [Name] are both the FNV-1 hash of the text, for
    every text of ASCII characters. *)
Theorem method_names_agree (s : bytes) :
  plain_text s -> name_value s kOffset64 = fnv1 s /\ Name_hash s = fnv1 s /\ 0 <= fnv1 s < 2 ^ 64.
Proof.
  intros Hs. assert (Name_hash s = fnv1 s) as E.
  { unfold Name_hash, fnv1. generalize kOffset64 as h.
    induction Hs as [|c s Hc _ IH]; intros h; [done |]. cbn [foldl]. rewrite IH. f_equal.
    unfold hash_step. by rewrite char_to_u64_plain. }
  rewrite <- E. split; [| split; [done | apply Name_hash_range]]. apply name_value_hash.
  eapply Forall_impl; [exact Hs |]. intros c Hc. cbn in Hc. lia.
Qed.

Lemma method_names_agree_witness :
  name_value [105; 110; 105; 116] kOffset64 = 16840622013048855939 /\
  name_value [105; 110; 105; 116] kOffset64 = Name_hash [105; 110; 105; 116].
Proof.
  destruct (method_names_agree [105; 110; 105; 116]) as (E1 & E2 & _);
    [repeat constructor; lia |].
  split; [vm_compute; reflexivity | rewrite E1, E2; reflexivity].
Defined.
