(* ===== verification/CrossCall.v ===== *)
(** * cross_call.hpp, create.hpp, destory.hpp: calls between contracts

    Calls, delegate calls, deployment and migration. The chain's side of each is a
    parameter. *)

From S2P Require Import Prelude Common RlpSpec RlpReader HostRlp RlpStream RlpSize.
From S2P Require Import Serialize SerializeFacts Name FixedHash.

(** ** Definitions *)

(** *** The chain's functions, declared in chain.hpp *)

(** [W] is the state of the chain; a status of 0 is success. *)
Class HostCalls (W : Type) := {
  host_call (w : W) (to args value gas : bytes) : Z * W;
  host_delegate_call (w : W) (to args gas : bytes) : Z * W;
  (** What [platon_get_call_output] copies. *)
  host_call_output (w : W) : bytes;
  (** Deployment and migration also give the new address. *)
  host_deploy (w : W) (args value gas : bytes) : bytes * Z * W;
  host_clone (w : W) (old_addr args value gas : bytes) : bytes * Z * W;
  host_migrate (w : W) (args value gas : bytes) : bytes * Z * W;
  host_clone_migrate (w : W) (old_addr args value gas : bytes) : bytes * Z * W;
  host_contract_code (w : W) (addr : bytes) : bytes
}.

(** *** Arguments *)

(** [for (; value; value >>= 8) *(b--) = (byte)value;] from the back of the array:
    [room] cells are left before the [written] ones. *)
Fixpoint value_bytes_loop (fuel : nat) (room : Z) (value : Z) (written : bytes) : res (Z * bytes) :=
  if value =? 0 then Ok (room, written)
  else match fuel with
       | O => Fuel
       | S fuel' =>
           if room <=? 0 then Undef "write before the array"
           else value_bytes_loop fuel' (room - 1) (Z.shiftr value 8) (wrap 8 value :: written)
       end.

(** For an unsigned [value]. The cells not written keep the 0 of [resize]. *)
Definition value_to_bytes (value : Z) : res bytes :=
  let byte_count := bytesRequired value in
  '(room, written) ← value_bytes_loop (Z.to_nat byte_count) byte_count value [];
  Ok (replicate (Z.to_nat room) 0 ++ written).

Section Calls.
Context `{HostRLP}.

(** [cross_call_args(method, args...)]; the types of the arguments are [f]. *)
Definition cross_call_args {A} (f : fields A) (method : bytes) (args : A) : res bytes :=
  let t_method := Name_hash method in
  let num := f_count f in
  stream ← appendList stream_new (u32 (num + 1));
  rlps ← measure (c_uint 64) size_new t_method;
  rlps' ← f_measure f rlps args;
  let stream1 := stream_reserve stream (rs_size_ rlps') in
  stream2 ← put (c_uint 64) stream1 t_method;
  stream3 ← f_put f stream2 args;
  stream_out stream3.

(** What is deployed: the code and the call of its constructor behind a magic number. *)
Definition magic_number : bytes := [0x00; 0x61; 0x73; 0x6d].

Definition deploy_args (code init_rlp : bytes) : res bytes :=
  rlps ← measure c_bytes size_new code;
  rlps' ← measure c_bytes rlps init_rlp;
  stream ← appendPrefix stream_new magic_number;
  let stream1 := stream_reserve stream (u32 (rs_size_ rlps' + 4)) in
  stream2 ← appendList stream1 2;
  stream3 ← put c_bytes stream2 code;
  stream4 ← put c_bytes stream3 init_rlp;
  stream_out stream4.

Definition init_method : bytes := [105; 110; 105; 116].

Context {W : Type} `{HostCalls W}.

(** [platon_call(addr, paras, value, gas)] and the form that builds the arguments. *)
Definition platon_call_paras (w : W) (addr paras : bytes) (value gas : Z) : res (bool * W) :=
  value_bytes ← value_to_bytes value;
  gas_bytes ← value_to_bytes gas;
  let '(status, w') := host_call w addr paras value_bytes gas_bytes in
  Ok (status =? 0, w').

Definition platon_call {A} (f : fields A) (w : W) (addr : bytes) (value gas : Z) (method : bytes)
    (args : A) : res (bool * W) :=
  paras ← cross_call_args f method args;
  value_bytes ← value_to_bytes value;
  gas_bytes ← value_to_bytes gas;
  let '(result, w') := host_call w addr paras value_bytes gas_bytes in
  Ok (result =? 0, w').

Definition platon_delegate_call_paras (w : W) (addr paras : bytes) (gas : Z) : res (bool * W) :=
  gas_bytes ← value_to_bytes gas;
  let '(status, w') := host_delegate_call w addr paras gas_bytes in
  Ok (status =? 0, w').

Definition platon_delegate_call {A} (f : fields A) (w : W) (addr : bytes) (gas : Z) (method : bytes)
    (args : A) : res (bool * W) :=
  paras ← cross_call_args f method args;
  gas_bytes ← value_to_bytes gas;
  let '(result, w') := host_delegate_call w addr paras gas_bytes in
  Ok (result =? 0, w').

Definition get_call_output {T} (c : codec T) (w : W) : res T := unpack c (host_call_output w).

(** [dflt] is [return_type()]. *)
Definition platon_call_with_return_value {A T} (f : fields A) (c : codec T) (dflt : T) (w : W)
    (addr : bytes) (value gas : Z) (method : bytes) (args : A) : res (T * bool * W) :=
  '(result, w') ← platon_call f w addr value gas method args;
  if negb result then Ok (dflt, false, w')
  else v ← get_call_output c w'; Ok (v, true, w').

Definition platon_delegate_call_with_return_value {A T} (f : fields A) (c : codec T) (dflt : T)
    (w : W) (addr : bytes) (gas : Z) (method : bytes) (args : A) : res (T * bool * W) :=
  '(result, w') ← platon_delegate_call f w addr gas method args;
  if negb result then Ok (dflt, false, w')
  else v ← get_call_output c w'; Ok (v, true, w').

Definition platon_contract_code (w : W) (addr : bytes) : bytes := host_contract_code w addr.

(** [platon_create_contract(code, value, gas, args...)] and the form that clones. *)
Definition platon_create_contract {A} (f : fields A) (w : W) (code : bytes) (value gas : Z)
    (init_args : A) : res (bytes * bool * W) :=
  value_bytes ← value_to_bytes value;
  gas_bytes ← value_to_bytes gas;
  init_rlp ← cross_call_args f init_method init_args;
  result ← deploy_args code init_rlp;
  let '(return_address, status, w') := host_deploy w result value_bytes gas_bytes in
  Ok (return_address, status =? 0, w').

Definition platon_clone_contract {A} (f : fields A) (w : W) (address : bytes) (value gas : Z)
    (init_args : A) : res (bytes * bool * W) :=
  value_bytes ← value_to_bytes value;
  gas_bytes ← value_to_bytes gas;
  init_rlp ← cross_call_args f init_method init_args;
  let '(return_address, status, w') := host_clone w address init_rlp value_bytes gas_bytes in
  Ok (return_address, status =? 0, w').

Definition platon_migrate_contract (w : W) (init_args : bytes) (value gas : Z)
    : res (bytes * bool * W) :=
  value_bytes ← value_to_bytes value;
  gas_bytes ← value_to_bytes gas;
  let '(addr, status, w') := host_migrate w init_args value_bytes gas_bytes in
  Ok (addr, status =? 0, w').

Definition platon_clone_migrate_contract (w : W) (new_addr init_args : bytes) (value gas : Z)
    : res (bytes * bool * W) :=
  value_bytes ← value_to_bytes value;
  gas_bytes ← value_to_bytes gas;
  let '(addr, status, w') := host_clone_migrate w new_addr init_args value_bytes gas_bytes in
  Ok (addr, status =? 0, w').
End Calls.

(** ** Properties *)

Lemma value_bytes_loop_spec n v written :
  0 <= v < 256 ^ Z.of_nat n -> (v <> 0 -> 256 ^ (Z.of_nat n - 1) <= v) ->
  value_bytes_loop n (Z.of_nat n) v written = Ok (if v =? 0 then Z.of_nat n else 0,
    if v =? 0 then written else toBigEndian n v ++ written).
Proof.
  revert v written. induction n as [|n IH]; intros v written Hv Hlow.
  { assert (v = 0) as -> by (change (256 ^ Z.of_nat 0) with 1 in Hv; lia). done. }
  cbn [value_bytes_loop]. destruct (Z.eqb_spec v 0) as [-> | Hne]; [done |].
  destruct (Z.leb_spec (Z.of_nat (S n)) 0); [lia |].
  replace (Z.of_nat (S n) - 1) with (Z.of_nat n) in * by lia.
  assert (256 ^ Z.of_nat (S n) = 256 * 256 ^ Z.of_nat n) as EP
    by (rewrite Nat2Z.inj_succ, Z.pow_succ_r by lia; lia).
  assert (Z.shiftr v 8 = v / 256) as ES by (rewrite shiftr_div by lia; done).
  assert (0 <= Z.shiftr v 8 < 256 ^ Z.of_nat n) as Hv'.
  { rewrite ES. split; [apply Z.div_pos; lia | apply Z.div_lt_upper_bound; lia]. }
  assert (Z.shiftr v 8 <> 0 -> 256 ^ (Z.of_nat n - 1) <= Z.shiftr v 8) as Hlow'.
  { intros _. rewrite ES. destruct n as [|n]; [apply Z.div_pos; lia |].
    apply Z.div_le_lower_bound; [lia |]. specialize (Hlow Hne).
    rewrite Nat2Z.inj_succ, Z.pow_succ_r in Hlow by lia.
    replace (Z.of_nat (S n) - 1) with (Z.of_nat n) by lia. lia. }
  rewrite IH by done. cbn [toBigEndian]. rewrite land_255. unfold wrap. change (2 ^ 8) with 256.
  destruct (Z.eqb_spec (Z.shiftr v 8) 0) as [E0 |]; [| by rewrite <- app_assoc].
  assert (n = 0%nat) as ->; [| done].
  destruct n as [|n]; [done |]. exfalso. specialize (Hlow Hne).
  rewrite E0 in ES. rewrite Nat2Z.inj_succ, Z.pow_succ_r in Hlow by lia.
  assert (1 <= 256 ^ Z.of_nat n) by (apply (Z.pow_le_mono_r 256 0); lia).
  symmetry in ES. apply Z.div_small_iff in ES; lia.
Qed.

Lemma value_to_bytes_min v : 0 <= v -> value_to_bytes v = Ok (be_min v).
Proof.
  intros Hv. unfold value_to_bytes, be_min. destruct (bytesRequired_spec v Hv) as (H0 & H1 & H2).
  rewrite <- (Z2Nat.id (bytesRequired v)) at 2 by done. rewrite value_bytes_loop_spec.
  - cbn [mbind res_bind]. destruct (Z.eqb_spec v 0) as [-> |]; [done |]. by rewrite app_nil_r.
  - by rewrite Z2Nat.id.
  - rewrite Z2Nat.id by done. intros Hne. apply H2. lia.
Qed.

(** Amounts cross to the chain unchanged: [value_to_bytes] of an unsigned integer of
    any width never writes outside its array and yields its big-endian bytes, with no
    leading zero, which [fromBigEndian] of a wide enough type reads back. *)
Theorem value_to_bytes_roundtrip (w v : Z) :
  0 <= v < 2 ^ w -> 0 <= w ->
  exists b, value_to_bytes v = Ok b /\ be_value b = v /\ fromBigEndian w b = v /\
            len b = bytesRequired v /\ head b <> Some 0.
Proof.
  intros Hv Hw. exists (be_min v). split; [apply value_to_bytes_min; lia |].
  assert (be_value (be_min v) = v) as E by (apply be_value_be_min; lia). split_and!.
  - done.
  - rewrite fromBigEndian_value by (done || apply be_min_ok). rewrite E. by apply Z.mod_small.
  - apply len_be_min. lia.
  - destruct (Z.eq_dec v 0) as [-> |]; [done |].
    destruct (be_min_head v) as (b & bs & -> & Hb); [lia |]. cbn. congruence.
Qed.

Lemma value_to_bytes_roundtrip_witness :
  (0 <= 70000 < 2 ^ 128 /\ 0 <= 128) /\
  exists b, value_to_bytes 70000 = Ok b /\ be_value b = 70000 /\ fromBigEndian 128 b = 70000 /\
            len b = bytesRequired 70000 /\ head b <> Some 0.
Proof. split; [lia |]. apply (value_to_bytes_roundtrip 128 70000); lia. Defined.

Section CallFacts.
Context `{HL : HostRLPLaws}.
Context {A : Type} (f : fields A) (trees : A -> list item) (valid sized : A -> Prop).
Context `{HF : !FieldsLaws f trees valid sized}.

(** The RLP value of a call: the method's hash, then the arguments. *)
Definition call_tree (method : bytes) (args : A) : item :=
  Lst (int_item (Name_hash method) :: trees args).

Lemma cross_call_args_struct method args :
  f_count f + 1 < 2 ^ 32 -> 0 <= f_count f ->
  cross_call_args f method args = rlp (c_struct (fields_cons (c_uint 64) f)) (Name_hash method, args).
Proof using Type.
  intros HC H0. unfold cross_call_args, rlp. cbn [put c_struct]. unfold put_struct.
  cbn [f_count f_measure f_put fields_cons fst snd]. rewrite wrap_small by lia.
  rewrite (Z.add_comm (f_count f) 1). destruct (appendList stream_new (1 + f_count f)); try done.
  cbn [mbind res_bind measure c_uint]. destruct (f_measure f _ args); try done. cbn [mbind res_bind].
  by destruct (put (c_uint 64) _ _).
Qed.

Lemma cross_call_args_spec method args :
  valid args -> cost (call_tree method args) < RLP_LIMIT ->
  cross_call_args f method args = Ok (enc (call_tree method args)).
Proof using HL HF.
  intros Ha HC. pose proof (fields_count args Ha) as Ef.
  assert (len (trees args) + 1 < 2 ^ 32) as HLen.
  { unfold call_tree in HC. rewrite cost_list in HC. cbn [total_cost foldr] in HC.
    fold (total_cost (trees args)) in HC. pose proof (total_cost_len (trees args)).
    pose proof (cost_pos (int_item (Name_hash method))). unfold RLP_LIMIT, SIZE_MAX in HC. lia. }
  rewrite cross_call_args_struct by lia.
  apply (rlp_enc (c_struct (fields_cons (c_uint 64) f)) (fun x => Lst (cons_trees int_item trees x))
           (pair_prop (uint_valid 64) valid) (pair_prop anything sized) (Name_hash method, args)).
  - split; [apply Name_hash_range | done].
  - exact HC.
Qed.

Lemma deploy_args_spec code init_rlp :
  bytes_valid code -> bytes_valid init_rlp -> cost (Lst [Str code; Str init_rlp]) < RLP_LIMIT - 8 ->
  deploy_args code init_rlp = Ok (magic_number ++ enc (Lst [Str code; Str init_rlp])).
Proof using HL.
  intros Hc Hi HC. unfold RLP_LIMIT, SIZE_MAX in HC. unfold deploy_args.
  destruct (appendPrefix_spec stream_new empty_builder magic_number represents_new eq_refl)
    as (s1 & E1 & R1); [done |].
  cbn [measure c_bytes mbind res_bind]. rewrite E1. cbn [mbind res_bind b_done empty_builder app] in *.
  set (n := u32 _). set (b1 := mkBuilder [] magic_number) in *.
  destruct (put_members (fields_cons c_bytes (fields_cons c_bytes fields_nil))
              (cons_trees Str (cons_trees Str (fun _ => []))) (pair_prop bytes_valid (pair_prop bytes_valid anything))
              (pair_prop anything (pair_prop anything anything)) (code, (init_rlp, tt))
              (stream_reserve s1 n) b1) as (s2 & b2 & E2 & R2 & HP).
  - by split; [| split].
  - by apply reserve_represents.
  - change (budget b1) with 4. unfold cons_trees. cbn [fst snd]. lia.
  - change (f_count (fields_cons c_bytes (fields_cons c_bytes fields_nil))) with 2 in E2.
    rewrite E2. cbn [mbind res_bind]. destruct (HP s2 R2) as (s3 & E3 & R3 & _).
    cbn [f_put fields_cons fields_nil fst snd] in E3.
    destruct (put c_bytes s2 code) as [s4 | | | |]; try done. cbn [mbind res_bind] in E3 |- *.
    destruct (put c_bytes s4 init_rlp) as [s5 | | | |]; try done. cbn [mbind res_bind] in E3 |- *.
    injection E3 as ->. rewrite (stream_out_spec s3 _ R3). unfold cons_trees.
    cbn [add_item add_items b_open b_done b1 flat_map app fst snd]. by rewrite app_nil_r.
Qed.

Context {W : Type} `{HW : !HostCalls W}.

(** Deploying a contract hands the chain exactly: the magic number 00 61 73 6d, then
    the RLP list of the code and of the RLP-encoded constructor call, whose first item is
    the hash of [init]; with it the big-endian bytes of the value and of the gas; and
    returns what the chain answers. *)
Theorem create_contract_sends (w : W) (code : bytes) (value gas : Z) (init_args : A) :
  valid init_args -> bytes_valid code -> 0 <= value -> 0 <= gas ->
  cost (Lst [Str code; Str (enc (call_tree init_method init_args))]) < RLP_LIMIT - 8 ->
  cost (call_tree init_method init_args) < RLP_LIMIT ->
  platon_create_contract f w code value gas init_args =
  let '(addr, status, w') :=
    host_deploy w (magic_number ++ enc (Lst [Str code; Str (enc (call_tree init_method init_args))]))
                (be_min value) (be_min gas) in
  Ok (addr, status =? 0, w').
Proof using HL HF.
  intros Ha Hc Hv Hg HC1 HC2. unfold platon_create_contract.
  rewrite !value_to_bytes_min by done. cbn [mbind res_bind].
  rewrite cross_call_args_spec by done. cbn [mbind res_bind].
  assert (item_ok (call_tree init_method init_args)) as HI.
  { apply cost_ok; [| done]. apply leaves_ok_lst, Forall_cons. split; [apply int_item_leaves |].
    by apply (fields_leaves init_args Ha). }
  rewrite deploy_args_spec; [done | done | | done]. split; [by apply item_ok_bytes |].
  destruct HI as [_ HI]. unfold RLP_LIMIT, SIZE_MAX in HI. lia.
Qed.
End CallFacts.

#[local] Existing Instance host_rlp.
#[local] Existing Instance host_rlp_laws.

(** A chain that records what it is asked to deploy, and answers an address of zeros. *)
Definition recording_chain : HostCalls (list bytes) := {|
  host_call w to args value gas := (0, args :: w);
  host_delegate_call w to args gas := (0, args :: w);
  host_call_output w := [];
  host_deploy w args value gas := (replicate 20 0, 0, args :: w);
  host_clone w old_addr args value gas := (replicate 20 0, 0, args :: w);
  host_migrate w args value gas := (replicate 20 0, 0, args :: w);
  host_clone_migrate w old_addr args value gas := (replicate 20 0, 0, args :: w);
  host_contract_code w addr := []
|}.

Lemma create_contract_sends_witness :
  platon_create_contract (H0 := recording_chain) (fields_cons (c_uint 32) fields_nil) []
    [1; 2; 3] 10 20 (7, tt)
  = Ok (replicate 20 0, true,
        [magic_number ++ enc (Lst [Str [1; 2; 3]; Str (enc (call_tree (cons_trees int_item (fun _ => []))
                                                             init_method (7, tt)))])]).
Proof.
  assert (CodecLaws (c_uint 32) int_item (uint_valid 32) anything) as HC
    by (apply c_uint_laws; [by exists 4 | lia]).
  etransitivity;
    [apply (create_contract_sends (HW := recording_chain) (fields_cons (c_uint 32) fields_nil)
              (cons_trees int_item (fun _ => [])) (pair_prop (uint_valid 32) anything)
              (pair_prop anything anything)) |].
  - split; [unfold uint_valid; simpl; lia | exact I].
  - split; [apply (bool_decide_unpack _); reflexivity | vm_compute; reflexivity].
  - lia.
  - lia.
  - vm_compute. reflexivity.
  - vm_compute. reflexivity.
  - reflexivity.
Defined.
