(* ===== verification/Dispatcher.v ===== *)
(** * dispatcher.hpp: from input bytes to a contract's method

    [PLATON_DISPATCH]: a contract class has methods, each with the types of its
    parameters and of its result; [invoke] reads the method's hash and the arguments from
    the RLP input, runs the method on a new object, and returns its result. *)

From S2P Require Import Prelude Common RlpSpec VectorRef RlpReader RlpReaderFacts RlpConvert.
From S2P Require Import HostRlp RlpStream RlpSize Serialize SerializeFacts Name CrossCall.

(** ** Definitions *)

Section Dispatcher.
Context `{HostRLP}.

(** The contract: [St] is the chain's state, [T] the contract class, its constructor and
    destructor (its members load and store themselves there). *)
Context {St T : Type} (construct : St -> res (T * St)) (destroy : T -> St -> res St).

(** One element of the dispatch list: a method of [T]. [act_return] is [None] for a
    method that returns [void]. *)
Record action := mkAction {
  act_name : bytes;
  act_args : Type;
  act_fields : fields act_args;
  act_ret : Type;
  act_return : option (codec act_ret);
  act_body : T -> act_args -> St -> res (act_ret * T * St)
}.

(** [get_para]: the arguments from index 1 of the list on. *)
Definition get_para {A} (f : fields A) (mem : bytes) (rlp : RLP) : res A :=
  n ← itemCount mem (m_data rlp);
  if negb (f_count f =? u32 (n - 1))
  then platon_throw "The number of method parameters does not match"
  else '(t, _) ← f_fetch f mem 1 rlp; Ok t.

(** [platon_return]: the bytes the chain is given. *)
Definition platon_return {R} (c : codec R) (t : R) : res bytes :=
  size ← pack_size c t;
  rlp_stream ← put c (stream_reserve stream_new size) t;
  stream_out rlp_stream.

(** The method on a new object, the result, the end of the object: the two overloads of
    [execute_action] after the arguments are read. *)
Definition run_action (a : action) (args : act_args a) (s : St) : res (option bytes * St) :=
  '(inst, s1) ← construct s;
  '(t, inst', s2) ← act_body a inst args s1;
  out ← match act_return a with
        | Some c => b ← platon_return c t; Ok (Some b)
        | None => Ok None
        end;
  s3 ← destroy inst' s2;
  Ok (out, s3).

Definition execute_action (a : action) (mem : bytes) (rlp : RLP) (s : St) : res (option bytes * St) :=
  args ← get_para (act_fields a) mem rlp;
  run_action a args s.

(** The chain of [else if] of the macro. *)
Fixpoint dispatch (actions : list action) (method : Z) (mem : bytes) (rlp : RLP) (s : St)
    : res (option bytes * St) :=
  match actions with
  | [] => platon_throw "no method to call"
  | a :: rest =>
      if method =? name_value (act_name a) kOffset64 then execute_action a mem rlp s
      else dispatch rest method mem rlp s
  end.

(** [_invoke]: [input] is what [get_input] gives. *)
Definition invoke (actions : list action) (input : bytes) (s : St) : res (option bytes * St) :=
  rlp ← RLP_new input (mk_ref (Some 0) (len input)) VeryStrict;
  '(it, rlp1) ← rlp_index input rlp 0;
  method ← fetch (c_uint 64) input it;
  if 0 =? method then platon_throw "invalid method"
  else dispatch actions method input rlp1 s.
End Dispatcher.

Arguments mkAction {St T}.
Arguments act_name {St T}.
Arguments act_args {St T}.
Arguments act_fields {St T}.
Arguments act_ret {St T}.
Arguments act_return {St T}.
Arguments act_body {St T}.

(** ** Properties *)

Lemma platon_return_spec `{HL : HostRLPLaws} {R} (c : codec R) tree vr sr `{HC : !CodecLaws c tree vr sr} t :
  vr t -> cost (tree t) < RLP_LIMIT -> platon_return c t = Ok (enc (tree t)).
Proof.
  intros Ht HB. unfold platon_return, pack_size. unfold RLP_LIMIT, SIZE_MAX in HB.
  destruct (measure_law (c := c) t Ht) as (n & _ & En & _). rewrite En by apply size_ok_new.
  cbn [mbind res_bind].
  destruct (put_law (c := c) t (stream_reserve stream_new (rs_size_ (size_bump size_new n)))
              empty_builder Ht) as (s1 & E1 & R1 & _).
  - apply reserve_represents, represents_new.
  - change (budget empty_builder) with 0. lia.
  - rewrite E1. cbn [mbind res_bind]. rewrite (stream_out_spec s1 _ R1). cbn. by rewrite app_nil_r.
Qed.

Section Facts.
Context `{HL : HostRLPLaws}.
Context {St T : Type} (construct : St -> res (T * St)) (destroy : T -> St -> res St).

Abbreviation invoke' := (invoke construct destroy).
Abbreviation run := (run_action construct destroy).

(** Reading the input: the method's hash, and the cache after item 0. *)
Lemma invoke_call_list actions h l s :
  uint_valid 64 h -> item_ok (Lst (int_item h :: l)) ->
  let data := enc (Lst (int_item h :: l)) in
  let view := mk_ref (Some 0) (len data) in
  exists r, m_data r = view /\ shows data view 0 data /\
    cache_ok (0 + len (prefix_of (Lst (int_item h :: l)))) (int_item h :: l) r /\
    invoke' actions data s =
      if 0 =? h then platon_throw "invalid method" else dispatch construct destroy actions h data r s.
Proof using HL.
  intros Hh HI data view. pose proof (shows_whole data) as HS. fold view in HS. unfold invoke.
  rewrite (new_exact data view 0 (Lst (int_item h :: l))) by done. cbn [mbind res_bind].
  destruct (index_item data view 0 _ (fresh view) 0 (int_item h) HI HS) as (v & q & r & E & HSv & Er & HCr);
    [done | by left | done |].
  change (Z.of_nat 0) with 0 in E. fold view. rewrite E. cbn [mbind res_bind].
  assert (item_ok (int_item h)) as HIh by (apply (item_ok_elem _ _ HI); by left).
  rewrite (fetch_law (c := c_uint 64) data h Hh HIh v q HSv). by exists r.
Qed.

(** The number of arguments is checked; then each is read from its item. *)
Lemma get_para_count {A} (f : fields A) h l data view r :
  item_ok (Lst (int_item h :: l)) -> shows data view 0 (enc (Lst (int_item h :: l))) -> m_data r = view ->
  get_para f data r =
  if f_count f =? len l then '(t, _) ← f_fetch f data 1 r; Ok t
  else platon_throw "The number of method parameters does not match".
Proof using Type.
  intros HI HS Er. unfold get_para, itemCount. rewrite Er.
  destruct (head_exact data view 0 _ HI HS). rewrite hv_list. cbn [mbind res_bind is_lst].
  rewrite (items_spec data view 0 _ HI HS). cbn [mbind res_bind length].
  pose proof (list_bound (int_item h :: l) HI) as HB. unfold SIZE_MAX in HB. cbn [length] in HB.
  rewrite wrap_small by lia. replace (Z.of_nat (S (length l)) - 1) with (len l) by lia.
  by destruct (Z.eqb_spec (f_count f) (len l)).
Qed.

Section Call.
Context (a : action (St := St) (T := T)) (trees : act_args a -> list item).
Context (valid sized : act_args a -> Prop) `{HF : !FieldsLaws (act_fields a) trees valid sized}.

Lemma get_para_spec h args data view r :
  valid args -> item_ok (Lst (int_item h :: trees args)) ->
  shows data view 0 (enc (Lst (int_item h :: trees args))) -> m_data r = view ->
  cache_ok (0 + len (prefix_of (Lst (int_item h :: trees args)))) (int_item h :: trees args) r ->
  get_para (act_fields a) data r = Ok args.
Proof using HF.
  intros Ha HI HS Er HC. rewrite (get_para_count _ h (trees args) data view) by done.
  rewrite (fields_count args Ha), Z.eqb_refl.
  pose proof (fields_fetch data args [int_item h] [] view 0 r Ha) as HX.
  cbn [app] in HX. rewrite app_nil_r in HX.
  destruct (HX HI HS Er HC) as (r' & E & _). change (len [int_item h]) with 1 in E. by rewrite E.
Qed.

(** No earlier method of the list has the same hash. *)
Definition first_of (pre : list (action (St := St) (T := T))) : Prop :=
  Forall (fun b => name_value (act_name b) kOffset64 <> name_value (act_name a) kOffset64) pre.

Lemma dispatch_first pre post h mem rlp s :
  first_of pre -> h = name_value (act_name a) kOffset64 ->
  dispatch construct destroy (pre ++ a :: post) h mem rlp s
  = execute_action construct destroy a mem rlp s.
Proof using Type.
  intros HP ->. revert HP. induction 1 as [|b pre Hb _ IH]; cbn [app dispatch].
  - by rewrite Z.eqb_refl.
  - destruct (Z.eqb_spec (name_value (act_name a) kOffset64) (name_value (act_name b) kOffset64)); [congruence | done].
Qed.

Lemma call_reaches pre post args s :
  first_of pre -> plain_text (act_name a) -> Name_hash (act_name a) <> 0 -> valid args ->
  cost (call_tree trees (act_name a) args) < RLP_LIMIT ->
  exists data, cross_call_args (act_fields a) (act_name a) args = Ok data /\
               invoke' (pre ++ a :: post) data s = run a args s.
Proof using HL HF.
  intros HP Hn H0 Ha HC. exists (enc (call_tree trees (act_name a) args)).
  split; [by apply (cross_call_args_spec (act_fields a) trees valid sized) |].
  assert (item_ok (call_tree trees (act_name a) args)) as HI.
  { apply cost_ok; [| done]. apply leaves_ok_lst, Forall_cons. split; [apply int_item_leaves |].
    by apply (fields_leaves args Ha). }
  unfold call_tree in *.
  destruct (invoke_call_list (pre ++ a :: post) (Name_hash (act_name a)) (trees args) s)
    as (r & Er & HS & HCr & ->); [apply Name_hash_range | done |].
  destruct (Z.eqb_spec 0 (Name_hash (act_name a))); [congruence |].
  pose proof (get_para_spec _ args _ _ r Ha HI HS Er HCr) as EP.
  rewrite dispatch_first; [unfold execute_action; by rewrite EP | done |].
  symmetry. apply name_value_hash. eapply Forall_impl; [exact Hn |]. intros c Hc. cbn in Hc. lia.
Qed.
End Call.

(** C30. The three ways a call is refused end the transaction: whatever the contract's
    methods, an input whose first item is 0, an input whose first item is the hash of no
    method, and a call of a method with another number of arguments, panic without
    running anything. *)
Theorem invoke_refuses (actions : list (action (St := St) (T := T))) (h : Z) (l : list item) (s : St) :
  uint_valid 64 h -> item_ok (Lst (int_item h :: l)) ->
  let data := enc (Lst (int_item h :: l)) in
  (h = 0 -> invoke' actions data s = Panic "invalid method") /\
  (h <> 0 -> Forall (fun a => name_value (act_name a) kOffset64 <> h) actions ->
   invoke' actions data s = Panic "no method to call") /\
  (forall pre a post, h <> 0 -> actions = pre ++ a :: post -> name_value (act_name a) kOffset64 = h ->
   first_of a pre -> f_count (act_fields a) <> len l ->
   invoke' actions data s = Panic "The number of method parameters does not match").
Proof using HL.
  intros Hh HI data. destruct (invoke_call_list actions h l s Hh HI) as (r & Er & HS & HC & E).
  fold data in E, HS. rewrite E. split_and!.
  - intros ->. done.
  - intros H0 HF. destruct (Z.eqb_spec 0 h); [lia |].
    clear E. induction HF as [|a actions Ha _ IH]; [done |]. cbn [dispatch].
    by destruct (Z.eqb_spec h (name_value (act_name a) kOffset64)).
  - intros pre a post H0 -> <- HP HN. destruct (Z.eqb_spec 0 (name_value (act_name a) kOffset64)); [lia |].
    rewrite dispatch_first by done. unfold execute_action.
    rewrite (get_para_count _ _ l data _ r HI HS Er).
    by destruct (Z.eqb_spec (f_count (act_fields a)) (len l)).
Qed.

(** *** Remote calls *)

Section Remote.
Context (actions : list (action (St := St) (T := T))).
Context (a : action (St := St) (T := T)) (trees : act_args a -> list item).
Context (valid sized : act_args a -> Prop) `{HF : !FieldsLaws (act_fields a) trees valid sized}.
Context (c : codec (act_ret a)) (tree : act_ret a -> item) (vr sr : act_ret a -> Prop).
Context `{HC : !CodecLaws c tree vr sr}.

(** The chain runs [invoke] of the contract at address [callee], whose state is [state w]:
    the caller sees status 0 and the returned bytes when it ends normally. *)
Context {W : Type} `{HW : !HostCalls W} (callee : bytes) (state : W -> St).
Definition host_runs_contract : Prop :=
  forall w data value gas out s', invoke' actions data (state w) = Ok (out, s') ->
    exists w', host_call w callee data value gas = (0, w') /\ state w' = s' /\
               host_call_output w' = default [] out.

(** C29. A remote call is a call: if the chain runs the callee's [invoke],
    [platon_call_with_return_value] of a method, by name and with arguments of its
    parameter types, runs the method's body on a new object with exactly these arguments
    and gives back exactly its result, and the callee's state is what construction, body
    and destruction make of it. *)
Theorem remote_call (pre post : list action) (w : W) (value gas : Z) (args : act_args a)
    (dflt t : act_ret a) (inst inst' : T) (s1 s2 s3 : St) :
  host_runs_contract -> actions = pre ++ a :: post -> first_of a pre -> act_return a = Some c ->
  plain_text (act_name a) -> Name_hash (act_name a) <> 0 -> 0 <= value -> 0 <= gas ->
  valid args -> cost (call_tree trees (act_name a) args) < RLP_LIMIT ->
  construct (state w) = Ok (inst, s1) -> act_body a inst args s1 = Ok (t, inst', s2) ->
  vr t -> cost (tree t) < RLP_LIMIT -> destroy inst' s2 = Ok s3 ->
  exists w', platon_call_with_return_value (act_fields a) c dflt w callee value gas (act_name a) args
             = Ok (t, true, w') /\ state w' = s3.
Proof using HL HF HC.
  intros Hhost Eact HP ER Hn H0 Hv Hg Ha HCa EC EB Ht HCt ED.
  destruct (call_reaches a trees valid sized pre post args (state w) HP Hn H0 Ha HCa) as (data & Ed & Ei).
  rewrite <- Eact in Ei.
  assert (run a args (state w) = Ok (Some (enc (tree t)), s3)) as Erun.
  { unfold run_action. rewrite EC. cbn [mbind res_bind]. rewrite EB. cbn [mbind res_bind]. rewrite ER.
    rewrite (platon_return_spec c tree vr sr t Ht HCt). cbn [mbind res_bind]. by rewrite ED. }
  rewrite Erun in Ei.
  destruct (Hhost w data (be_min value) (be_min gas) _ _ Ei) as (w' & Ew & Es & Eo).
  exists w'. split; [| done]. unfold platon_call_with_return_value, platon_call.
  rewrite Ed, !value_to_bytes_min by done. cbn [mbind res_bind]. rewrite Ew. cbn [mbind res_bind Z.eqb negb].
  unfold get_call_output. rewrite Eo. cbn [from_option id].
  by rewrite (unpack_enc c tree vr sr t Ht HCt).
Qed.
End Remote.
End Facts.

#[local] Existing Instance host_rlp.
#[local] Existing Instance host_rlp_laws.

(** A contract with a stored counter: [init()], and [add(uint32_t)], which returns the sum. *)
Module Counter.
Definition construct (s : Z) : res (Z * Z) := Ok (s, s).
Definition destroy (t s : Z) : res Z := Ok t.

Definition init : action (St := Z) (T := Z) :=
  mkAction [105; 110; 105; 116] unit fields_nil unit None (fun t _ s => Ok (tt, 0, s)).

Definition add : action (St := Z) (T := Z) :=
  mkAction [97; 100; 100] (Z * unit) (fields_cons (c_uint 32) fields_nil) Z (Some (c_uint 64))
    (fun t args s => Ok (t + fst args, t + fst args, s)).

Definition methods : list action := [init; add].

(** A chain with this contract at every address. *)
Definition chain : HostCalls (Z * bytes) := {|
  host_call w to args value gas :=
    match invoke construct destroy methods args (fst w) with
    | Ok (out, s') => (0, (s', default [] out))
    | _ => (-1, w)
    end;
  host_delegate_call w to args gas := (-1, w);
  host_call_output w := snd w;
  host_deploy w args value gas := ([], -1, w);
  host_clone w old_addr args value gas := ([], -1, w);
  host_migrate w args value gas := ([], -1, w);
  host_clone_migrate w old_addr args value gas := ([], -1, w);
  host_contract_code w addr := []
|}.
End Counter.

Lemma invoke_refuses_witness :
  invoke Counter.construct Counter.destroy Counter.methods (enc (Lst [int_item 0])) 5
    = Panic "invalid method" /\
  invoke Counter.construct Counter.destroy Counter.methods (enc (Lst [int_item 77])) 5
    = Panic "no method to call" /\
  invoke Counter.construct Counter.destroy Counter.methods
    (enc (Lst [int_item (name_value [97; 100; 100] kOffset64)])) 5
    = Panic "The number of method parameters does not match".
Proof.
  assert (forall h, cost (Lst [int_item h]) < RLP_LIMIT -> item_ok (Lst [int_item h])) as HI.
  { intros h Hh. apply cost_ok; [| exact Hh].
    apply leaves_ok_lst, Forall_singleton, int_item_leaves. }
  set (h := name_value [97; 100; 100] kOffset64).
  split; [| split].
  - apply (invoke_refuses Counter.construct Counter.destroy Counter.methods 0 [] 5);
      [unfold uint_valid; lia | apply HI; vm_compute; reflexivity | reflexivity].
  - apply (invoke_refuses Counter.construct Counter.destroy Counter.methods 77 [] 5);
      [unfold uint_valid; lia | apply HI; vm_compute; reflexivity | lia |].
    repeat constructor; vm_compute; discriminate.
  - destruct (invoke_refuses Counter.construct Counter.destroy Counter.methods h [] 5) as (_ & _ & HN);
      [vm_compute; split; [discriminate | reflexivity] | apply HI; vm_compute; reflexivity |].
    apply (HN [Counter.init] Counter.add []);
      [vm_compute; discriminate | reflexivity | reflexivity | | discriminate].
    repeat constructor; vm_compute; discriminate.
Defined.

Lemma remote_call_witness :
  exists w', platon_call_with_return_value (H0 := Counter.chain)
               (fields_cons (c_uint 32) fields_nil) (c_uint 64) 0 (40, []) (replicate 20 1) 0 100000
               [97; 100; 100] (2, tt)
             = Ok (42, true, w') /\ fst w' = 42.
Proof.
  assert (CodecLaws (c_uint 32) int_item (uint_valid 32) anything) as HC
    by (apply c_uint_laws; [by exists 4 | lia]).
  apply (remote_call (HW := Counter.chain) Counter.construct Counter.destroy Counter.methods Counter.add
           (cons_trees int_item (fun _ => [])) (pair_prop (uint_valid 32) anything)
           (pair_prop anything anything) (c_uint 64) int_item (uint_valid 64) anything
           (replicate 20 1) fst [Counter.init] [] (40, []) 0 100000 (2, tt) 0 42 40 42 40 40 42).
  - intros w data value gas out s' E. exists (s', default [] out). cbn. by rewrite E.
  - reflexivity.
  - repeat constructor; vm_compute; discriminate.
  - reflexivity.
  - repeat constructor; lia.
  - vm_compute. discriminate.
  - lia.
  - lia.
  - split; [unfold uint_valid; simpl; lia | exact I].
  - vm_compute. reflexivity.
  - reflexivity.
  - reflexivity.
  - unfold uint_valid. lia.
  - vm_compute. reflexivity.
  - reflexivity.
Defined.
