(* ===== verification/Exchange.v ===== *)
(** * exchange.hpp: amounts of the currency

    [Energon]: an unsigned 128-bit number of VON. Sums wrap around, differences are
    checked. *)

From S2P Require Import Prelude Common.

(** ** Definitions *)

(** [Energon(n)], [Get]. *)
Definition Energon (n : Z) : Z := u128 n.
Definition energon_Get (value_ : Z) : Z := value_.

(** 32 bytes, most significant first. *)
Definition energon_Bytes (value_ : Z) : bytes := toBigEndian 32 value_.

(** [Add], [operator+=]. *)
Definition energon_Add (value_ v : Z) : Z := u128 (value_ + v).

Inductive EnergonUnit := VON | kVON | mVON | gVON | microLAT | milliLAT | LAT | kLAT | mLAT | gLAT.

(** The values of the enumerators; the names of the test network have the same ones. *)
Definition unit_value (u : EnergonUnit) : Z :=
  match u with
  | VON => 1
  | kVON => 1000
  | mVON => 1000000
  | gVON => 1000000000
  | microLAT => 1000000000000
  | milliLAT => 1000000000000000
  | LAT => 1000000000000000000
  | kLAT => u128 (1000000000000000000 * 1000)
  | mLAT => u128 (u128 (1000000000000000000 * 1000) * 1000)
  | gLAT => u128 (u128 (u128 (1000000000000000000 * 1000) * 1000) * 1000)
  end.

(** The literal operators: [n] has 64 bits. *)
Definition energon_literal (n : Z) (u : EnergonUnit) : Z :=
  match u with
  | VON => Energon n
  | _ => Energon (u128 (u128 n * unit_value u))
  end.

Definition energon_eqb (lhs rhs : Z) : bool := energon_Get lhs =? energon_Get rhs.
Definition energon_gtb (lhs rhs : Z) : bool := energon_Get rhs <? energon_Get lhs.
Definition energon_ltb (lhs rhs : Z) : bool := energon_Get lhs <? energon_Get rhs.

Definition energon_plus (lhs rhs : Z) : Z := energon_Add (energon_Add (Energon 0) lhs) rhs.

Definition energon_minus (lhs rhs : Z) : res Z :=
  if energon_ltb lhs rhs then platon_throw "overflow"
  else Ok (Energon (u128 (energon_Get lhs - energon_Get rhs))).

Section Transfer.
(** The chain's [platon_transfer]: to, amount; a status. *)
Context {W : Type} (host_transfer : W -> bytes -> bytes -> Z * W).

Definition platon_transfer (w : W) (addr : bytes) (amount : Z) : bool * W :=
  let bs := energon_Bytes amount in
  let '(status, w') := host_transfer w addr bs in (status =? 0, w').
End Transfer.

(** An amount of VON. *)
Definition amount_valid (v : Z) : Prop := 0 <= v < 2 ^ 128.

(** ** Properties *)

Lemma energon_plus_wrap a b : energon_plus a b = u128 (a + b).
Proof.
  unfold energon_plus, energon_Add, Energon. rewrite (wrap_small 128 0) by lia.
  rewrite Z.add_0_l. apply wrap_add_l. lia.
Qed.

(** C35. Subtraction never creates money: [a - b] panics exactly when [b] is larger, and
    otherwise adding [b] again gives [a]. Addition is exact as long as the sum fits in 128
    bits, and then taking either summand away again gives the other; a sum that does not
    fit is smaller than both, silently. *)
Theorem energon_arithmetic (a b : Z) :
  amount_valid a -> amount_valid b ->
  (a < b -> energon_minus a b = Panic "overflow") /\
  (b <= a -> exists d, energon_minus a b = Ok d /\ amount_valid d /\ energon_plus d b = a) /\
  (a + b < 2 ^ 128 -> energon_plus a b = a + b /\ energon_minus (energon_plus a b) b = Ok a) /\
  (2 ^ 128 <= a + b -> energon_plus a b < a /\ energon_plus a b < b).
Proof.
  unfold amount_valid, energon_minus, energon_ltb, energon_Get, Energon. intros Ha Hb.
  rewrite !energon_plus_wrap. split_and!; intros H.
  - by destruct (Z.ltb_spec a b); [| lia].
  - destruct (Z.ltb_spec a b); [lia |]. exists (a - b). rewrite !wrap_small by (rewrite ?wrap_small; lia).
    split; [done |]. split; [lia |]. rewrite energon_plus_wrap. rewrite wrap_small by lia. lia.
  - rewrite (wrap_small 128 (a + b)) by lia. split; [done |].
    destruct (Z.ltb_spec (a + b) b); [lia |]. replace (a + b - b) with a by lia.
    by rewrite !wrap_small by (rewrite ?wrap_small; lia).
  - assert (u128 (a + b) = a + b - 2 ^ 128) as ->; [| lia].
    unfold wrap. symmetry. apply Z.mod_unique with 1; lia.
Qed.

Lemma energon_arithmetic_witness :
  amount_valid 10 /\ amount_valid 2 /\ exists d, energon_minus 10 2 = Ok d /\ amount_valid d /\ energon_plus d 2 = 10.
Proof.
  assert (amount_valid 10) as H10 by (unfold amount_valid; lia).
  assert (amount_valid 2) as H2 by (unfold amount_valid; lia).
  split; [exact H10 |]. split; [exact H2 |].
  apply (energon_arithmetic 10 2 H10 H2). lia.
Defined.

Lemma be_value_zeros n l : be_value (replicate n 0 ++ l) = be_value l.
Proof. induction n as [|n IH]; [done |]. cbn [replicate app]. rewrite be_value_cons, IH. lia. Qed.

(** Leading zeros of a number that needs fewer bytes. *)
Lemma toBigEndian_pad n m v :
  0 <= v < 256 ^ Z.of_nat m -> toBigEndian (n + m) v = replicate n 0 ++ toBigEndian m v.
Proof.
  intros Hv. set (l := replicate n 0 ++ toBigEndian m v).
  assert (bytes_ok l) as Hl.
  { apply bytes_ok_app. split; [apply Forall_replicate; unfold is_byte; lia | apply toBigEndian_ok]. }
  rewrite <- (toBigEndian_be_value l Hl). f_equal.
  - unfold l. by rewrite length_app, length_replicate, length_toBigEndian.
  - unfold l. rewrite be_value_zeros, be_value_toBigEndian. symmetry. by apply Z.mod_small.
Qed.

(** A transfer hands the chain 32 bytes that are the big-endian form of exactly the
    amount, the first 16 of them 0, and reports success when and only when the chain does.
    A literal denotes its count of units as long as that fits in 128 bits, in particular
    always up to the unit LAT. *)
Theorem transfer_exact {W : Type} (host_transfer : W -> bytes -> bytes -> Z * W)
    (w : W) (addr : bytes) (n : Z) (u : EnergonUnit) :
  0 <= n < 2 ^ 64 -> n * unit_value u < 2 ^ 128 ->
  exists bs, length bs = 32%nat /\ take 16 bs = replicate 16 0 /\ be_value bs = n * unit_value u /\
    platon_transfer host_transfer w addr (energon_literal n u)
    = let '(status, w') := host_transfer w addr bs in (status =? 0, w').
Proof.
  intros Hn Hp.
  assert (0 <= n * unit_value u) as H0 by (apply Z.mul_nonneg_nonneg; [lia | by destruct u]).
  assert (energon_literal n u = n * unit_value u) as ->.
  { assert (forall x, 0 <= n * x < 2 ^ 128 -> Energon (u128 (u128 n * x)) = n * x) as HX.
    { intros x Hx. unfold Energon. rewrite (wrap_small 128 n) by lia. by rewrite !wrap_small by (rewrite ?wrap_small; lia). }
    destruct u; [unfold energon_literal, Energon; rewrite wrap_small; cbn [unit_value] in *; lia | ..];
      apply HX; by split. }
  set (v := n * unit_value u) in *.
  assert (v mod 2 ^ 128 = v) as Ev by (apply Z.mod_small; lia).
  exists (energon_Bytes v). unfold energon_Bytes. split_and!.
  - apply length_toBigEndian.
  - rewrite (toBigEndian_pad 16 16) by done. by rewrite take_app_length'.
  - rewrite be_value_toBigEndian. apply Z.mod_small. lia.
  - done.
Qed.

Lemma transfer_exact_witness :
  exists bs, length bs = 32%nat /\ take 16 bs = replicate 16 0 /\ be_value bs = 5 * unit_value LAT /\
    platon_transfer (fun w a b => (0, b :: w)) [] (replicate 20 1) (energon_literal 5 LAT) = (true, [bs]).
Proof.
  apply (transfer_exact (fun w a b => (0, b :: w)) [] (replicate 20 1) 5 LAT); [lia | vm_compute; reflexivity].
Defined.

