(* ===== verification/Print.v ===== *)
(** * print.hpp: numbers and debug output as text

    Text is a list of character codes. Numbers of up to 64 bits are made text by the C++
    library, floating-point numbers and the whole line go through the C library's printf. *)

From Stdlib Require Import SpecFloat.
From S2P Require Import Printf PrintfFacts PrintfText StdString Prelude Common FixedHash.

(** ** Definitions *)

Definition charmap : bytes := [48; 49; 50; 51; 52; 53; 54; 55; 56; 57].

Definition charmap_at (i : Z) : res Z :=
  match zget charmap i with Some c => Ok c | None => Undef "read past charmap" end.

(** [do { ... } while (helper);] *)
Fixpoint to_string_loop (fuel : nat) (helper : Z) (result : bytes) : res bytes :=
  match fuel with
  | O => Fuel
  | S fuel' =>
      c ← charmap_at (helper mod 10);
      let result' := result ++ [c] in
      let helper' := helper / 10 in
      if helper' =? 0 then Ok result' else to_string_loop fuel' helper' result'
  end.

(** [std::to_string(uint128_t)]: 128 bits are at most 39 digits. *)
Definition to_string_u128 (value : Z) : res bytes :=
  result ← to_string_loop 39 value []; Ok (reverse result).

(** [std::to_string(int128_t)]: [0 - value] must not overflow. *)
Definition to_string_i128 (value : Z) : res bytes :=
  if value <? 0 then
    let negated := 0 - value in
    if negated <? 2 ^ 127
    then digits ← to_string_u128 (u128 negated); Ok ([45] ++ digits)
    else Undef "signed integer overflow"
  else to_string_u128 (u128 value).

(** What [print] is given: [const char*] and [std::string], [char], [bool], the integer types
    of the language, of 128 bits, [float] and [double]. *)
Inductive print_arg :=
| PText (s : bytes)
| PChar (c : Z)
| PBool (b : bool)
| PNumber (t : int_type) (v : Z)
| PUnsigned (v : Z)
| PSigned (v : Z)
| PDouble (d : spec_float).

(** [sprintf(temp_info, "%lf", double_data)]. *)
Definition double_text (double_data : spec_float) : res bytes :=
  let temp_info := replicate 100 0 in
  '(temp_info, _) ← sprintf (Some temp_info) [37; 108; 102; 0] [VDouble double_data];
  Ok (c_str (default [] temp_info)).

Definition print_one (all_info : bytes) (a : print_arg) : res bytes :=
  match a with
  | PText s => Ok (all_info ++ s)
  | PChar c => Ok (all_info ++ [c])
  | PBool b => Ok (all_info ++ if b then [116; 114; 117; 101] else [102; 97; 108; 115; 101])
  | PNumber t v => s ← to_string t v; Ok (all_info ++ s)
  | PUnsigned v => s ← to_string_u128 v; Ok (all_info ++ s)
  | PSigned v => s ← to_string_i128 v; Ok (all_info ++ s)
  | PDouble d => s ← double_text d; Ok (all_info ++ s)
  end.

(** [print] of one or more arguments: a space between two. *)
Fixpoint print (all_info : bytes) (a : print_arg) (args : list print_arg) : res bytes :=
  match args with
  | [] => print_one all_info a
  | b :: rest =>
      info1 ← print_one all_info a;
      info2 ← print_one info1 (PText [32]);
      print info2 b rest
  end.

(** [println] in a debug build: what [printf] hands to [platon_debug]. The array of [printf]
    is given here as zeros; what it holds does not matter ([printf_output]). *)
Definition println (ndebug : bool) (a : print_arg) (args : list print_arg) : res bytes :=
  if ndebug then Ok []
  else
    all_info ← print [] a args;
    '(output, _) ← printf (replicate 1024 0) [37; 115; 9; 10; 0] [VString (all_info ++ [0])];
    Ok output.

(** *** Specification *)

Definition is_dec (c : Z) : Prop := 48 <= c <= 57.

(** Decimal text: digits, the first of several not 0. *)
Definition dec_text (s : bytes) : Prop :=
  Forall is_dec s /\ s <> [] /\ (head s = Some 48 -> s = [48]).

(** ** Properties *)

Lemma charmap_digit d : 0 <= d < 10 -> charmap_at d = Ok (48 + d).
Proof.
  intros Hd. assert (d = 0 \/ d = 1 \/ d = 2 \/ d = 3 \/ d = 4 \/ d = 5 \/ d = 6 \/ d = 7 \/ d = 8 \/ d = 9)
    as HD by lia.
  destruct_or! HD; by subst d.
Qed.

(** The digits below a number are appended last digit first. *)
Lemma to_string_loop_spec fuel v result :
  0 <= v < 10 ^ Z.of_nat fuel -> (0 < fuel)%nat ->
  exists s, to_string_loop fuel v result = Ok (result ++ s) /\ Forall is_dec s /\
    (length s <= fuel)%nat /\ dec_value (reverse s) = v /\
    exists c s', s = s' ++ [c] /\ (c = 48 -> s' = [] /\ v = 0).
Proof.
  revert v result. induction fuel as [|fuel IH]; intros v result Hv Hf; [lia |].
  cbn [to_string_loop]. pose proof (Z.mod_pos_bound v 10 ltac:(lia)) as Hm.
  rewrite charmap_digit by done. cbn [mbind res_bind].
  pose proof (Z.div_mod v 10 ltac:(lia)) as HD. destruct (Z.eqb_spec (v / 10) 0) as [E | E].
  - exists [48 + v mod 10]. split_and!; [done | | simpl; lia | |].
    + apply Forall_singleton. unfold is_dec. lia.
    + cbn. lia.
    + exists (48 + v mod 10), []. split; [done |]. intros H48. split; [done | lia].
  - assert (0 <= v / 10) by (apply Z.div_pos; lia).
    assert (v / 10 < 10 ^ Z.of_nat fuel).
    { apply Z.div_lt_upper_bound; [lia |]. rewrite Nat2Z.inj_succ, Z.pow_succ_r in Hv by lia. lia. }
    destruct fuel as [|fuel]; [change (10 ^ Z.of_nat 0) with 1 in *; lia |].
    destruct (IH (v / 10) (result ++ [48 + v mod 10])) as (s & -> & HF & HL & HV & c & s' & Es & Hc); [lia | lia |].
    exists ((48 + v mod 10) :: s). rewrite <- app_assoc. split_and!; [done | | simpl; lia | |].
    + constructor; [unfold is_dec; lia | done].
    + rewrite reverse_cons. unfold dec_value in *. rewrite foldl_app, HV. cbn. lia.
    + exists c, ((48 + v mod 10) :: s'). subst s. split; [done |]. intros H48. destruct (Hc H48). lia.
Qed.

Lemma to_string_u128_spec v :
  0 <= v < 2 ^ 128 -> exists s, to_string_u128 v = Ok s /\ dec_text s /\ dec_value s = v /\ len s <= 39.
Proof.
  intros Hv. unfold to_string_u128.
  destruct (to_string_loop_spec 39 v []) as (s & -> & HF & HL & HV & c & s' & Es & Hc); [| lia |].
  { change (10 ^ Z.of_nat 39) with (10 ^ 39). lia. }
  cbn [mbind res_bind app]. exists (reverse s). split_and!; [done | | done | rewrite length_reverse; lia].
  subst s. split_and!.
  - by apply Forall_reverse.
  - rewrite reverse_snoc. done.
  - rewrite reverse_snoc. cbn. intros [= H48]. destruct (Hc H48) as [-> _]. by rewrite H48.
Qed.

(** Every unsigned 128-bit number prints as its decimal digits, at most 39, without
    leading zeros, and the [u128] literal operator reads them back. *)
Theorem to_string_literal_roundtrip (v : Z) :
  0 <= v < 2 ^ 128 ->
  exists s, to_string_u128 v = Ok s /\ dec_text s /\ len s <= 39 /\ dec_value s = v /\ u128_literal s = v.
Proof.
  intros Hv. destruct (to_string_u128_spec v Hv) as (s & E & HD & HV & HL).
  exists s. split_and!; try done. rewrite u128_literal_decimal by apply HD. rewrite HV. by apply Z.mod_small.
Qed.

Lemma to_string_literal_roundtrip_witness :
  exists s, to_string_u128 (2 ^ 128 - 1) = Ok s /\ dec_text s /\ len s <= 39 /\
            dec_value s = 2 ^ 128 - 1 /\ u128_literal s = 2 ^ 128 - 1.
Proof. apply to_string_literal_roundtrip. lia. Defined.

(** Signed 128-bit numbers print as their digits behind a minus sign when negative;
    the least one, whose absolute value does not fit, is undefined behaviour. *)
Theorem to_string_signed (v : Z) :
  (- 2 ^ 127 < v < 0 -> exists s, to_string_i128 v = Ok (45 :: s) /\ dec_text s /\ dec_value s = - v) /\
  (0 <= v < 2 ^ 127 -> exists s, to_string_i128 v = Ok s /\ dec_text s /\ dec_value s = v) /\
  to_string_i128 (- 2 ^ 127) = Undef "signed integer overflow".
Proof.
  unfold to_string_i128. split_and!; [intros Hv | intros Hv | done].
  - destruct (Z.ltb_spec v 0); [| lia]. destruct (Z.ltb_spec (0 - v) (2 ^ 127)); [| lia].
    rewrite wrap_small by lia.
    destruct (to_string_u128_spec (0 - v)) as (s & -> & HD & HV & _); [lia |].
    exists s. split_and!; [done | done | lia].
  - destruct (Z.ltb_spec v 0); [lia |]. rewrite wrap_small by lia.
    destruct (to_string_u128_spec v) as (s & -> & HD & HV & _); [lia |]. by exists s.
Qed.

Lemma to_string_signed_witness :
  exists s, to_string_i128 (-42) = Ok (45 :: s) /\ dec_text s /\ dec_value s = 42.
Proof. apply (to_string_signed (-42)). lia. Defined.

(** *** Printing *)

(** A number that can be printed as such: in the range of its type and not the smallest of a
    signed one; of a double, an integral part that is an [int]. *)
Definition arg_printable (a : print_arg) : Prop :=
  match a with
  | PNumber t v => type_range t v
  | PUnsigned v => 0 <= v < 2 ^ 128
  | PSigned v => - 2 ^ 127 < v < 2 ^ 127
  | PDouble d => exists whole frac, round_fraction (if SFltb d (dbl 0) then dbl_sub (dbl 0) d else d) 6 = Ok (whole, frac)
  | _ => True
  end.

(** The text of an argument. *)
Definition prints (a : print_arg) (s : bytes) : Prop :=
  match a with
  | PText t => s = t
  | PChar c => s = [c]
  | PBool b => s = if b then [116; 114; 117; 101] else [102; 97; 108; 115; 101]
  | PNumber _ v | PUnsigned v | PSigned v =>
      exists ds, s = (if v <? 0 then [45] else []) ++ ds /\ dec_text ds /\ dec_value ds = Z.abs v /\ len ds <= 39
  | PDouble d => text [37; 108; 102; 0] [VDouble d] = Ok (s, len s) /\ len s <= 32
  end.

(** The texts with a space between two. *)
Fixpoint spaced (ts : list bytes) : bytes :=
  match ts with [] => [] | [t] => t | t :: ts' => t ++ 32 :: spaced ts' end.

(** A bound on the length of what is printed. *)
Definition arg_size (a : print_arg) : Z := match a with PText t => len t | _ => 40 end.
Definition args_size (args : list print_arg) : Z := foldr (fun a n => arg_size a + 1 + n) 0 args.

Lemma decimal_text n : 0 <= n < 2 ^ 64 -> dec_text (decimal n) /\ dec_value (decimal n) = n /\ len (decimal n) <= 39.
Proof.
  intros Hn. pose proof (len_decimal n Hn) as HL.
  assert (0 <= n < 10 ^ Z.of_nat 64) as H64 by (split; [lia |]; apply Z.lt_trans with (2 ^ 64); [lia | reflexivity]).
  destruct (le_digits_spec 64 10 n ltac:(lia) H64 ltac:(lia)) as (HV & HF & _ & ds & d & E & H0 & Hd).
  split; [| split; [| lia]].
  - split; [| split].
    + unfold decimal, numeral. apply Forall_fmap, Forall_reverse. eapply Forall_impl; [exact HF |].
      intros x Hx. cbn in *. unfold is_dec. lia.
    + intros E0. rewrite E0 in HL. cbn in HL. lia.
    + unfold decimal, numeral. rewrite E, reverse_snoc. cbn. intros [= Hd0].
      destruct (Z.eq_dec n 0) as [Hn0 | Hn0]; [| exfalso; specialize (Hd Hn0); lia]. rewrite (H0 Hn0). cbn. f_equal. lia.
  - rewrite <- HV at 2. unfold decimal, numeral. clear. generalize (le_digits 64 10 n). intros ds.
    induction ds as [|d ds IH]; [done |]. rewrite reverse_cons, fmap_app. unfold dec_value in *.
    rewrite foldl_app, IH. cbn. lia.
Qed.

(** *** Doubles *)

Lemma emit_buffer cs : forall b idx maxlen, 0 <= idx -> idx + len cs <= len b -> len b <= maxlen < 2 ^ 32 ->
  emit _out_buffer cs b idx maxlen = Ok (ztake idx b ++ cs ++ zdrop (idx + len cs) b, idx + len cs).
Proof.
  induction cs as [|c cs IH]; intros b idx maxlen HI HL HM; cbn [emit length] in *.
  - rewrite Z.add_0_r. unfold ztake, zdrop. cbn [app]. by rewrite take_drop.
  - assert (_out_buffer c b idx maxlen = Ok (<[Z.to_nat idx := c]> b)) as ->.
    { unfold _out_buffer. destruct (Z.ltb_spec idx maxlen); [| lia]. by destruct (Z.ltb_spec idx (len b)); [| lia]. }
    cbn [mbind res_bind]. rewrite wrap_small by lia. rewrite IH by (rewrite ?length_insert; lia).
    replace (idx + Z.of_nat (S (length cs))) with (idx + 1 + len cs) by lia. do 2 f_equal.
    unfold ztake, zdrop. rewrite drop_insert_lt by lia. replace (Z.to_nat (idx + 1)) with (S (Z.to_nat idx)) by lia.
    rewrite (take_S_r _ _ c) by (apply list_lookup_insert_eq; lia). rewrite take_insert_ge by lia. by rewrite <- app_assoc.
Qed.

(** What the array of a conversion holds: at most 32 characters, none of them 0. *)
Definition fine (buf : bytes) : Prop := len buf <= 32 /\ Forall (fun c => c <> 0) buf.

Lemma fine_digit n buf : len buf < 32 -> fine buf -> fine (buf ++ [48 + n mod 10]).
Proof.
  intros HL [_ HF]. pose proof (Z.mod_pos_bound n 10 ltac:(lia)). split; [rewrite length_app; cbn [length]; lia |].
  apply Forall_app. split; [done |]. constructor; [lia | done].
Qed.

Lemma frac_loop_fine turns : forall frac count buf, len buf + Z.of_nat turns <= 32 -> fine buf ->
  fine (fst (frac_loop turns frac count buf)).
Proof.
  induction turns as [|turns IH]; intros frac count buf HL HF; cbn [frac_loop fst]; [done |].
  pose proof (fine_digit frac buf ltac:(lia) HF). destruct (frac / 10 =? 0); [done |].
  apply IH; [rewrite length_app; cbn [length]; lia | done].
Qed.

Lemma whole_loop_fine turns : forall whole buf, len buf + Z.of_nat turns <= 32 -> fine buf -> fine (whole_loop turns whole buf).
Proof.
  induction turns as [|turns IH]; intros whole buf HL HF; cbn [whole_loop]; [done |].
  pose proof (fine_digit whole buf ltac:(lia) HF). destruct (whole / 10 =? 0); [done |].
  apply IH; [rewrite length_app; cbn [length]; lia | done].
Qed.

Lemma store_fine buf c : c <> 0 -> fine buf -> fine (store buf c).
Proof.
  intros Hc [HL HF]. unfold store, room, PRINTF_NTOA_BUFFER_SIZE. destruct (Z.ltb_spec (len buf) 32); [| done].
  split; [rewrite length_app; cbn [length]; lia |]. apply Forall_app. split; [done | by constructor].
Qed.

Lemma fraction_digits_fine frac prec buf : fine buf -> fine (fraction_digits frac prec buf).
Proof.
  intros HB. unfold fraction_digits, turns_left, PRINTF_FTOA_BUFFER_SIZE.
  pose proof (frac_loop_fine (Z.to_nat 32 - length buf) frac prec buf ltac:(destruct HB; lia) HB) as HF.
  destruct (frac_loop _ _ _ _) as [buf' count]. destruct HF as [HL HF]. cbn [fst] in *. apply store_fine; [done |].
  split; [rewrite length_app, length_replicate; lia |]. apply Forall_app. split; [done |]. by apply Forall_replicate.
Qed.

(** [%lf] prints a double as 32 characters at most, or, over 2^31 - 1, nothing at all. *)
Lemma ftoa_fits d flags : has flags FLAGS_PRECISION = false ->
  has flags FLAGS_PLUS = false -> has flags FLAGS_SPACE = false -> has flags FLAGS_LEFT = false ->
  has flags FLAGS_ZEROPAD = false -> arg_printable (PDouble d) ->
  exists cs, fine cs /\ forall B (out : Z -> B -> Z -> Z -> res B) b maxlen,
    _ftoa out b 0 maxlen d 0 0 flags = emit out cs b 0 maxlen.
Proof.
  intros HPr HP HS HL HZ (whole & frac & HR). unfold _ftoa. rewrite HPr, HL, HZ. cbv zeta iota.
  replace (Z.max 0 (Z.min PRINTF_FTOA_BUFFER_SIZE (6 - 9))) with 0 by reflexivity. rewrite Z.sub_0_r, HR.
  cbn [mbind res_bind]. set (value := if SFltb d (dbl 0) then dbl_sub (dbl 0) d else d).
  destruct (SFltb (dbl 0x7FFFFFFF) value); [by exists [] |].
  change (6 =? 0) with false. cbn [mbind res_bind Z.to_nat replicate negb andb].
  pose proof (fraction_digits_fine frac 6 [] ltac:(by split)) as HF. set (f := fraction_digits frac 6 []) in *.
  pose proof (whole_loop_fine (turns_left f) whole f
    ltac:(destruct HF; unfold turns_left, PRINTF_FTOA_BUFFER_SIZE; lia) HF) as HW. set (w := whole_loop _ _ _) in *.
  set (w' := if (len w =? 0) && _ then unstore w else w).
  assert (fine w') as HW'.
  { unfold w', unstore. destruct HW as [HWl HWf]. destruct ((len w =? 0) && _); [| done].
    split; [rewrite length_take; lia | by apply Forall_take]. }
  assert (fine (store_sign w' (SFltb d (dbl 0)) flags)) as [HGl HGf].
  { unfold store_sign. rewrite HP, HS. destruct (SFltb d (dbl 0)); [by apply store_fine | done]. }
  exists (spaces (0 - len (store_sign w' (SFltb d (dbl 0)) flags)) ++ reverse (store_sign w' (SFltb d (dbl 0)) flags)).
  unfold spaces. replace (Z.to_nat (0 - _)) with 0%nat by lia. cbn [replicate app].
  split; [split; [by rewrite length_reverse | by apply Forall_reverse] |].
  intros B out b maxlen. rewrite put_number_eq, HL, HZ by lia.
  unfold spaces. by replace (Z.to_nat (0 - _)) with 0%nat by lia.
Qed.

Lemma c_str_text s rest : Forall (fun c => c <> 0) s -> c_str (s ++ 0 :: rest) = s.
Proof.
  induction 1 as [|c s Hc _ IH]; [done |]. cbn [app c_str]. destruct (Z.eqb_spec c 0); [done |]. by rewrite IH.
Qed.

(** The array of [print] is never too small, and the string is the text of %lf. *)
Lemma double_text_ok d : arg_printable (PDouble d) ->
  exists s, double_text d = Ok s /\ text [37; 108; 102; 0] [VDouble d] = Ok (s, len s) /\ len s <= 32.
Proof.
  intros Hd. destruct (directive_bits plain LL) as (EZ & EL & EP & ES & _ & _ & EPr).
  destruct (ftoa_fits d (all_bits plain LL) EPr EP ES EL EZ Hd) as (cs & [HL HF] & E).
  assert (forall B (out : Z -> B -> Z -> Z -> res B) b maxlen,
    convert out 102 b 0 maxlen [VDouble d] (prec_of plain) (width_of plain) (all_bits plain LL)
    = '(b', i) ← emit out cs b 0 maxlen; Ok (b', i, [])) as HC.
  { intros B out b maxlen. unfold convert. change (is_integer_specifier 102) with false.
    change ((102 =? 102) || (102 =? 70)) with true. cbv iota. cbn [va_double mbind res_bind]. by rewrite E. }
  exists cs. change [37; 108; 102; 0] with (render_directive plain (length_chars LL ++ [102]) ++ [0]).
  split; [| split; [| done]].
  2: { apply text_directive; [done | unfold specifier, letter; lia | lia | apply HC]. }
  unfold double_text, sprintf, vsnprintf, _vsnprintf. cbv zeta.
  change [37; 108; 102; 0] with (render_directive plain (length_chars LL ++ [102]) ++ [0]).
  set (b0 := replicate 100 0). assert (len b0 = 100) as H0 by reflexivity.
  rewrite directive_step by (done || (unfold specifier, letter; lia)).
  rewrite HC, emit_buffer by lia. cbn [mbind res_bind]. rewrite Z.add_0_l. set (b := ztake 0 b0 ++ _).
  assert (b = cs ++ zdrop (len cs) b0) as Eb by reflexivity.
  assert (len b = 100) as Hb by (rewrite Eb; unfold zdrop; rewrite length_app, length_drop; lia).
  assert (vsnprintf_loop _out_buffer (length (render_directive plain (length_chars LL ++ [102]) ++ [0])) [0] [] b (len cs) (2 ^ 32 - 1)
    = Ok (b, len cs)) as -> by reflexivity. cbn [mbind res_bind].
  destruct (Z.ltb_spec (len cs) (2 ^ 32 - 1)); [| lia].
  assert (_out_buffer 0 b (len cs) (2 ^ 32 - 1) = Ok (<[Z.to_nat (len cs) := 0]> b)) as ->.
  { unfold _out_buffer. destruct (Z.ltb_spec (len cs) (2 ^ 32 - 1)); [| lia]. by destruct (Z.ltb_spec (len cs) (len b)); [| lia]. }
  cbn [mbind res_bind default]. f_equal. unfold id. rewrite insert_take_drop by lia.
  assert (take (Z.to_nat (len cs)) b = cs) as -> by (rewrite Eb, take_app_le by lia; apply take_ge; lia).
  by apply c_str_text.
Qed.

(** *** A line *)

Lemma print_one_prints info a : arg_printable a -> exists s, print_one info a = Ok (info ++ s) /\ prints a s.
Proof.
  destruct a as [t | c | b | t v | v | v | d]; cbn [print_one prints]; intros Ha; try by eexists.
  - destruct (to_string_decimal t v) as [HT _]. rewrite HT by exact Ha. eexists. split; [done |].
    cbn [arg_printable] in Ha.
    assert (0 <= Z.abs v < 2 ^ 64) as HA by (unfold type_range in Ha; destruct t; cbn [type_signed type_bits] in Ha; lia).
    exists (decimal (Z.abs v)). split; [done |]. by apply decimal_text.
  - cbn [arg_printable] in Ha. destruct (to_string_u128_spec v Ha) as (s & -> & HD & HV & HL). exists s. split; [done |]. exists s.
    destruct (Z.ltb_spec v 0); [lia |]. rewrite Z.abs_eq by lia. done.
  - cbn [arg_printable] in Ha. unfold to_string_i128. destruct (Z.ltb_spec v 0) as [Hn | Hn].
    + destruct (Z.ltb_spec (0 - v) (2 ^ 127)); [| lia]. rewrite wrap_small by lia.
      destruct (to_string_u128_spec (0 - v)) as (s & -> & HD & HV & HL); [lia |]. eexists. split; [done |]. exists s.
      replace (Z.abs v) with (0 - v) by lia. done.
    + rewrite wrap_small by lia. destruct (to_string_u128_spec v) as (s & -> & HD & HV & HL); [lia |]. eexists. split; [done |].
      exists s. rewrite Z.abs_eq by lia. done.
  - destruct (double_text_ok d Ha) as (s & -> & HT). by exists s.
Qed.

Lemma prints_size a s : prints a s -> len s <= arg_size a.
Proof.
  destruct a as [t | c | b | t v | v | v | d]; cbn [prints arg_size];
    try (intros (ds & -> & _ & _ & HL); rewrite length_app; destruct (v <? 0); cbn [length]; lia); try lia.
  - by intros ->.
  - intros ->. cbn. lia.
  - intros ->. destruct b; cbn; lia.
Qed.

Lemma print_prints args : forall info a, arg_printable a -> Forall arg_printable args ->
  exists ts, Forall2 prints (a :: args) ts /\ print info a args = Ok (info ++ spaced ts).
Proof.
  induction args as [|b args IH]; intros info a Ha HF; cbn [print].
  - destruct (print_one_prints info a Ha) as (s & -> & Hs). exists [s]. split; [by repeat constructor | done].
  - apply Forall_cons in HF as [Hb HF]. destruct (print_one_prints info a Ha) as (s & -> & Hs). cbn [mbind res_bind print_one].
    destruct (IH ((info ++ s) ++ [32]) b Hb HF) as (ts & HT & ->). exists (s :: ts). split; [by constructor |].
    destruct ts as [|t ts]; [by apply Forall2_cons_nil_inv in HT |]. cbn [spaced]. by rewrite <- !app_assoc.
Qed.

Lemma spaced_size args ts : Forall2 prints args ts -> len (spaced ts) <= args_size args.
Proof.
  induction 1 as [|a t args ts Hp HF IH]; [done |]. apply prints_size in Hp. cbn [args_size foldr]. fold (args_size args).
  destruct ts as [|u ts]; cbn [spaced] in *; [cbn in IH; lia |]. rewrite length_app. cbn [length]. lia.
Qed.

Lemma c_str_split s : exists behind, s ++ [0] = c_str s ++ 0 :: behind /\ Forall (fun c => c <> 0) (c_str s).
Proof.
  induction s as [|c s (behind & E & HF)]; [by exists [] |]. cbn [app c_str]. destruct (Z.eqb_spec c 0) as [-> |].
  - exists (s ++ [0]). by split.
  - exists behind. rewrite E. split; [done | by constructor].
Qed.

Lemma c_str_length s : len (c_str s) <= len s.
Proof. induction s as [|c s IH]; [done |]. cbn [c_str]. destruct (c =? 0); cbn [length] in *; lia. Qed.

(** What [printf] makes of the text of a line. *)
Lemma printf_line info : len info < 2 ^ 31 - 2 ->
  printf (replicate 1024 0) [37; 115; 9; 10; 0] [VString (info ++ [0])]
  = Ok (ztake 1023 (c_str info ++ [9; 10]), len (c_str info) + 2).
Proof.
  intros HL. destruct (c_str_split info) as (behind & E & H0). pose proof (c_str_length info) as HC. rewrite E.
  pose proof (pieces_text [PString plain (c_str info) behind; PrintfText.PChar 9; PrintfText.PChar 10]) as HT.
  assert (flat_map piece_text [PString plain (c_str info) behind; PrintfText.PChar 9; PrintfText.PChar 10]
          = c_str info ++ [9; 10]) as ET.
  { cbn [flat_map piece_text]. change (pad_text plain (match d_prec plain with Some p => ztake p (c_str info) | None => c_str info end))
      with (spaces (0 - len (c_str info)) ++ c_str info).
    unfold spaces. by replace (Z.to_nat (0 - len (c_str info))) with 0%nat by lia. }
  rewrite ET in HT. assert (len (c_str info ++ [9; 10]) = len (c_str info) + 2) as EL by (rewrite length_app; cbn [length]; lia).
  rewrite <- EL. apply printf_output; [| | lia | reflexivity].
  - apply HT; [| lia]. repeat constructor; try done; lia.
  - apply Forall_app. split; [done | by repeat constructor].
Qed.

Lemma println_line a args : Forall arg_printable (a :: args) -> args_size (a :: args) < 2 ^ 31 - 2 ->
  exists ts, Forall2 prints (a :: args) ts /\
    println false a args = Ok (ztake 1023 (c_str (spaced ts) ++ [9; 10])).
Proof.
  intros HF HS. apply Forall_cons in HF as [Ha HF]. destruct (print_prints args [] a Ha HF) as (ts & HT & E).
  exists ts. split; [done |]. apply spaced_size in HT. unfold println. rewrite E. cbn [mbind res_bind app].
  by rewrite printf_line by lia.
Qed.

(** C16. A line of debug output: every argument as text - numbers as decimal digits behind
    their sign, whichever library makes them - with a space between two, up to the first zero
    character, a tab and the end of the line, and of that the first 1023 characters: a longer
    line loses its end. *)
Theorem println_prints (a : print_arg) (args : list print_arg) :
  Forall arg_printable (a :: args) -> args_size (a :: args) < 2 ^ 31 - 2 ->
  exists ts, Forall2 prints (a :: args) ts /\
    println false a args = Ok (ztake 1023 (c_str (spaced ts) ++ [9; 10])).
Proof. apply println_line. Qed.

Lemma println_prints_witness :
  exists ts, Forall2 prints [PText [97]; PNumber T_int (-10); PSigned 7; PDouble (SFdiv 53 1024 (dbl 3) (dbl 2))] ts /\
    println false (PText [97]) [PNumber T_int (-10); PSigned 7; PDouble (SFdiv 53 1024 (dbl 3) (dbl 2))]
    = Ok (ztake 1023 (c_str (spaced ts) ++ [9; 10])).
Proof.
  apply println_prints; [| vm_compute; reflexivity]. repeat constructor; try (cbn; lia).
  exists 1, 500000. vm_compute. reflexivity.
Defined.

Example println_sample :
  println false (PText [97]) [PNumber T_int (-10); PBool true; PDouble (SFdiv 53 1024 (dbl 3) (dbl 2))]
  = Ok [97; 32; 45; 49; 48; 32; 116; 114; 117; 101; 32; 49; 46; 53; 48; 48; 48; 48; 48; 9; 10].
Proof. vm_compute. reflexivity. Qed.
