(* ===== verification/Chain.v ===== *)
(** * chain_impl.hpp, panic.hpp, assert.hpp, abort.cpp: the chain seen from a contract

    The wrappers around the chain's functions: each gives the chain an array on the stack
    and makes a value of the library of what the chain wrote there. The functions
    themselves, declared in [src/libraries/platonlib/include/platon/chain.hpp], belong to
    the chain and are the class [HostChain]. *)

From S2P Require Import StdString Prelude Common Exchange FixedHash Print.

(** ** Definitions *)

(** [W] is the state of the chain. A function with an output array gives the bytes it
    writes from the start of that array. *)
Class HostChain (W : Type) := {
  (** The length returned and the bytes written. *)
  host_gas_price : W -> Z * bytes;
  host_call_value : W -> Z * bytes;
  host_balance : W -> bytes -> Z * bytes;
  host_timestamp : W -> Z;
  host_block_hash : W -> Z -> bytes;
  host_coinbase : W -> bytes;
  (** The hash of a byte string, for a destination of a given length. *)
  host_sha3 : bytes -> Z -> bytes;
  host_ripemd160 : bytes -> bytes;
  host_sha256 : bytes -> bytes;
  (** The hash and the bytes of the signature; a status and the address, if written. *)
  host_ecrecover : bytes -> bytes -> Z * bytes;
  host_destroy : W -> bytes -> Z * W;
  host_debug : W -> bytes -> W
}.

(** The chain writes into an array of the contract. *)
Definition fill (array written : bytes) : res bytes :=
  if len written <=? len array then Ok (written ++ zdrop (len written) array)
  else Undef "write past the array".

(** [fromBigEndian<u128>(bytesRef(array, len))]. *)
Definition array_number (array : bytes) (answer : Z * bytes) : res Z :=
  let '(n, written) := answer in
  buf ← fill array written;
  if n <=? len buf then Ok (fromBigEndian 128 (ztake n buf)) else Undef "read past the array".

Section Chain.
Context {W : Type} `{HostChain W}.

(** [array] is what the stack holds where the local array is. *)
Definition platon_gas_price (w : W) (array : bytes) : res Z := array_number array (host_gas_price w).
Definition platon_call_value (w : W) (array : bytes) : res Z := array_number array (host_call_value w).
Definition platon_balance (w : W) (addr array : bytes) : res Z :=
  balance ← array_number array (host_balance w addr); Ok (Energon balance).

(** Integer division truncates towards zero. *)
Definition platon_unix_timestamp (w : W) : Z := Z.quot (host_timestamp w) 1000.

Definition platon_block_hash (w : W) (num : Z) (array : bytes) : res bytes :=
  hash ← fill array (host_block_hash w num); hash_of_memory 32 hash 32.
Definition platon_coinbase (w : W) (array : bytes) : res bytes :=
  hash ← fill array (host_coinbase w); hash_of_memory 20 hash 20.
Definition platon_sha3 (data array : bytes) : res bytes :=
  hash ← fill array (host_sha3 data 32); hash_of_memory 32 hash 32.

(** The parameter [sig_len] of the chain's function has 8 bits. *)
Definition platon_ecrecover (hash signature result : bytes) : res (Z * bytes) :=
  let '(ret, addr) := host_ecrecover hash (ztake (wrap 8 (len signature)) signature) in
  result' ← fill result addr;
  Ok (ret, result').

Definition platon_ripemd160 (data result : bytes) : res bytes := fill result (host_ripemd160 data).
Definition platon_sha256 (data result : bytes) : res bytes := fill result (host_sha256 data).

Definition platon_debug (w : W) (data : bytes) : W := host_debug w data.

Definition platon_destroy (w : W) (addr : bytes) : bool * W :=
  let '(status, w') := host_destroy w addr in (status =? 0, w').

(** *** Ends of a transaction: the log and how it ended

    A message is an array of characters up to its first zero. *)

Definition internal_platon_throw (ndebug : bool) (w : W) (msg : bytes) : W * res unit :=
  (if ndebug then w else host_debug w (c_str msg), platon_throw "platon_throw").

Definition platon_abort (w : W) (test : Z) (msg : bytes) : W * res unit :=
  if test =? 0 then (host_debug w (c_str msg), platon_throw "platon_abort") else (w, Ok tt).

(** The texts of [assert_aux]: Assertion failed: func: line: file: *)
Definition assertion_failed : bytes :=
  [65; 115; 115; 101; 114; 116; 105; 111; 110; 32; 102; 97; 105; 108; 101; 100; 58].
Definition func_text : bytes := [102; 117; 110; 99; 58].
Definition line_text : bytes := [108; 105; 110; 101; 58].
Definition file_text : bytes := [102; 105; 108; 101; 58].

Definition assert_aux (ndebug : bool) (w : W) (cond : bool) (condStr : bytes) (line : Z)
    (file func : bytes) (args : list print_arg) : W * res unit :=
  if cond then (w, Ok tt)
  else
    match println ndebug (PText assertion_failed)
            ([PText (c_str condStr); PText func_text; PText (c_str func); PText line_text;
              PNumber T_unsigned line; PText file_text; PText (c_str file)] ++ args) with
    | Ok info => ((if ndebug then w else host_debug w info), platon_assert false "assertion")
    | Panic m => (w, Panic m)
    | Revert m => (w, Revert m)
    | Undef m => (w, Undef m)
    | Fuel => (w, Fuel)
    end.

(** [platon_assert_eq] and [platon_assert_ne]. *)
Definition platon_assert_eq {A} (eqb : A -> A -> bool) (ndebug : bool) (w : W) (a b : A)
    (condStr : bytes) (line : Z) (file func : bytes) (args : list print_arg) : W * res unit :=
  assert_aux ndebug w (eqb a b) condStr line file func args.
Definition platon_assert_ne {A} (neb : A -> A -> bool) (ndebug : bool) (w : W) (a b : A)
    (condStr : bytes) (line : Z) (file func : bytes) (args : list print_arg) : W * res unit :=
  assert_aux ndebug w (neb a b) condStr line file func args.
End Chain.

(** *** Specification *)

(** What the comments of chain.hpp say of an amount: its big-endian bytes, at most 16,
    and their number. *)
Definition big_endian_answer (answer : Z * bytes) (v : Z) : Prop :=
  0 <= v < 2 ^ 128 /\ fst answer = len (snd answer) /\ len (snd answer) <= 16 /\
  bytes_ok (snd answer) /\ be_value (snd answer) = v.

(** ** Properties *)

Section ChainFacts.
Context {W : Type} `{HostChain W}.

Lemma fill_same_length array written : len written = len array -> fill array written = Ok written.
Proof.
  intros E. unfold fill. rewrite E, Z.leb_refl. by rewrite zdrop_all, app_nil_r by lia.
Qed.

Lemma array_number_value array answer v :
  len array = 16 -> big_endian_answer answer v -> array_number array answer = Ok v.
Proof.
  destruct answer as [n b]. unfold big_endian_answer. cbn [fst snd]. intros Ha (Hv & -> & Hl & Hb & HE). unfold array_number, fill.
  destruct (Z.leb_spec (len b) (len array)); [| lia]. cbn [mbind res_bind].
  rewrite length_app, Nat2Z.inj_add. destruct (Z.leb_spec (len b) (len b + len (zdrop (len b) array))); [| lia].
  rewrite ztake_app_exact, fromBigEndian_value, HE by (done || lia). by rewrite Z.mod_small.
Qed.

(** Amounts come from the chain unharmed, whatever the stack held before: the gas
    price, the value of the call and a balance are the numbers whose big-endian bytes the
    chain wrote. *)
Theorem amounts_read (w : W) (addr array : bytes) (price value balance : Z) :
  len array = 16 -> big_endian_answer (host_gas_price w) price ->
  big_endian_answer (host_call_value w) value -> big_endian_answer (host_balance w addr) balance ->
  platon_gas_price w array = Ok price /\ platon_call_value w array = Ok value /\
  platon_balance w addr array = Ok balance.
Proof.
  intros Ha Hp Hv Hb. unfold platon_gas_price, platon_call_value, platon_balance.
  rewrite (array_number_value array _ price), (array_number_value array _ value),
    (array_number_value array _ balance) by done.
  split_and!; try done. cbn [mbind res_bind]. unfold Energon. f_equal. apply wrap_small. apply Hb.
Qed.

(** An amount of more than 16 bytes is written past the array. *)
Lemma amount_overrun (w : W) array :
  len array = 16 -> 16 < len (snd (host_gas_price w)) ->
  platon_gas_price w array = Undef "write past the array".
Proof.
  intros Ha Hl. unfold platon_gas_price, array_number, fill. destruct (host_gas_price w) as [n b].
  cbn in Hl. by destruct (Z.leb_spec (len b) (len array)); [lia |].
Qed.

(** Hashes and addresses are the bytes the chain wrote. *)
Lemma hashes_read (w : W) (num : Z) (data array32 array20 : bytes) :
  len array32 = 32 -> len array20 = 20 -> len (host_block_hash w num) = 32 ->
  len (host_sha3 data 32) = 32 -> len (host_coinbase w) = 20 ->
  platon_block_hash w num array32 = Ok (host_block_hash w num) /\
  platon_sha3 data array32 = Ok (host_sha3 data 32) /\
  platon_coinbase w array20 = Ok (host_coinbase w).
Proof.
  intros H1 H2 H3 H4 H5. unfold platon_block_hash, platon_sha3, platon_coinbase.
  rewrite !fill_same_length by congruence. cbn [mbind res_bind]. unfold hash_of_memory.
  rewrite H3, H4, H5. cbn [Z.ltb Z.compare Z.leb Pos.compare Pos.compare_cont].
  change (Z.to_nat (32 - 32)) with 0%nat. change (Z.to_nat (20 - 20)) with 0%nat.
  cbn [replicate]. rewrite !app_nil_r, !ztake_all by lia. done.
Qed.

(** The second of a timestamp in milliseconds. *)
Lemma unix_timestamp_second (w : W) :
  0 <= host_timestamp w ->
  platon_unix_timestamp w * 1000 <= host_timestamp w < (platon_unix_timestamp w + 1) * 1000.
Proof.
  intros Ht. unfold platon_unix_timestamp. rewrite Z.quot_div_nonneg by lia.
  pose proof (Z.div_mod (host_timestamp w) 1000 ltac:(lia)).
  pose proof (Z.mod_pos_bound (host_timestamp w) 1000 ltac:(lia)). lia.
Qed.

(** The length of a signature loses all but its lowest 8 bits on the way to the chain:
    of a signature with 256 bytes more the chain checks the beginning only, so everybody
    can make another signature, as valid as the first, by appending bytes. *)
Theorem ecrecover_ignores_tail (hash signature tail result : bytes) (k : Z) :
  len signature < 256 -> 0 <= k -> len tail = 256 * k ->
  platon_ecrecover hash (signature ++ tail) result = platon_ecrecover hash signature result.
Proof.
  intros Hs Hk Ht. unfold platon_ecrecover.
  assert (wrap 8 (len signature) = len signature) as -> by (apply wrap_small; lia).
  assert (wrap 8 (len (signature ++ tail)) = len signature) as ->.
  { rewrite length_app, Nat2Z.inj_add, Ht. unfold wrap. change (2 ^ 8) with 256.
    rewrite Z.mul_comm, Z.mod_add by lia. apply Z.mod_small. lia. }
  by rewrite ztake_app_exact, ztake_all by lia.
Qed.

(** The arguments of the line a failed assertion prints. *)
Definition assertion_args (condStr : bytes) (line : Z) (file func : bytes) (args : list print_arg) : list print_arg :=
  [PText assertion_failed; PText (c_str condStr); PText func_text; PText (c_str func); PText line_text;
   PNumber T_unsigned line; PText file_text; PText (c_str file)] ++ args.

(** A failed assertion ends the transaction with a revert in every build, whatever it
    prints; a true one does nothing. In a debug build the log gets one line: the texts of the
    arguments, of which the first is the fixed one, cut to 1023 characters. *)
Theorem assertion_reverts (ndebug : bool) (w : W) (cond : bool) (condStr : bytes) (line : Z)
    (file func : bytes) (args : list print_arg) :
  0 <= line < 2 ^ 32 -> Forall arg_printable args ->
  args_size (assertion_args condStr line file func args) < 2 ^ 31 - 2 ->
  if cond then assert_aux ndebug w cond condStr line file func args = (w, Ok tt)
  else exists ts, Forall2 prints (assertion_args condStr line file func args) (assertion_failed :: ts) /\
    assert_aux ndebug w cond condStr line file func args =
    (if ndebug then w else host_debug w (ztake 1023 (c_str (spaced (assertion_failed :: ts)) ++ [9; 10])), Revert "assertion").
Proof.
  intros Hl HF HS. destruct cond; [done |].
  assert (Forall arg_printable (assertion_args condStr line file func args)) as HP.
  { apply Forall_app. split; [repeat (constructor; [cbn; (exact I || lia) |]); constructor | done]. }
  destruct (println_line _ _ HP HS) as (ts & HT & E). destruct ts as [|t ts]; [by apply Forall2_cons_nil_inv in HT |].
  pose proof (proj1 (proj1 (Forall2_cons _ _ _ _ _) HT)) as H1. cbn [prints] in H1. subst t.
  exists ts. split; [done |]. unfold assert_aux. destruct ndebug; [done |].
  unfold assertion_args in E. cbn [app] in E. cbn [app]. by rewrite E.
Qed.
End ChainFacts.

(** *** A chain, for concrete runs *)

(** The state is the log of messages. *)
#[local] Instance sample_chain : HostChain (list bytes) := {|
  host_gas_price _ := (2, [1; 0]);
  host_call_value _ := (0, []);
  host_balance _ addr := (1, [len addr]);
  host_timestamp _ := 1600000000123;
  host_block_hash _ _ := replicate 32 7;
  host_coinbase _ := replicate 20 9;
  host_sha3 b n := replicate (Z.to_nat n) (len b mod 256);
  host_ripemd160 b := replicate 20 (len b mod 256);
  host_sha256 b := replicate 32 (len b mod 256);
  host_ecrecover _ sig := (if len sig =? 65 then (0, replicate 20 1) else (-1, []));
  host_destroy w _ := (0, w);
  host_debug w msg := msg :: w
|}.

Lemma amounts_read_witness :
  platon_gas_price ([] : list bytes) (replicate 16 255) = Ok 256 /\
  platon_call_value ([] : list bytes) (replicate 16 255) = Ok 0 /\
  platon_balance ([] : list bytes) (replicate 20 3) (replicate 16 255) = Ok 20.
Proof.
  apply amounts_read; [reflexivity | | |];
    (unfold big_endian_answer; cbn; split_and!; try lia; repeat constructor; unfold is_byte; lia).
Defined.

Lemma ecrecover_ignores_tail_witness :
  let sig := replicate 65 5 in
  platon_ecrecover (W := list bytes) [] (sig ++ replicate 256 8) (replicate 20 0)
  = platon_ecrecover (W := list bytes) [] sig (replicate 20 0).
Proof. intros sig. apply (ecrecover_ignores_tail _ _ _ _ 1); [reflexivity | lia | reflexivity]. Defined.

Lemma assertion_reverts_witness :
  exists ts, Forall2 prints (assertion_args [97] 12 [98] [99] [PSigned (-5)]) (assertion_failed :: ts) /\
    assert_aux false ([] : list bytes) false [97] 12 [98] [99] [PSigned (-5)]
    = (host_debug [] (ztake 1023 (c_str (spaced (assertion_failed :: ts)) ++ [9; 10])), Revert "assertion").
Proof.
  apply (assertion_reverts false ([] : list bytes) false [97] 12 [98] [99] [PSigned (-5)]);
    [lia | repeat constructor; cbn; lia | vm_compute; reflexivity].
Defined.
