(* ===== verification/Event.v ===== *)
(** * event.hpp: events

    An event has a name, up to three indexed topics and any arguments. Topics of more
    than 32 bytes are replaced by their hash. A value comes with its C++ type [ty], which
    selects the overload. *)

From S2P Require Import Prelude Common RlpSpec HostRlp RlpStream RlpSize Serialize SerializeFacts CppTypes.
From S2P Require Import FixedHash.

(** ** Definitions *)

Section Event.
Context `{HostRLP}.

(** The chain's hash function at 32 bytes, and its log of events: topics, arguments. *)
Context (platon_sha3 : bytes -> bytes) {W : Type} (host_event : W -> bytes -> bytes -> W).

(** What a topic is converted to: a number is sent as it is, all else as bytes. *)
Inductive topic_data :=
| DNumber (t : ty) (v : val t)
| DBytes (b : bytes).

(** [event_bytes_data_convert]; the elements of the container as bytes. *)
Definition event_bytes_data_convert (data : list Z) : bytes :=
  let result := wrap 8 <$> data in
  if Z.of_nat (length result) <=? 32 then result else platon_sha3 result.

Definition event_other_data_convert (t : ty) (data : val t) : res bytes :=
  size ← pack_size (codec_of t) data;
  stream ← put (codec_of t) (stream_reserve stream_new size) data;
  result ← stream_out stream;
  if 32 <? Z.of_nat (length result) then Ok (platon_sha3 result) else Ok result.

(** [dispatch_convert] of a C string. *)
Definition event_cstring_convert (one_data : bytes) : bytes :=
  let result := c_str one_data in
  if Z.of_nat (length result) <=? 32 then result else platon_sha3 result.

(** Whether the elements of a container are [int8_t] or [uint8_t], and its values. *)
Definition byte_elements (t : ty) : option (list (val t) -> list Z) :=
  match t return option (list (val t) -> list Z) with
  | TUint W8 => Some (fun l => l)
  | TInt W8 => Some (fun l => l)
  | _ => None
  end.

(** The overload of [dispatch_convert] for a type: arrays, vectors and lists of 8-bit
    integers, hashes and strings are bytes already. *)
Definition event_data_convert (t : ty) : val t -> res topic_data :=
  let other t v := b ← event_other_data_convert t v; Ok (DBytes b) in
  let elements t (container : ty) (v : list (val t)) (rest : res topic_data) :=
    match byte_elements t with
    | Some f => Ok (DBytes (event_bytes_data_convert (f v)))
    | None => rest
    end in
  match t return val t -> res topic_data with
  | TBool => fun v => Ok (DNumber TBool v)
  | TUint w => fun v => Ok (DNumber (TUint w) v)
  | TInt w => fun v => Ok (DNumber (TInt w) v)
  | TFloat => fun v => Ok (DNumber TFloat v)
  | TDouble => fun v => Ok (DNumber TDouble v)
  | TBytes | TString | TFixedHash _ => fun v => Ok (DBytes (event_bytes_data_convert v))
  | TVector t' => fun v => elements t' (TVector t') v (other (TVector t') v)
  | TList t' => fun v => elements t' (TList t') v (other (TList t') v)
  | TArray N t' => fun v => elements t' (TArray N t') v (other (TArray N t') v)
  | t => other t
  end.

Definition topic_put (s : RLPStream) (d : topic_data) : res RLPStream :=
  match d with DNumber t v => put (codec_of t) s v | DBytes b => put c_bytes s b end.

Definition topic_measure (r : RLPSize) (d : topic_data) : res RLPSize :=
  match d with DNumber t v => measure (codec_of t) r v | DBytes b => measure c_bytes r b end.

(** [event_args]: the arguments as one tuple. *)
Definition event_args (stream : RLPStream) (ts : tys) (args : vals ts) : res RLPStream :=
  size ← pack_size (codec_of (TTuple ts)) args;
  put (codec_of (TTuple ts)) (stream_reserve stream size) args.

Definition emit_event (w : W) (ts : tys) (args : vals ts) : res W :=
  stream ← event_args stream_new ts args;
  topic_data ← stream_out stream;
  Ok (host_event w [] topic_data).

(** The common end of [emit_event0] to [emit_event3]: a list of as many items as there
    are, the topics, the arguments. *)
Definition emit_topics (w : W) (topics : list topic_data) (ts : tys) (args : vals ts) : res W :=
  stream ← appendList stream_new (Z.of_nat (length topics));
  rlps ← size_elements topic_measure topics size_new;
  stream1 ← put_elements topic_put (stream_reserve stream (rs_size_ rlps)) topics;
  topic_data ← stream_out stream1;
  args_stream ← event_args stream_new ts args;
  args_data ← stream_out args_stream;
  Ok (host_event w topic_data args_data).

Definition emit_event0 (w : W) (name : bytes) (ts : tys) (args : vals ts) : res W :=
  event_sign ← event_data_convert TString name;
  emit_topics w [event_sign] ts args.

Definition emit_event1 (w : W) (name : bytes) (t1 : ty) (topic1 : val t1) (ts : tys) (args : vals ts)
    : res W :=
  event_sign ← event_data_convert TString name;
  topic1_data ← event_data_convert t1 topic1;
  emit_topics w [event_sign; topic1_data] ts args.

Definition emit_event2 (w : W) (name : bytes) (t1 : ty) (topic1 : val t1) (t2 : ty) (topic2 : val t2)
    (ts : tys) (args : vals ts) : res W :=
  event_sign ← event_data_convert TString name;
  topic1_data ← event_data_convert t1 topic1;
  topic2_data ← event_data_convert t2 topic2;
  emit_topics w [event_sign; topic1_data; topic2_data] ts args.

Definition emit_event3 (w : W) (name : bytes) (t1 : ty) (topic1 : val t1) (t2 : ty) (topic2 : val t2)
    (t3 : ty) (topic3 : val t3) (ts : tys) (args : vals ts) : res W :=
  event_sign ← event_data_convert TString name;
  topic1_data ← event_data_convert t1 topic1;
  topic2_data ← event_data_convert t2 topic2;
  topic3_data ← event_data_convert t3 topic3;
  emit_topics w [event_sign; topic1_data; topic2_data; topic3_data] ts args.

(** *** Specification *)

(** At most 32 bytes as they are, more by their hash. *)
Definition short_or_hash (b : bytes) : bytes := if len b <=? 32 then b else platon_sha3 b.

(** The item a topic becomes. *)
Definition topic_item (t : ty) : val t -> item :=
  match t return val t -> item with
  | TBool => tree TBool
  | TUint w => tree (TUint w)
  | TInt w => tree (TInt w)
  | TFloat => tree TFloat
  | TDouble => tree TDouble
  | TBytes | TString | TFixedHash _ => fun v => Str (short_or_hash v)
  | TVector (TUint W8) | TList (TUint W8) | TArray _ (TUint W8) => fun v => Str (short_or_hash v)
  | TVector (TInt W8) | TList (TInt W8) | TArray _ (TInt W8) => fun v => Str (short_or_hash (wrap 8 <$> v))
  | t => fun v => Str (short_or_hash (enc (tree t v)))
  end.
End Event.

(** ** Properties *)

Section EventFacts.
Context `{HL : HostRLPLaws}.
Context (platon_sha3 : bytes -> bytes) {W : Type} (host_event : W -> bytes -> bytes -> W).

Definition hash_32 : Prop := forall m, length (platon_sha3 m) = 32%nat /\ bytes_ok (platon_sha3 m).
Context (HH : hash_32).

Definition topic_tree (d : topic_data) : item :=
  match d with DNumber t v => tree t v | DBytes b => Str b end.

(** Topics of bytes are short. *)
Definition topic_ok (d : topic_data) : Prop :=
  match d with DNumber t v => valid t v | DBytes b => bytes_ok b /\ len b <= 32 end.

Lemma short_or_hash_ok b : bytes_ok b -> bytes_ok (short_or_hash platon_sha3 b) /\ len (short_or_hash platon_sha3 b) <= 32.
Proof using HH.
  intros Hb. unfold short_or_hash. destruct (Z.leb_spec (len b) 32); [done |].
  destruct (HH b). split; [done | lia].
Qed.

Lemma bytes_topic l :
  topic_ok (DBytes (event_bytes_data_convert platon_sha3 l)) /\
  event_bytes_data_convert platon_sha3 l = short_or_hash platon_sha3 (wrap 8 <$> l).
Proof using HH.
  split; [| done]. apply short_or_hash_ok. apply Forall_fmap, Forall_forall. intros x _.
  cbn. apply (wrap_range 8 x). lia.
Qed.

Lemma wrap_bytes l : Forall (uint_valid 8) l -> wrap 8 <$> l = l.
Proof using Type.
  induction 1 as [|x l Hx _ IH]; [done |]. rewrite fmap_cons, IH, wrap_small; [done |].
  unfold uint_valid in Hx. lia.
Qed.

Lemma other_topic t v :
  valid t v -> cost (tree t v) < RLP_LIMIT ->
  event_other_data_convert platon_sha3 t v = Ok (short_or_hash platon_sha3 (enc (tree t v))) /\
  topic_ok (DBytes (short_or_hash platon_sha3 (enc (tree t v)))).
Proof using HL HH.
  intros Hv HB. pose proof (cost_ok _ (tree_leaves (c := codec_of t) v Hv) HB) as HI.
  split; [| apply short_or_hash_ok; by apply item_ok_bytes].
  unfold event_other_data_convert, pack_size. unfold RLP_LIMIT, SIZE_MAX in HB.
  destruct (measure_law (c := codec_of t) v Hv) as (n & _ & En & _). rewrite En by apply size_ok_new.
  cbn [mbind res_bind].
  destruct (put_law (c := codec_of t) v (stream_reserve stream_new (rs_size_ (size_bump size_new n)))
              empty_builder Hv) as (s1 & E1 & R1 & _).
  - apply reserve_represents, represents_new.
  - change (budget empty_builder) with 0. lia.
  - rewrite E1. cbn [mbind res_bind]. rewrite (stream_out_spec s1 _ R1).
    cbn [mbind res_bind add_item add_items b_open b_done empty_builder flat_map app]. rewrite app_nil_r.
    unfold short_or_hash. destruct (Z.ltb_spec 32 (len (enc (tree t v)))), (Z.leb_spec (len (enc (tree t v))) 32);
      (done || lia).
Qed.

(** Every topic is converted, to an item with a payload of at most 32 bytes unless it is
    a number. *)
Lemma topic_converts t v :
  valid t v -> cost (tree t v) < RLP_LIMIT ->
  exists d, event_data_convert platon_sha3 t v = Ok d /\ topic_tree d = topic_item platon_sha3 t v /\ topic_ok d.
Proof using HL HH.
  intros Hv HB.
  assert (forall l, exists d, Ok (DBytes (event_bytes_data_convert platon_sha3 l)) = Ok d /\
            topic_tree d = Str (short_or_hash platon_sha3 (wrap 8 <$> l)) /\ topic_ok d) as HInt.
  { intros l. destruct (bytes_topic l) as [HO E]. eexists. split; [done |]. split; [| done].
    cbn [topic_tree]. by rewrite E. }
  assert (forall l, Forall (uint_valid 8) l -> exists d, Ok (DBytes (event_bytes_data_convert platon_sha3 l)) = Ok d /\
            topic_tree d = Str (short_or_hash platon_sha3 l) /\ topic_ok d) as HUint.
  { intros l Hl. destruct (HInt l) as (d & H1 & H2 & H3). rewrite wrap_bytes in H2 by done. eauto. }
  assert (exists d, (b ← event_other_data_convert platon_sha3 t v; Ok (DBytes b)) = Ok d /\
            topic_tree d = Str (short_or_hash platon_sha3 (enc (tree t v))) /\ topic_ok d) as HO.
  { destruct (other_topic t v Hv HB) as [-> HO]. cbn [mbind res_bind]. eauto. }
  destruct t as [| w | w | | | | | N | t | t | N t | t | k v' | a b | ts | ts];
    cbn [event_data_convert topic_item] in *; try exact HO;
    try (eexists; split; [reflexivity | split; [reflexivity | exact Hv]]);
    try (apply HUint; apply Hv).
  all: destruct t; try exact HO; match goal with w : width |- _ => destruct w end; try exact HO;
    first [apply HInt | apply HUint, Hv].
Qed.

Lemma topic_put_spec d s b :
  topic_ok d -> represents s b -> budget b + cost (topic_tree d) < 2 ^ 32 ->
  exists s', topic_put s d = Ok s' /\ represents s' (add_item b (topic_tree d)) /\
             budget (add_item b (topic_tree d)) <= budget b + cost (topic_tree d).
Proof using HL.
  intros Hd HR HB. destruct d as [t v | l]; cbn [topic_put topic_tree topic_ok] in *.
  - by apply put_law.
  - destruct Hd as [Hl _]. by apply append_bytes_spec.
Qed.

Lemma topic_measure_spec d :
  topic_ok d -> exists n, forall r, size_ok r -> topic_measure r d = Ok (size_bump r n).
Proof using HL.
  destruct d as [t v | l]; cbn [topic_measure topic_ok].
  - intros Hv. destruct (measure_law (c := codec_of t) v Hv) as (n & _ & En & _). by exists n.
  - intros [Hl HL32]. assert (bytes_valid l) as Hv by (split; [done | lia]).
    destruct (measure_law (c := c_bytes) l Hv) as (n & _ & En & _). by exists n.
Qed.

Lemma topics_put_spec ds s b :
  Forall topic_ok ds -> represents s b -> budget b + total_cost (topic_tree <$> ds) < 2 ^ 32 ->
  exists s', put_elements topic_put s ds = Ok s' /\ represents s' (foldl add_item b (topic_tree <$> ds)).
Proof using HL.
  intros Hds. revert s b. induction Hds as [|d ds Hd _ IH]; intros s b HR HB; [by exists s |].
  rewrite fmap_cons in *. cbn [total_cost foldr put_elements foldl] in *. fold (total_cost (topic_tree <$> ds)) in HB.
  pose proof (total_cost_len (topic_tree <$> ds)).
  destruct (topic_put_spec d s b Hd HR) as (s1 & -> & HR1 & HB1); [lia |].
  cbn [mbind res_bind]. apply IH; [done | lia].
Qed.

Lemma topics_measure_spec ds r :
  Forall topic_ok ds -> size_ok r -> exists r', size_elements topic_measure ds r = Ok r'.
Proof using HL.
  intros Hds. revert r. induction Hds as [|d ds Hd _ IH]; intros r Hr; [by exists r |].
  cbn [size_elements]. destruct (topic_measure_spec d Hd) as [n En]. rewrite En by done.
  cbn [mbind res_bind]. apply IH. by apply size_ok_bump.
Qed.

Lemma event_args_spec ts args :
  valid (TTuple ts) args -> cost (Lst (trees ts args)) < RLP_LIMIT ->
  exists s, event_args stream_new ts args = Ok s /\ stream_out s = Ok (enc (Lst (trees ts args))).
Proof using HL.
  intros Ha HB. unfold event_args, pack_size. unfold RLP_LIMIT, SIZE_MAX in HB.
  destruct (measure_law (c := codec_of (TTuple ts)) args Ha) as (n & _ & En & _).
  rewrite En by apply size_ok_new. cbn [mbind res_bind].
  destruct (put_law (c := codec_of (TTuple ts)) args (stream_reserve stream_new (rs_size_ (size_bump size_new n)))
              empty_builder Ha) as (s1 & E1 & R1 & _).
  - apply reserve_represents, represents_new.
  - change (budget empty_builder) with 0. cbn [tree]. lia.
  - exists s1. split; [done |]. rewrite (stream_out_spec s1 _ R1). cbn. by rewrite app_nil_r.
Qed.

Lemma emit_topics_spec w ds ts args :
  Forall topic_ok ds -> ds <> [] -> cost (Lst (topic_tree <$> ds)) < RLP_LIMIT ->
  valid (TTuple ts) args -> cost (Lst (trees ts args)) < RLP_LIMIT ->
  emit_topics host_event w ds ts args
  = Ok (host_event w (enc (Lst (topic_tree <$> ds))) (enc (Lst (trees ts args)))).
Proof using HL.
  intros Hds Hne HB Ha HBa. unfold emit_topics. rewrite cost_list in HB. unfold RLP_LIMIT, SIZE_MAX in HB.
  pose proof (total_cost_len (topic_tree <$> ds)) as HLen.
  destruct (appendList_spec stream_new empty_builder (len ds) represents_new) as (s1 & -> & HR1 & HB1);
    [lia | change (budget empty_builder) with 0; lia |].
  cbn [mbind res_bind]. destruct (topics_measure_spec ds size_new Hds size_ok_new) as [r ->]. cbn [mbind res_bind].
  assert ((len ds =? 0) = false) as E0 by (apply Z.eqb_neq; destruct ds; [done | cbn; lia]).
  rewrite E0 in HR1, HB1. change (budget empty_builder) with 0 in HB1.
  destruct (topics_put_spec ds (stream_reserve s1 (rs_size_ r)) (open_list empty_builder (len ds)) Hds)
    as (s2 & -> & HR2); [by apply reserve_represents | lia |].
  cbn [mbind res_bind]. rewrite <- (length_fmap topic_tree ds), open_list_full in HR2
    by (destruct ds; [done | by rewrite fmap_cons]).
  rewrite (stream_out_spec s2 _ HR2). cbn [mbind res_bind].
  destruct (event_args_spec ts args Ha HBa) as (s3 & -> & E3). cbn [mbind res_bind]. rewrite E3.
  cbn [mbind res_bind]. cbn [add_item add_items b_open b_done empty_builder flat_map app]. by rewrite app_nil_r.
Qed.

(** C31. Every event reaches the chain in its layout: the topics are the RLP list of the
    name and of the indexed values in order, each a number as it is encoded everywhere or
    at most 32 bytes (longer text and longer encodings by their hash), and the data is the
    RLP list of the arguments. *)
Theorem event_layout (w : W) (name : bytes) (t1 t2 t3 : ty) (v1 : val t1) (v2 : val t2) (v3 : val t3)
    (ts : tys) (args : vals ts) :
  bytes_valid name -> valid t1 v1 -> valid t2 v2 -> valid t3 v3 -> valid (TTuple ts) args ->
  cost (Lst [Str name; tree t1 v1; tree t2 v2; tree t3 v3]) < RLP_LIMIT ->
  cost (Lst (trees ts args)) < RLP_LIMIT ->
  let data := enc (Lst (trees ts args)) in
  let sign := topic_item platon_sha3 TString name in
  let i1 := topic_item platon_sha3 t1 v1 in
  let i2 := topic_item platon_sha3 t2 v2 in
  let i3 := topic_item platon_sha3 t3 v3 in
  cost (Lst [sign; i1; i2; i3]) < RLP_LIMIT ->
  emit_event host_event w ts args = Ok (host_event w [] data) /\
  emit_event0 platon_sha3 host_event w name ts args = Ok (host_event w (enc (Lst [sign])) data) /\
  emit_event1 platon_sha3 host_event w name t1 v1 ts args = Ok (host_event w (enc (Lst [sign; i1])) data) /\
  emit_event2 platon_sha3 host_event w name t1 v1 t2 v2 ts args
    = Ok (host_event w (enc (Lst [sign; i1; i2])) data) /\
  emit_event3 platon_sha3 host_event w name t1 v1 t2 v2 t3 v3 ts args
    = Ok (host_event w (enc (Lst [sign; i1; i2; i3])) data).
Proof using HL HH.
  intros Hn H1 H2 H3 Ha HB HBa data sign i1 i2 i3 HBi. rewrite cost_list in HB, HBi. cbn [total_cost foldr] in HB, HBi.
  pose proof (cost_pos (Str name)). pose proof (cost_pos (tree t1 v1)).
  pose proof (cost_pos (tree t2 v2)). pose proof (cost_pos (tree t3 v3)).
  destruct (topic_converts TString name Hn) as (d0 & E0 & T0 & O0); [cbn [tree]; lia |].
  destruct (topic_converts t1 v1 H1) as (d1 & E1 & T1 & O1); [lia |].
  destruct (topic_converts t2 v2 H2) as (d2 & E2 & T2 & O2); [lia |].
  destruct (topic_converts t3 v3 H3) as (d3 & E3 & T3 & O3); [lia |].
  pose proof (cost_pos sign). pose proof (cost_pos i1). pose proof (cost_pos i2). pose proof (cost_pos i3).
  assert (forall ds, Forall topic_ok ds -> ds <> [] -> cost (Lst (topic_tree <$> ds)) < RLP_LIMIT ->
    emit_topics host_event w ds ts args = Ok (host_event w (enc (Lst (topic_tree <$> ds))) data)) as HE
    by (intros; by apply emit_topics_spec).
  unfold emit_event0, emit_event1, emit_event2, emit_event3.
  rewrite E0, E1, E2, E3. cbn [mbind res_bind].
  split_and!.
  - unfold emit_event. destruct (event_args_spec ts args Ha HBa) as (s & -> & Es). cbn [mbind res_bind]. by rewrite Es.
  - rewrite (HE [d0]); [| by repeat constructor | done |]; rewrite ?fmap_cons, ?T0; [done |].
    fold sign. rewrite cost_list. cbn [total_cost foldr fmap list_fmap]. lia.
  - rewrite (HE [d0; d1]); [| by repeat constructor | done |]; rewrite ?fmap_cons, ?T0, ?T1; [done |].
    fold sign i1. rewrite cost_list. cbn [total_cost foldr fmap list_fmap]. lia.
  - rewrite (HE [d0; d1; d2]); [| by repeat constructor | done |]; rewrite ?fmap_cons, ?T0, ?T1, ?T2; [done |].
    fold sign i1 i2. rewrite cost_list. cbn [total_cost foldr fmap list_fmap]. lia.
  - rewrite (HE [d0; d1; d2; d3]); [| by repeat constructor | done |]; rewrite ?fmap_cons, ?T0, ?T1, ?T2, ?T3; [done |].
    fold sign i1 i2 i3. rewrite cost_list. cbn [total_cost foldr fmap list_fmap]. lia.
Qed.
End EventFacts.

#[local] Existing Instance host_rlp.
#[local] Existing Instance host_rlp_laws.

(** An event with a number, a text of more than 32 characters and a vector as topics. *)
Lemma event_layout_witness :
  let sha := fun m : bytes => replicate 32 (len m mod 256) in
  let log := fun (w : list (bytes * bytes)) t a => (t, a) :: w in
  emit_event3 sha log [] [104; 105] (TUint W8) 7 TString (replicate 40 97) (TVector (TUint W16)) [1; 300]
    (TCons TBool TNil) (true, tt)
  = Ok [(enc (Lst [Str [104; 105]; int_item 7; Str (replicate 32 40);
                   Str (enc (Lst [int_item 1; int_item 300]))]),
         enc (Lst [int_item 1]))].
Proof.
  intros sha log.
  assert (hash_32 sha) as HH.
  { intros m. split; [reflexivity |]. apply Forall_replicate. apply Z.mod_pos_bound. lia. }
  destruct (event_layout sha log HH [] [104; 105] (TUint W8) TString (TVector (TUint W16))
              7 (replicate 40 97) [1; 300] (TCons TBool TNil) (true, tt)) as (_ & _ & _ & _ & E).
  - split; [apply (bool_decide_unpack _); reflexivity | vm_compute; reflexivity].
  - vm_compute. split; [discriminate | reflexivity].
  - split; [apply (bool_decide_unpack _); reflexivity | vm_compute; reflexivity].
  - repeat constructor; vm_compute; try discriminate.
  - split; exact I.
  - vm_compute. reflexivity.
  - vm_compute. reflexivity.
  - vm_compute. reflexivity.
  - exact E.
Defined.
