(* ===== verification/EventMacros.v ===== *)
(** * event.hpp: the macros that generate the methods of events

    [PLATON_EVENT0] to [PLATON_EVENT3] of
    [src/libraries/platonlib/include/platon/event.hpp] expand to a method with one
    parameter for each type given, which passes them all to [emit_event]. The expansion is
    a function from the macro's arguments to tokens: the macros count their arguments and
    number them by picking a position of a list. *)

From S2P Require Import Prelude.

Open Scope string_scope.

(** ** Definitions *)

Definition token : Type := string.

(** What an empty [__VA_ARGS__] is as an argument of another macro. *)
Definition va_args (args : list token) : list token :=
  match args with [] => [""] | _ => args end.

(** [M_CAT]: two tokens pasted into one. *)
Definition M_CAT (a b : token) : token := a ++ b.

(** [ARG_COUNT_P2_] and the token [N] that [ARG_COUNT_P1_] picks, the twelfth. *)
Definition ARG_COUNT_P2_ : list token :=
  ["10"; "9"; "8"; "7"; "6"; "5"; "4"; "3"; "2"; "1"; "0"].

Definition ARG_COUNT (args : list token) : option token := ("_" :: args ++ ARG_COUNT_P2_)%list !! 11%nat.

(** [ARG_POS_P2_k], and the token after the first k ones, which [ARG_POS_P1_k] picks;
    [ARG_POS_P1_1] is 1 for all arguments. *)
Definition ARG_POS_P2_ (k : nat) : list token :=
  match k with
  | 1%nat => ["1"]
  | _ => take (k - 1) ["2"; "3"; "4"; "5"; "6"; "7"; "8"; "9"; "10"]
  end.

Definition ARG_POS (k : nat) (args : list token) : option token :=
  match k with
  | 1%nat => Some "1"
  | _ => ("_" :: args ++ ARG_POS_P2_ k)%list !! k
  end.

(** The number of the macro that a pasted name such as [func3] or [ARG_POS3] stands for. *)
Definition numeral (n : token) : option nat :=
  fst <$> list_find (fun s => s = n) ["0"; "1"; "2"; "3"; "4"; "5"; "6"; "7"; "8"; "9"; "10"].

(** [M_CAT(ARG_POS, total)(args)]; there is no [ARG_POS0]. *)
Definition ARG_POS_total (total : token) (args : list token) : option token :=
  match numeral total with
  | Some 0%nat | None => None
  | Some k => ARG_POS k args
  end.

(** [params0] to [params10]: a comma and a name for each argument. *)
Fixpoint params_ (k : nat) (N total : token) (args : list token) : option (list token) :=
  match k, args with
  | 0%nat, [_] => Some []
  | 1%nat, [_] => Some [","; M_CAT "arg" N]
  | S k', _ :: rest =>
      match k' with
      | 0%nat => None
      | _ =>
          N' ← ARG_POS_total total rest;
          more ← params_ k' N' total (va_args rest);
          Some (([","; M_CAT "arg" N] ++ more)%list)
      end
  | _, _ => None
  end.

(** [_func0] to [_func10]: a comma, the type and a name for each argument. *)
Fixpoint _func (k : nat) (N total : token) (args : list token) : option (list token) :=
  match k, args with
  | 0%nat, [_] => Some []
  | 1%nat, [a] => Some [","; a; M_CAT "arg" N]
  | S k', a :: rest =>
      match k' with
      | 0%nat => None
      | _ =>
          N' ← ARG_POS_total total rest;
          more ← _func k' N' total (va_args rest);
          Some (([","; a; M_CAT "arg" N] ++ more)%list)
      end
  | _, _ => None
  end.

(** [func0] to [func10]: the same without the first comma. *)
Definition func (k : nat) (N total : token) (args : list token) : option (list token) :=
  match k, args with
  | 0%nat, [_] => Some []
  | 1%nat, [a] => Some [a; M_CAT "arg" N]
  | S (S _ as k'), a :: rest =>
      N' ← ARG_POS_total total rest;
      more ← _func k' N' total (va_args rest);
      Some (([a; M_CAT "arg" N] ++ more)%list)
  | _, _ => None
  end.

(** [M_CAT(func, ARG_COUNT(args))(1, ARG_COUNT(args), args)]; nothing where the pasted
    name is no macro, so that the text does not compile. *)
Definition counted (macro : nat -> token -> token -> list token -> option (list token))
    (args : list token) : option (list token) :=
  total ← ARG_COUNT args;
  k ← numeral total;
  macro k "1" total (va_args args).

Definition VA_F : list token -> option (list token) := counted func.
Definition _VA_F : list token -> option (list token) := counted _func.
Definition PA_F : list token -> option (list token) := counted params_.

(** [#NAME]. *)
Definition stringify (name : token) : token := "'" ++ name ++ "'".

(** The attributes [EVENT] to [EVENT3] of contract.hpp are left as names. *)
Definition PLATON_EVENT0 (NAME : token) (args : list token) : option (list token) :=
  f ← VA_F args;
  p ← PA_F args;
  Some (["EVENT"; "void"; NAME; "("] ++ f ++ [")"; "{"; "platon::emit_event0"; "("; stringify NAME]
        ++ p ++ [")"; ";"; "}"])%list.

Definition PLATON_EVENT1 (NAME TOPIC_TYPE : token) (args : list token) : option (list token) :=
  f ← _VA_F args;
  p ← PA_F args;
  Some (["EVENT1"; "void"; NAME; "("; TOPIC_TYPE; "topic"] ++ f
        ++ [")"; "{"; "platon::emit_event1"; "("; stringify NAME; ","; "topic"]
        ++ p ++ [")"; ";"; "}"])%list.

Definition PLATON_EVENT2 (NAME TOPIC_TYPE1 TOPIC_TYPE2 : token) (args : list token)
    : option (list token) :=
  f ← _VA_F args;
  p ← PA_F args;
  Some (["EVENT2"; "void"; NAME; "("; TOPIC_TYPE1; "topic1"; ","; TOPIC_TYPE2; "topic2"] ++ f
        ++ [")"; "{"; "platon::emit_event2"; "("; stringify NAME; ","; "topic1"; ","; "topic2"]
        ++ p ++ [")"; ";"; "}"])%list.

Definition PLATON_EVENT3 (NAME TOPIC_TYPE1 TOPIC_TYPE2 TOPIC_TYPE3 : token) (args : list token)
    : option (list token) :=
  f ← _VA_F args;
  p ← PA_F args;
  Some (["EVENT3"; "void"; NAME; "("; TOPIC_TYPE1; "topic1"; ","; TOPIC_TYPE2; "topic2"; ",";
         TOPIC_TYPE3; "topic3"] ++ f
        ++ [")"; "{"; "platon::emit_event3"; "("; stringify NAME; ","; "topic1"; ","; "topic2"; ",";
            "topic3"]
        ++ p ++ [")"; ";"; "}"])%list.

(** [__VA_ARGS__]: the arguments with the commas between them. *)
Fixpoint commas (l : list (list token)) : list token :=
  match l with
  | [] => []
  | [x] => x
  | x :: l' => (x ++ "," :: commas l')%list
  end.

(** [PLATON_EMIT_EVENT0] to [PLATON_EMIT_EVENT3]: the call of the method. *)
Definition PLATON_EMIT_EVENT (NAME : token) (args : list token) : list token :=
  ([NAME; "("] ++ commas ((fun a => [a]) <$> args) ++ [")"])%list.

(** *** Specification *)

(** A generated method: its attribute, its parameters with their types, the function it
    calls and the arguments it passes after the event's name. *)
Record method := mkMethod {
  attribute : token;
  parameters : list (token * token);
  emitter : token;
  passed : list token
}.

Definition method_text (NAME : token) (m : method) : list token :=
  ([attribute m; "void"; NAME; "("] ++ commas ((fun p => [fst p; snd p]) <$> parameters m)
   ++ [")"; "{"; emitter m; "("] ++ commas ((fun a => [a]) <$> (stringify NAME :: passed m))
   ++ [")"; ";"; "}"])%list.

Definition arg_names (n : nat) : list token :=
  take n ["arg1"; "arg2"; "arg3"; "arg4"; "arg5"; "arg6"; "arg7"; "arg8"; "arg9"; "arg10"].

(** The method of an event with these topics and argument types: it passes what it is
    given, in order. *)
Definition event_method (attr emit : token) (topics : list (token * token)) (types : list token) : method :=
  let ps := (topics ++ zip types (arg_names (length types)))%list in
  mkMethod attr ps emit (snd <$> ps).

(** ** Properties *)

Close Scope string_scope.

(** The macros generate the methods they are meant to: for up to ten types the method
    declares one parameter of each type, in order and with names of their own, after its
    topics, and passes every one of them, once and in that order, after the event's name. *)
Theorem event_macros (NAME T1 T2 T3 : token) (types : list token) :
  (length types <= 10)%nat ->
  PLATON_EVENT0 NAME types
    = Some (method_text NAME (event_method "EVENT" "platon::emit_event0" [] types)) /\
  PLATON_EVENT1 NAME T1 types
    = Some (method_text NAME (event_method "EVENT1" "platon::emit_event1" [(T1, "topic"%string)] types)) /\
  PLATON_EVENT2 NAME T1 T2 types
    = Some (method_text NAME (event_method "EVENT2" "platon::emit_event2"
        [(T1, "topic1"%string); (T2, "topic2"%string)] types)) /\
  PLATON_EVENT3 NAME T1 T2 T3 types
    = Some (method_text NAME (event_method "EVENT3" "platon::emit_event3"
        [(T1, "topic1"%string); (T2, "topic2"%string); (T3, "topic3"%string)] types)) /\
  NoDup (arg_names (length types)) /\ length (arg_names (length types)) = length types.
Proof.
  intros HL. do 11 (destruct types as [|? types]; [split_and!; try reflexivity;
    apply (bool_decide_unpack _); reflexivity |]). cbn in HL. lia.
Qed.

(** More than ten types do not compile, unless the eleventh is written as a number. *)
Lemma too_many_types NAME types t :
  (10 < length types)%nat -> types !! 10%nat = Some t -> numeral t = None ->
  PLATON_EVENT0 NAME types = None.
Proof.
  intros HL Ht Hn. do 11 (destruct types as [|? types]; [cbn in HL; lia |]).
  cbn in Ht. injection Ht as ->. unfold PLATON_EVENT0, VA_F, counted.
  match goal with |- context [ARG_COUNT ?l] => change (ARG_COUNT l) with (Some t) end.
  cbn [mbind option_bind]. by rewrite Hn.
Qed.

(** What the parameters stand for in a call with these values. *)
Definition bound {V} (m : method) (vs : list V) : gmap token V :=
  list_to_map (zip (snd <$> parameters m) vs).

Lemma passed_bound {V} (names : list token) (vs : list V) :
  NoDup names -> length names = length vs ->
  (fun a => (list_to_map (zip names vs) : gmap token V) !! a) <$> names = Some <$> vs.
Proof.
  intros HN HL. apply list_eq. intros i. rewrite !list_lookup_fmap.
  destruct (names !! i) as [a |] eqn:Ea.
  - destruct (lookup_lt_is_Some_2 vs i) as [v Hv]; [rewrite <- HL; by eapply lookup_lt_Some |].
    rewrite Hv. cbn. f_equal. apply elem_of_list_to_map_1.
    + by rewrite fst_zip by lia.
    + apply list_elem_of_lookup. exists i. apply lookup_zip_with_Some. by exists a, v.
  - apply lookup_ge_None in Ea. by rewrite (lookup_ge_None_2 vs) by lia.
Qed.

Lemma names_distinct n (topics : list token) :
  topics `sublist_of` ["topic"; "topic1"; "topic2"; "topic3"]%string ->
  NoDup (topics ++ arg_names n).
Proof.
  intros HS. eapply sublist_NoDup; [| apply sublist_app; [exact HS | apply sublist_take]].
  apply (bool_decide_unpack _). reflexivity.
Qed.

(** A call of a generated method passes the values it is called with, in order. *)
Lemma call_passes {V} attr emit topics types (vs : list V) :
  (length types <= 10)%nat ->
  snd <$> topics `sublist_of` ["topic"; "topic1"; "topic2"; "topic3"]%string ->
  length vs = length (parameters (event_method attr emit topics types)) ->
  (fun a => bound (event_method attr emit topics types) vs !! a)
    <$> passed (event_method attr emit topics types) = Some <$> vs.
Proof.
  intros HL HS HV. apply passed_bound; [| etransitivity; [apply length_fmap | by rewrite HV]].
  unfold event_method. cbn [parameters]. rewrite fmap_app, snd_zip.
  - by apply names_distinct.
  - unfold arg_names. rewrite length_take. cbn. lia.
Qed.

Lemma event_macros_witness :
  PLATON_EVENT1 "transfer" "Address" ["u128"%string; "bool"%string]
  = Some ["EVENT1"; "void"; "transfer"; "("; "Address"; "topic"; ","; "u128"; "arg1"; ","; "bool"; "arg2"; ")";
          "{"; "platon::emit_event1"; "("; "'transfer'"; ","; "topic"; ","; "arg1"; ","; "arg2"; ")"; ";";
          "}"]%string.
Proof.
  destruct (event_macros "transfer" "Address" "" "" ["u128"%string; "bool"%string]) as (_ & E & _);
    [cbn; lia | exact E].
Defined.
