(* ===== verification/HelloContract.v ===== *)
(** * example/contract.cpp: a contract on top of the library

    [hello] keeps a list of messages in a [StorageType], takes them through [PLATON_DISPATCH],
    reports calls by events. Its definitions compose the library's components the way the
    macros do; a session of transactions runs through the input of each call, the dispatcher,
    the persistent value and the events. *)

From S2P Require Import Prelude Common RlpSpec RlpReader RlpConvert HostRlp RlpStream RlpSize.
From S2P Require Import Serialize SerializeFacts CppTypes HostState Storage StorageType Name CrossCall.
From S2P Require Import Dispatcher FixedHash Event.

(** ** Definitions *)

(** [class message], with its head, and [class my_message], derived from it. *)
Definition message : ty := TStruct (TCons TString TNil).
Definition my_message : ty := TStruct (TCons message (TCons TString (TCons TString TNil))).

Definition make_message (p_head p_body p_end : bytes) : val my_message :=
  ((p_head, tt), (p_body, (p_end, tt))).

Definition messages : ty := TVector my_message.

Section Hello.
Context `{HostRLP, HostState}.
Context (platon_sha3 : bytes -> bytes) (host_event : world -> bytes -> bytes -> world).

(** The member [info], constructed with the object and stored at its end. *)
Definition info_name : Z := Name_hash [105; 110; 102; 111].
Definition hello : Type := StorageType (val messages).

Definition hello_construct (w : world) : res (hello * world) :=
  info ← storage_init (codec_of messages) w info_name [] []; Ok (info, w).
Definition hello_destroy (info : hello) (w : world) : res world :=
  storage_flush (codec_of messages) w info.

Definition push_back (m : val my_message) (info : hello) : hello :=
  storage_self info (fun l => l ++ [m]).

(** [PLATON_EVENT0(hello_event, std::string, std::string, uint32_t)]. *)
Definition hello_event (w : world) (arg1 arg2 : bytes) (arg3 : Z) : res world :=
  emit_event0 platon_sha3 host_event w [104; 101; 108; 108; 111; 95; 101; 118; 101; 110; 116]
    (TCons TString (TCons TString (TCons (TUint W32) TNil))) (arg1, (arg2, (arg3, tt))).

(** The names of the methods. *)
Definition n_init : bytes := [105; 110; 105; 116].
Definition n_add_message : bytes := [97; 100; 100; 95; 109; 101; 115; 115; 97; 103; 101].
Definition n_get_message : bytes := [103; 101; 116; 95; 109; 101; 115; 115; 97; 103; 101].
Definition n_hello_abort : bytes := [104; 101; 108; 108; 111; 95; 97; 98; 111; 114; 116].
Definition n_hello_panic : bytes := [104; 101; 108; 108; 111; 95; 112; 97; 110; 105; 99].

Definition with_message : tys := TCons my_message TNil.
Definition with_name : tys := TCons TString TNil.

Definition init : action (St := world) (T := hello) :=
  mkAction n_init (vals with_message) (fields_of with_message) unit None
    (fun info args w => Ok (tt, push_back (fst args) info, w)).

Definition add_message : action (St := world) (T := hello) :=
  mkAction n_add_message (vals with_message) (fields_of with_message) (val messages) (Some (codec_of messages))
    (fun info args w =>
       w1 ← hello_event w n_add_message [101; 118; 101; 110; 116; 49] 1;
       let info' := push_back (fst args) info in
       Ok (storage_get info', info', w1)).

Definition get_message : action (St := world) (T := hello) :=
  mkAction n_get_message (vals with_name) (fields_of with_name) (val messages) (Some (codec_of messages))
    (fun info args w =>
       w1 ← hello_event w n_get_message [101; 118; 101; 110; 116; 50] 2;
       Ok (storage_get info, info, w1)).

Definition hello_abort : action (St := world) (T := hello) :=
  mkAction n_hello_abort unit fields_nil unit None
    (fun info args w => _ ← platon_assert false "hello abort"; Ok (tt, info, w)).

Definition hello_panic : action (St := world) (T := hello) :=
  mkAction n_hello_panic unit fields_nil unit None (fun info args w => platon_throw "platon_panic").

(** [PLATON_DISPATCH(hello, (init)(add_message)(get_message)(hello_abort)(hello_panic))]. *)
Definition hello_actions : list action := [init; add_message; get_message; hello_abort; hello_panic].

Definition hello_invoke (input : bytes) (w : world) : res (option bytes * world) :=
  invoke hello_construct hello_destroy hello_actions input w.

(** *** Specification: transactions *)

Inductive call :=
| CInit (m : val my_message) | CAdd (m : val my_message) | CGet (name : bytes) | CAbort | CPanic.

(** The input of a call, as a caller makes it. *)
Definition call_input (c : call) : res bytes :=
  match c with
  | CInit m => cross_call_args (fields_of with_message) n_init (m, tt)
  | CAdd m => cross_call_args (fields_of with_message) n_add_message (m, tt)
  | CGet name => cross_call_args (fields_of with_name) n_get_message (name, tt)
  | CAbort => cross_call_args fields_nil n_hello_abort tt
  | CPanic => cross_call_args fields_nil n_hello_panic tt
  end.

(** The chain runs a transaction: a result, or none if it failed. *)
Context (transaction : world -> bytes -> option (option bytes) * world).

Fixpoint session (w : world) (cs : list call) : res (list (option (option bytes)) * world) :=
  match cs with
  | [] => Ok ([], w)
  | c :: cs' =>
      data ← call_input c;
      let '(r, w1) := transaction w data in
      '(rs, w2) ← session w1 cs';
      Ok (r :: rs, w2)
  end.

(** What the calls are to do: a list of messages and a log. *)
Definition event_of (arg1 arg2 : bytes) (arg3 : Z) : bytes * bytes :=
  (enc (Lst [Str [104; 101; 108; 108; 111; 95; 101; 118; 101; 110; 116]]),
   enc (Lst [Str arg1; Str arg2; int_item arg3])).

Definition answer (l : list (val my_message)) : option (option bytes) := Some (Some (enc (tree messages l))).

Definition ideal_call (l : list (val my_message)) (c : call)
    : option (option bytes) * list (val my_message) * list (bytes * bytes) :=
  match c with
  | CInit m => (Some None, l ++ [m], [])
  | CAdd m => (answer (l ++ [m]), l ++ [m], [event_of n_add_message [101; 118; 101; 110; 116; 49] 1])
  | CGet name => (answer l, l, [event_of n_get_message [101; 118; 101; 110; 116; 50] 2])
  | CAbort | CPanic => (None, l, [])
  end.

Fixpoint ideal_session (l : list (val my_message)) (cs : list call)
    : list (option (option bytes)) * list (val my_message) * list (bytes * bytes) :=
  match cs with
  | [] => ([], l, [])
  | c :: cs' =>
      let '(r, l1, es1) := ideal_call l c in
      let '(rs, l2, es2) := ideal_session l1 cs' in
      (r :: rs, l2, es1 ++ es2)
  end.

(** The messages that calls bring. *)
Definition brought (c : call) : list (val my_message) :=
  match c with CInit m | CAdd m => [m] | _ => [] end.
End Hello.

(** ** Properties *)

Section HelloFacts.
Context `{HL : HostRLPLaws, HS : HostStateLaws}.
Context (platon_sha3 : bytes -> bytes) (HH : hash_32 platon_sha3).
Context (host_event : world -> bytes -> bytes -> world).

(** Documented behaviour of the chain: events go to a log, which is not the state; a
    transaction that ends normally leaves what it did, another one nothing. *)
Context (log : world -> list (bytes * bytes)).
Context (event_contents : forall w t d k, contents (host_event w t d) k = contents w k).
Context (event_log : forall w t d, log (host_event w t d) = log w ++ [(t, d)]).
Context (state_log : forall w k v, log (platon_set_state w k v) = log w).

Context (transaction : world -> bytes -> option (option bytes) * world).
Definition chain_runs_hello : Prop :=
  forall w data,
    match hello_invoke platon_sha3 host_event data w with
    | Ok (out, w') => transaction w data = (Some out, w')
    | Panic _ | Revert _ => transaction w data = (None, w)
    | _ => True
    end.

Abbreviation valid_message := (valid my_message).
Abbreviation tree_of := (tree messages).

(** The list of messages in a state. *)
Definition holds (w : world) (l : list (val my_message)) : Prop :=
  exists o, has_value int_item (tree messages) (valid messages) w info_name o /\ default [] o = l.

Lemma info_name_valid : uint_valid 64 info_name.
Proof using Type. apply Name_hash_range. Qed.

Lemma construct_spec w l :
  holds w l -> hello_construct w = Ok (mkStorage info_name [] l, w).
Proof using HL HS.
  intros (o & Ho & <-). unfold hello_construct.
  by rewrite (init_at (codec_of messages) (tree messages) (valid messages) (sized messages) w info_name [] [] o)
    by (done || apply info_name_valid).
Qed.

Lemma destroy_spec w l :
  valid messages l -> cost (tree_of l) < RLP_LIMIT ->
  exists w', hello_destroy (mkStorage info_name [] l) w = Ok w' /\ holds w' l /\ log w' = log w /\
    forall k, k <> enc (int_item info_name) -> contents w' k = contents w k.
Proof using HL HS state_log.
  intros Hl HB. eexists. split; [| split; [| split]].
  - unfold hello_destroy, storage_flush. cbn [name_ t_].
    apply (set_state_spec (c_uint 64) (codec_of messages) int_item (uint_valid 64) anything (tree messages)
             (valid messages) (sized messages)); [apply info_name_valid | done | | done].
    apply name_cost, info_name_valid.
  - exists (Some l). split; [| done]. split; [done |]. rewrite set_law. by rewrite decide_True.
  - apply state_log.
  - intros k Hk. rewrite set_law. by rewrite decide_False.
Qed.

Lemma hello_event_spec w arg1 arg2 arg3 :
  bytes_valid arg1 -> bytes_valid arg2 -> uint_valid 32 arg3 ->
  cost (Lst [Str arg1; Str arg2; int_item arg3]) < RLP_LIMIT ->
  hello_event platon_sha3 host_event w arg1 arg2 arg3
  = Ok (host_event w (fst (event_of arg1 arg2 arg3)) (snd (event_of arg1 arg2 arg3))).
Proof using HL HH.
  intros H1 H2 H3 HB. unfold hello_event, emit_event0.
  set (name := [104; 101; 108; 108; 111; 95; 101; 118; 101; 110; 116]).
  destruct (topic_converts platon_sha3 HH TString name) as (d & E & T & Hd);
    [split; [apply (bool_decide_unpack _); reflexivity | vm_compute; reflexivity] | vm_compute; reflexivity |].
  rewrite E. cbn [mbind res_bind].
  assert (topic_tree d = Str name) as T'.
  { rewrite T. vm_compute. reflexivity. }
  rewrite emit_topics_spec; [| by apply Forall_singleton | done | | | done].
  - cbn [fmap list_fmap]. by rewrite T'.
  - cbn [fmap list_fmap]. rewrite T'. vm_compute. reflexivity.
  - repeat split; (done || apply H1 || apply H2 || apply H3).
Qed.

(** *** One transaction *)

Abbreviation run := (run_action hello_construct hello_destroy).

(** A method without a result, and one that returns the list. *)
Lemma run_void (a : action (St := world) (T := hello)) args w w1 t l l' :
  holds w l -> act_return a = None -> act_body a (mkStorage info_name [] l) args w = Ok (t, mkStorage info_name [] l', w1) ->
  valid messages l' -> cost (tree_of l') < RLP_LIMIT ->
  exists w', run a args w = Ok (None, w') /\ holds w' l' /\ log w' = log w1 /\
    forall k, k <> enc (int_item info_name) -> contents w' k = contents w1 k.
Proof using HL HS state_log.
  intros Hw ER EB Hl HB. destruct (destroy_spec w1 l' Hl HB) as (w' & ED & HD). exists w'. split; [| done].
  unfold run_action. rewrite (construct_spec w l Hw). cbn [mbind res_bind]. rewrite EB. cbn [mbind res_bind].
  rewrite ER. cbn [mbind res_bind]. by rewrite ED.
Qed.

Lemma run_list (name : bytes) A (f : fields A) body args w w1 l l' :
  holds w l -> body (mkStorage info_name [] l) args w = Ok (l', mkStorage info_name [] l', w1) ->
  valid messages l' -> cost (tree_of l') < RLP_LIMIT ->
  exists w', run (mkAction name A f (val messages) (Some (codec_of messages)) body) args w = Ok (Some (enc (tree_of l')), w') /\
    holds w' l' /\ log w' = log w1 /\
    forall k, k <> enc (int_item info_name) -> contents w' k = contents w1 k.
Proof using HL HS state_log.
  intros Hw EB Hl HB. destruct (destroy_spec w1 l' Hl HB) as (w' & ED & HD). exists w'. split; [| done].
  unfold run_action. rewrite (construct_spec w l Hw). cbn [mbind res_bind act_body act_return act_ret]. rewrite EB.
  cbn [mbind res_bind].
  rewrite (platon_return_spec (codec_of messages) (tree messages) (valid messages) (sized messages) l' Hl HB).
  cbn [mbind res_bind]. by rewrite ED.
Qed.

Lemma holds_valid w l : holds w l -> valid messages l.
Proof using Type. intros (o & Ho & <-). destruct o as [l |]; [apply Ho | constructor]. Qed.

Definition call_valid (c : call) : Prop :=
  match c with
  | CInit m | CAdd m => valid_message m
  | CGet name => bytes_valid name /\ cost (call_tree (trees with_name) n_get_message (name, tt)) < RLP_LIMIT
  | CAbort | CPanic => True
  end.

Lemma messages_cost l : cost (tree_of l) = 9 + total_cost (tree my_message <$> l).
Proof using Type. reflexivity. Qed.

Lemma messages_cost_app l m : cost (tree_of (l ++ m)) = cost (tree_of l) + total_cost (tree my_message <$> m).
Proof using Type. rewrite !messages_cost, fmap_app, total_cost_app. lia. Qed.

Lemma message_call_cost l m method :
  cost (tree_of (l ++ [m])) + 9 < RLP_LIMIT -> cost (call_tree (trees with_message) method (m, tt)) < RLP_LIMIT.
Proof using Type.
  rewrite messages_cost_app, messages_cost. intros HB. pose proof (total_cost_len (tree my_message <$> l)).
  pose proof (int_item_cost (Name_hash method) (Name_hash_range method)).
  assert (cost (call_tree (trees with_message) method (m, tt))
          = 9 + (cost (int_item (Name_hash method)) + total_cost (tree my_message <$> [m]))) as -> by reflexivity.
  lia.
Qed.

(** The transaction a call is, by the method it reaches. *)
Lemma call_transaction (a : action (St := world) (T := hello)) tr vd sz `{HF : !FieldsLaws (act_fields a) tr vd sz}
    pre post args w :
  chain_runs_hello ->
  hello_actions platon_sha3 host_event = pre ++ a :: post -> first_of a pre -> plain_text (act_name a) ->
  Name_hash (act_name a) <> 0 -> vd args -> cost (call_tree tr (act_name a) args) < RLP_LIMIT ->
  exists data, cross_call_args (act_fields a) (act_name a) args = Ok data /\
    match run a args w with
    | Ok (out, w') => transaction w data = (Some out, w')
    | Panic _ | Revert _ => transaction w data = (None, w)
    | _ => True
    end.
Proof using HL.
  intros Hchain Ea HP Hn Hnz Hv HB.
  destruct (call_reaches hello_construct hello_destroy a tr vd sz pre post args w HP Hn Hnz Hv HB) as (data & Ed & Ei).
  exists data. split; [done |]. pose proof (Hchain w data) as HT. unfold hello_invoke in HT. by rewrite Ea, Ei in HT.
Qed.

(** The events of the two methods. *)
Lemma event_emitted w arg1 arg2 arg3 :
  bytes_valid arg1 -> bytes_valid arg2 -> uint_valid 32 arg3 ->
  cost (Lst [Str arg1; Str arg2; int_item arg3]) < RLP_LIMIT ->
  exists w1, hello_event platon_sha3 host_event w arg1 arg2 arg3 = Ok w1 /\
    log w1 = log w ++ [event_of arg1 arg2 arg3] /\ forall k, contents w1 k = contents w k.
Proof using HL HH event_contents event_log.
  intros H1 H2 H3 HB. eexists. split; [by apply hello_event_spec |].
  split; [apply event_log | intros; apply event_contents].
Qed.

Ltac constant_text := split; [apply (bool_decide_unpack _); reflexivity | vm_compute; reflexivity].

Lemma add_event w :
  exists w1, hello_event platon_sha3 host_event w n_add_message [101; 118; 101; 110; 116; 49] 1 = Ok w1 /\
    log w1 = log w ++ [event_of n_add_message [101; 118; 101; 110; 116; 49] 1] /\
    forall k, contents w1 k = contents w k.
Proof using HL HH event_contents event_log.
  apply event_emitted; [constant_text | constant_text | unfold uint_valid; lia | vm_compute; reflexivity].
Qed.

Lemma get_event w :
  exists w1, hello_event platon_sha3 host_event w n_get_message [101; 118; 101; 110; 116; 50] 2 = Ok w1 /\
    log w1 = log w ++ [event_of n_get_message [101; 118; 101; 110; 116; 50] 2] /\
    forall k, contents w1 k = contents w k.
Proof using HL HH event_contents event_log.
  apply event_emitted; [constant_text | constant_text | unfold uint_valid; lia | vm_compute; reflexivity].
Qed.

(** A transaction did its part: the list [l'], the events [es], nothing else. *)
Definition done_by (w : world) (c : call) (r : option (option bytes)) (l' : list (val my_message))
    (es : list (bytes * bytes)) : Prop :=
  exists data w', call_input c = Ok data /\ transaction w data = (r, w') /\ holds w' l' /\ log w' = log w ++ es /\
    forall k, k <> enc (int_item info_name) -> contents w' k = contents w k.

Section Step.
Context (w : world) (l : list (val my_message)) (Hchain : chain_runs_hello) (Hw : holds w l).

Lemma init_step m :
  valid_message m -> cost (tree_of (l ++ [m])) + 9 < RLP_LIMIT -> valid messages (l ++ [m]) ->
  cost (tree_of (l ++ [m])) < RLP_LIMIT -> done_by w (CInit m) (Some None) (l ++ [m]) [].
Proof using HL HS Hchain Hw state_log.
  intros Hm HB Hl HB'.
  destruct (call_transaction init (trees with_message) (valid_members with_message) (sized_members with_message)
              (HF := proj2 type_laws with_message) [] _ (m, tt) w Hchain eq_refl)
    as (data & Ed & HT); [constructor | repeat constructor; lia | vm_compute; discriminate | by split |
                          by apply (message_call_cost l) |].
  destruct (run_void init (m, tt) w w tt l (l ++ [m]) Hw eq_refl eq_refl Hl HB') as (w' & ER & Hw' & HLog & HFr).
  rewrite ER in HT. exists data, w'. rewrite app_nil_r.
  split; [exact Ed |]. split; [exact HT |]. split; [exact Hw' |]. split; [exact HLog | exact HFr].
Qed.

Lemma add_step m :
  valid_message m -> cost (tree_of (l ++ [m])) + 9 < RLP_LIMIT -> valid messages (l ++ [m]) ->
  cost (tree_of (l ++ [m])) < RLP_LIMIT ->
  done_by w (CAdd m) (answer (l ++ [m])) (l ++ [m]) [event_of n_add_message [101; 118; 101; 110; 116; 49] 1].
Proof using All.
  intros Hm HB Hl HB'.
  destruct (call_transaction (add_message platon_sha3 host_event) (trees with_message) (valid_members with_message)
              (sized_members with_message) (HF := proj2 type_laws with_message) [init] _ (m, tt) w Hchain eq_refl)
    as (data & Ed & HT); [repeat constructor; vm_compute; discriminate | repeat constructor; lia |
                          vm_compute; discriminate | by split | by apply (message_call_cost l) |].
  destruct (add_event w) as (w1 & E1 & L1 & C1).
  destruct (run_list n_add_message _ (fields_of with_message) (act_body (add_message platon_sha3 host_event)) (m, tt)
              w w1 l (l ++ [m]) Hw) as (w' & ER & Hw' & HLog & HFr); [| exact Hl | exact HB' |].
  { cbn [act_body add_message]. rewrite E1. reflexivity. }
  change (run (add_message platon_sha3 host_event) (m, tt) w = Ok (Some (enc (tree_of (l ++ [m]))), w')) in ER.
  rewrite ER in HT. exists data, w'.
  split; [exact Ed |]. split; [exact HT |]. split; [exact Hw' |]. split; [by rewrite HLog |].
  intros k Hk. by rewrite HFr.
Qed.

Lemma get_step name :
  bytes_valid name -> cost (call_tree (trees with_name) n_get_message (name, tt)) < RLP_LIMIT ->
  valid messages l -> cost (tree_of l) < RLP_LIMIT ->
  done_by w (CGet name) (answer l) l [event_of n_get_message [101; 118; 101; 110; 116; 50] 2].
Proof using All.
  intros Hm HB Hl HB'.
  destruct (call_transaction (get_message platon_sha3 host_event) (trees with_name) (valid_members with_name)
              (sized_members with_name) (HF := proj2 type_laws with_name)
              [init; add_message platon_sha3 host_event] _ (name, tt) w Hchain eq_refl)
    as (data & Ed & HT); [repeat constructor; vm_compute; discriminate | repeat constructor; lia |
                          vm_compute; discriminate | by split | exact HB |].
  destruct (get_event w) as (w1 & E1 & L1 & C1).
  destruct (run_list n_get_message _ (fields_of with_name) (act_body (get_message platon_sha3 host_event)) (name, tt)
              w w1 l l Hw) as (w' & ER & Hw' & HLog & HFr); [| exact Hl | exact HB' |].
  { cbn [act_body get_message]. rewrite E1. reflexivity. }
  change (run (get_message platon_sha3 host_event) (name, tt) w = Ok (Some (enc (tree_of l)), w')) in ER.
  rewrite ER in HT. exists data, w'.
  split; [exact Ed |]. split; [exact HT |]. split; [exact Hw' |]. split; [by rewrite HLog |].
  intros k Hk. by rewrite HFr.
Qed.

(** The methods that end the transaction. *)
Lemma failed data c : call_input c = Ok data -> transaction w data = (None, w) -> done_by w c None l [].
Proof using Hw.
  intros Ed HT. exists data, w. rewrite app_nil_r. split; [exact Ed |]. split; [exact HT |]. by split.
Qed.

Lemma abort_step : done_by w CAbort None l [].
Proof using HL HS Hchain Hw.
  destruct (call_transaction hello_abort (trees TNil) (valid_members TNil) (sized_members TNil)
              (HF := proj2 type_laws TNil)
              [init; add_message platon_sha3 host_event; get_message platon_sha3 host_event] _ tt w Hchain eq_refl)
    as (data & Ed & HT); [repeat constructor; vm_compute; discriminate | repeat constructor; lia |
                          vm_compute; discriminate | done | vm_compute; reflexivity |].
  unfold run_action in HT. rewrite (construct_spec w l Hw) in HT. by apply (failed data).
Qed.

Lemma panic_step : done_by w CPanic None l [].
Proof using HL HS Hchain Hw.
  destruct (call_transaction hello_panic (trees TNil) (valid_members TNil) (sized_members TNil)
              (HF := proj2 type_laws TNil)
              [init; add_message platon_sha3 host_event; get_message platon_sha3 host_event; hello_abort] _ tt w
              Hchain eq_refl)
    as (data & Ed & HT); [repeat constructor; vm_compute; discriminate | repeat constructor; lia |
                          vm_compute; discriminate | done | vm_compute; reflexivity |].
  unfold run_action in HT. rewrite (construct_spec w l Hw) in HT. by apply (failed data).
Qed.
End Step.

(** Every call does to the state, the log and the caller what it is to do. *)
Lemma call_step w l c :
  chain_runs_hello -> holds w l -> call_valid c -> cost (tree_of (l ++ brought c)) + 9 < RLP_LIMIT ->
  let '(r, l', es) := ideal_call l c in done_by w c r l' es.
Proof using All.
  intros Hchain Hw Hc HB. pose proof (holds_valid w l Hw) as Hl.
  assert (cost (tree_of (l ++ brought c)) < RLP_LIMIT /\ cost (tree_of l) < RLP_LIMIT) as [HB1 HB2].
  { clear -HB. pose proof (total_cost_len (tree my_message <$> brought c)). rewrite messages_cost_app in *. lia. }
  assert (forall m, valid_message m -> valid messages (l ++ [m])) as Happ
    by (intros m Hm; apply Forall_app; split; [exact Hl | by apply Forall_singleton]).
  destruct c as [m | m | name | |]; cbn [ideal_call brought call_valid] in *.
  - by apply init_step; [..| apply Happ |].
  - by apply add_step; [..| apply Happ |].
  - destruct Hc. by apply get_step.
  - by apply abort_step.
  - by apply panic_step.
Qed.

Lemma ideal_list l c : (ideal_call l c).1.2 = l ++ brought c.
Proof using Type. destruct c; cbn; by rewrite ?app_nil_r. Qed.

(** C11. The example contract keeps every message. Whatever transactions reach it - [init]
    and [add_message] with any messages, [get_message], the two methods that fail - and
    from whatever list it holds: each caller gets what a list of messages would answer,
    encoded, or a failure where one is meant; the state holds the list with all messages
    brought, and only the key of [info] has changed; the log has exactly the events of the
    transactions that ended normally. *)
Theorem hello_session_correct (w : world) (l : list (val my_message)) (cs : list call) :
  chain_runs_hello -> holds w l -> Forall call_valid cs ->
  cost (tree_of (l ++ flat_map brought cs)) + 9 < RLP_LIMIT ->
  let '(rs, l', es) := ideal_session l cs in
  exists w', session transaction w cs = Ok (rs, w') /\ holds w' l' /\ log w' = log w ++ es /\
    forall k, k <> enc (int_item info_name) -> contents w' k = contents w k.
Proof using All.
  intros Hchain Hw Hcs. revert w l Hw. induction Hcs as [|c cs Hc _ IH]; intros w l Hw HB.
  { exists w. by rewrite app_nil_r. }
  cbn [flat_map] in HB. rewrite app_assoc in HB.
  assert (cost (tree_of (l ++ brought c)) + 9 < RLP_LIMIT) as HBc.
  { pose proof (total_cost_len (tree my_message <$> flat_map brought cs)).
    rewrite (messages_cost_app (l ++ brought c)) in HB. lia. }
  pose proof (call_step w l c Hchain Hw Hc HBc) as HS1. pose proof (ideal_list l c) as EL.
  cbn [ideal_session]. destruct (ideal_call l c) as [[r l1] es1]. cbn [fst snd] in EL. subst l1.
  destruct HS1 as (data & w1 & Ed & HT & Hw1 & HLog1 & HFr1).
  specialize (IH w1 _ Hw1 HB). destruct (ideal_session (l ++ brought c) cs) as [[rs l2] es2].
  destruct IH as (w2 & E2 & Hw2 & HLog2 & HFr2). exists w2.
  split; [cbn [session]; rewrite Ed; cbn [mbind res_bind]; rewrite HT, E2; reflexivity |].
  split; [exact Hw2 |]. split; [by rewrite HLog2, HLog1, app_assoc |].
  intros k Hk. by rewrite HFr2, HFr1.
Qed.
End HelloFacts.

#[local] Existing Instance host_rlp.
#[local] Existing Instance host_rlp_laws.

(** A chain: a finite map and a log. *)
Module LoggedChain.
Definition state : HostState := {|
  world := gmap bytes bytes * list (bytes * bytes);
  platon_set_state w k v := (<[k := v]> (fst w), snd w);
  platon_get_state_length w k := len (default [] (fst w !! k));
  platon_get_state w k n := ztake n <$> fst w !! k
|}.

Definition state_laws : @HostStateLaws state.
Proof.
  refine {| contents := fun (w : @world state) k => default [] (fst w !! k) |}.
  - intros w k v k'. cbn. case_decide; simplify_map_eq; done.
  - done.
  - intros w k n Hk Hn. cbn in *. destruct (fst w !! k); [| done]. cbn in *. by rewrite ztake_all.
Defined.

Definition event (w : @world state) (t d : bytes) : @world state := (fst w, snd w ++ [(t, d)]).
Definition sha3 (m : bytes) : bytes := replicate 32 (len m mod 256).

Definition transaction (w : @world state) (data : bytes) : option (option bytes) * @world state :=
  match @hello_invoke host_rlp state sha3 event data w with
  | Ok (out, w') => (Some out, w')
  | _ => (None, w)
  end.

(** Two messages. *)
Definition first_message : val my_message := make_message [97] [98; 99] [].
Definition second_message : val my_message := make_message [] [100] [101; 102].
Definition calls : list call := [CInit first_message; CPanic; CAdd second_message; CAbort; CGet [110]].
End LoggedChain.

Lemma hello_session_correct_witness :
  exists w' : @world LoggedChain.state,
    @session host_rlp LoggedChain.state LoggedChain.transaction (∅, []) LoggedChain.calls
      = Ok ([Some None; None; answer [LoggedChain.first_message; LoggedChain.second_message]; None;
             answer [LoggedChain.first_message; LoggedChain.second_message]], w') /\
    snd w' = [event_of n_add_message [101; 118; 101; 110; 116; 49] 1;
              event_of n_get_message [101; 118; 101; 110; 116; 50] 2].
Proof.
  destruct (@hello_session_correct host_rlp host_rlp_laws LoggedChain.state LoggedChain.state_laws
              LoggedChain.sha3 ltac:(intros m; split; [reflexivity | apply Forall_replicate, Z.mod_pos_bound; lia])
              LoggedChain.event snd ltac:(reflexivity) ltac:(reflexivity) ltac:(reflexivity)
              LoggedChain.transaction (∅, []) [] LoggedChain.calls) as (w' & E & _ & EL & _).
  - intros w data. unfold LoggedChain.transaction.
    destruct (@hello_invoke host_rlp LoggedChain.state _ _ data w) as [[out w'] | | | |]; done.
  - exists None. split; [vm_compute; reflexivity | reflexivity].
  - repeat constructor; cbn; unfold is_byte; try lia; vm_compute; reflexivity.
  - vm_compute. reflexivity.
  - exists w'. split; [exact E | exact EL].
Defined.
