(* ===== verification/Authority.v ===== *)
(** * authority.hpp: the owner and the whitelists of a contract

    Both are persistent values: an address, and a set of addresses in the order of
    [FixedHash::operator<]. *)

From Stdlib Require Import Sorted.
From S2P Require Import Prelude Common RlpSpec RlpReader RlpConvert HostRlp RlpStream RlpSize.
From S2P Require Import Serialize SerializeFacts HostState Storage StorageType Bech32 FixedHash Name.

(** ** Definitions *)

(** [std::set::erase] and [find] of a key: the elements equivalent to it. *)
Definition set_equiv {A} (less : A -> A -> bool) (x y : A) : bool := negb (less x y) && negb (less y x).
Definition set_erase {A} (less : A -> A -> bool) (x : A) (l : list A) : list A :=
  List.filter (fun y => negb (set_equiv less x y)) l.
Definition set_find {A} (less : A -> A -> bool) (x : A) (l : list A) : bool :=
  existsb (set_equiv less x) l.

Section Authority.
Context `{HostRLP, HostState}.

(** What the chain answers: the sender of the message and of the transaction, and whether
    the library is built for the test network. *)
Context (host_caller host_origin : world -> bytes) (testnet : bool).

(** [platon_caller] fills an address of zeros. *)
Definition platon_caller (w : world) : bytes := host_caller w.
Definition platon_origin (w : world) : bytes := host_origin w.

Definition c_address : codec bytes := c_hash 20.

(** [StorageType<"platonowner"_n, Address>]. *)
Definition owner_name : Z := Name_hash [112; 108; 97; 116; 111; 110; 111; 119; 110; 101; 114].
Definition owner_storage (w : world) : res (StorageType bytes) :=
  storage_init c_address w owner_name (hash_zero 20) (hash_zero 20).

(** The address a text argument stands for: none, no text, or text that is no address. *)
Definition argument_address (dflt : bytes) (address : bytes) : res bytes :=
  match address with
  | [] => Ok dflt
  | _ => '(a, ok) ← make_address testnet address; Ok (if ok : bool then a else hash_zero 20)
  end.

Definition set_owner (w : world) (address : bytes) : res world :=
  platon_addr ← argument_address (platon_caller w) address;
  owner_addr ← owner_storage w;
  storage_flush c_address w (storage_self owner_addr (fun _ => platon_addr)).

(** [owner] and [is_owner] store the owner again when their object ends. *)
Definition owner (w : world) : res (bytes * world) :=
  owner_addr ← owner_storage w;
  w' ← storage_flush c_address w owner_addr;
  Ok (storage_get owner_addr, w').

Definition is_owner (w : world) (addr : bytes) : res (bool * world) :=
  platon_addr ← argument_address (platon_origin w) addr;
  owner_addr ← owner_storage w;
  w' ← storage_flush c_address w owner_addr;
  Ok (hash_eqb (storage_get owner_addr) platon_addr, w').

(** *** WhiteList *)

Definition c_address_set : codec (list bytes) := c_set hash_ltb c_address.

Definition whitelist_new (w : world) (name : Z) : res (StorageType (list bytes)) :=
  storage_init c_address_set w name [] [].

Definition whitelist_add (s : StorageType (list bytes)) (addr : bytes) : StorageType (list bytes) :=
  storage_self s (set_insert hash_ltb addr).
Definition whitelist_delete (s : StorageType (list bytes)) (addr : bytes) : StorageType (list bytes) :=
  storage_self s (set_erase hash_ltb addr).
Definition whitelist_exists (s : StorageType (list bytes)) (addr : bytes) : bool :=
  set_find hash_ltb addr (storage_get s).

(** The overloads for text: an invalid address changes nothing and does not exist. *)
Definition whitelist_add_text (s : StorageType (list bytes)) (addr : bytes) : res (StorageType (list bytes)) :=
  '(a, ok) ← make_address testnet addr; Ok (if ok : bool then whitelist_add s a else s).
Definition whitelist_delete_text (s : StorageType (list bytes)) (addr : bytes) : res (StorageType (list bytes)) :=
  '(a, ok) ← make_address testnet addr; Ok (if ok : bool then whitelist_delete s a else s).
Definition whitelist_exists_text (s : StorageType (list bytes)) (addr : bytes) : res bool :=
  '(a, ok) ← make_address testnet addr; Ok (if ok : bool then whitelist_exists s a else false).

(** *** Specification: a session with one whitelist object *)

Inductive whitelist_op :=
| WAdd (a : bytes) | WDelete (a : bytes) | WExists (a : bytes)
| WAddText (s : bytes) | WDeleteText (s : bytes) | WExistsText (s : bytes).

Definition whitelist_step (s : StorageType (list bytes)) (o : whitelist_op)
    : res (StorageType (list bytes) * option bool) :=
  match o with
  | WAdd a => Ok (whitelist_add s a, None)
  | WDelete a => Ok (whitelist_delete s a, None)
  | WExists a => Ok (s, Some (whitelist_exists s a))
  | WAddText t => s' ← whitelist_add_text s t; Ok (s', None)
  | WDeleteText t => s' ← whitelist_delete_text s t; Ok (s', None)
  | WExistsText t => b ← whitelist_exists_text s t; Ok (s, Some b)
  end.

Fixpoint whitelist_run (s : StorageType (list bytes)) (os : list whitelist_op)
    : res (StorageType (list bytes) * list (option bool)) :=
  match os with
  | [] => Ok (s, [])
  | o :: os' =>
      '(s', out) ← whitelist_step s o;
      '(s'', outs) ← whitelist_run s' os';
      Ok (s'', out :: outs)
  end.

(** The constructor, the calls, the destructor. *)
Definition whitelist_session (w : world) (name : Z) (os : list whitelist_op)
    : res (list (option bool) * world) :=
  s ← whitelist_new w name;
  '(s', outs) ← whitelist_run s os;
  w' ← storage_flush c_address_set w s';
  Ok (outs, w').

(** The same with a mathematical set. *)
Definition text_address (t : bytes) : option bytes :=
  match make_address testnet t with Ok (a, true) => Some a | _ => None end.

Definition ideal_whitelist_step (S : gset bytes) (o : whitelist_op) : gset bytes * option bool :=
  match o with
  | WAdd a => ({[a]} ∪ S, None)
  | WDelete a => (S ∖ {[a]}, None)
  | WExists a => (S, Some (bool_decide (a ∈ S)))
  | WAddText t => (match text_address t with Some a => {[a]} ∪ S | None => S end, None)
  | WDeleteText t => (match text_address t with Some a => S ∖ {[a]} | None => S end, None)
  | WExistsText t => (S, Some (match text_address t with Some a => bool_decide (a ∈ S) | None => false end))
  end.

Fixpoint ideal_whitelist_run (S : gset bytes) (os : list whitelist_op) : gset bytes * list (option bool) :=
  match os with
  | [] => (S, [])
  | o :: os' =>
      let '(S', out) := ideal_whitelist_step S o in
      let '(S'', outs) := ideal_whitelist_run S' os' in (S'', out :: outs)
  end.
End Authority.

(** ** Properties *)

Section AuthorityFacts.
Context `{HL : HostRLPLaws, HS : HostStateLaws}.
Context (host_caller host_origin : world -> bytes) (testnet : bool).

(** The owner stored in a state. *)
Definition owner_at (w : world) (o : option bytes) : Prop :=
  has_value int_item Str (hash_valid 20) w owner_name o.

Lemma owner_name_valid : uint_valid 64 owner_name.
Proof using Type. apply Name_hash_range. Qed.

Lemma address_hash_valid a : address_valid a -> hash_valid 20 a.
Proof using Type. intros [H1 H2]. split; [done |]. lia. Qed.

Lemma address_value_ok a : address_valid a -> value_ok Str (hash_valid 20) a.
Proof using Type.
  intros Ha. split; [by apply address_hash_valid |]. destruct Ha as [_ HL20].
  cbn [cost]. unfold enc_str. destruct a as [|x [|y a]]; [done | done |].
  rewrite length_app, HL20. vm_compute. done.
Qed.

(** The address an argument stands for, as a function. *)
Definition who (dflt text : bytes) : bytes :=
  match text with
  | [] => dflt
  | _ => match text_address testnet text with Some a => a | None => hash_zero 20 end
  end.

Lemma argument_address_spec dflt text :
  address_valid dflt ->
  argument_address testnet dflt text = Ok (who dflt text) /\ address_valid (who dflt text).
Proof using Type.
  intros Hd. unfold argument_address, who, text_address. destruct text as [|c text]; [done |].
  destruct (make_address_total testnet (c :: text)) as (a & ok & -> & Ha). cbn [mbind res_bind].
  destruct ok; [done |]. split; [done | apply address_zero_valid].
Qed.

Lemma owner_load w o :
  owner_at w o -> owner_storage w = Ok (mkStorage owner_name (hash_zero 20) (default (hash_zero 20) o)).
Proof using HL HS.
  intros Ho. unfold owner_storage. apply (init_at c_address Str (hash_valid 20) hash_sized); [| done].
  apply owner_name_valid.
Qed.

Lemma owner_store w a :
  address_valid a ->
  exists w', storage_flush c_address w (mkStorage owner_name (hash_zero 20) a) = Ok w' /\ owner_at w' (Some a) /\
    forall kb, kb <> enc (int_item owner_name) -> contents w' kb = contents w kb.
Proof using HL HS.
  intros Ha. apply (flush_at c_address Str (hash_valid 20) hash_sized); [apply owner_name_valid |].
  by apply address_value_ok.
Qed.

(** The owner of a contract is what [set_owner] last made it: the sender when the
    text is empty, the address a valid text denotes, and the zero address for any other
    text; no other key of the state changes. From then on [owner] returns that address
    and [is_owner] of a text holds when and only when the text stands for it (the
    transaction's sender when the text is empty). *)
Theorem owner_persists (w : world) (o : option bytes) (address : bytes) :
  owner_at w o -> address_valid (host_caller w) ->
  exists w', set_owner host_caller testnet w address = Ok w' /\
    (forall kb, kb <> enc (int_item owner_name) -> contents w' kb = contents w kb) /\
    (exists w'', owner w' = Ok (who (host_caller w) address, w'') /\
                 owner_at w'' (Some (who (host_caller w) address))) /\
    forall text, address_valid (host_origin w') ->
      exists w'', is_owner host_origin testnet w' text
                  = Ok (bool_decide (who (host_caller w) address = who (host_origin w') text), w'') /\
                  owner_at w'' (Some (who (host_caller w) address)).
Proof using HL HS.
  intros Ho Hc. destruct (argument_address_spec (host_caller w) address Hc) as [E1 Ha].
  set (a := who (host_caller w) address) in *.
  destruct (owner_store w a Ha) as (w' & E2 & Ho' & HFr). exists w'.
  assert (exists w'', storage_flush c_address w' (mkStorage owner_name (hash_zero 20) a) = Ok w'' /\
            owner_at w'' (Some a)) as (w2 & E3 & Ho2).
  { destruct (owner_store w' a Ha) as (w2 & ? & ? & _). eauto. }
  split_and!; [| done | |].
  - unfold set_owner, platon_caller. rewrite E1. cbn [mbind res_bind]. rewrite (owner_load w o Ho). exact E2.
  - exists w2. unfold owner. rewrite (owner_load w' _ Ho'). cbn [mbind res_bind from_option id].
    rewrite E3. cbn [mbind res_bind storage_get t_]. split; [reflexivity | exact Ho2].
  - intros text Ht. exists w2. split; [| done]. unfold is_owner, platon_origin.
    destruct (argument_address_spec (host_origin w') text Ht) as [-> _]. cbn [mbind res_bind].
    rewrite (owner_load w' _ Ho'). cbn [mbind res_bind from_option id].
    rewrite E3. cbn [mbind res_bind storage_get t_]. reflexivity.
Qed.

(** *** Sets of addresses *)

#[export] Instance hash_ltb_asym : CppLess hash_ltb.
Proof using Type.
  intros x. induction x as [|a x IH]; intros [|b y] Hlt; try done. cbn [hash_ltb] in *.
  destruct (Z.ltb_spec a b), (Z.ltb_spec b a); try done; try lia. by apply IH.
Qed.

Lemma address_equiv x y :
  address_valid x -> address_valid y -> set_equiv hash_ltb x y = bool_decide (x = y).
Proof using Type.
  intros [Hx HLx] [Hy HLy]. unfold set_equiv. rewrite !hash_ltb_value by (done || congruence).
  destruct (bool_decide_reflect (x = y)) as [-> | Hne].
  - by rewrite Z.ltb_irrefl.
  - assert (be_value x <> be_value y) by (intros E; apply Hne, be_value_inj; congruence).
    cmp_lia.
Qed.

Definition less_than (x y : bytes) : Prop := hash_ltb x y = true.

Lemma less_trans x y z :
  address_valid x -> address_valid y -> address_valid z -> less_than x y -> less_than y z -> less_than x z.
Proof using Type.
  intros [Hx Lx] [Hy Ly] [Hz Lz]. unfold less_than. rewrite !hash_ltb_value by (done || congruence). cmp_lia.
Qed.

Lemma less_total x y :
  address_valid x -> address_valid y -> hash_ltb x y = false -> hash_ltb y x = false -> x = y.
Proof using Type.
  intros [Hx Lx] [Hy Ly]. rewrite !hash_ltb_value by (done || congruence). intros H1 H2.
  apply be_value_inj; [done | done | congruence |]. bool_hyps. lia.
Qed.

Lemma elem_of_insert x l a :
  Forall address_valid l -> address_valid x -> a ∈ set_insert hash_ltb x l <-> a = x \/ a ∈ l.
Proof using Type.
  intros Hl Hx. induction Hl as [|y l Hy Hl IH]; cbn [set_insert].
  - rewrite list_elem_of_singleton, elem_of_nil. naive_solver.
  - destruct (hash_ltb x y) eqn:E1; [by rewrite elem_of_cons |].
    destruct (hash_ltb y x) eqn:E2; [rewrite !elem_of_cons, IH; naive_solver |].
    rewrite (less_total x y Hx Hy E1 E2). rewrite elem_of_cons. naive_solver.
Qed.

Lemma insert_ascending x l :
  Forall address_valid l -> address_valid x -> ascending hash_ltb l -> ascending hash_ltb (set_insert hash_ltb x l).
Proof using Type.
  intros Hl Hx. unfold ascending. induction Hl as [|y l Hy Hl IH]; intros HA; cbn [set_insert].
  { by repeat constructor. }
  apply StronglySorted_inv in HA as [HA HF].
  destruct (hash_ltb x y) eqn:E1; [| destruct (hash_ltb y x) eqn:E2].
  - constructor; [by constructor |]. constructor; [done |]. rewrite Forall_forall in *.
    intros z Hz. apply (less_trans x y z); [done | done | by apply Hl | done | by apply HF].
  - constructor; [by apply IH |]. rewrite Forall_forall in *. intros z Hz.
    apply elem_of_insert in Hz as [-> | Hz]; [done | by apply HF | by apply Forall_forall | done].
  - by constructor.
Qed.

Lemma insert_valid x l : Forall address_valid l -> address_valid x -> Forall address_valid (set_insert hash_ltb x l).
Proof using Type.
  intros Hl Hx. apply Forall_forall. intros z Hz.
  apply elem_of_insert in Hz as [-> | Hz]; [done | by rewrite Forall_forall in Hl; apply Hl | done | done].
Qed.

Lemma elem_of_erase x l a :
  Forall address_valid l -> address_valid x -> a ∈ set_erase hash_ltb x l <-> a ∈ l /\ a <> x.
Proof using Type.
  intros Hl Hx. unfold set_erase. rewrite !list_elem_of_In, filter_In, <- !list_elem_of_In.
  split; intros [Ha Hne]; (split; [done |]); pose proof (proj1 (Forall_forall _ _) Hl a Ha) as Hva;
    rewrite address_equiv in * by done.
  - apply negb_true_iff, bool_decide_eq_false in Hne. congruence.
  - apply negb_true_iff, bool_decide_eq_false. congruence.
Qed.

Lemma erase_ascending x l : ascending hash_ltb l -> ascending hash_ltb (set_erase hash_ltb x l).
Proof using Type.
  unfold ascending, set_erase. induction 1 as [|y l HA IH HF]; [constructor |]. cbn [List.filter].
  destruct (negb (set_equiv hash_ltb x y)); [| done]. constructor; [done |].
  rewrite Forall_forall in *. intros z Hz. apply HF.
  rewrite list_elem_of_In, filter_In, <- list_elem_of_In in Hz. by destruct Hz.
Qed.

Lemma find_elem x l :
  Forall address_valid l -> address_valid x -> set_find hash_ltb x l = bool_decide (x ∈ l).
Proof using Type.
  intros Hl Hx. unfold set_find. induction Hl as [|y l Hy _ IH]; [done |]. cbn [existsb].
  rewrite IH, address_equiv by done. destruct (bool_decide_reflect (x = y)) as [-> |].
  - symmetry. apply bool_decide_eq_true_2. by left.
  - cbn [orb]. apply bool_decide_ext. rewrite elem_of_cons. naive_solver.
Qed.

Lemma ascending_nodup l : ascending hash_ltb l -> NoDup l.
Proof using Type.
  induction 1 as [|x l _ IH HF]; constructor; [| done]. intros Hx.
  pose proof (proj1 (Forall_forall _ _) HF x Hx) as Hxx. cbn in Hxx. pose proof (less_asym x x Hxx). congruence.
Qed.

(** The object's elements are those of a mathematical set. *)
Record represents_set (l : list bytes) (S : gset bytes) : Prop := {
  rs_valid : Forall address_valid l;
  rs_ascending : ascending hash_ltb l;
  rs_elements a : a ∈ l <-> a ∈ S
}.

Lemma represents_size l S : represents_set l S -> length l = size S.
Proof using Type.
  intros [HV HA HE]. rewrite <- (size_list_to_set (C := gset bytes) l) by by apply ascending_nodup.
  f_equal. apply set_eq. intros a. by rewrite elem_of_list_to_set.
Qed.

Lemma represents_add l S a :
  represents_set l S -> address_valid a -> represents_set (set_insert hash_ltb a l) ({[a]} ∪ S).
Proof using Type.
  intros [HV HA HE] Ha. split; [by apply insert_valid | by apply insert_ascending |].
  intros b. rewrite elem_of_insert, elem_of_union, elem_of_singleton, HE by done. done.
Qed.

Lemma represents_delete l S a :
  represents_set l S -> address_valid a -> represents_set (set_erase hash_ltb a l) (S ∖ {[a]}).
Proof using Type.
  intros [HV HA HE] Ha. split; [| by apply erase_ascending |].
  - apply Forall_forall. intros b Hb. apply elem_of_erase in Hb as [Hb _]; [| done | done].
    by apply (proj1 (Forall_forall _ _) HV).
  - intros b. rewrite elem_of_erase, elem_of_difference, elem_of_singleton, HE by done. done.
Qed.

Lemma represents_find l S a :
  represents_set l S -> address_valid a -> set_find hash_ltb a l = bool_decide (a ∈ S).
Proof using Type.
  intros [HV HA HE] Ha. rewrite find_elem by done. apply bool_decide_ext, HE.
Qed.

(** Addresses given as such are 20 bytes. *)
Definition whitelist_op_valid (o : whitelist_op) : Prop :=
  match o with WAdd a | WDelete a | WExists a => address_valid a | _ => True end.

Lemma text_address_spec t :
  match text_address testnet t with
  | Some a => make_address testnet t = Ok (a, true) /\ address_valid a
  | None => exists a, make_address testnet t = Ok (a, false)
  end.
Proof using Type.
  unfold text_address. destruct (make_address_total testnet t) as (a & ok & -> & Ha).
  destruct ok; [done | by exists a].
Qed.

Lemma whitelist_step_spec s S o :
  represents_set (t_ s) S -> whitelist_op_valid o ->
  exists s', whitelist_step testnet s o = Ok (s', snd (ideal_whitelist_step testnet S o)) /\
    represents_set (t_ s') (fst (ideal_whitelist_step testnet S o)) /\ name_ s' = name_ s.
Proof using Type.
  intros HR Ho. destruct s as [n d l]. cbn [t_ name_] in *.
  destruct o as [a | a | a | t | t | t]; cbn [whitelist_step ideal_whitelist_step whitelist_op_valid fst snd] in *;
    unfold whitelist_add_text, whitelist_delete_text, whitelist_exists_text; try pose proof (text_address_spec t) as HT;
    try (destruct (text_address testnet t) as [a |]; [destruct HT as [-> Ho0] | destruct HT as [a ->]]; cbn [mbind res_bind]);
    unfold whitelist_exists; cbn [storage_get t_]; rewrite ?(represents_find l S) by done;
    (eexists; split; [reflexivity | split; [| reflexivity]]); cbn [t_ whitelist_add whitelist_delete storage_self];
    first [done | by apply represents_add | by apply represents_delete].
Qed.

Lemma whitelist_run_spec os : forall s S,
  represents_set (t_ s) S -> Forall whitelist_op_valid os ->
  exists s', whitelist_run testnet s os = Ok (s', snd (ideal_whitelist_run testnet S os)) /\
    represents_set (t_ s') (fst (ideal_whitelist_run testnet S os)) /\ name_ s' = name_ s.
Proof using Type.
  induction os as [|o os IH]; intros s S HR Hos; [by exists s |]. apply Forall_cons in Hos as [Ho Hos].
  destruct (whitelist_step_spec s S o HR Ho) as (s1 & E1 & HR1 & EN1).
  cbn [whitelist_run ideal_whitelist_run]. rewrite E1. cbn [mbind res_bind].
  destruct (ideal_whitelist_step testnet S o) as [S1 out]. cbn [fst snd] in *.
  destruct (IH s1 S1 HR1 Hos) as (s2 & E2 & HR2 & EN2). rewrite E2. cbn [mbind res_bind].
  destruct (ideal_whitelist_run testnet S1 os) as [S2 outs]. cbn [fst snd] in *.
  exists s2. split; [done |]. split; [done | congruence].
Qed.

(** The whitelist stored in a state under a name. *)
Definition whitelist_at (w : world) (name : Z) (o : option (list bytes)) : Prop :=
  has_value int_item (list_tree Str) (set_valid hash_ltb (hash_valid 20)) w name o.

Lemma address_list_cost l : Forall address_valid l -> cost (list_tree Str l) = 9 + 21 * len l.
Proof using Type.
  intros Hl. unfold list_tree. rewrite cost_list. f_equal. induction Hl as [|a l [_ Ha] _ IH]; [done |].
  rewrite fmap_cons. cbn [total_cost foldr]. fold (total_cost (Str <$> l)). rewrite IH.
  assert (cost (Str a) = 21) as ->; [| cbn [length]; lia].
  cbn [cost]. unfold enc_str. destruct a as [|x [|y a]]; [done | done |].
  rewrite length_app, Ha. done.
Qed.

Lemma whitelist_value_ok l S :
  represents_set l S -> Z.of_nat (size S) < 2 ^ 27 ->
  value_ok (list_tree Str) (set_valid hash_ltb (hash_valid 20)) l.
Proof using Type.
  intros HR HSz. pose proof (represents_size l S HR). destruct HR as [HV HA _].
  split; [split; [| done] |].
  - eapply Forall_impl; [exact HV | apply address_hash_valid].
  - rewrite address_list_cost by done. unfold RLP_LIMIT, SIZE_MAX. lia.
Qed.

(** C36. A whitelist is a persistent set of addresses: in any session with an object of a
    name, over any calls of [Add], [Delete] and [Exists] with addresses or with text, each
    [Exists] answers membership in the mathematical set that started as the stored one
    (text that is no address is in no set and changes none), and the destructor stores
    exactly the final set, under that name only. The final set has less than 2^27 addresses,
    which keeps its encoding below the 32-bit sizes. *)
Theorem whitelist_session_correct (w : world) (name : Z) (l : list bytes) (S : gset bytes) (stored : bool)
    (os : list whitelist_op) :
  uint_valid 64 name -> whitelist_at w name (if stored then Some l else None) ->
  represents_set (if stored then l else []) S -> Forall whitelist_op_valid os ->
  let '(S', outs) := ideal_whitelist_run testnet S os in
  Z.of_nat (size S') < 2 ^ 27 ->
  exists l' w', whitelist_session testnet w name os = Ok (outs, w') /\
    represents_set l' S' /\ whitelist_at w' name (Some l') /\
    forall kb, kb <> enc (int_item name) -> contents w' kb = contents w kb.
Proof using HL HS.
  intros Hn HW HR Hos. destruct (ideal_whitelist_run testnet S os) as [S' outs] eqn:EI. intros HSz.
  unfold whitelist_session, whitelist_new.
  rewrite (init_at c_address_set (list_tree Str) (set_valid hash_ltb (hash_valid 20)) (all_prop hash_sized) w name [] []
             (if stored then Some l else None) Hn HW).
  cbn [mbind res_bind].
  destruct (whitelist_run_spec os (mkStorage name [] (default [] (if stored then Some l else None))) S)
    as (s' & E & HR' & EN); [by destruct stored | done |].
  rewrite EI in E, HR'. cbn [fst snd name_] in *. rewrite E. cbn [mbind res_bind].
  destruct (flush_at c_address_set (list_tree Str) (set_valid hash_ltb (hash_valid 20)) (all_prop hash_sized) w s')
    as (w' & EF & HW' & HFr); [by rewrite EN | by apply (whitelist_value_ok _ S') |].
  rewrite EF. cbn [mbind res_bind]. rewrite EN in *. by exists (t_ s'), w'.
Qed.
End AuthorityFacts.

#[local] Existing Instance host_rlp.
#[local] Existing Instance host_rlp_laws.
#[local] Existing Instance host_state.
#[local] Existing Instance host_state_laws.

Definition address_of (b : Z) : bytes := replicate 20 b.

Lemma address_of_valid b : 0 <= b < 256 -> address_valid (address_of b).
Proof. intros Hb. split; [| done]. by apply Forall_replicate. Qed.

Lemma owner_persists_witness :
  exists w', set_owner (fun _ => address_of 7) false (∅ : @world host_state) [] = Ok w' /\
    exists w'', is_owner (fun _ => address_of 7) false w' [] = Ok (true, w'').
Proof.
  assert (address_valid (address_of 7)) as H7 by (apply address_of_valid; lia).
  destruct (owner_persists (fun _ => address_of 7) (fun _ => address_of 7) false (∅ : @world host_state) None [])
    as (w' & E & _ & _ & HQ); [reflexivity | exact H7 |].
  exists w'. split; [exact E |]. destruct (HQ [] H7) as (w'' & E' & _). exists w''. exact E'.
Defined.

Lemma whitelist_session_correct_witness :
  let os := [WAdd (address_of 2); WAdd (address_of 1); WDelete (address_of 2); WExists (address_of 1);
             WExists (address_of 2); WAddText [120]] in
  exists l' w', whitelist_session false (∅ : @world host_state) 5 os
                = Ok ([None; None; None; Some true; Some false; None], w') /\
    represents_set l' (fst (ideal_whitelist_run false ∅ os)) /\ whitelist_at w' 5 (Some l') /\
    forall kb, kb <> enc (int_item 5) -> contents w' kb = contents (∅ : @world host_state) kb.
Proof.
  intros os. pose proof (whitelist_session_correct false (∅ : @world host_state) 5 [] ∅ false os) as HW.
  assert (forall b, 0 <= b < 256 -> address_valid (address_of b)) as HV by apply address_of_valid.
  assert (snd (ideal_whitelist_run false ∅ os) = [None; None; None; Some true; Some false; None]) as EO
    by (vm_compute; reflexivity).
  assert (Z.of_nat (size (fst (ideal_whitelist_run false ∅ os))) < 2 ^ 27) as ES by (vm_compute; reflexivity).
  destruct (ideal_whitelist_run false ∅ os) as [S' outs]. cbn [fst snd] in *. rewrite <- EO.
  apply HW; [unfold uint_valid; lia | reflexivity | | | exact ES].
  - split; [constructor | constructor |]. intros a. set_solver.
  - repeat (apply Forall_cons; split; [first [exact I | apply HV; lia] |]). by apply Forall_nil.
Defined.
