(* ===== verification/NormalIndex.v ===== *)
(** * db/multi_index.hpp, first part: non-unique indices

    A non-unique index maps a value to the ascending list of the sequence numbers of the
    rows with that value. In the state the list is cut into segments of at most 30, a
    doubly linked ring of values under the keys (table, index, value, serial); the
    segment of serial 0 is the head, its [previous] is the last one. *)

From Stdlib Require Import Sorted.
From S2P Require Import Prelude Common RlpSpec RlpReader RlpConvert HostRlp RlpStream RlpSize.
From S2P Require Import Serialize SerializeFacts HostState Storage.

(** ** Definitions *)

Definition HEADSERIAL : Z := 0.
Definition MAXSIZE : Z := 30.

Record NormalIndexValue := mkValue { previous : Z; vect_seq : list Z; next : Z }.

(** [std::lower_bound] in a sorted vector: the position of the first element that is not
    smaller. *)
Fixpoint lower_bound (l : list Z) (seq : Z) : nat :=
  match l with [] => 0 | x :: l' => if x <? seq then S (lower_bound l' seq) else 0 end.

(** [lower_bound], the check that it found [seq], and [erase]. *)
Definition erase_seq (l : list Z) (seq : Z) : option (list Z) :=
  let iter := lower_bound l seq in
  match l !! iter with
  | Some x => if x =? seq then Some (delete iter l) else None
  | None => None
  end.

Definition vector_front (l : list Z) : res Z :=
  match l with x :: _ => Ok x | [] => Undef "front of an empty vector" end.
Definition vector_back (l : list Z) : res Z :=
  match last l with Some x => Ok x | None => Undef "back of an empty vector" end.

Section NormalIndex.
Context `{HostRLP, HostState} {K : Type} (ck : codec K).

(** The members [PLATON_SERIALIZE] lists. *)
Definition c_index_value : codec NormalIndexValue :=
  c_view (fun v => (previous v, (vect_seq v, (next v, tt))))
         (fun x => mkValue (fst x) (fst (snd x)) (fst (snd (snd x))))
         (c_struct (fields_cons (c_uint 64) (fields_cons (c_vector (c_uint 64)) (fields_cons (c_uint 64) fields_nil)))).

Context (table_name index_name : Z).

(** [NormalIndexKey]: the value and the serial vary. *)
Definition c_index_key : codec (K * Z) :=
  c_view (fun k => (table_name, (index_name, (fst k, (snd k, tt)))))
         (fun x => (fst (snd (snd x)), fst (snd (snd (snd x)))))
         (c_struct (fields_cons (c_uint 64) (fields_cons (c_uint 64)
           (fields_cons ck (fields_cons (c_uint 64) fields_nil))))).

(** What an uninitialised [NormalIndexValue] holds: an empty vector and two integers. *)
Context (junk_previous junk_next : Z).
Definition uninitialised : NormalIndexValue := mkValue junk_previous [] junk_next.

Definition get_one (w : world) (value : K) (serial : Z) : res (Z * NormalIndexValue) :=
  get_state c_index_key c_index_value w (value, serial) uninitialised.

Definition has_normal_index_db (w : world) (value : K) : res bool :=
  '(len, _) ← get_one w value HEADSERIAL;
  if len =? 0 then Ok false else Ok true.

Definition get_normal_index_one_db (w : world) (value : K) (serial : Z) : res NormalIndexValue :=
  '(_, result) ← get_one w value serial; Ok result.

Definition set_normal_index_one_db (w : world) (value : K) (serial : Z) (index_value : NormalIndexValue)
    : res world :=
  set_state c_index_key c_index_value w (value, serial) index_value.

Definition delete_normal_index_one_db (w : world) (value : K) (serial : Z) : res world :=
  del_state c_index_key w (value, serial).

Definition append_normal_index_one_db (w : world) (seq : Z) (value : K) : res world :=
  '(len, head) ← get_one w value HEADSERIAL;
  if len =? 0 then
    set_normal_index_one_db w value HEADSERIAL (mkValue HEADSERIAL [seq] HEADSERIAL)
  else if (HEADSERIAL =? previous head) && (HEADSERIAL =? next head) then
    if Z.of_nat (length (vect_seq head)) <? MAXSIZE then
      set_normal_index_one_db w value HEADSERIAL (mkValue (previous head) (vect_seq head ++ [seq]) (next head))
    else
      let new_serial := HEADSERIAL + 1 in
      w1 ← set_normal_index_one_db w value new_serial (mkValue HEADSERIAL [seq] HEADSERIAL);
      set_normal_index_one_db w1 value HEADSERIAL (mkValue new_serial (vect_seq head) new_serial)
  else if negb (HEADSERIAL =? previous head) then
    let last_serial := previous head in
    old_last ← get_normal_index_one_db w value last_serial;
    if Z.of_nat (length (vect_seq old_last)) <? MAXSIZE then
      set_normal_index_one_db w value last_serial
        (mkValue (previous old_last) (vect_seq old_last ++ [seq]) (next old_last))
    else
      let new_serial := u64 (last_serial + 1) in
      w1 ← set_normal_index_one_db w value new_serial (mkValue last_serial [seq] HEADSERIAL);
      w2 ← set_normal_index_one_db w1 value last_serial
             (mkValue (previous old_last) (vect_seq old_last) new_serial);
      set_normal_index_one_db w2 value HEADSERIAL (mkValue new_serial (vect_seq head) (next head))
  else Ok w.

(** [next_valid]: the first stored segment from [serial] on, up to [last]. *)
Fixpoint next_valid_loop (fuel : nat) (w : world) (value : K) (last serial : Z)
    : res (option (Z * NormalIndexValue)) :=
  match fuel with
  | O => Fuel
  | S fuel' =>
      '(len, one_value) ← get_one w value serial;
      if negb (len =? 0) then Ok (Some (serial, one_value))
      else
        let serial' := u64 (serial + 1) in
        if last <? serial' then Ok None else next_valid_loop fuel' w value last serial'
  end.

Definition next_valid (w : world) (value : K) (last serial : Z) : res (option (Z * NormalIndexValue)) :=
  next_valid_loop (S (Z.to_nat (last - serial))) w value last serial.

(** [previous_valid]: the last stored segment up to [serial]. *)
Fixpoint previous_valid_loop (fuel : nat) (w : world) (value : K) (serial : Z)
    : res (option (Z * NormalIndexValue)) :=
  match fuel with
  | O => Fuel
  | S fuel' =>
      '(len, one_value) ← get_one w value serial;
      if negb (len =? 0) then Ok (Some (serial, one_value))
      else if HEADSERIAL =? serial then Ok None
      else previous_valid_loop fuel' w value (serial - 1)
  end.

Definition previous_valid (w : world) (value : K) (serial : Z) : res (option (Z * NormalIndexValue)) :=
  previous_valid_loop (S (Z.to_nat serial)) w value serial.

(** The segment [real_serial] has lost its last sequence number. *)
Definition unlink (w : world) (value : K) (head : NormalIndexValue) (real_serial : Z)
    (real_value : NormalIndexValue) : res world :=
  let prev := previous real_value in
  let nxt := next real_value in
  w1 ← delete_normal_index_one_db w value real_serial;
  if HEADSERIAL =? real_serial then
    if (HEADSERIAL =? prev) && (HEADSERIAL =? nxt) then Ok w1
    else if prev =? nxt then
      next_value ← get_normal_index_one_db w1 value nxt;
      w2 ← delete_normal_index_one_db w1 value nxt;
      set_normal_index_one_db w2 value HEADSERIAL next_value
    else
      next_value ← get_normal_index_one_db w1 value nxt;
      let next_value' := mkValue prev (vect_seq next_value) (next next_value) in
      w2 ← delete_normal_index_one_db w1 value nxt;
      w3 ← set_normal_index_one_db w2 value HEADSERIAL next_value';
      let new_next := next next_value' in
      new_next_value ← get_normal_index_one_db w3 value new_next;
      set_normal_index_one_db w3 value new_next
        (mkValue HEADSERIAL (vect_seq new_next_value) (next new_next_value))
  else if (HEADSERIAL =? prev) && (HEADSERIAL =? nxt) then
    set_normal_index_one_db w1 value HEADSERIAL (mkValue HEADSERIAL (vect_seq head) HEADSERIAL)
  else
    previous_value ← get_normal_index_one_db w1 value prev;
    w2 ← set_normal_index_one_db w1 value prev (mkValue (previous previous_value) (vect_seq previous_value) nxt);
    next_value ← get_normal_index_one_db w2 value nxt;
    set_normal_index_one_db w2 value nxt (mkValue prev (vect_seq next_value) (next next_value)).

(** The branch that found the segment. *)
Definition erase_from (w : world) (value : K) (head : NormalIndexValue) (seq real_serial : Z)
    (real_value : NormalIndexValue) : res world :=
  match erase_seq (vect_seq real_value) seq with
  | None => Ok w
  | Some rest =>
      let real_value' := mkValue (previous real_value) rest (next real_value) in
      if Z.of_nat (length rest) =? 0 then unlink w value head real_serial real_value'
      else set_normal_index_one_db w value real_serial real_value'
  end.

(** [while (begin_serial <= end_serial)]. *)
Fixpoint search_loop (fuel : nat) (w : world) (value : K) (head : NormalIndexValue) (seq : Z)
    (begin_serial end_serial : Z) : res world :=
  match fuel with
  | O => Fuel
  | S fuel' =>
      if begin_serial <=? end_serial then
        let mid_serial := u64 (begin_serial + end_serial) / 2 in
        found ← next_valid w value (previous head) mid_serial;
        match found with
        | None => Ok w
        | Some (first, v) =>
            back ← vector_back (vect_seq v);
            if back <? seq then
              after ← next_valid w value (previous head) (u64 (first + 1));
              match after with
              | None => Ok w
              | Some (begin', _) => search_loop fuel' w value head seq begin' end_serial
              end
            else
              front ← vector_front (vect_seq v);
              if seq <? front then
                let mid' := if mid_serial =? first then u64 (mid_serial - 1) else mid_serial in
                before ← previous_valid w value mid';
                match before with
                | None => Ok w
                | Some (end', _) => search_loop fuel' w value head seq begin_serial end'
                end
              else erase_from w value head seq first v
        end
      else Ok w
  end.

Definition delete_normal_index_db (w : world) (seq : Z) (value : K) : res world :=
  '(len, head) ← get_one w value HEADSERIAL;
  if len =? 0 then Ok w
  else if (HEADSERIAL =? previous head) && (HEADSERIAL =? next head) then
    match erase_seq (vect_seq head) seq with
    | None => Ok w
    | Some rest =>
        if Z.of_nat (length rest) =? 0 then delete_normal_index_one_db w value HEADSERIAL
        else set_normal_index_one_db w value HEADSERIAL (mkValue (previous head) rest (next head))
    end
  else search_loop (S (S (Z.to_nat (previous head)))) w value head seq HEADSERIAL (previous head).

(** The segments are followed from the head; serials do not exceed the head's [previous]. *)
Fixpoint count_loop (fuel : nat) (w : world) (value : K) (head : NormalIndexValue) (count : Z) : res Z :=
  if HEADSERIAL =? next head then Ok count
  else match fuel with
       | O => Fuel
       | S fuel' =>
           head' ← get_normal_index_one_db w value (next head);
           count_loop fuel' w value head' (u32 (count + Z.of_nat (length (vect_seq head'))))
       end.

Definition get_normal_index_count_db (w : world) (value : K) : res Z :=
  head ← get_normal_index_one_db w value HEADSERIAL;
  count_loop (Z.to_nat (previous head)) w value head (Z.of_nat (length (vect_seq head))).

(** *** Index::const_iterator: a segment's serial and a position in it *)

Record index_iterator := mkIndexIter { it_key : K; it_serial : Z; it_num : Z }.

Definition index_cend (key : K) : index_iterator := mkIndexIter key HEADSERIAL MAXSIZE.

Definition index_cbegin (w : world) (value : K) : res index_iterator :=
  '(len, _) ← get_one w value HEADSERIAL;
  if len =? 0 then Ok (index_cend value) else Ok (mkIndexIter value HEADSERIAL 0).

(** [operator!=], for iterators of one index and one key. *)
Definition index_iter_neq (a b : index_iterator) : bool :=
  negb ((it_serial a =? it_serial b) && (it_num a =? it_num b)).

Definition index_get_seq (w : world) (it : index_iterator) : res Z :=
  index_value ← get_normal_index_one_db w (it_key it) (it_serial it);
  match zget (vect_seq index_value) (it_num it) with
  | Some seq => Ok seq
  | None => Undef "vector index out of range"
  end.

Definition index_incr (w : world) (it : index_iterator) : res index_iterator :=
  index_value ← get_normal_index_one_db w (it_key it) (it_serial it);
  if it_num it =? u32 (Z.of_nat (length (vect_seq index_value)) - 1) then
    let serial := next index_value in
    Ok (mkIndexIter (it_key it) serial (if HEADSERIAL =? serial then MAXSIZE else 0))
  else Ok (mkIndexIter (it_key it) (it_serial it) (u32 (it_num it + 1))).

Definition index_decr (w : world) (it : index_iterator) : res index_iterator :=
  index_value ← get_normal_index_one_db w (it_key it) (it_serial it);
  let to_previous :=
    let serial := previous index_value in
    index_value' ← get_normal_index_one_db w (it_key it) serial;
    Ok (mkIndexIter (it_key it) serial (u32 (Z.of_nat (length (vect_seq index_value')) - 1))) in
  if it_num it =? 0 then
    if HEADSERIAL =? it_serial it then Ok (mkIndexIter (it_key it) (it_serial it) MAXSIZE)
    else to_previous
  else if (MAXSIZE =? it_num it) && (HEADSERIAL =? it_serial it) then to_previous
  else Ok (mkIndexIter (it_key it) (it_serial it) (it_num it - 1)).

(** [for (auto it = index.cbegin(v); it != index.cend(v); ++it)]: the sequence numbers. *)
Fixpoint index_loop_from (fuel : nat) (w : world) (it : index_iterator) : res (list Z) :=
  match fuel with
  | O => Fuel
  | S fuel' =>
      if index_iter_neq it (index_cend (it_key it)) then
        seq ← index_get_seq w it;
        it' ← index_incr w it;
        rest ← index_loop_from fuel' w it';
        Ok (seq :: rest)
      else Ok []
  end.

Definition index_traverse (fuel : nat) (w : world) (value : K) : res (list Z) :=
  it ← index_cbegin w value; index_loop_from fuel w it.
End NormalIndex.

Arguments mkIndexIter {K}.
Arguments it_key {K}.
Arguments it_serial {K}.
Arguments it_num {K}.
