(* ===== verification/IndexRing.v ===== *)
(** * The segments of a non-unique index, as a list

    The specification side of [NormalIndex]: what the stored segments of one value are
    ([ring]), when they are well formed ([segments_ok]), and what changing, adding or
    removing one segment does to them. Nothing here models code. *)

From Stdlib Require Import Sorted.
From stdpp Require Import sorting.
From S2P Require Import Prelude NormalIndex.

(** ** Definitions *)

(** A segment: its serial and its sequence numbers. *)
Abbreviation segment := (Z * list Z)%type.

Definition last_serial (p : Z) (A : list segment) : Z := default p (fst <$> last A).
Definition first_serial (A : list segment) (fin : Z) : Z := match A with (s, _) :: _ => s | [] => fin end.

(** The value stored under serial [s], for segments that follow the segment [prev] and
    lead to [fin]. *)
Fixpoint seg_lookup (prev : Z) (segs : list segment) (fin s : Z) : option NormalIndexValue :=
  match segs with
  | [] => None
  | (s0, l) :: rest =>
      if decide (s = s0) then Some (mkValue prev l (first_serial rest fin))
      else seg_lookup s0 rest fin s
  end.

(** The segments of one value: the head's [previous] is the last one. *)
Definition ring (segs : list segment) : Z -> option NormalIndexValue :=
  seg_lookup (last_serial HEADSERIAL segs) segs HEADSERIAL.

(** One entry of the state changed. *)
Definition put (g : Z -> option NormalIndexValue) (s : Z) (o : option NormalIndexValue)
    : Z -> option NormalIndexValue :=
  fun s' => if decide (s' = s) then o else g s'.

Definition same_map (g g' : Z -> option NormalIndexValue) : Prop := forall s, g s = g' s.
Infix "≗" := same_map (at level 70).

(** Sequence numbers stay below 2^63, far more rows than a chain can hold. *)
Definition SEQ_LIMIT : Z := 2 ^ 63.

(** All sequence numbers, in order. *)
Definition seqs (segs : list segment) : list Z := concat (snd <$> segs).

Definition seg_ok (sg : segment) : Prop :=
  0 <= fst sg /\ 0 < len (snd sg) <= MAXSIZE /\ Forall (fun q => fst sg <= q < SEQ_LIMIT) (snd sg).

Record segments_ok (segs : list segment) : Prop := {
  segs_head : segs = [] \/ first_serial segs 1 = HEADSERIAL;
  segs_sorted : StronglySorted Z.lt (fst <$> segs);
  segs_seqs : StronglySorted Z.lt (seqs segs);
  segs_each : Forall seg_ok segs
}.

(** ** Lookup *)

Lemma last_serial_snoc p A s l : last_serial p (A ++ [(s, l)]) = s.
Proof. unfold last_serial. by rewrite last_snoc. Qed.

Lemma last_serial_app p A B : last_serial p (A ++ B) = last_serial (last_serial p A) B.
Proof.
  unfold last_serial. rewrite last_app. by destruct (last B), (last A).
Qed.

Lemma last_serial_cons p a A : last_serial p (a :: A) = last_serial (fst a) A.
Proof. exact (last_serial_app p [a] A). Qed.

Lemma seg_lookup_app prev A B fin s :
  seg_lookup prev (A ++ B) fin s =
  match seg_lookup prev A (first_serial B fin) s with
  | Some x => Some x
  | None => seg_lookup (last_serial prev A) B fin s
  end.
Proof.
  revert prev. induction A as [| [s0 l] A IH]; intros prev; cbn [app seg_lookup]; [done |].
  case_decide as E.
  - by destruct A as [| [s1 l1] A].
  - by rewrite IH, last_serial_cons.
Qed.

Lemma seg_lookup_none prev A fin s :
  seg_lookup prev A fin s = None <-> s ∉ (fst <$> A).
Proof.
  revert prev. induction A as [| [s0 l] A IH]; intros prev; cbn [seg_lookup].
  - split; [intros _; apply not_elem_of_nil | done].
  - rewrite fmap_cons, not_elem_of_cons. case_decide; cbn [fst]; [split; [done | tauto] |].
    rewrite IH. tauto.
Qed.

Lemma last_serial_nil p : last_serial p [] = p.
Proof. done. Qed.

Lemma first_serial_app A B fin : first_serial (A ++ B) fin = first_serial A (first_serial B fin).
Proof. by destruct A as [| [] ?]. Qed.

(** Where a segment is, its value. *)
Lemma ring_at A s l B :
  s ∉ (fst <$> A) ->
  ring (A ++ (s, l) :: B) s =
  Some (mkValue (last_serial (last_serial s B) A) l (first_serial B HEADSERIAL)).
Proof.
  intros Hs. unfold ring. rewrite seg_lookup_app.
  rewrite (proj2 (seg_lookup_none _ A _ s) Hs). cbn [seg_lookup]. rewrite decide_True by done.
  by rewrite last_serial_app, last_serial_cons.
Qed.

Lemma ring_none segs s : ring segs s = None <-> s ∉ (fst <$> segs).
Proof. apply seg_lookup_none. Qed.

(** ** Changes of one segment *)

(** Serials that differ are decided, lookups are cut at the segments. *)
Ltac ring_norm :=
  unfold ring, put;
  repeat (progress (cbn [fst seg_lookup first_serial app];
    rewrite ?last_serial_app, ?last_serial_cons, ?last_serial_nil, ?first_serial_app, ?seg_lookup_app)).

(** The serials in [H] computed at the ends of lists. *)
Ltac ring_serials H :=
  unfold HEADSERIAL in H; repeat (progress (cbn [fst first_serial app] in H;
    rewrite ?last_serial_app, ?last_serial_cons, ?last_serial_nil, ?first_serial_app in H)).

Ltac ring_serials_goal :=
  unfold HEADSERIAL; repeat (progress (cbn [fst first_serial app];
    rewrite ?last_serial_app, ?last_serial_cons, ?last_serial_nil, ?first_serial_app)).

Ltac ring_cases :=
  repeat (case_decide; subst; try done);
  repeat match goal with
    | H : ?s ∉ (fst <$> ?A) |- context [seg_lookup ?p ?A ?f ?s] =>
        rewrite (proj2 (seg_lookup_none p A f s) H)
    end; try done.

Lemma not_in_nil (s : Z) : s ∉ (fst <$> ([] : list segment)).
Proof. apply not_elem_of_nil. Qed.

(** The sequence numbers of a segment change. *)
Lemma ring_replace A s l l' B :
  s ∉ (fst <$> A) ->
  put (ring (A ++ (s, l) :: B)) s
      (Some (mkValue (last_serial (last_serial s B) A) l' (first_serial B HEADSERIAL)))
  ≗ ring (A ++ (s, l') :: B).
Proof. intros HA x. ring_norm. ring_cases. Qed.

(** A second segment. *)
Lemma ring_second l q :
  put (put (ring [(0, l)]) 1 (Some (mkValue 0 [q] 0))) 0 (Some (mkValue 1 l 1))
  ≗ ring [(0, l); (1, [q])].
Proof. intros x. ring_norm. ring_cases. Qed.

(** A segment after the last of several. *)
Lemma ring_push h A t l n q :
  t ∉ (fst <$> (0, h) :: A) -> n ∉ (fst <$> (0, h) :: A ++ [(t, l)]) ->
  put (put (put (ring ((0, h) :: A ++ [(t, l)])) n (Some (mkValue t [q] 0)))
           t (Some (mkValue (last_serial 0 A) l n)))
      0 (Some (mkValue n h (first_serial A t)))
  ≗ ring ((0, h) :: A ++ [(t, l); (n, [q])]).
Proof.
  rewrite !fmap_cons, fmap_app, !not_elem_of_cons, not_elem_of_app; cbn [fst].
  intros [Ht HtA] (Hn & HnA & Hnt). rewrite fmap_cons, not_elem_of_cons in Hnt.
  destruct Hnt as [Hnt _]. cbn [fst] in Hnt. intros x. ring_norm. ring_cases.
Qed.

(** ** Removal of one segment *)

(** Serials that occur once. *)
Lemma distinct_mid (A B : list segment) (a : Z) (l : list Z) :
  NoDup (fst <$> (A ++ (a, l) :: B)) -> (a ∉ (fst <$> A)) /\ (a ∉ (fst <$> B)) /\ NoDup (fst <$> (A ++ B)).
Proof.
  rewrite !fmap_app, fmap_cons. cbn [fst]. rewrite <- Permutation_middle, NoDup_cons, not_elem_of_app.
  tauto.
Qed.

(** [H : NoDup (fst <$> segs)] as inequalities and non-memberships. *)
Ltac split_distinct H :=
  repeat (progress rewrite ?fmap_app, ?fmap_cons, ?NoDup_app, ?NoDup_cons, ?not_elem_of_cons,
    ?not_elem_of_app in H); cbn [fst] in H; destruct_and? H.

(** The head is removed and the second segment takes its serial. *)
Lemma ring_drop_head_two l b lb :
  b <> 0 ->
  put (put (put (ring [(0, l); (b, lb)]) 0 None) b None) 0 (Some (mkValue 0 lb 0)) ≗ ring [(0, lb)].
Proof. intros Hb x. ring_norm. ring_cases. Qed.

Lemma ring_drop_head l b lb c lc B :
  NoDup (fst <$> (0, l) :: (b, lb) :: (c, lc) :: B) ->
  put (put (put (put (ring ((0, l) :: (b, lb) :: (c, lc) :: B)) 0 None) b None)
           0 (Some (mkValue (last_serial c B) lb c)))
      c (Some (mkValue 0 lc (first_serial B 0)))
  ≗ ring ((0, lb) :: (c, lc) :: B).
Proof. intros HN. split_distinct HN. intros x. ring_norm. ring_cases. Qed.

(** The last segment is removed. *)
Lemma ring_drop_last_two h t l :
  t <> 0 -> put (put (ring [(0, h); (t, l)]) t None) 0 (Some (mkValue 0 h 0)) ≗ ring [(0, h)].
Proof. intros Ht x. ring_norm. ring_cases. Qed.

Lemma ring_drop_last h A a la t l :
  NoDup (fst <$> (0, h) :: A ++ [(a, la); (t, l)]) ->
  put (put (put (ring ((0, h) :: A ++ [(a, la); (t, l)])) t None)
           a (Some (mkValue (last_serial 0 A) la 0)))
      0 (Some (mkValue a h (first_serial A a)))
  ≗ ring ((0, h) :: A ++ [(a, la)]).
Proof.
  intros HN. pose proof (distinct_mid ((0, h) :: A) [(t, l)] a la HN) as HA.
  rewrite cons_middle, app_assoc in HN.
  pose proof (distinct_mid ((0, h) :: A ++ [(a, la)]) [] t l HN) as HT.
  clear HN. destruct HA as (HA & HA' & _), HT as (HT & _ & _).
  split_distinct HA. split_distinct HA'. split_distinct HT.
  intros x. ring_norm. ring_cases.
Qed.

(** A segment between two others is removed. *)
Lemma ring_drop_mid A a la t l b lb B :
  NoDup (fst <$> (A ++ (a, la) :: (t, l) :: (b, lb) :: B)) ->
  put (put (put (ring (A ++ (a, la) :: (t, l) :: (b, lb) :: B)) t None)
           a (Some (mkValue (last_serial (last_serial b B) A) la b)))
      b (Some (mkValue a lb (first_serial B 0)))
  ≗ ring (A ++ (a, la) :: (b, lb) :: B).
Proof.
  intros HN. destruct (distinct_mid _ _ _ _ HN) as (HA & HA' & HN').
  destruct (distinct_mid _ _ _ _ HN') as (HT & HT' & HN'').
  destruct (distinct_mid _ _ _ _ HN'') as (HB & HB' & _). clear HN HN' HN''.
  split_distinct HA'. split_distinct HT'.
  intros x. ring_norm. ring_cases.
Qed.

(** ** Well-formed segments *)

Lemma seqs_app A B : seqs (A ++ B) = seqs A ++ seqs B.
Proof. unfold seqs. by rewrite fmap_app, concat_app. Qed.

Lemma seqs_cons s l B : seqs ((s, l) :: B) = l ++ seqs B.
Proof. done. Qed.

Lemma elem_of_seqs segs q : q ∈ seqs segs <-> exists s l, (s, l) ∈ segs /\ q ∈ l.
Proof.
  unfold seqs. rewrite list_elem_of_In, in_concat. setoid_rewrite <- list_elem_of_In.
  split.
  - intros (l & Hl & Hq). apply list_elem_of_fmap in Hl as ([s l'] & -> & Hl). by exists s, l'.
  - intros (s & l & Hl & Hq). exists l. split; [| done]. apply list_elem_of_fmap. by exists (s, l).
Qed.

Lemma sorted_nodup (l : list Z) : StronglySorted Z.lt l -> NoDup l.
Proof.
  induction 1 as [| x l _ IH HF]; constructor; [| done].
  intros Hx. pose proof (proj1 (Forall_forall _ _) HF x Hx). lia.
Qed.

Lemma sorted_filter (P : Z -> Prop) `{!forall x, Decision (P x)} (l : list Z) :
  StronglySorted Z.lt l -> StronglySorted Z.lt (filter P l).
Proof.
  induction 1 as [| x l _ IH HF]; [constructor |].
  rewrite filter_cons. case_decide; [| done]. constructor; [done |].
  apply Forall_forall. intros y Hy. apply list_elem_of_filter in Hy as [_ Hy].
  by apply (proj1 (Forall_forall _ _) HF).
Qed.

Lemma filter_id (P : Z -> Prop) `{!forall x, Decision (P x)} (l : list Z) :
  (forall x, x ∈ l -> P x) -> filter P l = l.
Proof.
  induction l as [| x l IH]; intros HP; [done |]. rewrite filter_cons, decide_True by set_solver.
  f_equal. apply IH. set_solver.
Qed.

Section SegmentsOk.
Context (segs : list segment) (HO : segments_ok segs).

Lemma segs_distinct : NoDup (fst <$> segs).
Proof using HO. apply sorted_nodup, HO. Qed.

Lemma segs_same s l l' : (s, l) ∈ segs -> (s, l') ∈ segs -> l = l'.
Proof using HO.
  intros H H'. apply list_elem_of_split in H as (A & B & E).
  pose proof segs_distinct as HN. rewrite E in HN. destruct (distinct_mid _ _ _ _ HN) as (HA & HB & _).
  rewrite E in H'. apply elem_of_app in H' as [H' | H'].
  - destruct HA. apply list_elem_of_fmap. by exists (s, l').
  - apply elem_of_cons in H' as [[= ->] | H']; [done |].
    destruct HB. apply list_elem_of_fmap. by exists (s, l').
Qed.

Lemma segs_order s s' l l' x y :
  (s, l) ∈ segs -> (s', l') ∈ segs -> s < s' -> x ∈ l -> y ∈ l' -> x < y.
Proof using HO.
  intros H H' Hlt Hx Hy. apply list_elem_of_split in H as (A & B & E).
  pose proof (segs_sorted _ HO) as HS. pose proof (segs_seqs _ HO) as HQ. rewrite E in HS, HQ, H'.
  rewrite fmap_app, fmap_cons in HS. rewrite seqs_app, seqs_cons in HQ.
  apply StronglySorted_app in HQ as (_ & _ & HQ).
  apply elem_of_app in H' as [H' | H'].
  - pose proof (StronglySorted_app_1_elem_of _ _ _ s' s HS) as HL. cbn [fst] in HL.
    assert (s' < s); [| lia]. apply HL; [| left]. apply list_elem_of_fmap. by exists (s', l').
  - apply elem_of_cons in H' as [[= -> ->] | H']; [lia |].
    apply (StronglySorted_app_1_elem_of _ _ _ x y HQ Hx). apply elem_of_seqs. by exists s', l'.
Qed.

Lemma segs_each_ok s l : (s, l) ∈ segs -> seg_ok (s, l).
Proof using HO. exact (proj1 (Forall_forall _ _) (segs_each _ HO) (s, l)). Qed.

Lemma segs_nonempty s l : (s, l) ∈ segs -> exists x l', l = x :: l'.
Proof using HO.
  intros H. destruct (segs_each_ok s l H) as (_ & HL & _). cbn [snd] in HL.
  destruct l as [| x l']; [simpl in HL; lia | by exists x, l'].
Qed.

Lemma segs_serial s l : (s, l) ∈ segs -> 0 <= s < SEQ_LIMIT.
Proof using HO.
  intros H. destruct (segs_nonempty s l H) as (x & l' & ->).
  destruct (segs_each_ok s _ H) as (H0 & _ & HF). apply Forall_cons in HF as [HF _].
  cbn [fst snd] in *. lia.
Qed.

(** What the ring has under the serial of a segment, and nowhere else. *)
Lemma ring_elem s l :
  (s, l) ∈ segs -> exists x, ring segs s = Some x /\ vect_seq x = l.
Proof using HO.
  intros H. apply list_elem_of_split in H as (A & B & E).
  pose proof segs_distinct as HN. rewrite E in HN |- *. destruct (distinct_mid _ _ _ _ HN) as (HA & _ & _).
  rewrite ring_at by done. by eexists.
Qed.

Lemma ring_elem_inv s x : ring segs s = Some x -> (s, vect_seq x) ∈ segs.
Proof using HO.
  intros H. destruct (decide (s ∈ (fst <$> segs))) as [Hs | Hs].
  - apply list_elem_of_fmap in Hs as ([s' l] & -> & Hs). cbn [fst] in *.
    destruct (ring_elem s' l Hs) as (x' & E & E'). rewrite E in H. simplify_eq. done.
  - apply ring_none in Hs. by rewrite Hs in H.
Qed.
End SegmentsOk.

Lemma sorted_bounds (l : list Z) :
  StronglySorted Z.lt l -> l <> [] ->
  exists f k, vector_front l = Ok f /\ vector_back l = Ok k /\ f ∈ l /\ k ∈ l /\
    (forall x, x ∈ l -> f <= x <= k).
Proof.
  intros HS Hl. destruct l as [| f l]; [done |]. destruct (exists_last Hl) as (A & k & E).
  assert (last (f :: l) = Some k) as EL by by rewrite E, last_snoc.
  exists f, k. unfold vector_back. rewrite EL. split; [done |]. split; [done |]. split; [left |]. split; [rewrite E; set_solver |].
  intros x Hx. split.
  - apply elem_of_cons in Hx as [-> | Hx]; [lia |]. apply StronglySorted_inv in HS as [_ HS].
    pose proof (proj1 (Forall_forall _ _) HS x Hx). lia.
  - rewrite E in HS, Hx. apply elem_of_app in Hx as [Hx | Hx]; [| by apply list_elem_of_singleton in Hx as ->].
    pose proof (StronglySorted_app_1_elem_of _ _ _ x k HS Hx ltac:(set_solver)). lia.
Qed.

Section SegmentsBounds.
Context (segs : list segment) (HO : segments_ok segs).

Lemma segs_list_sorted s l : (s, l) ∈ segs -> StronglySorted Z.lt l.
Proof using HO.
  intros H. apply list_elem_of_split in H as (A & B & E). pose proof (segs_seqs _ HO) as HQ.
  rewrite E, seqs_app, seqs_cons in HQ.
  by apply StronglySorted_app_1_r, StronglySorted_app_1_l in HQ.
Qed.

Lemma segs_bounds s l :
  (s, l) ∈ segs ->
  exists f k, vector_front l = Ok f /\ vector_back l = Ok k /\ f ∈ l /\ k ∈ l /\
    (forall x, x ∈ l -> f <= x <= k).
Proof using HO.
  intros H. apply sorted_bounds; [by eapply segs_list_sorted |].
  destruct (segs_nonempty segs HO s l H) as (x & l' & ->). done.
Qed.

(** The last segment is the head's [previous]. *)
Lemma segs_last : segs <> [] ->
  is_Some (ring segs (last_serial HEADSERIAL segs)) /\
  (forall s, is_Some (ring segs s) -> s <= last_serial HEADSERIAL segs).
Proof using HO.
  intros Hn. destruct (exists_last Hn) as (A & [t l] & E).
  assert (last_serial HEADSERIAL segs = t) as -> by by rewrite E, last_serial_snoc.
  split.
  - destruct (ring_elem segs HO t l) as (x & -> & _); [rewrite E; set_solver | by eexists].
  - intros s [x Hx]. apply (ring_elem_inv segs HO) in Hx. rewrite E in Hx.
    apply elem_of_app in Hx as [Hx | Hx].
    + pose proof (segs_sorted _ HO) as HS. rewrite E, fmap_app in HS.
      pose proof (StronglySorted_app_1_elem_of _ _ _ s t HS) as HL. cbn in HL.
      assert (s < t); [| lia]. apply HL; [| left]. apply list_elem_of_fmap. by exists (s, vect_seq x).
    + apply list_elem_of_singleton in Hx as [= -> _]. lia.
Qed.

Lemma segs_head_first l : is_Some (ring segs l) -> is_Some (ring segs HEADSERIAL).
Proof using HO.
  intros [x Hx]. apply (ring_elem_inv segs HO) in Hx. destruct (segs_head _ HO) as [E | E].
  - rewrite E in Hx. by apply not_elem_of_nil in Hx.
  - destruct segs as [| [s l'] B] eqn:Es; [done |]. cbn in E. subst s. unfold ring.
    cbn [seg_lookup]. by rewrite decide_True.
Qed.
End SegmentsBounds.

(** ** A new sequence number *)

Lemma segments_ok_nil : segments_ok [].
Proof. split; [by left | constructor | constructor | constructor]. Qed.

Lemma segs_shape segs :
  segments_ok segs ->
  segs = [] \/ (exists l, segs = [(0, l)]) \/ (exists h A t l, segs = (0, h) :: A ++ [(t, l)]).
Proof.
  intros HO. destruct segs as [| [s h] B]; [by left |]. right.
  destruct (segs_head _ HO) as [? | E]; [done |]. cbn in E. subst s.
  destruct B as [| b B]; [left; by exists h |]. right.
  destruct (exists_last (l := b :: B)) as (A & [t l] & E); [done |]. exists h, A, t, l. by rewrite E.
Qed.

Lemma segs_cons segs : segments_ok segs -> segs <> [] -> exists h C, segs = (0, h) :: C.
Proof.
  intros HO Hn. destruct segs as [| [s h] C]; [done |]. destruct (segs_head _ HO) as [? | E]; [done |].
  cbn in E. subst s. by exists h, C.
Qed.

Lemma sorted_snoc (l : list Z) q :
  StronglySorted Z.lt l -> (forall x, x ∈ l -> x < q) -> StronglySorted Z.lt (l ++ [q]).
Proof.
  intros HS HQ. apply StronglySorted_app_2; [| done | by repeat constructor].
  intros x y Hx Hy. apply list_elem_of_singleton in Hy as ->. by apply HQ.
Qed.

Section NewSeq.
Context (A : list segment) (t : Z) (l : list Z) (q : Z).
Context (HO : segments_ok (A ++ [(t, l)])) (HQ : forall x, x ∈ seqs (A ++ [(t, l)]) -> x < q).
Context (Hq : 0 <= q < SEQ_LIMIT).

Lemma new_seq_above : t < q.
Proof using All.
  destruct (segs_nonempty _ HO t l) as (x & l' & ->); [set_solver |].
  destruct (segs_each_ok _ HO t (x :: l')) as (_ & _ & HF); [set_solver |].
  apply Forall_cons in HF as [HF _]. cbn [fst] in HF.
  assert (x < q); [| lia]. apply HQ, elem_of_seqs. exists t, (x :: l'). set_solver.
Qed.

(** The last segment has room. *)
Lemma segments_ok_grow :
  len l < MAXSIZE ->
  segments_ok (A ++ [(t, l ++ [q])]) /\ seqs (A ++ [(t, l ++ [q])]) = seqs (A ++ [(t, l)]) ++ [q].
Proof using All.
  intros HL. pose proof new_seq_above as Ht.
  assert (seqs (A ++ [(t, l ++ [q])]) = seqs (A ++ [(t, l)]) ++ [q]) as ES.
  { rewrite !seqs_app, !seqs_cons. by rewrite !app_nil_r, <- app_assoc. }
  split; [| done]. destruct HO as [HH HS' HSq HF]. split.
  - right. destruct HH as [HH | HH]; [by destruct A |]. by destruct A as [| [] ?].
  - by rewrite fmap_app in HS' |- *.
  - rewrite ES. by apply sorted_snoc.
  - apply Forall_app in HF as [HF HF']. apply Forall_app. split; [done |].
    rewrite Forall_singleton in HF'. apply Forall_singleton. destruct HF' as (H0 & H1 & H2).
    unfold seg_ok in *. cbn [fst snd] in *. rewrite length_app. simpl length.
    split; [done |]. split; [lia |]. apply Forall_app. split; [done |]. by repeat constructor; lia.
Qed.

(** A new segment. *)
Lemma segments_ok_push :
  segments_ok (A ++ [(t, l); (t + 1, [q])]) /\
  seqs (A ++ [(t, l); (t + 1, [q])]) = seqs (A ++ [(t, l)]) ++ [q] /\ t + 1 < SEQ_LIMIT /\
  (t + 1 ∉ (fst <$> A ++ [(t, l)])).
Proof using All.
  pose proof new_seq_above as Ht.
  assert (A ++ [(t, l); (t + 1, [q])] = (A ++ [(t, l)]) ++ [(t + 1, [q])]) as -> by by rewrite <- app_assoc.
  assert (seqs ((A ++ [(t, l)]) ++ [(t + 1, [q])]) = seqs (A ++ [(t, l)]) ++ [q]) as ES.
  { by rewrite seqs_app. }
  assert (forall s, s ∈ (fst <$> (A ++ [(t, l)])) -> s < t + 1) as HL.
  { intros s Hs. apply list_elem_of_fmap in Hs as ([s' l'] & -> & Hs). cbn [fst].
    destruct (segs_last _ HO) as [_ HM]; [by destruct A |]. rewrite last_serial_snoc in HM.
    destruct (ring_elem _ HO s' l' Hs) as (x & Hx & _). assert (s' <= t); [| lia]. apply HM. by eexists. }
  pose proof (segs_serial _ HO t l ltac:(set_solver)) as Hs.
  split; [| split; [done |]; split; [lia |]].
  - destruct HO as [HH HS' HSq HF]. split.
    + right. destruct HH as [HH | HH]; [by destruct A |]. by destruct A as [| [] ?].
    + rewrite fmap_app. by apply sorted_snoc.
    + rewrite ES. by apply sorted_snoc.
    + apply Forall_app. split; [done |]. apply Forall_singleton. unfold seg_ok. cbn [fst snd].
      split; [lia |]. split; [unfold MAXSIZE; simpl; lia |]. apply Forall_singleton. lia.
  - intros Hin. specialize (HL _ Hin). lia.
Qed.
End NewSeq.

Lemma segments_ok_first q : 0 <= q < SEQ_LIMIT -> segments_ok [(0, [q])].
Proof.
  intros Hq. split.
  - by right.
  - by repeat constructor.
  - by repeat constructor.
  - apply Forall_singleton. unfold seg_ok, MAXSIZE. cbn [fst snd].
    split; [done |]. split; [simpl; lia | by apply Forall_singleton].
Qed.

Lemma last_serial_in p A : last_serial p A = p \/ last_serial p A ∈ (fst <$> A).
Proof.
  unfold last_serial. destruct (last A) as [[s l] |] eqn:E; [right | by left]. cbn.
  apply last_Some in E as (B & ->). apply list_elem_of_fmap. exists (s, l). set_solver.
Qed.

Lemma first_serial_in A fin : first_serial A fin = fin \/ first_serial A fin ∈ (fst <$> A).
Proof. destruct A as [| [s l] A]; [by left | right; left]. Qed.

(** The links of a ring are serials. *)
Lemma ring_links segs s x :
  segments_ok segs -> ring segs s = Some x ->
  0 <= previous x < SEQ_LIMIT /\ 0 <= next x < SEQ_LIMIT /\ len (vect_seq x) <= MAXSIZE /\
  Forall (fun q => 0 <= q < SEQ_LIMIT) (vect_seq x).
Proof.
  intros HO Hx. pose proof (ring_elem_inv segs HO s x Hx) as Hin.
  assert (forall s, s ∈ (fst <$> segs) -> 0 <= s < SEQ_LIMIT) as HS.
  { intros s' Hs. apply list_elem_of_fmap in Hs as ([s1 l1] & -> & Hs). by apply (segs_serial segs HO s1 l1). }
  destruct (segs_each_ok segs HO _ _ Hin) as (H0 & [_ H1] & H2). cbn [fst snd] in *.
  assert (0 <= previous x < SEQ_LIMIT /\ 0 <= next x < SEQ_LIMIT) as [HP HN].
  { apply list_elem_of_split in Hin as (A & B & E). pose proof (segs_distinct segs HO) as HD.
    rewrite E in Hx, HD. destruct (distinct_mid _ _ _ _ HD) as (HA & _ & _).
    rewrite ring_at in Hx by done. clear H0 H1 H2. injection Hx as <-. cbn [previous next].
    clear HD.
    rewrite E, fmap_app, fmap_cons in HS. unfold HEADSERIAL. split.
    - destruct (last_serial_in (last_serial s B) A) as [-> | HI]; [| apply HS; set_solver].
      destruct (last_serial_in s B) as [-> | HI]; apply HS; set_solver.
    - destruct (first_serial_in B 0) as [-> | HI]; [done | apply HS; set_solver]. }
  split; [done |]. split; [done |]. split; [lia |].
  eapply Forall_impl; [exact H2 |]. intros q. cbn. lia.
Qed.

(** ** One sequence number less *)

Definition without (q : Z) (l : list Z) : list Z := filter (fun x => x <> q) l.

Lemma without_id q l : (q ∉ l) -> without q l = l.
Proof. intros Hq. apply filter_id. intros x Hx ->. done. Qed.

Lemma without_app q l k : without q (l ++ k) = without q l ++ without q k.
Proof. apply filter_app. Qed.

Lemma elem_of_without q l x : x ∈ without q l <-> x ∈ l /\ x <> q.
Proof. unfold without. rewrite list_elem_of_filter. tauto. Qed.

Lemma without_cons_ne q x l : x <> q -> without q (x :: l) = x :: without q l.
Proof. intros Hx. unfold without. by rewrite filter_cons, decide_True. Qed.

Lemma without_cons_eq q l : without q (q :: l) = without q l.
Proof. unfold without. rewrite filter_cons, decide_False; [done |]. auto. Qed.

Lemma erase_seq_spec l q :
  StronglySorted Z.lt l ->
  erase_seq l q = if decide (q ∈ l) then Some (without q l) else None.
Proof.
  unfold erase_seq. induction 1 as [| x l HS IH HF]; [done |]. cbn [lower_bound].
  destruct (Z.ltb_spec x q) as [Hlt | Hge].
  - rewrite lookup_cons_ne_0 by done. cbn [Nat.pred]. cbn [delete list_delete].
    rewrite without_cons_ne by lia.
    destruct (l !! lower_bound l q) as [y |] eqn:E; revert IH.
    + destruct (Z.eqb_spec y q); intros IH.
      * case_decide; [| done]. rewrite decide_True by set_solver. injection IH as <-. done.
      * case_decide; [done |]. rewrite decide_False; [done |].
        rewrite not_elem_of_cons. split; [lia | done].
    + intros IH. case_decide; [done |]. rewrite decide_False; [done |].
      rewrite not_elem_of_cons. split; [lia | done].
  - cbn [lookup list_lookup delete list_delete]. destruct (Z.eqb_spec x q) as [-> |].
    + rewrite decide_True by left. rewrite without_cons_eq.
      f_equal. symmetry. apply filter_id. intros y Hy.
      pose proof (proj1 (Forall_forall _ _) HF y Hy). lia.
    + rewrite decide_False; [done |]. rewrite not_elem_of_cons. split; [lia |]. intros Hin.
      pose proof (proj1 (Forall_forall _ _) HF q Hin). lia.
Qed.

Section RemoveSeq.
Context (A : list segment) (t : Z) (l : list Z) (B : list segment) (q : Z).
Context (HO : segments_ok (A ++ (t, l) :: B)).
Context (Hfree : forall s k, (s, k) ∈ A ++ (t, l) :: B -> s <> t -> q ∉ k).

Lemma seqs_without : without q (seqs (A ++ (t, l) :: B)) = seqs A ++ without q l ++ seqs B.
Proof using All.
  rewrite seqs_app, seqs_cons, !without_app. pose proof (segs_distinct _ HO) as HD.
  destruct (distinct_mid _ _ _ _ HD) as (HA & HB & _).
  assert (forall C, (t ∉ (fst <$> C)) -> (forall sg, sg ∈ C -> sg ∈ A ++ (t, l) :: B) -> q ∉ seqs C) as HX.
  { intros C HC HS Hq. apply elem_of_seqs in Hq as (s & k & Hin & Hk).
    apply (Hfree s k); [by apply HS | | done]. intros ->. apply HC, list_elem_of_fmap. by exists (t, k). }
  rewrite (without_id q (seqs A)), (without_id q (seqs B)); [done | |]; apply HX; set_solver.
Qed.

(** The segment keeps some. *)
Lemma segments_ok_shrink :
  without q l <> [] ->
  segments_ok (A ++ (t, without q l) :: B) /\
  seqs (A ++ (t, without q l) :: B) = without q (seqs (A ++ (t, l) :: B)).
Proof using All.
  intros Hr. assert (seqs (A ++ (t, without q l) :: B) = without q (seqs (A ++ (t, l) :: B))) as ES.
  { by rewrite seqs_without, seqs_app. }
  split; [| done]. destruct HO as [HH HSS HSq HF]. split.
  - right. destruct HH as [HH | HH]; [by destruct A |]. by destruct A as [| [] ?].
  - by rewrite fmap_app, fmap_cons in HSS |- *.
  - rewrite ES. by apply sorted_filter.
  - apply Forall_app in HF as [HFA HFB]. apply Forall_cons in HFB as [HFt HFB].
    apply Forall_app. split; [done |]. apply Forall_cons. split; [| done].
    destruct HFt as (H0 & H1 & H2). unfold seg_ok. cbn [fst snd] in *. split; [done |]. split.
    + assert (length (without q l) <= length l)%nat by apply length_filter.
      destruct (without q l); [done |]. simpl length in *. lia.
    + apply Forall_forall. intros x Hx. apply elem_of_without in Hx as [Hx _].
      by apply (proj1 (Forall_forall _ _) H2).
Qed.

(** The segment goes. *)
Lemma segments_ok_drop :
  without q l = [] -> A <> [] ->
  segments_ok (A ++ B) /\ seqs (A ++ B) = without q (seqs (A ++ (t, l) :: B)).
Proof using All.
  intros Hr HA. assert (seqs (A ++ B) = without q (seqs (A ++ (t, l) :: B))) as ES.
  { by rewrite seqs_without, Hr, seqs_app. }
  split; [| done]. destruct HO as [HH HSS HSq HF]. split.
  - right. destruct HH as [HH | HH]; [by destruct A |]. by destruct A as [| [] ?].
  - rewrite fmap_app, fmap_cons in HSS. rewrite fmap_app. apply StronglySorted_app in HSS as (H1 & H2 & H3).
    apply StronglySorted_app_2; [| done | by apply StronglySorted_inv in H3 as [? _]].
    intros x y Hx Hy. apply H1; [done | by right].
  - rewrite ES. by apply sorted_filter.
  - apply Forall_app in HF as [HFA HFB]. apply Forall_cons in HFB as [_ HFB]. by apply Forall_app.
Qed.
End RemoveSeq.

(** The head goes: the second segment becomes the head. *)
Lemma segments_ok_drop_head l b lb B q :
  segments_ok ((0, l) :: (b, lb) :: B) -> without q l = [] ->
  (forall s k, (s, k) ∈ (0, l) :: (b, lb) :: B -> s <> 0 -> q ∉ k) ->
  segments_ok ((0, lb) :: B) /\ seqs ((0, lb) :: B) = without q (seqs ((0, l) :: (b, lb) :: B)).
Proof.
  intros HO Hr Hfree. pose proof (seqs_without [] 0 l ((b, lb) :: B) q HO Hfree) as ES.
  cbn [app] in ES. rewrite Hr in ES. cbn [app] in ES.
  assert (seqs ((0, lb) :: B) = without q (seqs ((0, l) :: (b, lb) :: B))) as ES' by by rewrite ES.
  split; [| done]. pose proof (segs_serial _ HO b lb ltac:(set_solver)) as Hb.
  destruct HO as [HH HSS HSq HF]. split.
  - by right.
  - rewrite !fmap_cons in HSS. rewrite fmap_cons. apply StronglySorted_inv in HSS as [HSS H1].
    apply StronglySorted_inv in HSS as [HSS H2]. constructor; [done |].
    by apply Forall_cons in H1 as [_ H1].
  - rewrite ES'. by apply sorted_filter.
  - apply Forall_cons in HF as [_ HF].
    apply Forall_cons in HF as [HFb HF]. apply Forall_cons. split; [| done].
    destruct HFb as (H0 & H1 & H2). unfold seg_ok. cbn [fst snd] in *. split; [done |]. split; [done |].
    eapply Forall_impl; [exact H2 |]. intros x. cbn. lia.
Qed.

(** The segment where [q] belongs: the last one with something not above [q]. *)
Lemma segs_bracket (segs : list segment) q :
  (exists x, x ∈ seqs segs /\ x <= q) ->
  exists A t l B, segs = A ++ (t, l) :: B /\ (exists f, f ∈ l /\ f <= q) /\
    (forall s k z, (s, k) ∈ B -> z ∈ k -> q < z).
Proof.
  induction segs as [| [t l] segs IH] using rev_ind; intros (x & Hx & Hxq).
  - by apply not_elem_of_nil in Hx.
  - destruct (decide (Exists (fun f => f <= q) l)) as [HE | HE].
    + apply Exists_exists in HE as (f & Hf & Hfq). exists segs, t, l, []. split; [done |].
      split; [by exists f |]. intros s k z Hs. by apply not_elem_of_nil in Hs.
    + assert (forall z, z ∈ l -> q < z) as HL.
      { intros z Hz. destruct (Z.lt_ge_cases q z); [done |]. destruct HE. apply Exists_exists. by exists z. }
      rewrite seqs_app, seqs_cons, app_nil_r in Hx. apply elem_of_app in Hx as [Hx | Hx].
      * destruct IH as (A & t' & l' & B & -> & HF & HB); [by exists x |].
        exists A, t', l', (B ++ [(t, l)]). split; [by rewrite <- app_assoc |]. split; [done |].
        intros s k z Hs Hz. apply elem_of_app in Hs as [Hs | Hs]; [by eapply HB |].
        apply list_elem_of_singleton in Hs as [= -> ->]. by apply HL.
      * specialize (HL x Hx). lia.
Qed.

(** Serials before and after a segment. *)
Lemma segs_serial_order A t l B s k :
  segments_ok (A ++ (t, l) :: B) -> (s, k) ∈ A ++ (t, l) :: B ->
  (s < t /\ (s, k) ∈ A) \/ (s = t /\ k = l) \/ (t < s /\ (s, k) ∈ B).
Proof.
  intros HO Hin. pose proof (segs_sorted _ HO) as HS. rewrite fmap_app, fmap_cons in HS.
  apply elem_of_app in Hin as [Hin | Hin].
  - left. split; [| done]. apply (StronglySorted_app_1_elem_of _ _ _ s t HS); [| by left].
    apply list_elem_of_fmap. by exists (s, k).
  - right. apply elem_of_cons in Hin as [[= -> ->] | Hin]; [by left |]. right. split; [| done].
    apply StronglySorted_app_1_r, StronglySorted_inv in HS as [_ HS].
    apply (proj1 (Forall_forall _ _) HS s). apply list_elem_of_fmap. by exists (s, k).
Qed.

(** Outside its segment [q] does not occur. *)
Lemma segs_free A t l B q :
  segments_ok (A ++ (t, l) :: B) -> (exists f, f ∈ l /\ f <= q) ->
  (forall s k z, (s, k) ∈ B -> z ∈ k -> q < z) ->
  forall s k, (s, k) ∈ A ++ (t, l) :: B -> s <> t -> q ∉ k.
Proof.
  intros HO (f & Hf & Hfq) HB s k Hin Hst Hq.
  destruct (segs_serial_order A t l B s k HO Hin) as [[Hlt HA] | [[-> _] | [_ HinB]]]; [| done |].
  - assert (q < f); [| lia]. apply (segs_order _ HO s t k l); [done | set_solver | done | done | done].
  - specialize (HB s k q HinB Hq). lia.
Qed.

(** At most [MAXSIZE] sequence numbers in a segment. *)
Lemma seqs_length segs : segments_ok segs -> len (seqs segs) <= MAXSIZE * len segs.
Proof.
  intros HO. pose proof (segs_each _ HO) as HF. clear HO.
  induction HF as [| [s l] B (H0 & [_ H1] & H2) _ IH]; [done |].
  rewrite seqs_cons, length_app. cbn [snd] in H1. simpl length. lia.
Qed.
