(* ===== verification/NormalIndexFacts.v ===== *)
(** * Theorems about non-unique indices

    The functions of NormalIndex on the state implement one ascending list of sequence
    numbers per value ([IndexRing] says how a list is stored). *)

From Stdlib Require Import Sorted.
From stdpp Require Import sorting.
From S2P Require Import Prelude Common RlpSpec RlpReader RlpConvert HostRlp RlpStream RlpSize.
From S2P Require Import Serialize SerializeFacts HostState Storage NormalIndex IndexRing.

(** *** The state under the keys of one index *)

Section IndexState.
Context `{HL : HostRLPLaws, HS : HostStateLaws} {K : Type} `{EqDecision K} (ck : codec K).
Context (tk : K -> item) (vk sk : K -> Prop) `{HK : !CodecLaws ck tk vk sk}.
Context (table_name index_name junk_previous junk_next : Z).

Definition index_tree (k : K * Z) : item :=
  Lst [int_item table_name; int_item index_name; tk (fst k); int_item (snd k)].
Definition index_valid (k : K * Z) : Prop :=
  uint_valid 64 table_name /\ uint_valid 64 index_name /\ vk (fst k) /\ uint_valid 64 (snd k) /\ True.
Definition index_sized (k : K * Z) : Prop := True /\ True /\ sk (fst k) /\ True /\ True.

#[export] Instance index_key_laws :
  CodecLaws (c_index_key ck table_name index_name) index_tree index_valid index_sized.
Proof using HL HK.
  refine (c_view_laws (c_struct (fields_cons (c_uint 64) (fields_cons (c_uint 64)
           (fields_cons ck (fields_cons (c_uint 64) fields_nil))))) _ _ _
           (fun k => (table_name, (index_name, (fst k, (snd k, tt))))) _ _).
  by intros [].
Qed.

Definition segment_tree (x : NormalIndexValue) : item :=
  Lst [int_item (previous x); list_tree int_item (vect_seq x); int_item (next x)].
Definition segment_valid (x : NormalIndexValue) : Prop :=
  uint_valid 64 (previous x) /\ all_prop (uint_valid 64) (vect_seq x) /\ uint_valid 64 (next x) /\ True.
Definition segment_sized (x : NormalIndexValue) : Prop := True /\ all_prop anything (vect_seq x) /\ True /\ True.

#[export] Instance segment_laws : CodecLaws c_index_value segment_tree segment_valid segment_sized.
Proof using HL.
  refine (c_view_laws (c_struct (fields_cons (c_uint 64) (fields_cons (c_vector (c_uint 64))
           (fields_cons (c_uint 64) fields_nil)))) _ _ _
           (fun v => (previous v, (vect_seq v, (next v, tt)))) _ _).
  by intros [].
Qed.

Abbreviation ikey_ok := (key_ok index_tree index_valid).
Abbreviation ivalue_ok := (value_ok segment_tree segment_valid).
Abbreviation itable := (table index_tree index_valid segment_tree segment_valid).
Abbreviation ientry := (uninitialised junk_previous junk_next).
Abbreviation iget := (get_one ck table_name index_name junk_previous junk_next).

(** The value can be a key under every serial. *)
Definition ivalue (v : K) : Prop := forall s, uint_valid 64 s -> ikey_ok (v, s).

Lemma segment_fits p l n :
  uint_valid 64 p -> uint_valid 64 n -> Forall (uint_valid 64) l -> len l <= MAXSIZE ->
  ivalue_ok (mkValue p l n).
Proof using Type.
  intros Hp Hn Hl HL30. split; [done |]. unfold segment_tree. rewrite cost_list.
  unfold total_cost. cbn [foldr previous vect_seq next]. unfold list_tree. rewrite cost_list.
  pose proof (int_item_cost p Hp). pose proof (int_item_cost n Hn). pose proof (int_items_cost l Hl).
  unfold RLP_LIMIT, SIZE_MAX, MAXSIZE in *. lia.
Qed.

(** The entries of all values, with those of [v] in view. *)
Definition slot (F : K -> Z -> option NormalIndexValue) (v : K) (g : Z -> option NormalIndexValue)
    : K * Z -> option NormalIndexValue :=
  fun k => if decide (fst k = v) then g (snd k) else F (fst k) (snd k).

(** Keys outside this index keep their contents. *)
Definition other_keys (w w' : world) : Prop :=
  forall kb, (forall k, ikey_ok k -> kb <> enc (index_tree k)) -> contents w' kb = contents w kb.

Lemma other_keys_refl w : other_keys w w.
Proof using Type. done. Qed.

Lemma other_keys_trans w w1 w2 : other_keys w w1 -> other_keys w1 w2 -> other_keys w w2.
Proof using Type. intros H1 H2 kb Hkb. by rewrite H2, H1. Qed.

Lemma table_same w f f' : itable w f -> (forall k, f k = f' k) -> itable w f'.
Proof using Type. intros HT HE k Hk. rewrite <- HE. by apply HT. Qed.

Lemma slot_self F w v : itable w (fun k => F (fst k) (snd k)) -> itable w (slot F v (F v)).
Proof using Type.
  intros HT. apply (table_same w _ _ HT). intros [v' s]. unfold slot. cbn [fst snd].
  by case_decide; subst.
Qed.

Lemma slot_same F w v g g' : itable w (slot F v g) -> g ≗ g' -> itable w (slot F v g').
Proof using Type.
  intros HT HE. apply (table_same w _ _ HT). intros [v' s]. unfold slot. cbn [fst snd].
  case_decide; [apply HE | done].
Qed.

Lemma slot_update F v g s o k :
  update (slot F v g) (v, s) o k = slot F v (put g s o) k.
Proof using Type.
  destruct k as [v' s']. unfold update, slot, put. cbn [fst snd].
  destruct (decide (v' = v)) as [-> | Hv].
  - destruct (decide (s' = s)) as [-> | Hs]; [by rewrite decide_True | by rewrite decide_False by congruence].
  - by rewrite decide_False by congruence.
Qed.

(** Reading, writing and deleting one segment. *)
Lemma slot_get F w v g s :
  itable w (slot F v g) -> ivalue v -> uint_valid 64 s ->
  exists n, iget w v s = Ok (n, default ientry (g s)) /\ (n = 0 <-> g s = None).
Proof using All.
  intros HT Hv Hs.
  destruct (table_get (c_index_key ck table_name index_name) c_index_value index_tree index_valid
              index_sized segment_tree segment_valid segment_sized w _ (v, s) ientry HT (Hv s Hs))
    as (n & E & En).
  unfold slot in E, En. cbn [fst snd] in E, En. rewrite decide_True in E, En by done. by exists n.
Qed.

Lemma slot_set F w v g s x :
  itable w (slot F v g) -> ivalue v -> uint_valid 64 s -> ivalue_ok x ->
  exists w', set_normal_index_one_db ck table_name index_name w v s x = Ok w' /\
    itable w' (slot F v (put g s (Some x))) /\ other_keys w w'.
Proof using All.
  intros HT Hv Hs Hx.
  destruct (table_set (c_index_key ck table_name index_name) c_index_value index_tree index_valid
              index_sized segment_tree segment_valid segment_sized w _ (v, s) x HT (Hv s Hs) Hx)
    as (w' & E & HT' & HF).
  exists w'. split; [exact E |]. split; [apply (table_same w' _ _ HT'), slot_update |].
  intros kb Hkb. apply HF, Hkb, Hv, Hs.
Qed.

Lemma slot_del F w v g s :
  itable w (slot F v g) -> ivalue v -> uint_valid 64 s ->
  exists w', delete_normal_index_one_db ck table_name index_name w v s = Ok w' /\
    itable w' (slot F v (put g s None)) /\ other_keys w w'.
Proof using All.
  intros HT Hv Hs.
  destruct (table_del (c_index_key ck table_name index_name) c_index_value index_tree index_valid
              index_sized segment_tree segment_valid segment_sized w _ (v, s) HT (Hv s Hs))
    as (w' & E & HT' & HF).
  exists w'. split; [exact E |]. split; [apply (table_same w' _ _ HT'), slot_update |].
  intros kb Hkb. apply HF, Hkb, Hv, Hs.
Qed.

(** *** The search for a segment *)

Definition reads (w : world) (v : K) (g : Z -> option NormalIndexValue) : Prop :=
  forall s, uint_valid 64 s ->
  exists n, iget w v s = Ok (n, default ientry (g s)) /\ (n = 0 <-> g s = None).

Lemma reads_some w v g s x :
  reads w v g -> uint_valid 64 s -> g s = Some x -> exists n, iget w v s = Ok (n, x) /\ (n =? 0) = false.
Proof using Type.
  intros HR Hs Hx. destruct (HR s Hs) as (n & E & En). rewrite Hx in E, En. exists n. split; [done |].
  apply Z.eqb_neq. intros ->. by specialize (proj1 En eq_refl).
Qed.

Lemma reads_none w v g s :
  reads w v g -> uint_valid 64 s -> g s = None -> iget w v s = Ok (0, ientry).
Proof using Type.
  intros HR Hs Hx. destruct (HR s Hs) as (n & E & En). rewrite Hx in E, En. by rewrite (proj2 En eq_refl) in E.
Qed.

Lemma next_valid_finds w v g last e fuel : forall s,
  reads w v g -> 0 <= s <= e -> e <= last -> last < 2 ^ 64 -> is_Some (g e) ->
  (Z.to_nat (e - s) < fuel)%nat ->
  exists m x, next_valid_loop ck table_name index_name junk_previous junk_next fuel w v last s
              = Ok (Some (m, x)) /\ g m = Some x /\ s <= m <= e /\ (forall k, s <= k < m -> g k = None).
Proof using Type.
  induction fuel as [| fuel IH]; intros s HR Hs He Hlast Hg HF; [lia |]. cbn [next_valid_loop].
  assert (uint_valid 64 s) as Hu by (unfold uint_valid; lia).
  destruct (g s) as [x |] eqn:Ex.
  - destruct (reads_some w v g s x HR Hu Ex) as (n & -> & En). cbn [mbind res_bind]. rewrite En.
    exists s, x. split; [done |]. split; [done |]. split; [lia | intros k Hk; lia].
  - rewrite (reads_none w v g s HR Hu Ex). cbn [mbind res_bind]. cbn [Z.eqb negb].
    assert (s <> e) by (intros ->; rewrite Ex in Hg; by destruct Hg).
    rewrite (wrap_small 64 (s + 1)) by lia. destruct (Z.ltb_spec last (s + 1)); [lia |].
    destruct (IH (s + 1)) as (m & x & E & Em & Hm & HN); [done | lia | done | done | done | lia |].
    exists m, x. split; [done |]. split; [done |]. split; [lia |]. intros k Hk.
    destruct (Z.eq_dec k s) as [-> |]; [done | apply HN; lia].
Qed.

Lemma next_valid_past w v g last fuel s :
  reads w v g -> last < s -> uint_valid 64 s -> s + 1 < 2 ^ 64 -> g s = None ->
  next_valid_loop ck table_name index_name junk_previous junk_next (S fuel) w v last s = Ok None.
Proof using Type.
  intros HR Hs Hu Hb Hg. cbn [next_valid_loop]. rewrite (reads_none w v g s HR Hu Hg).
  cbn [mbind res_bind Z.eqb negb]. unfold uint_valid in Hu. rewrite (wrap_small 64 (s + 1)) by lia.
  by destruct (Z.ltb_spec last (s + 1)); [| lia].
Qed.

Lemma previous_valid_finds w v g b fuel : forall s,
  reads w v g -> 0 <= b <= s -> s < 2 ^ 64 -> is_Some (g b) -> (Z.to_nat (s - b) < fuel)%nat ->
  exists m x, previous_valid_loop ck table_name index_name junk_previous junk_next fuel w v s
              = Ok (Some (m, x)) /\ g m = Some x /\ b <= m <= s /\ (forall k, m < k <= s -> g k = None).
Proof using Type.
  induction fuel as [| fuel IH]; intros s HR Hs Hu Hg HF; [lia |]. cbn [previous_valid_loop].
  assert (uint_valid 64 s) as Hus by (unfold uint_valid; lia).
  destruct (g s) as [x |] eqn:Ex.
  - destruct (reads_some w v g s x HR Hus Ex) as (n & -> & En). cbn [mbind res_bind]. rewrite En.
    exists s, x. split; [done |]. split; [done |]. split; [lia | intros k Hk; lia].
  - rewrite (reads_none w v g s HR Hus Ex). cbn [mbind res_bind]. cbn [Z.eqb negb].
    assert (s <> b) by (intros ->; rewrite Ex in Hg; by destruct Hg).
    unfold HEADSERIAL. destruct (Z.eqb_spec 0 s); [lia |].
    destruct (IH (s - 1)) as (m & x & E & Em & Hm & HN); [done | lia | lia | done | lia |].
    exists m, x. split; [done |]. split; [done |]. split; [lia |]. intros k Hk.
    destruct (Z.eq_dec k s) as [-> |]; [done | apply HN; lia].
Qed.

Section Search.
Context (w : world) (v : K) (segs : list segment) (HO : segments_ok segs) (HR : reads w v (ring segs)).
Context (head : NormalIndexValue) (q : Z) (Hhead : previous head = last_serial HEADSERIAL segs).

Abbreviation valid s := (is_Some (ring segs s)).
Abbreviation isearch := (search_loop ck table_name index_name junk_previous junk_next).

Lemma valid_range s : valid s -> 0 <= s < SEQ_LIMIT /\ s <= previous head.
Proof using All.
  intros [x Hx]. pose proof (ring_elem_inv segs HO s x Hx) as Hin. rewrite Hhead. split.
  - by apply (segs_serial segs HO s (vect_seq x)).
  - apply (segs_last segs HO); [| by exists x]. intros ->. by apply not_elem_of_nil in Hin.
Qed.

(** One step: the segment found at the middle, the first one from there on. *)
Lemma search_probe b e :
  valid b -> valid e -> b <= e ->
  let mid := u64 (b + e) / 2 in
  b <= mid <= e /\
  exists m x, next_valid ck table_name index_name junk_previous junk_next w v (previous head) mid
              = Ok (Some (m, x)) /\ ring segs m = Some x /\ mid <= m <= e /\
              (forall k, mid <= k < m -> ring segs k = None).
Proof using All.
  intros Hb He Hbe. destruct (valid_range b Hb) as [Hb' _], (valid_range e He) as [He' Hel].
  unfold SEQ_LIMIT in *. rewrite (wrap_small 64 (b + e)) by lia. cbn zeta.
  assert (b <= (b + e) / 2 <= e) as HM by (split; [apply Z.div_le_lower_bound; lia | apply Z.div_le_upper_bound; lia]).
  split; [done |]. unfold next_valid.
  apply (next_valid_finds w v (ring segs) (previous head) e); try done; try lia.
  destruct (segs_last segs HO) as [HL' _].
  { intros ->. destruct He as [? He]. done. }
  rewrite <- Hhead in HL'. pose proof (valid_range _ HL') as [Hl' _]. unfold SEQ_LIMIT in *. lia.
Qed.

(** The step to the left: the last segment before the one found. *)
Lemma search_below b e m :
  valid e -> b <= e -> b <= u64 (b + e) / 2 <= e -> u64 (b + e) / 2 <= m <= e -> 1 <= m -> valid b ->
  (forall k, u64 (b + e) / 2 <= k < m -> ring segs k = None) ->
  exists m' x', previous_valid ck table_name index_name junk_previous junk_next w v
      (if u64 (b + e) / 2 =? m then u64 (u64 (b + e) / 2 - 1) else u64 (b + e) / 2) = Ok (Some (m', x')) /\
    ring segs m' = Some x' /\ m' < m /\ m' < e /\ 0 <= m' /\
    (forall k, m' < k < m -> ring segs k = None).
Proof using All.
  intros He Hbe HM Hm H1 Hb HN. destruct (valid_range e He) as [Her _], (valid_range b Hb) as [Hbr _].
  unfold SEQ_LIMIT in Her. set (mid := u64 (b + e) / 2) in *.
  assert (valid 0) as HV0 by (by apply (segs_head_first segs HO e)).
  assert (ring segs mid = None \/ mid = m) as HX.
  { destruct (Z.eq_dec mid m); [by right | left; apply HN; lia]. }
  assert (mid <> 0 \/ mid <> m) as HY by lia.
  set (mid' := if mid =? m then u64 (mid - 1) else mid) in *. unfold previous_valid.
  assert (0 <= mid' /\ mid' < m /\ mid' <= mid /\
          (forall k, mid' < k < m -> ring segs k = None)) as (HX0 & HX1 & HX2 & HX3).
  { unfold mid'. destruct (Z.eqb_spec mid m).
    - rewrite wrap_small by lia. do 3 (split; [lia |]). intros k Hk. lia.
    - do 3 (split; [lia |]). intros k Hk. apply HN. lia. }
  destruct (previous_valid_finds w v (ring segs) 0 (S (Z.to_nat mid')) mid' HR) as (m' & x' & -> & Em' & Hm' & HN');
    [lia | lia | done | lia |].
  exists m', x'. do 2 (split; [done |]). do 3 (split; [lia |]).
  intros k Hk. destruct (Z.le_gt_cases k mid'); [apply HN'; lia | apply HX3; lia].
Qed.

(** Behind the segment that could hold [q] there is nothing to find. *)
Lemma search_above fuel : forall b e,
  1 <= b -> valid b -> valid e ->
  (forall s x, ring segs s = Some x -> b <= s -> forall y, y ∈ vect_seq x -> q < y) ->
  (Z.to_nat (e + 1 - b) < fuel)%nat ->
  isearch fuel w v head q b e = Ok w.
Proof using All.
  induction fuel as [| fuel IH]; intros b e H1 Hb He HQ HF; [lia |]. cbn [search_loop].
  destruct (Z.leb_spec b e) as [Hbe |]; [| done].
  destruct (search_probe b e Hb He Hbe) as [HM (m & x & -> & Em & Hm & HN)]. cbn [mbind res_bind].
  pose proof (ring_elem_inv segs HO m x Em) as Hin.
  destruct (segs_bounds segs HO m _ Hin) as (f & k & -> & -> & Hf & Hk & HB). cbn [mbind res_bind].
  assert (q < f) as Hqf by (apply (HQ m x); [done | lia | done]).
  assert (f <= k) by (by apply HB).
  destruct (Z.ltb_spec k q); [lia |]. destruct (Z.ltb_spec q f); [| lia].
  destruct (search_below b e m He Hbe HM Hm ltac:(lia) Hb HN) as (m' & x' & E' & Em' & _ & Hm' & _ & HN').
  rewrite E'. cbn [mbind res_bind].
  apply IH; (done || lia).
Qed.

(** [q] lies in the segment [t], or behind it and before the next one. *)
Lemma search_settles t l x fuel :
  (t, l) ∈ segs -> ring segs t = Some x -> (exists f, f ∈ l /\ f <= q) ->
  (forall s y, (t < s) -> ring segs s = Some y -> forall z, z ∈ vect_seq y -> q < z) ->
  forall b e, valid b -> valid e -> b <= t <= e -> (Z.to_nat (e + 1 - b) < fuel)%nat ->
  isearch fuel w v head q b e =
  k ← vector_back l; if k <? q then Ok w else erase_from ck table_name index_name junk_previous junk_next w v head q t x.
Proof using All.
  intros Ht Hx (f0 & Hf0 & Hfq) HQ. induction fuel as [| fuel IH]; intros b e Hb He Hbt HF; [lia |].
  cbn [search_loop]. destruct (Z.leb_spec b e) as [Hbe |]; [| lia].
  destruct (search_probe b e Hb He Hbe) as [HM (m & y & -> & Em & Hm & HN)]. cbn [mbind res_bind].
  pose proof (ring_elem_inv segs HO m y Em) as Hin.
  destruct (segs_bounds segs HO m _ Hin) as (f & k & Ef & Ek & Hf & Hk & HB).
  rewrite Ef, Ek. cbn [mbind res_bind].
  destruct (Z.lt_trichotomy m t) as [Hmt | [-> | Hmt]].
  - assert (k < f0) by (by eapply (segs_order segs HO m t)).
    destruct (Z.ltb_spec k q); [| lia]. unfold next_valid.
    destruct (valid_range b Hb) as [Hbr _], (valid_range e He) as [Her Hel]. unfold SEQ_LIMIT in *.
    assert (valid t) as HVt by by eexists. destruct (valid_range t HVt) as [Htr Htl].
    rewrite (wrap_small 64 (m + 1)) by lia.
    destruct (segs_last segs HO) as [HL' _]. { intros E. by rewrite E in Ht; apply not_elem_of_nil in Ht. }
    rewrite <- Hhead in HL'. destruct (valid_range _ HL') as [Hl' _]. unfold SEQ_LIMIT in *.
    destruct (next_valid_finds w v (ring segs) (previous head) t
                (S (Z.to_nat (previous head - (m + 1)))) (m + 1) HR)
      as (b' & y' & -> & Eb' & Hb' & HNb'); [lia | lia | lia | done | lia |].
    cbn [mbind res_bind]. apply IH; [by eexists | done | lia | lia].
  - pose proof (ring_elem segs HO t l Ht) as (x' & Ex' & El). rewrite Hx in Ex', Em.
    injection Ex' as <-. injection Em as <-. rewrite El in Ek, Ef, HB. rewrite Ek. cbn [mbind res_bind].
    destruct (Z.ltb_spec k q) as [Hkq |].
    + unfold next_valid. destruct (valid_range b Hb) as [Hbr _].
      destruct (valid_range e He) as [Her Hel]. unfold SEQ_LIMIT in *. rewrite (wrap_small 64 (t + 1)) by lia.
      destruct (segs_last segs HO) as [HL' HLmax]. { intros E. by rewrite E in Ht; apply not_elem_of_nil in Ht. }
      rewrite <- Hhead in HL', HLmax. destruct (valid_range _ HL') as [Hl' _]. unfold SEQ_LIMIT in *.
      destruct (Z.eq_dec t (previous head)) as [Etl | Htl].
      * rewrite (next_valid_past w v (ring segs)); [done | done | lia | unfold uint_valid; lia | lia |].
        apply eq_None_not_Some. intros HV1. specialize (HLmax _ HV1). lia.
      * assert (valid t) as HVt by by eexists. specialize (HLmax t HVt) as Htl'.
        destruct (next_valid_finds w v (ring segs) (previous head) (previous head)
                    (S (Z.to_nat (previous head - (t + 1)))) (t + 1) HR)
          as (b' & y' & -> & Eb' & Hb' & HNb'); [lia | lia | lia | done | lia |].
        cbn [mbind res_bind]. apply search_above; [lia | by eexists | done | | lia].
        intros s z Hs Hbs. apply (HQ s); [lia | done].
    + destruct (HB f0 Hf0). destruct (Z.ltb_spec q f); [lia | done].
  - assert (q < f) by (by apply (HQ m y)).
    assert (f <= k) by by apply HB. destruct (Z.ltb_spec k q); [lia |]. destruct (Z.ltb_spec q f); [| lia].
    destruct (valid_range b Hb) as [Hbr _].
    destruct (search_below b e m He Hbe HM Hm ltac:(lia) Hb HN) as (m' & x' & -> & Em' & Hmm & Hm' & H0m & HN').
    cbn [mbind res_bind]. apply IH; [done | by eexists | | lia].
    split; [lia |]. destruct (Z.le_gt_cases t m'); [done |]. exfalso.
    assert (ring segs t = None) as EN by (apply HN'; lia). by rewrite EN in Hx.
Qed.

(** [q] comes before everything, with the search at the head: the loop never ends. *)
Lemma search_stuck fuel : forall e,
  (forall s x, ring segs s = Some x -> forall y, y ∈ vect_seq x -> q < y) -> valid e ->
  isearch fuel w v head q HEADSERIAL e = Fuel.
Proof using All.
  induction fuel as [| fuel IH]; intros e HQ He; [done |]. cbn [search_loop].
  destruct (valid_range e He) as [Her _]. unfold SEQ_LIMIT in Her.
  destruct (Z.leb_spec HEADSERIAL e) as [Hbe | Hbe]; [| unfold HEADSERIAL in Hbe; lia].
  assert (valid HEADSERIAL) as Hb by (by apply (segs_head_first segs HO e)).
  destruct (search_probe HEADSERIAL e Hb He Hbe) as [HM (m & y & -> & Em & Hm & HN)]. cbn [mbind res_bind].
  pose proof (ring_elem_inv segs HO m y Em) as Hin.
  destruct (segs_bounds segs HO m _ Hin) as (f & k & -> & -> & Hf & Hk & HB). cbn [mbind res_bind].
  assert (q < f) by (by apply (HQ m y)).
  assert (f <= k) by by apply HB. destruct (Z.ltb_spec k q); [lia |]. destruct (Z.ltb_spec q f); [| lia].
  set (mid := u64 (HEADSERIAL + e) / 2) in *.
  destruct (previous_valid_finds w v (ring segs) 0
              (S (Z.to_nat (if mid =? m then u64 (mid - 1) else mid))) (if mid =? m then u64 (mid - 1) else mid) HR)
    as (m' & x' & E' & Em' & _); [| | done | lia |].
  - split; [done |]. destruct (mid =? m); [apply wrap_range; lia | unfold HEADSERIAL in *; lia].
  - destruct (mid =? m); [apply wrap_range; lia | unfold HEADSERIAL in *; lia].
  - unfold previous_valid. rewrite E'. cbn [mbind res_bind]. apply IH; [done | by eexists].
Qed.
End Search.

(** *** Adding a sequence number *)

Lemma slot_reads F w v g : itable w (slot F v g) -> ivalue v -> reads w v g.
Proof using All. intros HT Hv s Hs. by apply (slot_get F). Qed.

Lemma slot_read F w v g s x :
  itable w (slot F v g) -> ivalue v -> uint_valid 64 s -> g s = Some x ->
  get_normal_index_one_db ck table_name index_name junk_previous junk_next w v s = Ok x.
Proof using All.
  intros HT Hv Hs Hx. destruct (reads_some w v g s x (slot_reads F w v g HT Hv) Hs Hx) as (n & E & _).
  unfold get_normal_index_one_db. by rewrite E.
Qed.

Lemma ring_fits segs s x : segments_ok segs -> ring segs s = Some x -> ivalue_ok x.
Proof using Type.
  intros HO Hx. destruct (ring_links segs s x HO Hx) as (HP & HN & HLn & HF). unfold SEQ_LIMIT in *.
  destruct x as [p l n]. cbn [previous next vect_seq] in *. apply segment_fits; unfold uint_valid; try lia.
  eapply Forall_impl; [exact HF |]. intros q. cbn. lia.
Qed.

Lemma zero_valid : uint_valid 64 0.
Proof using Type. done. Qed.

Lemma limit_u64 s : 0 <= s < SEQ_LIMIT -> uint_valid 64 s.
Proof using Type. unfold SEQ_LIMIT, uint_valid. lia. Qed.

(** The entries of [v] are well-formed segments that hold [l]. *)
Definition stores (F : K -> Z -> option NormalIndexValue) (w : world) (v : K) (l : list Z) : Prop :=
  exists segs, segments_ok segs /\ seqs segs = l /\ itable w (slot F v (ring segs)).

Lemma stores_intro F w v g segs l :
  itable w (slot F v g) -> g ≗ ring segs -> segments_ok segs -> seqs segs = l -> stores F w v l.
Proof using Type. intros HT HE HO HS'. exists segs. split; [done |]. split; [done |]. by apply (slot_same F w v g). Qed.

(** What adding [q] to the segments [segs] must do. *)
Definition appends F w v q segs : Prop :=
  exists w', append_normal_index_one_db ck table_name index_name junk_previous junk_next w q v = Ok w' /\
    stores F w' v (seqs segs ++ [q]) /\ other_keys w w'.

Section Append.
Context (F : K -> Z -> option NormalIndexValue) (w : world) (v : K) (q : Z).
Context (Hv : ivalue v) (Hq : 0 <= q < SEQ_LIMIT).

Lemma append_to_none : itable w (slot F v (ring [])) -> appends F w v q [].
Proof using All.
  intros HT. unfold appends, append_normal_index_one_db, HEADSERIAL.
  rewrite (reads_none w v _ 0 (slot_reads F w v _ HT Hv) zero_valid eq_refl). cbn [mbind res_bind Z.eqb].
  pose proof (segments_ok_first q Hq) as HO'.
  destruct (slot_set F w v _ 0 (mkValue 0 [q] 0) HT Hv) as (w' & E & HT' & HF).
  { done. } { by apply (ring_fits [(0, [q])] 0). }
  exists w'. split; [exact E |]. split; [| done].
  by apply (stores_intro F w' v _ [(0, [q])] _ HT').
Qed.

Lemma append_to_head h :
  segments_ok [(0, h)] -> (forall x, x ∈ seqs [(0, h)] -> x < q) ->
  itable w (slot F v (ring [(0, h)])) -> appends F w v q [(0, h)].
Proof using All.
  intros HO HQ HT. unfold appends, append_normal_index_one_db, HEADSERIAL.
  destruct (reads_some w v _ 0 (mkValue 0 h 0) (slot_reads F w v _ HT Hv)) as (n & E & En); [done | done |].
  rewrite E. cbn [mbind res_bind]. rewrite En. cbn [previous next vect_seq Z.eqb andb].
  destruct (Z.ltb_spec (len h) MAXSIZE) as [Hlt | Hge].
  - destruct (segments_ok_grow [] 0 h q HO HQ Hq Hlt) as [HO' ES].
    destruct (slot_set F w v _ 0 (mkValue 0 (h ++ [q]) 0) HT Hv) as (w' & E' & HT' & HF).
    { done. } { by apply (ring_fits [(0, h ++ [q])] 0). }
    exists w'. split; [exact E' |]. split; [| done]. apply (stores_intro F w' v _ [(0, h ++ [q])] _ HT'); try done.
    exact (ring_replace [] 0 h (h ++ [q]) [] (not_in_nil 0)).
  - destruct (segments_ok_push [] 0 h q HO HQ Hq) as (HO' & ES & _). cbn [app] in HO', ES.
    destruct (slot_set F w v _ 1 (mkValue 0 [q] 0) HT Hv) as (w1 & E1 & HT1 & HF1).
    { done. } { by apply (ring_fits [(0, h); (1, [q])] 1). }
    destruct (slot_set F w1 v _ 0 (mkValue 1 h 1) HT1 Hv) as (w2 & E2 & HT2 & HF2).
    { done. } { by apply (ring_fits [(0, h); (1, [q])] 0). }
    exists w2. change (0 + 1) with 1. rewrite E1. cbn [mbind res_bind].
    split; [exact E2 |]. split; [| by eapply other_keys_trans].
    apply (stores_intro F w2 v _ [(0, h); (1, [q])] _ HT2); [apply ring_second | exact HO' | exact ES].
Qed.

Lemma append_to_last h A t l :
  segments_ok (((0, h) :: A) ++ [(t, l)]) -> (forall x, x ∈ seqs (((0, h) :: A) ++ [(t, l)]) -> x < q) ->
  itable w (slot F v (ring (((0, h) :: A) ++ [(t, l)]))) -> appends F w v q (((0, h) :: A) ++ [(t, l)]).
Proof using All.
  intros HO HQ HT. unfold appends, append_normal_index_one_db, HEADSERIAL.
  pose proof (segs_distinct _ HO) as HD. destruct (distinct_mid _ _ _ _ HD) as (HtA & _ & _).
  assert (t <> 0) as Ht0 by (intros ->; apply HtA; left).
  pose proof (ring_at ((0, h) :: A) t l [] HtA) as Et.
  pose proof (ring_at [] 0 h (A ++ [(t, l)]) (not_in_nil 0)) as Eh.
  ring_serials Et. ring_serials Eh.
  assert (uint_valid 64 t) as Hut. { apply limit_u64, (segs_serial _ HO t l). set_solver. }
  destruct (reads_some w v _ 0 _ (slot_reads F w v _ HT Hv) zero_valid Eh) as (n & E & En).
  rewrite E. cbn [mbind res_bind]. rewrite En. cbn [previous next vect_seq].
  destruct (Z.eqb_spec 0 t); [lia |]. cbn [andb negb].
  rewrite (slot_read F w v _ t _ HT Hv Hut Et). cbn [mbind res_bind vect_seq previous next].
  destruct (Z.ltb_spec (len l) MAXSIZE) as [Hlt | Hge].
  - destruct (segments_ok_grow ((0, h) :: A) t l q HO HQ Hq Hlt) as [HO' ES].
    pose proof (ring_at ((0, h) :: A) t (l ++ [q]) [] HtA) as Et'. ring_serials Et'.
    destruct (slot_set F w v _ t _ HT Hv Hut (ring_fits _ t _ HO' Et')) as (w' & E' & HT' & HF).
    exists w'. split; [exact E' |]. split; [| done].
    apply (stores_intro F w' v _ (((0, h) :: A) ++ [(t, l ++ [q])]) _ HT'); [| done | done].
    pose proof (ring_replace ((0, h) :: A) t l (l ++ [q]) [] HtA) as HE. ring_serials HE. exact HE.
  - destruct (segments_ok_push ((0, h) :: A) t l q HO HQ Hq) as (HO' & ES & Hlim & Hnew).
    assert (uint_valid 64 (t + 1)) as Hun. { apply limit_u64. unfold uint_valid in Hut. lia. }
    unfold uint_valid in Hut. rewrite (wrap_small 64 (t + 1)) by done.
    assert (t + 1 ∉ (fst <$> (((0, h) :: A) ++ [(t, l)]))) as Hn' by done.
    pose proof (ring_at (((0, h) :: A) ++ [(t, l)]) (t + 1) [q] [] Hn') as En1.
    rewrite <- app_assoc in En1.
    pose proof (ring_at ((0, h) :: A) t l [(t + 1, [q])] HtA) as En2.
    pose proof (ring_at [] 0 h (A ++ [(t, l); (t + 1, [q])]) (not_in_nil 0)) as En3.
    ring_serials En1. ring_serials En2. ring_serials En3.
    destruct (slot_set F w v _ (t + 1) _ HT Hv Hun (ring_fits _ _ _ HO' En1)) as (w1 & E1 & HT1 & HF1).
    destruct (slot_set F w1 v _ t _ HT1 Hv Hut (ring_fits _ _ _ HO' En2)) as (w2 & E2 & HT2 & HF2).
    destruct (slot_set F w2 v _ 0 _ HT2 Hv zero_valid (ring_fits _ _ _ HO' En3)) as (w3 & E3 & HT3 & HF3).
    exists w3. rewrite E1. cbn [mbind res_bind]. rewrite E2. cbn [mbind res_bind].
    split; [exact E3 |]. split; [| eapply other_keys_trans; [eapply other_keys_trans |]; done].
    apply (stores_intro F w3 v _ (((0, h) :: A) ++ [(t, l); (t + 1, [q])]) _ HT3); [| exact HO' | exact ES].
    apply (ring_push h A t l (t + 1) q); done.
Qed.
End Append.

Lemma append_spec F w v l q :
  stores F w v l -> ivalue v -> 0 <= q < SEQ_LIMIT -> (forall x, x ∈ l -> x < q) ->
  exists w', append_normal_index_one_db ck table_name index_name junk_previous junk_next w q v = Ok w' /\
    stores F w' v (l ++ [q]) /\ other_keys w w'.
Proof using All.
  intros (segs & HO & <- & HT) Hv Hq HQ. destruct (segs_shape segs HO) as [-> | [(h & ->) | (h & A & t & tl & ->)]].
  - by apply append_to_none.
  - by apply append_to_head.
  - by apply (append_to_last F w v q Hv Hq h A t tl).
Qed.
(** *** Removing a sequence number *)

(** What removing [q] from the segments [segs] must do, in an operation [op]. *)
Definition removes F (op : res world) w v q segs : Prop :=
  exists w', op = Ok w' /\ stores F w' v (without q (seqs segs)) /\ other_keys w w'.

Section Unlink.
Context (F : K -> Z -> option NormalIndexValue) (w : world) (v : K) (q : Z) (Hv : ivalue v).

Abbreviation iunlink := (unlink ck table_name index_name junk_previous junk_next w v).

Lemma unlink_only l :
  without q l = [] -> itable w (slot F v (ring [(0, l)])) ->
  removes F (iunlink (mkValue 0 l 0) 0 (mkValue 0 [] 0)) w v q [(0, l)].
Proof using All.
  intros Hr HT. unfold removes, unlink, HEADSERIAL. cbn [previous next].
  destruct (slot_del F w v _ 0 HT Hv zero_valid) as (w1 & -> & HT1 & HF1). cbn [mbind res_bind Z.eqb andb].
  exists w1. split; [done |]. split; [| done].
  apply (stores_intro F w1 v _ [] _ HT1); [| apply segments_ok_nil | by cbn; rewrite app_nil_r].
  intros s. unfold put, ring. cbn. by case_decide.
Qed.

Lemma unlink_head_two head l b lb :
  segments_ok [(0, l); (b, lb)] -> without q l = [] ->
  (forall s k, (s, k) ∈ [(0, l); (b, lb)] -> s <> 0 -> q ∉ k) ->
  itable w (slot F v (ring [(0, l); (b, lb)])) ->
  removes F (iunlink head 0 (mkValue b [] b)) w v q [(0, l); (b, lb)].
Proof using All.
  intros HO Hr Hfree HT. unfold removes, unlink, HEADSERIAL. cbn [previous next].
  destruct (segments_ok_drop_head l b lb [] q HO Hr Hfree) as [HO' ES].
  pose proof (segs_distinct _ HO) as HD. split_distinct HD. assert (b <> 0) as Hb by auto.
  assert (uint_valid 64 b) as Hub by (apply limit_u64, (segs_serial _ HO b lb); set_solver).
  destruct (slot_del F w v _ 0 HT Hv zero_valid) as (w1 & -> & HT1 & HF1). cbn [mbind res_bind].
  rewrite Z.eqb_refl. destruct (Z.eqb_spec 0 b); [lia |]. cbn [andb]. rewrite Z.eqb_refl.
  rewrite (slot_read F w1 v _ b (mkValue 0 lb 0) HT1 Hv Hub); cbn [mbind res_bind].
  2:{ unfold put, ring. cbn. by rewrite decide_False, decide_False, decide_True by done. }
  destruct (slot_del F w1 v _ b HT1 Hv Hub) as (w2 & -> & HT2 & HF2). cbn [mbind res_bind].
  destruct (slot_set F w2 v _ 0 (mkValue 0 lb 0) HT2 Hv zero_valid) as (w3 & E3 & HT3 & HF3).
  { by apply (ring_fits [(0, lb)] 0). }
  exists w3. split; [exact E3 |]. split; [| eapply other_keys_trans; [eapply other_keys_trans |]; done].
  apply (stores_intro F w3 v _ [(0, lb)] _ HT3); [by apply ring_drop_head_two | done | done].
Qed.

Lemma unlink_head head l b lb c lc B :
  segments_ok ((0, l) :: (b, lb) :: (c, lc) :: B) -> without q l = [] ->
  (forall s k, (s, k) ∈ (0, l) :: (b, lb) :: (c, lc) :: B -> s <> 0 -> q ∉ k) ->
  itable w (slot F v (ring ((0, l) :: (b, lb) :: (c, lc) :: B))) ->
  removes F (iunlink head 0 (mkValue (last_serial c B) [] b)) w v q ((0, l) :: (b, lb) :: (c, lc) :: B).
Proof using All.
  intros HO Hr Hfree HT. unfold removes, unlink, HEADSERIAL. cbn [previous next].
  destruct (segments_ok_drop_head l b lb ((c, lc) :: B) q HO Hr Hfree) as [HO' ES].
  pose proof (segs_distinct _ HO) as HD.
  assert (last_serial c B <> b /\ uint_valid 64 b /\ uint_valid 64 c) as (Hlb & Hub & Huc).
  { split; [| split; [apply limit_u64, (segs_serial _ HO b lb) | apply limit_u64, (segs_serial _ HO c lc)]; set_solver].
    split_distinct HD. destruct (last_serial_in c B) as [-> | HI]; [by auto |]. by intros <-. }
  pose proof (ring_drop_head l b lb c lc B HD) as HE.
  pose proof (ring_at [(0, l)] b lb ((c, lc) :: B)) as Eb.
  pose proof (ring_at [(0, l); (b, lb)] c lc B) as Ec.
  pose proof (ring_at [] 0 lb ((c, lc) :: B) (not_in_nil 0)) as E0'.
  pose proof (ring_at [(0, lb)] c lc B) as Ec'.
  split_distinct HD. ring_serials Eb. ring_serials Ec. ring_serials E0'. ring_serials Ec'.
  destruct (slot_del F w v _ 0 HT Hv zero_valid) as (w1 & -> & HT1 & HF1). cbn [mbind res_bind].
  rewrite Z.eqb_refl. destruct (Z.eqb_spec 0 b); [lia |]. rewrite andb_false_r.
  destruct (Z.eqb_spec (last_serial c B) b); [done |].
  rewrite (slot_read F w1 v _ b (mkValue 0 lb c) HT1 Hv Hub); cbn [mbind res_bind vect_seq next].
  2:{ unfold put. rewrite decide_False by done. apply Eb. set_solver. }
  destruct (slot_del F w1 v _ b HT1 Hv Hub) as (w2 & -> & HT2 & HF2). cbn [mbind res_bind].
  destruct (slot_set F w2 v _ 0 _ HT2 Hv zero_valid (ring_fits _ _ _ HO' E0')) as (w3 & -> & HT3 & HF3).
  cbn [mbind res_bind].
  rewrite (slot_read F w3 v _ c (mkValue b lc (first_serial B 0)) HT3 Hv Huc); cbn [mbind res_bind vect_seq next].
  2:{ unfold put. rewrite !decide_False by auto. apply Ec. set_solver. }
  destruct (slot_set F w3 v _ c (mkValue 0 lc (first_serial B 0)) HT3 Hv Huc) as (w4 & E4 & HT4 & HF4).
  { apply (ring_fits _ c _ HO'), Ec'. set_solver. }
  exists w4. split; [exact E4 |]. split; [| eapply other_keys_trans; [eapply other_keys_trans; [eapply other_keys_trans |] |]; done].
  by apply (stores_intro F w4 v _ ((0, lb) :: (c, lc) :: B) _ HT4).
Qed.

Lemma unlink_last_two h t l :
  segments_ok [(0, h); (t, l)] -> without q l = [] ->
  (forall s k, (s, k) ∈ [(0, h); (t, l)] -> s <> t -> q ∉ k) ->
  itable w (slot F v (ring [(0, h); (t, l)])) ->
  removes F (iunlink (mkValue t h t) t (mkValue 0 [] 0)) w v q [(0, h); (t, l)].
Proof using All.
  intros HO Hr Hfree HT. unfold removes, unlink, HEADSERIAL. cbn [previous next vect_seq].
  destruct (segments_ok_drop [(0, h)] t l [] q HO Hfree Hr) as [HO' ES]; [done |].
  pose proof (segs_distinct _ HO) as HD. split_distinct HD.
  assert (uint_valid 64 t) as Hut by (apply limit_u64, (segs_serial _ HO t l); set_solver).
  destruct (slot_del F w v _ t HT Hv Hut) as (w1 & -> & HT1 & HF1). cbn [mbind res_bind].
  destruct (Z.eqb_spec 0 t); [lia |]. cbn [Z.eqb andb].
  destruct (slot_set F w1 v _ 0 (mkValue 0 h 0) HT1 Hv zero_valid) as (w2 & E2 & HT2 & HF2).
  { by apply (ring_fits [(0, h)] 0). }
  exists w2. split; [exact E2 |]. split; [| by eapply other_keys_trans].
  apply (stores_intro F w2 v _ [(0, h)] _ HT2); [apply ring_drop_last_two; auto | done | done].
Qed.

Lemma unlink_last h A a la t l :
  segments_ok ((0, h) :: A ++ [(a, la); (t, l)]) -> without q l = [] ->
  (forall s k, (s, k) ∈ (0, h) :: A ++ [(a, la); (t, l)] -> s <> t -> q ∉ k) ->
  itable w (slot F v (ring ((0, h) :: A ++ [(a, la); (t, l)]))) ->
  removes F (iunlink (mkValue t h (first_serial A a)) t (mkValue a [] 0)) w v q
          ((0, h) :: A ++ [(a, la); (t, l)]).
Proof using All.
  intros HO Hr Hfree HT. unfold removes, unlink, HEADSERIAL. cbn [previous next vect_seq].
  pose proof (ring_drop_last h A a la t l (segs_distinct _ HO)) as HE.
  assert ((0, h) :: A ++ [(a, la); (t, l)] = ((0, h) :: A ++ [(a, la)]) ++ [(t, l)]) as EA
    by (cbn; by rewrite <- app_assoc).
  rewrite EA in *.
  destruct (segments_ok_drop ((0, h) :: A ++ [(a, la)]) t l [] q HO Hfree Hr) as [HO' ES]; [done |].
  rewrite app_nil_r in HO', ES.
  assert (uint_valid 64 t) as Hut by (apply limit_u64, (segs_serial _ HO t l); set_solver).
  assert (uint_valid 64 a) as Hua by (apply limit_u64, (segs_serial _ HO a la); set_solver).
  destruct (distinct_mid _ _ _ _ (segs_distinct _ HO)) as (HtA & _ & _).
  destruct (distinct_mid ((0, h) :: A) [] a la (segs_distinct _ HO')) as (HaA & _ & _).
  split_distinct HtA. split_distinct HaA.
  pose proof (ring_at ((0, h) :: A) a la [(t, l)]) as Ea.
  pose proof (ring_at ((0, h) :: A) a la []) as Ea'.
  pose proof (ring_at [] 0 h (A ++ [(a, la)]) (not_in_nil 0)) as Eh'.
  pose proof (ring_at [] 0 h (A ++ [(a, la); (t, l)]) (not_in_nil 0)) as Eh.
  ring_serials Ea. ring_serials Ea'. ring_serials Eh. ring_serials Eh'. rewrite <- EA in HT.
  destruct (slot_del F w v _ t HT Hv Hut) as (w1 & -> & HT1 & HF1). cbn [mbind res_bind].
  destruct (Z.eqb_spec 0 t); [lia |]. destruct (Z.eqb_spec 0 a); [by subst |]. cbn [andb].
  rewrite (slot_read F w1 v _ a (mkValue (last_serial 0 A) la t) HT1 Hv Hua); cbn [mbind res_bind vect_seq next previous].
  2:{ unfold put. rewrite decide_False by auto. apply Ea. set_solver. }
  destruct (slot_set F w1 v _ a (mkValue (last_serial 0 A) la 0) HT1 Hv Hua) as (w2 & -> & HT2 & HF2).
  { apply (ring_fits _ a _ HO'), Ea'. set_solver. }
  cbn [mbind res_bind].
  rewrite (slot_read F w2 v _ 0 (mkValue t h (first_serial A a)) HT2 Hv zero_valid); cbn [mbind res_bind vect_seq next previous].
  2:{ unfold put. rewrite !decide_False by auto. apply Eh. }
  destruct (slot_set F w2 v _ 0 _ HT2 Hv zero_valid (ring_fits _ _ _ HO' Eh')) as (w3 & E3 & HT3 & HF3).
  exists w3. split; [exact E3 |]. split; [| eapply other_keys_trans; [eapply other_keys_trans |]; done].
  rewrite <- EA in HE. by apply (stores_intro F w3 v _ ((0, h) :: A ++ [(a, la)]) _ HT3).
Qed.

Lemma unlink_mid head A a la t l b lb B :
  segments_ok (A ++ (a, la) :: (t, l) :: (b, lb) :: B) -> without q l = [] ->
  (forall s k, (s, k) ∈ A ++ (a, la) :: (t, l) :: (b, lb) :: B -> s <> t -> q ∉ k) ->
  itable w (slot F v (ring (A ++ (a, la) :: (t, l) :: (b, lb) :: B))) -> t <> 0 -> b <> 0 ->
  removes F (iunlink head t (mkValue a [] b)) w v q (A ++ (a, la) :: (t, l) :: (b, lb) :: B).
Proof using All.
  intros HO Hr Hfree HT Ht Hb. unfold removes, unlink, HEADSERIAL. cbn [previous next vect_seq].
  pose proof (ring_drop_mid A a la t l b lb B (segs_distinct _ HO)) as HE.
  assert (forall C : list segment, A ++ (a, la) :: C = (A ++ [(a, la)]) ++ C) as EA
    by (intros C; by rewrite <- app_assoc).
  rewrite (EA ((t, l) :: _)) in HO, Hfree.
  destruct (segments_ok_drop (A ++ [(a, la)]) t l ((b, lb) :: B) q HO Hfree Hr) as [HO' ES]; [by destruct A |].
  assert (uint_valid 64 t) as Hut by (apply limit_u64, (segs_serial _ HO t l); set_solver).
  assert (uint_valid 64 a) as Hua by (apply limit_u64, (segs_serial _ HO a la); set_solver).
  assert (uint_valid 64 b) as Hub by (apply limit_u64, (segs_serial _ HO b lb); set_solver).
  rewrite <- EA in HO, HO'. rewrite <- !EA in ES.
  destruct (distinct_mid _ _ _ _ (segs_distinct _ HO)) as (HaA & HaB & _).
  destruct (distinct_mid _ _ _ _ (segs_distinct _ HO')) as (_ & HaB' & HD).
  destruct (distinct_mid _ _ _ _ HD) as (HbA & HbB & _).
  split_distinct HaB.
  pose proof (ring_at A a la ((t, l) :: (b, lb) :: B) HaA) as Ea.
  pose proof (ring_at A a la ((b, lb) :: B) HaA) as Ea'.
  assert (b ∉ (fst <$> (A ++ [(a, la); (t, l)]))) as Hbt.
  { pose proof (segs_distinct _ HO) as HN.
    assert (A ++ (a, la) :: (t, l) :: (b, lb) :: B = (A ++ [(a, la); (t, l)]) ++ (b, lb) :: B) as EE
      by by rewrite <- app_assoc.
    rewrite EE in HN. by destruct (distinct_mid _ _ _ _ HN). }
  assert (b ∉ (fst <$> (A ++ [(a, la)]))) as Hbt'.
  { rewrite fmap_app, not_elem_of_app in Hbt |- *. set_solver. }
  pose proof (ring_at (A ++ [(a, la); (t, l)]) b lb B Hbt) as Eb.
  pose proof (ring_at (A ++ [(a, la)]) b lb B Hbt') as Eb'.
  split_distinct Hbt. rewrite <- app_assoc in Eb, Eb'. ring_serials Ea. ring_serials Ea'. ring_serials Eb. ring_serials Eb'.
  destruct (slot_del F w v _ t HT Hv Hut) as (w1 & -> & HT1 & HF1). cbn [mbind res_bind].
  destruct (Z.eqb_spec 0 t); [lia |]. destruct (Z.eqb_spec 0 b); [lia |]. rewrite andb_false_r.
  rewrite (slot_read F w1 v _ a (mkValue (last_serial (last_serial b B) A) la t) HT1 Hv Hua); cbn [mbind res_bind vect_seq next previous].
  2:{ unfold put. rewrite decide_False by auto. exact Ea. }
  cbn [vect_seq next previous].
  destruct (slot_set F w1 v _ a _ HT1 Hv Hua (ring_fits _ a _ HO' Ea')) as (w2 & -> & HT2 & HF2).
  cbn [mbind res_bind].
  rewrite (slot_read F w2 v _ b (mkValue t lb (first_serial B 0)) HT2 Hv Hub); cbn [mbind res_bind vect_seq next previous].
  2:{ unfold put. by rewrite !decide_False by done. }
  destruct (slot_set F w2 v _ b _ HT2 Hv Hub (ring_fits _ b _ HO' Eb')) as (w3 & E3 & HT3 & HF3).
  exists w3. split; [exact E3 |]. split; [| eapply other_keys_trans; [eapply other_keys_trans |]; done].
  by apply (stores_intro F w3 v _ (A ++ (a, la) :: (b, lb) :: B) _ HT3).
Qed.

Lemma unlink_spec (A : list segment) t l (B : list segment) head x :
  segments_ok (A ++ (t, l) :: B) -> without q l = [] ->
  (forall s k, (s, k) ∈ A ++ (t, l) :: B -> s <> t -> q ∉ k) ->
  itable w (slot F v (ring (A ++ (t, l) :: B))) ->
  ring (A ++ (t, l) :: B) 0 = Some head -> ring (A ++ (t, l) :: B) t = Some x ->
  removes F (iunlink head t (mkValue (previous x) [] (next x))) w v q (A ++ (t, l) :: B).
Proof using All.
  intros HO Hr Hfree HT Hh Hx. destruct (distinct_mid _ _ _ _ (segs_distinct _ HO)) as (HtA & HtB & _).
  rewrite (ring_at A t l B HtA) in Hx. injection Hx as <-. cbn [previous next].
  destruct A as [| [s0 h] A].
  - destruct (segs_head _ HO) as [? | E0]; [done |]. cbn in E0. unfold HEADSERIAL in E0. subst t.
    destruct B as [| [b lb] [| [c lc] B]].
    + pose proof (ring_at [] 0 l [] (not_in_nil 0)) as Eh. cbn [app] in Hh, Eh. rewrite Hh in Eh.
      injection Eh as ->. by apply unlink_only.
    + ring_serials_goal. by apply (unlink_head_two head l b lb).
    + ring_serials_goal. by apply (unlink_head head l b lb c lc B).
  - destruct (segs_head _ HO) as [? | E0]; [done |]. cbn in E0. unfold HEADSERIAL in E0. subst s0.
    pose proof (ring_at [] 0 h (A ++ (t, l) :: B) (not_in_nil 0)) as Eh. cbn [app] in Hh, Eh.
    rewrite Hh in Eh. injection Eh as ->.
    assert (t <> 0) as Ht by (intros ->; apply HtA; left).
    destruct B as [| [b lb] B].
    + destruct (nil_or_length_pos A) as [-> | HA]; [by apply unlink_last_two |].
      destruct (exists_last (l := A)) as (A1 & [a la] & ->); [by destruct A |].
      cbn [app] in *. rewrite <- (app_assoc A1 [(a, la)] [(t, l)]) in *. cbn [app] in *.
      ring_serials_goal. by apply unlink_last.
    + assert (b <> 0) as Hb.
      { intros ->. destruct (distinct_mid [] (A ++ (t, l) :: (0, lb) :: B) 0 h (segs_distinct _ HO)) as (_ & HN & _).
        apply HN. rewrite fmap_app, !fmap_cons. set_solver. }
      destruct (exists_last (l := (0, h) :: A)) as (A1 & [a la] & E); [done |].
      change ((0, h) :: A ++ (t, l) :: (b, lb) :: B) with (((0, h) :: A) ++ (t, l) :: (b, lb) :: B) in *.
      rewrite E, <- app_assoc in *. ring_serials_goal.
      by apply unlink_mid.
Qed.
End Unlink.

Lemma erase_from_spec F w v q (A : list segment) t l (B : list segment) head x :
  segments_ok (A ++ (t, l) :: B) -> ivalue v ->
  (forall s k, (s, k) ∈ A ++ (t, l) :: B -> s <> t -> q ∉ k) ->
  itable w (slot F v (ring (A ++ (t, l) :: B))) ->
  ring (A ++ (t, l) :: B) 0 = Some head -> ring (A ++ (t, l) :: B) t = Some x ->
  removes F (erase_from ck table_name index_name junk_previous junk_next w v head q t x) w v q (A ++ (t, l) :: B).
Proof using All.
  intros HO Hv Hfree HT Hh Hx. unfold erase_from.
  destruct (distinct_mid _ _ _ _ (segs_distinct _ HO)) as (HtA & HtB & _).
  assert (uint_valid 64 t) as Hut by (apply limit_u64, (segs_serial _ HO t l); set_solver).
  pose proof Hx as Hx'. rewrite (ring_at A t l B HtA) in Hx'. injection Hx' as Ex.
  assert (vect_seq x = l) as -> by by rewrite <- Ex.
  rewrite erase_seq_spec by (apply (segs_list_sorted _ HO t); set_solver).
  case_decide as Hin.
  - destruct (decide (without q l = [])) as [Hr | Hr].
    + rewrite Hr. cbn [length Z.of_nat Z.eqb]. by apply unlink_spec.
    + destruct (Z.eqb_spec (len (without q l)) 0) as [HL0 | _]; [destruct (without q l); [done | simpl in HL0; lia] |].
      destruct (segments_ok_shrink A t l B q HO Hfree Hr) as [HO' ES].
      pose proof (ring_at A t (without q l) B HtA) as Et'.
      rewrite <- Ex. cbn [previous next].
      destruct (slot_set F w v _ t _ HT Hv Hut (ring_fits _ t _ HO' Et')) as (w' & E' & HT' & HF).
      exists w'. split; [exact E' |]. split; [| done].
      apply (stores_intro F w' v _ (A ++ (t, without q l) :: B) _ HT'); [by apply ring_replace | done | done].
  - exists w. split; [done |]. split; [| done]. exists (A ++ (t, l) :: B). split; [done |]. split; [| done].
    rewrite (seqs_without A t l B q HO Hfree), (without_id q l Hin). by rewrite seqs_app.
Qed.

(** A sequence number that some stored one does not exceed is removed, if it is there. *)
Lemma delete_spec F w v l q :
  stores F w v l -> ivalue v -> (l = [] \/ exists x, x ∈ l /\ x <= q) ->
  exists w', delete_normal_index_db ck table_name index_name junk_previous junk_next w q v = Ok w' /\
    stores F w' v (without q l) /\ other_keys w w'.
Proof using All.
  intros (segs & HO & <- & HT) Hv HQ. pose proof (slot_reads F w v _ HT Hv) as HR.
  assert (stores F w v (seqs segs)) as HS0 by (by exists segs).
  unfold delete_normal_index_db, HEADSERIAL.
  destruct (segs_shape segs HO) as [-> | HN].
  { rewrite (reads_none w v _ 0 HR zero_valid eq_refl). by exists w. }
  destruct HQ as [HQ | HQ].
  { exfalso. destruct HN as [(h & ->) | (h & A & t & l & ->)];
      destruct (segs_nonempty _ HO 0 h ltac:(set_solver)) as (x & l' & ->); done. }
  destruct (segs_bracket segs q HQ) as (A & t & l & B & E & Hf & HB).
  assert (exists head, ring segs 0 = Some head) as [head Hhead].
  { apply (segs_head_first segs HO t). rewrite E in HO |- *.
    destruct (ring_elem _ HO t l ltac:(set_solver)) as (x & -> & _). by eexists. }
  destruct (reads_some w v _ 0 head HR zero_valid Hhead) as (n & -> & En). cbn [mbind res_bind]. rewrite En.
  destruct (ring_elem _ HO t l ltac:(rewrite E; set_solver)) as (x & Hx & El).
  pose proof HO as HO'. pose proof HT as HT'. pose proof Hhead as Hhead'. pose proof Hx as Hx'.
  rewrite E in HO', HT', Hhead', Hx'.
  pose proof (segs_free A t l B q HO' Hf HB) as Hfree.
  destruct (erase_from_spec F w v q A t l B head x HO' Hv Hfree HT' Hhead' Hx') as (w' & Ew & HS' & HF).
  destruct HN as [(h & ->) | (h & A0 & t0 & l0 & ->)].
  - assert (A = [] /\ t = 0 /\ l = h /\ B = []) as (-> & -> & -> & ->).
    { destruct A as [| ? [|]]; destruct B; simplify_list_eq; done. }
    pose proof (ring_at [] 0 h [] (not_in_nil 0)) as Eh. cbn [app] in Hhead, Hx, Eh.
    rewrite Hhead in Hx. injection Hx as <-. rewrite Hhead in Eh. injection Eh as ->.
    cbn [previous next vect_seq Z.eqb andb]. exists w'. split; [| done]. revert Ew.
    unfold erase_from, unlink. cbn [previous next vect_seq]. destruct (erase_seq h q) as [rest |]; [| done].
    destruct (len rest =? 0); [| done]. unfold HEADSERIAL. cbn [Z.eqb andb].
    destruct (delete_normal_index_one_db _ _ _ _ _ _); done.
  - assert (previous head = last_serial HEADSERIAL ((0, h) :: A0 ++ [(t0, l0)])) as Hp.
    { pose proof (ring_at [] 0 h (A0 ++ [(t0, l0)]) (not_in_nil 0)) as Eh. cbn [app] in Eh.
      rewrite Hhead in Eh. injection Eh as ->. cbn [previous]. ring_serials_goal. done. }
    destruct (segs_last _ HO) as [HVl _]; [done |]. rewrite <- Hp in HVl.
    assert (0 < previous head) as Hpos.
    { rewrite Hp. change ((0, h) :: A0 ++ [(t0, l0)]) with (((0, h) :: A0) ++ [(t0, l0)]) in *.
      rewrite last_serial_snoc. pose proof (segs_serial _ HO t0 l0 ltac:(set_solver)).
      destruct (distinct_mid _ _ _ _ (segs_distinct _ HO)) as (HN & _ & _).
      assert (t0 <> 0) by (intros ->; apply HN; left). lia. }
    destruct (Z.eqb_spec 0 (previous head)); [lia |]. cbn [andb].
    pose proof (valid_range w v _ HO HR head q Hp t ltac:(by eexists)) as [Htr Htl].
    rewrite (search_settles w v _ HO HR head q Hp t l x).
    2:{ rewrite E. set_solver. } 2:{ done. } 2:{ done. }
    2:{ intros s y Hs Hy z Hz. pose proof (ring_elem_inv _ HO s y Hy) as Hin. rewrite E in Hin.
        destruct (segs_serial_order A t l B s _ HO' Hin) as [[? _] | [[? _] | [_ HinB]]]; [lia | lia |].
        by eapply HB. }
    2:{ by apply (segs_head_first _ HO t); eexists. } 2:{ done. } 2:{ lia. } 2:{ lia. }
    destruct (segs_bounds _ HO t l ltac:(rewrite E; set_solver)) as (f & k & _ & -> & _ & Hk & HBd).
    cbn [mbind res_bind]. destruct (Z.ltb_spec k q) as [Hkq |]; [| by rewrite E; exists w'].
    exists w. split; [done |]. split; [| done]. rewrite without_id; [done |].
    intros Hq. apply elem_of_seqs in Hq as (s & k' & Hin & Hq). destruct (decide (s = t)) as [-> |].
    + rewrite (segs_same _ HO t k' l Hin) in Hq by (rewrite E; set_solver). specialize (HBd q Hq). lia.
    + apply (Hfree s k'); [by rewrite <- E | done | done].
Qed.

(** *** Counting and iterating *)

Section Walk.
Context (F : K -> Z -> option NormalIndexValue) (w : world) (v : K) (segs : list segment).
Context (HO : segments_ok segs) (Hv : ivalue v) (HT : itable w (slot F v (ring segs))).

Abbreviation iread := (get_normal_index_one_db ck table_name index_name junk_previous junk_next w v).

(** The segment [t] read. *)
Lemma read_at A t l B :
  segs = A ++ (t, l) :: B ->
  iread t = Ok (mkValue (last_serial (last_serial t B) A) l (first_serial B HEADSERIAL)).
Proof using All.
  intros E. pose proof HO as HO'. rewrite E in HO'.
  destruct (distinct_mid _ _ _ _ (segs_distinct _ HO')) as (HtA & _ & _).
  apply (slot_read F w v _ t _ HT Hv).
  - apply limit_u64, (segs_serial _ HO' t l). set_solver.
  - rewrite E. by apply ring_at.
Qed.

Lemma rest_nonzero A t l b lb B : segs = A ++ (t, l) :: (b, lb) :: B -> b <> 0.
Proof using All.
  intros E. pose proof (segs_serial_order A t l ((b, lb) :: B) b lb) as HX. rewrite <- E in HX.
  pose proof (segs_serial _ HO t l ltac:(rewrite E; set_solver)).
  destruct (HX HO ltac:(rewrite E; set_solver)) as [[? HA] | [[-> _] | [? _]]]; [| | lia].
  - pose proof (segs_distinct _ HO) as HD. rewrite E in HD.
    assert (A ++ (t, l) :: (b, lb) :: B = (A ++ [(t, l)]) ++ (b, lb) :: B) as E' by by rewrite <- app_assoc.
    rewrite E' in HD. destruct (distinct_mid _ _ _ _ HD) as (HN & _ & _).
    destruct HN. apply list_elem_of_fmap. exists (b, lb). split; [done |]. apply elem_of_app. by left.
  - pose proof (segs_distinct _ HO) as HD. rewrite E in HD.
    destruct (distinct_mid _ _ _ _ HD) as (_ & HN & _). destruct HN. by left.
Qed.

Lemma count_loop_spec B : forall A t l p c fuel,
  segs = A ++ (t, l) :: B -> 0 <= c < 2 ^ 32 -> (length B <= fuel)%nat ->
  count_loop ck table_name index_name junk_previous junk_next fuel w v
    (mkValue p l (first_serial B HEADSERIAL)) c = Ok (u32 (c + len (seqs B))).
Proof using All.
  induction B as [| [b lb] B IH]; intros A t l p c fuel E Hc HF.
  - destruct fuel; cbn [count_loop next first_serial]; change (HEADSERIAL =? HEADSERIAL) with true;
      cbv iota; by rewrite Z.add_0_r, wrap_small.
  - destruct fuel as [| fuel]; [simpl in HF; lia |]. cbn [count_loop next first_serial].
    pose proof (rest_nonzero A t l b lb B E). unfold HEADSERIAL at 1. destruct (Z.eqb_spec 0 b); [lia |].
    assert (segs = (A ++ [(t, l)]) ++ (b, lb) :: B) as E' by by rewrite <- app_assoc.
    rewrite (read_at _ b lb B E'). cbn [mbind res_bind vect_seq].
    rewrite (IH _ b lb _ _ fuel E'); [| apply wrap_range; lia | simpl in HF; lia].
    f_equal. rewrite seqs_cons, length_app, Nat2Z.inj_add, Z.add_assoc.
    unfold wrap. by rewrite Zplus_mod_idemp_l.
Qed.

Lemma rest_length s B : StronglySorted Z.lt (s :: (fst <$> B)) -> len B <= last_serial s B - s.
Proof using Type.
  revert s. induction B as [| [b lb] B IH]; intros s HSs; [cbn; lia |].
  rewrite fmap_cons in HSs. apply StronglySorted_inv in HSs as [HSs HFb]. cbn [fst] in HSs, HFb.
  specialize (IH b HSs). apply Forall_cons in HFb as [Hsb _].
  rewrite last_serial_cons. cbn [fst]. simpl length. lia.
Qed.

Abbreviation iseq := (index_get_seq ck table_name index_name junk_previous junk_next w).
Abbreviation iincr := (index_incr ck table_name index_name junk_previous junk_next w).
Abbreviation idecr := (index_decr ck table_name index_name junk_previous junk_next w).

(** The iterator after the positions [l1] of the segment [t]. *)
Definition at_pos t (l1 : list Z) : index_iterator := mkIndexIter v t (len l1).

(** The iterator of the next position: in the segment, in the next one, or the end. *)
Definition next_pos t (l1 l2 : list Z) (B : list segment) : index_iterator :=
  match l2, B with
  | _ :: _, _ => at_pos t l1
  | [], (b, _) :: _ => mkIndexIter v b 0
  | [], [] => index_cend v
  end.

Lemma pos_bounds A t l1 q l2 B :
  segs = A ++ (t, l1 ++ q :: l2) :: B -> 0 <= len l1 < MAXSIZE /\ len (l1 ++ q :: l2) <= MAXSIZE.
Proof using All.
  intros E. destruct (segs_each_ok _ HO t (l1 ++ q :: l2)) as (_ & HLn & _); [rewrite E; set_solver |].
  cbn [snd] in HLn. rewrite length_app in *. simpl length in *. lia.
Qed.

Lemma iter_get A t l1 q l2 B :
  segs = A ++ (t, l1 ++ q :: l2) :: B -> iseq (at_pos t l1) = Ok q.
Proof using All.
  intros E. unfold index_get_seq, at_pos. cbn [it_key it_serial it_num].
  rewrite (read_at A t _ B E). cbn [mbind res_bind vect_seq]. unfold zget.
  destruct (Z.ltb_spec (len l1) 0); [lia |]. by rewrite Nat2Z.id, list_lookup_middle.
Qed.

Lemma iter_incr A t l1 q l2 B :
  segs = A ++ (t, l1 ++ q :: l2) :: B ->
  iincr (at_pos t l1) = Ok (next_pos t (l1 ++ [q]) l2 B).
Proof using All.
  intros E. destruct (pos_bounds A t l1 q l2 B E) as [H1 H2]. unfold MAXSIZE in *.
  unfold index_incr, at_pos. cbn [it_key it_serial it_num].
  rewrite (read_at A t _ B E). cbn [mbind res_bind vect_seq next].
  rewrite length_app in *. simpl length in *. rewrite (wrap_small 32 (_ - 1)) by lia.
  destruct (Z.eqb_spec (len l1) (Z.of_nat (length l1 + S (length l2)) - 1)) as [HE | HE].
  - assert (l2 = []) as -> by (destruct l2; [done | simpl length in HE; lia]). cbn [next_pos].
    destruct B as [| [b lb] B]; cbn [first_serial]; [done |].
    pose proof (rest_nonzero A t _ b lb B E). unfold HEADSERIAL. by destruct (Z.eqb_spec 0 b); [lia |].
  - destruct l2 as [| q' l2]; [simpl length in HE; lia |]. cbn [next_pos]. unfold at_pos.
    rewrite wrap_small by lia. rewrite length_app, Nat2Z.inj_add. done.
Qed.

Lemma iter_not_end A t l1 q l2 B :
  segs = A ++ (t, l1 ++ q :: l2) :: B -> index_iter_neq (at_pos t l1) (index_cend v) = true.
Proof using All.
  intros E. destruct (pos_bounds A t l1 q l2 B E) as [H1 _]. unfold MAXSIZE in H1.
  unfold index_iter_neq, at_pos, index_cend, MAXSIZE. cbn [it_serial it_num].
  destruct (Z.eqb_spec (len l1) 30); [lia |]. by rewrite andb_false_r.
Qed.

Lemma iter_loop fuel : forall A t l1 l2 B,
  segs = A ++ (t, l1 ++ l2) :: B -> l2 <> [] -> (length (l2 ++ seqs B) < fuel)%nat ->
  index_loop_from ck table_name index_name junk_previous junk_next fuel w (at_pos t l1) = Ok (l2 ++ seqs B).
Proof using All.
  induction fuel as [| fuel IH]; intros A t l1 l2 B E Hn HF; [lia |].
  destruct l2 as [| q l2]; [done |]. cbn [index_loop_from].
  change (it_key (at_pos t l1)) with v. rewrite (iter_not_end A t l1 q l2 B E), (iter_get A t l1 q l2 B E). cbn [mbind res_bind].
  rewrite (iter_incr A t l1 q l2 B E). cbn [mbind res_bind].
  destruct l2 as [| q' l2].
  - destruct B as [| [b lb] B].
    + cbn [next_pos app seqs]. destruct fuel; [simpl in HF; lia |]. done.
    + assert (segs = (A ++ [(t, l1 ++ [q])]) ++ (b, [] ++ lb) :: B) as E' by by rewrite <- app_assoc.
      destruct (segs_nonempty _ HO b lb ltac:(rewrite E'; set_solver)) as (x & l' & Ex).
      change (next_pos t (l1 ++ [q]) [] ((b, lb) :: B)) with (at_pos b []).
      rewrite (IH _ b [] lb B E'); [done | by rewrite Ex |].
      rewrite seqs_cons in HF. cbn [app] in HF. simpl length in HF. lia.
  - assert (segs = A ++ (t, (l1 ++ [q]) ++ q' :: l2) :: B) as E' by by rewrite <- app_assoc.
    change (next_pos t (l1 ++ [q]) (q' :: l2) B) with (at_pos t (l1 ++ [q])).
    rewrite (IH A t (l1 ++ [q]) (q' :: l2) B E'); [done | done | simpl length in *; lia].
Qed.

(** The head's [previous] is the last segment. *)
Lemma read_head A t l : segs = A ++ [(t, l)] -> exists x, iread 0 = Ok x /\ previous x = t.
Proof using All.
  intros E. destruct (segs_cons _ HO) as (h & C & E'); [rewrite E; by destruct A |].
  rewrite (read_at [] 0 h C E'). eexists. split; [done |]. cbn [previous].
  rewrite last_serial_nil. pose proof (last_serial_cons 0 (0, h) C) as EL. cbn [fst] in EL.
  by rewrite <- EL, <- E', E, last_serial_snoc.
Qed.

(** Stepping back undoes stepping forward. *)
Lemma iter_decr A t l1 q l2 B :
  segs = A ++ (t, l1 ++ q :: l2) :: B ->
  idecr (next_pos t (l1 ++ [q]) l2 B) = Ok (at_pos t l1).
Proof using All.
  intros E. destruct (pos_bounds A t l1 q l2 B E) as [H1 H2]. unfold MAXSIZE in *.
  pose proof (read_at A t _ B E) as HRt.
  rewrite length_app in H2. simpl length in H2. unfold index_decr.
  destruct l2 as [| q' l2]; [destruct B as [| [b lb] B] |]; cbn [next_pos].
  - destruct (read_head A t _ E) as (x & Ex & Ep). unfold index_cend, HEADSERIAL. cbn [it_key it_serial it_num].
    rewrite Ex. cbn [mbind res_bind]. rewrite Ep, HRt. cbn [mbind res_bind vect_seq].
    cbn. unfold at_pos. do 2 f_equal. rewrite length_app. simpl length. rewrite wrap_small by lia. lia.
  - assert (segs = (A ++ [(t, l1 ++ [q])]) ++ (b, lb) :: B) as E' by by rewrite <- app_assoc.
    pose proof (rest_nonzero A t _ b lb B E). cbn [it_key it_serial it_num].
    rewrite (read_at _ b lb B E'). cbn [mbind res_bind previous]. rewrite last_serial_snoc, HRt.
    unfold HEADSERIAL. destruct (Z.eqb_spec 0 b); [lia |]. cbn [Z.eqb mbind res_bind vect_seq].
    unfold at_pos. do 2 f_equal. rewrite length_app. simpl length. rewrite wrap_small by lia. lia.
  - unfold at_pos. cbn [it_key it_serial it_num]. rewrite HRt. cbn [mbind res_bind].
    simpl length in H2. rewrite length_app. simpl length.
    destruct (Z.eqb_spec (Z.of_nat (length l1 + 1)) 0); [lia |]. unfold MAXSIZE.
    destruct (Z.eqb_spec 30 (Z.of_nat (length l1 + 1))); [lia |]. cbn [andb].
    do 2 f_equal. lia.
Qed.
(** [n] increments. *)
Fixpoint index_advance (n : nat) (it : index_iterator) : res index_iterator :=
  match n with O => Ok it | S n' => it' ← iincr it; index_advance n' it' end.

Lemma advance_spec n : forall A t l1 l2 B q,
  segs = A ++ (t, l1 ++ l2) :: B -> l2 <> [] -> (l2 ++ seqs B) !! n = Some q ->
  exists A' t' l1' l2' B', segs = A' ++ (t', l1' ++ q :: l2') :: B' /\
    index_advance n (at_pos t l1) = Ok (at_pos t' l1') /\
    drop (S n) (l2 ++ seqs B) = l2' ++ seqs B'.
Proof using All.
  induction n as [| n IH]; intros A t l1 l2 B q E Hn Hq; (destruct l2 as [| q0 l2]; [done |]).
  - injection Hq as ->. by exists A, t, l1, l2, B.
  - cbn [index_advance]. rewrite (iter_incr A t l1 q0 l2 B E). cbn [mbind res_bind]. cbn in Hq.
    destruct l2 as [| q1 l2].
    + destruct B as [| [b lb] B]; [done |].
      assert (segs = (A ++ [(t, l1 ++ [q0])]) ++ (b, [] ++ lb) :: B) as E' by by rewrite <- app_assoc.
      destruct (segs_nonempty _ HO b lb ltac:(rewrite E'; set_solver)) as (x & l' & Ex).
      change (next_pos t (l1 ++ [q0]) [] ((b, lb) :: B)) with (at_pos b []).
      apply (IH _ b [] lb B q E'); [by rewrite Ex | exact Hq].
    + assert (segs = A ++ (t, (l1 ++ [q0]) ++ q1 :: l2) :: B) as E' by by rewrite <- app_assoc.
      by apply (IH A t (l1 ++ [q0]) (q1 :: l2) B q E').
Qed.
End Walk.
Lemma count_spec F w v l :
  stores F w v l -> ivalue v -> l <> [] \/ junk_next = 0 ->
  get_normal_index_count_db ck table_name index_name junk_previous junk_next w v = Ok (u32 (len l)).
Proof using All.
  intros (segs & HO & <- & HT) Hv Hn. unfold get_normal_index_count_db, HEADSERIAL.
  destruct segs as [| [s h] B] eqn:E.
  - destruct Hn as [Hn | Hj]; [done |]. unfold get_normal_index_one_db.
    rewrite (reads_none w v _ 0 (slot_reads F w v _ HT Hv) zero_valid eq_refl).
    cbn [mbind res_bind ientry uninitialised previous vect_seq].
    destruct (Z.to_nat junk_previous); cbn [count_loop next]; by rewrite Hj.
  - destruct (segs_head _ HO) as [? | E0]; [done |]. cbn in E0. unfold HEADSERIAL in E0. subst s.
    rewrite (read_at F w v _ HO Hv HT [] 0 h B eq_refl). cbn [mbind res_bind previous vect_seq].
    pose proof (segs_each_ok _ HO 0 h ltac:(set_solver)) as (_ & HLn & _). cbn [snd] in HLn. unfold MAXSIZE in HLn.
    rewrite (count_loop_spec F w v _ HO Hv HT B [] 0 h _ _ _ eq_refl).
    + by rewrite seqs_cons, length_app, Nat2Z.inj_add.
    + lia.
    + pose proof (segs_sorted _ HO) as HS1. rewrite fmap_cons in HS1. pose proof (rest_length 0 B HS1).
      ring_serials_goal. lia.
Qed.

Lemma has_spec F w v l :
  stores F w v l -> ivalue v ->
  has_normal_index_db ck table_name index_name junk_previous junk_next w v = Ok (negb (bool_decide (l = []))).
Proof using All.
  intros (segs & HO & <- & HT) Hv. unfold has_normal_index_db, HEADSERIAL.
  pose proof (slot_reads F w v _ HT Hv) as HR. destruct segs as [| [s h] B] eqn:E.
  - by rewrite (reads_none w v _ 0 HR zero_valid eq_refl).
  - destruct (segs_head _ HO) as [? | E0]; [done |]. cbn in E0. unfold HEADSERIAL in E0. subst s.
    destruct (reads_some w v _ 0 _ HR zero_valid (ring_at [] 0 h B (not_in_nil 0))) as (n & -> & En).
    cbn [mbind res_bind]. rewrite En. rewrite bool_decide_eq_false_2; [done |].
    destruct (segs_nonempty _ HO 0 h ltac:(set_solver)) as (x & l' & ->). by rewrite seqs_cons.
Qed.

Lemma traverse_spec F w v l fuel :
  stores F w v l -> ivalue v -> (length l < fuel)%nat ->
  index_traverse ck table_name index_name junk_previous junk_next fuel w v = Ok l.
Proof using All.
  intros (segs & HO & <- & HT) Hv HF. unfold index_traverse, index_cbegin, HEADSERIAL.
  pose proof (slot_reads F w v _ HT Hv) as HR. destruct segs as [| [s h] B] eqn:E.
  - rewrite (reads_none w v _ 0 HR zero_valid eq_refl). cbn [mbind res_bind Z.eqb].
    destruct fuel; [simpl in HF; lia |]. done.
  - destruct (segs_head _ HO) as [? | E0]; [done |]. cbn in E0. unfold HEADSERIAL in E0. subst s.
    destruct (reads_some w v _ 0 _ HR zero_valid (ring_at [] 0 h B (not_in_nil 0))) as (n & -> & En).
    cbn [mbind res_bind]. rewrite En. cbn [mbind res_bind].
    destruct (segs_nonempty _ HO 0 h ltac:(set_solver)) as (x & l' & Ex).
    by apply (iter_loop F w v _ HO Hv HT fuel [] 0 [] h B eq_refl); [rewrite Ex |].
Qed.

(** The position [n], from the first one. *)
Lemma nth_position F w v segs n q :
  segments_ok segs -> ivalue v -> itable w (slot F v (ring segs)) -> seqs segs !! n = Some q ->
  exists A t l1 l2 B, segs = A ++ (t, l1 ++ q :: l2) :: B /\
    index_cbegin ck table_name index_name junk_previous junk_next w v = Ok (at_pos v 0 []) /\
    index_advance w n (at_pos v 0 []) = Ok (at_pos v t l1) /\
    drop (S n) (seqs segs) = l2 ++ seqs B.
Proof using All.
  intros HO Hv HT Hq.
  destruct (segs_cons segs HO) as (h & B & E); [intros ->; done |].
  destruct (segs_nonempty segs HO 0 h ltac:(rewrite E; set_solver)) as (x & h' & Eh).
  assert ((h ++ seqs B) !! n = Some q) as Hq' by (rewrite E in Hq; exact Hq).
  destruct (advance_spec F w v segs HO Hv HT n [] 0 [] h B q E ltac:(by rewrite Eh) Hq')
    as (A' & t' & l1 & l2 & B' & E' & EA & ED).
  exists A', t', l1, l2, B'. split; [done |]. split; [| split; [exact EA |]].
  - unfold index_cbegin, HEADSERIAL. pose proof (slot_reads F w v _ HT Hv) as HR.
    pose proof (ring_at [] 0 h B (not_in_nil 0)) as Eg. cbn [app] in Eg. rewrite <- E in Eg.
    destruct (reads_some w v _ 0 _ HR zero_valid Eg) as (m & -> & Em). cbn [mbind res_bind]. by rewrite Em.
  - rewrite E, seqs_cons. exact ED.
Qed.

(** *** Every value at once *)

Definition set_list (M : K -> list Z) (v : K) (l : list Z) : K -> list Z :=
  fun v' => if decide (v' = v) then l else M v'.

(** The state holds, for each value, well-formed segments with its list. *)
Definition index_holds (w : world) (M : K -> list Z) : Prop :=
  exists F : K -> Z -> option NormalIndexValue,
    itable w (fun k => F (fst k) (snd k)) /\
    forall v, exists segs, segments_ok segs /\ seqs segs = M v /\ F v ≗ ring segs.

Lemma index_open w M v : index_holds w M ->
  exists F, stores F w v (M v) /\ (forall w' l, stores F w' v l -> index_holds w' (set_list M v l)).
Proof using Type.
  intros (F & HT & HM). exists F. split.
  - destruct (HM v) as (segs & HO & HQ & HE). exists segs. split; [done |]. split; [done |].
    by apply (slot_same F w v (F v)), HE; apply slot_self.
  - intros w' l (segs & HO & HQ & HT'). exists (fun v' s => slot F v (ring segs) (v', s)). split.
    + apply (table_same w' _ _ HT'). by intros [].
    + intros v'. unfold set_list, slot. cbn [fst snd]. case_decide; [by exists segs | apply HM].
Qed.

(** The iterator at a position reads its row as long as the keys of the index are left alone. *)
Lemma position_stays w M v n q :
  index_holds w M -> ivalue v -> M v !! n = Some q ->
  exists it, index_cbegin ck table_name index_name junk_previous junk_next w v = Ok (mkIndexIter v HEADSERIAL 0) /\
    index_advance w n (mkIndexIter v HEADSERIAL 0) = Ok it /\
    forall w', (forall k, ikey_ok k -> contents w' (enc (index_tree k)) = contents w (enc (index_tree k))) ->
      index_get_seq ck table_name index_name junk_previous junk_next w' it = Ok q.
Proof using All.
  intros HM Hv Hq. destruct (index_open w M v HM) as (F & (segs & HO & EQ & HT) & _). rewrite <- EQ in Hq.
  destruct (nth_position F w v segs n q HO Hv HT Hq) as (A & t & l1 & l2 & B & E & EB & EA & _).
  exists (at_pos v t l1). split; [exact EB |]. split; [exact EA |]. intros w' Hw.
  assert (itable w' (slot F v (ring segs))) as HT'.
  { intros k Hk. unfold has_value. rewrite Hw by done. by apply HT. }
  by apply (iter_get F w' v segs HO Hv HT' A t l1 q l2 B).
Qed.

(** A value without rows reads as an empty segment. *)
Lemma get_seq_empty w M v n :
  index_holds w M -> ivalue v -> M v = [] ->
  index_get_seq ck table_name index_name junk_previous junk_next w (mkIndexIter v HEADSERIAL n)
    = Undef "vector index out of range".
Proof using All.
  intros HM Hv E. destruct (index_open w M v HM) as (F & (segs & HO & EQ & HT) & _).
  rewrite E in EQ. assert (segs = []) as ->.
  { destruct (decide (segs = [])) as [| Hn]; [done |]. destruct (segs_cons segs HO Hn) as (h & B & ->).
    destruct (segs_nonempty _ HO 0 h ltac:(left)) as (x & h' & ->). done. }
  unfold index_get_seq, get_normal_index_one_db, HEADSERIAL. cbn [it_key it_serial it_num].
  rewrite (reads_none w v _ 0 (slot_reads F w v _ HT Hv) zero_valid eq_refl). cbn [mbind res_bind vect_seq].
  assert (zget (vect_seq ientry) n = None) as -> by (unfold zget; destruct (n <? 0); [done | apply lookup_nil]).
  done.
Qed.

Lemma index_holds_empty w :
  (forall k, ikey_ok k -> contents w (enc (index_tree k)) = []) -> index_holds w (fun _ => []).
Proof using Type.
  intros HC. exists (fun _ _ => None). split; [exact HC |]. intros v. exists [].
  split; [apply segments_ok_nil |]. done.
Qed.

(** A program's calls on the index: the spec keeps a list per value. *)
Inductive index_op : Type :=
| IAppend (q : Z) (v : K) | IDelete (q : Z) (v : K) | IHas (v : K) | ICount (v : K)
| IList (fuel : nat) (v : K).

Inductive index_out : Type := IDone | IBool (b : bool) | INum (n : Z) | ISeqs (l : list Z).

Definition index_step (w : world) (o : index_op) : res (world * index_out) :=
  match o with
  | IAppend q v => w' ← append_normal_index_one_db ck table_name index_name junk_previous junk_next w q v; Ok (w', IDone)
  | IDelete q v => w' ← delete_normal_index_db ck table_name index_name junk_previous junk_next w q v; Ok (w', IDone)
  | IHas v => b ← has_normal_index_db ck table_name index_name junk_previous junk_next w v; Ok (w, IBool b)
  | ICount v => n ← get_normal_index_count_db ck table_name index_name junk_previous junk_next w v; Ok (w, INum n)
  | IList fuel v => l ← index_traverse ck table_name index_name junk_previous junk_next fuel w v; Ok (w, ISeqs l)
  end.

Fixpoint index_run (w : world) (os : list index_op) : res (world * list index_out) :=
  match os with
  | [] => Ok (w, [])
  | o :: os' => '(w', out) ← index_step w o; '(w'', outs) ← index_run w' os'; Ok (w'', out :: outs)
  end.

Definition list_step (M : K -> list Z) (o : index_op) : (K -> list Z) * index_out :=
  match o with
  | IAppend q v => (set_list M v (M v ++ [q]), IDone)
  | IDelete q v => (set_list M v (without q (M v)), IDone)
  | IHas v => (M, IBool (negb (bool_decide (M v = []))))
  | ICount v => (M, INum (u32 (len (M v))))
  | IList _ v => (M, ISeqs (M v))
  end.

Fixpoint list_run (M : K -> list Z) (os : list index_op) : (K -> list Z) * list index_out :=
  match os with
  | [] => (M, [])
  | o :: os' =>
      let '(M', out) := list_step M o in
      let '(M'', outs) := list_run M' os' in (M'', out :: outs)
  end.

(** New sequence numbers ascend; what is deleted does not precede everything; the count
    of a value without rows would use an uninitialised variable. *)
Definition op_ok (M : K -> list Z) (o : index_op) : Prop :=
  match o with
  | IAppend q v => ivalue v /\ 0 <= q < SEQ_LIMIT /\ (forall x, x ∈ M v -> x < q)
  | IDelete q v => ivalue v /\ (M v = [] \/ exists x, x ∈ M v /\ x <= q)
  | IHas v => ivalue v
  | ICount v => ivalue v /\ (M v <> [] \/ junk_next = 0)
  | IList fuel v => ivalue v /\ (length (M v) < fuel)%nat
  end.

Fixpoint ops_ok (M : K -> list Z) (os : list index_op) : Prop :=
  match os with [] => True | o :: os' => op_ok M o /\ ops_ok (fst (list_step M o)) os' end.

Lemma index_step_spec w M o :
  index_holds w M -> op_ok M o ->
  exists w', index_step w o = Ok (w', snd (list_step M o)) /\
    index_holds w' (fst (list_step M o)) /\ other_keys w w'.
Proof using All.
  intros HM Ho. destruct o as [q v | q v | v | v | fuel v]; cbn [op_ok index_step list_step fst snd] in *;
    destruct (index_open w M v HM) as (F & HS0 & HC).
  - destruct Ho as (Hv & Hq & HQ). destruct (append_spec F w v (M v) q HS0 Hv Hq HQ) as (w' & -> & HS1 & HF).
    exists w'. split; [done |]. split; [by apply HC | done].
  - destruct Ho as (Hv & HQ). destruct (delete_spec F w v (M v) q HS0 Hv HQ) as (w' & -> & HS1 & HF).
    exists w'. split; [done |]. split; [by apply HC | done].
  - rewrite (has_spec F w v (M v) HS0 Ho). by exists w.
  - destruct Ho as (Hv & HQ). rewrite (count_spec F w v (M v) HS0 Hv HQ). by exists w.
  - destruct Ho as (Hv & HQ). rewrite (traverse_spec F w v (M v) fuel HS0 Hv HQ). by exists w.
Qed.
End IndexState.

Arguments IAppend {K}.
Arguments IDelete {K}.
Arguments IHas {K}.
Arguments ICount {K}.
Arguments IList {K}.

(** ** Properties *)

Section IndexProperties.
Context `{HL : HostRLPLaws, HS : HostStateLaws} {K : Type} `{EqDecision K} (ck : codec K).
Context (tk : K -> item) (vk sk : K -> Prop) `{HK : !CodecLaws ck tk vk sk}.
Context (table_name index_name junk_previous junk_next : Z).

(** C37. A non-unique index keeps, for every value, the ascending list of the sequence
    numbers appended and not deleted: any sequence of appends, deletes, existence tests,
    counts and iterations returns what the same operations on a list per value return,
    for every way the list is cut into segments on the way, and changes no key of another
    index or table. The sessions are those of [ops_ok]: a number appended is below 2^63 and
    above those its value has, as the table's counter gives them; a delete is for a value
    without numbers or of a number not below all of them (below all, [del] searches
    forever: delete_before_first_loops); [count] is asked of a value that has numbers, or
    its uninitialised variable happens to hold 0; an iteration has fuel above the number
    of entries. *)
Theorem index_session_correct (os : list (index_op (K := K))) : forall w M,
  index_holds tk vk table_name index_name w M ->
  ops_ok tk vk table_name index_name junk_next M os ->
  exists w', index_run ck table_name index_name junk_previous junk_next w os = Ok (w', snd (list_run M os)) /\
    index_holds tk vk table_name index_name w' (fst (list_run M os)) /\
    other_keys tk vk table_name index_name w w'.
Proof using All.
  induction os as [| o os IH]; intros w M HM HOs; [by exists w |]. destruct HOs as [Ho HOs].
  destruct (index_step_spec ck tk vk sk table_name index_name junk_previous junk_next w M o HM Ho)
    as (w1 & E1 & HM1 & HF1).
  destruct (IH w1 _ HM1 HOs) as (w2 & E2 & HM2 & HF2). exists w2. cbn [index_run list_run].
  rewrite E1. cbn [mbind res_bind]. rewrite E2. cbn [mbind res_bind].
  destruct (list_step M o) as [M1 out]. cbn [fst snd] in *. destruct (list_run M1 os) as [M2 outs].
  split; [done |]. split; [done |]. by eapply other_keys_trans.
Qed.

(** Iterators of a non-unique index: the n-th increment of [cbegin] stands at the
    n-th sequence number of the value, and [operator--] undoes [operator++], also across
    segments and from [cend] back to the last one. *)
Theorem iterator_positions w M v n q :
  index_holds tk vk table_name index_name w M -> ivalue tk vk table_name index_name v ->
  M v !! n = Some q ->
  exists it0 it it', index_cbegin ck table_name index_name junk_previous junk_next w v = Ok it0 /\
    index_advance ck table_name index_name junk_previous junk_next w n it0 = Ok it /\
    index_get_seq ck table_name index_name junk_previous junk_next w it = Ok q /\
    index_incr ck table_name index_name junk_previous junk_next w it = Ok it' /\
    index_decr ck table_name index_name junk_previous junk_next w it' = Ok it /\
    (index_iter_neq it' (index_cend v) = false <-> S n = length (M v)).
Proof using All.
  intros HM Hv Hq. destruct (index_open tk vk table_name index_name w M v HM) as (F & (segs & HO & EQ & HT) & _).
  rewrite <- EQ in Hq |- *.
  destruct (nth_position ck tk vk sk table_name index_name junk_previous junk_next F w v segs n q HO Hv HT Hq)
    as (A' & t' & l1 & l2 & B' & E' & EB & EA & ED).
  exists (at_pos v 0 []), (at_pos v t' l1), (next_pos v t' (l1 ++ [q]) l2 B').
  split; [exact EB |]. split; [exact EA |]. split; [by eapply iter_get |]. split; [by eapply iter_incr |].
  split; [by eapply iter_decr |].
  assert (length (seqs segs) = (S n + length (l2 ++ seqs B'))%nat) as ->.
  { rewrite <- ED, length_drop. apply lookup_lt_Some in Hq. lia. }
  destruct l2 as [| q2 l2]; [destruct B' as [| [b lb] B'] |]; cbn [next_pos].
  - split; [intros _; simpl; lia | done].
  - destruct (segs_nonempty segs HO b lb ltac:(rewrite E'; set_solver)) as (y & lb' & ->).
    rewrite seqs_cons. split; [| simpl; lia]. unfold index_iter_neq, index_cend, MAXSIZE. cbn [it_serial it_num].
    by rewrite andb_false_r.
  - assert (segs = A' ++ (t', (l1 ++ [q]) ++ q2 :: l2) :: B') as E2 by by rewrite <- app_assoc.
    rewrite (iter_not_end ck tk vk sk table_name index_name junk_previous junk_next F w v segs HO Hv HT _ _ _ _ _ _ E2).
    split; [done | simpl; lia].
Qed.

(** Deleting a sequence number that precedes everything in an index of at least two
    segments never returns: whatever fuel the search is given, it is used up (the serial
    before the head wraps around to 2^64 - 1 and the search starts over). *)
Theorem delete_before_first_loops F w v segs q :
  table (index_tree tk table_name index_name) (index_valid vk table_name index_name)
    segment_tree segment_valid w (slot F v (ring segs)) ->
  ivalue tk vk table_name index_name v -> segments_ok segs ->
  (2 <= length segs)%nat -> (forall x, x ∈ seqs segs -> q < x) ->
  exists n head, get_one ck table_name index_name junk_previous junk_next w v HEADSERIAL = Ok (n, head) /\
    (forall fuel, search_loop ck table_name index_name junk_previous junk_next fuel w v head q
       HEADSERIAL (previous head) = Fuel) /\
    delete_normal_index_db ck table_name index_name junk_previous junk_next w q v = Fuel.
Proof using All.
  intros HT Hv HO H2 HQ. unfold delete_normal_index_db, HEADSERIAL.
  destruct (segs_shape segs HO) as [-> | [(h & ->) | (h & A & t & l & ->)]]; [simpl in H2; lia | simpl in H2; lia |].
  pose proof (slot_reads ck tk vk sk table_name index_name junk_previous junk_next F w v _ HT Hv) as HR.
  pose proof (ring_at [] 0 h (A ++ [(t, l)]) (not_in_nil 0)) as Eh. ring_serials Eh.
  destruct (reads_some ck table_name index_name junk_previous junk_next w v _ 0 _ HR zero_valid Eh) as (n & -> & En).
  eexists n, _. split; [done |]. cbn [mbind res_bind previous next]. rewrite En.
  destruct (segs_last _ HO) as [HVl _]; [done |].
  change ((0, h) :: A ++ [(t, l)]) with (((0, h) :: A) ++ [(t, l)]) in HVl. rewrite last_serial_snoc in HVl.
  assert (t <> 0) as Ht.
  { destruct (distinct_mid ((0, h) :: A) [] t l (segs_distinct _ HO)) as (HN & _ & _).
    intros ->. apply HN. left. }
  assert (forall fuel, search_loop ck table_name index_name junk_previous junk_next fuel w v
    (mkValue t h (first_serial A t)) q 0 t = Fuel) as HX.
  { intros fuel. apply (search_stuck ck tk vk sk table_name index_name junk_previous junk_next w v _ HO HR); [| | done].
    - cbn [previous]. ring_serials_goal. done.
    - intros s x Hx y Hy. apply HQ, elem_of_seqs. exists s, (vect_seq x).
      split; [by apply (ring_elem_inv _ HO) | done]. }
  split; [done |]. destruct (Z.eqb_spec 0 t); [lia |]. cbn [andb]. apply HX.
Qed.
End IndexProperties.

(** *** Concrete runs: a table "1", an index "2" on 64-bit values, nothing stored yet *)

#[local] Existing Instance host_rlp.
#[local] Existing Instance host_rlp_laws.
#[local] Existing Instance host_state.
#[local] Existing Instance host_state_laws.

Abbreviation demo_ivalue := (ivalue int_item (uint_valid 64) 1 2).
Abbreviation demo_holds := (index_holds int_item (uint_valid 64) 1 2).

Lemma demo_value v : uint_valid 64 v -> demo_ivalue v.
Proof.
  intros Hv s Hs. split; [do 4 (split; [done |]); done |]. unfold index_tree. rewrite cost_list. unfold total_cost.
  cbn [foldr fst snd]. pose proof (int_item_cost v Hv). pose proof (int_item_cost s Hs).
  pose proof (int_item_cost 1 ltac:(done)). pose proof (int_item_cost 2 ltac:(done)).
  unfold RLP_LIMIT, SIZE_MAX. lia.
Qed.

Lemma demo_empty : demo_holds (∅ : @world host_state) (fun _ => []).
Proof. apply index_holds_empty. intros k _. simpl. by rewrite lookup_empty. Qed.

Lemma append_all qs : forall w M v, demo_holds w M -> demo_ivalue v ->
  StronglySorted Z.lt (M v ++ qs) -> Forall (fun q => 0 <= q < SEQ_LIMIT) qs ->
  exists w' M', demo_holds w' M' /\ M' v = M v ++ qs.
Proof.
  induction qs as [| q qs IH]; intros w M v HM Hv HSs HQ.
  - exists w, M. by rewrite app_nil_r.
  - apply Forall_cons in HQ as [Hq HQ].
    destruct (index_open _ _ _ _ w M v HM) as (F & HS0 & HC).
    destruct (append_spec (c_uint 64) int_item (uint_valid 64) anything 1 2 0 0 F w v (M v) q HS0 Hv Hq)
      as (w1 & _ & HS1 & _).
    { intros x Hx. apply (StronglySorted_app_1_elem_of _ _ _ x q HSs Hx). by left. }
    destruct (IH w1 (set_list M v (M v ++ [q])) v) as (w' & M' & HM' & E);
      [by apply HC | done | | done |].
    + unfold set_list. rewrite decide_True by done. by rewrite <- app_assoc.
    + exists w', M'. split; [done |]. rewrite E. unfold set_list. rewrite decide_True by done.
      by rewrite <- app_assoc.
Qed.

(** Forty rows under value 7, and nothing else. *)
Definition demo_rows : list Z := seqZ 10 40.

Lemma demo_rows_ok : StronglySorted Z.lt demo_rows /\ Forall (fun q => 0 <= q < SEQ_LIMIT) demo_rows.
Proof.
  split; [| apply (bool_decide_unpack _); vm_compute; reflexivity].
  apply Sorted_StronglySorted; [intros x y z; lia |]. change demo_rows with (seqZ 10 40). vm_compute.
  repeat (constructor; try done).
Qed.

Lemma demo_rows_above : Forall (fun x => 5 < x) demo_rows.
Proof. apply (bool_decide_unpack _); vm_compute; reflexivity. Qed.

Lemma demo_stored : exists w M, demo_holds w M /\ M 7 = demo_rows.
Proof.
  destruct demo_rows_ok as [HSs HQ].
  exact (append_all demo_rows ∅ (fun _ => []) 7 demo_empty (demo_value 7 ltac:(done)) HSs HQ).
Qed.

Lemma index_session_correct_witness :
  let os := [IAppend 3 7; IAppend 4 8; IAppend 5 7; IDelete 3 7; ICount 7; IList 2%nat 7; IHas 9; ICount 9] in
  snd (list_run (fun _ => []) os) = [IDone; IDone; IDone; IDone; INum 1; ISeqs [5]; IBool false; INum 0] /\
  exists w' : world, index_run (c_uint 64) 1 2 0 0 (∅ : @world host_state) os
    = Ok (w', snd (list_run (fun _ => []) os)) /\ demo_holds w' (fst (list_run (fun _ => []) os)) /\
    other_keys int_item (uint_valid 64) 1 2 (∅ : @world host_state) w'.
Proof.
  split; [vm_compute; reflexivity |].
  apply (index_session_correct (c_uint 64) int_item (uint_valid 64) anything 1 2 0 0);
    [exact demo_empty |].
  cbn [ops_ok op_ok list_step fst]. unfold SEQ_LIMIT.
  repeat split; try (by apply demo_value); try lia; try (by right); try (intros x Hx; vm_compute in Hx; by apply not_elem_of_nil in Hx).
  - intros x Hx. vm_compute in Hx. apply list_elem_of_singleton in Hx as ->. done.
  - right. exists 3. vm_compute. split; [left | done].
  - vm_compute. lia.
Defined.

Lemma iterator_positions_witness :
  exists (w : world) M it0 it it', M 7 !! 29%nat = Some 39 /\
    index_cbegin (c_uint 64) 1 2 0 0 w 7 = Ok it0 /\
    index_advance (c_uint 64) 1 2 0 0 w 29 it0 = Ok it /\ index_get_seq (c_uint 64) 1 2 0 0 w it = Ok 39 /\
    index_incr (c_uint 64) 1 2 0 0 w it = Ok it' /\ index_decr (c_uint 64) 1 2 0 0 w it' = Ok it /\
    (index_iter_neq it' (index_cend 7) = false <-> 30%nat = length (M 7)).
Proof.
  destruct demo_stored as (w & M & HM & E). exists w, M.
  assert (M 7 !! 29%nat = Some 39) as Hq by (rewrite E; vm_compute; reflexivity).
  destruct (iterator_positions (c_uint 64) int_item (uint_valid 64) anything 1 2 0 0 w M 7 29 39 HM
              (demo_value 7 ltac:(done)) Hq) as (it0 & it & it' & HX).
  by exists it0, it, it'.
Defined.

Lemma delete_before_first_loops_witness :
  exists (w : world) segs, seqs segs = demo_rows /\
    exists n head, get_one (c_uint 64) 1 2 0 0 w 7 HEADSERIAL = Ok (n, head) /\
    (forall fuel, search_loop (c_uint 64) 1 2 0 0 fuel w 7 head 5 HEADSERIAL (previous head) = Fuel) /\
    delete_normal_index_db (c_uint 64) 1 2 0 0 w 5 7 = Fuel.
Proof.
  destruct demo_stored as (w & M & HM & E).
  destruct (index_open _ _ _ _ w M 7 HM) as (F & (segs & HO & EQ & HT) & _). rewrite E in EQ.
  exists w, segs. split; [exact EQ |].
  apply (delete_before_first_loops (c_uint 64) int_item (uint_valid 64) anything 1 2 0 0 F w 7 segs 5 HT
           (demo_value 7 ltac:(done)) HO).
  - pose proof (seqs_length segs HO) as HLn. rewrite EQ in HLn. assert (len demo_rows = 40) as EL by (vm_compute; reflexivity). rewrite EL in HLn. unfold MAXSIZE in HLn. lia.
  - rewrite EQ. intros x Hx. pose proof (proj1 (Forall_forall _ _) demo_rows_above x Hx). done.
Defined.
