(* ===== verification/MultiIndex.v ===== *)
(** * db/multi_index.hpp, second part: the table

    [MultiIndex<TableName, T, Indices...>]: rows of type [T] under ascending sequence
    numbers, unique indices (a key's sequence number) and non-unique ones
    ([NormalIndex]). The object keeps a cache of rows; iterators share its items, so the
    items are cells of a store and an iterator is the address of one. *)

From S2P Require Import Prelude Common RlpSpec RlpReader RlpConvert HostRlp RlpStream RlpSize.
From S2P Require Import Serialize SerializeFacts HostState Storage StorageType NormalIndex.

(** ** Definitions *)

(** What [IndexedBy<IndexSeq, Extractor>] says of an index: the type of its keys, how a
    row's key is extracted, its kind. *)
Record index (T : Type) := mkIndex {
  ix_key : Type;
  ix_eq : EqDecision ix_key;
  ix_codec : codec ix_key;
  index_name : Z;
  unique : bool;
  extract_secondary_key : T -> ix_key
}.
Arguments ix_key {T}.
Arguments ix_eq {T}.
Arguments ix_codec {T}.
Arguments index_name {T}.
Arguments unique {T}.
Arguments extract_secondary_key {T}.
#[export] Existing Instance ix_eq.

(** The object. [items]: the rows and sequence numbers of the [Item] objects made so far. *)
Record MultiIndex (T : Type) := mkMulti {
  items : list (T * Z);
  seq2item_ : gmap Z nat;
  seq_ : StorageType Z
}.
Arguments mkMulti {T}.
Arguments items {T}.
Arguments seq2item_ {T}.
Arguments seq_ {T}.

(** An iterator of the table: the address of its item. *)
Abbreviation iterator := nat.

Section Keys.
Context `{HostRLP, HostState} (TableName : Z).

(** [MultiDBKey]. *)
Definition c_row_key : codec Z :=
  c_view (fun seq => (TableName, (seq, tt))) (fun x => fst (snd x))
         (c_struct (fields_cons (c_uint 64) (fields_cons (c_uint 64) fields_nil))).

Definition set_state_db {T} (ct : codec T) (w : world) (seq : Z) (value : T) : res world :=
  set_state c_row_key ct w seq value.
Definition get_state_db {T} (ct : codec T) (w : world) (seq : Z) (value : T) : res T :=
  '(_, v) ← get_state c_row_key ct w seq value; Ok v.
Definition has_state_db (w : world) (seq : Z) : res bool := has_state c_row_key w seq.
Definition delete_state_db (w : world) (seq : Z) : res world := del_state c_row_key w seq.

Section Unique.
Context {K : Type} (ck : codec K) (name : Z).

(** [IndexKey]. *)
Definition c_unique_key : codec K :=
  c_view (fun k => (TableName, (name, (k, tt)))) (fun x => fst (snd (snd x)))
         (c_struct (fields_cons (c_uint 64) (fields_cons (c_uint 64) (fields_cons ck fields_nil)))).

Definition set_index_db (w : world) (seq : Z) (value : K) : res world :=
  set_state c_unique_key (c_uint 64) w value seq.
Definition has_index_db (w : world) (value : K) : res bool := has_state c_unique_key w value.
(** [junk]: the uninitialised [result]. *)
Definition get_index_db (junk : Z) (w : world) (value : K) : res Z :=
  '(_, seq) ← get_state c_unique_key (c_uint 64) w value junk; Ok seq.
Definition delete_index_db (w : world) (value : K) : res world := del_state c_unique_key w value.
Definition check_unique (w : world) (value : K) : res bool := has_state c_unique_key w value.
End Unique.
End Keys.

Section MultiIndex.
Context `{HostRLP, HostState} {T : Type} (ct : codec T) (TableName : Z) (indices_ : list (index T)).

(** A default-constructed row; the uninitialised integers of the functions called. *)
Context (dflt : T) (junk : Z).

(** The constructor and the destructor: only [seq_] has any. *)
Definition multi_new (w : world) : res (MultiIndex T) :=
  s ← storage_init (c_uint 64) w TableName 0 junk; Ok (mkMulti [] ∅ s).
Definition multi_end (m : MultiIndex T) (w : world) : res world := storage_flush (c_uint 64) w (seq_ m).

(** *** Items *)

(** [std::make_shared<Item>]. *)
Definition make_item (m : MultiIndex T) (obj : T) (seq : Z) : iterator * MultiIndex T :=
  (length (items m), mkMulti (items m ++ [(obj, seq)]) (seq2item_ m) (seq_ m)).
Definition get_item (m : MultiIndex T) (p : iterator) : res (T * Z) :=
  match items m !! p with Some x => Ok x | None => Undef "no such item" end.
Definition set_item (m : MultiIndex T) (p : iterator) (x : T * Z) : MultiIndex T :=
  mkMulti (<[p := x]> (items m)) (seq2item_ m) (seq_ m).
Definition cache_item (m : MultiIndex T) (seq : Z) (p : iterator) : MultiIndex T :=
  mkMulti (items m) (<[seq := p]> (seq2item_ m)) (seq_ m).
Definition uncache_item (m : MultiIndex T) (seq : Z) : MultiIndex T :=
  mkMulti (items m) (delete seq (seq2item_ m)) (seq_ m).
Definition set_seq (m : MultiIndex T) (change : Z -> Z) : MultiIndex T :=
  mkMulti (items m) (seq2item_ m) (storage_self (seq_ m) change).

Definition get_item_ptr (m : MultiIndex T) (w : world) (seq : Z) : res (iterator * MultiIndex T) :=
  match seq2item_ m !! seq with
  | Some p => Ok (p, m)
  | None =>
      obj ← get_state_db TableName ct w seq dflt;
      let '(p, m') := make_item m obj seq in Ok (p, cache_item m' seq p)
  end.

(** *** const_iterator *)

Definition table_deref (m : MultiIndex T) (w : world) (it : iterator) : res (T * MultiIndex T) :=
  '(obj, seq) ← get_item m it;
  match seq2item_ m !! seq with
  | Some _ => Ok (obj, m)
  | None =>
      obj' ← get_state_db TableName ct w seq obj;
      Ok (obj', cache_item (set_item m it (obj', seq)) seq it)
  end.

Definition table_seq (m : MultiIndex T) (it : iterator) : res Z := '(_, seq) ← get_item m it; Ok seq.

(** [operator==], for iterators of one table. *)
Definition table_iter_eq (m : MultiIndex T) (a b : iterator) : res bool :=
  s ← table_seq m a; s' ← table_seq m b; Ok (s =? s').

(** [for (; seq < end_seq; ++seq) if (has_state_db(seq)) break;] *)
Fixpoint scan_loop (fuel : nat) (w : world) (seq end_seq : Z) : res Z :=
  match fuel with
  | O => Fuel
  | S fuel' =>
      if seq <? end_seq then
        b ← has_state_db TableName w seq;
        if b : bool then Ok seq else scan_loop fuel' w (u64 (seq + 1)) end_seq
      else Ok seq
  end.
Definition scan (w : world) (seq end_seq : Z) : res Z := scan_loop (S (Z.to_nat (end_seq - seq))) w seq end_seq.

(** The cached item of [seq], or a new one that is not loaded. *)
Definition item_at (m : MultiIndex T) (seq : Z) : iterator * MultiIndex T :=
  match seq2item_ m !! seq with Some p => (p, m) | None => make_item m dflt seq end.

Definition cbegin (m : MultiIndex T) (w : world) : res (iterator * MultiIndex T) :=
  begin_seq ← scan w 0 (storage_get (seq_ m)); Ok (item_at m begin_seq).
Definition cend (m : MultiIndex T) : iterator * MultiIndex T := make_item m dflt (storage_get (seq_ m)).

Definition table_incr (m : MultiIndex T) (w : world) (it : iterator) : res (iterator * MultiIndex T) :=
  let end_seq := storage_get (seq_ m) in
  it_seq ← table_seq m it;
  if it_seq =? end_seq then Ok (it, m)
  else
    let seq := u64 (it_seq + 1) in
    match seq2item_ m !! seq with
    | Some p => Ok (p, m)
    | None => seq' ← scan w seq end_seq; Ok (item_at m seq')
    end.

(** [for (auto it = table.cbegin(); it != table.cend(); ++it)]: the rows. *)
Fixpoint rows_from (fuel : nat) (m : MultiIndex T) (w : world) (it : iterator) : res (list T * MultiIndex T) :=
  match fuel with
  | O => Fuel
  | S fuel' =>
      let '(e, m1) := cend m in
      b ← table_iter_eq m1 it e;
      if b : bool then Ok ([], m1)
      else
        '(obj, m2) ← table_deref m1 w it;
        '(it', m3) ← table_incr m2 w it;
        '(objs, m4) ← rows_from fuel' m3 w it';
        Ok (obj :: objs, m4)
  end.
Definition rows (fuel : nat) (m : MultiIndex T) (w : world) : res (list T * MultiIndex T) :=
  '(it, m1) ← cbegin m w; rows_from fuel m1 w it.

(** *** emplace *)

Definition has_unique_index : bool := existsb unique indices_.

(** [hana::any_of] over the unique indices. *)
Fixpoint any_conflict (ixs : list (index T)) (w : world) (obj : T) : res bool :=
  match ixs with
  | [] => Ok false
  | d :: ixs' =>
      b ← (if unique d then check_unique TableName (ix_codec d) (index_name d) w (extract_secondary_key d obj)
           else Ok false);
      if b : bool then Ok true else any_conflict ixs' w obj
  end.

Definition add_to_index (d : index T) (w : world) (seq : Z) (obj : T) : res world :=
  if unique d then set_index_db TableName (ix_codec d) (index_name d) w seq (extract_secondary_key d obj)
  else append_normal_index_one_db (ix_codec d) TableName (index_name d) junk junk w seq (extract_secondary_key d obj).

Fixpoint add_to_indices (ixs : list (index T)) (w : world) (seq : Z) (obj : T) : res world :=
  match ixs with
  | [] => Ok w
  | d :: ixs' => w' ← add_to_index d w seq obj; add_to_indices ixs' w' seq obj
  end.

(** The iterator, whether the row was added, the object and the state. *)
Definition emplace (m : MultiIndex T) (w : world) (constructor : T -> T)
    : res (iterator * bool * MultiIndex T * world) :=
  let obj := constructor dflt in
  let seq := storage_get (seq_ m) in
  let '(item, m1) := make_item (set_seq m (fun s => u64 (s + 1))) obj seq in
  is_conflict ← (if has_unique_index then any_conflict indices_ w obj else Ok false);
  if is_conflict : bool then
    let '(e, m2) := cend (set_seq m1 (fun s => u64 (s - 1))) in Ok (e, false, m2, w)
  else
    w1 ← add_to_indices indices_ w seq obj;
    w2 ← set_state_db TableName ct w1 seq obj;
    Ok (item, true, cache_item m1 seq item, w2).

(** *** find and count, of the index [d] *)

Definition find (d : index T) (m : MultiIndex T) (w : world) (key : ix_key d) : res (iterator * MultiIndex T) :=
  let '(result, m1) := cend m in
  b ← has_index_db TableName (ix_codec d) (index_name d) w key;
  if b : bool then
    seq ← get_index_db TableName (ix_codec d) (index_name d) junk w key;
    get_item_ptr m1 w seq
  else Ok (result, m1).

Definition count (d : index T) (w : world) (key : ix_key d) : res Z :=
  if unique d then
    b ← has_index_db TableName (ix_codec d) (index_name d) w key; Ok (if b : bool then 1 else 0)
  else
    b ← has_normal_index_db (ix_codec d) TableName (index_name d) junk junk w key;
    if b : bool then get_normal_index_count_db (ix_codec d) TableName (index_name d) junk junk w key else Ok 0.

(** *** modify and erase *)

(** No index key differs. *)
Fixpoint same_keys (ixs : list (index T)) (old_obj new_obj : T) : bool :=
  match ixs with
  | [] => true
  | d :: ixs' =>
      if decide (extract_secondary_key d old_obj = extract_secondary_key d new_obj)
      then same_keys ixs' old_obj new_obj else false
  end.

Definition modify (m : MultiIndex T) (w : world) (position : iterator) (constructor : T -> T)
    : res (MultiIndex T * world) :=
  '(obj, m1) ← table_deref m w position;
  seq ← table_seq m1 position;
  let new_obj := constructor obj in
  let '(item, m2) := make_item m1 new_obj seq in
  '(old_obj, m3) ← table_deref m2 w position;
  if same_keys indices_ old_obj new_obj then
    w' ← set_state_db TableName ct w seq new_obj; Ok (cache_item m3 seq item, w')
  else Ok (m3, w).

Definition remove_from_index (d : index T) (w : world) (seq : Z) (obj : T) : res world :=
  if unique d then delete_index_db TableName (ix_codec d) (index_name d) w (extract_secondary_key d obj)
  else delete_normal_index_db (ix_codec d) TableName (index_name d) junk junk w seq (extract_secondary_key d obj).

Fixpoint erase_indices (ixs : list (index T)) (m : MultiIndex T) (w : world) (position : iterator)
    : res (MultiIndex T * world) :=
  match ixs with
  | [] => Ok (m, w)
  | d :: ixs' =>
      seq ← table_seq m position;
      '(obj, m') ← table_deref m w position;
      w' ← remove_from_index d w seq obj;
      erase_indices ixs' m' w' position
  end.

Definition erase (m : MultiIndex T) (w : world) (position : iterator) : res (MultiIndex T * world) :=
  '(m1, w1) ← erase_indices indices_ m w position;
  seq ← table_seq m1 position;
  w2 ← delete_state_db TableName w1 seq;
  Ok (uncache_item m1 seq, w2).

(** *** The iterators of a non-unique index [d] *)

Section Index.
Context (d : index T).

Definition index_seq (w : world) (it : index_iterator (K := ix_key d)) : res Z :=
  index_get_seq (ix_codec d) TableName (index_name d) junk junk w it.

Definition index_deref (m : MultiIndex T) (w : world) (it : index_iterator (K := ix_key d))
    : res (T * MultiIndex T) :=
  seq ← index_seq w it;
  '(p, m') ← get_item_ptr m w seq;
  '(obj, _) ← get_item m' p; Ok (obj, m').

(** The rows of a value, with the loop of [index_loop_from]. *)
Fixpoint index_rows_from (fuel : nat) (m : MultiIndex T) (w : world) (it : index_iterator (K := ix_key d))
    : res (list T * MultiIndex T) :=
  match fuel with
  | O => Fuel
  | S fuel' =>
      if index_iter_neq it (index_cend (it_key it)) then
        '(obj, m1) ← index_deref m w it;
        it' ← index_incr (ix_codec d) TableName (index_name d) junk junk w it;
        '(objs, m2) ← index_rows_from fuel' m1 w it';
        Ok (obj :: objs, m2)
      else Ok ([], m)
  end.
Definition index_rows (fuel : nat) (m : MultiIndex T) (w : world) (key : ix_key d) : res (list T * MultiIndex T) :=
  it ← index_cbegin (ix_codec d) TableName (index_name d) junk junk w key; index_rows_from fuel m w it.

Definition index_modify (m : MultiIndex T) (w : world) (position : index_iterator (K := ix_key d))
    (constructor : T -> T) : res (MultiIndex T * world) :=
  '(obj, m1) ← index_deref m w position;
  seq ← index_seq w position;
  let new_obj := constructor obj in
  let '(item, m2) := make_item m1 new_obj seq in
  '(old_obj, m3) ← index_deref m2 w position;
  if same_keys indices_ old_obj new_obj then
    w' ← set_state_db TableName ct w seq new_obj; Ok (cache_item m3 seq item, w')
  else Ok (m3, w).

(** Each key is extracted from [*position], read again. *)
Fixpoint index_erase_indices (ixs : list (index T)) (m : MultiIndex T) (w : world) (seq : Z)
    (position : index_iterator (K := ix_key d)) : res (MultiIndex T * world) :=
  match ixs with
  | [] => Ok (m, w)
  | d' :: ixs' =>
      '(obj, m') ← index_deref m w position;
      w' ← remove_from_index d' w seq obj;
      index_erase_indices ixs' m' w' seq position
  end.

Definition index_erase (m : MultiIndex T) (w : world) (position : index_iterator (K := ix_key d))
    : res (MultiIndex T * world) :=
  seq ← index_seq w position;
  '(m1, w1) ← index_erase_indices indices_ m w seq position;
  w2 ← delete_state_db TableName w1 seq;
  Ok (uncache_item m1 seq, w2).
End Index.
End MultiIndex.
