(* ===== verification/MultiIndexFacts.v ===== *)
(** * Theorems about the multi-index table

    The functions of MultiIndex on the state and on the object implement a list of rows
    in the order of their sequence numbers. *)

From Stdlib Require Import Sorted.
From stdpp Require Import sorting.
From S2P Require Import Prelude Common RlpSpec RlpReader RlpConvert HostRlp RlpStream RlpSize.
From S2P Require Import Serialize SerializeFacts HostState Storage StorageType NormalIndex IndexRing NormalIndexFacts.
From S2P Require Import MultiIndex.

(** *** Rows and what changing one does to the rows of a key *)

Section Rows.
Context {T : Type}.
Implicit Type (R : list (Z * T)).

Fixpoint assoc R (s : Z) : option T :=
  match R with [] => None | (s0, r) :: R' => if decide (s = s0) then Some r else assoc R' s end.

Definition drop_row (s : Z) R : list (Z * T) := filter (fun p => fst p <> s) R.
Definition replace_row (s : Z) (r : T) R : list (Z * T) :=
  (fun p => if decide (fst p = s) then (s, r) else p) <$> R.

(** The rows with the key [k]. *)
Definition matching {K} `{EqDecision K} (key : T -> K) R (k : K) : list (Z * T) :=
  filter (fun p => key (snd p) = k) R.

Lemma assoc_in R s r : NoDup (fst <$> R) -> assoc R s = Some r <-> (s, r) ∈ R.
Proof.
  induction R as [| [s0 r0] R IH]; cbn [assoc]; intros HN; [split; [done | by intros ?%not_elem_of_nil] |].
  apply NoDup_cons in HN as [HN0 HN]. cbn [fst] in HN0. rewrite elem_of_cons. case_decide as E.
  - subst s0. split; [intros [= ->]; by left | intros [[= ->] | Hin]; [done |]].
    destruct HN0. apply list_elem_of_fmap. by exists (s, r).
  - rewrite IH by done. split; [by right | by intros [[= ? ?] | ?]].
Qed.

Lemma assoc_none R s : assoc R s = None <-> s ∉ (fst <$> R).
Proof.
  induction R as [| [s0 r0] R IH]; cbn [assoc]; [split; [intros _; apply not_elem_of_nil | done] |].
  rewrite fmap_cons, not_elem_of_cons. cbn [fst]. case_decide; [split; [done | tauto] |]. rewrite IH. tauto.
Qed.

Lemma assoc_app R R' s : assoc (R ++ R') s = match assoc R s with Some r => Some r | None => assoc R' s end.
Proof. induction R as [| [s0 r0] R IH]; cbn [assoc app]; [done |]. by case_decide. Qed.

Lemma assoc_drop R s s' : assoc (drop_row s R) s' = if decide (s' = s) then None else assoc R s'.
Proof.
  induction R as [| [s0 r0] R IH]; cbn [assoc]; [by case_decide |].
  unfold drop_row. rewrite filter_cons. cbn [fst]. fold (drop_row s R).
  destruct (decide (s0 <> s)) as [Hne | He]; cbn [assoc]; rewrite IH; repeat case_decide; subst; done.
Qed.

Lemma assoc_replace R s r s' :
  is_Some (assoc R s) -> assoc (replace_row s r R) s' = if decide (s' = s) then Some r else assoc R s'.
Proof.
  intros Hs. destruct (decide (s' = s)) as [-> | Hne].
  - revert Hs. induction R as [| [s0 r0] R IH]; cbn [assoc]; [by intros [? ?] |].
    unfold replace_row. rewrite fmap_cons. cbn [fst]. fold (replace_row s r R).
    destruct (decide (s0 = s)) as [-> | H0]; cbn [assoc].
    + intros _. by rewrite decide_True.
    + rewrite !decide_False by auto. exact IH.
  - clear Hs. induction R as [| [s0 r0] R IH]; [done |].
    unfold replace_row. rewrite fmap_cons. cbn [fst]. fold (replace_row s r R).
    destruct (decide (s0 = s)) as [-> | H0]; cbn [assoc]; [by rewrite !decide_False |].
    by rewrite IH.
Qed.

Lemma filter_all (P : Z * T -> Prop) `{!forall p, Decision (P p)} R : (forall p, P p) -> filter P R = R.
Proof.
  intros HP. induction R as [| p R IH]; [done |]. rewrite filter_cons, decide_True by done. by rewrite IH.
Qed.

Lemma head_fst R : fst <$> head R = head (fst <$> R).
Proof. by destruct R. Qed.

Lemma elem_of_replace R s r s1 r1 :
  (s1, r1) ∈ replace_row s r R -> (s1, r1) ∈ R \/ (r1 = r /\ s1 = s).
Proof.
  unfold replace_row. intros Hin. apply list_elem_of_fmap in Hin as ([s0 r0] & E & Hin). cbn [fst] in E.
  case_decide; injection E as -> ->; [by right | by left].
Qed.

Section Matching.
Context {K} `{EqDecision K} (key : T -> K).

Lemma matching_app R R' k : matching key (R ++ R') k = matching key R k ++ matching key R' k.
Proof. apply filter_app. Qed.

Lemma matching_single s r k : matching key [(s, r)] k = if decide (key r = k) then [(s, r)] else [].
Proof. done. Qed.

Lemma elem_of_matching R k s r : (s, r) ∈ matching key R k <-> (s, r) ∈ R /\ key r = k.
Proof. unfold matching. rewrite list_elem_of_filter. cbn. tauto. Qed.

Lemma matching_drop R k s : fst <$> matching key (drop_row s R) k = without s (fst <$> matching key R k).
Proof.
  unfold matching, drop_row, without.
  induction R as [| [s0 r0] R IH]; [done |].
  rewrite (filter_cons (fun p => fst p <> s)), (filter_cons (fun p => key (snd p) = k)). cbn [fst snd].
  destruct (decide (s0 <> s)) as [Hne | He]; [rewrite (filter_cons (fun p => key (snd p) = k)); cbn [fst snd] |];
    destruct (decide (key r0 = k)); rewrite ?fmap_cons, ?filter_cons; cbn [fst].
  - rewrite decide_True by done. by rewrite IH.
  - done.
  - by rewrite decide_False by done.
  - done.
Qed.

Lemma matching_drop_other R k s r :
  NoDup (fst <$> R) -> (s, r) ∈ R -> key r <> k -> matching key (drop_row s R) k = matching key R k.
Proof.
  intros HN Hin Hk. assert (forall s1 r1, (s1, r1) ∈ R -> s1 = s -> key r1 <> k) as HX.
  { intros s1 r1 H1 ->. apply (assoc_in _ _ _ HN) in Hin. apply (assoc_in _ _ _ HN) in H1. congruence. }
  clear Hin HN. unfold matching, drop_row. induction R as [| [s1 r1] R IH]; [done |].
  rewrite (filter_cons (fun p => fst p <> s)), (filter_cons _ (s1, r1) R). cbn [fst snd].
  destruct (decide (s1 <> s)) as [Hne | He].
  - rewrite (filter_cons _ (s1, r1)). cbn [snd]. rewrite IH by set_solver. done.
  - rewrite IH by set_solver. rewrite decide_False; [done |]. apply (HX s1); [left |].
    destruct (decide (s1 = s)); [done | by destruct He].
Qed.

Lemma matching_replace R k s r r0 :
  NoDup (fst <$> R) -> (s, r0) ∈ R -> key r = key r0 ->
  matching key (replace_row s r R) k = replace_row s r (matching key R k).
Proof.
  intros HN Hin Hk. assert (forall s1 r1, (s1, r1) ∈ R -> s1 = s -> r1 = r0) as HX.
  { intros s1 r1 H1 ->. apply (assoc_in _ _ _ HN) in Hin. apply (assoc_in _ _ _ HN) in H1. congruence. }
  clear Hin HN. unfold matching, replace_row. induction R as [| [s1 r1] R IH]; [done |].
  rewrite fmap_cons, !filter_cons. cbn [fst snd]. rewrite IH by set_solver.
  destruct (decide (s1 = s)) as [-> | Hne]; cbn [snd].
  - rewrite (HX s r1) by (done || left). rewrite Hk. case_decide; [| done].
    rewrite fmap_cons. cbn [fst]. by rewrite decide_True.
  - case_decide; [| done]. rewrite fmap_cons. cbn [fst]. by rewrite decide_False.
Qed.

Lemma replace_fst R s r : fst <$> replace_row s r R = fst <$> R.
Proof.
  unfold replace_row. induction R as [| [s0 r0] R IH]; [done |]. rewrite !fmap_cons. cbn [fst].
  rewrite IH. by case_decide; subst.
Qed.
End Matching.
End Rows.

(** *** The keys of the state a table uses *)

Section Table.
Context `{HL : HostRLPLaws, HS : HostStateLaws} {T : Type} (ct : codec T).
Context (tt' : T -> item) (vt st : T -> Prop) `{HT : !CodecLaws ct tt' vt st}.
Context (TableName : Z) (HTN : uint_valid 64 TableName).

(** An index whose key type is serialised faithfully. *)
Record lawful := mkLawful {
  lf_index : index T;
  lf_tree : ix_key lf_index -> item;
  lf_valid : ix_key lf_index -> Prop;
  lf_sized : ix_key lf_index -> Prop;
  lf_laws : CodecLaws (ix_codec lf_index) lf_tree lf_valid lf_sized
}.
#[local] Existing Instance lf_laws.

Abbreviation lname x := (index_name (lf_index x)).
Abbreviation lkey x := (extract_secondary_key (lf_index x)).

(** Row keys. *)
Definition row_tree (s : Z) : item := Lst [int_item TableName; int_item s].
Definition row_key_valid (s : Z) : Prop := uint_valid 64 TableName /\ uint_valid 64 s /\ True.
Definition row_key_sized (s : Z) : Prop := True /\ True /\ True.

#[local] Instance row_key_laws : CodecLaws (c_row_key TableName) row_tree row_key_valid row_key_sized.
Proof using HL.
  refine (c_view_laws (c_struct (fields_cons (c_uint 64) (fields_cons (c_uint 64) fields_nil))) _ _ _
           (fun s => (TableName, (s, tt))) _ _).
  done.
Qed.

Abbreviation rkey_ok := (key_ok row_tree row_key_valid).
Abbreviation rvalue_ok := (value_ok tt' vt).
Abbreviation rtable := (table row_tree row_key_valid tt' vt).

Lemma row_key_ok s : uint_valid 64 s -> rkey_ok s.
Proof using HTN.
  intros Hs. split; [done |]. unfold row_tree. rewrite cost_list. unfold total_cost. cbn [foldr].
  pose proof (int_item_cost s Hs). pose proof (int_item_cost TableName HTN). unfold RLP_LIMIT, SIZE_MAX. lia.
Qed.

(** Keys of a unique index. *)
Section UniqueKeys.
Context (x : lawful).

Definition unique_tree (k : ix_key (lf_index x)) : item :=
  Lst [int_item TableName; int_item (lname x); lf_tree x k].
Definition unique_valid (k : ix_key (lf_index x)) : Prop :=
  uint_valid 64 TableName /\ uint_valid 64 (lname x) /\ lf_valid x k /\ True.
Definition unique_sized (k : ix_key (lf_index x)) : Prop := True /\ True /\ lf_sized x k /\ True.

#[export] Instance unique_key_laws :
  CodecLaws (c_unique_key TableName (ix_codec (lf_index x)) (lname x)) unique_tree unique_valid unique_sized.
Proof using HL.
  refine (c_view_laws (c_struct (fields_cons (c_uint 64) (fields_cons (c_uint 64)
            (fields_cons (ix_codec (lf_index x)) fields_nil)))) _ _ _
           (fun k => (TableName, (lname x, (k, tt)))) _ _).
  done.
Qed.
End UniqueKeys.

Abbreviation ukey_ok x := (key_ok (unique_tree x) (unique_valid x)).
Abbreviation utable x := (table (unique_tree x) (unique_valid x) int_item (uint_valid 64)).
Abbreviation nkey_ok x := (key_ok (index_tree (lf_tree x) TableName (lname x)) (index_valid (lf_valid x) TableName (lname x))).
Abbreviation nvalue x := (ivalue (lf_tree x) (lf_valid x) TableName (lname x)).
Abbreviation nholds x := (index_holds (lf_tree x) (lf_valid x) TableName (lname x)).

(** What an index may be asked for. *)
Definition key_fits (x : lawful) (k : ix_key (lf_index x)) : Prop :=
  if unique (lf_index x) then ukey_ok x k else nvalue x k.

(** The keys of the state that belong to an index, to the rows. *)
Definition family (x : lawful) (kb : bytes) : Prop :=
  if unique (lf_index x) then exists k, ukey_ok x k /\ kb = enc (unique_tree x k)
  else exists k, nkey_ok x k /\ kb = enc (index_tree (lf_tree x) TableName (lname x) k).
Definition row_family (kb : bytes) : Prop := exists s, rkey_ok s /\ kb = enc (row_tree s).

Definition changes_only (P : bytes -> Prop) (w w' : world) : Prop :=
  forall kb, ~ P kb -> contents w' kb = contents w kb.

Lemma changes_only_trans P Q w w1 w2 :
  changes_only P w w1 -> changes_only Q w1 w2 -> changes_only (fun kb => P kb \/ Q kb) w w2.
Proof using Type. intros H1 H2 kb Hkb. rewrite H2, H1 by tauto. done. Qed.

Lemma changes_only_weaken (P Q : bytes -> Prop) w w' :
  (forall kb, P kb -> Q kb) -> changes_only P w w' -> changes_only Q w w'.
Proof using Type. intros HPQ H1 kb Hkb. apply H1. auto. Qed.

(** The first three members of a key tell the families apart. *)
Lemma int_item_inj a b : uint_valid 64 a -> uint_valid 64 b -> int_item a = int_item b -> a = b.
Proof using Type.
  unfold uint_valid. intros Ha Hb [= E]. rewrite <- (be_value_be_min a), <- (be_value_be_min b) by lia. by rewrite E.
Qed.

Lemma key_item_ok {K} (c : codec K) tk vk sk `{HK : !CodecLaws c tk vk sk} k : key_ok tk vk k -> item_ok (tk k).
Proof using Type. intros [Hv Hc]. apply cost_ok; [by apply (tree_leaves k) | done]. Qed.

Lemma family_item x kb :
  family x kb -> exists rest, kb = enc (Lst (int_item TableName :: int_item (lname x) :: rest)) /\
    item_ok (Lst (int_item TableName :: int_item (lname x) :: rest)) /\ uint_valid 64 (lname x) /\
    len rest = (if unique (lf_index x) then 1 else 2).
Proof using HL.
  unfold family. destruct (unique (lf_index x)); intros (k & Hk & ->); eexists; (split; [reflexivity |]).
  - split; [by apply (key_item_ok _ (unique_tree x) (unique_valid x) (unique_sized x)) | split; [by destruct Hk as [(_ & ? & _) _] | done]].
  - split; [by apply (key_item_ok _ (index_tree (lf_tree x) TableName (lname x))
      (index_valid (lf_valid x) TableName (lname x)) (index_sized (lf_sized x))) | split; [by destruct Hk as [(_ & ? & _) _] | done]].
Qed.

Lemma families_disjoint x y kb : family x kb -> family y kb -> lname x = lname y.
Proof using HL.
  intros Hx Hy. destruct (family_item x kb Hx) as (l1 & -> & H1 & Hn1 & _).
  destruct (family_item y _ Hy) as (l2 & E & H2 & Hn2 & _).
  apply enc_inj in E; [| done | done].
  assert (int_item (lname x) = int_item (lname y)) by congruence. by apply int_item_inj.
Qed.

Lemma row_not_index x kb : family x kb -> row_family kb -> False.
Proof using HL.
  intros Hx (s & Hs & ->). destruct (family_item x _ Hx) as (l1 & E & H1 & _ & HLn).
  apply enc_inj in E; [| by apply (key_item_ok _ row_tree row_key_valid row_key_sized) | done].
  injection E as _ <-. by destruct (unique (lf_index x)).
Qed.

(** The key of the counter is no other key. *)
Definition seq_key : bytes := enc (int_item TableName).

Lemma seq_not_row : ~ row_family seq_key.
Proof using HL HTN.
  intros (s & Hs & E). apply enc_inj in E; [done | | by apply (key_item_ok _ row_tree row_key_valid row_key_sized)].
  apply int_item_ok. unfold uint_valid in HTN. lia.
Qed.

Lemma seq_not_index x : ~ family x seq_key.
Proof using HL HTN.
  intros Hx. destruct (family_item x _ Hx) as (l1 & E & H1 & _).
  apply enc_inj in E; [done | | done]. apply int_item_ok. unfold uint_valid in HTN. lia.
Qed.

(** *** One index *)

(** The index [x] of a table with the rows [R]. *)
Definition index_inv (x : lawful) (w : world) (R : list (Z * T)) : Prop :=
  if unique (lf_index x) then
    utable x w (fun k => fst <$> head (matching (lkey x) R k)) /\
    (forall k, (length (matching (lkey x) R k) <= 1)%nat)
  else nholds x w (fun k => fst <$> matching (lkey x) R k).

Lemma table_ext {K V} (tk : K -> item) vk (tv : V -> item) vv w w' (f f' : K -> option V) :
  table tk vk tv vv w f -> (forall k, f k = f' k) ->
  (forall k, key_ok tk vk k -> contents w' (enc (tk k)) = contents w (enc (tk k))) ->
  table tk vk tv vv w' f'.
Proof using Type. intros HT1 HE HC k Hk. unfold has_value. rewrite <- HE, HC by done. by apply HT1. Qed.

Lemma index_holds_ext {K} (tk : K -> item) vk nm w w' M M' :
  index_holds tk vk TableName nm w M -> (forall k, M k = M' k) ->
  (forall k, key_ok (index_tree tk TableName nm) (index_valid vk TableName nm) k ->
     contents w' (enc (index_tree tk TableName nm k)) = contents w (enc (index_tree tk TableName nm k))) ->
  index_holds tk vk TableName nm w' M'.
Proof using Type.
  intros (F & HT1 & HM) HE HC. exists F. split; [by eapply table_ext |]. intros v. rewrite <- HE. apply HM.
Qed.

Lemma index_inv_frame x w w' P R :
  index_inv x w R -> changes_only P w w' -> (forall kb, family x kb -> ~ P kb) -> index_inv x w' R.
Proof using Type.
  unfold index_inv, family. destruct (unique (lf_index x)).
  - intros [H1 H2] HC HP. split; [| done]. eapply table_ext; [exact H1 | done |].
    intros k Hk. apply HC, HP. by exists k.
  - intros H1 HC HP. eapply index_holds_ext; [exact H1 | done |]. intros k Hk. apply HC, HP. by exists k.
Qed.

Lemma other_keys_changes x w w' :
  unique (lf_index x) = false ->
  other_keys (lf_tree x) (lf_valid x) TableName (lname x) w w' -> changes_only (family x) w w'.
Proof using Type.
  intros Hu HO kb Hkb. apply HO. intros k Hk ->. apply Hkb. unfold family. rewrite Hu. by exists k.
Qed.

Lemma seq_value_ok s : uint_valid 64 s -> value_ok int_item (uint_valid 64) s.
Proof using Type.
  intros Hs. split; [done |]. pose proof (int_item_cost s Hs). unfold RLP_LIMIT, SIZE_MAX. lia.
Qed.

Section OneIndex.
Context (x : lawful) (junk : Z).

(** A row added. *)
Lemma add_to_index_spec w R seq r :
  index_inv x w R -> key_fits x (lkey x r) -> 0 <= seq < SEQ_LIMIT ->
  (forall s, s ∈ (fst <$> R) -> s < seq) ->
  (unique (lf_index x) = true -> matching (lkey x) R (lkey x r) = []) ->
  exists w', add_to_index TableName junk (lf_index x) w seq r = Ok w' /\
    index_inv x w' (R ++ [(seq, r)]) /\ changes_only (family x) w w'.
Proof using HL HS.
  unfold index_inv, key_fits, add_to_index. pose proof (other_keys_changes x) as HOC. unfold family in *.
  destruct (unique (lf_index x)); intros HI Hk Hs HR HU.
  - destruct HI as [HI HI1]. specialize (HU eq_refl).
    destruct (table_set (c_unique_key TableName (ix_codec (lf_index x)) (lname x)) (c_uint 64) (unique_tree x)
                (unique_valid x) (unique_sized x) int_item (uint_valid 64) anything w _ (lkey x r) seq HI Hk)
      as (w' & E & HI' & HF); [by apply seq_value_ok, limit_u64 |].
    exists w'. split; [exact E |]. split; [split |].
    + eapply table_ext; [exact HI' | | done]. intros k. unfold update. rewrite matching_app, matching_single.
      destruct (decide (k = lkey x r)) as [-> | Hne]; [by rewrite HU, decide_True |].
      rewrite decide_False by auto. by rewrite app_nil_r.
    + intros k. rewrite matching_app, matching_single. case_decide as Ek.
      * subst k. by rewrite HU.
      * by rewrite app_nil_r.
    + intros kb Hkb. apply HF. intros ->. apply Hkb. by exists (lkey x r).
  - destruct (index_open _ _ _ _ w _ (lkey x r) HI) as (F & HS0 & HC).
    destruct (append_spec (ix_codec (lf_index x)) (lf_tree x) (lf_valid x) (lf_sized x) TableName (lname x)
                junk junk F w (lkey x r) _ seq HS0 Hk Hs) as (w' & E & HS1 & HF).
    { intros s Hin. apply HR. apply list_elem_of_fmap in Hin as ([s' r'] & -> & Hin).
      apply elem_of_matching in Hin as [Hin _]. apply list_elem_of_fmap. by exists (s', r'). }
    exists w'. split; [exact E |]. split; [| by apply HOC].
    eapply index_holds_ext; [exact (HC w' _ HS1) | | done]. intros k. unfold set_list.
    rewrite matching_app, matching_single, fmap_app.
    destruct (decide (k = lkey x r)) as [-> | Hne]; [by rewrite decide_True |].
    rewrite decide_False by auto. by rewrite app_nil_r.
Qed.

(** A row removed. *)
Lemma remove_from_index_spec w R s r :
  index_inv x w R -> key_fits x (lkey x r) -> NoDup (fst <$> R) -> (s, r) ∈ R ->
  exists w', remove_from_index TableName junk (lf_index x) w s r = Ok w' /\
    index_inv x w' (drop_row s R) /\ changes_only (family x) w w'.
Proof using HL HS.
  unfold index_inv, key_fits, remove_from_index. pose proof (other_keys_changes x) as HOC. unfold family in *.
  destruct (unique (lf_index x)); intros HI Hk HN Hin.
  - destruct HI as [HI HI1].
    destruct (table_del (c_unique_key TableName (ix_codec (lf_index x)) (lname x)) (c_uint 64) (unique_tree x)
                (unique_valid x) (unique_sized x) int_item (uint_valid 64) anything w _ (lkey x r) HI Hk)
      as (w' & E & HI' & HF).
    assert (forall k, fst <$> matching (lkey x) (drop_row s R) k = without s (fst <$> matching (lkey x) R k)) as HW
      by (intros k; exact (matching_drop (lkey x) R k s)).
    exists w'. split; [exact E |]. split; [split |].
    + eapply table_ext; [exact HI' | | done]. intros k. unfold update. case_decide as Ek.
      * subst k. assert ((s, r) ∈ matching (lkey x) R (lkey x r)) as Hm by by apply elem_of_matching.
        specialize (HI1 (lkey x r)). specialize (HW (lkey x r)).
        destruct (matching (lkey x) R (lkey x r)) as [| p [| p' l]]; [by apply not_elem_of_nil in Hm | | simpl in HI1; lia].
        apply list_elem_of_singleton in Hm as <-. rewrite fmap_cons in HW. cbn [fst] in HW.
        rewrite without_cons_eq in HW. by destruct (matching (lkey x) (drop_row s R) (lkey x r)).
      * by rewrite (matching_drop_other _ R k s r).
    + intros k. specialize (HI1 k). rewrite <- (length_fmap fst), HW.
      assert (length (without s (fst <$> matching (lkey x) R k)) <= length (fst <$> matching (lkey x) R k))%nat
        by apply length_filter.
      rewrite length_fmap in *. lia.
    + intros kb Hkb. apply HF. intros ->. apply Hkb. by exists (lkey x r).
  - destruct (index_open _ _ _ _ w _ (lkey x r) HI) as (F & HS0 & HC).
    destruct (delete_spec (ix_codec (lf_index x)) (lf_tree x) (lf_valid x) (lf_sized x) TableName (lname x)
                junk junk F w (lkey x r) _ s HS0 Hk) as (w' & E & HS1 & HF).
    { right. exists s. split; [| lia]. apply list_elem_of_fmap. exists (s, r). split; [done |]. by apply elem_of_matching. }
    exists w'. split; [exact E |]. split; [| by apply HOC].
    eapply index_holds_ext; [exact (HC w' _ HS1) | | done]. intros k. unfold set_list.
    case_decide as Ek; [subst k; by rewrite matching_drop |]. by rewrite (matching_drop_other _ R k s r).
Qed.

(** A row changed, its key kept. *)
Lemma replace_in_index w R s r r0 :
  index_inv x w R -> NoDup (fst <$> R) -> (s, r0) ∈ R -> lkey x r = lkey x r0 ->
  index_inv x w (replace_row s r R).
Proof using Type.
  intros HI HN Hin Hk. revert HI. unfold index_inv.
  assert (forall k, fst <$> matching (lkey x) (replace_row s r R) k = fst <$> matching (lkey x) R k) as HM.
  { intros k. by rewrite (matching_replace _ R k s r r0), replace_fst. }
  destruct (unique (lf_index x)).
  - intros [HI H1]. split.
    + eapply table_ext; [exact HI | | done]. intros k. by rewrite !head_fst, HM.
    + intros k. rewrite <- (length_fmap fst), HM, length_fmap. apply H1.
  - intros HI. eapply index_holds_ext; [exact HI | | done]. intros k. by rewrite HM.
Qed.
End OneIndex.

(** *** All indices of the table *)

Section Object.
Context (L : list lawful) (HNames : NoDup ((fun x => lname x) <$> L)) (dflt : T) (junk : Z).

Definition any_family (X : list lawful) (kb : bytes) : Prop := exists x, x ∈ X /\ family x kb.

(** The same operation on each index. *)
Fixpoint each (op : index T -> world -> res world) (ixs : list (index T)) (w : world) : res world :=
  match ixs with [] => Ok w | d :: ixs' => w' ← op d w; each op ixs' w' end.

Lemma each_spec op R R' X :
  NoDup ((fun x => lname x) <$> X) ->
  (forall x w, x ∈ X -> index_inv x w R ->
     exists w', op (lf_index x) w = Ok w' /\ index_inv x w' R' /\ changes_only (family x) w w') ->
  forall w, (forall x, x ∈ X -> index_inv x w R) ->
  exists w', each op (lf_index <$> X) w = Ok w' /\ (forall x, x ∈ X -> index_inv x w' R') /\
    changes_only (any_family X) w w'.
Proof using HL.
  induction X as [| x X IH]; intros HN Hop w HI.
  - exists w. split; [done |]. split; [intros x Hx; by apply not_elem_of_nil in Hx | done].
  - rewrite fmap_cons in HN. apply NoDup_cons in HN as [Hx HN].
    destruct (Hop x w) as (w1 & E1 & HI1 & HC1); [by left | apply HI; by left |].
    assert (forall y kb, y ∈ X -> family y kb -> ~ family x kb) as HD.
    { intros y kb Hy Hfy Hfx. apply Hx. rewrite (families_disjoint x y kb Hfx Hfy).
      apply list_elem_of_fmap. by exists y. }
    destruct (IH HN) with (w := w1) as (w2 & E2 & HI2 & HC2).
    { intros y w' Hy. apply Hop. by right. }
    { intros y Hy. eapply index_inv_frame; [apply HI; by right | exact HC1 |]. intros kb. by apply HD. }
    exists w2. rewrite fmap_cons. cbn [each]. rewrite E1. cbn [mbind res_bind].
    split; [done |]. split.
    + intros y Hy. apply elem_of_cons in Hy as [-> | Hy]; [| by apply HI2].
      eapply index_inv_frame; [exact HI1 | exact HC2 |]. intros kb Hf (y & Hy & Hfy). by apply (HD y kb).
    + intros kb Hkb. rewrite HC2, HC1; [done | |].
      * intros Hf. apply Hkb. exists x. split; [by left | done].
      * intros (y & Hy & Hf). apply Hkb. exists y. split; [by right | done].
Qed.

(** Another row has one of the unique keys of [r]. *)
Definition conflict (X : list lawful) (R : list (Z * T)) (r : T) : bool :=
  existsb (fun x => unique (lf_index x) && negb (bool_decide (matching (lkey x) R (lkey x r) = []))) X.

Lemma any_conflict_spec X w R r :
  (forall x, x ∈ X -> index_inv x w R /\ key_fits x (lkey x r)) ->
  any_conflict TableName (lf_index <$> X) w r = Ok (conflict X R r).
Proof using HL HS.
  induction X as [| x X IH]; intros HX; [done |]. rewrite fmap_cons. cbn [any_conflict conflict existsb].
  destruct (HX x ltac:(by left)) as [HI Hk]. unfold index_inv, key_fits in *.
  fold (conflict X R r). destruct (unique (lf_index x)); cbn [andb mbind res_bind orb]; [| apply IH; intros y Hy; apply HX; by right].
  destruct HI as [HI _]. unfold check_unique.
  rewrite (table_has (c_unique_key TableName (ix_codec (lf_index x)) (lname x)) (c_uint 64) (unique_tree x)
             (unique_valid x) (unique_sized x) int_item (uint_valid 64) anything w _ _ HI Hk).
  cbn [mbind res_bind]. destruct (matching (lkey x) R (lkey x r)) as [| p l]; cbn.
  - apply IH. intros y Hy. apply HX. by right.
  - done.
Qed.

Lemma no_unique_no_conflict X R r : has_unique_index (lf_index <$> X) = false -> conflict X R r = false.
Proof using Type.
  unfold has_unique_index. induction X as [| x X IH]; [done |]. rewrite fmap_cons. cbn [existsb conflict].
  destruct (unique (lf_index x)); [done |]. exact IH.
Qed.

Lemma conflict_false X R r x :
  conflict X R r = false -> x ∈ X -> unique (lf_index x) = true -> matching (lkey x) R (lkey x r) = [].
Proof using Type.
  intros HC Hx Hu. destruct (decide (matching (lkey x) R (lkey x r) = [])) as [| Hn]; [done |].
  exfalso. enough (conflict X R r = true) by congruence. unfold conflict. apply existsb_exists. exists x.
  split; [by apply list_elem_of_In |]. by rewrite Hu, bool_decide_eq_false_2.
Qed.

(** *** The object *)

Definition row_fits (r : T) : Prop := rvalue_ok r /\ (forall x, x ∈ L -> key_fits x (lkey x r)).

(** The object [m] over the state [w] has the rows [R]; [next] is the next number. *)
Record multi_inv (m : MultiIndex T) (w : world) (R : list (Z * T)) (next : Z) : Prop := {
  mi_seq : seq_ m = mkStorage TableName 0 next;
  mi_next : 0 <= next <= SEQ_LIMIT;
  mi_sorted : StronglySorted Z.lt (fst <$> R);
  mi_below : forall s, s ∈ (fst <$> R) -> 0 <= s < next;
  mi_rows : rtable w (assoc R);
  mi_fits : forall r, r ∈ (snd <$> R) -> row_fits r;
  mi_index : forall x, x ∈ L -> index_inv x w R;
  mi_cache : forall s p, seq2item_ m !! s = Some p -> exists r, items m !! p = Some (r, s) /\ assoc R s = Some r
}.

(** An iterator at [s] that a dereference reads correctly. *)
Definition good (m : MultiIndex T) (R : list (Z * T)) (p : iterator) (s : Z) : Prop :=
  exists obj, items m !! p = Some (obj, s) /\ (is_Some (seq2item_ m !! s) -> assoc R s = Some obj).

Section ObjectFacts.
Context (m : MultiIndex T) (w : world) (R : list (Z * T)) (next : Z) (HI : multi_inv m w R next).

Lemma mi_nodup : NoDup (fst <$> R).
Proof using HI. apply sorted_nodup, (mi_sorted _ _ _ _ HI). Qed.

Lemma mi_u64 s : 0 <= s < next -> uint_valid 64 s.
Proof using HI. intros Hs. pose proof (mi_next _ _ _ _ HI). unfold SEQ_LIMIT, uint_valid in *. lia. Qed.

Lemma assoc_below s : is_Some (assoc R s) -> 0 <= s < next.
Proof using HI.
  intros [r Hr]. apply (mi_below _ _ _ _ HI). apply (assoc_in R s r mi_nodup) in Hr.
  apply list_elem_of_fmap. by exists (s, r).
Qed.

Lemma cached_some s : is_Some (seq2item_ m !! s) -> is_Some (assoc R s).
Proof using HI. intros [p Hp]. destruct (mi_cache _ _ _ _ HI s p Hp) as (r & _ & E). by exists r. Qed.

(** More items change nothing. *)
Lemma make_item_inv obj s : multi_inv (snd (make_item m obj s)) w R next.
Proof using HI.
  destruct HI. split; try done. cbn [make_item snd seq2item_ items]. intros s' p Hp.
  destruct (mi_cache0 s' p Hp) as (r & E & EA). exists r. split; [| done]. by apply lookup_app_l_Some.
Qed.

Lemma make_item_new obj s : items (snd (make_item m obj s)) !! fst (make_item m obj s) = Some (obj, s).
Proof using Type. cbn. by rewrite list_lookup_middle. Qed.

Lemma item_at_good s :
  multi_inv (snd (item_at dflt m s)) w R next /\ good (snd (item_at dflt m s)) R (fst (item_at dflt m s)) s.
Proof using HI.
  unfold item_at. destruct (seq2item_ m !! s) as [p |] eqn:E; cbn [fst snd].
  - split; [done |]. destruct (mi_cache _ _ _ _ HI s p E) as (r & Ei & EA). exists r. by split.
  - split; [apply make_item_inv |]. exists dflt. split; [apply make_item_new |].
    cbn [make_item snd seq2item_]. rewrite E. by intros [? ?].
Qed.

Lemma cend_good : multi_inv (snd (cend dflt m)) w R next /\ good (snd (cend dflt m)) R (fst (cend dflt m)) next.
Proof using HI.
  unfold cend, storage_get. rewrite (mi_seq _ _ _ _ HI). cbn [t_]. split; [apply make_item_inv |].
  exists dflt. split; [apply make_item_new |]. cbn [make_item snd seq2item_]. intros Hc.
  pose proof (assoc_below next (cached_some next Hc)). lia.
Qed.

(** Reading a row of the table. *)
Lemma get_row s r v0 : assoc R s = Some r -> get_state_db TableName ct w s v0 = Ok r.
Proof using HL HS HT HTN HI.
  intros Hs. unfold get_state_db.
  destruct (table_get (c_row_key TableName) ct row_tree row_key_valid row_key_sized tt' vt st w (assoc R) s v0
              (mi_rows _ _ _ _ HI)) as (n & -> & _).
  { apply row_key_ok, mi_u64, assoc_below. by eexists. }
  by rewrite Hs.
Qed.

Lemma has_row s : 0 <= s < next -> has_state_db TableName w s = Ok (bool_decide (is_Some (assoc R s))).
Proof using HL HS HT HTN HI.
  intros Hs. unfold has_state_db.
  apply (table_has (c_row_key TableName) ct row_tree row_key_valid row_key_sized tt' vt st w (assoc R) s
           (mi_rows _ _ _ _ HI)). by apply row_key_ok, mi_u64.
Qed.

Lemma table_deref_spec p s r :
  good m R p s -> assoc R s = Some r ->
  exists m', table_deref ct TableName m w p = Ok (r, m') /\ multi_inv m' w R next /\
    items m' !! p = Some (r, s) /\ is_Some (seq2item_ m' !! s) /\ length (items m') = length (items m).
Proof using HL HS HT HTN HI.
  intros (obj & Ei & Ec) Hs. unfold table_deref, get_item. rewrite Ei. cbn [mbind res_bind].
  destruct (seq2item_ m !! s) as [p' |] eqn:E.
  - rewrite Hs in Ec. specialize (Ec ltac:(by eexists)). injection Ec as ->. exists m. by rewrite E.
  - rewrite (get_row s r obj Hs). cbn [mbind res_bind]. eexists. split; [done |].
    cbn [cache_item set_item items seq2item_]. pose proof (lookup_lt_Some _ _ _ Ei) as Hlt.
    split; [| split; [by rewrite list_lookup_insert_eq | split; [rewrite lookup_insert_eq; by eexists | by rewrite length_insert]]].
    destruct HI. split; try done. cbn [cache_item set_item items seq2item_]. intros s' p'.
    destruct (decide (s' = s)) as [-> | Hne].
    + rewrite lookup_insert_eq. intros [= <-]. exists r. split; [by rewrite list_lookup_insert_eq | done].
    + rewrite lookup_insert_ne by done. intros Hp. destruct (mi_cache0 s' p' Hp) as (r' & E' & EA).
      exists r'. split; [| done]. rewrite list_lookup_insert_ne; [done |]. intros ->. congruence.
Qed.

Lemma get_item_ptr_spec s r :
  assoc R s = Some r ->
  exists p m', get_item_ptr ct TableName dflt m w s = Ok (p, m') /\ multi_inv m' w R next /\
    items m' !! p = Some (r, s) /\ seq2item_ m' !! s = Some p.
Proof using HL HS HT HTN HI.
  intros Hs. unfold get_item_ptr. destruct (seq2item_ m !! s) as [p |] eqn:E.
  - destruct (mi_cache _ _ _ _ HI s p E) as (r' & Ei & EA). exists p, m. rewrite E. simplify_eq. by split_and!.
  - rewrite (get_row s r dflt Hs). cbn [mbind res_bind make_item]. eexists _, _. split; [done |].
    cbn [cache_item items seq2item_].
    split; [| split; [by rewrite list_lookup_middle | by rewrite lookup_insert_eq]].
    destruct (make_item_inv r s). split; try done. cbn [cache_item items seq2item_ make_item snd] in *. intros s' p'.
    destruct (decide (s' = s)) as [-> | Hne].
    + rewrite lookup_insert_eq. intros [= <-]. exists r. split; [by rewrite list_lookup_middle | done].
    + rewrite lookup_insert_ne by done. apply mi_cache0.
Qed.
End ObjectFacts.

(** *** Iterating over the rows *)

(** The first sequence number of [R2], or [next]. *)
Definition first_seq (R2 : list (Z * T)) (next : Z) : Z := match R2 with (s, _) :: _ => s | [] => next end.

Lemma first_seq_range m w R1 R2 next : multi_inv m w (R1 ++ R2) next -> 0 <= first_seq R2 next <= next.
Proof using All.
  intros HI. pose proof (mi_next _ _ _ _ HI). destruct R2 as [| [s r] R2]; cbn [first_seq]; [lia |].
  assert (0 <= s < next); [| lia]. apply (mi_below _ _ _ _ HI). rewrite fmap_app, fmap_cons. set_solver.
Qed.

Lemma scan_spec m w R1 R2 next fuel : forall a,
  multi_inv m w (R1 ++ R2) next -> 0 <= a <= first_seq R2 next ->
  (forall s, s ∈ (fst <$> R1) -> s < a) -> (Z.to_nat (next - a) < fuel)%nat ->
  scan_loop TableName fuel w a next = Ok (first_seq R2 next).
Proof using All.
  induction fuel as [| fuel IH]; intros a HI Ha HR1 HF; [lia |]. cbn [scan_loop].
  pose proof (first_seq_range m w R1 R2 next HI) as Hr. pose proof (mi_next _ _ _ _ HI) as Hn.
  destruct (Z.ltb_spec a next) as [Hlt |]; [| by replace (first_seq R2 next) with a by lia].
  rewrite (has_row m w _ next HI a) by lia. cbn [mbind res_bind]. rewrite assoc_app.
  assert (assoc R1 a = None) as ->.
  { apply assoc_none. intros Hin. specialize (HR1 a Hin). lia. }
  destruct (decide (a = first_seq R2 next)) as [-> | Hne].
  - destruct R2 as [| [s r] R2]; cbn [first_seq] in *; [lia |]. cbn [assoc]. rewrite decide_True by done.
    by rewrite bool_decide_eq_true_2 by (by eexists).
  - assert (assoc R2 a = None) as ->.
    { apply assoc_none. intros Hin. destruct R2 as [| [s r] R2]; [by apply not_elem_of_nil in Hin |].
      cbn [first_seq] in *. rewrite fmap_cons in Hin. cbn [fst] in Hin.
      apply elem_of_cons in Hin as [-> | Hin]; [done |].
      pose proof (mi_sorted _ _ _ _ HI) as HS'. rewrite fmap_app, fmap_cons in HS'.
      apply StronglySorted_app_1_r, StronglySorted_inv in HS' as [_ HS'].
      pose proof (proj1 (Forall_forall _ _) HS' a Hin). cbn [fst] in *. lia. }
    rewrite bool_decide_eq_false_2 by (by intros [? ?]). unfold SEQ_LIMIT in Hn. rewrite wrap_small by lia.
    apply IH; [done | lia | | lia]. intros s Hs. specialize (HR1 s Hs). lia.
Qed.

Lemma cbegin_spec m w R next :
  multi_inv m w R next ->
  exists p m', cbegin TableName dflt m w = Ok (p, m') /\ multi_inv m' w R next /\ good m' R p (first_seq R next).
Proof using All.
  intros HI. unfold cbegin, scan, storage_get. rewrite (mi_seq _ _ _ _ HI). cbn [t_].
  pose proof (first_seq_range m w [] R next HI).
  rewrite (scan_spec m w [] R next _ 0 HI); [| lia | by intros s ?%not_elem_of_nil | lia].
  cbn [mbind res_bind]. eexists _, _. split; [by rewrite <- surjective_pairing |]. by apply item_at_good.
Qed.

Lemma table_incr_spec m w R1 s r R2 next p :
  multi_inv m w (R1 ++ (s, r) :: R2) next -> good m (R1 ++ (s, r) :: R2) p s ->
  exists p' m', table_incr TableName dflt m w p = Ok (p', m') /\ multi_inv m' w (R1 ++ (s, r) :: R2) next /\
    good m' (R1 ++ (s, r) :: R2) p' (first_seq R2 next).
Proof using All.
  intros HI (obj & Ei & _). unfold table_incr, table_seq, get_item, storage_get. rewrite Ei. cbn [mbind res_bind].
  rewrite (mi_seq _ _ _ _ HI). cbn [t_].
  pose proof (mi_next _ _ _ _ HI) as Hn. unfold SEQ_LIMIT in Hn.
  assert (0 <= s < next) as Hs by (apply (mi_below _ _ _ _ HI); rewrite fmap_app, fmap_cons; set_solver).
  pose proof (mi_sorted _ _ _ _ HI) as HS'. rewrite fmap_app, fmap_cons in HS'. cbn [fst] in HS'.
  assert (R1 ++ (s, r) :: R2 = (R1 ++ [(s, r)]) ++ R2) as ER by by rewrite <- app_assoc.
  assert (forall s', s' ∈ (fst <$> (R1 ++ [(s, r)])) -> s' < s + 1) as HR1.
  { intros s' Hin. rewrite fmap_app in Hin. apply elem_of_app in Hin as [Hin | Hin].
    - assert (s' < s); [| lia]. apply (StronglySorted_app_1_elem_of _ _ _ s' s HS' Hin). by left.
    - apply list_elem_of_singleton in Hin as ->. cbn. lia. }
  assert (forall s', s' ∈ (fst <$> R2) -> s + 1 <= s') as HR2.
  { intros s' Hin. apply StronglySorted_app_1_r, StronglySorted_inv in HS' as [_ HS'].
    pose proof (proj1 (Forall_forall _ _) HS' s' Hin). cbn in *. lia. }
  assert (s + 1 <= first_seq R2 next) as Hf.
  { destruct R2 as [| [s2 r2] R2]; cbn [first_seq]; [lia |]. apply HR2. by left. }
  destruct (Z.eqb_spec s next); [lia |]. rewrite wrap_small by lia.
  destruct (seq2item_ m !! (s + 1)) as [p' |] eqn:E.
  - exists p', m. split; [done |]. split; [done |].
    destruct (mi_cache _ _ _ _ HI _ _ E) as (r' & Ei' & EA).
    assert (first_seq R2 next = s + 1) as ->; [| exists r'; by split].
    rewrite ER, assoc_app in EA. destruct (assoc (R1 ++ [(s, r)]) (s + 1)) eqn:EA1.
    { assert (s + 1 ∈ (fst <$> (R1 ++ [(s, r)]))) as Hin.
      { destruct (decide (s + 1 ∈ (fst <$> (R1 ++ [(s, r)])))); [done |]. by rewrite (proj2 (assoc_none _ _)) in EA1. }
      specialize (HR1 _ Hin). lia. }
    destruct R2 as [| [s2 r2] R2]; [done |]. cbn [first_seq] in *. cbn [assoc] in EA. case_decide; [done |].
    assert (s + 1 ∈ (fst <$> R2)) as Hin.
    { destruct (decide (s + 1 ∈ (fst <$> R2))); [done |]. by rewrite (proj2 (assoc_none _ _)) in EA. }
    rewrite fmap_cons in HS'. apply StronglySorted_app_1_r, StronglySorted_inv in HS' as [HS' _].
    apply StronglySorted_inv in HS' as [_ HS']. pose proof (proj1 (Forall_forall _ _) HS' _ Hin). cbn in *. lia.
  - unfold scan. pose proof HI as HI'. rewrite ER in HI'.
    rewrite (scan_spec m w (R1 ++ [(s, r)]) R2 next _ (s + 1) HI'); [| lia | done | lia].
    cbn [mbind res_bind]. eexists _, _. split; [by rewrite <- surjective_pairing |]. by apply item_at_good.
Qed.

Lemma rows_from_spec w next fuel : forall m R1 R2 p,
  multi_inv m w (R1 ++ R2) next -> good m (R1 ++ R2) p (first_seq R2 next) -> (length R2 < fuel)%nat ->
  exists m', rows_from ct TableName dflt fuel m w p = Ok (snd <$> R2, m') /\ multi_inv m' w (R1 ++ R2) next.
Proof using All.
  induction fuel as [| fuel IH]; intros m R1 R2 p HI HG HF; [lia |]. cbn [rows_from].
  destruct (cend_good m w _ next HI) as [HI1 (oe & Ee & _)].
  destruct (cend dflt m) as [e m1] eqn:Ec. cbn [fst snd] in *.
  assert (good m1 (R1 ++ R2) p (first_seq R2 next)) as HG1.
  { destruct HG as (obj & Ei & Hc). exists obj. unfold cend, make_item in Ec. injection Ec as <- <-.
    cbn [items seq2item_]. split; [by apply lookup_app_l_Some | done]. }
  pose proof HG1 as (obj & Ei & _). unfold table_iter_eq, table_seq, get_item. rewrite Ei, Ee. cbn [mbind res_bind].
  destruct R2 as [| [s r] R2]; cbn [first_seq] in *.
  - rewrite Z.eqb_refl. by exists m1.
  - assert (0 <= s < next) as Hs by (apply (mi_below _ _ _ _ HI); rewrite fmap_app, fmap_cons; set_solver).
    destruct (Z.eqb_spec s next); [lia |].
    assert (assoc (R1 ++ (s, r) :: R2) s = Some r) as Er.
    { apply (assoc_in _ _ _ (mi_nodup _ _ _ _ HI)). set_solver. }
    destruct (table_deref_spec m1 w _ next HI1 p s r HG1 Er) as (m2 & -> & HI2 & Ei2 & Hc2 & _).
    cbn [mbind res_bind].
    destruct (table_incr_spec m2 w R1 s r R2 next p HI2) as (p' & m3 & -> & HI3 & HG3).
    { exists r. by split. }
    cbn [mbind res_bind]. assert (R1 ++ (s, r) :: R2 = (R1 ++ [(s, r)]) ++ R2) as ER by by rewrite <- app_assoc.
    rewrite ER in HI3, HG3 |- *. destruct (IH m3 _ R2 p' HI3 HG3) as (m4 & -> & HI4); [simpl in HF; lia |].
    by exists m4.
Qed.

(** *** Adding a row *)

Definition table_family (kb : bytes) : Prop := any_family L kb \/ row_family kb.

Lemma rows_frame w w' R :
  rtable w (assoc R) -> changes_only (any_family L) w w' -> rtable w' (assoc R).
Proof using All.
  intros HR HC. eapply table_ext; [exact HR | done |]. intros s Hs. apply HC.
  intros (x & _ & Hf). apply (row_not_index x _ Hf). by exists s.
Qed.

Lemma indices_frame w w' R :
  (forall x, x ∈ L -> index_inv x w R) -> changes_only row_family w w' -> forall x, x ∈ L -> index_inv x w' R.
Proof using All.
  intros HI HC x Hx. eapply index_inv_frame; [by apply HI | exact HC |]. intros kb Hf Hr. by apply (row_not_index x kb).
Qed.

Lemma add_to_indices_each ixs w seq r :
  add_to_indices TableName junk ixs w seq r = each (fun d w => add_to_index TableName junk d w seq r) ixs w.
Proof using Type.
  revert w. induction ixs as [| d ixs IH]; intros w; [done |]. cbn [add_to_indices each].
  destruct (add_to_index TableName junk d w seq r); cbn; [apply IH | done..].
Qed.

Lemma set_row w R s r :
  rtable w (assoc R) -> uint_valid 64 s -> rvalue_ok r ->
  exists w', set_state_db TableName ct w s r = Ok w' /\ rtable w' (update (assoc R) s (Some r)) /\
    changes_only row_family w w'.
Proof using All.
  intros HR Hs Hr.
  destruct (table_set (c_row_key TableName) ct row_tree row_key_valid row_key_sized tt' vt st w (assoc R) s r HR
              (row_key_ok s Hs) Hr) as (w' & E & HR' & HF).
  exists w'. split; [exact E |]. split; [done |]. intros kb Hkb. apply HF. intros ->. apply Hkb.
  exists s. split; [by apply row_key_ok | done].
Qed.

(** The state after a row is added. *)
Lemma add_row m w R next r :
  multi_inv m w R next -> row_fits r -> next < SEQ_LIMIT -> conflict L R r = false ->
  exists w1 w2, add_to_indices TableName junk (lf_index <$> L) w next r = Ok w1 /\
    set_state_db TableName ct w1 next r = Ok w2 /\ changes_only table_family w w2 /\
    rtable w2 (assoc (R ++ [(next, r)])) /\ (forall x, x ∈ L -> index_inv x w2 (R ++ [(next, r)])).
Proof using All.
  intros HI [Hr Hk] Hn HC. pose proof (mi_next _ _ _ _ HI) as Hn0.
  destruct (each_spec (fun d w => add_to_index TableName junk d w next r) R (R ++ [(next, r)]) L HNames)
    with (w := w) as (w1 & E1 & HI1 & HC1).
  { intros x w0 Hx Hix. apply add_to_index_spec; [done | by apply Hk | lia | |].
    - intros s Hs. by apply (mi_below _ _ _ _ HI).
    - intros Hu. by apply (conflict_false L). }
  { apply (mi_index _ _ _ _ HI). }
  pose proof (rows_frame w w1 R (mi_rows _ _ _ _ HI) HC1) as HR1.
  destruct (set_row w1 R next r HR1) as (w2 & E2 & HR2 & HC2); [| done |].
  { unfold SEQ_LIMIT, uint_valid in *. lia. }
  exists w1, w2. rewrite add_to_indices_each. split; [done |]. split; [done |]. split.
  { eapply changes_only_trans; [exact HC1 | exact HC2]. }
  split; [| by eapply indices_frame].
  eapply table_ext; [exact HR2 | | done]. intros s. unfold update. rewrite assoc_app. cbn [assoc].
  case_decide as Es; [| by destruct (assoc R s)]. subst s.
  destruct (assoc R next) eqn:EA; [| done].
  pose proof (assoc_below m w R next HI next ltac:(by eexists)). lia.
Qed.

Lemma sorted_add m w R next r :
  multi_inv m w R next -> StronglySorted Z.lt (fst <$> (R ++ [(next, r)])).
Proof using All.
  intros HI. rewrite fmap_app. apply sorted_snoc; [apply HI |]. intros s Hs. by apply (mi_below _ _ _ _ HI).
Qed.

Lemma emplace_added m w R next f :
  multi_inv m w R next -> row_fits (f dflt) -> next < SEQ_LIMIT -> conflict L R (f dflt) = false ->
  exists p m' w', emplace ct TableName (lf_index <$> L) dflt junk m w f = Ok (p, true, m', w') /\
    multi_inv m' w' (R ++ [(next, f dflt)]) (next + 1) /\ items m' !! p = Some (f dflt, next) /\
    changes_only table_family w w'.
Proof using All.
  intros HI Hr Hn HC. unfold emplace, storage_get. rewrite (mi_seq _ _ _ _ HI). cbn [t_].
  pose proof (mi_next _ _ _ _ HI) as Hn0. unfold make_item, set_seq. cbn [items seq2item_ seq_].
  assert ((if has_unique_index (lf_index <$> L) then any_conflict TableName (lf_index <$> L) w (f dflt) else Ok false)
          = Ok false) as ->.
  { destruct (has_unique_index (lf_index <$> L)); [| done]. rewrite (any_conflict_spec L w R), HC; [done |].
    intros x Hx. split; [by apply (mi_index _ _ _ _ HI) | by apply Hr]. }
  cbn [mbind res_bind]. destruct (add_row m w R next (f dflt) HI Hr Hn HC) as (w1 & w2 & -> & E2 & HCh & HR & HIx).
  cbn [mbind res_bind]. rewrite E2. cbn [mbind res_bind]. eexists _, _, w2. split; [done |].
  cbn [cache_item items]. split; [| split; [by rewrite list_lookup_middle | done]].
  split; cbn [cache_item items seq2item_ seq_]; try done.
  - rewrite (mi_seq _ _ _ _ HI). unfold storage_self. cbn [name_ default_ t_].
    unfold SEQ_LIMIT in *. by rewrite wrap_small by lia.
  - lia.
  - by apply (sorted_add m w).
  - intros s Hs. rewrite fmap_app in Hs. apply elem_of_app in Hs as [Hs | Hs].
    + pose proof (mi_below _ _ _ _ HI s Hs). lia.
    + apply list_elem_of_singleton in Hs as ->. cbn. lia.
  - intros r Hin. rewrite fmap_app in Hin. apply elem_of_app in Hin as [Hin | Hin]; [by apply (mi_fits _ _ _ _ HI) |].
    by apply list_elem_of_singleton in Hin as ->.
  - intros s p. destruct (decide (s = next)) as [-> | Hne].
    + rewrite lookup_insert_eq. intros [= <-]. exists (f dflt). split; [by rewrite list_lookup_middle |].
      rewrite assoc_app. cbn [assoc]. rewrite decide_True by done. destruct (assoc R next) eqn:EA; [| done].
      pose proof (assoc_below m w R next HI next ltac:(by eexists)). lia.
    + rewrite lookup_insert_ne by done. intros Hp. destruct (mi_cache _ _ _ _ HI s p Hp) as (r & Ei & EA).
      exists r. split; [by apply lookup_app_l_Some |]. by rewrite assoc_app, EA.
Qed.

Lemma emplace_refused m w R next f :
  multi_inv m w R next -> row_fits (f dflt) -> conflict L R (f dflt) = true ->
  exists p m', emplace ct TableName (lf_index <$> L) dflt junk m w f = Ok (p, false, m', w) /\
    multi_inv m' w R next /\ good m' R p next.
Proof using All.
  intros HI Hr HC. unfold emplace, storage_get. rewrite (mi_seq _ _ _ _ HI). cbn [t_].
  pose proof (mi_next _ _ _ _ HI) as Hn0.
  destruct (make_item (set_seq m (fun s => u64 (s + 1))) (f dflt) next) as [item0 m0] eqn:Em.
  assert ((if has_unique_index (lf_index <$> L) then any_conflict TableName (lf_index <$> L) w (f dflt) else Ok false)
          = Ok true) as ->.
  { destruct (has_unique_index (lf_index <$> L)) eqn:Hu; [| by rewrite no_unique_no_conflict in HC].
    rewrite (any_conflict_spec L w R), HC; [done |].
    intros x Hx. split; [by apply (mi_index _ _ _ _ HI) | by apply Hr]. }
  cbn [mbind res_bind]. set (m1 := set_seq m0 (fun s => u64 (s - 1))).
  assert (multi_inv m1 w R next) as HI1.
  { unfold make_item, set_seq in Em. cbn [items seq2item_ seq_] in Em. injection Em as <- <-. unfold m1, set_seq.
    cbn [items seq2item_ seq_]. destruct (make_item_inv m w R next HI (f dflt) next). split; try done.
    cbn [seq_]. rewrite (mi_seq _ _ _ _ HI). unfold storage_self. cbn [name_ default_ t_].
    f_equal. unfold SEQ_LIMIT in *. rewrite (wrap_small 64 (next + 1)) by lia. rewrite wrap_small by lia. lia. }
  destruct (cend_good m1 w R next HI1) as [HI2 HG]. destruct (cend dflt m1) as [e m2] eqn:Ec.
  exists e, m2. done.
Qed.

(** *** Finding and counting *)

Lemma find_spec x m w R next k :
  multi_inv m w R next -> x ∈ L -> unique (lf_index x) = true -> key_fits x k ->
  exists p m', find ct TableName dflt junk (lf_index x) m w k = Ok (p, m') /\ multi_inv m' w R next /\
    match head (matching (lkey x) R k) with
    | Some (s, r) => items m' !! p = Some (r, s) /\ is_Some (seq2item_ m' !! s) /\ assoc R s = Some r
    | None => good m' R p next
    end.
Proof using All.
  intros HI Hx Hu Hk. unfold find. destruct (cend_good m w R next HI) as [HI1 HG].
  destruct (cend dflt m) as [e m1]. cbn [fst snd] in *.
  pose proof (mi_index _ _ _ _ HI x Hx) as HIx. unfold index_inv in HIx. unfold key_fits in Hk. rewrite Hu in HIx, Hk.
  destruct HIx as [HIx _]. unfold has_index_db, get_index_db.
  rewrite (table_has (c_unique_key TableName (ix_codec (lf_index x)) (lname x)) (c_uint 64) (unique_tree x)
             (unique_valid x) (unique_sized x) int_item (uint_valid 64) anything w _ k HIx Hk).
  destruct (table_get (c_unique_key TableName (ix_codec (lf_index x)) (lname x)) (c_uint 64) (unique_tree x)
             (unique_valid x) (unique_sized x) int_item (uint_valid 64) anything w _ k junk HIx Hk) as (n & -> & _).
  destruct (matching (lkey x) R k) as [| [s r] l] eqn:EM; cbn [mbind res_bind head fmap option_fmap option_map fst from_option default].
  - rewrite bool_decide_eq_false_2 by (by intros [? ?]). by exists e, m1.
  - rewrite bool_decide_eq_true_2 by (by eexists). cbn [mbind res_bind].
    assert (assoc R s = Some r) as EA.
    { apply (assoc_in _ _ _ (mi_nodup _ _ _ _ HI)). apply (elem_of_matching (lkey x) R k). rewrite EM. by left. }
    cbn [id]. destruct (get_item_ptr_spec m1 w R next HI1 s r EA) as (p & m' & -> & HI' & Ei & Hc). by exists p, m'.
Qed.

Lemma count_spec' x m w R next k :
  multi_inv m w R next -> x ∈ L -> key_fits x k ->
  count TableName junk (lf_index x) w k = Ok (u32 (len (matching (lkey x) R k))).
Proof using All.
  intros HI Hx Hk. pose proof (mi_index _ _ _ _ HI x Hx) as HIx. unfold index_inv in HIx. unfold key_fits in Hk.
  unfold count. destruct (unique (lf_index x)).
  - destruct HIx as [HIx H1]. specialize (H1 k). unfold has_index_db.
    rewrite (table_has (c_unique_key TableName (ix_codec (lf_index x)) (lname x)) (c_uint 64) (unique_tree x)
             (unique_valid x) (unique_sized x) int_item (uint_valid 64) anything w _ k HIx Hk).
    cbn [mbind res_bind]. destruct (matching (lkey x) R k) as [| p [| p' l]]; [done | done | simpl in H1; lia].
  - destruct (index_open _ _ _ _ w _ k HIx) as (F & HS0 & _).
    rewrite (has_spec (ix_codec (lf_index x)) (lf_tree x) (lf_valid x) (lf_sized x) TableName (lname x) junk junk F w k _ HS0 Hk).
    cbn [mbind res_bind]. destruct (matching (lkey x) R k) as [| p l] eqn:EM; [done |].
    rewrite bool_decide_eq_false_2 by done. cbn [negb].
    rewrite (NormalIndexFacts.count_spec (ix_codec (lf_index x)) (lf_tree x) (lf_valid x) (lf_sized x) TableName (lname x) junk junk F w k _ HS0 Hk)
      by (by left). by rewrite length_fmap.
Qed.

(** *** Changing and removing a row *)

Lemma same_keys_all X (r r' : T) :
  same_keys (lf_index <$> X) r r' = true -> forall x, x ∈ X -> lkey x r = lkey x r'.
Proof using Type.
  induction X as [| x X IH]; [intros _ x Hx; by apply not_elem_of_nil in Hx |].
  rewrite fmap_cons. cbn [same_keys]. case_decide as E; [| done]. intros HX y Hy.
  apply elem_of_cons in Hy as [-> | Hy]; [done | by apply IH].
Qed.

(** A loaded item is dereferenced without reading the state. *)
Lemma deref_loaded m w p s r :
  items m !! p = Some (r, s) -> is_Some (seq2item_ m !! s) -> table_deref ct TableName m w p = Ok (r, m).
Proof using Type. intros Ei [p' Hp]. unfold table_deref, get_item. rewrite Ei. cbn [mbind res_bind]. by rewrite Hp. Qed.

(** Through an item that holds [r0], with the keys of the row [r] in the table. *)
Lemma modify_loaded m w R next p s r0 r f :
  multi_inv m w R next -> items m !! p = Some (r0, s) -> is_Some (seq2item_ m !! s) -> assoc R s = Some r ->
  (forall x, x ∈ L -> lkey x r0 = lkey x r) ->
  (same_keys (lf_index <$> L) r0 (f r0) = true -> rvalue_ok (f r0)) ->
  exists m' w', modify ct TableName (lf_index <$> L) m w p f = Ok (m', w') /\ changes_only table_family w w' /\
    items m' !! p = Some (r0, s) /\ is_Some (seq2item_ m' !! s) /\
    multi_inv m' w' (if same_keys (lf_index <$> L) r0 (f r0) then replace_row s (f r0) R else R) next.
Proof using All.
  intros HI Ei1 Hc1 EA Hk0 Hf. unfold modify. rewrite (deref_loaded m w p s r0 Ei1 Hc1). cbn [mbind res_bind].
  unfold table_seq, get_item. rewrite Ei1. cbn [mbind res_bind].
  pose proof (make_item_inv m w R next HI (f r0) s) as HI2.
  pose proof (make_item_new m (f r0) s) as En.
  assert (items (snd (make_item m (f r0) s)) !! p = Some (r0, s)) as Ei2 by by apply lookup_app_l_Some.
  destruct (make_item m (f r0) s) as [item m2] eqn:Em. cbn [fst snd] in *.
  assert (is_Some (seq2item_ m2 !! s)) as Hc2 by (unfold make_item in Em; by injection Em as _ <-).
  rewrite (deref_loaded m2 w p s r0 Ei2 Hc2). cbn [mbind res_bind].
  destruct (same_keys (lf_index <$> L) r0 (f r0)) eqn:ES; [| by exists m2, w].
  assert (forall x, x ∈ L -> lkey x (f r0) = lkey x r) as HK.
  { intros x Hx. rewrite <- Hk0 by done. symmetry. by apply (same_keys_all L r0 (f r0) ES). }
  pose proof (mi_nodup _ _ _ _ HI) as HN. pose proof (proj1 (assoc_in _ _ _ HN) EA) as Hin.
  destruct (set_row w R s (f r0) (mi_rows _ _ _ _ HI)) as (w' & -> & HR' & HC).
  { apply (mi_u64 _ _ _ _ HI), (assoc_below _ _ _ _ HI). by eexists. } { by apply Hf. }
  cbn [mbind res_bind]. eexists _, w'. split; [done |].
  split; [eapply changes_only_weaken; [| exact HC]; by right |].
  split; [exact Ei2 |]. split; [cbn [cache_item seq2item_]; rewrite lookup_insert_eq; by eexists |].
  assert (forall s', assoc (replace_row s (f r0) R) s' = update (assoc R) s (Some (f r0)) s') as HA.
  { intros s'. by apply assoc_replace; eexists. }
  split; cbn [cache_item items seq2item_ seq_].
  - by rewrite (mi_seq _ _ _ _ HI2).
  - apply HI.
  - rewrite replace_fst. apply HI.
  - rewrite replace_fst. apply HI.
  - eapply table_ext; [exact HR' | | done]. intros s'. by rewrite HA.
  - intros r' Hr'. apply list_elem_of_fmap in Hr' as ([s1 r1] & -> & Hin1). cbn [snd].
    apply elem_of_replace in Hin1 as [Hin1 | [-> _]].
    + apply (mi_fits _ _ _ _ HI). apply list_elem_of_fmap. by exists (s1, r1).
    + split; [by apply Hf |]. intros x Hx. rewrite HK by done.
      assert (row_fits r) as [_ Hr]; [| by apply Hr].
      apply (mi_fits _ _ _ _ HI). apply list_elem_of_fmap. by exists (s, r).
  - intros x Hx. apply (indices_frame w w'); [| done | done]. intros y Hy.
    apply (replace_in_index y w R s (f r0) r); [by apply (mi_index _ _ _ _ HI) | done | done | by apply HK].
  - intros s' p'. rewrite HA. unfold update. destruct (decide (s' = s)) as [-> | Hne].
    + rewrite lookup_insert_eq. intros [= <-]. exists (f r0). by split.
    + rewrite lookup_insert_ne by done. intros Hp. by apply (mi_cache _ _ _ _ HI2).
Qed.

Lemma modify_spec m w R next p s r f :
  multi_inv m w R next -> good m R p s -> assoc R s = Some r ->
  (same_keys (lf_index <$> L) r (f r) = true -> rvalue_ok (f r)) ->
  exists m' w', modify ct TableName (lf_index <$> L) m w p f = Ok (m', w') /\ changes_only table_family w w' /\
    items m' !! p = Some (r, s) /\ is_Some (seq2item_ m' !! s) /\
    multi_inv m' w' (if same_keys (lf_index <$> L) r (f r) then replace_row s (f r) R else R) next.
Proof using All.
  intros HI HG EA Hf.
  destruct (table_deref_spec m w R next HI p s r HG EA) as (m1 & E1 & HI1 & Ei1 & Hc1 & _).
  destruct (modify_loaded m1 w R next p s r r f HI1 Ei1 Hc1 EA) as (m' & w' & E & HX); [done | done |].
  exists m', w'. split; [| done]. rewrite <- E. unfold modify.
  by rewrite E1, (deref_loaded m1 w p s r Ei1 Hc1).
Qed.

Lemma row_key_fits m w R next s r x :
  multi_inv m w R next -> assoc R s = Some r -> x ∈ L -> key_fits x (lkey x r).
Proof using Type.
  intros HI EA Hx. assert (row_fits r) as [_ Hr]; [| by apply Hr].
  apply (mi_fits _ _ _ _ HI). apply list_elem_of_fmap. exists (s, r). split; [done |].
  by apply (assoc_in _ _ _ (mi_nodup _ _ _ _ HI)).
Qed.

Lemma erase_indices_loaded ixs : forall m w p s r,
  items m !! p = Some (r, s) -> is_Some (seq2item_ m !! s) ->
  erase_indices ct TableName junk ixs m w p =
  (w' ← each (fun d w => remove_from_index TableName junk d w s r) ixs w; Ok (m, w')).
Proof using Type.
  induction ixs as [| d ixs IH]; intros m w p s r Ei Hc; [done |]. cbn [erase_indices each].
  unfold table_seq, get_item. rewrite Ei. cbn [mbind res_bind].
  rewrite (deref_loaded m w p s r Ei Hc). cbn [mbind res_bind].
  destruct (remove_from_index TableName junk d w s r); cbn; [by apply IH | done..].
Qed.

(** The row taken out of every index and of the rows, then of the cache. *)
Lemma erase_row m w R next s r :
  multi_inv m w R next -> assoc R s = Some r ->
  exists w1 w2, each (fun d w => remove_from_index TableName junk d w s r) (lf_index <$> L) w = Ok w1 /\
    delete_state_db TableName w1 s = Ok w2 /\
    multi_inv (uncache_item m s) w2 (drop_row s R) next /\ changes_only table_family w w2.
Proof using All.
  intros HI EA. pose proof (mi_nodup _ _ _ _ HI) as HN.
  pose proof (proj1 (assoc_in _ _ _ HN) EA) as Hin.
  destruct (each_spec (fun d w => remove_from_index TableName junk d w s r) R (drop_row s R) L HNames)
    with (w := w) as (w1 & E1 & HIx & HC1).
  { intros x w0 Hx Hix. apply remove_from_index_spec; [done | | done | done]. by apply (row_key_fits m w R next s). }
  { apply (mi_index _ _ _ _ HI). }
  pose proof (rows_frame w w1 R (mi_rows _ _ _ _ HI) HC1) as HR1.
  assert (rkey_ok s) as Hk.
  { apply row_key_ok, (mi_u64 _ _ _ _ HI), (assoc_below _ _ _ _ HI). by eexists. }
  destruct (table_del (c_row_key TableName) ct row_tree row_key_valid row_key_sized tt' vt st w1 (assoc R) s HR1 Hk)
    as (w2 & E2 & HR2 & HF2).
  exists w1, w2. split; [exact E1 |]. split; [exact E2 |].
  assert (changes_only row_family w1 w2) as HC2.
  { intros kb Hkb. apply HF2. intros ->. apply Hkb. by exists s. }
  split; [| eapply changes_only_trans; [exact HC1 | exact HC2]].
  assert (forall p, p ∈ drop_row s R -> p ∈ R) as HSub.
  { intros q Hq. unfold drop_row in Hq. by apply list_elem_of_filter in Hq as [_ Hq]. }
  assert (fst <$> drop_row s R = without s (fst <$> R)) as HFst.
  { pose proof (matching_drop (fun _ : T => tt) R tt s) as HM. unfold matching in HM.
    rewrite !filter_all in HM by done. exact HM. }
  split; cbn [uncache_item items seq2item_ seq_].
  - apply (mi_seq _ _ _ _ HI).
  - apply HI.
  - rewrite HFst. apply sorted_filter, HI.
  - intros s' Hs'. rewrite HFst in Hs'. apply elem_of_without in Hs' as [Hs' _]. by apply (mi_below _ _ _ _ HI).
  - eapply table_ext; [exact HR2 | | done]. intros s'. by rewrite assoc_drop.
  - intros r' Hr'. apply (mi_fits _ _ _ _ HI). apply list_elem_of_fmap in Hr' as (q & -> & Hq).
    apply list_elem_of_fmap. exists q. auto.
  - by eapply indices_frame.
  - intros s' p'. rewrite lookup_delete_Some. intros [Hne Hp]. rewrite assoc_drop, decide_False by auto.
    by apply (mi_cache _ _ _ _ HI).
Qed.

(** *** The rows of a value through a non-unique index *)

Lemma index_deref_spec x m w R next it s r :
  multi_inv m w R next -> assoc R s = Some r -> index_seq TableName junk (lf_index x) w it = Ok s ->
  exists m', index_deref ct TableName dflt junk (lf_index x) m w it = Ok (r, m') /\ multi_inv m' w R next.
Proof using All.
  intros HI EA Es. unfold index_deref. rewrite Es. cbn [mbind res_bind].
  destruct (get_item_ptr_spec m w R next HI s r EA) as (p & m' & -> & HI' & Ei & _). cbn [mbind res_bind].
  unfold get_item. rewrite Ei. by exists m'.
Qed.

Section IndexLoop.
Context (x : lawful) (w : world) (R : list (Z * T)) (next : Z) (k : ix_key (lf_index x)).
Context (F : ix_key (lf_index x) -> Z -> option NormalIndexValue) (segs : list segment) (HO : segments_ok segs).
Context (Hk : nvalue x k)
  (HF : table (index_tree (lf_tree x) TableName (lname x)) (index_valid (lf_valid x) TableName (lname x))
          segment_tree segment_valid w (slot F k (ring segs))).

Lemma index_rows_loop fuel : forall m A t l1 l2 B rs,
  multi_inv m w R next -> segs = A ++ (t, l1 ++ l2) :: B -> l2 <> [] ->
  Forall2 (fun s r => assoc R s = Some r) (l2 ++ seqs B) rs -> (length rs < fuel)%nat ->
  exists m', index_rows_from ct TableName dflt junk (lf_index x) fuel m w (at_pos k t l1) = Ok (rs, m') /\
    multi_inv m' w R next.
Proof using All.
  pose proof (lf_laws x) as HLx.
  induction fuel as [| fuel IH]; intros m A t l1 l2 B rs HI E Hn H2 Hf; [lia |].
  destruct l2 as [| q l2]; [done |]. cbn [app] in H2.
  apply Forall2_cons_inv_l in H2 as (r & rs' & Hr & H2 & ->). cbn [index_rows_from].
  change (it_key (at_pos k t l1)) with k.
  rewrite (iter_not_end (ix_codec (lf_index x)) (lf_tree x) (lf_valid x) (lf_sized x) TableName (lname x) junk junk F w k segs HO Hk HF A t l1 q l2 B E).
  destruct (index_deref_spec x m w R next (at_pos k t l1) q r HI Hr) as (m1 & -> & HI1).
  { exact (iter_get (ix_codec (lf_index x)) (lf_tree x) (lf_valid x) (lf_sized x) TableName (lname x) junk junk F w k segs HO Hk HF A t l1 q l2 B E). }
  cbn [mbind res_bind].
  rewrite (iter_incr (ix_codec (lf_index x)) (lf_tree x) (lf_valid x) (lf_sized x) TableName (lname x) junk junk F w k segs HO Hk HF A t l1 q l2 B E).
  cbn [mbind res_bind]. destruct l2 as [| q' l2]; [destruct B as [| [b lb] B] |].
  - cbn [app seqs] in H2. apply Forall2_nil_inv_l in H2 as ->. cbn [next_pos].
    destruct fuel; [simpl in Hf; lia |]. exists m1. done.
  - assert (segs = (A ++ [(t, l1 ++ [q])]) ++ (b, [] ++ lb) :: B) as E' by by rewrite <- app_assoc.
    destruct (segs_nonempty _ HO b lb) as (y & l' & Ey); [rewrite E'; apply elem_of_app; right; left |].
    change (next_pos k t (l1 ++ [q]) [] ((b, lb) :: B)) with (at_pos k b []).
    destruct (IH m1 _ b [] lb B rs' HI1 E') as (m2 & -> & HI2); [by rewrite Ey | exact H2 | simpl in Hf; lia |].
    by exists m2.
  - assert (segs = A ++ (t, (l1 ++ [q]) ++ q' :: l2) :: B) as E' by by rewrite <- app_assoc.
    change (next_pos k t (l1 ++ [q]) (q' :: l2) B) with (at_pos k t (l1 ++ [q])).
    destruct (IH m1 A t (l1 ++ [q]) (q' :: l2) B rs' HI1 E') as (m2 & -> & HI2); [done | exact H2 | simpl in Hf; lia |].
    by exists m2.
Qed.
End IndexLoop.

Lemma index_rows_spec x m w R next k fuel :
  multi_inv m w R next -> x ∈ L -> unique (lf_index x) = false -> key_fits x k ->
  (length (matching (lkey x) R k) < fuel)%nat ->
  exists m', index_rows ct TableName dflt junk (lf_index x) fuel m w k = Ok (snd <$> matching (lkey x) R k, m') /\
    multi_inv m' w R next.
Proof using All.
  intros HI Hx Hu Hk HF. pose proof (mi_index _ _ _ _ HI x Hx) as HIx. unfold index_inv in HIx. unfold key_fits in Hk.
  rewrite Hu in HIx, Hk. pose proof (lf_laws x) as HLx.
  destruct (index_open _ _ _ _ w _ k HIx) as (F & (segs & HO & EQ & HT') & _).
  assert (Forall2 (fun s r => assoc R s = Some r) (seqs segs) (snd <$> matching (lkey x) R k)) as H2.
  { rewrite EQ. apply Forall2_fmap, Forall_Forall2_diag, Forall_forall. intros [s r] Hin. cbn.
    apply (assoc_in _ _ _ (mi_nodup _ _ _ _ HI)). by apply elem_of_matching in Hin as [Hin _]. }
  unfold index_rows, index_cbegin, HEADSERIAL.
  pose proof (slot_reads (ix_codec (lf_index x)) (lf_tree x) (lf_valid x) (lf_sized x) TableName (lname x) junk junk F w k _ HT' Hk) as HR.
  destruct (decide (segs = [])) as [-> | Hn].
  - rewrite (reads_none _ _ _ _ _ w k _ 0 HR zero_valid eq_refl). cbn [mbind res_bind Z.eqb].
    apply Forall2_nil_inv_l in H2. rewrite H2. destruct fuel; [lia |]. exists m. done.
  - destruct (segs_cons segs HO Hn) as (h & B & ->).
    destruct (segs_nonempty _ HO 0 h ltac:(left)) as (y & h' & Ey).
    destruct (reads_some _ _ _ _ _ w k _ 0 _ HR zero_valid (ring_at [] 0 h B (not_in_nil 0))) as (n & -> & En).
    cbn [mbind res_bind]. rewrite En. cbn [mbind res_bind].
    apply (index_rows_loop x w R next k F _ HO Hk HT' fuel m [] 0 [] h B _ HI eq_refl); [by rewrite Ey | exact H2 |].
    by rewrite length_fmap.
Qed.

(** *** Erasing through a non-unique index *)

(** Once the row is in the cache, reading through the position needs only its number. *)
Lemma index_deref_loaded x m w it p s r :
  items m !! p = Some (r, s) -> seq2item_ m !! s = Some p -> index_seq TableName junk (lf_index x) w it = Ok s ->
  index_deref ct TableName dflt junk (lf_index x) m w it = Ok (r, m).
Proof using Type.
  intros Ei Ec Es. unfold index_deref, get_item_ptr, get_item. rewrite Es. cbn [mbind res_bind]. rewrite Ec. cbn [mbind res_bind].
  by rewrite Ei.
Qed.

(** The indices [X] before the one iterated: the position is not touched. *)
Lemma index_erase_before x m it p s r R Y X :
  items m !! p = Some (r, s) -> seq2item_ m !! s = Some p -> NoDup (fst <$> R) -> (s, r) ∈ R ->
  NoDup ((fun y => lname y) <$> X) ->
  forall w, (forall y, y ∈ X -> index_inv y w R /\ key_fits y (lkey y r)) ->
  (forall w', changes_only (any_family X) w w' -> index_seq TableName junk (lf_index x) w' it = Ok s) ->
  index_erase_indices ct TableName dflt junk (lf_index x) ((lf_index <$> X) ++ Y) m w s it =
  (w' ← each (fun d w => remove_from_index TableName junk d w s r) (lf_index <$> X) w;
   index_erase_indices ct TableName dflt junk (lf_index x) Y m w' s it).
Proof using HL HS HTN.
  intros Ei Ec HN Hin. induction X as [| y X IH]; intros HNx w HX Hpos; [done |].
  rewrite fmap_cons in HNx. apply NoDup_cons in HNx as [Hy HNx]. rewrite fmap_cons. cbn [app index_erase_indices each].
  rewrite (index_deref_loaded x m w it p s r Ei Ec) by by apply Hpos. cbn [mbind res_bind].
  destruct (HX y ltac:(left)) as [HIy Hky].
  destruct (remove_from_index_spec y junk w R s r HIy Hky HN Hin) as (w1 & -> & _ & HC1). cbn [mbind res_bind].
  apply IH; [done | |].
  - intros z Hz. destruct (HX z ltac:(by right)) as [HIz Hkz]. split; [| done].
    eapply index_inv_frame; [exact HIz | exact HC1 |]. intros kb Hfz Hfy. apply Hy.
    rewrite (families_disjoint y z kb Hfy Hfz). apply list_elem_of_fmap. by exists z.
  - intros w' HC'. apply Hpos. eapply changes_only_weaken; [| eapply changes_only_trans; [exact HC1 | exact HC']].
    intros kb [Hf | (z & Hz & Hf)]; [exists y; split; [left | exact Hf] | exists z; split; [by right | exact Hf]].
Qed.

Lemma each_app op X Y w : each op (X ++ Y) w = (w' ← each op X w; each op Y w').
Proof using Type.
  revert w. induction X as [| d X IH]; intros w; [done |]. cbn [app each]. destruct (op d w); cbn; [apply IH | done..].
Qed.

(** The start of both cases: the row is loaded, the indices before [x] have lost it, the position is
    as it was. *)
Lemma index_erase_reaches x X Y m w R next k n s r :
  L = X ++ x :: Y -> unique (lf_index x) = false -> multi_inv m w R next ->
  matching (lkey x) R k !! n = Some (s, r) ->
  exists it m1 w1 p,
    index_cbegin (ix_codec (lf_index x)) TableName (lname x) junk junk w k = Ok (mkIndexIter k HEADSERIAL 0) /\
    index_advance (ix_codec (lf_index x)) TableName (lname x) junk junk w n (mkIndexIter k HEADSERIAL 0) = Ok it /\
    index_seq TableName junk (lf_index x) w it = Ok s /\ multi_inv m1 w R next /\
    items m1 !! p = Some (r, s) /\ seq2item_ m1 !! s = Some p /\
    each (fun d w => remove_from_index TableName junk d w s r) (lf_index <$> X) w = Ok w1 /\
    changes_only (any_family X) w w1 /\
    index_seq TableName junk (lf_index x) w1 it = Ok s /\
    index_erase_indices ct TableName dflt junk (lf_index x) (lf_index <$> L) m w s it =
      index_erase_indices ct TableName dflt junk (lf_index x) (lf_index <$> (x :: Y)) m1 w1 s it.
Proof using All.
  intros EL Hu HI Hm. pose proof (lf_laws x) as HLx.
  assert ((s, r) ∈ matching (lkey x) R k) as Hin by by eapply list_elem_of_lookup_2.
  apply elem_of_matching in Hin as [Hin Ek]. pose proof (mi_nodup _ _ _ _ HI) as HN.
  pose proof (proj2 (assoc_in _ _ _ HN) Hin) as EA.
  assert (forall y, y ∈ L -> index_inv y w R /\ key_fits y (lkey y r)) as HL'.
  { intros y Hy. split; [by apply (mi_index _ _ _ _ HI) | by apply (row_key_fits m w R next s)]. }
  assert (x ∈ L) as Hx by (rewrite EL; apply elem_of_app; right; left).
  destruct (HL' x Hx) as [HIx Hk]. rewrite Ek in Hk. unfold index_inv in HIx. unfold key_fits in Hk. rewrite Hu in HIx, Hk.
  destruct (position_stays (ix_codec (lf_index x)) (lf_tree x) (lf_valid x) (lf_sized x) TableName (lname x) junk junk w _ k n s HIx Hk)
    as (it & E0 & E1 & Hstay).
  { by rewrite list_lookup_fmap, Hm. }
  destruct (get_item_ptr_spec m w R next HI s r EA) as (p & m1 & Ep & HI1 & Ei & Hc).
  assert (NoDup ((fun y => lname y) <$> X) /\ forall y, y ∈ X -> lname y <> lname x) as [HNX Hne].
  { rewrite EL, fmap_app, fmap_cons in HNames. apply NoDup_app in HNames as (HNX & HD & _). split; [done |].
    intros y Hy E. apply (HD (lname y)); [apply list_elem_of_fmap; by exists y | rewrite E; left]. }
  assert (forall w', changes_only (any_family X) w w' -> index_seq TableName junk (lf_index x) w' it = Ok s) as Hpos.
  { intros w' HC. apply Hstay. intros key Hkey. apply HC. intros (y & Hy & Hf). apply (Hne y Hy).
    apply (families_disjoint y x _ Hf). unfold family. rewrite Hu. by exists key. }
  assert (index_seq TableName junk (lf_index x) w it = Ok s) as Es by by apply Hpos.
  assert (index_erase_indices ct TableName dflt junk (lf_index x) (lf_index <$> L) m w s it
          = index_erase_indices ct TableName dflt junk (lf_index x) (lf_index <$> L) m1 w s it) as E2.
  { rewrite EL. destruct X as [| y X]; cbn [app fmap list_fmap index_erase_indices];
      rewrite (index_deref_loaded x m1 w it p s r Ei Hc Es);
      unfold index_deref, get_item; rewrite Es; cbn [mbind res_bind]; rewrite Ep; cbn [mbind res_bind]; by rewrite Ei. }
  destruct (each_spec (fun d w => remove_from_index TableName junk d w s r) R (drop_row s R) X HNX) with (w := w)
    as (w1 & EX & _ & HCX).
  { intros y w0 Hy Hiy. apply remove_from_index_spec; [done | | done | done]. apply HL'. rewrite EL. apply elem_of_app. by left. }
  { intros y Hy. apply (HL' y). rewrite EL. apply elem_of_app. by left. }
  exists it, m1, w1, p. do 7 (split; [done |]). split; [done |]. split; [by apply Hpos |].
  rewrite E2, EL, fmap_app.
  rewrite (index_erase_before x m1 it p s r R _ X Ei Hc HN Hin HNX w) by (done || (intros y Hy; apply HL'; rewrite EL; apply elem_of_app; by left)).
  rewrite EX. done.
Qed.

(** Nothing comes after [x]: the row is erased as through a table iterator. *)
Lemma index_erase_spec x X m w R next k n s r :
  L = X ++ [x] -> unique (lf_index x) = false -> multi_inv m w R next ->
  matching (lkey x) R k !! n = Some (s, r) ->
  exists it0 it m' w',
    index_cbegin (ix_codec (lf_index x)) TableName (lname x) junk junk w k = Ok it0 /\
    index_advance (ix_codec (lf_index x)) TableName (lname x) junk junk w n it0 = Ok it /\
    index_erase ct TableName (lf_index <$> L) dflt junk (lf_index x) m w it = Ok (m', w') /\
    multi_inv m' w' (drop_row s R) next /\ changes_only table_family w w'.
Proof using All.
  intros EL Hu HI Hm.
  destruct (index_erase_reaches x X [] m w R next k n s r EL Hu HI Hm)
    as (it & m1 & w1 & p & E0 & E1 & Es & HI1 & Ei & Hc & EX & _ & Es1 & EE).
  assert (assoc R s = Some r) as EA.
  { apply (assoc_in _ _ _ (mi_nodup _ _ _ _ HI)). apply list_elem_of_lookup_2 in Hm. by apply elem_of_matching in Hm as [? _]. }
  destruct (erase_row m1 w R next s r HI1 EA) as (w2 & w3 & E2 & E3 & HI3 & HC3).
  rewrite EL, fmap_app, each_app, EX in E2. cbn [mbind res_bind fmap list_fmap each] in E2.
  exists (mkIndexIter k HEADSERIAL 0), it, (uncache_item m1 s), w3. split; [done |]. split; [done |]. split; [| done].
  unfold index_erase. rewrite Es. cbn [mbind res_bind]. rewrite EE. cbn [fmap list_fmap index_erase_indices].
  rewrite (index_deref_loaded x m1 w1 it p s r Ei Hc Es1). cbn [mbind res_bind].
  destruct (remove_from_index TableName junk (lf_index x) w1 s r); [| done..]. cbn [mbind res_bind] in *.
  injection E2 as ->. by rewrite E3.
Qed.

(** *** What an operation leaves of the items a program holds *)

(** A loaded item of a number in the cache is still one, with the same row. *)
Definition keeps (m m' : MultiIndex T) : Prop :=
  forall p r s, items m !! p = Some (r, s) -> is_Some (seq2item_ m !! s) ->
    items m' !! p = Some (r, s) /\ is_Some (seq2item_ m' !! s).

Lemma keeps_self m : keeps m m.
Proof using Type. by intros p r s. Qed.

Lemma keeps_then m1 m2 m3 : keeps m1 m2 -> keeps m2 m3 -> keeps m1 m3.
Proof using Type. intros H1 H2 p r s Ei Hc. destruct (H1 p r s Ei Hc). by apply H2. Qed.

Lemma make_item_keeps m obj s : keeps m (snd (make_item m obj s)).
Proof using Type. intros p r s' Ei Hc. split; [by apply lookup_app_l_Some | done]. Qed.

Lemma cache_item_keeps m s p : keeps m (cache_item m s p).
Proof using Type.
  intros p' r s' Ei Hc. split; [done |]. cbn [cache_item seq2item_].
  destruct (decide (s' = s)) as [-> |]; [rewrite lookup_insert_eq; by eexists | by rewrite lookup_insert_ne].
Qed.

Lemma set_seq_keeps m f : keeps m (set_seq m f).
Proof using Type. by intros p r s. Qed.

Lemma cend_keeps m e m' : cend dflt m = (e, m') -> keeps m m'.
Proof using Type. unfold cend. intros E. pose proof (make_item_keeps m dflt (storage_get (seq_ m))) as HK. by rewrite E in HK. Qed.

Lemma item_at_keeps m s : keeps m (snd (item_at dflt m s)).
Proof using Type. unfold item_at. destruct (seq2item_ m !! s); [apply keeps_self | apply make_item_keeps]. Qed.

Lemma table_deref_keeps m w p r m' : table_deref ct TableName m w p = Ok (r, m') -> keeps m m'.
Proof using Type.
  unfold table_deref, get_item. destruct (items m !! p) as [[obj s] |] eqn:Ep; [| done]. cbn [mbind res_bind].
  destruct (seq2item_ m !! s) eqn:Es; [intros [= _ <-]; apply keeps_self |].
  intros (obj' & _ & [= _ <-])%bind_ok. eapply keeps_then; [| apply cache_item_keeps].
  intros p' r' s' Ei Hc. split; [| done]. cbn [set_item items].
  destruct (decide (p' = p)) as [-> |]; [| by rewrite list_lookup_insert_ne].
  rewrite Ep in Ei. injection Ei as _ <-. by rewrite Es in Hc; destruct Hc.
Qed.

Lemma get_item_ptr_keeps m w s p m' : get_item_ptr ct TableName dflt m w s = Ok (p, m') -> keeps m m'.
Proof using Type.
  unfold get_item_ptr. destruct (seq2item_ m !! s); [intros [= _ <-]; apply keeps_self |].
  intros (obj & _ & HO)%bind_ok. pose proof (make_item_keeps m obj s) as HK.
  destruct (make_item m obj s) as [p1 m1]. injection HO as _ <-. eapply keeps_then; [exact HK | apply cache_item_keeps].
Qed.

Lemma table_incr_keeps m w p p' m' : table_incr TableName dflt m w p = Ok (p', m') -> keeps m m'.
Proof using Type.
  unfold table_incr. intros (s & _ & HO)%bind_ok. destruct (s =? _); [injection HO as _ <-; apply keeps_self |].
  destruct (seq2item_ m !! _); [injection HO as _ <-; apply keeps_self |].
  apply bind_ok in HO as (s' & _ & HO). pose proof (item_at_keeps m s') as HK.
  destruct (item_at dflt m s'). by injection HO as _ <-.
Qed.

Lemma rows_from_keeps w fuel : forall m p l m', rows_from ct TableName dflt fuel m w p = Ok (l, m') -> keeps m m'.
Proof using Type.
  induction fuel as [| fuel IH]; intros m p l m'; [done |]. cbn [rows_from].
  destruct (cend dflt m) as [e m1] eqn:Ec. intros (b & _ & HO)%bind_ok. apply cend_keeps in Ec.
  destruct b; [by injection HO as _ <- |]. apply bind_ok in HO as ([obj m2] & E2%table_deref_keeps & HO).
  apply bind_ok in HO as ([p' m3] & E3%table_incr_keeps & HO). apply bind_ok in HO as ([objs m4] & E4%IH & [= _ <-]).
  by eapply keeps_then, keeps_then, keeps_then.
Qed.

Lemma rows_keeps fuel m w l m' : rows ct TableName dflt fuel m w = Ok (l, m') -> keeps m m'.
Proof using Type.
  unfold rows, cbegin. intros ([p m1] & E & HO%rows_from_keeps)%bind_ok. apply bind_ok in E as (s & _ & E).
  pose proof (item_at_keeps m s) as HK. destruct (item_at dflt m s). injection E as _ <-. by eapply keeps_then.
Qed.

Lemma find_keeps x m w k p m' : find ct TableName dflt junk (lf_index x) m w k = Ok (p, m') -> keeps m m'.
Proof using Type.
  unfold find. destruct (cend dflt m) as [e m1] eqn:Ec. apply cend_keeps in Ec. intros (b & _ & HO)%bind_ok.
  destruct b; [| by injection HO as _ <-]. apply bind_ok in HO as (s & _ & HO%get_item_ptr_keeps). by eapply keeps_then.
Qed.

Lemma emplace_keeps m w f p b m' w' :
  emplace ct TableName (lf_index <$> L) dflt junk m w f = Ok (p, b, m', w') -> keeps m m'.
Proof using Type.
  unfold emplace. pose proof (make_item_keeps (set_seq m (fun s => u64 (s + 1))) (f dflt) (storage_get (seq_ m))) as HK.
  destruct (make_item _ _ _) as [item m1]. cbn [snd] in HK.
  assert (keeps m m1) as HK1 by exact HK. intros (c & _ & HO)%bind_ok. destruct c.
  - destruct (cend dflt _) as [e m2] eqn:Ec. injection HO as _ _ <- _. apply cend_keeps in Ec. by eapply keeps_then.
  - apply bind_ok in HO as (w1 & _ & HO). apply bind_ok in HO as (w2 & _ & [= _ _ <- _]).
    eapply keeps_then; [exact HK1 | apply cache_item_keeps].
Qed.

Lemma modify_keeps m w p f m' w' : modify ct TableName (lf_index <$> L) m w p f = Ok (m', w') -> keeps m m'.
Proof using Type.
  unfold modify. intros ([obj m1] & E1%table_deref_keeps & HO)%bind_ok. apply bind_ok in HO as (s & _ & HO).
  pose proof (make_item_keeps m1 (f obj) s) as HK. destruct (make_item m1 (f obj) s) as [item m2].
  apply bind_ok in HO as ([old m3] & E3%table_deref_keeps & HO). assert (keeps m m3) as HK3 by by eapply keeps_then, keeps_then.
  destruct (same_keys _ _ _); [| by injection HO as <- _].
  apply bind_ok in HO as (w1 & _ & [= <- _]). eapply keeps_then; [exact HK3 | apply cache_item_keeps].
Qed.

Lemma index_rows_keeps x fuel m w k l m' :
  index_rows ct TableName dflt junk (lf_index x) fuel m w k = Ok (l, m') -> keeps m m'.
Proof using Type.
  unfold index_rows. intros (it & _ & HO)%bind_ok. revert m it l m' HO. induction fuel as [| fuel IH]; intros m it l m'; [done |].
  cbn [index_rows_from]. destruct (index_iter_neq _ _); [| intros [= _ <-]; apply keeps_self].
  intros ([obj m1] & E1 & HO)%bind_ok. apply bind_ok in HO as (it' & _ & HO). apply bind_ok in HO as ([objs m2] & E2%IH & [= _ <-]).
  unfold index_deref in E1. apply bind_ok in E1 as (s & _ & E1). apply bind_ok in E1 as ([q m3] & E3%get_item_ptr_keeps & E1).
  apply bind_ok in E1 as ([? ?] & _ & [= _ <-]). by eapply keeps_then.
Qed.

(** Erasing through an item that holds [r0], with the keys of the row [r] in the table. *)
Lemma erase_loaded m w R next p s r0 r :
  multi_inv m w R next -> items m !! p = Some (r0, s) -> is_Some (seq2item_ m !! s) -> assoc R s = Some r ->
  (forall x, x ∈ L -> lkey x r0 = lkey x r) ->
  exists w', erase ct TableName (lf_index <$> L) junk m w p = Ok (uncache_item m s, w') /\
    multi_inv (uncache_item m s) w' (drop_row s R) next /\ changes_only table_family w w'.
Proof using All.
  intros HI Ei Hc EA HK. destruct (erase_row m w R next s r HI EA) as (w1 & w2 & E1 & E2 & HI2 & HC).
  exists w2. split; [| done]. unfold erase. rewrite (erase_indices_loaded _ m w p s r0 Ei Hc).
  assert (forall X, X ⊆ L -> forall w0, each (fun d w => remove_from_index TableName junk d w s r0) (lf_index <$> X) w0 =
    each (fun d w => remove_from_index TableName junk d w s r) (lf_index <$> X) w0) as EE.
  { induction X as [| x X IH]; intros HX w0; [done |]. rewrite fmap_cons. cbn [each].
    assert (remove_from_index TableName junk (lf_index x) w0 s r0 = remove_from_index TableName junk (lf_index x) w0 s r) as ->.
    { unfold remove_from_index. by rewrite (HK x) by (apply HX; left). }
    destruct (remove_from_index _ _ _ _ _ _); cbn; [apply IH; set_solver | done..]. }
  rewrite EE, E1 by done. cbn [mbind res_bind]. unfold table_seq, get_item. rewrite Ei. cbn [mbind res_bind].
  by rewrite E2.
Qed.

(** *** The life of an object *)

(** Between objects: the counter is stored, and the rows and indices are in the state. *)
Definition table_state (w : world) (R : list (Z * T)) (next : Z) : Prop :=
  multi_inv (mkMulti [] ∅ (mkStorage TableName 0 next)) w R next /\
  exists o, has_value int_item int_item (uint_valid 64) w TableName o /\ default 0 o = next.

Lemma multi_new_spec w R next :
  table_state w R next ->
  exists m, multi_new TableName junk w = Ok m /\ multi_inv m w R next.
Proof using All.
  intros [HI (o & Ho & Eo)]. unfold multi_new.
  rewrite (init_at (c_uint 64) int_item (uint_valid 64) anything w TableName 0 junk o HTN Ho). cbn [mbind res_bind].
  rewrite Eo. by eexists.
Qed.

Lemma multi_end_spec m w R next :
  multi_inv m w R next ->
  exists w', multi_end m w = Ok w' /\ table_state w' R next /\ changes_only (fun kb => kb = seq_key) w w'.
Proof using All.
  intros HI. unfold multi_end. pose proof (mi_next _ _ _ _ HI) as Hn. rewrite (mi_seq _ _ _ _ HI).
  destruct (flush_at (c_uint 64) int_item (uint_valid 64) anything w (mkStorage TableName 0 next)) as (w' & E & HV & HC);
    [done | |].
  { apply seq_value_ok. cbn [t_]. unfold SEQ_LIMIT, uint_valid in *. lia. }
  cbn [name_ t_] in *. exists w'. split; [exact E |].
  assert (changes_only (fun kb => kb = seq_key) w w') as HC' by (intros kb Hkb; by apply HC).
  split; [| done]. split; [| by exists (Some next)].
  destruct HI. split; try done.
  - eapply table_ext; [exact mi_rows0 | done |]. intros s Hs. apply HC. intros E'.
    apply seq_not_row. exists s. split; [done |]. symmetry. exact E'.
  - intros x Hx. eapply index_inv_frame; [by apply mi_index0 | exact HC' |]. intros kb Hf ->. by apply (seq_not_index x).
Qed.

(** *** A program's use of a table *)

(** [find] and the comparison with [cend]: the iterator and whether it is at a row. *)
Definition find_checked (x : lawful) (m : MultiIndex T) (w : world) (k : ix_key (lf_index x))
    : res (iterator * bool * MultiIndex T) :=
  '(p, m1) ← find ct TableName dflt junk (lf_index x) m w k;
  let '(e, m2) := cend dflt m1 in
  b ← table_iter_eq m2 p e;
  Ok (p, negb b, m2).

(** The program keeps the iterators that [emplace] and [find] return, numbered from 0; [h]
    is one of them. *)
Inductive table_op : Type :=
| TEmplace (f : T -> T)
| TFind (x : lawful) (k : ix_key (lf_index x))
| TRead (h : nat)
| TSame (h h' : nat)
| TErase (h : nat)
| TModify (h : nat) (f : T -> T)
| TCount (x : lawful) (k : ix_key (lf_index x))
| TRows (fuel : nat)
| TIndexRows (fuel : nat) (x : lawful) (k : ix_key (lf_index x)).

Inductive table_out : Type := TDone | TFlag (b : bool) | TRow (r : T) | TNum (n : Z) | TList (l : list T).

Definition kept (hs : list iterator) (h : nat) : res iterator :=
  match hs !! h with Some p => Ok p | None => Undef "no such iterator" end.

Definition table_step (m : MultiIndex T) (hs : list iterator) (w : world) (o : table_op)
    : res (MultiIndex T * list iterator * world * table_out) :=
  match o with
  | TEmplace f =>
      '(p, b, m', w') ← emplace ct TableName (lf_index <$> L) dflt junk m w f; Ok (m', hs ++ [p], w', TFlag b)
  | TFind x k => '(p, b, m') ← find_checked x m w k; Ok (m', hs ++ [p], w, TFlag b)
  | TRead h => p ← kept hs h; '(r, m') ← table_deref ct TableName m w p; Ok (m', hs, w, TRow r)
  | TSame h h' => p ← kept hs h; p' ← kept hs h'; b ← table_iter_eq m p p'; Ok (m, hs, w, TFlag b)
  | TErase h => p ← kept hs h; '(m', w') ← erase ct TableName (lf_index <$> L) junk m w p; Ok (m', hs, w', TDone)
  | TModify h f =>
      p ← kept hs h; '(m', w') ← modify ct TableName (lf_index <$> L) m w p f; Ok (m', hs, w', TDone)
  | TCount x k => n ← count TableName junk (lf_index x) w k; Ok (m, hs, w, TNum n)
  | TRows fuel => '(l, m') ← rows ct TableName dflt fuel m w; Ok (m', hs, w, TList l)
  | TIndexRows fuel x k =>
      '(l, m') ← index_rows ct TableName dflt junk (lf_index x) fuel m w k; Ok (m', hs, w, TList l)
  end.

Fixpoint table_run (m : MultiIndex T) (hs : list iterator) (w : world) (os : list table_op)
    : res (MultiIndex T * world * list table_out) :=
  match os with
  | [] => Ok (m, w, [])
  | o :: os' =>
      '(m1, hs1, w1, out) ← table_step m hs w o;
      '(m2, w2, outs) ← table_run m1 hs1 w1 os'; Ok (m2, w2, out :: outs)
  end.

(** One transaction: the object is made, used and destroyed. *)
Definition table_session (w : world) (os : list table_op) : res (world * list table_out) :=
  m ← multi_new TableName junk w;
  '(m', w', outs) ← table_run m [] w os;
  w'' ← multi_end m' w'; Ok (w'', outs).

(** The same on a list of rows, the next number, and for each iterator the number of its row
    with the row as it was when the iterator was obtained ([None] for [cend]). *)
Record table_model := mkModel { md_rows : list (Z * T); md_next : Z; md_held : list (option (Z * T)) }.

Definition set_rows (M : table_model) (R : list (Z * T)) : table_model := mkModel R (md_next M) (md_held M).
Definition hold (M : table_model) (o : option (Z * T)) : table_model :=
  mkModel (md_rows M) (md_next M) (md_held M ++ [o]).
Definition held (M : table_model) (h : nat) : option (Z * T) := default None (md_held M !! h).

Definition rows_step (M : table_model) (o : table_op) : table_model * table_out :=
  let R := md_rows M in
  match o with
  | TEmplace f =>
      if conflict L R (f dflt) then (hold M None, TFlag false)
      else (mkModel (R ++ [(md_next M, f dflt)]) (md_next M + 1) (md_held M ++ [Some (md_next M, f dflt)]), TFlag true)
  | TFind x k =>
      let o := head (matching (lkey x) R k) in (hold M o, TFlag (bool_decide (is_Some o)))
  | TRead h => match held M h with Some (_, r) => (M, TRow r) | None => (M, TDone) end
  | TSame h h' =>
      match held M h, held M h' with
      | Some (s, _), Some (s', _) => (M, TFlag (s =? s'))
      | _, _ => (M, TDone)
      end
  | TErase h => match held M h with Some (s, _) => (set_rows M (drop_row s R), TDone) | None => (M, TDone) end
  | TModify h f =>
      match held M h with
      | Some (s, r) => (if same_keys (lf_index <$> L) r (f r) then set_rows M (replace_row s (f r) R) else M, TDone)
      | None => (M, TDone)
      end
  | TCount x k => (M, TNum (u32 (len (matching (lkey x) R k))))
  | TRows _ => (M, TList (snd <$> R))
  | TIndexRows _ x k => (M, TList (snd <$> matching (lkey x) R k))
  end.

Fixpoint rows_run (M : table_model) (os : list table_op) : table_model * list table_out :=
  match os with
  | [] => (M, [])
  | o :: os' => let '(M1, out) := rows_step M o in let '(M2, outs) := rows_run M1 os' in (M2, out :: outs)
  end.

(** The iterator is at a row that is still in the table. *)
Definition live (M : table_model) (h : nat) : Prop :=
  exists s r, held M h = Some (s, r) /\ is_Some (assoc (md_rows M) s).

(** Rows fit the state, keys are asked of indices of the table of the right kind, iterators
    used are at rows not erased, loops have fuel for the rows there are. *)
Definition table_op_ok (M : table_model) (o : table_op) : Prop :=
  match o with
  | TEmplace f => row_fits (f dflt) /\ md_next M < SEQ_LIMIT
  | TFind x k => x ∈ L /\ unique (lf_index x) = true /\ key_fits x k
  | TRead h | TErase h => live M h
  | TSame h h' => live M h /\ live M h'
  | TModify h f => live M h /\ (forall r, rvalue_ok r -> rvalue_ok (f r))
  | TCount x k => x ∈ L /\ key_fits x k
  | TRows fuel => (length (md_rows M) < fuel)%nat
  | TIndexRows fuel x k =>
      x ∈ L /\ unique (lf_index x) = false /\ key_fits x k /\ (length (matching (lkey x) (md_rows M) k) < fuel)%nat
  end.

Fixpoint table_ops_ok (M : table_model) (os : list table_op) : Prop :=
  match os with [] => True | o :: os' => table_op_ok M o /\ table_ops_ok (fst (rows_step M o)) os' end.

Lemma find_checked_spec x m w R next k :
  multi_inv m w R next -> x ∈ L -> unique (lf_index x) = true -> key_fits x k ->
  exists p m', find_checked x m w k = Ok (p, bool_decide (is_Some (head (matching (lkey x) R k))), m') /\
    multi_inv m' w R next /\ keeps m m' /\
    match head (matching (lkey x) R k) with
    | Some (s, r) => items m' !! p = Some (r, s) /\ is_Some (seq2item_ m' !! s) /\ assoc R s = Some r
    | None => True
    end.
Proof using All.
  intros HI Hx Hu Hk. unfold find_checked.
  destruct (find_spec x m w R next k HI Hx Hu Hk) as (p & m1 & E1 & HI1 & HP). rewrite E1. apply find_keeps in E1.
  cbn [mbind res_bind]. destruct (cend_good m1 w R next HI1) as [HI2 (oe & Ee & _)].
  destruct (cend dflt m1) as [e m2] eqn:Ec. cbn [fst snd] in *. pose proof (cend_keeps _ _ _ Ec) as HK2.
  assert (keeps m m2) as HK by by eapply keeps_then.
  unfold cend, make_item in Ec. injection Ec as <- <-.
  destruct (head (matching (lkey x) R k)) as [[s r] |].
  - destruct HP as (Ei & Hc & EA). pose proof (assoc_below _ _ _ _ HI s ltac:(by eexists)) as Hs.
    unfold table_iter_eq, table_seq, get_item. rewrite Ee. cbn [items].
    rewrite (lookup_app_l_Some _ _ _ _ Ei). cbn [mbind res_bind]. destruct (Z.eqb_spec s next); [lia |].
    rewrite bool_decide_eq_true_2 by by eexists. eexists _, _. split; [done |]. split; [done |]. split; [done |].
    split; [by apply lookup_app_l_Some | done].
  - destruct HP as (obj & Ei & _). unfold table_iter_eq, table_seq, get_item. rewrite Ee. cbn [items].
    rewrite (lookup_app_l_Some _ _ _ _ Ei). cbn [mbind res_bind]. rewrite Z.eqb_refl.
    rewrite bool_decide_eq_false_2 by (by intros [? ?]). by eexists _, _.
Qed.

(** *** The iterators a program keeps *)

(** The iterator is at the row numbered [s], or that row is gone; its item is loaded and holds
    the row the model remembers, whose keys are those of the row in the table. *)
Definition holds_row (m : MultiIndex T) (R : list (Z * T)) (next : Z) (p : iterator) (o : option (Z * T)) : Prop :=
  match o with
  | None => True
  | Some (s, r0) =>
      s < next /\ forall r, assoc R s = Some r ->
        items m !! p = Some (r0, s) /\ is_Some (seq2item_ m !! s) /\
        (forall x, x ∈ L -> lkey x r0 = lkey x r) /\ rvalue_ok r0
  end.

Definition model_inv (m : MultiIndex T) (hs : list iterator) (w : world) (M : table_model) : Prop :=
  multi_inv m w (md_rows M) (md_next M) /\ Forall2 (holds_row m (md_rows M) (md_next M)) hs (md_held M).

Lemma holds_frame m m' R R' next next' hs hd :
  (forall p r s, is_Some (assoc R' s) -> items m !! p = Some (r, s) -> is_Some (seq2item_ m !! s) ->
     items m' !! p = Some (r, s) /\ is_Some (seq2item_ m' !! s)) ->
  next <= next' ->
  (forall s r', s < next -> assoc R' s = Some r' ->
     exists r, assoc R s = Some r /\ forall x, x ∈ L -> lkey x r = lkey x r') ->
  Forall2 (holds_row m R next) hs hd -> Forall2 (holds_row m' R' next') hs hd.
Proof using Type.
  intros HK Hn HR HF. eapply Forall2_impl; [exact HF |]. intros p [[s r0] |]; [| done]. intros [Hs HX]. split; [lia |].
  intros r' Er'. destruct (HR s r' Hs Er') as (r & Er & EK). destruct (HX r Er) as (Ei & Hc & EK0 & Hv).
  destruct (HK p r0 s ltac:(by eexists) Ei Hc). do 2 (split; [done |]). split; [| done].
  intros x Hx. by rewrite EK0, EK.
Qed.

Lemma holds_keeps m m' R next hs hd :
  keeps m m' -> Forall2 (holds_row m R next) hs hd -> Forall2 (holds_row m' R next) hs hd.
Proof using Type.
  intros HK. apply holds_frame; [by intros p r s _; apply HK | done |]. intros s r _ E. by exists r.
Qed.

Lemma emplace_cached m w f p m' w' :
  emplace ct TableName (lf_index <$> L) dflt junk m w f = Ok (p, true, m', w') ->
  is_Some (seq2item_ m' !! storage_get (seq_ m)).
Proof using Type.
  unfold emplace. destruct (make_item _ _ _) as [item m1]. intros (c & _ & HO)%bind_ok. destruct c.
  - by destruct (cend dflt _).
  - apply bind_ok in HO as (w1 & _ & HO). apply bind_ok in HO as (w2 & _ & [= _ <- _]).
    cbn [cache_item seq2item_]. rewrite lookup_insert_eq. by eexists.
Qed.

Lemma row_value m w R next s r : multi_inv m w R next -> assoc R s = Some r -> rvalue_ok r.
Proof using Type.
  intros HI EA. assert (row_fits r) as [Hr _]; [| done]. apply (mi_fits _ _ _ _ HI). apply list_elem_of_fmap.
  exists (s, r). split; [done |]. by apply (assoc_in _ _ _ (mi_nodup _ _ _ _ HI)).
Qed.

(** What a kept iterator at a row of the table is. *)
Lemma live_item m hs w M h :
  model_inv m hs w M -> live M h ->
  exists p s r0 r, kept hs h = Ok p /\ held M h = Some (s, r0) /\ assoc (md_rows M) s = Some r /\
    items m !! p = Some (r0, s) /\ is_Some (seq2item_ m !! s) /\ (forall x, x ∈ L -> lkey x r0 = lkey x r) /\ rvalue_ok r0.
Proof using Type.
  intros [HI HF] (s & r0 & Eh & r & Er). unfold held in Eh.
  destruct (md_held M !! h) as [o |] eqn:EH; [| done]. cbn in Eh. subst o.
  destruct (Forall2_lookup_r _ _ _ _ _ HF EH) as (p & Ep & _ & HX). exists p, s, r0, r. unfold kept, held. rewrite Ep, EH.
  by split_and!; try apply (HX r Er).
Qed.

Lemma emplace_step m hs w M f :
  model_inv m hs w M -> row_fits (f dflt) -> md_next M < SEQ_LIMIT ->
  exists m' hs' w', table_step m hs w (TEmplace f) = Ok (m', hs', w', snd (rows_step M (TEmplace f))) /\
    model_inv m' hs' w' (fst (rows_step M (TEmplace f))) /\ changes_only table_family w w'.
Proof using All.
  intros [HI HF] Hr Hn. cbn [table_step rows_step]. destruct (conflict L (md_rows M) (f dflt)) eqn:EC.
  - destruct (emplace_refused m w _ _ f HI Hr EC) as (p & m' & E & HI' & _). rewrite E. apply emplace_keeps in E.
    exists m', (hs ++ [p]), w. split; [done |]. split; [| done]. split; [done |].
    apply Forall2_app; [by apply (holds_keeps m) | by constructor].
  - destruct (emplace_added m w _ _ f HI Hr Hn EC) as (p & m' & w' & E & HI' & Ei & HC). rewrite E.
    pose proof (emplace_cached _ _ _ _ _ _ E) as Hc. unfold storage_get in Hc. rewrite (mi_seq _ _ _ _ HI) in Hc. cbn [t_] in Hc.
    apply emplace_keeps in E. exists m', (hs ++ [p]), w'. split; [done |]. split; [| done]. split; [done |].
    cbn [fst md_rows md_next md_held]. assert (assoc (md_rows M) (md_next M) = None) as EN.
    { destruct (assoc (md_rows M) (md_next M)) eqn:EA; [| done].
      pose proof (assoc_below m w _ _ HI (md_next M) ltac:(by eexists)). lia. }
    apply Forall2_app.
    + apply (holds_frame m m' (md_rows M) _ (md_next M)); [by intros q r s _; apply E | lia | | done].
      intros s r' Hs. rewrite assoc_app. cbn [assoc]. rewrite decide_False by lia.
      intros EA. exists r'. by destruct (assoc (md_rows M) s).
    + constructor; [| done]. split; [lia |]. intros r. rewrite assoc_app, EN. cbn [assoc]. rewrite decide_True by done.
      intros [= <-]. do 3 (split; [done |]). apply Hr.
Qed.

Lemma erase_step m hs w M h :
  model_inv m hs w M -> live M h ->
  exists m' hs' w', table_step m hs w (TErase h) = Ok (m', hs', w', snd (rows_step M (TErase h))) /\
    model_inv m' hs' w' (fst (rows_step M (TErase h))) /\ changes_only table_family w w'.
Proof using All.
  intros HM Hl. destruct (live_item m hs w M h HM Hl) as (p & s & r0 & r & Ep & Eh & EA & Ei & Hc & EK & _).
  destruct HM as [HI HF]. cbn [table_step rows_step]. rewrite Ep, Eh. cbn [mbind res_bind].
  destruct (erase_loaded m w _ _ p s r0 r HI Ei Hc EA EK) as (w' & -> & HI' & HC). cbn [mbind res_bind].
  eexists _, hs, w'. split; [done |]. split; [| done]. split; [done |]. cbn [fst set_rows md_rows md_next md_held].
  apply (holds_frame m _ (md_rows M) _ (md_next M)); [| done | | done].
  - intros q r1 s1 Hs1 Ei1 Hc1. split; [done |]. cbn [uncache_item seq2item_]. rewrite assoc_drop in Hs1.
    destruct (decide (s1 = s)); [by destruct Hs1 | by rewrite lookup_delete_ne].
  - intros s1 r1 _. rewrite assoc_drop. destruct (decide (s1 = s)); [done |]. intros E1. by exists r1.
Qed.

Lemma modify_step m hs w M h f :
  model_inv m hs w M -> live M h -> (forall r, rvalue_ok r -> rvalue_ok (f r)) ->
  exists m' hs' w', table_step m hs w (TModify h f) = Ok (m', hs', w', snd (rows_step M (TModify h f))) /\
    model_inv m' hs' w' (fst (rows_step M (TModify h f))) /\ changes_only table_family w w'.
Proof using All.
  intros HM Hl Hf. destruct (live_item m hs w M h HM Hl) as (p & s & r0 & r & Ep & Eh & EA & Ei & Hc & EK & Hv).
  destruct HM as [HI HF]. cbn [table_step rows_step]. rewrite Ep, Eh. cbn [mbind res_bind].
  destruct (modify_loaded m w _ _ p s r0 r f HI Ei Hc EA EK) as (m' & w' & E & HC & _ & _ & HI'); [by intros _; apply Hf |].
  rewrite E. apply modify_keeps in E. exists m', hs, w'. split; [done |]. split; [| done].
  destruct (same_keys (lf_index <$> L) r0 (f r0)) eqn:ES; cbn [fst set_rows]; [| split; [done | by apply (holds_keeps m)]].
  split; [done |]. cbn [set_rows md_rows md_next md_held].
  apply (holds_frame m _ (md_rows M) _ (md_next M)); [by intros q r1 s1 _; apply E | done | | done].
  intros s1 r1 _. rewrite assoc_replace by by eexists. destruct (decide (s1 = s)) as [-> |]; [| intros E1; by exists r1].
  intros [= <-]. exists r. split; [done |]. intros x Hx. rewrite <- EK by done. by apply (same_keys_all L r0 (f r0) ES).
Qed.

Lemma table_step_spec m hs w M o :
  model_inv m hs w M -> table_op_ok M o ->
  exists m' hs' w', table_step m hs w o = Ok (m', hs', w', snd (rows_step M o)) /\
    model_inv m' hs' w' (fst (rows_step M o)) /\ changes_only table_family w w'.
Proof using All.
  intros HM Ho. assert (changes_only table_family w w) as HC0 by done.
  destruct o as [f | x k | h | h h' | h | h f | x k | fuel | fuel x k]; cbn [table_op_ok] in Ho.
  - destruct Ho. by apply emplace_step.
  - destruct Ho as (Hx & Hu & Hk), HM as [HI HF]. cbn [table_step rows_step].
    destruct (find_checked_spec x m w _ _ k HI Hx Hu Hk) as (p & m1 & -> & HI1 & HK & HP).
    exists m1, (hs ++ [p]), w. split; [done |]. split; [| done]. split; [done |]. cbn [fst hold md_rows md_next md_held].
    apply Forall2_app; [by apply (holds_keeps m) |]. constructor; [| done].
    destruct (head (matching (lkey x) (md_rows M) k)) as [[s r] |]; [| done]. destruct HP as (Ei & Hc & EA).
    split; [by apply (assoc_below _ _ _ _ HI s); eexists |]. rewrite EA. intros r' [= <-].
    do 3 (split; [done |]). by apply (row_value m w _ _ s r HI).
  - destruct (live_item m hs w M h HM Ho) as (p & s & r0 & r & Ep & Eh & EA & Ei & Hc & _). cbn [table_step rows_step].
    rewrite Ep, Eh. cbn [mbind res_bind]. rewrite (deref_loaded m w p s r0 Ei Hc). by exists m, hs, w.
  - destruct Ho as [Ho Ho']. destruct (live_item m hs w M h HM Ho) as (p & s & r0 & r & Ep & Eh & _ & Ei & _).
    destruct (live_item m hs w M h' HM Ho') as (p' & s' & r0' & r' & Ep' & Eh' & _ & Ei' & _). cbn [table_step rows_step].
    rewrite Ep, Ep', Eh, Eh'. cbn [mbind res_bind]. unfold table_iter_eq, table_seq, get_item. rewrite Ei, Ei'.
    by exists m, hs, w.
  - by apply erase_step.
  - destruct Ho. by apply modify_step.
  - destruct Ho as (Hx & Hk), HM as [HI HF]. cbn [table_step rows_step]. rewrite (count_spec' x m w _ _ k HI Hx Hk). by exists m, hs, w.
  - destruct HM as [HI HF]. cbn [table_step rows_step].
    assert (exists m', rows ct TableName dflt fuel m w = Ok (snd <$> md_rows M, m') /\ multi_inv m' w (md_rows M) (md_next M))
      as (m' & E & HI').
    { unfold rows. destruct (cbegin_spec m w _ _ HI) as (p & m1 & -> & HI1 & HG). cbn [mbind res_bind].
      by apply (rows_from_spec w (md_next M) fuel m1 [] (md_rows M) p HI1 HG Ho). }
    rewrite E. apply rows_keeps in E. exists m', hs, w. split; [done |]. split; [| done]. split; [done | by apply (holds_keeps m)].
  - destruct Ho as (Hx & Hu & Hk & HFu), HM as [HI HF]. cbn [table_step rows_step].
    destruct (index_rows_spec x m w _ _ k fuel HI Hx Hu Hk HFu) as (m' & E & HI'). rewrite E. apply index_rows_keeps in E.
    exists m', hs, w. split; [done |]. split; [| done]. split; [done | by apply (holds_keeps m)].
Qed.

Lemma table_run_spec os : forall m hs w M,
  model_inv m hs w M -> table_ops_ok M os ->
  exists m' w', table_run m hs w os = Ok (m', w', snd (rows_run M os)) /\
    multi_inv m' w' (md_rows (fst (rows_run M os))) (md_next (fst (rows_run M os))) /\
    changes_only table_family w w'.
Proof using All.
  induction os as [| o os IH]; intros m hs w M HM HOs; [destruct HM; by exists m, w |]. destruct HOs as [Ho HOs].
  destruct (table_step_spec m hs w M o HM Ho) as (m1 & hs1 & w1 & E1 & HM1 & HC1). cbn [table_run rows_run].
  rewrite E1. cbn [mbind res_bind]. destruct (rows_step M o) as [M1 out]. cbn [fst snd] in *.
  destruct (IH m1 hs1 w1 M1 HM1 HOs) as (m2 & w2 & E2 & HI2 & HC2). rewrite E2. cbn [mbind res_bind].
  destruct (rows_run M1 os) as [M2 outs]. cbn [fst snd] in *. exists m2, w2.
  split; [done |]. split; [done |]. eapply changes_only_weaken; [| eapply changes_only_trans; [exact HC1 | exact HC2]].
  intros kb [? | ?]; done.
Qed.

(** ** Properties *)

(** C6. A multi-index table is a list of rows. In a transaction that makes the table object and
    then, in any order, calls emplace (with its check of the unique indices), find by a unique
    index, count by any index, erase, modify, loops over the rows and loops over the rows of a
    key of a non-unique index, and that keeps every iterator that emplace and find return, to
    read, compare, erase or modify through it at any later point, every answer is the one the
    list gives; the rows the transaction leaves are found by the next one, and no key of the
    state outside the table changes. An iterator remembers the row as it was when obtained:
    [*it] shows that row, and [modify] starts from it, even when another iterator has changed
    the row since (the earlier change is then lost, see modify_twice_loses_first).
    The limits: rows and keys that fit the state, fewer than 2^63 rows ever added, no use
    of an iterator that is at [cend] or whose row has been erased, and none of an iterator of a
    loop outside its loop ([index_erase_correct] is about erase through one of an index). *)
Theorem table_session_correct (w : world) (R : list (Z * T)) (next : Z) (os : list table_op) :
  table_state w R next -> table_ops_ok (mkModel R next []) os ->
  let '(M, outs) := rows_run (mkModel R next []) os in
  exists w', table_session w os = Ok (w', outs) /\ table_state w' (md_rows M) (md_next M) /\
    changes_only (fun kb => table_family kb \/ kb = seq_key) w w'.
Proof using All.
  intros HS0 HOs. unfold table_session. destruct (multi_new_spec w R next HS0) as (m & -> & HI). cbn [mbind res_bind].
  destruct (table_run_spec os m [] w (mkModel R next [])) as (m1 & w1 & E1 & HI1 & HC1); [by split | done |].
  rewrite E1. destruct (rows_run _ os) as [M outs]. cbn [mbind res_bind fst snd] in *.
  destruct (multi_end_spec m1 w1 _ _ HI1) as (w2 & -> & HS2 & HC2). exists w2.
  split; [done |]. split; [done | by eapply changes_only_trans].
Qed.

(** Two changes through one iterator: the first is lost. [modify] puts a new item in
    the cache and leaves the iterator's own item as it was, so the second [modify] starts
    from the old row, although the first one was written. *)
Theorem modify_twice_loses_first (m : MultiIndex T) w R next p s r f g :
  multi_inv m w R next -> good m R p s -> assoc R s = Some r ->
  same_keys (lf_index <$> L) r (f r) = true -> same_keys (lf_index <$> L) r (g r) = true ->
  rvalue_ok (f r) -> rvalue_ok (g r) ->
  exists m1 w1 m2 w2, modify ct TableName (lf_index <$> L) m w p f = Ok (m1, w1) /\
    multi_inv m1 w1 (replace_row s (f r) R) next /\
    modify ct TableName (lf_index <$> L) m1 w1 p g = Ok (m2, w2) /\
    multi_inv m2 w2 (replace_row s (g r) (replace_row s (f r) R)) next.
Proof using All.
  intros HI HG EA Ef Eg Hf Hg.
  destruct (modify_spec m w R next p s r f HI HG EA (fun _ => Hf)) as (m1 & w1 & E1 & _ & Ei1 & Hc1 & HI1).
  rewrite Ef in HI1.
  assert (assoc (replace_row s (f r) R) s = Some (f r)) as EA1.
  { rewrite assoc_replace by (by eexists). by rewrite decide_True. }
  destruct (modify_loaded m1 w1 _ next p s r (f r) g HI1 Ei1 Hc1 EA1) as (m2 & w2 & E2 & _ & _ & _ & HI2).
  { intros x Hx. by apply (same_keys_all L r (f r)). } { by intros _. }
  rewrite Eg in HI2. by exists m1, w1, m2, w2.
Qed.

(** C40. Erasing through an iterator of a non-unique index that is the last one of the table:
    from the first row of a key the iterator is advanced to the [n]-th, and [erase] takes
    exactly that row out of the rows, of every index and of the cache, keeping the invariant
    of the object, and touches no key of the state outside the table. *)
Theorem index_erase_correct x X m w R next k n s r :
  L = X ++ [x] -> unique (lf_index x) = false -> multi_inv m w R next ->
  matching (lkey x) R k !! n = Some (s, r) ->
  exists it0 it m' w',
    index_cbegin (ix_codec (lf_index x)) TableName (lname x) junk junk w k = Ok it0 /\
    index_advance (ix_codec (lf_index x)) TableName (lname x) junk junk w n it0 = Ok it /\
    index_erase ct TableName (lf_index <$> L) dflt junk (lf_index x) m w it = Ok (m', w') /\
    multi_inv m' w' (drop_row s R) next /\ changes_only table_family w w'.
Proof using All. apply index_erase_spec. Qed.

(** With another index after the one iterated, [erase] reads [*position] again when the
    iterated index has already lost the row: if the row was alone under its key, the read is
    out of the range of the segment's vector. *)
Theorem index_erase_undefined x y X Y m w R next k s r :
  L = X ++ x :: y :: Y -> unique (lf_index x) = false -> multi_inv m w R next ->
  matching (lkey x) R k = [(s, r)] ->
  exists it, index_cbegin (ix_codec (lf_index x)) TableName (lname x) junk junk w k = Ok it /\
    index_seq TableName junk (lf_index x) w it = Ok s /\
    index_erase ct TableName (lf_index <$> L) dflt junk (lf_index x) m w it = Undef "vector index out of range".
Proof using All.
  intros EL Hu HI Hm. pose proof (mi_nodup _ _ _ _ HI) as HN. pose proof (lf_laws x) as HLx.
  destruct (index_erase_reaches x X (y :: Y) m w R next k 0 s r EL Hu HI)
    as (it & m1 & w1 & p & E0 & E1 & Es & HI1 & Ei & Hc & EX & HCX & Es1 & EE); [by rewrite Hm |].
  injection E1 as <-. exists (mkIndexIter k HEADSERIAL 0). split; [exact E0 |]. split; [exact Es |].
  assert (x ∈ L) as Hx by (rewrite EL; apply elem_of_app; right; left).
  assert ((s, r) ∈ R /\ lkey x r = k) as [Hin Ek] by (apply elem_of_matching; rewrite Hm; left).
  assert (key_fits x (lkey x r)) as Hk by (apply (row_key_fits m w R next s); [done | by apply (assoc_in _ _ _ HN) | done]).
  assert (index_inv x w1 R) as HIx.
  { eapply index_inv_frame; [by apply (mi_index _ _ _ _ HI) | exact HCX |]. intros kb Hf (z & Hz & Hfz).
    rewrite EL, fmap_app, fmap_cons in HNames. apply NoDup_app in HNames as (_ & HD & _).
    apply (HD (lname z)); [apply list_elem_of_fmap; by exists z | rewrite (families_disjoint z x kb Hfz Hf); left]. }
  destruct (remove_from_index_spec x junk w1 R s r HIx Hk HN Hin) as (w2 & E2 & HI2 & _).
  unfold index_erase. rewrite Es. cbn [mbind res_bind]. rewrite EE. cbn [fmap list_fmap index_erase_indices].
  rewrite (index_deref_loaded x m1 w1 _ p s r Ei Hc Es1). cbn [mbind res_bind]. rewrite E2. cbn [mbind res_bind].
  unfold index_inv in HI2. unfold key_fits in Hk. rewrite Hu in HI2, Hk.
  assert (index_seq TableName junk (lf_index x) w2 (mkIndexIter k HEADSERIAL 0) = Undef "vector index out of range") as EU.
  { unfold index_seq.
    rewrite (get_seq_empty (ix_codec (lf_index x)) (lf_tree x) (lf_valid x) (lf_sized x) TableName (lname x) junk junk w2 _ k 0 HI2);
      [reflexivity | by rewrite <- Ek |]. by rewrite matching_drop, Hm, fmap_cons, without_cons_eq. }
  unfold index_deref. by rewrite EU.
Qed.
End Object.
End Table.

(** *** Concrete runs: a table "1" of pairs, unique index "1" on the first member,
    non-unique indices "2" on the second without its last digit and "3" on the first *)

#[local] Existing Instance host_rlp.
#[local] Existing Instance host_rlp_laws.
#[local] Existing Instance host_state.
#[local] Existing Instance host_state_laws.

Definition pair_codec : codec (Z * Z) :=
  c_view (fun r => (fst r, (snd r, tt))) (fun x => (fst x, fst (snd x)))
         (c_struct (fields_cons (c_uint 64) (fields_cons (c_uint 64) fields_nil))).
Definition pair_tree (r : Z * Z) : item := Lst [int_item (fst r); int_item (snd r)].
Definition pair_valid (r : Z * Z) : Prop := uint_valid 64 (fst r) /\ uint_valid 64 (snd r) /\ True.
Definition pair_sized (r : Z * Z) : Prop := True /\ True /\ True.

#[local] Instance pair_laws : CodecLaws pair_codec pair_tree pair_valid pair_sized.
Proof.
  refine (c_view_laws (c_struct (fields_cons (c_uint 64) (fields_cons (c_uint 64) fields_nil))) _ _ _
           (fun r => (fst r, (snd r, tt))) _ _).
  by intros [a b].
Qed.

Definition by_first : lawful (T := Z * Z) :=
  mkLawful (mkIndex (Z * Z) Z _ (c_uint 64) 1 true fst) int_item (uint_valid 64) anything _.
Definition by_second : lawful (T := Z * Z) :=
  mkLawful (mkIndex (Z * Z) Z _ (c_uint 64) 2 false (fun r => snd r / 10)) int_item (uint_valid 64) anything _.

Definition by_third : lawful (T := Z * Z) :=
  mkLawful (mkIndex (Z * Z) Z _ (c_uint 64) 3 false fst) int_item (uint_valid 64) anything _.

Abbreviation demo_indices := [by_first; by_second].
Abbreviation demo_known := [by_first; by_second; by_third].
Abbreviation demo_table X := (table_state pair_tree pair_valid 1 X).

Lemma demo_names : NoDup ((fun x => index_name (lf_index x)) <$> demo_indices).
Proof. apply (bool_decide_unpack _); vm_compute; reflexivity. Qed.

Lemma demo_known_two : demo_indices ⊆ demo_known.
Proof. intros x. rewrite !elem_of_cons. tauto. Qed.

Lemma demo_key_first k : uint_valid 64 k -> key_fits 1 by_first k.
Proof.
  intros Hk. unfold key_fits. cbn. split; [do 3 (split; [done |]); done |].
  change (cost (Lst [int_item 1; int_item 1; int_item k]) < RLP_LIMIT). rewrite cost_list. unfold total_cost. cbn [foldr].
  pose proof (int_item_cost k Hk). pose proof (int_item_cost 1 ltac:(done)). unfold RLP_LIMIT, SIZE_MAX. lia.
Qed.

Lemma demo_key_second k : uint_valid 64 k -> key_fits 1 by_second k.
Proof. exact (demo_value k). Qed.

Lemma demo_key_third k : uint_valid 64 k -> key_fits 1 by_third k.
Proof.
  intros Hk s Hs. split; [do 4 (split; [done |]); done |].
  change (cost (Lst [int_item 1; int_item 3; int_item k; int_item s]) < RLP_LIMIT).
  rewrite cost_list. unfold total_cost. cbn [foldr].
  pose proof (int_item_cost k Hk). pose proof (int_item_cost s Hs).
  pose proof (int_item_cost 1 ltac:(done)). pose proof (int_item_cost 3 ltac:(done)).
  unfold RLP_LIMIT, SIZE_MAX. lia.
Qed.

Lemma demo_row X a b :
  X ⊆ demo_known -> uint_valid 64 a -> uint_valid 64 b -> row_fits pair_tree pair_valid 1 X (a, b).
Proof.
  intros HX Ha Hb. split.
  - split; [by split; [| split] |]. unfold pair_tree. rewrite cost_list. unfold total_cost. cbn [foldr fst snd].
    pose proof (int_item_cost a Ha). pose proof (int_item_cost b Hb). unfold RLP_LIMIT, SIZE_MAX. lia.
  - intros x [-> | [-> | [-> | []%not_elem_of_nil]%elem_of_cons]%elem_of_cons]%HX%elem_of_cons;
      [by apply demo_key_first | apply demo_key_second | by apply demo_key_third].
    unfold uint_valid in *. cbn. split; [apply Z.div_pos; lia | apply Z.div_lt_upper_bound; lia].
Qed.

Lemma demo_table_empty X : X ⊆ demo_known -> demo_table X (∅ : @world host_state) [] 0.
Proof.
  intros HX.
  assert (forall kb, contents (∅ : @world host_state) kb = []) as HE by (intros kb; simpl; by rewrite lookup_empty).
  split; [| exists None; split; [apply HE | done]].
  split; try done.
  - constructor.
  - by intros s ?%not_elem_of_nil.
  - by intros r ?%not_elem_of_nil.
  - intros x [-> | [-> | [-> | []%not_elem_of_nil]%elem_of_cons]%elem_of_cons]%HX%elem_of_cons; unfold index_inv; cbn.
    + split; [intros k _; apply HE | lia].
    + apply index_holds_empty. intros k _. apply HE.
    + apply index_holds_empty. intros k _. apply HE.
Qed.

Lemma demo_step M M1 out o os :
  table_op_ok pair_tree pair_valid 1 demo_indices (0, 0) M o ->
  rows_step demo_indices (0, 0) M o = (M1, out) ->
  table_ops_ok pair_tree pair_valid 1 demo_indices (0, 0) M1 os ->
  table_ops_ok pair_tree pair_valid 1 demo_indices (0, 0) M (o :: os).
Proof. intros Ho E HOs. cbn [table_ops_ok]. by rewrite E. Qed.

Lemma demo_op M o :
  match o with
  | TEmplace f => uint_valid 64 (fst (f (0, 0))) /\ uint_valid 64 (snd (f (0, 0))) /\ md_next M < SEQ_LIMIT
  | TModify h f => live M h /\ (forall r, exists a b, f r = (a, b) /\ uint_valid 64 a /\ uint_valid 64 b)
  | TFind x k => x = by_first /\ key_fits 1 x k
  | TRead h | TErase h => live M h
  | TSame h h' => live M h /\ live M h'
  | TCount x k => x ∈ demo_indices /\ key_fits 1 x k
  | TRows fuel => (length (md_rows M) < fuel)%nat
  | TIndexRows fuel x k =>
      x = by_second /\ key_fits 1 x k /\
      (length (matching (extract_secondary_key (lf_index x)) (md_rows M) k) < fuel)%nat
  end -> table_op_ok pair_tree pair_valid 1 demo_indices (0, 0) M o.
Proof.
  destruct o; cbn [table_op_ok]; try done.
  - intros (Ha & Hb & Hn). destruct (f (0, 0)) as [a b]. split; [by apply (demo_row demo_indices _ _ demo_known_two) | done].
  - intros [-> Hk]. split; [left | done].
  - intros (Hl & Hf). split; [done |]. intros r _. destruct (Hf r) as (a & b & -> & Ha & Hb).
    by apply (demo_row demo_indices a b demo_known_two).
  - intros (-> & Hk & HF). split; [right; left | done].
Qed.

(** Two rows are added and a third refused; the iterators of the first row, kept from [emplace]
    and got by [find], change it one after the other, so that the first change is lost. *)
Lemma table_session_correct_witness :
  let os := [TEmplace (fun _ => (5, 70)); TEmplace (fun _ => (6, 70)); TEmplace (fun _ => (5, 80));
             TFind by_first 5; TSame 0 3; TModify 3 (fun _ => (5, 71)); TRead 0; TFind by_first 5; TRead 4;
             TModify 0 (fun _ => (5, 70)); TIndexRows 3 by_second 7; TErase 4;
             TCount by_second 7; TFind by_first 5; TRead 1; TRows 2] in
  snd (rows_run demo_indices (0, 0) (mkModel [] 0 []) os)
    = [TFlag true; TFlag true; TFlag false; TFlag true; TFlag true; TDone; TRow (5, 70); TFlag true; TRow (5, 71);
       TDone; TList [(5, 70); (6, 70)]; TDone; TNum 1; TFlag false; TRow (6, 70); TList [(6, 70)]] /\
  let '(M, outs) := rows_run demo_indices (0, 0) (mkModel [] 0 []) os in
  exists w' : @world host_state,
    table_session pair_codec 1 demo_indices (0, 0) 0 (∅ : @world host_state) os = Ok (w', outs) /\
    demo_table demo_indices w' (md_rows M) (md_next M) /\
    changes_only (fun kb => table_family 1 demo_indices kb \/ kb = seq_key 1) (∅ : @world host_state) w'.
Proof.
  split; [vm_compute; reflexivity |].
  apply (table_session_correct pair_codec pair_tree pair_valid pair_sized 1 ltac:(done) demo_indices demo_names (0, 0) 0).
  - exact (demo_table_empty _ demo_known_two).
  - repeat (eapply demo_step; [apply demo_op | vm_compute; reflexivity |]); [.. | exact I];
      cbn [fst snd]; unfold SEQ_LIMIT, uint_valid; repeat (apply conj);
      try (by apply demo_key_first); try (by apply demo_key_second); try lia; try reflexivity;
      try (by intros _; eexists _, _); try (by eexists _, _; split; [reflexivity | eexists]);
      try (by right; left); try (vm_compute; lia).
Defined.

(** A row added to a table with some of the indices. *)
Lemma demo_add X m (w : @world host_state) R next a b :
  X ⊆ demo_known -> NoDup ((fun x => index_name (lf_index x)) <$> X) ->
  multi_inv pair_tree pair_valid 1 X m w R next -> uint_valid 64 a -> uint_valid 64 b -> next < SEQ_LIMIT ->
  conflict X R (a, b) = false ->
  exists p m' (w' : @world host_state), multi_inv pair_tree pair_valid 1 X m' w' (R ++ [(next, (a, b))]) (next + 1) /\
    items m' !! p = Some ((a, b), next).
Proof.
  intros HX HN HI Ha Hb Hn HC.
  destruct (emplace_added pair_codec pair_tree pair_valid pair_sized 1 ltac:(done) X HN (0, 0) 0 m w R next
    (fun _ => (a, b)) HI (demo_row _ a b HX Ha Hb) Hn HC) as (p & m' & w' & _ & HI' & Ei & _).
  by exists p, m', w'.
Qed.

(** One row of such a table, stored by this object; two rows with the same second member. *)
Lemma demo_one_row X :
  X ⊆ demo_known -> NoDup ((fun x => index_name (lf_index x)) <$> X) -> conflict X [] (5, 70) = false ->
  exists m (w : @world host_state) p,
    multi_inv pair_tree pair_valid 1 X m w [(0, (5, 70))] 1 /\ good m [(0, (5, 70))] p 0.
Proof.
  intros HX HN HC.
  destruct (multi_new_spec pair_codec pair_tree pair_valid pair_sized 1 ltac:(done) X HN (0, 0) 0 ∅ [] 0
    (demo_table_empty _ HX)) as (m & _ & HI).
  destruct (demo_add X m ∅ [] 0 5 70 HX HN HI ltac:(done) ltac:(done) ltac:(done) HC) as (p & m' & w' & HI' & Ei).
  exists m', w', p. split; [exact HI' |]. exists (5, 70). by split.
Qed.

Lemma demo_two_rows : exists m (w : @world host_state),
  multi_inv pair_tree pair_valid 1 demo_indices m w [(0, (5, 70)); (1, (6, 70))] 2.
Proof.
  destruct (demo_one_row demo_indices demo_known_two demo_names eq_refl) as (m & w & _ & HI & _).
  destruct (demo_add demo_indices m w _ 1 6 70 demo_known_two demo_names HI ltac:(done) ltac:(done) ltac:(done) eq_refl)
    as (_ & m' & w' & HI' & _).
  by exists m', w'.
Qed.

Lemma demo_first_only : [by_first] ⊆ demo_known /\ NoDup ((fun x => index_name (lf_index x)) <$> [by_first]).
Proof. split; [intros x ->%list_elem_of_singleton; left | apply NoDup_singleton]. Qed.

Lemma demo_normal : [by_second; by_third] ⊆ demo_known /\
  NoDup ((fun x => index_name (lf_index x)) <$> [by_second; by_third]).
Proof. split; [intros x; rewrite !elem_of_cons; tauto | apply (bool_decide_unpack _); vm_compute; reflexivity]. Qed.

Lemma modify_twice_loses_first_witness :
  let plus_one r := (fst r, snd r + 1) in
  exists m (w : @world host_state) p m1 w1 m2 w2,
    modify pair_codec 1 (lf_index <$> [by_first]) m w p plus_one = Ok (m1, w1) /\
    multi_inv pair_tree pair_valid 1 [by_first] m1 w1 [(0, (5, 71))] 1 /\
    modify pair_codec 1 (lf_index <$> [by_first]) m1 w1 p plus_one = Ok (m2, w2) /\
    multi_inv pair_tree pair_valid 1 [by_first] m2 w2 [(0, (5, 71))] 1.
Proof.
  intros plus_one. destruct (demo_one_row [by_first] (proj1 demo_first_only) (proj2 demo_first_only) eq_refl) as (m & w & p & HI & HG). exists m, w, p.
  assert (value_ok pair_tree pair_valid (5, 71)) as Hv.
  { by apply (demo_row demo_indices 5 71 demo_known_two). }
  apply (modify_twice_loses_first pair_codec pair_tree pair_valid pair_sized 1 ltac:(done) [by_first]
    (proj2 demo_first_only) (0, 0) 0 m w [(0, (5, 70))] 1 p 0 (5, 70) plus_one plus_one HI HG);
    [reflexivity | reflexivity | reflexivity | exact Hv | exact Hv].
Defined.

Lemma index_erase_correct_witness :
  exists m (w : @world host_state) it0 it m' w',
    index_cbegin (c_uint 64) 1 2 0 0 w 7 = Ok it0 /\
    index_advance (c_uint 64) 1 2 0 0 w 1 it0 = Ok it /\
    index_erase pair_codec 1 (lf_index <$> demo_indices) (0, 0) 0 (lf_index by_second) m w it = Ok (m', w') /\
    multi_inv pair_tree pair_valid 1 demo_indices m' w' [(0, (5, 70))] 2 /\
    changes_only (table_family 1 demo_indices) w w'.
Proof.
  destruct demo_two_rows as (m & w & HI). exists m, w.
  exact (index_erase_correct pair_codec pair_tree pair_valid pair_sized 1 ltac:(done) demo_indices demo_names (0, 0) 0
    by_second [by_first] m w _ 2 7 1 1 (6, 70) eq_refl eq_refl HI eq_refl).
Defined.

Lemma index_erase_undefined_witness :
  exists m (w : @world host_state) it, index_cbegin (c_uint 64) 1 2 0 0 w 7 = Ok it /\
    index_seq 1 0 (lf_index by_second) w it = Ok 0 /\
    index_erase pair_codec 1 (lf_index <$> [by_second; by_third]) (0, 0) 0 (lf_index by_second) m w it
      = Undef "vector index out of range".
Proof.
  destruct (demo_one_row [by_second; by_third] (proj1 demo_normal) (proj2 demo_normal) eq_refl) as (m & w & _ & HI & _).
  exists m, w.
  exact (index_erase_undefined pair_codec pair_tree pair_valid pair_sized 1 ltac:(done) [by_second; by_third]
    (proj2 demo_normal) (0, 0) 0 by_second by_third [] [] m w _ 1 7 0 (5, 70) eq_refl eq_refl HI eq_refl).
Defined.
