(* ===== verification/LinearMemory.v ===== *)
(** * The linear memory of a contract

    What the allocators of [src/libraries/platonlib/malloc] run on: WebAssembly's memory,
    a number of pages of zeroed bytes that [__builtin_wasm_memory_grow] enlarges when the
    host agrees. An access outside the pages traps. Addresses and sizes are 32-bit.
    Models no file. *)

From S2P Require Import Prelude.

Definition PAGE : Z := 65536.

Record memory := mkMem { mem_pages : Z; mem_cells : gmap Z Z }.

(** ** Definitions *)

(** A byte; never written means zero. *)
Definition byte_at (m : memory) (a : Z) : Z := default 0 (mem_cells m !! a).

Definition in_memory (m : memory) (a n : Z) : bool := (0 <=? a) && (a + n <=? mem_pages m * PAGE).

Fixpoint put_cells (c : gmap Z Z) (a : Z) (bs : bytes) : gmap Z Z :=
  match bs with [] => c | b :: bs' => put_cells (<[a := b]> c) (a + 1) bs' end.

Definition put_bytes (m : memory) (a : Z) (bs : bytes) : memory := mkMem (mem_pages m) (put_cells (mem_cells m) a bs).
Definition get_bytes (m : memory) (a n : Z) : bytes := byte_at m <$> seqZ a n.

Definition mem_store (m : memory) (a : Z) (bs : bytes) : res memory :=
  if in_memory m a (len bs) then Ok (put_bytes m a bs) else Undef "memory access out of bounds".
Definition mem_load (m : memory) (a n : Z) : res bytes :=
  if in_memory m a n then Ok (get_bytes m a n) else Undef "memory access out of bounds".

(** [memcpy] of separate blocks, [memset]. *)
Definition mem_copy (m : memory) (dst src n : Z) : res memory := bs ← mem_load m src n; mem_store m dst bs.
Definition mem_fill (m : memory) (a v n : Z) : res memory := mem_store m a (replicate (Z.to_nat n) v).

(** A little-endian 32-bit word. *)
Definition word_bytes (v : Z) : bytes := [v mod 256; v / 2 ^ 8 mod 256; v / 2 ^ 16 mod 256; v / 2 ^ 24 mod 256].
Definition bytes_word (bs : bytes) : Z :=
  match bs with [a; b; c; d] => a + 2 ^ 8 * b + 2 ^ 16 * c + 2 ^ 24 * d | _ => 0 end.
Definition word_at (m : memory) (a : Z) : Z := bytes_word (get_bytes m a 4).
Definition store_word (m : memory) (a v : Z) : res memory := mem_store m a (word_bytes v).
Definition load_word (m : memory) (a : Z) : res Z := bs ← mem_load m a 4; Ok (bytes_word bs).

(** [__builtin_wasm_memory_grow]: the old size, or -1 when there would be too many pages or
    the host refuses. *)
Definition memory_grow (can_grow : Z -> Z -> bool) (m : memory) (delta : Z) : Z * memory :=
  if (mem_pages m + delta <=? 65536) && can_grow (mem_pages m) delta
  then (mem_pages m, mkMem (mem_pages m + delta) (mem_cells m)) else (SIZE_MAX, m).

(** ** Lemmas *)

Lemma zget_snoc_cons (b : Z) bs x : zget (b :: bs) x = if x =? 0 then Some b else zget bs (x - 1).
Proof.
  unfold zget. destruct (Z.ltb_spec x 0).
  - destruct (Z.eqb_spec x 0); [lia |]. destruct (Z.ltb_spec (x - 1) 0); [done | lia].
  - destruct (Z.eqb_spec x 0) as [-> |]; [done |]. destruct (Z.ltb_spec (x - 1) 0); [lia |].
    replace (Z.to_nat x) with (S (Z.to_nat (x - 1))) by lia. done.
Qed.

Lemma put_cells_lookup bs : forall c a x,
  put_cells c a bs !! x = match zget bs (x - a) with Some b => Some b | None => c !! x end.
Proof.
  induction bs as [| b bs IH]; intros c a x; cbn [put_cells].
  - unfold zget. by destruct (x - a <? 0).
  - rewrite IH, zget_snoc_cons. replace (x - (a + 1)) with (x - a - 1) by lia.
    destruct (Z.eqb_spec (x - a) 0) as [E |].
    + replace x with a by lia. rewrite lookup_insert_eq. unfold zget. destruct (Z.ltb_spec (a - a - 1) 0); [done | lia].
    + destruct (zget bs (x - a - 1)); [done |]. rewrite lookup_insert_ne by lia. done.
Qed.

(** What a byte is after a write. *)
Lemma byte_at_put m a bs x : byte_at (put_bytes m a bs) x = default (byte_at m x) (zget bs (x - a)).
Proof. unfold byte_at, put_bytes. cbn [mem_cells]. rewrite put_cells_lookup. by destruct (zget bs (x - a)). Qed.

Lemma byte_at_put_out m a bs x : x < a \/ a + len bs <= x -> byte_at (put_bytes m a bs) x = byte_at m x.
Proof.
  intros Hx. rewrite byte_at_put. destruct (zget bs (x - a)) eqn:E; [| done].
  apply zget_some in E. lia.
Qed.

Lemma byte_at_put_in m a bs i b : zget bs i = Some b -> byte_at (put_bytes m a bs) (a + i) = b.
Proof. intros E. rewrite byte_at_put. replace (a + i - a) with i by lia. by rewrite E. Qed.

Lemma get_bytes_ext m m' a n : (forall x, a <= x < a + n -> byte_at m x = byte_at m' x) -> get_bytes m a n = get_bytes m' a n.
Proof. intros HE. apply list_fmap_ext. intros i x Hx. apply HE. apply lookup_seqZ in Hx. lia. Qed.

Lemma len_get_bytes m a n : 0 <= n -> len (get_bytes m a n) = n.
Proof. intros Hn. unfold get_bytes. rewrite length_fmap, length_seqZ. lia. Qed.

Lemma zget_get_bytes m a n i : 0 <= i < n -> zget (get_bytes m a n) i = Some (byte_at m (a + i)).
Proof.
  intros Hi. unfold zget, get_bytes. destruct (Z.ltb_spec i 0); [lia |].
  rewrite list_lookup_fmap, lookup_seqZ_lt by lia. cbn. do 2 f_equal. lia.
Qed.

Lemma zget_ext {A} (l k : list A) : len l = len k -> (forall i, 0 <= i < len l -> zget l i = zget k i) -> l = k.
Proof.
  intros HL HE. apply list_eq_same_length with (length l); [lia | done |]. intros i x y Hi Hx Hy.
  specialize (HE (Z.of_nat i) ltac:(lia)). unfold zget in HE. destruct (Z.ltb_spec (Z.of_nat i) 0); [lia |].
  rewrite Nat2Z.id, Hx, Hy in HE. by injection HE.
Qed.

Lemma get_put_same m a bs : get_bytes (put_bytes m a bs) a (len bs) = bs.
Proof.
  apply zget_ext; [apply len_get_bytes; lia |]. rewrite len_get_bytes by lia. intros i Hi.
  rewrite zget_get_bytes by done. destruct (zget_in bs i Hi) as [b Eb]. by rewrite (byte_at_put_in m a bs i b Eb), Eb.
Qed.

Lemma get_put_other m a bs p n :
  p + n <= a \/ a + len bs <= p -> get_bytes (put_bytes m a bs) p n = get_bytes m p n.
Proof. intros Hd. apply get_bytes_ext. intros x Hx. apply byte_at_put_out. lia. Qed.

Lemma bytes_word_word_bytes v : 0 <= v < 2 ^ 32 -> bytes_word (word_bytes v) = v.
Proof. intros Hv. unfold bytes_word, word_bytes. Z.to_euclidean_division_equations. lia. Qed.

Lemma word_at_put m a v : 0 <= v < 2 ^ 32 -> word_at (put_bytes m a (word_bytes v)) a = v.
Proof. intros Hv. unfold word_at. change 4 with (len (word_bytes v)). by rewrite get_put_same, bytes_word_word_bytes. Qed.

Lemma word_at_put_other m a bs p : p + 4 <= a \/ a + len bs <= p -> word_at (put_bytes m a bs) p = word_at m p.
Proof. intros Hd. unfold word_at. by rewrite get_put_other. Qed.

Lemma word_at_ext m m' a : (forall x, a <= x < a + 4 -> byte_at m x = byte_at m' x) -> word_at m a = word_at m' a.
Proof. intros HE. unfold word_at. by rewrite (get_bytes_ext m m'). Qed.

Lemma in_memory_ok m a n : 0 <= a -> a + n <= mem_pages m * PAGE -> in_memory m a n = true.
Proof. intros H1 H2. unfold in_memory. apply andb_true_intro. split; apply Z.leb_le; lia. Qed.

Lemma store_ok m a bs : 0 <= a -> a + len bs <= mem_pages m * PAGE -> mem_store m a bs = Ok (put_bytes m a bs).
Proof. intros H1 H2. unfold mem_store. by rewrite in_memory_ok. Qed.

Lemma load_ok m a n : 0 <= a -> a + n <= mem_pages m * PAGE -> mem_load m a n = Ok (get_bytes m a n).
Proof. intros H1 H2. unfold mem_load. by rewrite in_memory_ok. Qed.

Lemma load_word_ok m a : 0 <= a -> a + 4 <= mem_pages m * PAGE -> load_word m a = Ok (word_at m a).
Proof. intros H1 H2. unfold load_word. by rewrite load_ok. Qed.

Lemma store_word_ok m a v :
  0 <= a -> a + 4 <= mem_pages m * PAGE -> store_word m a v = Ok (put_bytes m a (word_bytes v)).
Proof. intros H1 H2. by apply store_ok. Qed.

Lemma mem_pages_put m a bs : mem_pages (put_bytes m a bs) = mem_pages m.
Proof. done. Qed.

Lemma memory_grow_ok can_grow m delta :
  mem_pages m + delta <= 65536 -> can_grow (mem_pages m) delta = true ->
  memory_grow can_grow m delta = (mem_pages m, mkMem (mem_pages m + delta) (mem_cells m)).
Proof. intros H1 H2. unfold memory_grow. by rewrite (proj2 (Z.leb_le _ _) H1), H2. Qed.

Lemma memory_grow_refused can_grow m delta :
  can_grow (mem_pages m) delta = false -> memory_grow can_grow m delta = (SIZE_MAX, m).
Proof. intros H1. unfold memory_grow. by rewrite H1, andb_false_r. Qed.
