(* ===== verification/SimpleMalloc.v ===== *)
(** * malloc/simple_malloc.cpp: the allocator contracts are linked with

    A bump allocator over the linear memory: each block is preceded by its size, [free]
    does nothing. The theorems compare a program's use of it with blocks that live apart
    from each other. *)

From S2P Require Import Prelude LinearMemory.

(** ** Definitions *)

(** [struct dsmalloc]; its member [offset] is never used. *)
Record dsmalloc := mkDs { heap : Z; last_ptr : Z; next_page : Z }.

(** Both overloads of [align]. *)
Definition align (v align_amt : Z) : Z := Z.land (u32 (v + align_amt - 1)) (u32 (Z.lnot (align_amt - 1))).

(** The default of [align_amt]; [sizeof(size_t)]. *)
Definition ALIGN : Z := 8.
Definition length_size : Z := 4.

(** The constructor of the global object; [heap_base] is the linker's [__heap_base]. *)
Definition ds_new (heap_base : Z) (m : memory) : dsmalloc :=
  mkDs (align heap_base ALIGN) (align heap_base ALIGN) (mem_pages m).

Section Allocator.
(** Whether the host lets the memory grow. *)
Context (can_grow : Z -> Z -> bool).

(** [operator()]. *)
Definition ds_alloc (d : dsmalloc) (m : memory) (sz : Z) : res (Z * dsmalloc * memory) :=
  if sz =? 0 then Ok (0, d, m)
  else
    let align_size := align length_size ALIGN in
    let real_size := u32 (sz + align_size) in
    let ret := last_ptr d in
    let last := align (u32 (last_ptr d + real_size)) ALIGN in
    let pages_to_alloc := Z.shiftr real_size 16 in
    let next := u32 (next_page d + pages_to_alloc) in
    let '(next', pages_to_alloc') :=
      if u32 (Z.shiftl next 16) <=? last then (u32 (next + 1), u32 (pages_to_alloc + 1)) else (next, pages_to_alloc) in
    m1 ← (if 0 <? pages_to_alloc' then
            let '(alloc_result, m') := memory_grow can_grow m pages_to_alloc' in
            if 0 =? alloc_result then platon_throw "failed to allocate pages" else Ok m'
          else Ok m);
    m2 ← store_word m1 ret sz;
    Ok (u32 (ret + align_size), mkDs (heap d) last next', m2).

Definition malloc (d : dsmalloc) (m : memory) (size : Z) : res (Z * dsmalloc * memory) := ds_alloc d m size.

Definition calloc (d : dsmalloc) (m : memory) (count size : Z) : res (Z * dsmalloc * memory) :=
  '(ptr, d', m') ← ds_alloc d m (u32 (count * size));
  if ptr =? 0 then Ok (0, d', m') else m'' ← mem_fill m' ptr 0 (u32 (count * size)); Ok (ptr, d', m'').

Definition realloc (d : dsmalloc) (m : memory) (ptr size : Z) : res (Z * dsmalloc * memory) :=
  if (size =? 0) || (ptr =? 0) then Ok (0, d, m)
  else
    let align_size := 8 in
    copy_size ← load_word m (u32 (ptr - align_size));
    if size <=? copy_size then Ok (ptr, d, m)
    else
      '(new_alloc, d', m') ← ds_alloc d m size;
      m'' ← mem_copy m' new_alloc ptr copy_size; Ok (new_alloc, d', m'').

Definition free (d : dsmalloc) (m : memory) (ptr : Z) : dsmalloc * memory := (d, m).
End Allocator.

(** *** Alignment *)

Definition align8 (v : Z) : Z := (v + 7) / 8 * 8.

Lemma align_8 v : 0 <= v -> v + 7 < 2 ^ 32 -> align v ALIGN = align8 v.
Proof.
  intros H1 H2. unfold align, ALIGN, align8. replace (v + 8 - 1) with (v + 7) by lia. rewrite (wrap_small 32 (v + 7)) by lia.
  change (u32 (Z.lnot (8 - 1))) with (Z.ldiff (Z.ones 32) (Z.ones 3)).
  rewrite <- (Z.shiftl_mul_pow2 _ 3), <- (Z.shiftr_div_pow2 _ 3) by lia.
  rewrite <- Z.ldiff_ones_r by lia. apply Z.bits_inj'. intros i Hi.
  rewrite Z.land_spec, !Z.ldiff_spec, !Z.testbit_ones by lia.
  destruct (Z.ltb_spec i 32); destruct (Z.leb_spec 0 i); try lia; cbn [andb]; [done |].
  rewrite (testbit_above (v + 7) 32 i) by lia. done.
Qed.

Lemma align8_bounds v : v <= align8 v < v + 8 /\ align8 v mod 8 = 0.
Proof. unfold align8. Z.to_euclidean_division_equations. lia. Qed.

Lemma align8_id v : v mod 8 = 0 -> align8 v = v.
Proof. unfold align8. Z.to_euclidean_division_equations. lia. Qed.

(** ** Blocks *)

(** The blocks from [p] up to [e], in the order of allocation: each a header with the size,
    padded to eight bytes, and then the bytes; the next header is at the next multiple of
    eight. *)
Fixpoint layout (m : memory) (p : Z) (bs : list (Z * Z)) (e : Z) : Prop :=
  match bs with
  | [] => p = e
  | (q, sz) :: bs' => q = p + 8 /\ 0 < sz < 2 ^ 32 /\ word_at m p = sz /\ layout m (align8 (p + 8 + sz)) bs' e
  end.

Lemma layout_snoc m bs : forall p q sz e0,
  layout m p bs e0 -> q = e0 + 8 -> 0 < sz < 2 ^ 32 -> word_at m e0 = sz ->
  layout m p (bs ++ [(q, sz)]) (align8 (e0 + 8 + sz)).
Proof.
  induction bs as [| [q0 s0] bs IH]; intros p q sz e0; cbn [layout app].
  - by intros <- -> Hs Hw.
  - intros (-> & Hs0 & Hw0 & HL) -> Hs Hw. repeat (split; [done |]). by apply IH.
Qed.

Lemma layout_bounds m bs : forall p e, p mod 8 = 0 -> layout m p bs e -> p <= e /\ e mod 8 = 0.
Proof.
  induction bs as [| [q sz] bs IH]; intros p e Hp; cbn [layout]; [intros <-; split; [lia | done] |].
  intros (-> & Hs & _ & HL). destruct (align8_bounds (p + 8 + sz)) as [Hb Hm].
  destruct (IH _ _ Hm HL). lia.
Qed.

Lemma layout_block m bs : forall p e q sz, p mod 8 = 0 -> layout m p bs e -> (q, sz) ∈ bs ->
  p + 8 <= q /\ q + sz <= e /\ q mod 8 = 0 /\ 0 < sz < 2 ^ 32 /\ word_at m (q - 8) = sz.
Proof.
  induction bs as [| [q0 s0] bs IH]; intros p e q sz Hp; cbn [layout]; [by intros _ ?%not_elem_of_nil |].
  intros (-> & Hs & Hw & HL) [[= -> ->] | Hin]%elem_of_cons.
  - destruct (align8_bounds (p + 8 + s0)) as [Hb Hm]. destruct (layout_bounds _ _ _ _ Hm HL).
    replace (p + 8 - 8) with p by lia. split_and!; try lia. Z.to_euclidean_division_equations. lia.
  - destruct (align8_bounds (p + 8 + s0)) as [Hb Hm]. destruct (IH _ _ _ _ Hm HL Hin) as (? & ? & ? & ? & ?).
    split_and!; lia || done.
Qed.

(** Two blocks are one block or lie apart, header included. *)
Lemma layout_apart m bs : forall p e q1 s1 q2 s2, p mod 8 = 0 -> layout m p bs e ->
  (q1, s1) ∈ bs -> (q2, s2) ∈ bs -> (q1 = q2 /\ s1 = s2) \/ q1 + s1 <= q2 - 8 \/ q2 + s2 <= q1 - 8.
Proof.
  induction bs as [| [q0 s0] bs IH]; intros p e q1 s1 q2 s2 Hp; cbn [layout]; [by intros _ ?%not_elem_of_nil |].
  intros (-> & Hs & Hw & HL). destruct (align8_bounds (p + 8 + s0)) as [Hb Hm].
  intros [[= -> ->] | H1]%elem_of_cons [[= -> ->] | H2]%elem_of_cons.
  - by left.
  - right; left. destruct (layout_block _ _ _ _ _ _ Hm HL H2). lia.
  - right; right. destruct (layout_block _ _ _ _ _ _ Hm HL H1). lia.
  - by apply (IH _ _ _ _ _ _ Hm HL).
Qed.

Lemma layout_frame m m' bs : forall p e,
  layout m p bs e -> (forall q sz, (q, sz) ∈ bs -> word_at m' (q - 8) = word_at m (q - 8)) -> layout m' p bs e.
Proof.
  induction bs as [| [q0 s0] bs IH]; intros p e; cbn [layout]; [done |].
  intros (-> & Hs & Hw & HL) HF. split_and!; [lia | lia | lia | |].
  - rewrite <- Hw. specialize (HF (p + 8) s0 ltac:(left)). by replace (p + 8 - 8) with p in HF by lia.
  - apply IH; [done |]. intros q sz Hin. apply (HF q sz). by right.
Qed.

(** ** One allocation *)

Section Spec.
Context (can_grow : Z -> Z -> bool).

(** The host gives memory up to [limit] pages. *)
Context (limit : Z) (Hlimit : limit <= 65535) (Hgrow : forall old n, old + n <= limit -> can_grow old n = true).

(** How far the memory may reach past the last block: one page, or what it had at first. *)
Context (slack : Z) (Hslack : PAGE <= slack).

Record alloc_inv (d : dsmalloc) (m : memory) (bs : list (Z * Z)) : Prop := {
  ai_base : 0 < heap d /\ heap d mod 8 = 0;
  ai_layout : layout m (heap d) bs (last_ptr d);
  ai_next : next_page d = mem_pages m;
  ai_room : last_ptr d < mem_pages m * PAGE <= last_ptr d + slack;
  ai_pages : mem_pages m <= limit
}.

(** There is room for a block of [sz] bytes. *)
Definition fits (d : dsmalloc) (sz : Z) : Prop := last_ptr d + sz + 16 + slack <= limit * PAGE.

Lemma inv_block d m bs q sz : alloc_inv d m bs -> (q, sz) ∈ bs ->
  heap d + 8 <= q /\ q + sz <= last_ptr d /\ q mod 8 = 0 /\ 0 < sz < 2 ^ 32 /\ word_at m (q - 8) = sz.
Proof. intros HI. apply layout_block; apply HI. Qed.

(** A write inside a block keeps the invariant. *)
Lemma inv_write d m bs q sz a bs' :
  alloc_inv d m bs -> (q, sz) ∈ bs -> q <= a -> a + len bs' <= q + sz -> alloc_inv d (put_bytes m a bs') bs.
Proof.
  intros HI Hin H1 H2. destruct (HI) as [HB HL HN HR HP]. split; try done.
  apply (layout_frame m); [done |]. intros q' s' Hin'. apply word_at_put_other.
  destruct (layout_apart m bs _ _ q sz q' s' (proj2 HB) HL Hin Hin') as [[-> ->] | [? | ?]]; [left; lia | |].
  - right. lia.
  - left. pose proof (inv_block d m bs q' s' HI Hin'). lia.
Qed.

(** The pages asked for, whatever the host answers. *)
Definition grown (g : Z -> Z -> bool) (m : memory) (k : Z) : res memory :=
  if 0 <? k then
    let '(alloc_result, m') := memory_grow g m k in
    if 0 =? alloc_result then platon_throw "failed to allocate pages" else Ok m'
  else Ok m.

Lemma last_room d m bs : alloc_inv d m bs -> 0 < last_ptr d /\ last_ptr d mod 8 = 0 /\ last_ptr d + 8 <= mem_pages m * PAGE.
Proof using Type.
  intros [[HB1 HB2] HL _ HR _]. destruct (layout_bounds _ _ _ _ HB2 HL) as [HB3 HB4]. split; [lia |]. split; [done |].
  clear -HB4 HR. unfold PAGE in *. Z.to_euclidean_division_equations. lia.
Qed.

Lemma ds_alloc_shape d m bs sz :
  alloc_inv d m bs -> 0 < sz -> fits d sz ->
  exists k, 0 <= k /\ mem_pages m + k <= limit /\
    align8 (last_ptr d + 8 + sz) < (mem_pages m + k) * PAGE <= align8 (last_ptr d + 8 + sz) + slack /\
    forall g, ds_alloc g d m sz =
      (m1 ← grown g m k; m2 ← store_word m1 (last_ptr d) sz;
       Ok (last_ptr d + 8, mkDs (heap d) (align8 (last_ptr d + 8 + sz)) (mem_pages m + k), m2)).
Proof using Hlimit Hslack.
  intros HI Hsz Hfit. unfold fits in Hfit. pose proof HI as [_ _ HN HR HP]. destruct (last_room d m bs HI) as (HB3 & HB4 & HR8).
  set (q := (sz + 8) / PAGE) in *. assert (0 <= sz + 8 - q * PAGE < PAGE) as Hq.
  { subst q. unfold PAGE. Z.to_euclidean_division_equations. lia. }
  assert (0 <= q) as Hq0 by (unfold PAGE in Hq; lia).
  replace (last_ptr d + 8 + sz) with (last_ptr d + (sz + 8)) by lia. set (last := align8 (last_ptr d + (sz + 8))).
  destruct (align8_bounds (last_ptr d + (sz + 8))) as [Hl Hl8]. fold last in Hl, Hl8.
  exists (if (mem_pages m + q) * PAGE <=? last then q + 1 else q).
  split; [case_match; lia |]. split; [| split].
  - destruct (Z.leb_spec ((mem_pages m + q) * PAGE) last); unfold PAGE in *; lia.
  - destruct (Z.leb_spec ((mem_pages m + q) * PAGE) last); unfold PAGE in *; lia.
  - intros g. unfold ds_alloc. destruct (Z.eqb_spec sz 0); [lia |]. change (align length_size ALIGN) with 8.
    rewrite (wrap_small 32 (sz + 8)) by (unfold PAGE in *; lia). rewrite Z.shiftr_div_pow2 by lia.
    change (2 ^ 16) with PAGE. fold q. rewrite (wrap_small 32 (last_ptr d + (sz + 8))) by (unfold PAGE in *; lia).
    rewrite align_8 by (unfold PAGE in *; lia). fold last.
    rewrite HN, (wrap_small 32 (mem_pages m + q)) by (unfold PAGE in *; lia).
    rewrite Z.shiftl_mul_pow2 by lia. change (2 ^ 16) with PAGE.
    rewrite (wrap_small 32 ((mem_pages m + q) * PAGE)) by (unfold PAGE in *; lia).
    rewrite (wrap_small 32 (last_ptr d + 8)) by (unfold PAGE in *; lia).
    destruct (_ <=? last); [| done]. rewrite !wrap_small by (unfold PAGE in *; lia). unfold grown.
    by replace (mem_pages m + q + 1) with (mem_pages m + (q + 1)) by lia.
Qed.

Lemma ds_alloc_spec d m bs sz :
  alloc_inv d m bs -> 0 < sz -> fits d sz ->
  exists d' m', ds_alloc can_grow d m sz = Ok (last_ptr d + 8, d', m') /\
    alloc_inv d' m' (bs ++ [(last_ptr d + 8, sz)]) /\
    (forall x, x < last_ptr d \/ last_ptr d + 8 <= x -> byte_at m' x = byte_at m x) /\
    last_ptr d' <= last_ptr d + sz + 15.
Proof using Hlimit Hgrow Hslack.
  intros HI Hsz Hfit. pose proof HI as [[HB1 HB2] HL HN HR HP]. destruct (last_room d m bs HI) as (HB3 & HB4 & HR8).
  destruct (ds_alloc_shape d m bs sz HI Hsz Hfit) as (k & Hk0 & Hk & Hroom & ->). unfold fits in Hfit.
  set (m1 := mkMem (mem_pages m + k) (mem_cells m)).
  assert (grown can_grow m k = Ok m1) as ->.
  { unfold grown. destruct (Z.ltb_spec 0 k).
    - rewrite memory_grow_ok; [| lia | by apply Hgrow].
      destruct (Z.eqb_spec 0 (mem_pages m)); [unfold PAGE in *; lia | done].
    - subst m1. replace k with 0 by lia. rewrite Z.add_0_r. by destruct m. }
  cbn [mbind res_bind]. rewrite store_word_ok by (subst m1; cbn [mem_pages]; unfold PAGE in *; lia). cbn [mbind res_bind].
  eexists _, _. split; [done |].
  assert (forall x, x < last_ptr d \/ last_ptr d + 8 <= x -> byte_at (put_bytes m1 (last_ptr d) (word_bytes sz)) x = byte_at m x) as HF.
  { intros x Hx. rewrite byte_at_put_out by (cbn; lia). done. }
  destruct (align8_bounds (last_ptr d + 8 + sz)).
  split; [| split; [done | cbn [last_ptr]; lia]]. split; cbn [heap last_ptr next_page mem_pages]; try done.
  apply layout_snoc; [| done | unfold PAGE in *; lia | apply word_at_put; unfold PAGE in *; lia].
  apply (layout_frame m); [done |]. intros q' s' Hin. apply word_at_ext. intros x Hx. apply HF.
  destruct (inv_block d m bs q' s' HI Hin). lia.
Qed.
(** ** A program's use of the allocator *)

(** Variables of the program hold pointers; [HLoad] answers the bytes read. *)
Inductive heap_op :=
| HMalloc (i : nat) (sz : Z) | HCalloc (i : nat) (count size : Z) | HRealloc (i : nat) (sz : Z) | HFree (i : nat)
| HStore (i : nat) (off : Z) (l : bytes) | HLoad (i : nat) (off n : Z).

Definition var (ptrs : gmap nat Z) (i : nat) : Z := match ptrs !! i with Some p => p | None => 0 end.

Definition heap_step (d : dsmalloc) (m : memory) (ptrs : gmap nat Z) (o : heap_op)
    : res (dsmalloc * memory * gmap nat Z * bytes) :=
  match o with
  | HMalloc i sz => '(p, d', m') ← malloc can_grow d m sz; Ok (d', m', <[i := p]> ptrs, [])
  | HCalloc i n sz => '(p, d', m') ← calloc can_grow d m n sz; Ok (d', m', <[i := p]> ptrs, [])
  | HRealloc i sz => '(p, d', m') ← realloc can_grow d m (var ptrs i) sz; Ok (d', m', <[i := p]> ptrs, [])
  | HFree i => let '(d', m') := free d m (var ptrs i) in Ok (d', m', ptrs, [])
  | HStore i off l => m' ← mem_store m (var ptrs i + off) l; Ok (d, m', ptrs, [])
  | HLoad i off n => l ← mem_load m (var ptrs i + off) n; Ok (d, m, ptrs, l)
  end.

Fixpoint heap_run (d : dsmalloc) (m : memory) (ptrs : gmap nat Z) (os : list heap_op) : res (list bytes) :=
  match os with
  | [] => Ok []
  | o :: os' => '(d', m', ptrs', out) ← heap_step d m ptrs o; outs ← heap_run d' m' ptrs' os'; Ok (out :: outs)
  end.

(** What the program may rely on: each variable has its own bytes, [None] while nothing is
    known of them. *)
Abbreviation store := (gmap nat (list (option Z))).

Definition known (R : store) (i : nat) : list (option Z) := match R !! i with Some c => c | None => [] end.

Definition store_step (R : store) (o : heap_op) : store * list (option Z) :=
  match o with
  | HMalloc i sz => (<[i := replicate (Z.to_nat sz) None]> R, [])
  | HCalloc i n sz => (<[i := replicate (Z.to_nat (n * sz)) (Some 0)]> R, [])
  | HRealloc i sz => (<[i := resize (Z.to_nat sz) None (known R i)]> R, [])
  | HFree i => (delete i R, [])
  | HStore i off l => (<[i := list_inserts (Z.to_nat off) (Some <$> l) (known R i)]> R, [])
  | HLoad i off n => (R, slice (known R i) off n)
  end.

Fixpoint store_run (R : store) (os : list heap_op) : list (list (option Z)) :=
  match os with [] => [] | o :: os' => let '(R', out) := store_step R o in out :: store_run R' os' end.

(** A program that keeps to its blocks; [top] bounds the memory used so far. *)
Definition request (o : heap_op) : Z :=
  match o with HMalloc _ sz | HRealloc _ sz => sz | HCalloc _ n sz => n * sz | _ => 0 end.
Definition op_ok (R : store) (top : Z) (o : heap_op) : Prop :=
  match o with
  | HMalloc _ sz => 0 < sz /\ top + sz + 16 + slack <= limit * PAGE
  | HCalloc _ n sz => 0 < n * sz /\ top + n * sz + 16 + slack <= limit * PAGE
  | HRealloc i sz => 0 < sz /\ top + sz + 16 + slack <= limit * PAGE /\ is_Some (R !! i)
  | HFree i => is_Some (R !! i)
  | HStore i off l => exists c, R !! i = Some c /\ 0 <= off /\ off + len l <= len c
  | HLoad i off n => exists c, R !! i = Some c /\ 0 <= off /\ 0 <= n /\ off + n <= len c
  end.
Fixpoint ops_ok (R : store) (top : Z) (os : list heap_op) : Prop :=
  match os with
  | [] => True
  | o :: os' => op_ok R top o /\ ops_ok (fst (store_step R o)) (top + request o + 15) os'
  end.

(** The bytes at [p] are as known. *)
Definition covers (m : memory) (p : Z) (c : list (option Z)) : Prop :=
  forall j b, c !! j = Some (Some b) -> byte_at m (p + Z.of_nat j) = b.
Definition agrees (o : option Z) (b : Z) : Prop := o = None \/ o = Some b.

(** Each live variable has a block of its own, large enough, with the known bytes. *)
Record heap_state (d : dsmalloc) (m : memory) (bs : list (Z * Z)) (ptrs : gmap nat Z) (R : store) : Prop := {
  hs_inv : alloc_inv d m bs;
  hs_var : forall i c, R !! i = Some c ->
    exists p sz, ptrs !! i = Some p /\ (p, sz) ∈ bs /\ len c <= sz /\ covers m p c;
  hs_own : forall i j p, is_Some (R !! i) -> is_Some (R !! j) -> ptrs !! i = Some p -> ptrs !! j = Some p -> i = j
}.

Lemma state_bind d m bs ptrs R d' m' i sz c :
  heap_state d m bs ptrs R -> alloc_inv d' m' (bs ++ [(last_ptr d + 8, sz)]) ->
  (forall x, x < last_ptr d -> byte_at m' x = byte_at m x) -> len c <= sz -> covers m' (last_ptr d + 8) c ->
  heap_state d' m' (bs ++ [(last_ptr d + 8, sz)]) (<[i := last_ptr d + 8]> ptrs) (<[i := c]> R).
Proof using Type.
  intros [HI HV HO] HI' HF Hc HC. split; [done | |].
  - intros j c'. destruct (decide (j = i)) as [-> | Hne].
    + rewrite !lookup_insert_eq. intros [= <-]. exists (last_ptr d + 8), sz. split; [done |]. split; [| done].
      apply elem_of_app. right. left.
    + rewrite !lookup_insert_ne by done. intros Hj. destruct (HV j c' Hj) as (p & s & Ep & Hin & Hlen & HC').
      exists p, s. split; [done |]. split; [apply elem_of_app; by left |]. split; [done |].
      intros k b Hk. rewrite HF; [by apply HC' |]. destruct (inv_block d m bs p s HI Hin) as (_ & ? & _).
      apply lookup_lt_Some in Hk. lia.
  - assert (forall j p, is_Some (R !! j) -> ptrs !! j = Some p -> p <> last_ptr d + 8) as Hnew.
    { intros j p [c' Hj] Ep ->. destruct (HV j c' Hj) as (p & s & Ep' & Hin & _). rewrite Ep in Ep'. injection Ep' as <-.
      destruct (inv_block d m bs _ s HI Hin) as (_ & ? & _ & ? & _). lia. }
    intros j k p. destruct (decide (j = i)) as [-> | Hj]; destruct (decide (k = i)) as [-> | Hk];
      rewrite ?lookup_insert_eq, ?lookup_insert_ne by done; [done | | |].
    + intros _ HR [= <-] Ep. by destruct (Hnew k _ HR Ep).
    + intros HR _ Ep [= <-]. by destruct (Hnew j _ HR Ep).
    + apply HO.
Qed.

Lemma state_update d m bs ptrs R m' i p sz c :
  heap_state d m bs ptrs R -> alloc_inv d m' bs -> is_Some (R !! i) -> ptrs !! i = Some p -> (p, sz) ∈ bs ->
  (forall x, x < p \/ p + sz <= x -> byte_at m' x = byte_at m x) -> len c <= sz -> covers m' p c ->
  heap_state d m' bs ptrs (<[i := c]> R).
Proof using Type.
  intros [HI HV HO] HI' HRi Ep Hin HF Hc HC. split; [done | |].
  - intros j c'. destruct (decide (j = i)) as [-> | Hne].
    + rewrite lookup_insert_eq. intros [= <-]. by exists p, sz.
    + rewrite lookup_insert_ne by done. intros Hj. destruct (HV j c' Hj) as (p' & s' & Ep' & Hin' & Hlen & HC').
      exists p', s'. repeat (split; [done |]). intros k b Hk. rewrite HF; [by apply HC' |].
      apply lookup_lt_Some in Hk.
      destruct (layout_apart m bs _ _ p' s' p sz (proj2 (ai_base _ _ _ HI)) (ai_layout _ _ _ HI) Hin' Hin)
        as [[-> ->] | [? | ?]]; [| lia | lia].
      destruct Hne. by apply (HO j i p).
  - intros j k q. destruct (decide (j = i)) as [-> | Hj]; destruct (decide (k = i)) as [-> | Hk];
      rewrite ?lookup_insert_eq, ?lookup_insert_ne by done; intros H1 H2; by apply HO.
Qed.

Lemma covers_none m p n : covers m p (replicate n None).
Proof. intros j b Hj. by apply lookup_replicate in Hj as [? _]. Qed.

(** [memset] and [memcpy] on a fresh block. *)
Lemma fill_block d m bs p sz :
  alloc_inv d m bs -> (p, sz) ∈ bs ->
  exists m', mem_fill m p 0 sz = Ok m' /\ alloc_inv d m' bs /\ covers m' p (replicate (Z.to_nat sz) (Some 0)) /\
    (forall x, x < p \/ p + sz <= x -> byte_at m' x = byte_at m x).
Proof using Type.
  intros HI Hin. destruct (inv_block d m bs p sz HI Hin) as (H1 & H2 & _ & H3 & _).
  assert (len (replicate (Z.to_nat sz) 0) = sz) as EL by (rewrite length_replicate; lia).
  exists (put_bytes m p (replicate (Z.to_nat sz) 0)). split; [| split; [| split]].
  - apply store_ok; [pose proof (ai_base _ _ _ HI); lia |]. rewrite EL. pose proof (ai_room _ _ _ HI). lia.
  - apply (inv_write d m bs p sz); [done | done | lia |]. rewrite EL. lia.
  - intros j b Hj. apply lookup_replicate in Hj as [[= <-] Hj]. apply byte_at_put_in.
    unfold zget. destruct (Z.ltb_spec (Z.of_nat j) 0); [lia |]. rewrite Nat2Z.id. by apply lookup_replicate_2.
  - intros x Hx. apply byte_at_put_out. rewrite EL. done.
Qed.

Lemma copy_block d m bs p sz q n c :
  alloc_inv d m bs -> (p, sz) ∈ bs -> (q, n) ∈ bs -> n <= sz -> len c <= n -> covers m q c ->
  exists m', mem_copy m p q n = Ok m' /\ alloc_inv d m' bs /\ covers m' p c /\
    (forall x, x < p \/ p + sz <= x -> byte_at m' x = byte_at m x).
Proof using Type.
  intros HI Hp Hq Hn Hc HC. destruct (inv_block d m bs p sz HI Hp) as (H1 & H2 & _ & H3 & _).
  destruct (inv_block d m bs q n HI Hq) as (H4 & H5 & _ & H6 & _). pose proof (ai_base _ _ _ HI). pose proof (ai_room _ _ _ HI).
  assert (len (get_bytes m q n) = n) as EL by (apply len_get_bytes; lia).
  exists (put_bytes m p (get_bytes m q n)). split; [| split; [| split]].
  - unfold mem_copy. rewrite load_ok by lia. cbn [mbind res_bind]. apply store_ok; [lia |]. rewrite EL. lia.
  - apply (inv_write d m bs p sz); [done | done | lia |]. rewrite EL. lia.
  - intros j b Hj. apply byte_at_put_in. pose proof (lookup_lt_Some _ _ _ Hj). rewrite zget_get_bytes by lia. by rewrite HC with j b.
  - intros x Hx. apply byte_at_put_out. rewrite EL. lia.
Qed.

Lemma malloc_bind d m bs ptrs R i sz :
  heap_state d m bs ptrs R -> 0 < sz -> fits d sz ->
  exists d' m', malloc can_grow d m sz = Ok (last_ptr d + 8, d', m') /\
    heap_state d' m' (bs ++ [(last_ptr d + 8, sz)]) (<[i := last_ptr d + 8]> ptrs) (<[i := replicate (Z.to_nat sz) None]> R) /\
    (forall x, x < last_ptr d -> byte_at m' x = byte_at m x) /\ last_ptr d' <= last_ptr d + sz + 15.
Proof using Hgrow Hlimit Hslack.
  intros HS Hsz Hf. pose proof (hs_inv _ _ _ _ _ HS) as HI.
  destruct (ds_alloc_spec d m bs sz HI Hsz Hf) as (d' & m' & E & HI' & HF & HL).
  exists d', m'. split; [exact E |]. split; [| split; [by auto | done]].
  apply (state_bind d m bs ptrs R); [done | done | by auto | rewrite length_replicate; lia | apply covers_none].
Qed.

Lemma null_unused d m bs ptrs R : heap_state d m bs ptrs R -> 0 < last_ptr d.
Proof using Type.
  intros [HI _ _]. destruct (layout_bounds _ _ _ _ (proj2 (ai_base _ _ _ HI)) (ai_layout _ _ _ HI)).
  pose proof (ai_base _ _ _ HI). lia.
Qed.

Lemma calloc_bind d m bs ptrs R i n sz :
  heap_state d m bs ptrs R -> 0 < n * sz -> fits d (n * sz) ->
  exists p d' m' bs', calloc can_grow d m n sz = Ok (p, d', m') /\
    heap_state d' m' bs' (<[i := p]> ptrs) (<[i := replicate (Z.to_nat (n * sz)) (Some 0)]> R) /\
    last_ptr d' <= last_ptr d + n * sz + 15.
Proof using Hgrow Hlimit Hslack.
  intros HS Hs Hf. pose proof (null_unused _ _ _ _ _ HS) as H0. unfold calloc.
  rewrite (wrap_small 32 (n * sz)) by (unfold fits, PAGE in *; lia).
  destruct (malloc_bind d m bs ptrs R i (n * sz) HS Hs Hf) as (d' & m' & E & HS' & _ & HL).
  unfold malloc in E. rewrite E. cbn [mbind res_bind]. destruct (Z.eqb_spec (last_ptr d + 8) 0) as [E0 |]; [lia |].
  set (p := last_ptr d + 8) in *. assert ((p, n * sz) ∈ bs ++ [(p, n * sz)]) as Hin by (apply elem_of_app; right; left).
  destruct (fill_block d' m' _ p (n * sz) (hs_inv _ _ _ _ _ HS') Hin) as (m2 & -> & HI2 & HC & HF). cbn [mbind res_bind].
  eexists p, d', m2, _. split; [done |]. split; [| done].
  rewrite <- (insert_insert_eq R i (replicate (Z.to_nat (n * sz)) (Some 0)) (replicate (Z.to_nat (n * sz)) None)).
  apply (state_update d' m' _ _ _ m2 i p (n * sz) _ HS' HI2); [| by rewrite lookup_insert_eq | done | done | | done].
  - rewrite lookup_insert_eq. by eexists.
  - rewrite length_replicate. lia.
Qed.

Lemma covers_resize m p n c : covers m p c -> covers m p (resize n None c).
Proof.
  intros HC j b Hj. apply HC. destruct (decide (j < n)%nat) as [Hn | Hn].
  - destruct (decide (j < length c)%nat) as [Hl | Hl].
    + by rewrite lookup_resize in Hj by done.
    + rewrite lookup_resize_new in Hj by lia. done.
  - rewrite lookup_resize_old in Hj by lia. done.
Qed.

Lemma realloc_bind d m bs ptrs R i sz c :
  heap_state d m bs ptrs R -> 0 < sz -> fits d sz -> R !! i = Some c ->
  exists p d' m' bs', realloc can_grow d m (var ptrs i) sz = Ok (p, d', m') /\
    heap_state d' m' bs' (<[i := p]> ptrs) (<[i := resize (Z.to_nat sz) None c]> R) /\
    last_ptr d' <= last_ptr d + sz + 15.
Proof using Hgrow Hlimit Hslack.
  intros HS Hs Hf HR. pose proof (hs_inv _ _ _ _ _ HS) as HI. pose proof (null_unused _ _ _ _ _ HS) as H0.
  destruct (hs_var _ _ _ _ _ HS i c HR) as (p & s & Ep & Hin & Hlen & HC).
  destruct (inv_block d m bs p s HI Hin) as (H1 & H2 & _ & H3 & Hw). pose proof (ai_base _ _ _ HI). pose proof (ai_room _ _ _ HI).
  pose proof (ai_pages _ _ _ HI). unfold realloc, var. rewrite Ep.
  destruct (Z.eqb_spec sz 0); [lia |]. destruct (Z.eqb_spec p 0); [lia |]. cbn [orb].
  cbv zeta. rewrite (wrap_small 32 (p - 8)) by (unfold PAGE in *; lia). rewrite load_word_ok by lia. cbn [mbind res_bind]. rewrite Hw.
  destruct (Z.leb_spec sz s).
  - exists p, d, m, bs. split; [done |]. split; [| lia]. rewrite (insert_id ptrs i p Ep).
    apply (state_update d m bs ptrs R m i p s _ HS HI); [by eexists | done | done | done | rewrite length_resize; lia |].
    by apply covers_resize.
  - destruct (malloc_bind d m bs ptrs R i sz HS Hs Hf) as (d' & m' & E & HS' & HF & HL).
    unfold malloc in E. rewrite E. cbn [mbind res_bind]. set (q := last_ptr d + 8) in *.
    destruct (copy_block d' m' (bs ++ [(q, sz)]) q sz p s c (hs_inv _ _ _ _ _ HS')) as (m2 & -> & HI2 & HC2 & HF2);
      [apply elem_of_app; right; left | apply elem_of_app; by left | lia | lia | |].
    { intros j b Hj. rewrite HF; [by apply HC |]. apply lookup_lt_Some in Hj. lia. }
    cbn [mbind res_bind]. eexists q, d', m2, _. split; [done |]. split; [| done].
    rewrite <- (insert_insert_eq R i (resize (Z.to_nat sz) None c) (replicate (Z.to_nat sz) None)).
    apply (state_update d' m' _ _ _ m2 i q sz _ HS' HI2);
      [rewrite lookup_insert_eq; by eexists | by rewrite lookup_insert_eq | apply elem_of_app; right; left | done | |].
    + rewrite length_resize. lia.
    + by apply covers_resize.
Qed.

Lemma free_bind d m bs ptrs R i : heap_state d m bs ptrs R -> heap_state d m bs ptrs (delete i R).
Proof using Type.
  intros [HI HV HO]. split; [done | |].
  - intros j c [_ Hj]%lookup_delete_Some. by apply HV.
  - intros j k p [c [_ Hj]%lookup_delete_Some] [c' [_ Hk]%lookup_delete_Some]. apply HO; by eexists.
Qed.

Lemma covers_inserts m p c off (l : bytes) :
  covers m p c -> covers (put_bytes m (p + Z.of_nat off) l) p (list_inserts off (Some <$> l) c).
Proof.
  intros HC j b Hj. rewrite byte_at_put. replace (p + Z.of_nat j - (p + Z.of_nat off)) with (Z.of_nat j - Z.of_nat off) by lia.
  apply list_lookup_inserts_Some in Hj as [[Ho Hj] | (Ho & _ & Hj)].
  - rewrite length_fmap in Ho. destruct (zget l (Z.of_nat j - Z.of_nat off)) eqn:Eb; [apply zget_some in Eb; lia |].
    by apply HC.
  - rewrite list_lookup_fmap in Hj. unfold zget. destruct (Z.ltb_spec (Z.of_nat j - Z.of_nat off) 0); [lia |].
    replace (Z.to_nat (Z.of_nat j - Z.of_nat off)) with (j - off)%nat by lia.
    destruct (l !! (j - off)%nat); [by injection Hj | done].
Qed.

Lemma heap_step_spec d m bs ptrs R top o :
  heap_state d m bs ptrs R -> last_ptr d <= top -> op_ok R top o ->
  exists d' m' bs' ptrs' out, heap_step d m ptrs o = Ok (d', m', ptrs', out) /\
    heap_state d' m' bs' ptrs' (fst (store_step R o)) /\ Forall2 agrees (snd (store_step R o)) out /\
    last_ptr d' <= top + request o + 15.
Proof using Hgrow Hlimit Hslack.
  intros HS Htop Ho. pose proof (hs_inv _ _ _ _ _ HS) as HI.
  destruct o as [i sz | i n sz | i sz | i | i off l | i off n]; cbn [op_ok heap_step store_step fst snd request] in *.
  - destruct Ho as [Hs Hr]. destruct (malloc_bind d m bs ptrs R i sz HS Hs) as (d' & m' & -> & HS' & _ & HL); [unfold fits; lia |].
    cbn [mbind res_bind]. eexists d', m', _, _, []. split; [done |]. split; [exact HS' |]. split; [constructor | lia].
  - destruct Ho as [Hs Hr]. destruct (calloc_bind d m bs ptrs R i n sz HS Hs) as (p & d' & m' & bs' & -> & HS' & HL); [unfold fits; lia |].
    eexists d', m', bs', _, []. split; [done |]. split; [exact HS' |]. split; [constructor | lia].
  - destruct Ho as (Hs & Hr & c & Hc). unfold known. rewrite Hc.
    destruct (realloc_bind d m bs ptrs R i sz c HS Hs) as (p & d' & m' & bs' & -> & HS' & HL); [unfold fits; lia | done |].
    eexists d', m', bs', _, []. split; [done |]. split; [exact HS' |]. split; [constructor | lia].
  - eexists d, m, bs, ptrs, []. split; [done |]. split; [by apply free_bind |]. split; [constructor | lia].
  - destruct Ho as (c & Hc & H1 & H2). unfold known. rewrite Hc.
    destruct (hs_var _ _ _ _ _ HS i c Hc) as (p & s & Ep & Hin & Hlen & HC). unfold var. rewrite Ep.
    destruct (inv_block d m bs p s HI Hin) as (H3 & H4 & _). pose proof (ai_base _ _ _ HI). pose proof (ai_room _ _ _ HI).
    rewrite store_ok by lia. cbn [mbind res_bind]. eexists d, _, bs, ptrs, []. split; [done |]. split; [| split; [constructor | lia]].
    apply (state_update d m bs ptrs R _ i p s _ HS); [| by eexists | done | done | | by rewrite length_inserts |].
    + apply (inv_write d m bs p s); [done | done | lia | lia].
    + intros x Hx. apply byte_at_put_out. lia.
    + rewrite <- (Z2Nat.id off) at 1 by lia. by apply covers_inserts.
  - destruct Ho as (c & Hc & H1 & H2 & H3). unfold known. rewrite Hc.
    destruct (hs_var _ _ _ _ _ HS i c Hc) as (p & s & Ep & Hin & Hlen & HC). unfold var. rewrite Ep.
    destruct (inv_block d m bs p s HI Hin) as (H4 & H5 & _). pose proof (ai_base _ _ _ HI). pose proof (ai_room _ _ _ HI).
    rewrite load_ok by lia. cbn [mbind res_bind]. eexists d, m, bs, ptrs, _. split; [done |]. split; [done |]. split; [| lia].
    apply Forall2_same_length_lookup_2.
    + rewrite <- (Nat2Z.id (length (slice c off n))), <- (Nat2Z.id (length (get_bytes m (p + off) n))).
      rewrite len_slice, len_get_bytes by lia. done.
    + intros j ob b Hob Hb. unfold slice, ztake, zdrop in Hob. apply lookup_take_Some in Hob as [Hob Hj].
      rewrite lookup_drop in Hob. unfold get_bytes in Hb. rewrite list_lookup_fmap, lookup_seqZ_lt in Hb by lia.
      injection Hb as <-. destruct ob as [b |]; [right | by left]. f_equal. rewrite <- (HC _ _ Hob). f_equal. lia.
Qed.

Lemma heap_run_spec os : forall d m bs ptrs R top,
  heap_state d m bs ptrs R -> last_ptr d <= top -> ops_ok R top os ->
  exists outs, heap_run d m ptrs os = Ok outs /\ Forall2 (Forall2 agrees) (store_run R os) outs.
Proof using Hgrow Hlimit Hslack.
  induction os as [| o os IH]; intros d m bs ptrs R top HS Ht HOs; [by exists [] |]. destruct HOs as [Ho HOs].
  destruct (heap_step_spec d m bs ptrs R top o HS Ht Ho) as (d' & m' & bs' & ptrs' & out & E & HS' & HA & Ht').
  cbn [heap_run store_run]. rewrite E. cbn [mbind res_bind].
  destruct (store_step R o) as [R' known_out]. cbn [fst snd] in *.
  destruct (IH d' m' bs' ptrs' R' _ HS' Ht' HOs) as (outs & -> & HAs). exists (out :: outs). split; [done |].
  by constructor.
Qed.

(** The object as constructed before [main]. *)
Definition starts (heap_base : Z) (m : memory) : Prop :=
  0 < heap_base < 2 ^ 31 /\ align8 heap_base < mem_pages m * PAGE <= align8 heap_base + slack /\ mem_pages m <= limit.

Lemma starts_inv heap_base m : starts heap_base m -> alloc_inv (ds_new heap_base m) m [].
Proof using Type.
  intros (Hb & Hr & Hp). unfold ds_new. rewrite align_8 by lia. destruct (align8_bounds heap_base).
  split; cbn [heap last_ptr next_page]; try done. lia.
Qed.

(** ** Properties *)

(** C7. Memory behaves: a program that uses malloc, calloc, realloc and free, and writes and
    reads within its blocks, reads back what it wrote (zeros from calloc, what realloc had
    to keep), as if each variable had bytes of its own, however the requests are ordered
    and as long as they fit into the memory the host grants. *)
Theorem heap_program_correct heap_base m os :
  starts heap_base m -> ops_ok ∅ (align8 heap_base) os ->
  exists outs, heap_run (ds_new heap_base m) m ∅ os = Ok outs /\ Forall2 (Forall2 agrees) (store_run ∅ os) outs.
Proof using Hgrow Hlimit Hslack.
  intros Hst HOs. pose proof (starts_inv _ _ Hst) as HI.
  apply (heap_run_spec os _ m [] ∅ ∅ (align8 heap_base)); [| | done].
  - split; [done | |]; intros i *; rewrite lookup_empty; [done | by intros [? ?]].
  - unfold ds_new. cbn [last_ptr]. rewrite align_8; [done | destruct Hst; lia | destruct Hst; lia].
Qed.

(** A request just below 2^32 bytes does not fail: with the header the size wraps around
    to zero, nothing is set aside, and the next block is at the same address. *)
Theorem malloc_same_block d m bs n :
  alloc_inv d m bs -> 0 < n -> fits d n ->
  exists m' d'' m'', malloc can_grow d m (2 ^ 32 - 8) = Ok (last_ptr d + 8, d, m') /\
    malloc can_grow d m' n = Ok (last_ptr d + 8, d'', m'').
Proof using Hgrow Hlimit Hslack.
  intros HI Hn Hf. pose proof HI as [[HB1 HB2] HL HN HR HP]. destruct (last_room d m bs HI) as (HB3 & HB4 & HR8).
  exists (put_bytes m (last_ptr d) (word_bytes (2 ^ 32 - 8))).
  assert (malloc can_grow d m (2 ^ 32 - 8)
          = Ok (last_ptr d + 8, d, put_bytes m (last_ptr d) (word_bytes (2 ^ 32 - 8)))) as E.
  { unfold malloc, ds_alloc. cbn [Z.eqb]. change (2 ^ 32 - 8 =? 0) with false. cbv iota zeta.
    change (align length_size ALIGN) with 8. change (u32 (2 ^ 32 - 8 + 8)) with 0. change (Z.shiftr 0 16) with 0.
    rewrite !Z.add_0_r, (wrap_small 32 (last_ptr d)) by (unfold PAGE in *; lia).
    rewrite align_8 by (unfold PAGE in *; lia). rewrite align8_id by done.
    rewrite (wrap_small 32 (next_page d)) by (unfold PAGE in *; lia).
    rewrite Z.shiftl_mul_pow2 by lia. change (2 ^ 16) with PAGE. rewrite HN, wrap_small by (unfold PAGE in *; lia).
    destruct (Z.leb_spec (mem_pages m * PAGE) (last_ptr d)); [lia |]. change (0 <? 0) with false. cbn [mbind res_bind].
    rewrite store_word_ok by lia. cbn [mbind res_bind]. rewrite wrap_small by (unfold PAGE in *; lia).
    rewrite <- HN. by destruct d. }
  assert (alloc_inv d (put_bytes m (last_ptr d) (word_bytes (2 ^ 32 - 8))) bs) as HI'.
  { split; try done. apply (layout_frame m); [done |]. intros q sz Hin. apply word_at_put_other.
    destruct (inv_block d m bs q sz HI Hin). lia. }
  destruct (ds_alloc_spec d _ bs n HI' Hn Hf) as (d'' & m'' & E' & _). by exists d'', m''.
Qed.

(** A failed growth goes unnoticed: the builtin answers -1, the code looks for 0. The
    caller gets the address of bytes that are not in memory, and filling them traps. *)
Theorem malloc_beyond_memory d m bs sz :
  alloc_inv d m bs -> 0 < sz -> fits d sz -> mem_pages m * PAGE < last_ptr d + 8 + sz ->
  exists d' m', malloc (fun _ _ => false) d m sz = Ok (last_ptr d + 8, d', m') /\ mem_pages m' = mem_pages m /\
    mem_fill m' (last_ptr d + 8) 0 sz = Undef "memory access out of bounds".
Proof using Hlimit Hslack.
  intros HI Hsz Hf Hout. destruct (last_room d m bs HI) as (HB3 & HB4 & HR8).
  destruct (ds_alloc_shape d m bs sz HI Hsz Hf) as (k & Hk0 & Hk & Hroom & E). unfold malloc. rewrite E.
  assert (grown (fun _ _ => false) m k = Ok m) as ->.
  { unfold grown. destruct (0 <? k); [| done]. by rewrite memory_grow_refused. }
  cbn [mbind res_bind]. rewrite store_word_ok by lia. cbn [mbind res_bind]. eexists _, _. split; [done |]. split; [done |].
  unfold mem_fill, mem_store, in_memory. rewrite length_replicate, mem_pages_put.
  destruct (Z.leb_spec (last_ptr d + 8 + Z.of_nat (Z.to_nat sz)) (mem_pages m * PAGE)); [lia |]. by rewrite andb_false_r.
Qed.
End Spec.

(** *** Concrete runs: two pages, of at most a hundred, and the heap from address 131060 on *)

Definition demo_memory : memory := mkMem 2 ∅.
Definition demo_grow (old n : Z) : bool := old + n <=? 100.

Lemma demo_grow_ok old n : old + n <= 100 -> demo_grow old n = true.
Proof. apply Z.leb_le. Qed.

Lemma demo_starts : starts 100 PAGE 131060 demo_memory.
Proof. repeat split; vm_compute; done. Qed.

Lemma heap_program_correct_witness :
  let os := [HMalloc 0 5; HStore 0 0 [1; 2; 3; 4; 5]; HCalloc 1 2 3; HStore 1 2 [9]; HRealloc 0 30; HMalloc 2 8;
             HStore 2 0 [7; 7; 7; 7; 7; 7; 7; 7]; HLoad 0 0 6; HLoad 1 0 4; HFree 1; HRealloc 0 3; HLoad 0 0 3] in
  store_run ∅ os = [[]; []; []; []; []; []; []; [Some 1; Some 2; Some 3; Some 4; Some 5; None];
                    [Some 0; Some 0; Some 9; Some 0]; []; []; [Some 1; Some 2; Some 3]] /\
  exists outs, heap_run demo_grow (ds_new 131060 demo_memory) demo_memory ∅ os = Ok outs /\
    Forall2 (Forall2 agrees) (store_run ∅ os) outs.
Proof.
  split; [vm_compute; reflexivity |].
  apply (heap_program_correct demo_grow 100 ltac:(lia) demo_grow_ok PAGE ltac:(lia)); [exact demo_starts |].
  cbn [ops_ok op_ok store_step fst request];
    repeat match goal with |- _ /\ _ => split | |- exists _, _ => eexists | |- is_Some _ => eexists end;
    try (vm_compute; reflexivity); by vm_compute.
Defined.

(** Right after the start. *)
Lemma demo_inv : alloc_inv 100 PAGE (ds_new 131060 demo_memory) demo_memory [].
Proof. exact (starts_inv 100 PAGE 131060 demo_memory demo_starts). Qed.

Lemma malloc_same_block_witness :
  exists m' d'' m'', malloc demo_grow (ds_new 131060 demo_memory) demo_memory (2 ^ 32 - 8)
      = Ok (131072, ds_new 131060 demo_memory, m') /\
    malloc demo_grow (ds_new 131060 demo_memory) m' 16 = Ok (131072, d'', m'').
Proof.
  exact (malloc_same_block demo_grow 100 ltac:(lia) demo_grow_ok PAGE ltac:(lia) _ _ [] 16 demo_inv ltac:(lia) ltac:(by vm_compute)).
Defined.

Lemma malloc_beyond_memory_witness :
  exists d' m', malloc (fun _ _ => false) (ds_new 131060 demo_memory) demo_memory 100 = Ok (131072, d', m') /\ mem_pages m' = 2 /\
    mem_fill m' 131072 0 100 = Undef "memory access out of bounds".
Proof.
  exact (malloc_beyond_memory 100 ltac:(lia) PAGE ltac:(lia) _ _ [] 100 demo_inv ltac:(lia) ltac:(by vm_compute) ltac:(by vm_compute)).
Defined.
