(* ===== verification/HeapMalloc.v ===== *)
(** * malloc/malloc.cpp: the allocator with reuse of freed memory

    [sbrk] on top of the growing memory, heaps cut into chunks (a word with the size and
    the bit "allocated", then the bytes), and the manager of up to sixteen heaps. The
    library is built with simple_malloc.cpp in its place. The objects of the code are
    records here, the chunks' words are in the linear memory. *)

From S2P Require Import Prelude LinearMemory.

(** ** Definitions *)

Definition INT32_MAX : Z := 2147483647.
Definition size_marker : Z := 4.
Definition mem_block : Z := 8.
Definition rem_mem_block_mask : Z := mem_block - 1.
Definition initial_heap_size : Z := 8192.
Definition heaps_size : Z := 16.
Definition alloc_memory_mask : Z := 2 ^ 31.

(** A null pointer, and the [(void* )-1] of [sbrk]. *)
Definition nullptr : Z := 0.
Definition MINUS_ONE : Z := 2 ^ 32 - 1.

(** *** sbrk *)

Section Sbrk.
Context (can_grow : Z -> Z -> bool).

(** The static [sbrk_bytes] is [None] before the first call. *)
Definition sbrk (sbrk_bytes : option Z) (m : memory) (num_bytes : Z) : Z * option Z * memory :=
  let bytes := match sbrk_bytes with Some b => b | None => u32 (mem_pages m * PAGE) end in
  if INT32_MAX <? num_bytes then (MINUS_ONE, Some bytes, m)
  else
    let current_pages := mem_pages m in
    let num := Z.land (u32 (num_bytes + 7)) (u32 (Z.lnot 7)) in
    let num_desired_pages := Z.shiftr (u32 (bytes + num + PAGE - 1)) 16 in
    if current_pages <? num_desired_pages then
      let '(_, m') := memory_grow can_grow m (u32 (num_desired_pages - current_pages)) in
      if num_desired_pages =? mem_pages m' then (bytes, Some (u32 (bytes + num)), m') else (MINUS_ONE, Some bytes, m')
    else (bytes, Some (u32 (bytes + num)), m).
End Sbrk.

(** *** class buffer_ptr: a chunk, by the address of its bytes *)

Record buffer_ptr := mkBuffer { b_ptr : Z; b_size : Z; b_heap_end : Z }.

Definition header (m : memory) (ptr : Z) : res Z := load_word m (u32 (ptr - size_marker)).
Definition set_header (m : memory) (ptr v : Z) : res memory := store_word m (u32 (ptr - size_marker)) v.

(** The constructor that reads the size. *)
Definition buffer_at (m : memory) (ptr heap_end : Z) : res buffer_ptr :=
  w ← header m ptr; Ok (mkBuffer ptr (Z.land w (Z.lnot alloc_memory_mask)) heap_end).

(** [size(val)] keeps the bit. *)
Definition buffer_resize (m : memory) (b : buffer_ptr) (val : Z) : res (buffer_ptr * memory) :=
  w ← header m (b_ptr b);
  m' ← set_header m (b_ptr b) (Z.lor val (Z.land w alloc_memory_mask));
  Ok (mkBuffer (b_ptr b) val (b_heap_end b), m').

(** The constructor that sets the size. *)
Definition buffer_new (m : memory) (ptr buff_size heap_end : Z) : res (buffer_ptr * memory) :=
  buffer_resize m (mkBuffer ptr 0 heap_end) buff_size.

Definition buffer_end (b : buffer_ptr) : Z := u32 (b_ptr b + b_size b).
Definition next_ptr (b : buffer_ptr) : Z :=
  let next := u32 (buffer_end b + size_marker) in if b_heap_end b <=? next then nullptr else next.
Definition mark_alloc (m : memory) (b : buffer_ptr) : res memory :=
  w ← header m (b_ptr b); set_header m (b_ptr b) (Z.lor w alloc_memory_mask).
Definition mark_free (m : memory) (b : buffer_ptr) : res memory :=
  w ← header m (b_ptr b); set_header m (b_ptr b) (Z.land w (Z.lnot alloc_memory_mask)).
Definition is_alloc (m : memory) (b : buffer_ptr) : res bool :=
  w ← header m (b_ptr b); Ok (negb (Z.land w alloc_memory_mask =? 0)).

(** The free chunks that follow. *)
Fixpoint merge_loop (fuel : nat) (m : memory) (b : buffer_ptr) (needed_size possible_size : Z) : res Z :=
  match fuel with
  | O => Fuel
  | S fuel' =>
      if (possible_size <? needed_size) && (u32 (b_ptr b + possible_size) <? b_heap_end b) then
        next_mem_flag_size ← load_word m (u32 (b_ptr b + possible_size));
        if negb (Z.land next_mem_flag_size alloc_memory_mask =? 0) then Ok possible_size
        else
          merge_loop fuel' m b needed_size
            (u32 (possible_size + Z.land next_mem_flag_size (Z.lnot alloc_memory_mask) + size_marker))
      else Ok possible_size
  end.

(** Each round adds at least a marker. *)
Definition merge_fuel (needed_size : Z) : nat := S (S (Z.to_nat (needed_size / size_marker))).

Definition merge_contiguous (m : memory) (b : buffer_ptr) (needed_size : Z) (all_or_nothing : bool)
    : res (bool * buffer_ptr * memory) :=
  if all_or_nothing && (u32 (b_heap_end b - b_ptr b) <? needed_size) then Ok (false, b, m)
  else
    possible_size ← merge_loop (merge_fuel needed_size) m b needed_size (b_size b);
    if all_or_nothing && (possible_size <? needed_size) then Ok (false, b, m)
    else
      let new_size := if possible_size <? needed_size then possible_size else needed_size in
      '(b', m1) ← buffer_resize m b new_size;
      m2 ← (if needed_size <? possible_size then
              let freed_size := u32 (possible_size - needed_size - size_marker) in
              '(freed_remainder, m') ← buffer_new m1 (u32 (b_ptr b + needed_size + size_marker)) freed_size (b_heap_end b);
              mark_free m' freed_remainder
            else Ok m1);
      Ok (new_size =? needed_size, b', m2).

(** *** class memory: one heap *)

Record heap := mkHeap { heap_size : Z; heap_ptr : Z; offset : Z }.

Definition heap_new : heap := mkHeap 0 nullptr 0.
Definition heap_init (h : heap) (mem_heap size : Z) : heap := mkHeap size mem_heap (offset h).
Definition is_init (h : heap) : bool := negb (heap_ptr h =? nullptr).
Definition heap_end (h : heap) : Z := u32 (heap_ptr h + heap_size h).
Definition is_in_heap (h : heap) (ptr : Z) : bool := (u32 (heap_ptr h + size_marker) <=? ptr) && (ptr <? heap_end h).
Definition is_capacity_remaining (h : heap) : bool := u32 (offset h + size_marker) <? heap_size h.

Definition heap_malloc (h : heap) (m : memory) (size : Z) : res (Z * heap * memory) :=
  let used_up_size := u32 (offset h + size + size_marker) in
  if heap_size h <? used_up_size then Ok (nullptr, h, m)
  else
    '(new_buff, m1) ← buffer_new m (u32 (heap_ptr h + offset h + size_marker)) size (heap_end h);
    let h' := mkHeap (heap_size h) (heap_ptr h) (u32 (offset h + size + size_marker)) in
    m2 ← mark_alloc m1 new_buff; Ok (b_ptr new_buff, h', m2).

Fixpoint from_freed_loop (fuel : nat) (h : heap) (m : memory) (size current : Z) : res (Z * memory) :=
  match fuel with
  | O => Fuel
  | S fuel' =>
      if current =? nullptr then Ok (nullptr, m)
      else
        current_buffer ← buffer_at m current (heap_end h);
        b ← is_alloc m current_buffer;
        if b : bool then from_freed_loop fuel' h m size (next_ptr current_buffer)
        else
          '(fits, current_buffer', m1) ← merge_contiguous m current_buffer size false;
          if fits : bool then m2 ← mark_alloc m1 current_buffer'; Ok (current, m2)
          else from_freed_loop fuel' h m1 size (next_ptr current_buffer')
  end.
Definition malloc_from_freed (h : heap) (m : memory) (size : Z) : res (Z * memory) :=
  from_freed_loop (S (S (Z.to_nat (heap_size h / size_marker)))) h m size (u32 (heap_ptr h + size_marker)).

(** The block or null, the original size, the heap and the memory. *)
Definition realloc_in_place (h : heap) (m : memory) (ptr size : Z) : res (Z * Z * heap * memory) :=
  let end_of_buffer := heap_end h in
  orig_buffer ← buffer_at m ptr end_of_buffer;
  let orig_ptr_size := b_size orig_buffer in
  let orig_buffer_end := buffer_end orig_buffer in
  if end_of_buffer <? orig_buffer_end then Ok (nullptr, 0, h, m)
  else if u32 (end_of_buffer - size) <? ptr then Ok (nullptr, orig_ptr_size, h, m)
  else if size <? orig_ptr_size then
    let new_ptr := u32 (ptr + size + size_marker) in
    '(excess_to_free, m1) ← buffer_new m new_ptr (u32 (orig_ptr_size - size)) (heap_end h);
    m2 ← mark_free m1 excess_to_free; Ok (ptr, orig_ptr_size, h, m2)
  else if orig_buffer_end =? u32 (heap_ptr h + offset h) then
    '(_, m1) ← buffer_resize m orig_buffer size;
    Ok (ptr, orig_ptr_size, mkHeap (heap_size h) (heap_ptr h) (u32 (offset h + u32 (size - orig_ptr_size))), m1)
  else if size =? orig_ptr_size then Ok (ptr, orig_ptr_size, h, m)
  else
    '(merged, orig_buffer', m1) ← merge_contiguous m orig_buffer size true;
    if negb merged then Ok (nullptr, orig_ptr_size, h, m1)
    else m2 ← mark_alloc m1 orig_buffer'; Ok (ptr, orig_ptr_size, h, m2).

Definition heap_free (h : heap) (m : memory) (ptr : Z) : res memory :=
  to_free ← buffer_at m ptr (heap_end h); mark_free m to_free.

Definition cleanup_remaining (h : heap) (m : memory) : res (heap * memory) :=
  if offset h =? heap_size h then Ok (h, m)
  else
    let size := u32 (heap_size h - offset h - size_marker) in
    '(new_buff, m1) ← buffer_new m (u32 (heap_ptr h + offset h + size_marker)) size (heap_end h);
    m2 ← mark_free m1 new_buff; Ok (mkHeap (heap_size h) (heap_ptr h) (heap_size h), m2).

Definition expand_memory (h : heap) (exp_mem size : Z) : bool * heap :=
  if heap_end h =? exp_mem then (true, mkHeap (u32 (heap_size h + size)) (heap_ptr h) (offset h)) else (false, h).

(** *** class memory_manager *)

(** [sbrk_static]: the static variable of [sbrk]. *)
Record memory_manager := mkManager {
  available_heaps : list heap;
  heaps_actual_size : Z;
  active_heap : Z;
  active_free_heap : Z;
  sbrk_static : option Z
}.

(** The global object; [_initial_heap] is a member, at the address [initial_heap]. *)
Definition manager_new : memory_manager := mkManager (replicate (Z.to_nat heaps_size) heap_new) 0 0 0 None.

Definition get_heap (g : memory_manager) (i : Z) : res heap :=
  match zget (available_heaps g) i with Some h => Ok h | None => Undef "index outside _available_heaps" end.
Definition put_heap (g : memory_manager) (i : Z) (h : heap) : memory_manager :=
  mkManager (<[Z.to_nat i := h]> (available_heaps g)) (heaps_actual_size g) (active_heap g) (active_free_heap g) (sbrk_static g).

Definition adjust_to_mem_block (size : Z) : Z :=
  let remainder := Z.land (u32 (size + size_marker)) rem_mem_block_mask in
  if 0 <? remainder then u32 (size + (mem_block - remainder)) else size.

Section Manager.
Context (can_grow : Z -> Z -> bool) (initial_heap : Z).

Definition with_sbrk (g : memory_manager) (s : option Z) : memory_manager :=
  mkManager (available_heaps g) (heaps_actual_size g) (active_heap g) (active_free_heap g) s.
Definition with_sizes (g : memory_manager) (actual active : Z) : memory_manager :=
  mkManager (available_heaps g) actual active (active_free_heap g) (sbrk_static g).

(** How much of the memory to take. *)
Definition heap_adjustment (current_memory_size : Z) : Z :=
  let wasm_page_size := 64 * 1024 in
  if current_memory_size mod wasm_page_size <=? wasm_page_size - 1024 then
    u32 (u32 (current_memory_size + wasm_page_size) - current_memory_size mod wasm_page_size - current_memory_size)
  else
    u32 (u32 (current_memory_size + wasm_page_size * 2) - current_memory_size mod (wasm_page_size * 2) - current_memory_size).

(** The index of the heap to go on with. *)
Definition next_active_heap (g : memory_manager) (m : memory) : res (option Z * memory_manager * memory) :=
  current_memory ← get_heap g (active_heap g);
  let '(current_memory_size, s1, m1) := sbrk can_grow (sbrk_static g) m 0 in
  let g1 := with_sbrk g s1 in
  if INT32_MAX <? current_memory_size then Ok (None, g1, m1)
  else
    let heap_adj := heap_adjustment current_memory_size in
    let '(new_memory_start, s2, m2) := sbrk can_grow s1 m1 heap_adj in
    let g2 := with_sbrk g1 s2 in
    if new_memory_start =? MINUS_ONE then
      '(h, m3) ← cleanup_remaining current_memory m2;
      let g3 := put_heap g2 (active_heap g) h in
      Ok (None, with_sizes g3 (u32 (active_heap g + 1)) (u32 (active_heap g + 1)), m3)
    else
      let '(expanded, h) := expand_memory current_memory new_memory_start heap_adj in
      if expanded then Ok (Some (active_heap g), put_heap g2 (active_heap g) h, m2)
      else
        '(h, m3) ← cleanup_remaining current_memory m2;
        let active := u32 (active_heap g + 1) in
        let g3 := with_sizes (put_heap g2 (active_heap g) h) (heaps_actual_size g) active in
        next ← get_heap g3 active;
        Ok (Some active, put_heap g3 active (heap_init next new_memory_start heap_adj), m3).

(** [while (current != nullptr)]. *)
Fixpoint bump_loop (fuel : nat) (g : memory_manager) (m : memory) (size : Z) (current : option Z)
    : res (Z * memory_manager * memory) :=
  match fuel with
  | O => Fuel
  | S fuel' =>
      match current with
      | None => Ok (nullptr, g, m)
      | Some i =>
          h ← get_heap g i;
          '(buffer, h', m1) ← heap_malloc h m size;
          let g1 := put_heap g i h' in
          if negb (buffer =? nullptr) then Ok (buffer, g1, m1)
          else '(current', g2, m2) ← next_active_heap g1 m1; bump_loop fuel' g2 m2 size current'
      end
  end.

(** [do ... while (_active_free_heap != end_free_heap)]. *)
Fixpoint freed_loop (fuel : nat) (g : memory_manager) (m : memory) (size end_free_heap : Z)
    : res (Z * memory_manager * memory) :=
  match fuel with
  | O => Fuel
  | S fuel' =>
      h ← get_heap g (active_free_heap g);
      '(buffer, m1) ← malloc_from_freed h m size;
      if negb (buffer =? nullptr) then Ok (buffer, g, m1)
      else
        let next := u32 (active_free_heap g + 1) in
        let next' := if next =? heaps_actual_size g then 0 else next in
        let g1 := mkManager (available_heaps g) (heaps_actual_size g) (active_heap g) next' (sbrk_static g) in
        if next' =? end_free_heap then Ok (nullptr, g1, m1) else freed_loop fuel' g1 m1 size end_free_heap
  end.

(** Every growth of the memory adds 1024 bytes; a heap is looked at once. *)
Definition bump_fuel (size : Z) : nat := Z.to_nat (size / 1024 + 4).

Definition manager_malloc (g : memory_manager) (m : memory) (size : Z) : res (Z * memory_manager * memory) :=
  if size =? 0 then Ok (nullptr, g, m)
  else
    let g1 := if heaps_actual_size g =? 0 then with_sizes g heaps_size (active_heap g) else g in
    let size := adjust_to_mem_block size in
    '(current, g2) ← (if active_heap g1 <? heaps_actual_size g1 then
        start_heap ← get_heap g1 (active_heap g1);
        let h := if (active_heap g1 =? 0) && negb (is_init start_heap)
                 then heap_init start_heap initial_heap initial_heap_size else start_heap in
        Ok (Some (active_heap g1), put_heap g1 (active_heap g1) h)
      else Ok (None, g1));
    '(buffer, g3, m1) ← bump_loop (bump_fuel size) g2 m size current;
    if negb (buffer =? nullptr) then Ok (buffer, g3, m1)
    else freed_loop (S (Z.to_nat (heaps_actual_size g3))) g3 m1 size (active_free_heap g3).

(** The first initialised heap that holds the pointer. *)
Fixpoint heap_of (hs : list heap) (i actual ptr : Z) : option Z :=
  match hs with
  | [] => None
  | h :: hs' =>
      if (i <? actual) && is_init h then if is_in_heap h ptr then Some i else heap_of hs' (i + 1) actual ptr else None
  end.

Definition manager_free (g : memory_manager) (m : memory) (ptr : Z) : res memory :=
  if ptr =? nullptr then Ok m
  else
    match heap_of (available_heaps g) 0 (heaps_actual_size g) ptr with
    | Some i => h ← get_heap g i; heap_free h m ptr
    | None => Ok m
    end.

Definition manager_realloc (g : memory_manager) (m : memory) (ptr size : Z) : res (Z * memory_manager * memory) :=
  if size =? 0 then m' ← manager_free g m ptr; Ok (nullptr, g, m')
  else
    let size := adjust_to_mem_block size in
    '(realloc_ptr, orig_ptr_size, g1, m1) ← (
      if ptr =? nullptr then Ok (nullptr, 0, g, m)
      else
        match heap_of (available_heaps g) 0 (heaps_actual_size g) ptr with
        | Some i =>
            h ← get_heap g i;
            '(p, orig, h', m') ← realloc_in_place h m ptr size; Ok (p, orig, put_heap g i h', m')
        | None => Ok (nullptr, 0, g, m)
        end);
    if negb (realloc_ptr =? nullptr) then Ok (realloc_ptr, g1, m1)
    else
      '(new_alloc, g2, m2) ← manager_malloc g1 m1 size;
      if new_alloc =? nullptr then Ok (nullptr, g2, m2)
      else
        let copy_size := if size <? orig_ptr_size then size else orig_ptr_size in
        if 0 <? copy_size then
          m3 ← mem_copy m2 new_alloc ptr copy_size;
          m4 ← manager_free g2 m3 ptr; Ok (new_alloc, g2, m4)
        else Ok (new_alloc, g2, m2).

(** [calloc] does not look at the pointer before [memset]. *)
Definition manager_calloc (g : memory_manager) (m : memory) (count size : Z) : res (Z * memory_manager * memory) :=
  '(ptr, g', m') ← manager_malloc g m (u32 (count * size));
  m'' ← mem_fill m' ptr 0 (u32 (count * size)); Ok (ptr, g', m'').
End Manager.
