(* ===== verification/HeapMallocFacts.v ===== *)
(** * Theorems about malloc/malloc.cpp

    A heap is a chain of chunks; the operations of a heap keep it, and the blocks of the
    program with their bytes. *)

From S2P Require Import Prelude LinearMemory HeapMalloc.

(** ** Chunk words *)

Abbreviation chunk := (Z * bool)%type.
Definition BIT : Z := 2 ^ 31.
Definition chunk_word (c : chunk) : Z := fst c + (if snd c : bool then BIT else 0).
Definition chunk_ok (c : chunk) : Prop := 0 < fst c < BIT /\ fst c mod 8 = 4.

Lemma land_bit w : Z.land w BIT = if Z.testbit w 31 then BIT else 0.
Proof.
  apply Z.bits_inj'. intros i Hi. unfold BIT. rewrite Z.land_spec, Z.pow2_bits_eqb by lia.
  destruct (Z.eqb_spec 31 i) as [<- |].
  - rewrite andb_true_r. by destruct (Z.testbit w 31).
  - rewrite andb_false_r. destruct (Z.testbit w 31); [| by rewrite Z.bits_0].
    rewrite Z.pow2_bits_false by done. done.
Qed.

Lemma bit_size_word v (a : bool) : 0 <= v < BIT ->
  Z.lor v (if a then BIT else 0) = v + (if a then BIT else 0) /\
  Z.testbit (v + (if a then BIT else 0)) 31 = a /\
  Z.land (v + (if a then BIT else 0)) (Z.lnot BIT) = v.
Proof.
  intros Hv. assert (Z.lor v (if a then BIT else 0) = v + (if a then BIT else 0)) as E.
  { destruct a; [| by rewrite Z.lor_0_r, Z.add_0_r]. rewrite Z.lor_comm. change BIT with (Z.shiftl 1 31) at 1.
    rewrite lor_shiftl_add by (unfold BIT in Hv; lia). unfold BIT. lia. }
  split; [done |]. rewrite <- E. split.
  - rewrite Z.lor_spec, (testbit_above v 31 31) by (unfold BIT in Hv; lia). by destruct a.
  - apply Z.bits_inj'. intros i Hi. rewrite Z.land_spec, Z.lnot_spec, Z.lor_spec by lia.
    unfold BIT. rewrite Z.pow2_bits_eqb by lia. destruct (Z.eqb_spec 31 i) as [<- |].
    + rewrite andb_false_r. symmetry. apply (testbit_above v 31 31); unfold BIT in Hv; lia.
    + rewrite andb_true_r. destruct a; [| by rewrite Z.bits_0, orb_false_r].
      rewrite Z.pow2_bits_false by done. by rewrite orb_false_r.
Qed.

Lemma chunk_word_range c : 0 <= fst c < BIT -> 0 <= chunk_word c < 2 ^ 32.
Proof. unfold chunk_word, BIT. destruct (snd c); lia. Qed.

Lemma size_of_word c : 0 <= fst c < BIT -> Z.land (chunk_word c) (Z.lnot alloc_memory_mask) = fst c.
Proof.
  intros Hc. unfold chunk_word. change alloc_memory_mask with BIT.
  by destruct (bit_size_word (fst c) (snd c) Hc) as (_ & _ & ->).
Qed.

Lemma bit_of_word c : 0 <= fst c < BIT -> Z.land (chunk_word c) alloc_memory_mask = if snd c then BIT else 0.
Proof.
  intros Hc. destruct (bit_size_word (fst c) (snd c) Hc) as (_ & E & _).
  change alloc_memory_mask with BIT. rewrite land_bit. unfold chunk_word. by rewrite E.
Qed.

(** ** Changing one header *)

(** [m'] is [m] with the word [c] at [q]. *)
Definition sets_header (m m' : memory) (q : Z) (c : chunk) : Prop :=
  mem_pages m' = mem_pages m /\ word_at m' q = chunk_word c /\
  forall x, x < q \/ q + 4 <= x -> byte_at m' x = byte_at m x.

Lemma sets_trans m m1 m2 q c1 c2 : sets_header m m1 q c1 -> sets_header m1 m2 q c2 -> sets_header m m2 q c2.
Proof. intros (P1 & _ & F1) (P2 & W2 & F2). split; [congruence |]. split; [done |]. intros x Hx. by rewrite F2, F1. Qed.

(** The word of the chunk whose bytes are at [ptr] is in memory. *)
Definition header_in (m : memory) (ptr : Z) : Prop := 4 <= ptr < 2 ^ 32 /\ ptr <= mem_pages m * PAGE.

Lemma chunk_header_ok m ptr : header_in m ptr -> header m ptr = Ok (word_at m (ptr - 4)).
Proof. intros [H1 H2]. unfold header, size_marker. rewrite wrap_small by lia. apply load_word_ok; lia. Qed.

Lemma set_header_ok m ptr c :
  header_in m ptr -> 0 <= fst c < BIT -> exists m', set_header m ptr (chunk_word c) = Ok m' /\ sets_header m m' (ptr - 4) c.
Proof.
  intros [H1 H2] Hc. unfold set_header, size_marker. rewrite wrap_small by lia. rewrite store_word_ok by lia.
  eexists. split; [done |]. split; [done |]. split; [by apply word_at_put, chunk_word_range |].
  intros x Hx. apply byte_at_put_out. cbn. lia.
Qed.

Lemma buffer_at_ok m ptr e c :
  header_in m ptr -> word_at m (ptr - 4) = chunk_word c -> 0 <= fst c < BIT ->
  buffer_at m ptr e = Ok (mkBuffer ptr (fst c) e).
Proof. intros Hh Hw Hc. unfold buffer_at. rewrite chunk_header_ok by done. cbn [mbind res_bind]. by rewrite Hw, size_of_word. Qed.

Lemma is_alloc_ok m b c :
  header_in m (b_ptr b) -> word_at m (b_ptr b - 4) = chunk_word c -> 0 <= fst c < BIT -> is_alloc m b = Ok (snd c).
Proof.
  intros Hh Hw Hc. unfold is_alloc. rewrite chunk_header_ok by done. cbn [mbind res_bind]. rewrite Hw, bit_of_word by done.
  by destruct (snd c).
Qed.

Lemma resize_ok m b v :
  header_in m (b_ptr b) -> 0 <= v < BIT ->
  exists m', buffer_resize m b v = Ok (mkBuffer (b_ptr b) v (b_heap_end b), m') /\
    sets_header m m' (b_ptr b - 4) (v, Z.testbit (word_at m (b_ptr b - 4)) 31).
Proof.
  intros Hh Hv. unfold buffer_resize. rewrite chunk_header_ok by done. cbn [mbind res_bind].
  change alloc_memory_mask with BIT. rewrite land_bit. set (a := Z.testbit _ 31).
  destruct (bit_size_word v a Hv) as (-> & _). destruct (set_header_ok m (b_ptr b) (v, a) Hh Hv) as (m' & E & HS).
  exists m'. unfold chunk_word in E. cbn [fst snd] in E. rewrite E. by split.
Qed.

Lemma mark_alloc_ok m b c :
  header_in m (b_ptr b) -> word_at m (b_ptr b - 4) = chunk_word c -> 0 <= fst c < BIT ->
  exists m', mark_alloc m b = Ok m' /\ sets_header m m' (b_ptr b - 4) (fst c, true).
Proof.
  intros Hh Hw Hc. unfold mark_alloc. rewrite chunk_header_ok by done. cbn [mbind res_bind]. rewrite Hw.
  assert (Z.lor (chunk_word c) alloc_memory_mask = chunk_word (fst c, true)) as ->.
  { unfold chunk_word. cbn [fst snd]. destruct (bit_size_word (fst c) (snd c) Hc) as (<- & _).
    destruct (bit_size_word (fst c) true Hc) as (<- & _). change alloc_memory_mask with BIT.
    rewrite <- Z.lor_assoc. destruct (snd c); [by rewrite Z.lor_diag | by rewrite Z.lor_0_l]. }
  by apply set_header_ok.
Qed.

Lemma mark_free_ok m b c :
  header_in m (b_ptr b) -> word_at m (b_ptr b - 4) = chunk_word c -> 0 <= fst c < BIT ->
  exists m', mark_free m b = Ok m' /\ sets_header m m' (b_ptr b - 4) (fst c, false).
Proof.
  intros Hh Hw Hc. unfold mark_free. rewrite chunk_header_ok by done. cbn [mbind res_bind]. rewrite Hw, size_of_word by done.
  assert (set_header m (b_ptr b) (fst c) = set_header m (b_ptr b) (chunk_word (fst c, false))) as ->
    by (f_equal; unfold chunk_word; cbn; lia).
  by apply set_header_ok.
Qed.

(** ** Chains *)

Fixpoint span (cs : list chunk) : Z := match cs with [] => 0 | c :: cs' => 4 + fst c + span cs' end.

Fixpoint chain (m : memory) (p : Z) (cs : list chunk) : Prop :=
  match cs with
  | [] => True
  | c :: cs' => chunk_ok c /\ word_at m p = chunk_word c /\ chain m (p + (4 + fst c)) cs'
  end.

(** The program's blocks in a chain. *)
Fixpoint blocks (p : Z) (cs : list chunk) : list (Z * Z) :=
  match cs with
  | [] => []
  | c :: cs' => (if snd c then [(p + 4, fst c)] else []) ++ blocks (p + (4 + fst c)) cs'
  end.

Lemma span_app l r : span (l ++ r) = span l + span r.
Proof. induction l as [| c l IH]; [done |]. cbn [app span]. lia. Qed.

Lemma chain_app m l r : forall p, chain m p (l ++ r) <-> chain m p l /\ chain m (p + span l) r.
Proof.
  induction l as [| c l IH]; intros p; cbn [app chain span]; [by rewrite Z.add_0_r; tauto |].
  rewrite IH. replace (p + (4 + fst c) + span l) with (p + (4 + fst c + span l)) by lia. tauto.
Qed.

Lemma blocks_app l r : forall p, blocks p (l ++ r) = blocks p l ++ blocks (p + span l) r.
Proof.
  induction l as [| c l IH]; intros p; cbn [app blocks span]; [by rewrite Z.add_0_r |].
  rewrite IH, app_assoc. by replace (p + (4 + fst c) + span l) with (p + (4 + fst c + span l)) by lia.
Qed.

Lemma chain_span m cs : forall p, chain m p cs -> 0 <= span cs /\ span cs mod 8 = 0.
Proof.
  induction cs as [| c cs IH]; intros p; cbn [chain span]; [done |]. intros (Hc & _ & HC).
  destruct (IH _ HC). destruct Hc as [? ?]. split; [lia |]. Z.to_euclidean_division_equations. lia.
Qed.

Lemma chain_frame m m' cs : forall p,
  chain m p cs -> (forall x, p <= x < p + span cs -> byte_at m' x = byte_at m x) -> chain m' p cs.
Proof.
  induction cs as [| c cs IH]; intros p; cbn [chain span]; [done |]. intros (Hc & Hw & HC) HF.
  destruct (chain_span m cs _ HC). destruct Hc as [? ?]. split; [by split |]. split.
  - rewrite <- Hw. apply word_at_ext. intros x Hx. apply HF. lia.
  - apply IH; [done |]. intros x Hx. apply HF. lia.
Qed.

(** One header changed, the chunks behind it rearranged. *)
Lemma chain_set m m' p l c r0 c' r :
  chain m p (l ++ c :: r0) -> sets_header m m' (p + span l) c' -> chunk_ok c' ->
  chain m' (p + span l + (4 + fst c')) r -> chain m' p (l ++ c' :: r).
Proof.
  intros HC (HP & HW & HF) Hc' HR. apply chain_app in HC as [HL _]. apply chain_app. split; [| done].
  apply (chain_frame m); [done |]. intros x Hx. apply HF. lia.
Qed.

(** The bit of a chunk changed. *)
Lemma chain_mark m m' p l sz a a' r :
  chain m p (l ++ (sz, a) :: r) -> sets_header m m' (p + span l) (sz, a') -> chain m' p (l ++ (sz, a') :: r).
Proof.
  intros HC HS. pose proof HC as HC0. apply chain_app in HC0 as [HL (Hc & _ & HR)]. cbn [fst] in HR.
  apply (chain_set m m' p l (sz, a) r); [done | done | done |]. apply (chain_frame m); [done |].
  destruct HS as (_ & _ & HF). intros x Hx. apply HF. destruct Hc as [Hc _]. cbn [fst] in *. lia.
Qed.

(** A change of a chunk's bytes. *)
Lemma chain_inside m m' p l c r :
  chain m p (l ++ c :: r) ->
  (forall x, x < p + span l + 4 \/ p + span l + 4 + fst c <= x -> byte_at m' x = byte_at m x) -> chain m' p (l ++ c :: r).
Proof.
  intros HC HF. apply chain_app in HC as [HL (Hc & Hw & HR)]. apply chain_app. split; [| split; [done |]; split].
  - apply (chain_frame m); [done |]. intros x Hx. apply HF. lia.
  - rewrite <- Hw. apply word_at_ext. intros x Hx. apply HF. lia.
  - apply (chain_frame m); [done |]. intros x Hx. apply HF. lia.
Qed.

(** ** What an operation leaves alone *)

(** The bytes outside [lo, hi) and those of the blocks [bl]. *)
Definition keeps (m m' : memory) (lo hi : Z) (bl : list (Z * Z)) : Prop :=
  mem_pages m' = mem_pages m /\
  (forall x, x < lo \/ hi <= x -> byte_at m' x = byte_at m x) /\
  (forall q sz x, (q, sz) ∈ bl -> q <= x < q + sz -> byte_at m' x = byte_at m x).

Lemma keeps_refl m lo hi bl : keeps m m lo hi bl.
Proof. done. Qed.

Lemma keeps_trans m m1 m2 lo hi bl bl' :
  keeps m m1 lo hi bl -> keeps m1 m2 lo hi bl' -> bl ⊆ bl' -> keeps m m2 lo hi bl.
Proof.
  intros (P1 & F1 & B1) (P2 & F2 & B2) Hs. split; [congruence |]. split.
  - intros x Hx. by rewrite F2, F1.
  - intros q sz x Hq Hx. by rewrite (B2 q sz), (B1 q sz) by auto.
Qed.

Lemma blocks_between cs : Forall chunk_ok cs -> forall p q sz, (q, sz) ∈ blocks p cs ->
  p + 4 <= q /\ q + sz <= p + span cs /\ 0 < sz.
Proof.
  induction 1 as [| c cs [Hc _] HF IH]; intros p q sz; cbn [blocks span]; [by intros ?%not_elem_of_nil |].
  assert (0 <= span cs) as Hs.
  { clear -HF. induction HF as [| c cs [? _] _ IH]; cbn [span]; lia. }
  intros [Hq | Hq]%elem_of_app.
  - destruct (snd c); [| by apply not_elem_of_nil in Hq]. apply list_elem_of_singleton in Hq as [= -> ->]. lia.
  - destruct (IH _ _ _ Hq). lia.
Qed.

Lemma header_keeps m m' p l r c lo hi :
  sets_header m m' (p + span l) c -> Forall chunk_ok (l ++ r) -> lo <= p + span l -> p + span l + 4 <= hi ->
  keeps m m' lo hi (blocks p (l ++ r)).
Proof.
  intros (HP & _ & HF) [HL HR]%Forall_app Hlo Hhi. split; [done |]. split; [intros x Hx; apply HF; lia |].
  intros q sz x Hq Hx. apply HF. rewrite blocks_app in Hq. apply elem_of_app in Hq as [Hq | Hq].
  - destruct (blocks_between l HL p q sz Hq). lia.
  - destruct (blocks_between r HR _ q sz Hq). lia.
Qed.

Lemma chain_forall m cs : forall p, chain m p cs -> Forall chunk_ok cs.
Proof. induction cs as [| c cs IH]; intros p; [constructor |]. intros (Hc & _ & HC). constructor; [done | by eapply IH]. Qed.

(** ** One heap *)

Record heap_ok (h : heap) (m : memory) (cs : list chunk) : Prop := {
  hk_start : 0 < heap_ptr h;
  hk_size : 0 <= offset h <= heap_size h /\ heap_size h < BIT /\ heap_size h mod 8 = 0;
  hk_span : offset h = span cs;
  hk_chain : chain m (heap_ptr h) cs;
  hk_mem : heap_ptr h + heap_size h <= mem_pages m * PAGE;
  hk_top : heap_ptr h + heap_size h + 8 <= 2 ^ 32
}.

Lemma heap_ok_change h m cs m' cs' :
  heap_ok h m cs -> chain m' (heap_ptr h) cs' -> span cs' = span cs -> mem_pages m' = mem_pages m -> heap_ok h m' cs'.
Proof. intros [H1 H2 H3 H4 H5 H6] HC HS HP. split; try done; [congruence | by rewrite HP]. Qed.

Abbreviation hkeeps h m m' bl := (keeps m m' (heap_ptr h) (heap_ptr h + heap_size h) bl).

Lemma heap_end_ok h m cs : heap_ok h m cs -> heap_end h = heap_ptr h + heap_size h.
Proof. intros [? ? ? ? ? ?]. unfold heap_end. rewrite wrap_small by lia. done. Qed.

Lemma heap_malloc_fits h m cs size :
  heap_ok h m cs -> chunk_ok (size, true) -> offset h + size + 4 <= heap_size h ->
  exists h' m', heap_malloc h m size = Ok (heap_ptr h + offset h + 4, h', m') /\
    heap_ptr h' = heap_ptr h /\ heap_size h' = heap_size h /\ heap_ok h' m' (cs ++ [(size, true)]) /\
    hkeeps h m m' (blocks (heap_ptr h) cs).
Proof.
  intros HH Hc Hf. pose proof HH as [H1 [H2 [H3 H4]] H5 H6 H7 H8]. unfold heap_malloc, size_marker.
  pose proof Hc as [Hs Hs8]. cbn [fst] in Hs, Hs8. rewrite !wrap_small by (unfold BIT in *; lia).
  destruct (Z.ltb_spec (heap_size h) (offset h + size + 4)); [lia |]. rewrite (heap_end_ok h m cs HH).
  unfold buffer_new. set (q := heap_ptr h + offset h + 4).
  assert (header_in m q) as Hh by (unfold header_in, q; unfold BIT in *; lia).
  destruct (resize_ok m (mkBuffer q 0 (heap_ptr h + heap_size h)) size Hh ltac:(lia)) as (m1 & -> & HS1).
  cbn [mbind res_bind b_ptr b_heap_end] in *.
  assert (header_in m1 q) as Hh1 by (destruct HS1 as (HP & _); unfold header_in in *; by rewrite HP).
  destruct (mark_alloc_ok m1 (mkBuffer q size (heap_ptr h + heap_size h)) _ Hh1 (proj1 (proj2 HS1)) ltac:(cbn; lia)) as (m2 & -> & HS2).
  cbn [mbind res_bind b_ptr fst] in *. pose proof (sets_trans _ _ _ _ _ _ HS1 HS2) as HS.
  replace (q - 4) with (heap_ptr h + span cs) in HS by lia. eexists _, m2. split; [done |].
  split; [done |]. split; [done |]. pose proof (chain_forall _ _ _ H6) as HF.
  split.
  - split; cbn [heap_ptr heap_size offset]; try done.
    + lia.
    + rewrite span_app. cbn. lia.
    + apply chain_app. split; [apply (chain_frame m); [done |]; destruct HS as (_ & _ & HS); intros x Hx; apply HS; lia |].
      split; [done |]. split; [by destruct HS as (_ & -> & _) | done].
    + destruct HS as (-> & _). lia.
  - rewrite <- (app_nil_r cs). apply (header_keeps m m2 _ cs [] (size, true)); [done | by rewrite app_nil_r | lia | lia].
Qed.

Lemma heap_malloc_full h m cs size :
  heap_ok h m cs -> 0 <= size -> size + BIT + 4 <= 2 ^ 32 -> heap_size h < offset h + size + 4 ->
  heap_malloc h m size = Ok (nullptr, h, m).
Proof.
  intros [H1 [H2 [H3 H4]] H5 H6 H7 H8] Hs Hs2 Hf. unfold heap_malloc, size_marker. rewrite wrap_small by lia.
  by destruct (Z.ltb_spec (heap_size h) (offset h + size + 4)); [| lia].
Qed.

Lemma heap_free_spec h m l sz r :
  heap_ok h m (l ++ (sz, true) :: r) ->
  exists m', heap_free h m (heap_ptr h + span l + 4) = Ok m' /\ heap_ok h m' (l ++ (sz, false) :: r) /\
    hkeeps h m m' (blocks (heap_ptr h) (l ++ (sz, true) :: r)).
Proof.
  intros HH. pose proof HH as [H1 [H2 [H3 H4]] H5 H6 H7 H8]. rewrite span_app in H5. cbn [span fst] in H5.
  pose proof H6 as H6'. apply chain_app in H6' as [HL (Hc & Hw & HR)]. destruct (chain_span _ _ _ HL). destruct (chain_span _ _ _ HR).
  pose proof Hc as [Hs _]. cbn [fst] in Hs. unfold heap_free. rewrite (heap_end_ok h m _ HH). set (q := heap_ptr h + span l + 4).
  assert (header_in m q) as Hh by (unfold header_in, q; unfold BIT in *; lia).
  assert (word_at m (q - 4) = chunk_word (sz, true)) as Hw' by (rewrite <- Hw; f_equal; lia).
  rewrite (buffer_at_ok m q _ (sz, true) Hh Hw') by (cbn; lia). cbn [mbind res_bind fst].
  destruct (mark_free_ok m (mkBuffer q sz (heap_ptr h + heap_size h)) _ Hh Hw' ltac:(cbn; lia)) as (m' & -> & HS).
  cbn [b_ptr fst] in HS. replace (q - 4) with (heap_ptr h + span l) in HS by lia.
  exists m'. split; [done |]. split.
  - split; try done.
    + rewrite span_app. cbn [span fst]. lia.
    + by apply (chain_mark m m' _ l sz true false).
    + destruct HS as (-> & _). lia.
  - apply (header_keeps m m' _ l ((sz, true) :: r) (sz, false)); [done | by eapply chain_forall | lia | lia].
Qed.

(** A smaller size: the chunk stays as it is, a word behind the bytes asked for is written. *)
Lemma realloc_down_spec h m l sz r size :
  heap_ok h m (l ++ (sz, true) :: r) -> chunk_ok (size, true) -> size <= sz ->
  exists m', realloc_in_place h m (heap_ptr h + span l + 4) size = Ok (heap_ptr h + span l + 4, sz, h, m') /\
    heap_ok h m' (l ++ (sz, true) :: r) /\ mem_pages m' = mem_pages m /\
    forall x, x < heap_ptr h + span l \/ heap_ptr h + span l + 4 <= x < heap_ptr h + span l + 4 + size \/
      heap_ptr h + span l + 4 + sz <= x -> byte_at m' x = byte_at m x.
Proof.
  intros HH [Hs Hs8] Hle. cbn [fst] in *. pose proof HH as [H1 [H2 [H3 H4]] H5 H6 H7 H8]. rewrite span_app in H5. cbn [span fst] in H5.
  pose proof H6 as H6'. apply chain_app in H6' as [HL ([Hz Hz8] & Hw & HR)]. destruct (chain_span _ _ _ HL). destruct (chain_span _ _ _ HR).
  cbn [fst] in *. set (q := heap_ptr h + span l + 4).
  assert (header_in m q) as Hh by (unfold header_in, q; unfold BIT in *; lia).
  assert (word_at m (q - 4) = chunk_word (sz, true)) as Hw' by (rewrite <- Hw; f_equal; lia).
  unfold realloc_in_place. rewrite (heap_end_ok h m _ HH), (buffer_at_ok m q _ (sz, true) Hh Hw') by (cbn; lia).
  cbn [mbind res_bind b_size fst]. unfold buffer_end. cbn [b_ptr b_size]. rewrite !(wrap_small 32 (q + sz)) by (unfold BIT in *; lia).
  destruct (Z.ltb_spec (heap_ptr h + heap_size h) (q + sz)); [lia |].
  rewrite (wrap_small 32 (heap_ptr h + heap_size h - size)) by lia.
  destruct (Z.ltb_spec (heap_ptr h + heap_size h - size) q); [lia |].
  destruct (Z.ltb_spec size sz) as [Hlt | Hge].
  - assert (size + 8 <= sz) as Hgap by (clear -Hlt Hs8 Hz8; Z.to_euclidean_division_equations; lia).
    unfold size_marker, buffer_new. rewrite (wrap_small 32 (q + size + 4)) by (unfold BIT in *; lia). rewrite (wrap_small 32 (sz - size)) by (unfold BIT in *; lia).
    assert (header_in m (q + size + 4)) as Hh2 by (unfold header_in, q; unfold BIT in *; lia).
    destruct (resize_ok m (mkBuffer (q + size + 4) 0 (heap_ptr h + heap_size h)) (sz - size) Hh2 ltac:(lia)) as (m1 & -> & HS1).
    cbn [mbind res_bind b_ptr b_heap_end] in *.
    assert (header_in m1 (q + size + 4)) as Hh3 by (destruct HS1 as (HP & _); unfold header_in in *; by rewrite HP).
    destruct (mark_free_ok m1 (mkBuffer (q + size + 4) (sz - size) (heap_ptr h + heap_size h)) _ Hh3 (proj1 (proj2 HS1)) ltac:(cbn; lia))
      as (m2 & -> & HS2).
    cbn [mbind res_bind b_ptr fst] in *. destruct (sets_trans _ _ _ _ _ _ HS1 HS2) as (HP & _ & HF).
    exists m2. split; [done |]. split; [| split; [done | intros x Hx; apply HF; lia]].
    apply (heap_ok_change h m _ _ _ HH); [| done | done]. apply (chain_inside m); [done |]. cbn [fst]. intros x Hx. apply HF. lia.
  - assert (size = sz) as -> by lia.
    assert (forall m', sets_header m m' (q - 4) (sz, true) ->
      heap_ok h m' (l ++ (sz, true) :: r) /\ mem_pages m' = mem_pages m /\
      forall x, x < heap_ptr h + span l \/ q <= x < q + sz \/ q + sz <= x -> byte_at m' x = byte_at m x) as HD.
    { intros m' HS. pose proof HS as (HP & _ & HF). split; [| split; [done | intros x Hx; apply HF; lia]].
      apply (heap_ok_change h m _ _ _ HH); [| done | done].
      replace (q - 4) with (heap_ptr h + span l) in HS by lia. by apply (chain_mark m m' _ l sz true true). }
    destruct (_ =? u32 _).
    + destruct (resize_ok m (mkBuffer q sz (heap_ptr h + heap_size h)) sz Hh ltac:(lia)) as (m1 & -> & HS1).
      cbn [mbind res_bind b_ptr b_heap_end] in *. exists m1. split.
      * rewrite Z.sub_diag. change (u32 0) with 0. rewrite Z.add_0_r, wrap_small by (unfold BIT in *; lia). by destruct h.
      * apply HD. rewrite Hw' in HS1. unfold chunk_word in HS1. cbn [fst snd] in HS1.
        by rewrite (proj1 (proj2 (bit_size_word sz true ltac:(lia)))) in HS1.
    + rewrite Z.eqb_refl. exists m. split; [done |]. by split.
Qed.

(** The unused rest becomes a free chunk. *)
Lemma cleanup_spec h m cs :
  heap_ok h m cs ->
  exists h' m' rest, cleanup_remaining h m = Ok (h', m') /\ heap_ptr h' = heap_ptr h /\ heap_size h' = heap_size h /\
    offset h' = heap_size h /\ heap_ok h' m' (cs ++ rest) /\ blocks (heap_ptr h) (cs ++ rest) = blocks (heap_ptr h) cs /\
    hkeeps h m m' (blocks (heap_ptr h) cs).
Proof.
  intros HH. pose proof HH as [H1 [H2 [H3 H4]] H5 H6 H7 H8]. destruct (chain_span _ _ _ H6) as [H9 H10]. unfold cleanup_remaining, size_marker.
  destruct (Z.eqb_spec (offset h) (heap_size h)) as [E |].
  { exists h, m, []. rewrite app_nil_r. by split_and!. }
  assert (offset h + 8 <= heap_size h) as Hr.
  { rewrite H5 in *. clear -H10 H4 H2 n. Z.to_euclidean_division_equations. lia. }
  rewrite !wrap_small by (unfold BIT in *; lia). rewrite (heap_end_ok h m cs HH). unfold buffer_new.
  set (q := heap_ptr h + offset h + 4). set (sz := heap_size h - offset h - 4).
  assert (chunk_ok (sz, false)) as Hc.
  { split; cbn [fst]; [lia |]. subst sz. rewrite H5 in *. clear -H4 H10. Z.to_euclidean_division_equations. lia. }
  assert (header_in m q) as Hh by (unfold header_in, q; unfold BIT in *; lia).
  destruct (resize_ok m (mkBuffer q 0 (heap_ptr h + heap_size h)) sz Hh ltac:(lia)) as (m1 & -> & HS1).
  cbn [mbind res_bind b_ptr b_heap_end] in *.
  assert (header_in m1 q) as Hh1 by (destruct HS1 as (HP & _); unfold header_in in *; by rewrite HP).
  destruct (mark_free_ok m1 (mkBuffer q sz (heap_ptr h + heap_size h)) _ Hh1 (proj1 (proj2 HS1)) ltac:(cbn; lia)) as (m2 & -> & HS2).
  cbn [mbind res_bind b_ptr fst] in *. pose proof (sets_trans _ _ _ _ _ _ HS1 HS2) as HS.
  replace (q - 4) with (heap_ptr h + span cs) in HS by lia. pose proof (chain_forall _ _ _ H6) as HF.
  eexists _, m2, [(sz, false)]. split; [done |]. cbn [heap_ptr heap_size offset]. do 3 (split; [done |]). split; [| split].
  - split; cbn [heap_ptr heap_size offset]; try done.
    + lia.
    + rewrite span_app. cbn. lia.
    + apply chain_app. split; [apply (chain_frame m); [done |]; destruct HS as (_ & _ & HS); intros x Hx; apply HS; lia |].
      split; [done |]. split; [by destruct HS as (_ & -> & _) | done].
    + destruct HS as (-> & _). lia.
  - rewrite blocks_app. cbn. by rewrite app_nil_r.
  - rewrite <- (app_nil_r cs). apply (header_keeps m m2 _ cs [] (sz, false)); [done | by rewrite app_nil_r | lia | lia].
Qed.

(** ** Merging free chunks *)

Abbreviation free_run fs := (Forall (fun c : chunk => snd c = false) fs).
Definition run_ends (r : list chunk) : Prop := match r with [] => True | c :: _ => snd c = true end.

Lemma merge_loop_spec r : forall fuel m b needed possible,
  chain m (b_ptr b + possible) r -> b_ptr b + possible + span r = b_heap_end b ->
  b_heap_end b <= mem_pages m * PAGE -> b_heap_end b + 8 <= 2 ^ 32 -> 0 < b_ptr b -> 0 <= possible ->
  (1 <= fuel)%nat -> needed <= possible + 4 * (Z.of_nat fuel - 1) ->
  exists fs r', r = fs ++ r' /\ free_run fs /\ merge_loop fuel m b needed possible = Ok (possible + span fs) /\
    (needed <= possible + span fs \/ run_ends r').
Proof.
  induction r as [| c r IH]; intros fuel m b needed possible HC HE HM HT Hb Hp Hf Hn.
  - exists [], []. split; [done |]. split; [constructor |]. split; [| by right]. destruct fuel as [| fuel]; [lia |].
    cbn [merge_loop span] in *. rewrite Z.add_0_r in *. rewrite HE, wrap_small by lia. rewrite Z.ltb_irrefl, andb_false_r. done.
  - destruct fuel as [| fuel]; [lia |]. cbn [merge_loop]. destruct (Z.ltb_spec possible needed); cbn [andb].
    2:{ exists [], (c :: r). cbn [span app]. rewrite Z.add_0_r. split; [done |]. split; [constructor |]. split; [done | left; lia]. }
    destruct HC as (Hc & Hw & HC). pose proof Hc as [Hc1 _]. destruct (chain_span _ _ _ HC) as [Hsp _]. cbn [span] in HE.
    rewrite wrap_small by lia. destruct (Z.ltb_spec (b_ptr b + possible) (b_heap_end b)); [| lia].
    rewrite load_word_ok by lia. cbn [mbind res_bind]. rewrite Hw, bit_of_word by lia.
    destruct (snd c) eqn:Ea.
    + change (negb (BIT =? 0)) with true. cbv iota. exists [], (c :: r). cbn [span app]. rewrite Z.add_0_r.
      split; [done |]. split; [constructor |]. split; [done | right; exact Ea].
    + change (negb (0 =? 0)) with false. cbv iota. rewrite size_of_word by lia. unfold size_marker. rewrite wrap_small by lia.
      destruct (IH fuel m b needed (possible + fst c + 4)) as (fs & r' & -> & HFr & -> & HEnd); try done; try lia.
      { by replace (b_ptr b + (possible + fst c + 4)) with (b_ptr b + possible + (4 + fst c)) by lia. }
      exists (c :: fs), r'. split; [done |]. split; [by constructor |]. cbn [span].
      replace (possible + (4 + fst c + span fs)) with (possible + fst c + 4 + span fs) by lia. by split.
Qed.

Lemma free_run_blocks fs : free_run fs -> forall p, blocks p fs = [].
Proof. induction 1 as [| c fs Hc _ IH]; intros p; [done |]. cbn [blocks]. by rewrite Hc, IH. Qed.

(** What is left behind a chunk of [possible] bytes cut to [needed]. *)
Definition remainder (possible needed : Z) : list chunk :=
  if needed <? possible then [(possible - needed - 4, false)] else [].

Lemma free_remainder_ok possible needed :
  possible < BIT -> possible mod 8 = 4 -> chunk_ok (needed, true) -> needed < possible ->
  chunk_ok (possible - needed - 4, false).
Proof.
  intros H1 H2 [H3 H4] H5. cbn [fst] in *. unfold chunk_ok. cbn [fst]. Z.to_euclidean_division_equations. lia.
Qed.

(** The header of a chunk that grew over the free ones behind it, and the remainder's. *)
Lemma combine_spec m p l sz a fs r needed heap_end :
  chain m p (l ++ (sz, a) :: fs ++ r) -> free_run fs -> chunk_ok (needed, true) ->
  0 < p -> heap_end + 8 <= 2 ^ 32 -> heap_end <= mem_pages m * PAGE -> sz + span fs < BIT ->
  p + span (l ++ (sz, a) :: fs ++ r) <= heap_end -> (a = true -> sz <= needed) ->
  let q := p + span l + 4 in
  let possible := sz + span fs in
  let new_size := if possible <? needed then possible else needed in
  let cs' := l ++ (new_size, a) :: remainder possible needed ++ r in
  exists b m1 m2, buffer_resize m (mkBuffer q sz heap_end) new_size = Ok (b, m1) /\ b = mkBuffer q new_size heap_end /\
    (if needed <? possible then
       '(freed_remainder, m') ← buffer_new m1 (u32 (q + needed + 4)) (u32 (possible - needed - 4)) heap_end;
       mark_free m' freed_remainder
     else Ok m1) = Ok m2 /\
    chain m2 p cs' /\ span cs' = span (l ++ (sz, a) :: fs ++ r) /\
    blocks p (l ++ (new_size, false) :: remainder possible needed ++ r) = blocks p (l ++ (sz, false) :: fs ++ r) /\
    keeps m m2 p heap_end (blocks p (l ++ (sz, a) :: fs ++ r)).
Proof.
  intros HC HFr Hn Hp HT HM Hbit HE Ha q possible new_size cs'.
  assert (q = p + span l + 4) as Hq by done. assert (possible = sz + span fs) as Hpos by done.
  pose proof HC as HC0. apply chain_app in HC0 as [HL (Hc & Hw & HC0)]. cbn [fst] in HC0.
  apply chain_app in HC0 as [HFs HR]. pose proof Hc as [Hc1 Hc8]. pose proof Hn as [Hn1 Hn8]. cbn [fst] in Hc1, Hc8, Hn1, Hn8.
  destruct (chain_span _ _ _ HL) as [HL0 _]. destruct (chain_span _ _ _ HFs) as [HF0 HF8]. destruct (chain_span _ _ _ HR) as [HR0 _].
  rewrite !span_app in HE. cbn [span fst] in HE. rewrite span_app in HE.
  assert (possible mod 8 = 4) as Hp8 by (subst possible; clear -Hc8 HF8; Z.to_euclidean_division_equations; lia).
  assert (chunk_ok (new_size, a)) as Hcn by (subst new_size; unfold chunk_ok; cbn [fst]; destruct (possible <? needed); lia).
  assert (header_in m q) as Hh by (unfold header_in, q; lia).
  pose proof Hcn as [Hcn1 _]. cbn [fst] in Hcn1.
  destruct (resize_ok m (mkBuffer q sz heap_end) new_size Hh ltac:(lia)) as (m1 & E1 & HS1). cbn [b_ptr b_heap_end] in *.
  assert (q - 4 = p + span l) as Eq by (unfold q; lia). rewrite Eq, Hw in HS1.
  assert (Z.testbit (chunk_word (sz, a)) 31 = a) as Ea by (by destruct (bit_size_word sz a ltac:(lia)) as (_ & ? & _)).
  rewrite Ea in HS1.
  pose proof HC as HC0. apply chain_forall in HC0.
  pose proof (header_keeps m m1 p l ((sz, a) :: fs ++ r) _ p heap_end HS1 HC0 ltac:(lia) ltac:(lia)) as HK1.
  assert (forall v, blocks p (l ++ (v, false) :: fs ++ r) = blocks p l ++ blocks (p + span l + (4 + v) + span fs) r) as HB1.
  { intros v. rewrite blocks_app. cbn [blocks fst snd app]. by rewrite blocks_app, (free_run_blocks fs HFr). }
  pose proof (proj2 (proj2 HS1)) as HF1.
  exists (mkBuffer q new_size heap_end), m1. unfold cs', remainder, new_size.
  destruct (Z.ltb_spec needed possible) as [Hrem | Hrem].
  - destruct (Z.ltb_spec possible needed); [lia |]. unfold new_size in *.
    assert (needed + 8 <= possible) as H8 by (clear -Hp8 Hn8 Hrem; Z.to_euclidean_division_equations; lia).
    rewrite !wrap_small by (unfold BIT in *; lia).
    set (f := possible - needed - 4). assert (f = possible - needed - 4) as Hfd by done.
    pose proof (free_remainder_ok possible needed Hbit Hp8 Hn Hrem) as Hcf. fold f in Hcf. pose proof Hcf as [Hcf1 _]. cbn [fst] in Hcf1.
    assert (header_in m1 (q + needed + 4)) as Hh1.
    { destruct HS1 as (HP & _). unfold header_in, q. rewrite HP. unfold possible in *. lia. }
    destruct (resize_ok m1 (mkBuffer (q + needed + 4) 0 heap_end) f Hh1 ltac:(lia)) as (m2 & E2 & HS2).
    unfold buffer_new. rewrite E2. cbn [mbind res_bind b_ptr b_heap_end] in *.
    assert (header_in m2 (q + needed + 4)) as Hh2 by (destruct HS2 as (HP & _); unfold header_in in *; by rewrite HP).
    destruct (mark_free_ok m2 (mkBuffer (q + needed + 4) f heap_end) _ Hh2 (proj1 (proj2 HS2)) ltac:(cbn; lia)) as (m3 & E3 & HS3).
    cbn [b_ptr fst] in *. pose proof (sets_trans _ _ _ _ _ _ HS2 HS3) as HS.
    replace (q + needed + 4 - 4) with (q + needed) in HS by lia. pose proof (proj2 (proj2 HS)) as HF2.
    exists m3. split; [exact E1 |]. split; [done |]. split; [exact E3 |]. split; [| split; [| split]].
    + apply chain_app. split; [apply (chain_frame m); [done |]; intros x Hx; rewrite HF2, HF1 by lia; done |].
      split; [done |]. split.
      * rewrite <- (proj1 (proj2 HS1)). apply word_at_ext. intros x Hx. apply HF2. lia.
      * cbn [fst app]. split; [done |]. split.
        -- rewrite <- (proj1 (proj2 HS)). f_equal. lia.
        -- cbn [fst]. replace (p + span l + (4 + needed) + (4 + f)) with (p + span l + (4 + sz) + span fs) by lia.
           apply (chain_frame m); [done |]. intros x Hx. rewrite HF2, HF1 by lia. done.
    + rewrite !span_app. cbn [span fst app]. rewrite span_app. lia.
    + rewrite HB1, blocks_app. cbn [blocks fst snd app]. do 2 f_equal. lia.
    + eapply keeps_trans; [exact HK1 | | reflexivity]. destruct HS as (HP2 & _). split; [done |]. split; [intros x Hx; apply HF2; lia |].
      intros q' s' x Hq' Hx. apply HF2. rewrite blocks_app in Hq'. cbn [blocks fst snd] in Hq'.
      apply Forall_app in HC0 as [HFl HF0']. apply Forall_cons in HF0' as [_ HF0']. apply Forall_app in HF0' as [_ HFr'].
      apply elem_of_app in Hq' as [Hq' | Hq']; [destruct (blocks_between l HFl _ _ _ Hq'); lia |].
      apply elem_of_app in Hq' as [Hq' | Hq'].
      * destruct a; [| by apply not_elem_of_nil in Hq']. apply list_elem_of_singleton in Hq' as [= -> ->]. specialize (Ha eq_refl). lia.
      * rewrite blocks_app, (free_run_blocks fs HFr) in Hq'. cbn [app] in Hq'.
        destruct (blocks_between r HFr' _ _ _ Hq'). lia.
  - exists m1. split; [exact E1 |]. split; [done |]. split; [done |].
    assert ((if possible <? needed then possible else needed) = possible) as En by (destruct (Z.ltb_spec possible needed); lia).
    unfold new_size in HS1, Hcn. rewrite En in *. split; [| split; [| split; [| exact HK1]]].
    + apply (chain_set m m1 p l (sz, a) (fs ++ r)); [done | done | done |]. cbn [fst app].
      replace (p + span l + (4 + possible)) with (p + span l + (4 + sz) + span fs) by lia.
      apply (chain_frame m); [done |]. intros x Hx. apply HF1. lia.
    + rewrite !span_app. cbn [span fst app]. rewrite span_app. lia.
    + rewrite HB1, blocks_app. cbn [blocks fst snd app]. do 2 f_equal. lia.
Qed.

Lemma merge_spec m p l sz a r needed heap_end all_or_nothing :
  chain m p (l ++ (sz, a) :: r) -> chunk_ok (needed, true) -> 0 < p -> heap_end + 8 <= 2 ^ 32 ->
  heap_end <= mem_pages m * PAGE -> heap_end - p < BIT -> p + span (l ++ (sz, a) :: r) = heap_end -> (a = true -> sz <= needed) ->
  let q := p + span l + 4 in
  exists fs r', r = fs ++ r' /\ free_run fs /\ (needed <= sz + span fs \/ run_ends r') /\
    let possible := sz + span fs in
    let new_size := if possible <? needed then possible else needed in
    if all_or_nothing && (possible <? needed)
    then merge_contiguous m (mkBuffer q sz heap_end) needed all_or_nothing = Ok (false, mkBuffer q sz heap_end, m)
    else exists m', merge_contiguous m (mkBuffer q sz heap_end) needed all_or_nothing
             = Ok (negb (possible <? needed), mkBuffer q new_size heap_end, m') /\
           chain m' p (l ++ (new_size, a) :: remainder possible needed ++ r') /\
           span (l ++ (new_size, a) :: remainder possible needed ++ r') = span (l ++ (sz, a) :: r) /\
           blocks p (l ++ (new_size, false) :: remainder possible needed ++ r') = blocks p (l ++ (sz, false) :: r) /\
           keeps m m' p heap_end (blocks p (l ++ (sz, a) :: r)).
Proof.
  intros HC Hn Hp HT HM Hbit HE Ha q. assert (q = p + span l + 4) as Hq by done.
  pose proof HC as HC0. apply chain_app in HC0 as [HL (Hc & Hw & HR)]. pose proof Hc as [Hc1 _]. pose proof Hn as [Hn1 _].
  cbn [fst] in *. destruct (chain_span _ _ _ HL) as [HL0 _]. destruct (chain_span _ _ _ HR) as [HR0 _].
  rewrite span_app in HE. cbn [span fst] in HE.
  destruct (merge_loop_spec r (merge_fuel needed) m (mkBuffer q sz heap_end) needed sz) as (fs & r' & -> & HFr & EL & HEnd);
    cbn [b_ptr b_heap_end]; try done; try lia.
  { by replace (q + sz) with (p + span l + (4 + sz)) by lia. }
  { unfold merge_fuel, size_marker. lia. }
  { unfold merge_fuel, size_marker. clear -Hn1 Hc1. Z.to_euclidean_division_equations. lia. }
  exists fs, r'. split; [done |]. split; [done |]. split; [done |]. set (possible := sz + span fs) in *. cbv zeta.
  assert (possible = sz + span fs) as Hpos by done. rewrite span_app in HE, HR0.
  apply chain_app in HR as [HFs HR']. destruct (chain_span _ _ _ HFs) as [HF0 _]. destruct (chain_span _ _ _ HR') as [HR1 _].
  unfold merge_contiguous. cbn [b_ptr b_size b_heap_end]. rewrite (wrap_small 32 (heap_end - q)) by (unfold BIT in *; lia).
  destruct (combine_spec m p l sz a fs r' needed heap_end HC HFr Hn Hp HT HM) as (b & m1 & m2 & E1 & Eb & E2 & HX);
    [lia | rewrite span_app; cbn [span fst]; rewrite span_app; lia | done |]. fold possible in E1, Eb, E2, HX. fold q in E1, Eb, E2.
  destruct all_or_nothing; cbn [andb].
  - destruct (Z.ltb_spec possible needed) as [Hlt | Hge].
    + destruct (Z.ltb_spec (heap_end - q) needed); [done |]. rewrite EL. cbn [mbind res_bind].
      destruct (Z.ltb_spec possible needed); [done | lia].
    + destruct (Z.ltb_spec (heap_end - q) needed); [lia |]. rewrite EL. cbn [mbind res_bind].
      destruct (Z.ltb_spec possible needed); [lia |]. cbn [andb]. rewrite E1. cbn [mbind res_bind]. unfold size_marker. rewrite E2.
      cbn [mbind res_bind]. exists m2. rewrite Z.eqb_refl, Eb. by split.
  - rewrite EL. cbn [mbind res_bind]. cbv zeta in E1. rewrite E1. cbn [mbind res_bind]. unfold size_marker. rewrite E2.
    cbn [mbind res_bind]. exists m2. rewrite Eb. destruct (Z.ltb_spec possible needed); cbn [negb].
    + destruct (Z.eqb_spec possible needed); [lia |]. by split.
    + rewrite Z.eqb_refl. by split.
Qed.

(** Some run of free chunks has [size] bytes; [run] bytes precede [cs] in the current run. *)
Fixpoint room (size run : Z) (cs : list chunk) : bool :=
  match cs with
  | [] => false
  | c :: cs' => if snd c then room size 0 cs'
                else let run' := run + (4 + fst c) in (size + 4 <=? run') || room size run' cs'
  end.

Lemma room_short fs r size : free_run fs -> run_ends r -> Forall chunk_ok fs ->
  forall run, run + span fs < size + 4 -> room size run (fs ++ r) = room size 0 r.
Proof.
  intros HFr Hr HF. induction fs as [| c fs IH]; intros run Hs; cbn [app room span] in *.
  - destruct r as [| c r]; [done |]. cbn [room run_ends] in *. by rewrite Hr.
  - apply Forall_cons in HFr as [Hc HFr]. apply Forall_cons in HF as [[Hc1 _] HF]. rewrite Hc.
    assert (0 <= span fs) as H0 by (clear -HF; induction HF as [| c fs [? _] _ IH]; cbn [span]; lia).
    destruct (Z.leb_spec (size + 4) (run + (4 + fst c))); [lia |]. cbn [orb]. apply IH; [done | done | lia].
Qed.

Lemma room_long fs r size : free_run fs -> fs <> [] -> forall run, size + 4 <= run + span fs -> room size run (fs ++ r) = true.
Proof.
  intros HFr. induction fs as [| c fs IH]; intros Hne run Hs; [done |]. cbn [app room span] in *.
  apply Forall_cons in HFr as [Hc HFr]. rewrite Hc. destruct (Z.leb_spec (size + 4) (run + (4 + fst c))); [done |]. cbn [orb].
  destruct fs as [| c' fs]; [cbn [span] in Hs; lia |]. apply IH; [done | done | lia].
Qed.

(** ** Reuse of freed memory *)

Lemma next_ptr_ok h m l c r :
  heap_ok h m (l ++ c :: r) -> offset h = heap_size h ->
  next_ptr (mkBuffer (heap_ptr h + span l + 4) (fst c) (heap_end h)) =
  match r with [] => nullptr | _ => heap_ptr h + span (l ++ [c]) + 4 end.
Proof.
  intros HH Hfull. pose proof HH as [H1 [H2 [H3 H4]] H5 H6 H7 H8]. rewrite span_app in H5. cbn [span] in H5.
  apply chain_app in H6 as [HL (Hc & _ & HR)]. pose proof Hc as [Hc1 _].
  destruct (chain_span _ _ _ HL). destruct (chain_span _ _ _ HR).
  unfold next_ptr, buffer_end. cbn [b_ptr b_size b_heap_end]. rewrite (heap_end_ok h m _ HH). unfold size_marker.
  rewrite !wrap_small by (rewrite ?wrap_small; lia). rewrite span_app. cbn [span].
  destruct r as [| c' r].
  - cbn [span] in *. destruct (Z.leb_spec (heap_ptr h + heap_size h) (heap_ptr h + span l + 4 + fst c + 4)); [done | lia].
  - destruct HR as ([Hc2 _] & _ & HR). destruct (chain_span _ _ _ HR). cbn [span] in *.
    destruct (Z.leb_spec (heap_ptr h + heap_size h) (heap_ptr h + span l + 4 + fst c + 4)); lia.
Qed.

Lemma from_freed_spec h size fuel : forall m l r,
  heap_ok h m (l ++ r) -> offset h = heap_size h -> chunk_ok (size, true) -> (length r < fuel)%nat ->
  exists ptr m' cs',
    from_freed_loop fuel h m size (match r with [] => nullptr | _ => heap_ptr h + span l + 4 end) = Ok (ptr, m') /\
    heap_ok h m' cs' /\ hkeeps h m m' (blocks (heap_ptr h) (l ++ r)) /\
    if room size 0 r then
      0 < ptr /\ exists A B, blocks (heap_ptr h) (l ++ r) = A ++ B /\ blocks (heap_ptr h) cs' = A ++ (ptr, size) :: B
    else ptr = nullptr /\ blocks (heap_ptr h) cs' = blocks (heap_ptr h) (l ++ r).
Proof.
  induction fuel as [| fuel IH]; intros m l r HH Hfull Hsz Hf; [lia |].
  destruct r as [| c r]; [by exists nullptr, m, (l ++ []) |]. cbn [from_freed_loop].
  pose proof HH as [H1 [H2 [H3 H4]] H5 H6 H7 H8]. pose proof H6 as HC0. apply chain_app in HC0 as [HL (Hc & Hw & HR)].
  destruct (chain_span _ _ _ HL) as [HL0 _]. destruct (chain_span _ _ _ HR) as [HR0 _]. pose proof Hc as [Hc1 _].
  rewrite span_app in H5. cbn [span] in H5. set (q := heap_ptr h + span l + 4). assert (q = heap_ptr h + span l + 4) as Hq by done.
  destruct (Z.eqb_spec q nullptr) as [E0 | _]; [unfold nullptr in E0; lia |].
  assert (header_in m q) as Hh by (unfold header_in; unfold BIT in *; lia).
  assert (word_at m (q - 4) = chunk_word c) as Hw' by (rewrite <- Hw; f_equal; lia).
  rewrite (buffer_at_ok m q _ c Hh Hw') by lia. cbn [mbind res_bind].
  rewrite (is_alloc_ok m (mkBuffer q (fst c) (heap_end h)) c Hh Hw') by lia. cbn [mbind res_bind].
  destruct c as [sz a]. cbn [fst snd] in *. assert (forall c, (l ++ [c]) ++ r = l ++ c :: r) as EA by (intros c; by rewrite <- app_assoc).
  destruct a.
  - pose proof (next_ptr_ok h m l (sz, true) r HH Hfull) as EN. cbn [fst] in EN. fold q in EN. rewrite EN.
    destruct (IH m (l ++ [(sz, true)]) r) as (ptr & m' & cs' & E & HX); [by rewrite EA | done | done | simpl in Hf; lia |].
    exists ptr, m', cs'. rewrite E. rewrite EA in HX. cbn [room snd]. by split.
  - destruct (merge_spec m (heap_ptr h) l sz false r size (heap_end h) false H6 Hsz H1) as (fs & r' & -> & HFr & HEnd & HM);
      [rewrite (heap_end_ok h m _ HH); lia .. | rewrite (heap_end_ok h m _ HH), span_app; cbn [span fst]; lia | done |].
    fold q in HM. cbv zeta in HM. cbn [andb] in HM. set (possible := sz + span fs) in *. assert (possible = sz + span fs) as Hpos by done.
    destruct HM as (m1 & -> & HC1 & HS1 & HB1 & HK1). cbn [mbind res_bind].
    pose proof HR as HR2. apply chain_app in HR2 as [HFs HR2]. rewrite (heap_end_ok h m _ HH) in HK1.
    destruct (Z.ltb_spec possible size) as [Hlt | Hge]; cbn [negb].
    + assert (remainder possible size = []) as ER by (unfold remainder; destruct (Z.ltb_spec size possible); [lia | done]).
      rewrite ER in *. cbn [app] in *.
      assert (heap_ok h m1 ((l ++ [(possible, false)]) ++ r')) as HH1.
      { rewrite <- app_assoc. apply (heap_ok_change h m _ _ _ HH HC1 HS1). by destruct HK1. }
      pose proof HH1 as HH1'. rewrite <- app_assoc in HH1'. cbn [app] in HH1'.
      pose proof (next_ptr_ok h m1 l (possible, false) r' HH1' Hfull) as EN. cbn [fst] in EN. fold q in EN. rewrite EN.
      destruct (IH m1 (l ++ [(possible, false)]) r' HH1 Hfull Hsz) as (ptr & m' & cs' & E & HH2 & HK2 & HRoom).
      { simpl in Hf. rewrite length_app in Hf. lia. }
      exists ptr, m', cs'. rewrite E. split; [done |]. split; [done |]. rewrite <- app_assoc in HK2, HRoom. cbn [app] in HK2, HRoom.
      rewrite HB1 in HK2, HRoom. split; [by eapply keeps_trans |].
      assert (room size 0 ((sz, false) :: fs ++ r') = room size 0 r') as ->; [| done].
      destruct HEnd as [? | HEnd]; [lia |].
      apply (room_short ((sz, false) :: fs) r' size); [by constructor | done | constructor; [done | by eapply chain_forall] |].
      cbn [span fst]. lia.
    + assert (header_in m1 q) as Hh1 by (destruct HK1 as (HP & _); unfold header_in in *; by rewrite HP).
      pose proof HC1 as HC2. apply chain_app in HC2 as [_ (_ & Hw1 & _)]. pose proof Hsz as [Hsz1 _]. cbn [fst] in Hsz1.
      destruct (mark_alloc_ok m1 (mkBuffer q size (heap_end h)) (size, false) Hh1) as (m2 & -> & HS2);
        [cbn [b_ptr]; rewrite <- Hw1; f_equal; lia | cbn [fst]; lia |].
      cbn [mbind res_bind b_ptr fst] in *. replace (q - 4) with (heap_ptr h + span l) in HS2 by lia.
      exists q, m2, (l ++ (size, true) :: remainder possible size ++ r'). split; [done |]. split; [| split].
      * apply (heap_ok_change h m _ _ _ HH); [by eapply chain_mark | rewrite <- HS1, !span_app; done |].
        destruct HK1 as (<- & _). by destruct HS2.
      * eapply keeps_trans; [exact HK1 | | reflexivity]. rewrite <- HB1.
        apply (header_keeps m1 m2 _ l _ (size, true)); [done | by eapply chain_forall | lia |].
        lia.
      * assert (room size 0 ((sz, false) :: fs ++ r') = true) as ->.
        { apply (room_long ((sz, false) :: fs)); [by constructor | done |]. cbn [span fst]. lia. }
        split; [lia |]. rewrite <- HB1, !blocks_app. cbn [blocks fst snd app]. by eexists _, _.
Qed.

(** All of a heap that is used up to its end is searched; a run with enough bytes is found. *)
Lemma malloc_from_freed_spec h m cs size :
  heap_ok h m cs -> offset h = heap_size h -> 0 < heap_size h -> chunk_ok (size, true) ->
  exists ptr m' cs', malloc_from_freed h m size = Ok (ptr, m') /\ heap_ok h m' cs' /\ hkeeps h m m' (blocks (heap_ptr h) cs) /\
    if room size 0 cs then
      0 < ptr /\ exists A B, blocks (heap_ptr h) cs = A ++ B /\ blocks (heap_ptr h) cs' = A ++ (ptr, size) :: B
    else ptr = nullptr /\ blocks (heap_ptr h) cs' = blocks (heap_ptr h) cs.
Proof.
  intros HH Hfull Hpos Hsz. pose proof HH as [H1 [H2 [H3 H4]] H5 H6 H7 H8].
  assert (8 * len cs <= span cs) as HLen.
  { clear -H6. revert H6. generalize (heap_ptr h). induction cs as [| c cs IH]; intros p HC; [done |].
    destruct HC as ([Hc1 Hc2] & _ & HC). specialize (IH _ HC). cbn [span]. simpl length.
    assert (4 <= fst c) by (clear -Hc1 Hc2; Z.to_euclidean_division_equations; lia). lia. }
  destruct (from_freed_spec h size (S (S (Z.to_nat (heap_size h / size_marker)))) m [] cs HH Hfull Hsz) as (ptr & m' & cs' & E & HX).
  { unfold size_marker. clear -H5 Hfull HLen. assert (len cs <= heap_size h / 4); [| lia].
    Z.to_euclidean_division_equations. lia. }
  exists ptr, m', cs'. split; [| done]. unfold malloc_from_freed. rewrite <- E.
  destruct cs as [| c cs]; [cbn [span] in H5; lia |]. cbn [span]. unfold size_marker. rewrite wrap_small by (unfold BIT in *; lia).
  by rewrite Z.add_0_r.
Qed.

(** ** The manager *)

Definition region_end (h : heap) : Z := heap_ptr h + heap_size h.

(** The heaps in use with their chunks: the initial one and at most one more, since the memory
    grows at the end of the second one. *)
Abbreviation heaps := (list (heap * list chunk)).
Definition all_blocks (hs : heaps) : list (Z * Z) := mjoin ((fun x => blocks (heap_ptr (fst x)) (snd x)) <$> hs).
Definition full (x : heap * list chunk) : Prop := offset (fst x) = heap_size (fst x).

Lemma all_blocks_app l r : all_blocks (l ++ r) = all_blocks l ++ all_blocks r.
Proof. unfold all_blocks. by rewrite fmap_app, join_app. Qed.

Lemma all_blocks_cons x r : all_blocks (x :: r) = blocks (heap_ptr (fst x)) (snd x) ++ all_blocks r.
Proof. done. Qed.

Section Manager.
Context (can_grow : Z -> Z -> bool) (initial_heap : Z).

(** The host keeps the memory below two gigabytes. *)
Context (limit : Z) (Hlimit : limit < 32768) (Hgrow : forall old n, limit < old + n -> can_grow old n = false).

Definition break (g : memory_manager) (m : memory) : Z :=
  match sbrk_static g with Some s => s | None => u32 (mem_pages m * PAGE) end.

Definition brk_ok (s : Z) (m : memory) : Prop := 0 < s /\ s mod PAGE = 0 /\ s <= mem_pages m * PAGE /\ mem_pages m <= limit.

Inductive phase (g : memory_manager) (hs : heaps) : Prop :=
| PhaseNew : hs = [] -> heaps_actual_size g = 0 -> active_heap g = 0 -> phase g hs
| PhaseRunning l x : hs = l ++ [x] -> heaps_actual_size g = 16 -> active_heap g = len l -> Forall full l -> phase g hs
| PhaseExhausted : hs <> [] -> heaps_actual_size g = len hs -> active_heap g = len hs -> Forall full hs -> phase g hs.

Definition in_order (s : Z) (hs : heaps) : Prop :=
  match hs with
  | [] => True
  | [x] => region_end (fst x) <= s
  | [x; y] => region_end (fst x) <= heap_ptr (fst y) /\ region_end (fst y) = s
  | _ => False
  end.

Record manager_inv (g : memory_manager) (m : memory) (hs : heaps) : Prop := {
  mg_heaps : available_heaps g = (fst <$> hs) ++ replicate (16 - length hs) heap_new;
  mg_ok : Forall (fun x => heap_ok (fst x) m (snd x) /\ 0 < heap_size (fst x) /\ initial_heap <= heap_ptr (fst x)) hs;
  mg_brk : brk_ok (break g m) m;
  mg_order : in_order (break g m) hs;
  mg_initial : 0 < initial_heap /\ initial_heap + initial_heap_size <= break g m;
  mg_phase : phase g hs;
  mg_free : 0 <= active_free_heap g < Z.max 1 (len hs)
}.

(** *** sbrk *)

Lemma sbrk_zero st m s : match st with Some s => s | None => u32 (mem_pages m * PAGE) end = s -> brk_ok s m ->
  sbrk can_grow st m 0 = (s, Some s, m).
Proof using Hlimit.
  intros Es (H1 & H2 & H3 & H4). unfold sbrk. rewrite Es. change (INT32_MAX <? 0) with false. cbv iota.
  change (Z.land (u32 (0 + 7)) (u32 (Z.lnot 7))) with 0. rewrite Z.add_0_r. unfold PAGE in *.
  rewrite (wrap_small 32 (s + 65536 - 1)), (wrap_small 32 s) by lia. rewrite Z.shiftr_div_pow2 by lia. change (2 ^ 16) with 65536.
  assert ((s + 65536 - 1) / 65536 = s / 65536) as -> by (clear -H2; Z.to_euclidean_division_equations; lia).
  destruct (Z.ltb_spec (mem_pages m) (s / 65536)); [| done]. exfalso. clear -H2 H3 H. Z.to_euclidean_division_equations. lia.
Qed.

Lemma sbrk_page st m s : match st with Some s => s | None => u32 (mem_pages m * PAGE) end = s -> brk_ok s m ->
  (exists m', sbrk can_grow st m PAGE = (s, Some (s + PAGE), m') /\ mem_cells m' = mem_cells m /\
     mem_pages m <= mem_pages m' /\ brk_ok (s + PAGE) m') \/
  sbrk can_grow st m PAGE = (MINUS_ONE, Some s, m).
Proof using Hlimit Hgrow.
  intros Es (H1 & H2 & H3 & H4). unfold sbrk. rewrite Es. change (INT32_MAX <? PAGE) with false. cbv iota.
  change (Z.land (u32 (PAGE + 7)) (u32 (Z.lnot 7))) with PAGE. unfold PAGE in *.
  rewrite (wrap_small 32 (s + 65536 + 65536 - 1)), (wrap_small 32 (s + 65536)) by lia.
  rewrite Z.shiftr_div_pow2 by lia. change (2 ^ 16) with 65536.
  assert ((s + 65536 + 65536 - 1) / 65536 = s / 65536 + 1) as -> by (clear -H2; Z.to_euclidean_division_equations; lia).
  assert (s / 65536 * 65536 = s) as Hs by (clear -H2; Z.to_euclidean_division_equations; lia).
  destruct (Z.ltb_spec (mem_pages m) (s / 65536 + 1)) as [Hg | Hg].
  - assert (mem_pages m = s / 65536) as Ep by lia. rewrite <- Ep. rewrite (wrap_small 32 (mem_pages m + 1 - mem_pages m)) by lia.
    replace (mem_pages m + 1 - mem_pages m) with 1 by lia. unfold memory_grow.
    destruct ((mem_pages m + 1 <=? 65536) && can_grow (mem_pages m) 1) eqn:EG.
    + cbn [mem_pages]. rewrite Z.eqb_refl. left. eexists. split; [done |]. cbn [mem_pages mem_cells]. split; [done |]. split; [lia |].
      apply andb_prop in EG as [_ EG]. unfold brk_ok, PAGE. cbn [mem_pages]. split; [lia |].
      split; [clear -H2; Z.to_euclidean_division_equations; lia |]. split; [lia |].
      destruct (decide (limit < mem_pages m + 1)) as [Hl |]; [by rewrite Hgrow in EG |]. lia.
    + right. destruct (Z.eqb_spec (mem_pages m + 1) (mem_pages m)); [lia | done].
  - left. exists m. split; [done |]. split; [done |]. split; [lia |]. unfold brk_ok, PAGE. split; [lia |].
    split; [clear -H2; Z.to_euclidean_division_equations; lia |]. lia.
Qed.

Lemma adjustment_page s m : brk_ok s m -> heap_adjustment s = PAGE.
Proof using Hlimit.
  intros (H1 & H2 & H3 & H4). unfold heap_adjustment. change (64 * 1024) with PAGE. rewrite H2. unfold PAGE in *.
  change (0 <=? 65536 - 1024) with true. cbv iota. rewrite (wrap_small 32 (s + 65536)) by lia. rewrite wrap_small by lia. lia.
Qed.

(** *** One heap among the others *)

Abbreviation each_ok m hs := (Forall (fun x : heap * list chunk => heap_ok (fst x) m (snd x) /\ 0 < heap_size (fst x) /\ initial_heap <= heap_ptr (fst x)) hs).

(** The program's blocks are untouched. *)
Definition untouched (m m' : memory) (bl : list (Z * Z)) : Prop :=
  forall q sz x, (q, sz) ∈ bl -> q <= x < q + sz -> byte_at m' x = byte_at m x.

Lemma heap_ok_frame h m m' cs :
  heap_ok h m cs -> mem_pages m <= mem_pages m' -> (forall x, heap_ptr h <= x < region_end h -> byte_at m' x = byte_at m x) ->
  heap_ok h m' cs.
Proof using Type.
  intros [H1 H2 H3 H4 H5 H6] HP HF. split; try done; [| unfold PAGE in *; lia].
  apply (chain_frame m); [done |]. intros x Hx. apply HF. unfold region_end. lia.
Qed.

Lemma in_order_apart s l x r : in_order s (l ++ x :: r) ->
  (forall y, y ∈ l -> region_end (fst y) <= heap_ptr (fst x)) /\ (forall y, y ∈ r -> region_end (fst x) <= heap_ptr (fst y)).
Proof using Type.
  destruct l as [| l0 [| l1 l]]; cbn [app in_order].
  - intros HO. split; [by intros y ?%not_elem_of_nil |]. destruct r as [| r0 [| r1 r]]; [by intros y ?%not_elem_of_nil | | done].
    intros y ->%list_elem_of_singleton. exact (proj1 HO).
  - destruct r as [| r0 r]; [| done]. intros [HO _]. split; [| by intros y ?%not_elem_of_nil].
    by intros y ->%list_elem_of_singleton.
  - by destruct l.
Qed.

Lemma in_order_same s l x x' r : heap_ptr (fst x') = heap_ptr (fst x) -> heap_size (fst x') = heap_size (fst x) ->
  in_order s (l ++ x :: r) -> in_order s (l ++ x' :: r).
Proof using Type.
  unfold in_order, region_end. intros E1 E2. destruct l as [| l0 [| l1 l]]; cbn [app]; [| | by destruct l].
  - destruct r as [| r0 [| r1 r]]; rewrite ?E1, ?E2; done.
  - destruct r as [| r0 r]; rewrite ?E1, ?E2; done.
Qed.

Lemma block_in_region m hs q sz : each_ok m hs -> (q, sz) ∈ all_blocks hs ->
  exists x, x ∈ hs /\ heap_ptr (fst x) + 4 <= q /\ q + sz <= region_end (fst x) /\ 0 < sz.
Proof using Type.
  intros HF Hq. unfold all_blocks in Hq. apply list_elem_of_join in Hq as (bl & Hq & Hbl).
  apply list_elem_of_fmap in Hbl as (x & -> & Hx). exists x. split; [done |].
  apply (proj1 (Forall_forall _ _) HF) in Hx as [[H1 [H2 _] H3 H4 _ _] _].
  destruct (blocks_between _ (chain_forall _ _ _ H4) _ _ _ Hq) as (? & ? & ?). unfold region_end. lia.
Qed.

Lemma update_heap_on s m m' l x x' r bl :
  each_ok m (l ++ x :: r) -> in_order s (l ++ x :: r) ->
  heap_ptr (fst x') = heap_ptr (fst x) -> heap_size (fst x') = heap_size (fst x) -> heap_ok (fst x') m' (snd x') ->
  hkeeps (fst x) m m' bl ->
  each_ok m' (l ++ x' :: r) /\ in_order s (l ++ x' :: r) /\ untouched m m' (all_blocks l ++ bl ++ all_blocks r).
Proof using Type.
  intros HF HO E1 E2 HH (HP & HK1 & HK2). destruct (in_order_apart s l x r HO) as [HL HR].
  split; [| split; [by apply (in_order_same s l x) |]].
  - pose proof HF as HF'. apply Forall_app in HF' as [HFl HF']. apply Forall_cons in HF' as [[_ Hx] HFr].
    apply Forall_app. split; [| apply Forall_cons; split; [by rewrite E1, E2 |]].
    + apply Forall_forall. intros y Hy. destruct (proj1 (Forall_forall _ _) HFl y Hy) as [Hy1 Hy2]. split; [| done].
      apply (heap_ok_frame _ m); [done | lia |]. intros z Hz. apply HK1. specialize (HL y Hy). lia.
    + apply Forall_forall. intros y Hy. destruct (proj1 (Forall_forall _ _) HFr y Hy) as [Hy1 Hy2]. split; [| done].
      apply (heap_ok_frame _ m); [done | lia |]. intros z Hz. apply HK1. specialize (HR y Hy). unfold region_end in *. lia.
  - intros q sz z Hq Hz. apply Forall_app in HF as [HFl HF]. apply Forall_cons in HF as [_ HFr].
    apply elem_of_app in Hq as [Hq | [Hq | Hq]%elem_of_app].
    + destruct (block_in_region m l q sz HFl Hq) as (y & Hy & H1 & H2 & _). apply HK1. specialize (HL y Hy). lia.
    + by apply (HK2 q sz).
    + destruct (block_in_region m r q sz HFr Hq) as (y & Hy & H1 & H2 & _). apply HK1. specialize (HR y Hy). unfold region_end in *. lia.
Qed.

Lemma update_heap s m m' l x x' r :
  each_ok m (l ++ x :: r) -> in_order s (l ++ x :: r) ->
  heap_ptr (fst x') = heap_ptr (fst x) -> heap_size (fst x') = heap_size (fst x) -> heap_ok (fst x') m' (snd x') ->
  hkeeps (fst x) m m' (blocks (heap_ptr (fst x)) (snd x)) ->
  each_ok m' (l ++ x' :: r) /\ in_order s (l ++ x' :: r) /\ untouched m m' (all_blocks (l ++ x :: r)).
Proof using Type. rewrite all_blocks_app, all_blocks_cons. apply update_heap_on. Qed.

Lemma get_heap_ok g (l : heaps) x r k : available_heaps g = (fst <$> (l ++ x :: r)) ++ replicate k heap_new ->
  get_heap g (len l) = Ok (fst x).
Proof using Type.
  intros E. unfold get_heap, zget. destruct (Z.ltb_spec (len l) 0); [lia |]. rewrite Nat2Z.id, E, fmap_app, <- app_assoc.
  cbn. by rewrite list_lookup_middle by by rewrite length_fmap.
Qed.

Lemma put_heap_ok g (l : heaps) x x' r k : available_heaps g = (fst <$> (l ++ x :: r)) ++ replicate k heap_new ->
  available_heaps (put_heap g (len l) (fst x')) = (fst <$> (l ++ x' :: r)) ++ replicate k heap_new.
Proof using Type.
  intros E. unfold put_heap. cbn [available_heaps]. rewrite Nat2Z.id, E, !fmap_app, <- !app_assoc. cbn.
  rewrite <- (Nat.add_0_r (length l)), <- (length_fmap fst l). by rewrite insert_app_r.
Qed.

(** *** The memory grown *)

Abbreviation minv := manager_inv.

Lemma each_ok_more m m' hs : mem_pages m <= mem_pages m' -> mem_cells m' = mem_cells m -> each_ok m hs -> each_ok m' hs.
Proof using Type.
  intros HP HC HF. eapply Forall_impl; [exact HF |]. intros x [H1 H2]. split; [| done].
  apply (heap_ok_frame _ m); [done | done |]. intros z _. unfold byte_at. by rewrite HC.
Qed.

Lemma in_order_more s s' l x x' :
  in_order s (l ++ [x]) -> heap_ptr (fst x') = heap_ptr (fst x) -> region_end (fst x') = s' ->
  s <= s' -> in_order s' (l ++ [x']).
Proof using Type.
  intros HO E1 E2 Hs. destruct l as [| l0 [| l1 l]]; cbn [app in_order] in *; [lia | | by destruct l].
  rewrite E1, E2. destruct HO. done.
Qed.

Lemma in_order_end s l x : in_order s (l ++ [x]) -> region_end (fst x) <= s /\ (l <> [] -> region_end (fst x) = s) /\ (length l <= 1)%nat.
Proof using Type.
  destruct l as [| l0 [| l1 l]]; cbn [app in_order]; [intros HO; split; [done |]; split; [done | simpl; lia] | | by destruct l].
  intros [_ HO]. split; [lia |]. split; [done | simpl; lia].
Qed.

(** The last heap gets its rest as a free chunk. *)
Lemma retire s m l x :
  each_ok m (l ++ [x]) -> in_order s (l ++ [x]) ->
  exists x' m', cleanup_remaining (fst x) m = Ok (fst x', m') /\ each_ok m' (l ++ [x']) /\ in_order s (l ++ [x']) /\ full x' /\
    heap_ptr (fst x') = heap_ptr (fst x) /\ heap_size (fst x') = heap_size (fst x) /\
    all_blocks (l ++ [x']) = all_blocks (l ++ [x]) /\ untouched m m' (all_blocks (l ++ [x])) /\ mem_pages m' = mem_pages m.
Proof using Type.
  intros HF HO. pose proof HF as HF'. apply Forall_app in HF' as [_ HF']. apply Forall_cons in HF' as [[Hx _] _].
  destruct x as [h cs]. cbn [fst snd] in *. destruct (cleanup_spec h m cs Hx) as (h' & m' & rest & E & E1 & E2 & E3 & HH & HB & HK).
  destruct (update_heap s m m' l (h, cs) (h', cs ++ rest) [] HF HO E1 E2 HH HK) as (HF2 & HO2 & HU).
  exists (h', cs ++ rest), m'. split; [done |]. split; [done |]. split; [done |]. split; [unfold full; cbn [fst]; congruence |].
  split; [done |]. split; [done |]. split; [| split; [done | by destruct HK]].
  rewrite !all_blocks_app, !all_blocks_cons. cbn [fst snd]. by rewrite E1, HB.
Qed.

(** No heap can grow any more; all are used up to their ends. *)
Definition exhausted (g : memory_manager) (hs : heaps) : Prop :=
  hs <> [] /\ heaps_actual_size g = len hs /\ active_heap g = len hs /\ Forall full hs.

(** The heaps stay where they are and do not shrink. *)
Definition covered (hs hs' : heaps) : Prop :=
  forall x, x ∈ hs -> exists y, y ∈ hs' /\ heap_ptr (fst y) = heap_ptr (fst x) /\ heap_size (fst x) <= heap_size (fst y).

Lemma covered_refl hs : covered hs hs.
Proof using Type. intros x Hx. by exists x. Qed.

Lemma covered_trans hs hs1 hs2 : covered hs hs1 -> covered hs1 hs2 -> covered hs hs2.
Proof using Type.
  intros H1 H2 x Hx. destruct (H1 x Hx) as (y & Hy & E1 & L1). destruct (H2 y Hy) as (z & Hz & E2 & L2).
  exists z. split; [done |]. split; [congruence | lia].
Qed.

Lemma covered_last l x x' r : heap_ptr (fst x') = heap_ptr (fst x) -> heap_size (fst x) <= heap_size (fst x') ->
  covered (l ++ [x]) (l ++ x' :: r).
Proof using Type.
  intros E L y [Hy | ->%list_elem_of_singleton]%elem_of_app; [exists y | exists x']; rewrite elem_of_app, elem_of_cons; split_and!; auto; lia.
Qed.

(** What [next_active_heap] gives: no heap, the same one with a page more, a new one. *)
Definition grown_to (g : memory_manager) (m : memory) (l : heaps) (x : heap * list chunk) (cur : option Z)
    (g' : memory_manager) (m' : memory) (hs' : heaps) : Prop :=
  (cur = None /\ exhausted g' hs') \/
  (exists l' x', hs' = l' ++ [x'] /\ cur = Some (len l') /\ heaps_actual_size g' = 16 /\ active_heap g' = len l' /\
     Forall full l' /\ region_end (fst x') = break g' m' /\
     if decide (region_end (fst x) = break g m) then offset (fst x') = offset (fst x) /\ heap_size (fst x') = heap_size (fst x) + PAGE
     else offset (fst x') = 0 /\ heap_size (fst x') = PAGE).

Lemma break_some g m s : sbrk_static g = Some s -> break g m = s.
Proof using Type. intros E. unfold break. by rewrite E. Qed.

Section NextHeap.
Context (g : memory_manager) (m : memory) (l : heaps) (x : heap * list chunk) (HI : minv g m (l ++ [x])).
Context (Hac : heaps_actual_size g = 16) (Hact : active_heap g = len l) (Hfull : Forall full l).

Abbreviation s := (break g m).

Definition next_heap_result (r : res (option Z * memory_manager * memory)) : Prop :=
  exists cur g' m' hs', r = Ok (cur, g', m') /\ minv g' m' hs' /\
    all_blocks hs' = all_blocks (l ++ [x]) /\ untouched m m' (all_blocks (l ++ [x])) /\ mem_pages m <= mem_pages m' /\
    covered (l ++ [x]) hs' /\ grown_to g m l x cur g' m' hs'.

Lemma last_ok : heap_ok (fst x) m (snd x) /\ (0 < heap_size (fst x) /\ initial_heap <= heap_ptr (fst x)) /\ each_ok m l.
Proof using HI. pose proof (mg_ok _ _ _ HI) as HF. apply Forall_app in HF as [HFl HF]. by apply Forall_cons in HF as [[Hx Hxs] _]. Qed.

Lemma grow_expand m1 :
  mem_cells m1 = mem_cells m -> mem_pages m <= mem_pages m1 -> brk_ok (s + PAGE) m1 -> region_end (fst x) = s ->
  next_heap_result
    (Ok (Some (len l), put_heap (with_sbrk (with_sbrk g (Some s)) (Some (s + PAGE))) (len l)
           (mkHeap (heap_size (fst x) + PAGE) (heap_ptr (fst x)) (offset (fst x))), m1)).
Proof using Hlimit Hac Hact Hfull HI.
  intros HC1 HP1 HB1 Ee. destruct last_ok as (Hx & Hxs & HFl). destruct HI as [HA HF HB HO HIn HPh HFree].
  set (x' := (mkHeap (heap_size (fst x) + PAGE) (heap_ptr (fst x)) (offset (fst x)), snd x)).
  exists (Some (len l)). eexists _, m1, (l ++ [x']). split; [done |].
  assert (region_end (fst x') = s + PAGE) as Ee' by (unfold region_end, x' in *; cbn [fst heap_ptr heap_size] in *; lia).
  split; [| split; [by rewrite !all_blocks_app | split; [intros q sz z _ _; unfold byte_at; by rewrite HC1 | split; [done |]]]];
    [| split; [by apply covered_last; unfold x'; cbn [fst heap_ptr heap_size]; [| unfold PAGE; lia] |]].
  - split; cbn [available_heaps heaps_actual_size active_heap active_free_heap sbrk_static put_heap with_sbrk].
    + pose proof (put_heap_ok (with_sbrk (with_sbrk g (Some s)) (Some (s + PAGE))) l x x' [] _ HA) as EP. cbn [available_heaps put_heap] in EP.
      rewrite length_app in *. exact EP.
    + apply Forall_app. split; [by apply (each_ok_more m) |]. constructor; [| constructor]. split; [| unfold x'; cbn; unfold PAGE; lia].
      destruct Hx as [Hx1 [Hx2 [Hx3 Hx4]] Hx5 Hx6 Hx7 Hx8]. destruct HB1 as (? & ? & ? & ?).
      split; unfold x'; cbn [fst snd heap_ptr heap_size offset]; try done; unfold region_end, x', BIT, PAGE in *; cbn [fst heap_ptr heap_size] in *; try lia.
      * split; [lia |]. split; [lia |]. clear -Hx4. Z.to_euclidean_division_equations. lia.
      * apply (chain_frame m); [done |]. intros z _. unfold byte_at. by rewrite HC1.
    + exact HB1.
    + rewrite (break_some _ _ (s + PAGE)) by done. apply (in_order_more s _ l x x' HO); [done | done | unfold PAGE; lia].
    + rewrite (break_some _ _ (s + PAGE)) by done. unfold PAGE. lia.
    + apply (PhaseRunning _ _ l x'); done.
    + rewrite length_app in *. done.
  - right. exists l, x'. rewrite decide_True by done. do 5 (split; [done |]). split; [exact Ee' | done].
Qed.

Lemma grow_new m1 :
  mem_cells m1 = mem_cells m -> mem_pages m <= mem_pages m1 -> brk_ok (s + PAGE) m1 -> region_end (fst x) <> s ->
  next_heap_result
    ('(h, m3) ← cleanup_remaining (fst x) m1;
     let active := u32 (active_heap g + 1) in
     let g3 := with_sizes (put_heap (with_sbrk (with_sbrk g (Some s)) (Some (s + PAGE))) (active_heap g) h) (heaps_actual_size g) active in
     next ← get_heap g3 active;
     Ok (Some active, put_heap g3 active (heap_init next s PAGE), m3)).
Proof using Hlimit Hac Hact Hfull HI.
  unfold next_heap_result. intros HC1 HP1 HB1 Ee. destruct last_ok as (Hx & Hxs & HFl). destruct HI as [HA HF HB HO HIn HPh HFree].
  destruct (in_order_end s l x HO) as (He1 & He2 & Hl).
  assert (l = []) as -> by (destruct l; [done | by destruct Ee; apply He2]). cbn [app] in *.
  destruct (retire s m1 [] x (each_ok_more m m1 _ HP1 HC1 HF) HO) as (x' & m2 & -> & HF2 & HO2 & Hfx & Ex & Ey & EB & HU & HP2).
  cbn [mbind res_bind app] in *. rewrite Hact. change (u32 (len (@nil (heap * list chunk)) + 1)) with 1. cbv zeta.
  set (g3 := with_sizes _ _ _). set (y := (mkHeap PAGE s 0, []) : heap * list chunk).
  assert (available_heaps g3 = (fst <$> [x']) ++ replicate 15 heap_new) as HA3.
  { exact (put_heap_ok (with_sbrk (with_sbrk g (Some s)) (Some (s + PAGE))) [] x x' [] 15 HA). }
  assert (available_heaps g3 = (fst <$> ([x'] ++ (heap_new, []) :: [])) ++ replicate 14 heap_new) as HA3' by exact HA3.
  pose proof (get_heap_ok g3 [x'] (heap_new, []) [] 14 HA3') as EG. change (get_heap g3 1 = Ok heap_new) in EG. rewrite EG. cbn [mbind res_bind].
  exists (Some 1). eexists _, m2, [x'; y]. split; [done |]. destruct HB1 as (Hb1 & Hb2 & Hb3 & Hb4).
  split; [| split; [| split; [| split; [lia | split; [apply (covered_last [] x x' [y]); [done | lia] |]]]]].
  - split; cbn [heaps_actual_size active_heap active_free_heap sbrk_static put_heap with_sbrk with_sizes g3].
    + exact (put_heap_ok g3 [x'] (heap_new, []) y [] 14 HA3').
    + constructor; [by apply Forall_cons in HF2 as [? _] |]. constructor; [| constructor]. cbn [fst snd y heap_size heap_ptr]. split; [| unfold PAGE, initial_heap_size in *; lia].
      destruct HB as (? & ? & ? & ?). split; cbn [heap_ptr heap_size offset]; unfold BIT, PAGE in *; rewrite ?HP2; try done; try lia.
    + rewrite (break_some _ _ (s + PAGE)) by done. split; [lia |]. split; [done |]. rewrite HP2. lia.
    + rewrite (break_some _ _ (s + PAGE)) by done. unfold in_order. split; [| unfold region_end; cbn; lia]. unfold region_end in *. cbn. lia.
    + rewrite (break_some _ _ (s + PAGE)) by done. unfold PAGE. lia.
    + apply (PhaseRunning _ _ [x'] y); [done | done | done | by constructor].
    + cbn in HFree |- *. lia.
  - change [x'; y] with ([x'] ++ [y]). rewrite all_blocks_app, EB. apply app_nil_r.
  - intros q sz z Hq Hz. rewrite (HU q sz z Hq Hz). unfold byte_at. by rewrite HC1.
  - right. exists [x'], y. rewrite decide_False by done. repeat (split; [done |]). split; [by constructor |]. split; [| done].
    rewrite (break_some _ _ (s + PAGE)) by done. unfold region_end. cbn. lia.
Qed.

Lemma grow_fails :
  next_heap_result
    ('(h, m3) ← cleanup_remaining (fst x) m;
     let g3 := put_heap (with_sbrk (with_sbrk g (Some s)) (Some s)) (active_heap g) h in
     Ok (None, with_sizes g3 (u32 (active_heap g + 1)) (u32 (active_heap g + 1)), m3)).
Proof using Hlimit Hac Hact Hfull HI.
  destruct last_ok as (Hx & Hxs & HFl). destruct HI as [HA HF HB HO HIn HPh HFree].
  destruct (in_order_end s l x HO) as (He1 & He2 & Hl).
  destruct (retire s m l x HF HO) as (x' & m2 & -> & HF2 & HO2 & Hfx & Ex & Ey & EB & HU & HP2).
  cbn [mbind res_bind]. rewrite Hact. rewrite wrap_small by lia. cbv zeta.
  assert (len (l ++ [x']) = len l + 1) as EL by (rewrite length_app; simpl; lia).
  exists None. eexists _, m2, (l ++ [x']). split; [done |].
  split; [| split; [done | split; [done | split; [lia | split; [apply covered_last; [done | lia] |]]]]].
  - split; cbn [heaps_actual_size active_heap active_free_heap sbrk_static put_heap with_sbrk with_sizes].
    + pose proof (put_heap_ok (with_sbrk (with_sbrk g (Some s)) (Some s)) l x x' [] _ HA) as EP.
      rewrite length_app in *. exact EP.
    + done.
    + rewrite (break_some _ _ s) by done. unfold brk_ok in *. by rewrite HP2.
    + by rewrite (break_some _ _ s).
    + by rewrite (break_some _ _ s).
    + apply PhaseExhausted; [by destruct l | done | done | by apply Forall_app; split; [| constructor]].
    + rewrite length_app in *. done.
  - left. split; [done |]. split; [by destruct l |]. cbn. rewrite EL. repeat (split; [done |]). by apply Forall_app; split; [| constructor].
Qed.

Lemma next_heap_spec : next_heap_result (next_active_heap can_grow g m).
Proof using Hlimit Hgrow Hac Hact Hfull HI.
  destruct last_ok as (Hx & Hxs & HFl). pose proof grow_expand as GE. pose proof grow_new as GN. pose proof grow_fails as GF.
  pose proof (mg_brk _ _ _ HI) as HB. pose proof HB as (Hs1 & Hs2 & Hs3 & Hs4).
  assert (s < 2 ^ 31) as Hs31 by (unfold PAGE in *; lia).
  pose proof (in_order_end s l x (mg_order _ _ _ HI)) as (He1 & _ & _).
  unfold next_active_heap. rewrite Hact in *. rewrite (get_heap_ok g l x [] _ (mg_heaps _ _ _ HI)). cbn [mbind res_bind].
  rewrite (sbrk_zero (sbrk_static g) m s eq_refl HB). unfold INT32_MAX. destruct (Z.ltb_spec 2147483647 s); [lia |].
  rewrite (adjustment_page s m HB).
  destruct (sbrk_page (Some s) m s eq_refl HB) as [(m1 & -> & HC1 & HP1 & HB1) | ->].
  - unfold MINUS_ONE. destruct (Z.eqb_spec s (2 ^ 32 - 1)); [lia |]. unfold expand_memory. rewrite (heap_end_ok _ m _ Hx).
    destruct (Z.eqb_spec (heap_ptr (fst x) + heap_size (fst x)) s) as [Ee | Ee]; [| by apply GN].
    rewrite wrap_small; [by apply GE |]. destruct Hx as [? [? ?] ? ? ? ?]. unfold BIT, PAGE in *. lia.
  - rewrite Z.eqb_refl. exact GF.
Qed.
End NextHeap.

(** *** Allocation at the end of the last heap *)

(** A new block among the old ones. *)
Definition allocated (hs hs' : heaps) (ptr size : Z) : Prop :=
  0 < ptr /\ exists A B, all_blocks hs = A ++ B /\ all_blocks hs' = A ++ (ptr, size) :: B.

Lemma put_heap_same g (l : heaps) x r k :
  available_heaps g = (fst <$> (l ++ x :: r)) ++ replicate k heap_new -> put_heap g (len l) (fst x) = g.
Proof using Type.
  intros E. unfold put_heap. rewrite Nat2Z.id, list_insert_id; [by destruct g |].
  rewrite E, fmap_app, <- app_assoc. cbn. by rewrite list_lookup_middle by by rewrite length_fmap.
Qed.

(** A step on one heap of the manager. *)
Lemma put_heap_inv g m l x r x' m' :
  minv g m (l ++ x :: r) -> each_ok m' (l ++ x' :: r) -> in_order (break g m) (l ++ x' :: r) -> mem_pages m' = mem_pages m ->
  phase g (l ++ x' :: r) -> minv (put_heap g (len l) (fst x')) m' (l ++ x' :: r).
Proof using Type.
  intros [HA HF HB HO HIn HPh HFree] HF' HO' HP HPh'.
  assert (break (put_heap g (len l) (fst x')) m' = break g m) as EB.
  { unfold break, put_heap. cbn [sbrk_static]. by rewrite HP. }
  assert (length (l ++ x' :: r) = length (l ++ x :: r)) as EL by (rewrite !length_app; done).
  split; rewrite ?EB, ?EL; try done.
  - by apply (put_heap_ok g l x x' r).
  - unfold brk_ok in *. by rewrite HP.
  - destruct HPh'; [by constructor 1 | by econstructor 2 | constructor 3; done].
Qed.

Lemma untouched_trans m m1 m2 bl bl' : untouched m m1 bl -> untouched m1 m2 bl' -> bl ⊆ bl' -> untouched m m2 bl.
Proof using Type. intros H1 H2 Hs q sz x Hq Hx. rewrite (H2 q sz), (H1 q sz); auto. Qed.

(** Enough rounds: the last heap grows by a page in each, after one more if it is not at the end. *)
Definition rounds_ok (g : memory_manager) (m : memory) (x : heap * list chunk) (size : Z) (fuel : nat) : Prop :=
  (1 <= fuel)%nat /\
  if decide (region_end (fst x) = break g m) then size + 4 - (heap_size (fst x) - offset (fst x)) <= PAGE * (Z.of_nat fuel - 2)
  else (3 <= fuel)%nat /\ size + 4 <= PAGE * (Z.of_nat fuel - 2).

Lemma bump_step g m l x size :
  minv g m (l ++ [x]) -> heaps_actual_size g = 16 -> active_heap g = len l -> Forall full l -> chunk_ok (size, true) ->
  offset (fst x) + size + 4 <= heap_size (fst x) ->
  exists ptr h' m' hs', heap_malloc (fst x) m size = Ok (ptr, h', m') /\ 0 < ptr /\ minv (put_heap g (len l) h') m' hs' /\
    untouched m m' (all_blocks (l ++ [x])) /\ mem_pages m' = mem_pages m /\ allocated (l ++ [x]) hs' ptr size.
Proof using Type.
  intros HI Hac Hact Hfull Hsz Hf. pose proof (mg_ok _ _ _ HI) as HF. pose proof HF as HF'.
  apply Forall_app in HF' as [_ HF']. apply Forall_cons in HF' as [[Hx _] _].
  destruct (heap_malloc_fits _ m _ size Hx Hsz Hf) as (h' & m' & E & E1 & E2 & HH & HK).
  destruct (update_heap (break g m) m m' l x (h', snd x ++ [(size, true)]) [] HF (mg_order _ _ _ HI) E1 E2 HH HK) as (HF2 & HO2 & HU).
  pose proof Hx as [Hx1 [Hx2 _] Hx3 _ _ _].
  eexists _, h', m', (l ++ [(h', snd x ++ [(size, true)])]). split; [exact E |]. split; [lia |].
  split; [| split; [done | split; [by destruct HK |]]].
  - destruct HK as (HP & _). apply (put_heap_inv g m l x [] (h', snd x ++ [(size, true)]) m' HI HF2 HO2 HP).
    by apply (PhaseRunning _ _ l (h', snd x ++ [(size, true)])).
  - split; [lia |]. exists (all_blocks (l ++ [x])), []. rewrite app_nil_r. split; [done |].
    rewrite !all_blocks_app, !all_blocks_cons. cbn [fst snd]. rewrite E1, blocks_app. cbn [blocks fst snd app].
    change (all_blocks []) with (@nil (Z * Z)). rewrite !app_nil_r, app_assoc. do 3 f_equal. lia.
Qed.

Lemma bump_loop_spec size fuel : chunk_ok (size, true) -> forall g m l x,
  minv g m (l ++ [x]) -> heaps_actual_size g = 16 -> active_heap g = len l -> Forall full l -> rounds_ok g m x size fuel ->
  exists ptr g' m' hs', bump_loop can_grow fuel g m size (Some (len l)) = Ok (ptr, g', m') /\ minv g' m' hs' /\
    untouched m m' (all_blocks (l ++ [x])) /\ mem_pages m <= mem_pages m' /\
    (allocated (l ++ [x]) hs' ptr size \/
     (ptr = nullptr /\ all_blocks hs' = all_blocks (l ++ [x]) /\ exhausted g' hs' /\ covered (l ++ [x]) hs')).
Proof using Hlimit Hgrow.
  intros Hsz. pose proof Hsz as [Hs1 Hs2]. cbn [fst] in Hs1, Hs2.
  induction fuel as [| fuel IH]; intros g m l x HI Hac Hact Hfull [Hf Hr]; [lia |]. cbn [bump_loop].
  rewrite (get_heap_ok g l x [] _ (mg_heaps _ _ _ HI)). cbn [mbind res_bind].
  pose proof (mg_ok _ _ _ HI) as HF. apply Forall_app in HF as [_ HF]. apply Forall_cons in HF as [[Hx _] _].
  destruct (Z.leb_spec (offset (fst x) + size + 4) (heap_size (fst x))) as [Hfit | Hno].
  - destruct (bump_step g m l x size HI Hac Hact Hfull Hsz Hfit) as (ptr & h' & m' & hs' & -> & Hp & HI' & HU & HP & HA).
    cbn [mbind res_bind]. destruct (Z.eqb_spec ptr nullptr) as [E |]; [unfold nullptr in E; lia |]. cbn [negb].
    exists ptr, (put_heap g (len l) h'), m', hs'. split; [done |]. split; [done |]. split; [done |]. split; [lia | by left].
  - rewrite (heap_malloc_full _ m (snd x) size Hx) by (try lia; unfold BIT in *; clear -Hs1 Hs2; Z.to_euclidean_division_equations; lia).
    cbn [mbind res_bind]. change (negb (nullptr =? nullptr)) with false. cbv iota.
    rewrite (put_heap_same g l x [] _ (mg_heaps _ _ _ HI)).
    destruct (next_heap_spec g m l x HI Hac Hact Hfull) as (cur & g1 & m1 & hs1 & -> & HI1 & EB & HU & HP & HV & HG). cbn [mbind res_bind].
    assert (3 <= S fuel)%nat as Hf3 by (destruct (decide _); [unfold PAGE in Hr; lia | by destruct Hr]).
    destruct HG as [(-> & HX) | (l' & x' & -> & -> & Hac' & Hact' & Hfull' & He' & Hsz')].
    + destruct fuel as [| fuel]; [lia |]. exists nullptr, g1, m1, hs1. split; [done |]. split; [done |]. split; [done |]. split; [done |].
      right. by split_and!.
    + destruct (IH g1 m1 l' x' HI1 Hac' Hact' Hfull') as (ptr & g' & m' & hs' & E & HI' & HU' & HP' & HX).
      { split; [lia |]. rewrite decide_True by done. destruct (decide _); destruct Hsz' as [-> ->]; unfold PAGE in *; lia. }
      exists ptr, g', m', hs'. split; [exact E |]. split; [done |]. unfold allocated in *. rewrite EB in HU', HX. split; [by eapply untouched_trans |].
      split; [lia |]. destruct HX as [HX | (HX1 & HX2 & HX3 & HX4)]; [by left | right]. by split_and!; [..| eapply covered_trans].
Qed.

(** The memory changed inside one heap, the heap as it was. *)
Lemma replace_chunks_on g m m' L h cs cs' R bl :
  minv g m (L ++ (h, cs) :: R) -> heap_ok h m' cs' -> hkeeps h m m' bl ->
  minv g m' (L ++ (h, cs') :: R) /\ untouched m m' (all_blocks L ++ bl ++ all_blocks R).
Proof using Type.
  intros [HA HF HB HO HIn HPh HFree] HH HK.
  destruct (update_heap_on (break g m) m m' L (h, cs) (h, cs') R bl HF HO eq_refl eq_refl HH HK) as (HF2 & HO2 & HU).
  split; [| done]. destruct HK as (HP & _). assert (break g m' = break g m) as EB by (unfold break; by rewrite HP).
  assert (length (L ++ (h, cs') :: R) = length (L ++ (h, cs) :: R)) as EL by (rewrite !length_app; done).
  split; rewrite ?EB, ?EL; try done.
  - rewrite fmap_app, fmap_cons in HA |- *. exact HA.
  - unfold brk_ok in *. by rewrite HP.
  - assert (Forall full (L ++ (h, cs) :: R) -> Forall full (L ++ (h, cs') :: R)) as HFu.
    { rewrite !Forall_app, !Forall_cons. done. }
    destruct HPh as [E _ _ | l x E E1 E2 Hl | Hne E1 E2 Hf]; [by destruct L | |].
    + destruct R as [| y R _] using rev_ind.
      * apply app_inj_tail in E as [-> _]. by apply (PhaseRunning _ _ l (h, cs')).
      * rewrite app_comm_cons, app_assoc in E. apply app_inj_tail in E as [<- _].
        apply (PhaseRunning _ _ (L ++ (h, cs') :: R) y); [by rewrite <- app_assoc | done | |].
        -- rewrite E2, !length_app. done.
        -- rewrite Forall_app, Forall_cons in Hl |- *. done.
    + apply PhaseExhausted; [by destruct L | by rewrite EL | by rewrite EL | auto].
Qed.

Lemma replace_chunks g m m' L h cs cs' R :
  minv g m (L ++ (h, cs) :: R) -> heap_ok h m' cs' -> hkeeps h m m' (blocks (heap_ptr h) cs) ->
  minv g m' (L ++ (h, cs') :: R) /\ untouched m m' (all_blocks (L ++ (h, cs) :: R)).
Proof using Type. rewrite all_blocks_app, (all_blocks_cons (h, cs)). apply replace_chunks_on. Qed.

(** *** The search of freed memory *)

Definition no_room (size : Z) (hs : heaps) : Prop := Forall (fun x => room size 0 (snd x) = false) hs.

Definition with_free (g : memory_manager) (a : Z) : memory_manager :=
  mkManager (available_heaps g) (heaps_actual_size g) (active_heap g) a (sbrk_static g).

Lemma with_free_inv g m hs a : minv g m hs -> 0 <= a < Z.max 1 (len hs) -> minv (with_free g a) m hs.
Proof using Type.
  intros [HA HF HB HO HIn HPh HFree] Ha. split; try done.
  destruct HPh; [by constructor 1 | by econstructor 2 | by constructor 3].
Qed.

Lemma freed_step g m l x r size :
  minv g m (l ++ x :: r) -> exhausted g (l ++ x :: r) -> chunk_ok (size, true) ->
  exists ptr m' cs', malloc_from_freed (fst x) m size = Ok (ptr, m') /\
    minv g m' (l ++ (fst x, cs') :: r) /\ untouched m m' (all_blocks (l ++ x :: r)) /\ mem_pages m' = mem_pages m /\
    if room size 0 (snd x) then allocated (l ++ x :: r) (l ++ (fst x, cs') :: r) ptr size
    else ptr = nullptr /\ all_blocks (l ++ (fst x, cs') :: r) = all_blocks (l ++ x :: r).
Proof using Type.
  intros HI (_ & Hx1 & Hx2 & Hx3) Hsz. pose proof (mg_ok _ _ _ HI) as HF. pose proof HF as HF'.
  apply Forall_app in HF' as [_ HF']. apply Forall_cons in HF' as [[Hx Hxs] _].
  pose proof Hx3 as Hx4. apply Forall_app in Hx4 as [_ Hx4]. apply Forall_cons in Hx4 as [Hfx _].
  destruct (malloc_from_freed_spec (fst x) m (snd x) size Hx Hfx (proj1 Hxs) Hsz) as (ptr & m' & cs' & E & HH & HK & HR).
  destruct x as [h cs]. cbn [fst snd] in *. destruct (replace_chunks g m m' l h cs cs' r HI HH HK) as [HI' HU].
  exists ptr, m', cs'. split; [done |]. destruct HK as (HP & _). do 3 (split; [done |]).
  destruct (room size 0 cs).
  - destruct HR as (Hp & A & B & EA & EB). split; [done |]. exists (all_blocks l ++ A), (B ++ all_blocks r).
    rewrite !all_blocks_app, !all_blocks_cons. cbn [fst snd]. rewrite EA, EB, <- !app_assoc. done.
  - destruct HR as (-> & EB). split; [done |]. rewrite !all_blocks_app, !all_blocks_cons. cbn [fst snd]. by rewrite EB.
Qed.

(** One round of the loop. *)
Lemma freed_round g m l x r size fuel stop :
  minv g m (l ++ x :: r) -> exhausted g (l ++ x :: r) -> chunk_ok (size, true) -> active_free_heap g = len l ->
  let next := if len l + 1 =? len (l ++ x :: r) then 0 else len l + 1 in
  exists ptr m' cs', minv g m' (l ++ (fst x, cs') :: r) /\ untouched m m' (all_blocks (l ++ x :: r)) /\ mem_pages m' = mem_pages m /\
    if room size 0 (snd x) then
      freed_loop (S fuel) g m size stop = Ok (ptr, g, m') /\ allocated (l ++ x :: r) (l ++ (fst x, cs') :: r) ptr size
    else
      freed_loop (S fuel) g m size stop =
        (if next =? stop then Ok (nullptr, with_free g next, m') else freed_loop fuel (with_free g next) m' size stop) /\
      minv (with_free g next) m' (l ++ (fst x, cs') :: r) /\ exhausted (with_free g next) (l ++ (fst x, cs') :: r) /\
      all_blocks (l ++ (fst x, cs') :: r) = all_blocks (l ++ x :: r).
Proof using Type.
  intros HI HX Hsz Ha next. destruct (freed_step g m l x r size HI HX Hsz) as (ptr & m' & cs' & E & HI' & HU & HP & HR).
  exists ptr, m', cs'. split; [done |]. split; [done |]. split; [done |]. cbn [freed_loop].
  rewrite Ha, (get_heap_ok g l x r _ (mg_heaps _ _ _ HI)). cbn [mbind res_bind]. rewrite E. cbn [mbind res_bind].
  assert (length (l ++ (fst x, cs') :: r) = length (l ++ x :: r)) as EL by (rewrite !length_app; done).
  assert (len l + 1 <= len (l ++ x :: r)) as HLen by (rewrite length_app; simpl; lia).
  destruct HX as (_ & HX1 & HX2 & HX3). destruct (room size 0 (snd x)).
  - pose proof HR as [Hp _]. destruct (Z.eqb_spec ptr nullptr) as [E0 |]; [unfold nullptr in E0; lia |]. done.
  - destruct HR as [-> EB]. change (negb (nullptr =? nullptr)) with false. cbv iota.
    assert (len l + 1 < 2 ^ 32) as Hl32.
    { pose proof (mg_order _ _ _ HI) as HO. destruct l as [| l0 [| l1 l]]; [simpl; lia | simpl; lia | by destruct l]. }
    rewrite wrap_small by lia. split; [unfold next; by rewrite <- HX1 |]. split; [| split; [| done]].
    + apply with_free_inv; [done |]. rewrite EL. subst next. destruct (Z.eqb_spec (len l + 1) (len (l ++ x :: r))); lia.
    + split; [by destruct l |]. split; [by rewrite EL |]. split; [by rewrite EL |]. apply Forall_app in HX3 as [? HX3]. apply Forall_cons in HX3 as [? ?].
      apply Forall_app. split; [done |]. by constructor.
Qed.

Lemma freed_loop_spec g m hs size :
  minv g m hs -> exhausted g hs -> chunk_ok (size, true) ->
  exists ptr g' m' hs', freed_loop (S (Z.to_nat (heaps_actual_size g))) g m size (active_free_heap g) = Ok (ptr, g', m') /\
    minv g' m' hs' /\ untouched m m' (all_blocks hs) /\ mem_pages m' = mem_pages m /\
    (allocated hs hs' ptr size \/ (ptr = nullptr /\ all_blocks hs' = all_blocks hs /\ no_room size hs)).
Proof using Type.
  intros HI HX Hsz. pose proof (mg_order _ _ _ HI) as HO. pose proof (mg_free _ _ _ HI) as Hf. pose proof HX as (Hne & -> & _ & _).
  destruct hs as [| x [| y [| z hs]]]; [done | | | done].
  - assert (active_free_heap g = 0) as Ha by (simpl in Hf; lia). rewrite Ha.
    destruct (freed_round g m [] x [] size 1 0 HI HX Hsz Ha) as (ptr & m' & cs' & HI' & HU & HP & HR). cbn [app] in *.
    change (S (Z.to_nat (len [x]))) with 2%nat. destruct (room size 0 (snd x)) eqn:Er.
    + destruct HR as [-> HA]. exists ptr, g, m', [(fst x, cs')]. by split_and!; try left.
    + destruct HR as (-> & HI2 & _ & EB). exists nullptr, (with_free g 0), m', [(fst x, cs')]. split; [done |]. split; [exact HI2 |].
      split; [done |]. split; [done |]. right. split; [done |]. split; [done |]. by constructor.
  - change (S (Z.to_nat (len [x; y]))) with 3%nat. destruct (Z.eq_dec (active_free_heap g) 0) as [Ha | Ha].
    + rewrite Ha. destruct (freed_round g m [] x [y] size 2 0 HI HX Hsz Ha) as (ptr & m1 & cs1 & HI1 & HU1 & HP1 & HR1). cbn [app] in *.
      destruct (room size 0 (snd x)) eqn:Erx.
      * destruct HR1 as [-> HA]. exists ptr, g, m1, [(fst x, cs1); y]. by split_and!; try left.
      * destruct HR1 as (-> & HI2 & HX2 & EB1). change (1 =? 0) with false. cbv iota.
        destruct (freed_round (with_free g 1) m1 [(fst x, cs1)] y [] size 1 0 HI2 HX2 Hsz eq_refl) as (ptr2 & m2 & cs2 & HI3 & HU2 & HP2 & HR2).
        cbn [app] in *. rewrite EB1 in HU2. destruct (room size 0 (snd y)) eqn:Ery.
        -- destruct HR2 as [E HA]. exists ptr2, (with_free g 1), m2, [(fst x, cs1); (fst y, cs2)]. split; [exact E |]. split; [done |].
           split; [by eapply untouched_trans |]. split; [congruence |]. left. unfold allocated in *. by rewrite EB1 in HA.
        -- destruct HR2 as (E & HI4 & _ & EB2). exists nullptr, (with_free (with_free g 1) 0), m2, [(fst x, cs1); (fst y, cs2)].
           split; [exact E |]. split; [exact HI4 |]. split; [by eapply untouched_trans |]. split; [congruence |].
           right. split; [done |]. split; [congruence |]. by repeat constructor.
    + assert (active_free_heap g = 1) as Ha1 by (simpl in Hf; lia). rewrite Ha1.
      destruct (freed_round g m [x] y [] size 2 1 HI HX Hsz Ha1) as (ptr & m1 & cs1 & HI1 & HU1 & HP1 & HR1). cbn [app] in *.
      destruct (room size 0 (snd y)) eqn:Ery.
      * destruct HR1 as [-> HA]. exists ptr, g, m1, [x; (fst y, cs1)]. by split_and!; try left.
      * destruct HR1 as (-> & HI2 & HX2 & EB1). change (0 =? 1) with false. cbv iota.
        destruct (freed_round (with_free g 0) m1 [] x [(fst y, cs1)] size 1 1 HI2 HX2 Hsz eq_refl) as (ptr2 & m2 & cs2 & HI3 & HU2 & HP2 & HR2).
        cbn [app] in *. rewrite EB1 in HU2. destruct (room size 0 (snd x)) eqn:Erx.
        -- destruct HR2 as [E HA]. exists ptr2, (with_free g 0), m2, [(fst x, cs2); (fst y, cs1)]. split; [exact E |]. split; [done |].
           split; [by eapply untouched_trans |]. split; [congruence |]. left. unfold allocated in *. by rewrite EB1 in HA.
        -- destruct HR2 as (E & HI4 & _ & EB2). exists nullptr, (with_free (with_free g 0) 1), m2, [(fst x, cs2); (fst y, cs1)].
           split; [exact E |]. split; [exact HI4 |]. split; [by eapply untouched_trans |]. split; [congruence |].
           right. split; [done |]. split; [congruence |]. by repeat constructor.
Qed.

(** *** malloc *)

Lemma adjust_ok size : 0 < size <= BIT - 8 ->
  chunk_ok (adjust_to_mem_block size, true) /\ size <= adjust_to_mem_block size < size + 8.
Proof using Type.
  intros Hs. unfold adjust_to_mem_block, rem_mem_block_mask, mem_block, size_marker, chunk_ok, BIT in *. cbn [fst].
  rewrite (wrap_small 32 (size + 4)) by lia. change (8 - 1) with (Z.ones 3). rewrite Z.land_ones by lia. change (2 ^ 3) with 8.
  pose proof (Z.mod_pos_bound (size + 4) 8 ltac:(lia)).
  destruct (Z.ltb_spec 0 ((size + 4) mod 8)).
  - rewrite wrap_small by lia. split; [split; [lia |] | lia]; Z.to_euclidean_division_equations; lia.
  - split; [split; [lia |] | lia]; Z.to_euclidean_division_equations; lia.
Qed.

Lemma rounds_enough g m x size : heap_ok (fst x) m (snd x) -> 0 < size -> rounds_ok g m x size (bump_fuel size).
Proof using Type.
  intros [_ [H1 _] _ _ _ _] Hs. unfold rounds_ok, bump_fuel, PAGE.
  assert (0 <= size / 1024 /\ size < 1024 * (size / 1024) + 1024) by (Z.to_euclidean_division_equations; lia).
  destruct (decide _); lia.
Qed.

(** The state the loops start from. *)
Lemma malloc_starts g m hs :
  minv g m hs ->
  exists g2 hs2 cur, (let g1 := if heaps_actual_size g =? 0 then with_sizes g heaps_size (active_heap g) else g in
     (if active_heap g1 <? heaps_actual_size g1 then
        start_heap ← get_heap g1 (active_heap g1);
        let h := if (active_heap g1 =? 0) && negb (is_init start_heap)
                 then heap_init start_heap initial_heap initial_heap_size else start_heap in
        Ok (Some (active_heap g1), put_heap g1 (active_heap g1) h)
      else Ok (None, g1))) = Ok (cur, g2) /\
    minv g2 m hs2 /\ all_blocks hs2 = all_blocks hs /\ covered hs hs2 /\
    ((cur = None /\ exhausted g2 hs2) \/
     exists l x, hs2 = l ++ [x] /\ cur = Some (len l) /\ heaps_actual_size g2 = 16 /\ active_heap g2 = len l /\ Forall full l).
Proof using Hlimit.
  intros HI. pose proof HI as [HA HF HB HO HIn HPh HFree]. destruct HPh as [-> Ha1 Ha2 | l x -> Ha1 Ha2 Hfl | Hne Ha1 Ha2 Hfl].
  - rewrite Ha1, Ha2. change (0 =? 0) with true. cbv zeta iota. cbn [heaps_actual_size active_heap with_sizes].
    change (0 <? heaps_size) with true. cbv iota. set (g1 := with_sizes g heaps_size 0).
    set (x := (mkHeap initial_heap_size initial_heap 0, []) : heap * list chunk).
    assert (available_heaps g1 = (fst <$> (@nil (heap * list chunk) ++ (heap_new, []) :: [])) ++ replicate 15 heap_new) as HA1 by exact HA.
    pose proof (get_heap_ok g1 [] (heap_new, []) [] 15 HA1) as EG. change (get_heap g1 0 = Ok heap_new) in EG. rewrite EG.
    cbn [mbind res_bind]. exists (put_heap g1 0 (fst x)), [x], (Some 0). split; [done |].
    split; [| split; [done | split; [by intros z ?%not_elem_of_nil | right; exists [], x; by split_and!]]].
    destruct HB as (? & ? & ? & ?). split; try done.
    + exact (put_heap_ok g1 [] (heap_new, []) x [] 15 HA1).
    + constructor; [| constructor]. unfold x, initial_heap_size in *. cbn [fst snd heap_size heap_ptr]. split; [| lia].
      split; cbn [heap_ptr heap_size offset]; unfold BIT, PAGE in *; try done; lia.
    + exact (proj2 HIn).
    + by apply (PhaseRunning _ _ [] x).
  - rewrite Ha1. change (16 =? 0) with false. cbv zeta iota. rewrite Ha1, Ha2. destruct (in_order_end _ l x HO) as (_ & _ & Hl).
    destruct (Z.ltb_spec (len l) 16); [| lia]. rewrite (get_heap_ok g l x [] _ HA). cbn [mbind res_bind].
    apply Forall_app in HF as [_ HF]. apply Forall_cons in HF as [[Hx _] _].
    assert (is_init (fst x) = true) as Ei.
    { unfold is_init, nullptr. destruct Hx. destruct (Z.eqb_spec (heap_ptr (fst x)) 0); [lia | done]. }
    rewrite Ei, andb_false_r, (put_heap_same g l x [] _ HA). exists g, (l ++ [x]), (Some (len l)).
    do 3 (split; [done |]). split; [apply covered_refl |]. right. by exists l, x.
  - assert (0 < len hs) as Hp by (destruct hs; [done | simpl; lia]). rewrite Ha1.
    destruct (Z.eqb_spec (len hs) 0); [lia |]. cbv zeta. rewrite Ha1, Ha2, Z.ltb_irrefl. exists g, hs, None.
    do 3 (split; [done |]). split; [apply covered_refl |]. left. by split_and!.
Qed.

Lemma manager_malloc_spec g m hs size :
  minv g m hs -> 0 < size <= BIT - 8 ->
  exists ptr g' m' hs', manager_malloc can_grow initial_heap g m size = Ok (ptr, g', m') /\ minv g' m' hs' /\
    untouched m m' (all_blocks hs) /\ mem_pages m <= mem_pages m' /\
    (allocated hs hs' ptr (adjust_to_mem_block size) \/
     (ptr = nullptr /\ all_blocks hs' = all_blocks hs /\
      exists g1 m1 hs1, minv g1 m1 hs1 /\ exhausted g1 hs1 /\ all_blocks hs1 = all_blocks hs /\ covered hs hs1 /\ no_room (adjust_to_mem_block size) hs1)).
Proof using Hlimit Hgrow.
  intros HI Hs. destruct (adjust_ok size Hs) as [Hadj Hle]. unfold manager_malloc. destruct (Z.eqb_spec size 0); [lia |].
  destruct (malloc_starts g m hs HI) as (g2 & hs2 & cur & E & HI2 & EB2 & HV2 & Hcur). cbv zeta in E |- *. rewrite E. cbn [mbind res_bind].
  set (adj := adjust_to_mem_block size) in *.
  assert (exists ptr g3 m3 hs3, bump_loop can_grow (bump_fuel adj) g2 m adj cur = Ok (ptr, g3, m3) /\ minv g3 m3 hs3 /\
            untouched m m3 (all_blocks hs) /\ mem_pages m <= mem_pages m3 /\
            (allocated hs hs3 ptr adj \/ (ptr = nullptr /\ all_blocks hs3 = all_blocks hs /\ exhausted g3 hs3 /\ covered hs hs3)))
    as (ptr & g3 & m3 & hs3 & -> & HI3 & HU3 & HP3 & HR3).
  { destruct Hcur as [(-> & HX) | (l & x & -> & -> & Hac & Hact & Hfl)].
    - assert (exists k, bump_fuel adj = S k) as (k & ->).
      { destruct (bump_fuel adj) eqn:Ef; [| by eexists]. unfold bump_fuel in Ef.
        assert (0 <= adj / 1024) by (apply Z.div_pos; lia). lia. }
      exists nullptr, g2, m, hs2. split; [done |]. split; [done |]. split; [done |]. split; [lia |]. by right.
    - pose proof (mg_ok _ _ _ HI2) as HF. apply Forall_app in HF as [_ HF]. apply Forall_cons in HF as [[Hx _] _].
      destruct (bump_loop_spec adj (bump_fuel adj) Hadj g2 m l x HI2 Hac Hact Hfl (rounds_enough g2 m x adj Hx ltac:(lia)))
        as (ptr & g3 & m3 & hs3 & E3 & HI3 & HU3 & HP3 & HR3).
      exists ptr, g3, m3, hs3. unfold allocated in *. rewrite EB2 in HU3, HR3. do 4 (split; [done |]).
      destruct HR3 as [HR3 | (HX1 & HX2 & HX3 & HX4)]; [by left | right]. by split_and!; [..| eapply covered_trans]. }
  cbn [mbind res_bind]. destruct HR3 as [HA3 | (-> & EB3 & HX3 & HV3)].
  - pose proof HA3 as [Hp _]. destruct (Z.eqb_spec ptr nullptr) as [E0 |]; [unfold nullptr in E0; lia |]. cbn [negb].
    exists ptr, g3, m3, hs3. split_and!; try done. by left.
  - change (negb (nullptr =? nullptr)) with false. cbv iota.
    destruct (freed_loop_spec g3 m3 hs3 adj HI3 HX3 Hadj) as (ptr & g4 & m4 & hs4 & E4 & HI4 & HU4 & HP4 & HR4).
    exists ptr, g4, m4, hs4. split; [exact E4 |]. split; [done |]. rewrite EB3 in HU4. split; [by eapply untouched_trans |].
    split; [lia |]. unfold allocated in *. rewrite EB3 in HR4. destruct HR4 as [HA4 | (-> & EB4 & HN4)]; [by left |].
    right. split; [done |]. split; [done |]. by exists g3, m3, hs3.
Qed.
(** *** free *)

Lemma blocks_split cs : forall p q sz, (q, sz) ∈ blocks p cs ->
  exists l r, cs = l ++ (sz, true) :: r /\ q = p + span l + 4.
Proof using Type.
  induction cs as [| [z a] cs IH]; intros p q sz; cbn [blocks fst snd]; [by intros ?%not_elem_of_nil |].
  intros [Hq | Hq]%elem_of_app.
  - destruct a; [| by apply not_elem_of_nil in Hq]. apply list_elem_of_singleton in Hq as [= -> ->].
    exists [], cs. split; [done |]. cbn. lia.
  - destruct (IH _ _ _ Hq) as (l & r & -> & ->). exists ((z, a) :: l), r. split; [done |]. cbn [span fst]. lia.
Qed.

Lemma all_blocks_split hs q sz : (q, sz) ∈ all_blocks hs ->
  exists L h l r R, hs = L ++ (h, l ++ (sz, true) :: r) :: R /\ q = heap_ptr h + span l + 4.
Proof using Type.
  unfold all_blocks. intros (bl & Hq & ([h cs] & -> & Hx)%list_elem_of_fmap)%list_elem_of_join. cbn [fst snd] in Hq.
  apply list_elem_of_split in Hx as (L & R & ->). destruct (blocks_split _ _ _ _ Hq) as (l & r & -> & ->).
  by exists L, h, l, r, R.
Qed.

Lemma heap_of_found (L : heaps) x R k actual ptr : forall i, i + len L < actual ->
  (forall y, y ∈ L -> is_init (fst y) = true /\ is_in_heap (fst y) ptr = false) ->
  is_init (fst x) = true -> is_in_heap (fst x) ptr = true ->
  heap_of ((fst <$> (L ++ x :: R)) ++ replicate k heap_new) i actual ptr = Some (i + len L).
Proof using Type.
  induction L as [| y L IH]; intros i Hi HL Hx1 Hx2; cbn [app fmap list_fmap heap_of length] in *.
  - destruct (Z.ltb_spec i actual); [| lia]. rewrite Hx1, Hx2. cbn [andb]. f_equal. lia.
  - destruct (HL y ltac:(left)) as [-> ->]. destruct (Z.ltb_spec i actual); [| lia]. cbn [andb].
    etransitivity; [apply IH; try done; [lia |] | f_equal; lia]. intros z Hz. apply HL. by right.
Qed.

Lemma phase_below g l x r s : phase g (l ++ x :: r) -> in_order s (l ++ x :: r) -> len l < heaps_actual_size g.
Proof using Type.
  intros HPh HO. assert (len l <= 1 /\ len l < len (l ++ x :: r)) as [? ?].
  { rewrite length_app. destruct l as [| l0 [| l1 l]]; [simpl; lia | simpl; lia | by destruct l]. }
  destruct HPh as [E _ _ | l' x' E -> _ _ | _ -> _ _]; [by destruct l | lia | lia].
Qed.

Lemma heap_of_block g m L h l sz r R :
  minv g m (L ++ (h, l ++ (sz, true) :: r) :: R) ->
  heap_of (available_heaps g) 0 (heaps_actual_size g) (heap_ptr h + span l + 4) = Some (len L).
Proof using Type.
  intros HI. pose proof HI as [-> HF _ HO _ HPh _]. pose proof (phase_below _ _ _ _ _ HPh HO) as HLt.
  apply Forall_app in HF as [HFl HF]. apply Forall_cons in HF as [[Hh Hs] _]. cbn [fst snd] in *.
  pose proof Hh as [H1 [H2 [H3 H4]] H5 H6 H7 H8]. rewrite span_app in H5. cbn [span fst] in H5.
  apply chain_app in H6 as [HCl (Hc & _ & HCr)]. destruct (chain_span _ _ _ HCl). destruct (chain_span _ _ _ HCr).
  destruct Hc as [Hc _]. cbn [fst] in *. apply heap_of_found; [lia | | |]; cbn [fst].
  - intros y Hy. destruct (in_order_apart _ _ _ _ HO) as [HA _]. specialize (HA y Hy). cbn [fst] in HA.
    destruct (proj1 (Forall_forall _ _) HFl y Hy) as [Hy1 _]. pose proof Hy1 as [? ? ? ? ? ?]. split.
    + unfold is_init, nullptr. by destruct (Z.eqb_spec (heap_ptr (fst y)) 0); [lia |].
    + unfold is_in_heap. rewrite (heap_end_ok _ _ _ Hy1). unfold region_end in HA. apply andb_false_iff. right. apply Z.ltb_ge. lia.
  - unfold is_init, nullptr. by destruct (Z.eqb_spec (heap_ptr h) 0); [lia |].
  - unfold is_in_heap. rewrite (heap_end_ok _ _ _ Hh). unfold size_marker. rewrite wrap_small by lia.
    apply andb_true_iff. split; [apply Z.leb_le | apply Z.ltb_lt]; lia.
Qed.

(** Where there is room: a stretch of a heap. *)
Definition lies_in (hs : heaps) (a b : Z) : Prop := exists x, x ∈ hs /\ heap_ptr (fst x) <= a /\ b <= region_end (fst x).

Lemma manager_free_spec g m hs q sz :
  minv g m hs -> (q, sz) ∈ all_blocks hs ->
  exists m' hs' A B, manager_free g m q = Ok m' /\ minv g m' hs' /\ untouched m m' (all_blocks hs) /\ mem_pages m' = mem_pages m /\
    all_blocks hs = A ++ (q, sz) :: B /\ all_blocks hs' = A ++ B /\ lies_in hs' (q - 4) (q + sz).
Proof using Type.
  intros HI Hq. destruct (all_blocks_split hs q sz Hq) as (L & h & l & r & R & -> & ->).
  pose proof (mg_ok _ _ _ HI) as HF. apply Forall_app in HF as [_ HF]. apply Forall_cons in HF as [[Hh Hs] _]. cbn [fst snd] in *.
  destruct (heap_free_spec h m l sz r Hh) as (m' & E & HH & HK).
  destruct (replace_chunks g m m' L h _ (l ++ (sz, false) :: r) R HI HH HK) as [HI' HU].
  exists m', (L ++ (h, l ++ (sz, false) :: r) :: R), (all_blocks L ++ blocks (heap_ptr h) l),
    (blocks (heap_ptr h + span l + (4 + sz)) r ++ all_blocks R).
  pose proof Hh as [H1 [H2 [H3 H4]] H5 H6 H7 H8]. rewrite span_app in H5. cbn [span fst] in H5.
  apply chain_app in H6 as [HCl (Hc & _ & HCr)]. destruct (chain_span _ _ _ HCl). destruct (chain_span _ _ _ HCr).
  destruct Hc as [Hc _]. cbn [fst] in *. split; [| split; [done | split; [done | split; [by destruct HK | split; [| split]]]]].
  - unfold manager_free, nullptr. destruct (Z.eqb_spec (heap_ptr h + span l + 4) 0); [lia |].
    rewrite (heap_of_block _ _ _ _ _ _ _ _ HI), (get_heap_ok g L _ R _ (mg_heaps _ _ _ HI)). exact E.
  - rewrite all_blocks_app, all_blocks_cons. cbn [fst snd]. rewrite blocks_app. cbn [blocks fst snd app]. by rewrite <- !app_assoc.
  - rewrite all_blocks_app, all_blocks_cons. cbn [fst snd]. rewrite blocks_app. cbn [blocks fst snd app]. by rewrite <- !app_assoc.
  - exists (h, l ++ (sz, false) :: r). split; [apply elem_of_app; right; left |]. unfold region_end. cbn [fst]. lia.
Qed.

(** *** A null pointer means that no stretch is left *)

Lemma gap_room size a cs : 0 <= size -> Forall chunk_ok cs -> forall p run,
  run < size + 4 -> p - run <= a -> a + size + 4 <= p + span cs ->
  (forall q sz, (q, sz) ∈ blocks p cs -> a + size + 4 <= q - 4 \/ q + sz <= a) -> room size run cs = true.
Proof using Type.
  intros Hs. induction 1 as [| [z b] cs [Hz _] HF IH]; intros p run Hrun Ha Hb HD; cbn [span room blocks fst snd] in *; [lia |].
  destruct b.
  - destruct (HD (p + 4) z ltac:(left)); [lia |]. apply (IH (p + (4 + z))); [lia | lia | lia |].
    intros q sz Hq. apply HD. by right.
  - destruct (Z.leb_spec (size + 4) (run + (4 + z))); [done |]. cbn [orb]. apply (IH (p + (4 + z))); [lia | lia | lia |].
    intros q sz Hq. by apply HD.
Qed.

Lemma no_stretch g m hs hs1 size a :
  minv g m hs1 -> exhausted g hs1 -> covered hs hs1 -> no_room size hs1 -> 0 <= size ->
  lies_in hs a (a + size + 4) -> (forall q sz, (q, sz) ∈ all_blocks hs1 -> a + size + 4 <= q - 4 \/ q + sz <= a) -> False.
Proof using Type.
  intros HI (_ & _ & _ & Hfull) HV HN Hs (x & Hx & H1 & H2) HD. destruct (HV x Hx) as (y & Hy & E1 & L1).
  pose proof (proj1 (Forall_forall _ _) HN y Hy) as Hr. cbn beta in Hr.
  pose proof (proj1 (Forall_forall _ _) Hfull y Hy) as Hfy. unfold full in Hfy.
  destruct (proj1 (Forall_forall _ _) (mg_ok _ _ _ HI) y Hy) as [[? ? H5 H6 ? ?] _]. unfold region_end in H2.
  rewrite (gap_room size a (snd y) Hs (chain_forall _ _ _ H6) (heap_ptr (fst y)) 0) in Hr; [done | lia | lia | lia |].
  intros q sz Hq. apply HD. unfold all_blocks. apply list_elem_of_join. eexists. split; [exact Hq |]. apply list_elem_of_fmap. by exists y.
Qed.
(** *** realloc to a smaller size *)

Lemma manager_realloc_down g m hs q sz n :
  minv g m hs -> (q, sz) ∈ all_blocks hs -> 0 < n <= BIT - 8 -> adjust_to_mem_block n <= sz ->
  exists m' A B, manager_realloc can_grow initial_heap g m q n = Ok (q, g, m') /\ minv g m' hs /\ mem_pages m' = mem_pages m /\
    all_blocks hs = A ++ (q, sz) :: B /\ untouched m m' (A ++ (q, n) :: B).
Proof using Type.
  intros HI Hq Hn Hle. destruct (adjust_ok n Hn) as [Hadj Ha]. set (adj := adjust_to_mem_block n) in *.
  destruct (all_blocks_split hs q sz Hq) as (L & h & l & r & R & -> & ->).
  pose proof (mg_ok _ _ _ HI) as HF. apply Forall_app in HF as [_ HF]. apply Forall_cons in HF as [[Hh _] _]. cbn [fst snd] in *.
  destruct (realloc_down_spec h m l sz r adj Hh Hadj Hle) as (m' & E & HH & HP & HB).
  pose proof Hh as [H1 [H2 [H3 H4]] H5 H6 H7 H8]. rewrite span_app in H5. cbn [span fst] in H5.
  apply chain_app in H6 as [HCl ([Hc _] & _ & HCr)]. destruct (chain_span _ _ _ HCl). destruct (chain_span _ _ _ HCr). cbn [fst] in *.
  set (q := heap_ptr h + span l + 4) in *.
  set (A := blocks (heap_ptr h) l). set (B := blocks (heap_ptr h + span l + (4 + sz)) r).
  assert (blocks (heap_ptr h) (l ++ (sz, true) :: r) = A ++ (q, sz) :: B) as EB by (rewrite blocks_app; done).
  destruct (replace_chunks_on g m m' L h _ (l ++ (sz, true) :: r) R (A ++ (q, n) :: B) HI HH) as [HI' HU].
  { split; [done |]. split; [intros x Hx; apply HB; lia |]. intros p z x Hin Hx.
    apply elem_of_app in Hin as [Hin | [[= -> ->] | Hin]%elem_of_cons]; apply HB.
    - destruct (blocks_between _ (chain_forall _ _ _ HCl) _ _ _ Hin). lia.
    - lia.
    - destruct (blocks_between _ (chain_forall _ _ _ HCr) _ _ _ Hin). lia. }
  exists m', (all_blocks L ++ A), (B ++ all_blocks R). split; [| split; [done | split; [done | split]]].
  - unfold manager_realloc, nullptr. destruct (Z.eqb_spec n 0); [lia |]. fold adj. destruct (Z.eqb_spec q 0); [lia |].
    pose proof (heap_of_block _ _ _ _ _ _ _ _ HI) as EH. fold q in EH. rewrite EH, (get_heap_ok g L _ R _ (mg_heaps _ _ _ HI)). cbn [mbind res_bind].
    cbn [fst]. rewrite E. cbn [mbind res_bind]. destruct (Z.eqb_spec q 0); [lia |]. cbn [negb].
    pose proof (put_heap_same g L _ R _ (mg_heaps _ _ _ HI)) as EP. cbn [fst] in EP. by rewrite EP.
  - rewrite all_blocks_app, all_blocks_cons. cbn [fst snd]. rewrite EB, <- !app_assoc. done.
  - by rewrite <- !app_assoc in *.
Qed.
End Manager.
