(* ===== verification/HeapClient.v ===== *)
(** * A program's use of malloc/malloc.cpp

    The states a program reaches with the manager of heaps, and what it may rely on in
    them: its blocks apart, their bytes its own, freed memory given out again. *)

From stdpp Require Import relations sorting.
From S2P Require Import Prelude LinearMemory HeapMalloc HeapMallocFacts.

(** ** Blocks in the order of their addresses *)

Definition before (b c : Z * Z) : Prop := fst b + snd b <= fst c - 4.

Lemma blocks_sorted cs : Forall chunk_ok cs -> forall p, StronglySorted before (blocks p cs).
Proof.
  induction 1 as [| [z a] cs [Hz _] HF IH]; intros p; cbn [blocks fst snd] in *; [constructor |].
  destruct a; [| apply IH]. cbn [app]. constructor; [apply IH |]. apply Forall_forall. intros [q sz] Hq.
  destruct (blocks_between cs HF _ _ _ Hq). unfold before. cbn [fst snd]. lia.
Qed.

(** Two blocks are one or lie apart, the word before each included. *)
Definition apart (bl : list (Z * Z)) : Prop :=
  NoDup (fst <$> bl) /\ forall b c, b ∈ bl -> c ∈ bl -> fst b <> fst c -> before b c \/ before c b.

Lemma sorted_apart bl : (forall b, b ∈ bl -> 0 < snd b) -> StronglySorted before bl -> apart bl.
Proof.
  intros Hp. induction 1 as [| b bl HS IH HF]; [split; [constructor | by intros b c ?%not_elem_of_nil] |].
  destruct IH as [HN HA]; [intros c Hc; apply Hp; by right |]. rewrite Forall_forall in HF. split.
  - cbn. constructor; [| done]. intros (c & E & Hc)%list_elem_of_fmap. specialize (HF c Hc). specialize (Hp b ltac:(left)).
    unfold before in HF. lia.
  - intros c d [-> | Hc]%elem_of_cons [-> | Hd]%elem_of_cons Hne; [done | left; auto | right; auto | auto].
Qed.

Lemma apart_perm bl bl' : bl ≡ₚ bl' -> apart bl -> apart bl'.
Proof. intros E [HN HA]. split; [by rewrite <- E |]. intros b c. rewrite <- E. apply HA. Qed.

(** ** The steps of a program *)

(** The manager, the memory, and the program's blocks with the sizes asked for. *)
Record client := mkClient { c_manager : memory_manager; c_memory : memory; c_live : list (Z * Z) }.

Inductive client_step (can_grow : Z -> Z -> bool) (initial_heap : Z) : client -> client -> Prop :=
| StepMalloc g m live n ptr g' m' :
    0 < n <= BIT - 8 -> manager_malloc can_grow initial_heap g m n = Ok (ptr, g', m') ->
    client_step can_grow initial_heap (mkClient g m live) (mkClient g' m' (if ptr =? nullptr then live else (ptr, n) :: live))
| StepFree g m l q n r m' :
    manager_free g m q = Ok m' -> client_step can_grow initial_heap (mkClient g m (l ++ (q, n) :: r)) (mkClient g m' (l ++ r))
| StepShrink g m l q n r n' ptr g' m' :
    0 < n' <= n -> manager_realloc can_grow initial_heap g m q n' = Ok (ptr, g', m') ->
    client_step can_grow initial_heap (mkClient g m (l ++ (q, n) :: r)) (mkClient g' m' (l ++ (ptr, n') :: r))
| StepStore g m live q n a bs m' :
    (q, n) ∈ live -> q <= a -> a + len bs <= q + n -> mem_store m a bs = Ok m' ->
    client_step can_grow initial_heap (mkClient g m live) (mkClient g m' live).

(** A block of the program is in one of the manager, with the size rounded up. *)
Definition holds (b c : Z * Z) : Prop := fst b = fst c /\ 0 < snd b <= BIT - 8 /\ adjust_to_mem_block (snd b) <= snd c.
Definition owned (live : list (Z * Z)) (hs : heaps) : Prop := exists caps, caps ≡ₚ all_blocks hs /\ Forall2 holds live caps.

Lemma owned_in live hs q n : owned live hs -> (q, n) ∈ live -> exists sz, (q, sz) ∈ all_blocks hs /\ holds (q, n) (q, sz).
Proof.
  intros (caps & EP & HF) Hin. apply list_elem_of_lookup in Hin as [i Hi].
  destruct (Forall2_lookup_l _ _ _ _ _ HF Hi) as ([q' sz] & Hc & Hh). pose proof Hh as [E _]. cbn in E. subst q'.
  exists sz. split; [| done]. rewrite <- EP. by eapply list_elem_of_lookup_2.
Qed.

Lemma holds_size b c : holds b c -> snd b <= snd c.
Proof. intros (_ & Hn & Hs). destruct (adjust_ok (snd b) Hn). lia. Qed.

Lemma adjust_mono n n' : 0 < n' <= n -> n <= BIT - 8 -> adjust_to_mem_block n' <= adjust_to_mem_block n.
Proof.
  intros H1 H2. destruct (adjust_ok n' ltac:(lia)) as [[_ E1] B1]. destruct (adjust_ok n ltac:(lia)) as [[_ E2] B2].
  cbn [fst] in *. Z.to_euclidean_division_equations. lia.
Qed.

Lemma owned_untouched m m' live hs : owned live hs -> untouched m m' (all_blocks hs) -> untouched m m' live.
Proof.
  intros HO HU q n x Hq Hx. destruct (owned_in live hs q n HO Hq) as (sz & Hin & Hh). apply (HU q sz x Hin).
  pose proof (holds_size _ _ Hh) as Hle. cbn [snd] in Hle. lia.
Qed.

(** One block taken out. *)
Lemma owned_remove l q n r hs : owned (l ++ (q, n) :: r) hs ->
  exists sz, (q, sz) ∈ all_blocks hs /\ holds (q, n) (q, sz) /\
    forall A B, all_blocks hs = A ++ (q, sz) :: B -> exists c1 c2, Forall2 holds l c1 /\ Forall2 holds r c2 /\ c1 ++ c2 ≡ₚ A ++ B.
Proof.
  intros (caps & EP & HF). apply Forall2_app_inv_l in HF as (c1 & k & HF1 & HF2 & ->).
  apply Forall2_cons_inv_l in HF2 as ([q' sz] & c2 & Hh & HF2 & ->). pose proof Hh as [E _]. cbn in E. subst q'.
  exists sz. split; [rewrite <- EP; apply elem_of_app; right; left |]. split; [done |].
  intros A B EB. exists c1, c2. split; [done |]. split; [done |]. rewrite EB in EP. by apply Permutation_app_inv in EP.
Qed.

Section Client.
Context (can_grow : Z -> Z -> bool) (initial_heap : Z).
Context (limit : Z) (Hlimit : limit < 32768) (Hgrow : forall old n, limit < old + n -> can_grow old n = false).

Abbreviation minv := (manager_inv initial_heap limit).

Lemma all_blocks_pos g m hs b : minv g m hs -> b ∈ all_blocks hs ->
  0 < snd b /\ initial_heap + 4 <= fst b /\ fst b + snd b <= mem_pages m * PAGE.
Proof using Type.
  intros HI Hb. destruct b as [q sz]. destruct (block_in_region _ m hs q sz (mg_ok _ _ _ _ _ HI) Hb) as (x & Hx & H1 & H2 & H3).
  destruct (proj1 (Forall_forall _ _) (mg_ok _ _ _ _ _ HI) x Hx) as [[? ? ? ? ? ?] ?]. unfold region_end in H2. cbn [fst snd]. lia.
Qed.

Lemma all_blocks_apart g m hs : minv g m hs -> apart (all_blocks hs).
Proof using Type.
  intros HI. apply sorted_apart; [intros b Hb; by apply (all_blocks_pos g m hs) |].
  pose proof (mg_ok _ _ _ _ _ HI) as HF. pose proof (mg_order _ _ _ _ _ HI) as HO.
  assert (forall x, x ∈ hs -> StronglySorted before (blocks (heap_ptr (fst x)) (snd x))) as HS.
  { intros x Hx. destruct (proj1 (Forall_forall _ _) HF x Hx) as [[? ? ? HC ? ?] _]. by eapply blocks_sorted, chain_forall. }
  destruct hs as [| x [| y [| z hs]]]; [constructor | | | done].
  - change (all_blocks [x]) with (blocks (heap_ptr (fst x)) (snd x) ++ []). rewrite app_nil_r. apply HS. left.
  - change (all_blocks [x; y]) with (blocks (heap_ptr (fst x)) (snd x) ++ blocks (heap_ptr (fst y)) (snd y) ++ []). rewrite app_nil_r.
    apply StronglySorted_app_2; [| apply HS; left | apply HS; right; left]. intros [q1 s1] [q2 s2] H1 H2.
    apply Forall_cons in HF as [[[? ? ? HC1 ? ?] _] HF]. apply Forall_cons in HF as [[[? ? ? HC2 ? ?] _] _].
    destruct (blocks_between _ (chain_forall _ _ _ HC1) _ _ _ H1). destruct (blocks_between _ (chain_forall _ _ _ HC2) _ _ _ H2).
    destruct HO as [HO _]. unfold region_end, before in *. cbn [fst snd]. lia.
Qed.

(** A store inside a block. *)
Lemma store_inv g m hs q sz a bs :
  minv g m hs -> (q, sz) ∈ all_blocks hs -> q <= a -> a + len bs <= q + sz -> minv g (put_bytes m a bs) hs.
Proof using Type.
  intros HI Hq H1 H2. destruct (all_blocks_split hs q sz Hq) as (L & h & l & r & R & -> & ->).
  pose proof (mg_ok _ _ _ _ _ HI) as HF. apply Forall_app in HF as [_ HF]. apply Forall_cons in HF as [[Hh _] _]. cbn [fst snd] in *.
  pose proof Hh as [Hh1 [Hh2 _] Hh3 Hh4 _ _]. rewrite span_app in Hh3. cbn [span fst] in Hh3.
  pose proof Hh4 as Hh5. apply chain_app in Hh5 as [HCl ([Hc _] & _ & HCr)]. destruct (chain_span _ _ _ HCl). destruct (chain_span _ _ _ HCr).
  destruct (replace_chunks_on initial_heap limit g m (put_bytes m a bs) L h (l ++ (sz, true) :: r) (l ++ (sz, true) :: r) R [] HI); [| | done].
  - apply (heap_ok_change h m _ _ _ Hh); [| done | done]. apply (chain_inside m); [done |]. cbn [fst]. intros x Hx.
    apply byte_at_put_out. lia.
  - split; [done |]. split; [| by intros ? ? ? ?%not_elem_of_nil]. intros x Hx. apply byte_at_put_out. cbn [fst] in *. lia.
Qed.
(** ** What every reachable state satisfies *)

Definition client_inv (c : client) : Prop := exists hs, minv (c_manager c) (c_memory c) hs /\ owned (c_live c) hs.

Lemma client_start m :
  0 < initial_heap -> initial_heap + initial_heap_size <= mem_pages m * PAGE -> mem_pages m <= limit ->
  client_inv (mkClient manager_new m []).
Proof using Hlimit.
  intros H1 H2 H3. exists []. split; [| by exists []; split]. unfold initial_heap_size in *.
  assert (break manager_new m = mem_pages m * PAGE) as EB by (unfold break; cbn; apply wrap_small; unfold PAGE in *; lia).
  split; cbn [c_manager c_memory]; rewrite ?EB; try done.
  - split; [lia |]. split; [apply Z.mod_mul; unfold PAGE; lia | lia].
  - by constructor 1.
Qed.

Lemma malloc_step g m live n : client_inv (mkClient g m live) -> 0 < n <= BIT - 8 ->
  exists ptr g' m', manager_malloc can_grow initial_heap g m n = Ok (ptr, g', m') /\ untouched m m' live /\
    client_inv (mkClient g' m' (if ptr =? nullptr then live else (ptr, n) :: live)).
Proof using Hlimit Hgrow.
  intros (hs & HI & HO) Hn. cbn [c_manager c_memory c_live] in *.
  destruct (manager_malloc_spec can_grow initial_heap limit Hlimit Hgrow g m hs n HI Hn) as (ptr & g' & m' & hs' & E & HI' & HU & _ & HR).
  exists ptr, g', m'. split; [done |]. split; [by eapply owned_untouched |]. exists hs'. split; [done |]. cbn [c_live].
  destruct HO as (caps & EP & HF). destruct HR as [(Hp & A & B & EA & EB) | (-> & EB & _)].
  - destruct (Z.eqb_spec ptr nullptr) as [E0 |]; [unfold nullptr in E0; lia |].
    exists ((ptr, adjust_to_mem_block n) :: caps). split; [rewrite EB, EP, EA; apply Permutation_middle |].
    constructor; [| done]. split; [done |]. split; [done |]. cbn. lia.
  - exists caps. split; [by rewrite EB | done].
Qed.

Lemma free_step g m l q n r : client_inv (mkClient g m (l ++ (q, n) :: r)) ->
  exists m', manager_free g m q = Ok m' /\ untouched m m' (l ++ (q, n) :: r) /\ client_inv (mkClient g m' (l ++ r)).
Proof using Type.
  intros (hs & HI & HO). cbn [c_manager c_memory c_live] in *. destruct (owned_remove l q n r hs HO) as (sz & Hin & Hh & HR).
  destruct (manager_free_spec initial_heap limit g m hs q sz HI Hin) as (m' & hs' & A & B & E & HI' & HU & _ & EA & EB & _).
  exists m'. split; [done |]. split; [by eapply owned_untouched |]. exists hs'. split; [done |].
  destruct (HR A B EA) as (c1 & c2 & HF1 & HF2 & EP). exists (c1 ++ c2). cbn [c_live]. rewrite EB. split; [done |]. by apply Forall2_app.
Qed.

Lemma shrink_step g m l q n r n' : client_inv (mkClient g m (l ++ (q, n) :: r)) -> 0 < n' <= n ->
  exists m', manager_realloc can_grow initial_heap g m q n' = Ok (q, g, m') /\ untouched m m' (l ++ (q, n') :: r) /\
    client_inv (mkClient g m' (l ++ (q, n') :: r)).
Proof using Type.
  intros (hs & HI & HO) Hn. cbn [c_manager c_memory c_live] in *. destruct (owned_remove l q n r hs HO) as (sz & Hin & Hh & HR).
  pose proof Hh as (_ & Hn2 & Hcap). cbn [snd] in *. pose proof (adjust_mono n n' Hn ltac:(lia)) as Hmono.
  destruct (manager_realloc_down can_grow initial_heap limit g m hs q sz n' HI Hin ltac:(lia) ltac:(lia)) as (m' & A & B & E & HI' & _ & EB & HU).
  destruct (HR A B EB) as (c1 & c2 & HF1 & HF2 & EP).
  exists m'. split; [done |]. split.
  - intros p k x Hp Hx. rewrite elem_of_app, elem_of_cons in Hp.
    assert ((p, k) = (q, n') \/ exists z, (p, z) ∈ A ++ B /\ k <= z) as [[= -> ->] | (z & Hz & Hkz)].
    { destruct Hp as [Hp | [Hp | Hp]]; [right | by left | right].
      - apply list_elem_of_lookup in Hp as [i Hi]. destruct (Forall2_lookup_l _ _ _ _ _ HF1 Hi) as ([p' z] & Hc & Hh').
        pose proof Hh' as [Ep _]. cbn in Ep. subst p'. exists z. rewrite <- EP. split; [| exact (holds_size _ _ Hh')].
        apply elem_of_app. left. by eapply list_elem_of_lookup_2.
      - apply list_elem_of_lookup in Hp as [i Hi]. destruct (Forall2_lookup_l _ _ _ _ _ HF2 Hi) as ([p' z] & Hc & Hh').
        pose proof Hh' as [Ep _]. cbn in Ep. subst p'. exists z. rewrite <- EP. split; [| exact (holds_size _ _ Hh')].
        apply elem_of_app. right. by eapply list_elem_of_lookup_2. }
    + apply (HU q n'); [apply elem_of_app; right; left | done].
    + apply (HU p z); [| lia]. rewrite elem_of_app, elem_of_cons. apply elem_of_app in Hz as [? | ?]; auto.
  - exists hs. split; [done |]. exists (c1 ++ (q, sz) :: c2). cbn [c_live]. split.
    + rewrite EB, <- !Permutation_middle. by rewrite EP.
    + apply Forall2_app; [done |]. constructor; [| done]. split; [done |]. cbn [snd]. lia.
Qed.

Lemma store_step g m live q n a bs : client_inv (mkClient g m live) -> (q, n) ∈ live -> q <= a -> a + len bs <= q + n ->
  0 < q /\ mem_store m a bs = Ok (put_bytes m a bs) /\ client_inv (mkClient g (put_bytes m a bs) live).
Proof using Type.
  intros (hs & HI & HO) Hq H1 H2. cbn [c_manager c_memory c_live] in *. destruct (owned_in live hs q n HO Hq) as (sz & Hin & Hh).
  pose proof (holds_size _ _ Hh) as Hle. destruct (all_blocks_pos g m hs _ HI Hin) as (Hb1 & Hb2 & Hb3). cbn [fst snd] in *.
  pose proof (mg_initial _ _ _ _ _ HI) as [Hi _]. split; [lia |]. split; [apply store_ok; lia |].
  exists hs. split; [| done]. apply (store_inv g m hs q sz); [done | done | done | lia].
Qed.

Lemma client_step_inv c c' : client_inv c -> client_step can_grow initial_heap c c' -> client_inv c'.
Proof using Hlimit Hgrow.
  intros HC HS. destruct HS as [g m live n ptr g' m' Hn E | g m l q n r m' E | g m l q n r n' ptr g' m' Hn E | g m live q n a bs m' Hq H1 H2 E].
  - destruct (malloc_step g m live n HC Hn) as (? & ? & ? & E' & _ & HC'). rewrite E in E'. by injection E' as <- <- <-.
  - destruct (free_step g m l q n r HC) as (? & E' & _ & HC'). rewrite E in E'. by injection E' as <-.
  - destruct (shrink_step g m l q n r n' HC Hn) as (? & E' & _ & HC'). rewrite E in E'. by injection E' as <- <- <-.
  - destruct (store_step g m live q n a bs HC Hq H1 H2) as (_ & E' & HC'). rewrite E in E'. by injection E' as ->.
Qed.

(** The states a program reaches from a fresh manager. *)
Definition reached (c : client) : Prop :=
  exists m, 0 < initial_heap /\ initial_heap + initial_heap_size <= mem_pages m * PAGE /\ mem_pages m <= limit /\
    rtc (client_step can_grow initial_heap) (mkClient manager_new m []) c.

Lemma reached_inv c : reached c -> client_inv c.
Proof using Hlimit Hgrow.
  intros (m & H1 & H2 & H3 & HR). pose proof (client_start m H1 H2 H3) as HC. revert HC HR.
  generalize (mkClient manager_new m []). intros c0 HC HR. induction HR as [| c0 c1 c2 HS _ IH]; [done |].
  by apply IH, (client_step_inv c0).
Qed.
(** C9. In every state a program reaches by requests of at most 2^31 - 8 bytes, frees of its blocks,
    reallocs to a size no larger and stores inside its blocks, over a memory that can grow only to less
    than 32768 pages (2 GiB), its blocks lie apart (the word before each included), above the start of the
    first heap and inside the memory. The bounds are needed: a request of 2^32 - 4 bytes wraps
    (malloc_wraps), and a realloc of the last block to a larger size may leave the memory
    (realloc_beyond_memory). *)
Theorem client_blocks g m live :
  reached (mkClient g m live) ->
  apart live /\ forall q n, (q, n) ∈ live -> 0 < n /\ initial_heap + 4 <= q /\ q + n <= mem_pages m * PAGE.
Proof using Hlimit Hgrow.
  intros (hs & HI & HO)%reached_inv. cbn [c_manager c_memory c_live] in *. split; [split |].
  - destruct HO as (caps & EP & HF). assert (fst <$> live = fst <$> caps) as ->.
    { clear -HF. induction HF as [| b c live caps [E _] _ IH]; [done |]. cbn. by rewrite E, IH. }
    rewrite EP. apply (all_blocks_apart g m hs HI).
  - intros [q1 n1] [q2 n2] H1 H2 Hne. destruct (owned_in live hs q1 n1 HO H1) as (s1 & Hs1 & Hh1).
    destruct (owned_in live hs q2 n2 HO H2) as (s2 & Hs2 & Hh2). apply holds_size in Hh1, Hh2. cbn [snd] in Hh1, Hh2.
    destruct (proj2 (all_blocks_apart g m hs HI) _ _ Hs1 Hs2 Hne) as [HB | HB]; unfold before in *; cbn [fst snd] in *; [left | right]; lia.
  - intros q n Hq. destruct (owned_in live hs q n HO Hq) as (sz & Hin & Hh).
    destruct (all_blocks_pos g m hs _ HI Hin) as (_ & H2 & H3). pose proof (holds_size _ _ Hh).
    destruct Hh as (_ & ? & _). cbn [fst snd] in *. lia.
Qed.

(** None of these calls is undefined, and none runs forever: in a reached state [malloc] returns and leaves the
    bytes of all blocks, [free] of a block leaves the bytes of the others (its own too), [realloc] to a smaller size
    returns the same pointer with the bytes kept. *)
Theorem client_progress g m live :
  reached (mkClient g m live) ->
  (forall n, 0 < n <= BIT - 8 -> exists ptr g' m', manager_malloc can_grow initial_heap g m n = Ok (ptr, g', m') /\ untouched m m' live) /\
  (forall l q n r, live = l ++ (q, n) :: r ->
     (exists m', manager_free g m q = Ok m' /\ untouched m m' live) /\
     (forall n', 0 < n' <= n -> exists m', manager_realloc can_grow initial_heap g m q n' = Ok (q, g, m') /\
        untouched m m' (l ++ (q, n') :: r))).
Proof using Hlimit Hgrow.
  intros HC%reached_inv. split.
  - intros n Hn. destruct (malloc_step g m live n HC Hn) as (ptr & g' & m' & E & HU & _). by exists ptr, g', m'.
  - intros l q n r ->. split.
    + destruct (free_step g m l q n r HC) as (m' & E & HU & _). by exists m'.
    + intros n' Hn. destruct (shrink_step g m l q n r n' HC Hn) as (m' & E & HU & _). by exists m'.
Qed.

(** C10. Freed memory is given out again: after the [free] of a block, in any state such a program reaches (requests
    and memory bounded as in client_blocks), a [malloc] of no more bytes does not fail, even when the host grants no
    more memory. *)
Theorem freed_is_reused g m l q n r n' :
  reached (mkClient g m (l ++ (q, n) :: r)) -> 0 < n' <= n ->
  exists m' ptr g' m'', manager_free g m q = Ok m' /\ manager_malloc can_grow initial_heap g m' n' = Ok (ptr, g', m'') /\ 0 < ptr.
Proof using Hlimit Hgrow.
  intros (hs & HI & HO)%reached_inv Hn'. cbn [c_manager c_memory c_live] in *. destruct (owned_remove l q n r hs HO) as (sz & Hin & Hh & _).
  pose proof Hh as (_ & Hn & Hcap). cbn [fst snd] in *. pose proof (adjust_mono n n' Hn' ltac:(lia)) as Hmono.
  destruct (manager_free_spec initial_heap limit g m hs q sz HI Hin) as (m' & hs' & A & B & E & HI' & _ & _ & EA & EB & x & Hx & Hx1 & Hx2).
  destruct (manager_malloc_spec can_grow initial_heap limit Hlimit Hgrow g m' hs' n' HI' ltac:(lia)) as (ptr & g' & m'' & hs2 & E2 & _ & _ & _ & HR).
  exists m', ptr, g', m''. split; [done |]. split; [done |]. destruct HR as [[Hp _] | (_ & _ & g1 & m1 & hs1 & HI1 & HX & EB1 & HV & HN)]; [done |].
  exfalso. pose proof (adjust_ok n' ltac:(lia)) as [_ Ha]. apply (no_stretch initial_heap limit g1 m1 hs' hs1 (adjust_to_mem_block n') (q - 4) HI1 HX HV HN);
    [lia | exists x; split; [done | lia] |].
  destruct (all_blocks_apart g m hs HI) as [HD HA]. intros p z Hp. rewrite EB1, EB in Hp.
  assert (p <> q) as Hne.
  { intros ->. rewrite EA, fmap_app, fmap_cons in HD. cbn [fst] in HD. rewrite <- Permutation_middle in HD.
    apply NoDup_cons in HD as [HD _]. apply HD. rewrite <- fmap_app. apply list_elem_of_fmap. by exists (q, z). }
  assert ((p, z) ∈ all_blocks hs) as Hp' by (rewrite EA, elem_of_app, elem_of_cons; apply elem_of_app in Hp as [? | ?]; auto).
  destruct (HA _ _ Hin Hp' ltac:(done)) as [HB | HB]; unfold before in HB; cbn [fst snd] in HB; [left | right]; lia.
Qed.
End Client.

(** ** Where realloc and malloc go wrong *)

(** A memory of one page, the first heap at 1024, a host that gives nothing. *)
Definition one_page : memory := mkMem 1 ∅.
Definition no_growth : Z -> Z -> bool := fun _ _ => false.

(** Two blocks, the second one freed, the first one enlarged, a third one asked for. *)
Definition enlarge_into_tail : res (Z * Z) :=
  '(a, g1, m1) ← manager_malloc no_growth 1024 manager_new one_page 12;
  '(b, g2, m2) ← manager_malloc no_growth 1024 g1 m1 12;
  m3 ← manager_free g2 m2 b;
  '(a', g4, m4) ← manager_realloc no_growth 1024 g2 m3 a 60;
  '(c, g5, m5) ← manager_malloc no_growth 1024 g4 m4 12;
  Ok (a', c).

(** One block enlarged beyond the memory. *)
Definition enlarge_last (n : Z) : res Z :=
  '(a, g1, m1) ← manager_malloc no_growth 1024 manager_new one_page 12;
  '(a', g2, m2) ← manager_realloc no_growth 1024 g1 m1 a n;
  Ok a'.

(** The merging of [realloc] does not stop at [_offset]: zero words of the unused memory count as free chunks, so
    a block grows past it and the next [malloc] returns an address inside that block. *)
Theorem realloc_overlaps : exists a c, enlarge_into_tail = Ok (a, c) /\ a <= c < a + 60.
Proof. exists 1028, 1060. split; [vm_compute; reflexivity | lia]. Qed.

(** The test [end_of_buffer - size < ptr] wraps for a size above the end of the heap, so the last block grows to any
    size; here to 100000 bytes of a memory of 65536. *)
Lemma realloc_beyond_memory : enlarge_last 100000 = Ok 1028 /\ 1028 + 100000 > mem_pages one_page * PAGE.
Proof. split; [vm_compute; reflexivity | vm_compute; done]. Qed.

(** A size near 2^32 wraps: the request is granted and takes no memory. *)
Lemma malloc_wraps :
  ('(a, g1, m1) ← manager_malloc no_growth 1024 manager_new one_page (2 ^ 32 - 4);
   '(b, g2, m2) ← manager_malloc no_growth 1024 g1 m1 12; Ok (a, b)) = Ok (1028, 1028).
Proof. vm_compute. reflexivity. Qed.

(** ** Witnesses *)

Lemma no_growth_limit : forall old n, 1 < old + n -> no_growth old n = false.
Proof. done. Qed.

Lemma one_block : exists g m, reached no_growth 1024 1 (mkClient g m ([] ++ (1028, 12) :: [])).
Proof.
  assert (exists g m, manager_malloc no_growth 1024 manager_new one_page 12 = Ok (1028, g, m)) as (g & m & E).
  { eexists _, _. vm_compute. reflexivity. }
  exists g, m, one_page. do 3 (split; [vm_compute; done |]). apply rtc_once.
  apply (StepMalloc no_growth 1024 manager_new one_page [] 12 1028 g m); [unfold BIT; lia | exact E].
Qed.

Lemma client_blocks_witness : exists g m, reached no_growth 1024 1 (mkClient g m [(1028, 12)]) /\ 1028 + 12 <= mem_pages m * PAGE.
Proof.
  destruct one_block as (g & m & HR). exists g, m. split; [exact HR |].
  destruct (client_blocks no_growth 1024 1 ltac:(lia) no_growth_limit g m [(1028, 12)] HR) as [_ HB].
  apply (HB 1028 12). left.
Defined.

Lemma client_progress_witness : exists g m, reached no_growth 1024 1 (mkClient g m [(1028, 12)]) /\
  exists ptr g' m', manager_malloc no_growth 1024 g m 100 = Ok (ptr, g', m') /\ untouched m m' [(1028, 12)].
Proof.
  destruct one_block as (g & m & HR). exists g, m. split; [exact HR |].
  apply (proj1 (client_progress no_growth 1024 1 ltac:(lia) no_growth_limit g m [(1028, 12)] HR) 100). unfold BIT. lia.
Defined.

Lemma freed_is_reused_witness : exists g m, reached no_growth 1024 1 (mkClient g m [(1028, 12)]) /\
  exists m' ptr g' m'', manager_free g m 1028 = Ok m' /\ manager_malloc no_growth 1024 g m' 10 = Ok (ptr, g', m'') /\ 0 < ptr.
Proof.
  destruct one_block as (g & m & HR). exists g, m. split; [exact HR |].
  apply (freed_is_reused no_growth 1024 1 ltac:(lia) no_growth_limit g m [] 1028 12 [] 10 HR). lia.
Defined.
