(* ===== verification/Abi.v ===== *)
(** * tools/platon-cpp/MakeAbi: the ABI of a contract

    From the debug metadata of an LLVM module to the list of JSON objects that describe its
    structs, actions and events. Metadata nodes are known by their addresses; a node is a
    record of what LLVM's accessors answer for it. Classes of LLVM are data here, its
    number parser is a parameter; the printing of the JSON text is left out. *)

From stdpp Require Import pretty.
From S2P Require Import Prelude.

(** ** Metadata and constants of a module *)

Inductive dwarf_encoding :=
| DW_ATE_boolean | DW_ATE_float | DW_ATE_signed | DW_ATE_signed_char | DW_ATE_unsigned | DW_ATE_unsigned_char
| DW_ATE_other (code : Z).

Inductive dwarf_tag :=
| DW_TAG_member | DW_TAG_inheritance | DW_TAG_reference_type | DW_TAG_typedef | DW_TAG_const_type
| DW_TAG_pointer_type | DW_TAG_structure_type | DW_TAG_class_type | DW_TAG_other (code : Z).

#[export] Instance dwarf_tag_eq_dec : EqDecision dwarf_tag.
Proof. solve_decision. Defined.

(** Constants; [Function] has the address of its [!dbg] node. *)
Inductive Value :=
| ConstantInt (z : Z) | ConstantStruct (ops : list Value) | ConstantExpr (ops : list Value)
| GlobalVariable (initializer : option Value) | ConstantDataArray (str : string) | ConstantArray (ops : list Value)
| Function (dbg : option Z) | OtherValue.

(** [None] is a null reference. *)
Inductive DINode :=
| DIBasicType (encoding : dwarf_encoding) (sizeInBits : Z)
| DIDerivedType (tag : dwarf_tag) (name : string) (baseType : option Z)
| DICompositeType (tag : dwarf_tag) (name identifier : string) (templateParams elements : option (list Z))
| DISubroutineType (typeArray : list (option Z))
| DITemplateTypeParameter (type : option Z)
| DITemplateValueParameter (value : option Value)
| DISubprogram (name : string) (scope : Z) (type : Z) (retainedNodes : list Z)
| DILocalVariable (name : string) (scope : Z) (arg : Z) (type : option Z)
| DIOther.

Record DICompositeType_ := mkComposite {
  ct_tag : dwarf_tag; ct_name : string; ct_identifier : string;
  ct_templateParams : option (list Z); ct_elements : option (list Z)
}.

(** [json::Value], with the members of an object in the order of the source. *)
Inductive json :=
| JString (s : string) | JInt (z : Z) | JBool (b : bool) | JArray (l : list json) | JObject (l : list (string * json)).

(** [report_fatal_error] ends the tool. *)
Definition report_fatal_error {A} (msg : string) : res A := Panic msg.

(** [cast] of a node of another class, or an access to null. *)
Definition bad_cast {A} : res A := Undef "cast".

(** [std::to_string] and [%llu]. *)
Definition decimal (n : Z) : string := pretty (Z.to_N n).

(** ** class MakeAbi *)

Record MakeAbi := mkAbi { contents : list json; TypeMap : gmap Z string }.

Definition abi_new : MakeAbi := mkAbi [] ∅.
Definition push_back (st : MakeAbi) (v : json) : MakeAbi := mkAbi (contents st ++ [v]) (TypeMap st).

(** [StringRef::startswith]. *)
Definition startswith (pre s : string) : bool := String.prefix pre s.

Definition isFixedHash (CT : DICompositeType_) : bool := startswith "_ZTSN6platon9FixedHash" (ct_identifier CT).
Definition isString (CT : DICompositeType_) : bool :=
  String.eqb (ct_identifier CT) "_ZTSNSt3__112basic_stringIcNS_11char_traitsIcEENS_9allocatorIcEEEE".
Definition isVector (CT : DICompositeType_) : bool := startswith "_ZTSNSt3__16vector" (ct_identifier CT).
Definition isPair (CT : DICompositeType_) : bool := startswith "_ZTSNSt3__14pair" (ct_identifier CT).
Definition isSet (CT : DICompositeType_) : bool := startswith "_ZTSNSt3__13set" (ct_identifier CT).
Definition isArray (CT : DICompositeType_) : bool := startswith "_ZTSNSt3__15array" (ct_identifier CT).
Definition isMap (CT : DICompositeType_) : bool := startswith "_ZTSNSt3__13map" (ct_identifier CT).
Definition isList (CT : DICompositeType_) : bool := startswith "_ZTSNSt3__14list" (ct_identifier CT).

(** ** Attributes of functions *)

Inductive AttrKind := ActionKind | EventKind | OtherKind.
Abbreviation Attr := (AttrKind * Z)%type.

#[export] Instance AttrKind_eq_dec : EqDecision AttrKind.
Proof. solve_decision. Defined.

(** [std::map<DISubprogram*, Attr>], in the order of the keys. *)
Abbreviation SubprogramMap := (list (Z * Attr)).

Fixpoint sp_find (m : SubprogramMap) (SP : Z) : option Attr :=
  match m with [] => None | (k, a) :: m' => if SP =? k then Some a else sp_find m' SP end.

Fixpoint sp_assign (m : SubprogramMap) (SP : Z) (a : Attr) : SubprogramMap :=
  match m with
  | [] => [(SP, a)]
  | (k, b) :: m' => if SP <? k then (SP, a) :: m else if SP =? k then (SP, a) :: m' else (k, b) :: sp_assign m' SP a
  end.

(** [std::multimap]: the entries as they were inserted; those of a key come in that order. *)
Abbreviation ParamsMap := (list (Z * Z)).
Definition params_of (PMap : ParamsMap) (SP : Z) : list Z := snd <$> filter (fun e => e.1 = SP) PMap.

Section Module.
Context (nodes : gmap Z DINode).

Definition node (i : Z) : res DINode := match nodes !! i with Some n => Ok n | None => bad_cast end.

(** The operand of the template parameters at [i]. *)
Definition template_param (CT : DICompositeType_) (i : nat) (msg : string) : res DINode :=
  match ct_templateParams CT with
  | None => report_fatal_error msg
  | Some ps => match ps !! i with Some p => node p | None => Undef "operand" end
  end.

Definition getTypeParam (CT : DICompositeType_) (i : nat) : res (option Z) :=
  op ← template_param CT i "has not type params";
  match op with DITemplateTypeParameter T => Ok T | _ => bad_cast end.

Definition getValueParam (CT : DICompositeType_) (i : nat) : res Value :=
  op ← template_param CT i "has not value params";
  match op with DITemplateValueParameter (Some v) => Ok v | _ => bad_cast end.

Definition cast_ConstantInt (v : Value) : res Z := match v with ConstantInt z => Ok z | _ => bad_cast end.

Definition getName (Node : Z) : res string :=
  n ← node Node;
  match n with
  | DILocalVariable name _ _ _ => Ok name
  | DIDerivedType DW_TAG_member name _ => Ok name
  | DIDerivedType DW_TAG_inheritance _ _ => Ok "BaseClass"
  | _ => Undef "unknown variable"
  end.

Definition handleFixedHash (st : MakeAbi) (CT : DICompositeType_) : res (string * MakeAbi) :=
  V ← getValueParam CT 0; CI ← cast_ConstantInt V; Ok ("FixedHash<" +:+ decimal CI +:+ ">", st).

Definition handleBasicType (st : MakeAbi) (encoding : dwarf_encoding) (size : Z) : res (string * MakeAbi) :=
  match encoding with
  | DW_ATE_boolean => Ok ("bool", st)
  | DW_ATE_unsigned_char | DW_ATE_unsigned => Ok ("uint" +:+ decimal size, st)
  | DW_ATE_signed_char | DW_ATE_signed => Ok ("int" +:+ decimal size, st)
  | DW_ATE_float => report_fatal_error "can not use float or double type"
  | DW_ATE_other _ => report_fatal_error "unknown base type"
  end.

(** The members of the class that call each other through [handleType]. *)
Section Handlers.
Context (handleType : MakeAbi -> Z -> option Z -> res (string * MakeAbi)).

Definition handleVector (st : MakeAbi) (Node : Z) (CT : DICompositeType_) : res (string * MakeAbi) :=
  T ← getTypeParam CT 0;
  '(s, st1) ← handleType st Node T;
  Ok (s +:+ "[]", st1).

Definition handleArray (st : MakeAbi) (Node : Z) (CT : DICompositeType_) : res (string * MakeAbi) :=
  T ← getTypeParam CT 0;
  '(s, st1) ← handleType st Node T;
  V ← getValueParam CT 1;
  CI ← cast_ConstantInt V;
  Ok (s +:+ "[" +:+ decimal CI +:+ "]", st1).

Definition handleStd1 (st : MakeAbi) (Node : Z) (CT : DICompositeType_) (name : string) : res (string * MakeAbi) :=
  T ← getTypeParam CT 0;
  '(s, st1) ← handleType st Node T;
  Ok (name +:+ "<" +:+ s +:+ ">", st1).

Definition handleStd2 (st : MakeAbi) (Node : Z) (CT : DICompositeType_) (name : string) : res (string * MakeAbi) :=
  T0 ← getTypeParam CT 0;
  '(s0, st1) ← handleType st Node T0;
  T1 ← getTypeParam CT 1;
  '(s1, st2) ← handleType st1 Node T1;
  Ok (name +:+ "<" +:+ s0 +:+ "," +:+ s1 +:+ ">", st2).

Definition handleElem (st : MakeAbi) (Node : Z) (DT : option Z) : res (json * MakeAbi) :=
  '(s, st1) ← handleType st Node DT;
  name ← getName Node;
  Ok (JObject [("name", JString name); ("type", JString s)], st1).

Definition handleDerivedType (st : MakeAbi) (Node : Z) (tag : dwarf_tag) (BT : option Z) : res (string * MakeAbi) :=
  match tag with
  | DW_TAG_reference_type | DW_TAG_typedef | DW_TAG_const_type => handleType st Node BT
  | DW_TAG_pointer_type => report_fatal_error "can not handle Pointer Type"
  | _ => report_fatal_error "can not handle DIDerivedType Tag"
  end.

(** The loop over the elements, with what [Elems] and [BaseClass] hold. *)
Fixpoint struct_loop (st : MakeAbi) (DNs : list Z) (Elems BaseClass : list json) : res (list json * list json * MakeAbi) :=
  match DNs with
  | [] => Ok (Elems, BaseClass, st)
  | DN :: DNs' =>
      n ← node DN;
      match n with
      | DIDerivedType DW_TAG_member _ BT =>
          '(e, st1) ← handleElem st DN BT; struct_loop st1 DNs' (Elems ++ [e]) BaseClass
      | DIDerivedType DW_TAG_inheritance _ BT =>
          '(c, st1) ← handleType st DN BT; struct_loop st1 DNs' Elems (BaseClass ++ [JString c])
      | _ => struct_loop st DNs' Elems BaseClass
      end
  end.

Definition handleStructType (st : MakeAbi) (Node : Z) (CT : DICompositeType_) : res (string * MakeAbi) :=
  match ct_elements CT with
  | None => report_fatal_error "StructType have define but never used"
  | Some DNs =>
      '(Elems, BaseClass, st1) ← struct_loop st DNs [] [];
      let v := JObject [("name", JString (ct_name CT)); ("type", JString "struct");
                        ("baseclass", JArray BaseClass); ("fields", JArray Elems)] in
      Ok (ct_name CT, push_back st1 v)
  end.

Definition handleCompositeType (st : MakeAbi) (Node : Z) (CT : DICompositeType_) : res (string * MakeAbi) :=
  if isString CT then Ok ("string", st)
  else if isVector CT then handleVector st Node CT
  else if isArray CT then handleArray st Node CT
  else if isPair CT then handleStd2 st Node CT "pair"
  else if isSet CT then handleStd1 st Node CT "set"
  else if isMap CT then handleStd2 st Node CT "map"
  else if isList CT then handleStd1 st Node CT "list"
  else if isFixedHash CT then handleFixedHash st CT
  else if bool_decide (ct_tag CT = DW_TAG_structure_type) || bool_decide (ct_tag CT = DW_TAG_class_type)
    then handleStructType st Node CT
  else report_fatal_error "have not handle DICompositeType Tag".

Definition handleType_ (st : MakeAbi) (Node : Z) (DT : Z) : res (string * MakeAbi) :=
  n ← node DT;
  match n with
  | DIBasicType encoding size => handleBasicType st encoding size
  | DICompositeType tag name identifier params elements =>
      handleCompositeType st Node (mkComposite tag name identifier params elements)
  | DIDerivedType tag _ BT => handleDerivedType st Node tag BT
  | DISubroutineType _ => report_fatal_error "can not pass function type"
  | _ => Undef "have not DIType SubClass"
  end.
End Handlers.

Fixpoint handleType (fuel : nat) (st : MakeAbi) (Node : Z) (DT : option Z) : res (string * MakeAbi) :=
  match fuel with
  | O => Fuel
  | S fuel' =>
      match DT with
      | None => bad_cast
      | Some T =>
          match TypeMap st !! T with
          | Some s => Ok (s, st)
          | None =>
              '(s, st1) ← handleType_ (handleType fuel') st Node T;
              Ok (s, mkAbi (contents st1) (<[T := s]> (TypeMap st1)))
          end
      end
  end.

(** ** Functions *)

Definition cast_DISubprogram (SP : Z) : res (string * Z * Z * list Z) :=
  n ← node SP; match n with DISubprogram name scope type retained => Ok (name, scope, type, retained) | _ => bad_cast end.

Definition cast_DILocalVariable (LV : Z) : res (string * Z * Z * option Z) :=
  n ← node LV; match n with DILocalVariable name scope arg type => Ok (name, scope, arg, type) | _ => bad_cast end.

(** The return type and the parameters' types, [this] among them. *)
Definition type_array (type : Z) : res (list (option Z)) :=
  n ← node type; match n with DISubroutineType TRA => Ok TRA | _ => bad_cast end.

Definition return_type (type : Z) : res (option Z) :=
  TRA ← type_array type; match TRA with RetType :: _ => Ok RetType | [] => Undef "operand" end.

Definition handleAction (fuel : nat) (st : MakeAbi) (SP : Z) (Params : json) (isConst : bool) : res (json * MakeAbi) :=
  '(name, _, type, _) ← cast_DISubprogram SP;
  RetType ← return_type type;
  '(Ret, st1) ← match RetType with Some _ => handleType fuel st SP RetType | None => Ok ("void", st) end;
  Ok (JObject [("name", JString name); ("input", Params); ("output", JString Ret); ("type", JString "Action");
               ("constant", JBool isConst)], st1).

Definition handleEvent (st : MakeAbi) (SP : Z) (Params : json) (num : Z) : res (json * MakeAbi) :=
  '(name, _, type, _) ← cast_DISubprogram SP;
  RetType ← return_type type;
  if bool_decide (RetType <> None) then report_fatal_error "event can not hava return value"
  else Ok (JObject [("name", JString name); ("input", Params); ("type", JString "Event"); ("topic", JInt num);
                    ("anonymous", JBool false)], st).

Fixpoint params_loop (fuel : nat) (st : MakeAbi) (LVs : list (option Z)) (Params : list json) : res (list json * MakeAbi) :=
  match LVs with
  | [] => Ok (Params, st)
  | None :: _ => Undef "null variable"
  | Some LV :: LVs' =>
      '(_, _, _, T) ← cast_DILocalVariable LV;
      '(elem, st1) ← handleElem (handleType fuel) st LV T;
      params_loop fuel st1 LVs' (Params ++ [elem])
  end.

Definition handleSubprogram (fuel : nat) (st : MakeAbi) (SP : Z) (LVs : list (option Z)) (attr : Attr) : res MakeAbi :=
  '(Params, st1) ← params_loop fuel st LVs [];
  '(v, st2) ← (if bool_decide (attr.1 = ActionKind) then handleAction fuel st1 SP (JArray Params) (negb (attr.2 =? 0))
               else handleEvent st1 SP (JArray Params) attr.2);
  Ok (push_back st2 v).

(** ** The module *)

(** The address of a null pointer. *)
Definition nullptr : Z := 0.

Definition getAnnoteKind (cs : Value) : string :=
  match cs with
  | ConstantStruct (_ :: ConstantExpr (GlobalVariable (Some (ConstantDataArray arr)) :: _) :: _) => arr
  | _ => ""
  end.

Definition getFuncInfo (cs : Value) : Z :=
  match cs with
  | ConstantStruct (ConstantExpr (Function (Some M) :: _) :: _) =>
      match nodes !! M with Some (DISubprogram _ _ _ _) => M | _ => nullptr end
  | _ => nullptr
  end.

Definition DedupKind (attr0 attr1 : Attr) : res Attr :=
  match attr0.1, attr1.1 with
  | ActionKind, ActionKind => Ok (ActionKind, if (attr0.2 =? 0) && (attr1.2 =? 0) then 0 else 1)
  | EventKind, EventKind => if attr0.2 =? attr1.2 then Ok attr0 else report_fatal_error "Event dismatch"
  | _, _ => report_fatal_error "attr dismatch"
  end.

(** LLVM's parser of a decimal number ([None] when it reports an error). *)
Context (getAsInteger : string -> option Z).

Definition parseAttr (Kind : string) : res Attr :=
  if String.eqb Kind "Action" then Ok (ActionKind, 0)
  else if String.eqb Kind "Const" then Ok (ActionKind, 1)
  else if startswith "Event" Kind then
    match getAsInteger (String.substring 5 (String.length Kind - 5) Kind) with
    | Some r => if r <? 2 ^ 64 then Ok (EventKind, u32 r) else Undef "getZExtValue"
    | None => Ok (OtherKind, 0)
    end
  else Ok (OtherKind, 0).

(** One annotation. *)
Definition collect_one (SPMap : SubprogramMap) (cs : Value) : res SubprogramMap :=
  let SP := getFuncInfo cs in
  attr ← parseAttr (getAnnoteKind cs);
  match attr.1 with
  | OtherKind => Ok SPMap
  | _ =>
      match sp_find SPMap SP with
      | None => Ok (sp_assign SPMap SP attr)
      | Some attr0 => attr' ← DedupKind attr0 attr; Ok (sp_assign SPMap SP attr')
      end
  end.

Fixpoint collect_loop (SPMap : SubprogramMap) (annotes : list Value) : res SubprogramMap :=
  match annotes with
  | [] => Ok SPMap
  | cs :: annotes' => SPMap' ← collect_one SPMap cs; collect_loop SPMap' annotes'
  end.

Definition collectAnnote (annote : option Value) : res SubprogramMap :=
  match annote with
  | None => Ok []
  | Some (GlobalVariable (Some (ConstantArray annotes))) => collect_loop [] annotes
  | Some (GlobalVariable (Some _)) => Ok []
  | Some _ => bad_cast
  end.

Fixpoint retained_loop (SP : Z) (Nodes : list Z) (PMap : ParamsMap) : res ParamsMap :=
  match Nodes with
  | [] => Ok PMap
  | Node :: Nodes' =>
      '(_, _, arg, _) ← cast_DILocalVariable Node;
      retained_loop SP Nodes' (if 1 <? arg then PMap ++ [(SP, Node)] else PMap)
  end.

Fixpoint collectRetainedNodes (SPMap : SubprogramMap) (PMap : ParamsMap) : res ParamsMap :=
  match SPMap with
  | [] => Ok PMap
  | (SP, _) :: SPMap' =>
      '(_, _, _, retained) ← cast_DISubprogram SP;
      PMap' ← retained_loop SP retained PMap; collectRetainedNodes SPMap' PMap'
  end.

(** The users of a debug intrinsic: of a call, the variable it is about. *)
Fixpoint users_loop (SPMap : SubprogramMap) (users : list (option Z)) (PMap : ParamsMap) : res ParamsMap :=
  match users with
  | [] => Ok PMap
  | None :: users' => users_loop SPMap users' PMap
  | Some LV :: users' =>
      '(_, scope, arg, _) ← cast_DILocalVariable LV;
      if 1 <? arg then
        n ← node scope;
        match n, sp_find SPMap scope with
        | DISubprogram _ _ _ _, Some _ => users_loop SPMap users' (PMap ++ [(scope, LV)])
        | _, _ => users_loop SPMap users' PMap
        end
      else users_loop SPMap users' PMap
  end.

Definition collectParams (DbgDecl : option (list (option Z))) (SPMap : SubprogramMap) (PMap : ParamsMap) : res ParamsMap :=
  match DbgDecl with Some users => users_loop SPMap users PMap | None => Ok PMap end.

Fixpoint export_loop (LVs : list Z) (Params : list (option Z)) : res (list (option Z)) :=
  match LVs with
  | [] => Ok Params
  | LV :: LVs' =>
      '(_, _, arg, _) ← cast_DILocalVariable LV;
      if (2 <=? arg) && (arg - 2 <? len Params) then export_loop LVs' (<[Z.to_nat (arg - 2) := Some LV]> Params)
      else Undef "index outside Params"
  end.

Definition exportParams (SP : Z) (PMap : ParamsMap) : res (list (option Z)) :=
  '(_, scope, type, _) ← cast_DISubprogram SP;
  n ← node scope;
  match n with
  | DICompositeType _ _ _ _ _ =>
      TRA ← type_array type;
      export_loop (params_of PMap SP) (replicate (Z.to_nat (u32 (len TRA - 2))) None)
  | _ => report_fatal_error "Action or Event function must be class member"
  end.

Fixpoint subprograms_loop (fuel : nat) (SPMap : SubprogramMap) (PMap : ParamsMap) (MABI : MakeAbi) : res MakeAbi :=
  match SPMap with
  | [] => Ok MABI
  | (SP, SPKind) :: SPMap' =>
      Params ← exportParams SP PMap;
      MABI' ← handleSubprogram fuel MABI SP Params SPKind;
      subprograms_loop fuel SPMap' PMap MABI'
  end.

Definition makeAbi (fuel : nat) (annote : option Value) (dbg_declare dbg_value : option (list (option Z))) (MABI : MakeAbi) : res MakeAbi :=
  SPMap ← collectAnnote annote;
  if (length SPMap =? 0)%nat then report_fatal_error "have not define Action or Event function"
  else
    PMap0 ← collectRetainedNodes SPMap [];
    PMap1 ← collectParams dbg_declare SPMap PMap0;
    PMap2 ← collectParams dbg_value SPMap PMap1;
    subprograms_loop fuel SPMap PMap2 MABI.
End Module.
