(* ===== verification/AbiFacts.v ===== *)
(** * Theorems about the names of types in an ABI

    What a type is called, as a judgement on the metadata alone; [handleType] computes it
    with its cache, and emits every struct once, after the structs it is made of. *)

From stdpp Require Import relations.
From S2P Require Import Prelude Abi.

Section Types.
Context (nodes : gmap Z DINode).

(** ** The shape of a type *)

(** The types it is made of, its name from theirs, and the object it adds to the ABI. *)
Record shape := mkShape { uses : list Z; shape_name : list string -> string; shape_entry : option (list string -> json) }.

Definition leaf (s : string) : shape := mkShape [] (fun _ => s) None.

Definition type_param (CT : DICompositeType_) (i : nat) : option Z :=
  ps ← ct_templateParams CT; p ← ps !! i;
  match nodes !! p with Some (DITemplateTypeParameter T) => T | _ => None end.

Definition value_param (CT : DICompositeType_) (i : nat) : option Z :=
  ps ← ct_templateParams CT; p ← ps !! i;
  match nodes !! p with Some (DITemplateValueParameter (Some (ConstantInt z))) => Some z | _ => None end.

(** Members and base classes of a struct. *)
Fixpoint struct_uses (DNs : list Z) : option (list Z) :=
  match DNs with
  | [] => Some []
  | DN :: DNs' =>
      n ← nodes !! DN;
      match n with
      | DIDerivedType DW_TAG_member _ BT | DIDerivedType DW_TAG_inheritance _ BT => T ← BT; Ts ← struct_uses DNs'; Some (T :: Ts)
      | _ => struct_uses DNs'
      end
  end.

Definition first (ss : list string) : string := default "" (head ss).

Fixpoint struct_fields (DNs : list Z) (ss : list string) : list json :=
  match DNs with
  | [] => []
  | DN :: DNs' =>
      match nodes !! DN with
      | Some (DIDerivedType DW_TAG_member name _) =>
          JObject [("name", JString name); ("type", JString (first ss))] :: struct_fields DNs' (tail ss)
      | Some (DIDerivedType DW_TAG_inheritance _ _) => struct_fields DNs' (tail ss)
      | _ => struct_fields DNs' ss
      end
  end.

Fixpoint struct_bases (DNs : list Z) (ss : list string) : list json :=
  match DNs with
  | [] => []
  | DN :: DNs' =>
      match nodes !! DN with
      | Some (DIDerivedType DW_TAG_member _ _) => struct_bases DNs' (tail ss)
      | Some (DIDerivedType DW_TAG_inheritance _ _) => JString (first ss) :: struct_bases DNs' (tail ss)
      | _ => struct_bases DNs' ss
      end
  end.

Definition struct_entry (name : string) (DNs : list Z) (ss : list string) : json :=
  JObject [("name", JString name); ("type", JString "struct");
           ("baseclass", JArray (struct_bases DNs ss)); ("fields", JArray (struct_fields DNs ss))].

Definition std1 (CT : DICompositeType_) (name_of : string -> string) : option shape :=
  T ← type_param CT 0; Some (mkShape [T] (fun ss => name_of (first ss)) None).

Definition std2 (CT : DICompositeType_) (name : string) : option shape :=
  T0 ← type_param CT 0; T1 ← type_param CT 1;
  Some (mkShape [T0; T1] (fun ss => name +:+ "<" +:+ first ss +:+ "," +:+ first (tail ss) +:+ ">") None).

Definition composite_shape (CT : DICompositeType_) : option shape :=
  if isString CT then Some (leaf "string")
  else if isVector CT then std1 CT (fun s => s +:+ "[]")
  else if isArray CT then n ← value_param CT 1; std1 CT (fun s => s +:+ "[" +:+ decimal n +:+ "]")
  else if isPair CT then std2 CT "pair"
  else if isSet CT then std1 CT (fun s => "set<" +:+ s +:+ ">")
  else if isMap CT then std2 CT "map"
  else if isList CT then std1 CT (fun s => "list<" +:+ s +:+ ">")
  else if isFixedHash CT then n ← value_param CT 0; Some (leaf ("FixedHash<" +:+ decimal n +:+ ">"))
  else if bool_decide (ct_tag CT = DW_TAG_structure_type) || bool_decide (ct_tag CT = DW_TAG_class_type) then
    DNs ← ct_elements CT; Ts ← struct_uses DNs;
    Some (mkShape Ts (fun _ => ct_name CT) (Some (struct_entry (ct_name CT) DNs)))
  else None.

Definition shape_of (d : Z) : option shape :=
  n ← nodes !! d;
  match n with
  | DIBasicType DW_ATE_boolean _ => Some (leaf "bool")
  | DIBasicType (DW_ATE_unsigned | DW_ATE_unsigned_char) size => Some (leaf ("uint" +:+ decimal size))
  | DIBasicType (DW_ATE_signed | DW_ATE_signed_char) size => Some (leaf ("int" +:+ decimal size))
  | DIDerivedType (DW_TAG_reference_type | DW_TAG_typedef | DW_TAG_const_type) _ (Some T) => Some (mkShape [T] first None)
  | DICompositeType tag name identifier params elements => composite_shape (mkComposite tag name identifier params elements)
  | _ => None
  end.

(** ** The name of a type *)

Inductive named : Z -> string -> Prop :=
| Named d sh ss : shape_of d = Some sh -> Forall2 named (uses sh) ss -> named d (shape_name sh ss).

Lemma named_nested_ind (P : Z -> string -> Prop) :
  (forall d sh ss, shape_of d = Some sh -> Forall2 named (uses sh) ss -> Forall2 P (uses sh) ss -> P d (shape_name sh ss)) ->
  forall d s, named d s -> P d s.
Proof.
  intros step. fix go 3. intros d s H. destruct H as [d sh ss Hsh HF]. apply (step d sh ss Hsh HF). clear Hsh. revert HF.
  generalize (uses sh). intros ts HF. induction HF as [| t s ts ss H1 H2 IH]; constructor; [by apply go | done].
Qed.

Definition needs (d t : Z) : Prop := exists sh, shape_of d = Some sh /\ t ∈ uses sh.

Definition is_struct (d : Z) : Prop := exists sh e, shape_of d = Some sh /\ shape_entry sh = Some e.

Lemma named_fun d s : named d s -> forall s', named d s' -> s = s'.
Proof.
  intros H. induction H as [d sh ss Hsh _ IH] using named_nested_ind. intros s' H'. destruct H' as [d sh' ss' Hsh' HF'].
  rewrite Hsh in Hsh'. injection Hsh' as <-. f_equal. revert ss' HF'. induction IH as [| t s ts ss Hs _ IHs]; intros ss' HF'.
  - by inversion HF'.
  - inversion HF' as [| ? s' ? ss2 H1 H2]; subst. f_equal; auto.
Qed.

Lemma named_acc d s : named d s -> Acc (fun t d => needs d t) d.
Proof.
  intros H. induction H as [d sh ss Hsh _ IH] using named_nested_ind. constructor. intros t (sh' & Hsh' & Ht).
  rewrite Hsh in Hsh'. injection Hsh' as <-. apply list_elem_of_lookup in Ht as [i Hi].
  by destruct (Forall2_lookup_l _ _ _ _ _ IH Hi) as (s & _ & Hs).
Qed.

(** A type with a name does not contain itself. *)
Lemma named_no_cycle d s : named d s -> ~ tc needs d d.
Proof.
  intros H%named_acc. induction H as [d _ IH]. intros HC. inversion HC as [? ? H1 | ? t ? H1 H2]; subst.
  - by apply (IH d).
  - apply (IH t H1). eapply tc_r; [exact H2 | done].
Qed.
(** ** The handlers, by the shape *)

Section Shape.
Context (H : MakeAbi -> Z -> option Z -> res (string * MakeAbi)).
Context (H_node : forall st N N' T, H st N T = H st N' T) (H_null : forall st N r, H st N None <> Ok r).

Fixpoint handle_all (st : MakeAbi) (ts : list Z) : res (list string * MakeAbi) :=
  match ts with
  | [] => Ok ([], st)
  | t :: ts' => '(s, st1) ← H st 0 (Some t); '(ss, st2) ← handle_all st1 ts'; Ok (s :: ss, st2)
  end.

Definition emit (sh : shape) (ss : list string) (st : MakeAbi) : MakeAbi :=
  match shape_entry sh with Some e => push_back st (e ss) | None => st end.

Definition by_shape (sh : shape) (st : MakeAbi) : res (string * MakeAbi) :=
  '(ss, st1) ← handle_all st (uses sh); Ok (shape_name sh ss, emit sh ss st1).

Lemma getTypeParam_ok CT i T : type_param CT i = Some T -> getTypeParam nodes CT i = Ok (Some T).
Proof using Type.
  unfold type_param, getTypeParam, template_param, node. destruct (ct_templateParams CT) as [ps |]; [| done]. cbn.
  destruct (ps !! i) as [p |]; [| done]. cbn. destruct (nodes !! p) as [[] |]; try done. by intros ->.
Qed.

Lemma getTypeParam_inv CT i T : getTypeParam nodes CT i = Ok (Some T) -> type_param CT i = Some T.
Proof using Type.
  unfold type_param, getTypeParam, template_param, node. destruct (ct_templateParams CT) as [ps |]; [| done]. cbn.
  destruct (ps !! i) as [p |]; [| done]. cbn. destruct (nodes !! p) as [[] |]; try done. cbn. by intros [= ->].
Qed.

Lemma value_param_ok CT i z : value_param CT i = Some z <-> (V ← getValueParam nodes CT i; cast_ConstantInt V) = Ok z.
Proof using Type.
  unfold value_param, getValueParam, template_param, node. destruct (ct_templateParams CT) as [ps |]; [| done]. cbn.
  destruct (ps !! i) as [p |]; [| done]. cbn. destruct (nodes !! p) as [[] |]; try done. cbn. destruct value as [[] |]; try done. cbn.
  split; by intros [= ->].
Qed.

Lemma struct_loop_shape DNs : forall st E B Ts, struct_uses DNs = Some Ts ->
  struct_loop nodes H st DNs E B =
    ('(ss, st1) ← handle_all st Ts; Ok (E ++ struct_fields DNs ss, B ++ struct_bases DNs ss, st1)).
Proof using H_node.
  induction DNs as [| DN DNs IH]; intros st E B Ts; cbn [struct_uses struct_loop struct_fields struct_bases].
  { intros [= <-]. cbn. by rewrite !app_nil_r. }
  unfold handleElem, getName, node. destruct (nodes !! DN) as [n |] eqn:En; [| done]. cbn [mbind res_bind option_bind].
  destruct n as [| tag name BT | | | | | | |]; try (intros HT; by rewrite (IH st E B Ts HT)).
  destruct tag; try (intros HT; by rewrite (IH st E B Ts HT)).
  all: destruct BT as [T |]; [| done]; cbn [mbind option_bind]; destruct (struct_uses DNs) as [Ts' |]; [| done]; intros [= <-];
    cbn [handle_all]; rewrite (H_node st DN 0); destruct (H st 0 (Some T)) as [[s st1] | | | |]; try done; cbn [mbind res_bind];
    rewrite ?En; cbn [mbind res_bind]; rewrite (IH _ _ _ Ts' eq_refl); destruct (handle_all st1 Ts') as [[ss st2] | | | |]; try done; cbn;
    by rewrite <- ?app_assoc.
Qed.

Lemma struct_loop_inv DNs : forall st E B r, struct_loop nodes H st DNs E B = Ok r -> is_Some (struct_uses DNs).
Proof using H_null.
  induction DNs as [| DN DNs IH]; intros st E B r; cbn [struct_uses struct_loop]; [done |].
  unfold handleElem, node. destruct (nodes !! DN) as [n |]; [| done]. cbn [mbind res_bind option_bind].
  destruct n as [| tag name BT | | | | | | |]; try apply IH. destruct tag; try apply IH.
  all: destruct BT as [T |]; cbn [mbind option_bind].
  all: intros HO; inv_ok; repeat match goal with x : _ * _ |- _ => destruct x end; inv_ok;
    try match goal with HX : H _ _ None = Ok _ |- _ => by destruct (H_null _ _ _ HX) end.
  all: match goal with HX : struct_loop _ _ _ _ _ _ = Ok _ |- _ => apply IH in HX as [? ->]; by eexists end.
Qed.

Lemma std1_shape st N CT name_of sh :
  std1 CT name_of = Some sh ->
  (T ← getTypeParam nodes CT 0; '(s, st1) ← H st N T; Ok (name_of s, st1)) = by_shape sh st.
Proof using H_node.
  unfold std1. destruct (type_param CT 0) as [T |] eqn:ET; [| done]. intros [= <-]. rewrite (getTypeParam_ok _ _ _ ET). cbn.
  rewrite (H_node st N 0). by destruct (H st 0 (Some T)) as [[s st1] | | | |].
Qed.

Lemma handleStd2_shape st N CT name sh : std2 CT name = Some sh -> handleStd2 nodes H st N CT name = by_shape sh st.
Proof using H_node.
  unfold std2, handleStd2. destruct (type_param CT 0) as [T0 |] eqn:E0; [| done]. destruct (type_param CT 1) as [T1 |] eqn:E1; [| done].
  intros [= <-]. rewrite (getTypeParam_ok _ _ _ E0), (getTypeParam_ok _ _ _ E1). cbn. rewrite (H_node st N 0).
  destruct (H st 0 (Some T0)) as [[s0 st1] | | | |]; try done. cbn. rewrite (H_node st1 N 0).
  by destruct (H st1 0 (Some T1)) as [[s1 st2] | | | |].
Qed.

Lemma handleArray_shape st N CT n sh :
  value_param CT 1 = Some n -> std1 CT (fun s => s +:+ "[" +:+ decimal n +:+ "]") = Some sh -> handleArray nodes H st N CT = by_shape sh st.
Proof using H_node.
  intros Hn Hsh. rewrite <- (std1_shape st N CT _ sh Hsh). unfold handleArray. apply value_param_ok in Hn.
  destruct (getTypeParam nodes CT 0) as [T | | | |]; try done. cbn. destruct (H st N T) as [[s st1] | | | |]; try done. cbn.
  apply bind_ok in Hn as (V & -> & HV). cbn. by rewrite HV.
Qed.

Lemma handleComposite_shape st N CT sh : composite_shape CT = Some sh -> handleCompositeType nodes H st N CT = by_shape sh st.
Proof using H_node.
  unfold composite_shape, handleCompositeType. destruct (isString CT); [by intros [= <-] |].
  destruct (isVector CT); [apply std1_shape |].
  destruct (isArray CT); [destruct (value_param CT 1) as [n |] eqn:En; [by apply handleArray_shape | done] |].
  destruct (isPair CT); [apply handleStd2_shape |]. destruct (isSet CT); [apply std1_shape |].
  destruct (isMap CT); [apply handleStd2_shape |]. destruct (isList CT); [apply std1_shape |].
  destruct (isFixedHash CT).
  { destruct (value_param CT 0) as [n |] eqn:En; [| done]. intros [= <-]. unfold handleFixedHash. apply value_param_ok in En.
    apply bind_ok in En as (V & -> & HV). cbn. by rewrite HV. }
  destruct (_ || _); [| done]. unfold handleStructType. destruct (ct_elements CT) as [DNs |]; [| done]. cbn [mbind option_bind].
  destruct (struct_uses DNs) as [Ts |] eqn:EU; [| done]. intros [= <-]. rewrite (struct_loop_shape _ _ _ _ _ EU). unfold by_shape.
  cbn [uses]. by destruct (handle_all st Ts) as [[ss st1] | | | |].
Qed.

Lemma handleType__shape st N d sh : shape_of d = Some sh -> handleType_ nodes H st N d = by_shape sh st.
Proof using H_node.
  unfold shape_of, handleType_, node. destruct (nodes !! d) as [n |]; [| done]. cbn [mbind res_bind option_bind].
  destruct n as [enc size | tag name BT | tag name id ps es | | | | | |]; try done.
  - destruct enc; try done; by intros [= <-].
  - destruct tag, BT as [T |]; try done; intros [= <-]; cbn; rewrite (H_node st N 0); by destruct (H st 0 (Some T)) as [[s st1] | | | |].
  - apply handleComposite_shape.
Qed.
(** An answer means that the type has a shape. *)
Ltac open_ok := intros; inv_ok; repeat match goal with x : _ * _ |- _ => destruct x end; inv_ok.

Lemma getTypeParam_some CT i st N r : (T ← getTypeParam nodes CT i; H st N T) = Ok r -> is_Some (type_param CT i).
Proof using H_null.
  intros (T & HT & HO)%bind_ok. destruct T as [T |]; [| by apply H_null in HO]. apply getTypeParam_inv in HT. by eexists.
Qed.

Lemma handleStd1_inv st N CT name_of r :
  (T ← getTypeParam nodes CT 0; '(s, st1) ← H st N T; Ok (name_of s, st1)) = Ok r -> is_Some (std1 CT name_of).
Proof using H_null.
  intros (T & HT & HO)%bind_ok. apply bind_ok in HO as (a & Ha & _). unfold std1.
  destruct (getTypeParam_some CT 0 st N a) as [T' ->]; [by rewrite HT | by eexists].
Qed.

Lemma handleStd2_inv st N CT name r : handleStd2 nodes H st N CT name = Ok r -> is_Some (std2 CT name).
Proof using H_null.
  unfold handleStd2, std2. intros (T & HT & HO)%bind_ok. apply bind_ok in HO as ([s0 st1] & Ha & HO).
  apply bind_ok in HO as (T1 & HT1 & HO). apply bind_ok in HO as (b & Hb & _).
  destruct (getTypeParam_some CT 0 st N (s0, st1)) as [T' ->]; [by rewrite HT |].
  destruct (getTypeParam_some CT 1 st1 N b) as [T1' ->]; [by rewrite HT1 | by eexists].
Qed.

Lemma handleComposite_inv st N CT r : handleCompositeType nodes H st N CT = Ok r -> is_Some (composite_shape CT).
Proof using H_null.
  unfold composite_shape, handleCompositeType. destruct (isString CT); [by eexists |].
  destruct (isVector CT); [apply handleStd1_inv |].
  destruct (isArray CT).
  { unfold handleArray. intros (T & HT & HO)%bind_ok. apply bind_ok in HO as ([s st1] & Ha & HO). apply bind_ok in HO as (V & HV & HO).
    apply bind_ok in HO as (n & Hn & _). assert (value_param CT 1 = Some n) as -> by (apply value_param_ok; by rewrite HV).
    unfold std1. destruct (getTypeParam_some CT 0 st N (s, st1)) as [T' ->]; [by rewrite HT | by eexists]. }
  destruct (isPair CT); [apply handleStd2_inv |]. destruct (isSet CT); [apply handleStd1_inv |].
  destruct (isMap CT); [apply handleStd2_inv |]. destruct (isList CT); [apply handleStd1_inv |].
  destruct (isFixedHash CT).
  { unfold handleFixedHash. intros (V & HV & HO)%bind_ok. apply bind_ok in HO as (n & Hn & _).
    assert (value_param CT 0 = Some n) as -> by (apply value_param_ok; by rewrite HV). by eexists. }
  destruct (_ || _); [| done]. unfold handleStructType. destruct (ct_elements CT) as [DNs |]; [| done].
  intros (x & Hx & _)%bind_ok. apply struct_loop_inv in Hx as [Ts Hx]. cbn. rewrite Hx. by eexists.
Qed.

Lemma handleType__inv st N d r : handleType_ nodes H st N d = Ok r -> is_Some (shape_of d).
Proof using H_null.
  unfold shape_of, handleType_, node. destruct (nodes !! d) as [n |]; [| done]. cbn [mbind res_bind option_bind].
  destruct n as [enc size | tag name BT | tag name id ps es | | | | | |]; try done.
  - destruct enc; first [done | by eexists].
  - destruct tag, BT as [T |]; first [done | by intros HO%H_null | by eexists].
  - apply handleComposite_inv.
Qed.
End Shape.

(** ** The recursion *)

Abbreviation handle f := (handleType nodes f).

Lemma handleType_null f st N r : handle f st N None <> Ok r.
Proof. by destruct f. Qed.

Lemma res_bind_ext {A B} (x : res A) (f g : A -> res B) : (forall a, f a = g a) -> (x ≫= f) = (x ≫= g).
Proof. intros E. destruct x; simpl; auto. Qed.

Lemma handleType__node (H : MakeAbi -> Z -> option Z -> res (string * MakeAbi)) st N N' d :
  (forall st N N' T, H st N T = H st N' T) -> handleType_ nodes H st N d = handleType_ nodes H st N' d.
Proof.
  intros HN. unfold handleType_. apply res_bind_ext. intros n. destruct n as [| tag name BT | tag name id ps es | | | | | |]; try done.
  - destruct tag; try done; apply HN.
  - unfold handleCompositeType, handleVector, handleArray, handleStd1, handleStd2. set (CT := mkComposite tag name id ps es).
    repeat case_bool; try done; apply res_bind_ext; intros T; rewrite (HN st N N'); try done.
    all: apply res_bind_ext; intros [s st1]; apply res_bind_ext; intros T1; by rewrite (HN st1 N N').
Qed.

Lemma handleType_node f : forall st N N' T, handle f st N T = handle f st N' T.
Proof.
  induction f as [| f IH]; intros st N N' [T |]; try done. cbn [handleType]. destruct (TypeMap st !! T); [done |].
  by rewrite (handleType__node (handle f) st N N').
Qed.
(** ** What the ABI holds *)

(** Its objects: the structs, by their types, and the functions, which [fun_ok] describes. *)
Inductive item := IStruct (d : Z) | IFunction (SP : Z).

Definition structs (items : list item) : list Z := omap (fun i => match i with IStruct d => Some d | IFunction _ => None end) items.
Definition functions (items : list item) : list Z := omap (fun i => match i with IStruct _ => None | IFunction SP => Some SP end) items.

Lemma structs_app l r : structs (l ++ r) = structs l ++ structs r.
Proof. apply omap_app. Qed.

Lemma structs_fmap ds : structs (IStruct <$> ds) = ds.
Proof. induction ds as [| d ds IH]; [done |]. cbn. by f_equal. Qed.

Lemma functions_app l r : functions (l ++ r) = functions l ++ functions r.
Proof. apply omap_app. Qed.

Lemma functions_fmap ds : functions (IStruct <$> ds) = [].
Proof. by induction ds. Qed.

Definition struct_ok (d : Z) (v : json) : Prop :=
  exists sh e ss, shape_of d = Some sh /\ shape_entry sh = Some e /\ Forall2 named (uses sh) ss /\ v = e ss.

Section Items.
Context (fun_ok : Z -> json -> Prop) (fun_types : Z -> list Z).

Definition item_ok (i : item) (v : json) : Prop := match i with IStruct d => struct_ok d v | IFunction SP => fun_ok SP v end.

(** The types an object speaks of. *)
Definition speaks_of (i : item) (t : Z) : Prop :=
  match i with IStruct d => tc needs d t | IFunction SP => exists u, u ∈ fun_types SP /\ rtc needs u t end.

Definition cached (st : MakeAbi) (d : Z) : Prop := is_Some (TypeMap st !! d).

(** The cache is right; each struct stands once, behind all structs it speaks of; the structs
    of everything in the cache are there. *)
Record abi_inv (st : MakeAbi) (items : list item) : Prop := {
  ai_names : forall d s, TypeMap st !! d = Some s -> named d s;
  ai_objects : Forall2 item_ok items (contents st);
  ai_once : NoDup (structs items);
  ai_cached : forall d, d ∈ structs items -> cached st d;
  ai_closed : forall d t, cached st d -> rtc needs d t -> is_struct t -> t ∈ structs items;
  ai_before : forall l i r, items = l ++ i :: r -> forall t, speaks_of i t -> is_struct t -> t ∈ structs l
}.

Lemma inv_new : abi_inv abi_new [].
Proof using Type.
  split; try done.
  - constructor.
  - by intros d ?%not_elem_of_nil.
  - intros d t [s Hs]. done.
  - by intros [] ? ?.
Qed.

(** One object more. *)
Lemma before_snoc items i :
  (forall l j r, items = l ++ j :: r -> forall t, speaks_of j t -> is_struct t -> t ∈ structs l) ->
  (forall t, speaks_of i t -> is_struct t -> t ∈ structs items) ->
  forall l j r, items ++ [i] = l ++ j :: r -> forall t, speaks_of j t -> is_struct t -> t ∈ structs l.
Proof using Type.
  intros H1 H2 l j r E. destruct r as [| k r _] using rev_ind.
  - apply app_inj_tail in E as [-> ->]. exact H2.
  - rewrite app_comm_cons, app_assoc in E. apply app_inj_tail in E as [-> _]. by apply (H1 l j r).
Qed.

(** The cache after the types a type needs: what was there and what they need. *)
Definition grows (st st' : MakeAbi) (new : Z -> Prop) : Prop :=
  (forall t, cached st t -> cached st' t) /\ (forall t, cached st' t -> cached st t \/ new t).

Lemma inv_name st items d s :
  abi_inv st items -> named d s -> ~ is_struct d -> (forall t, needs d t -> cached st t) ->
  abi_inv (mkAbi (contents st) (<[d := s]> (TypeMap st))) items.
Proof using Type.
  intros [HN HO HD HC HCl HB] Hd Hns Hu. split; try done; unfold cached; cbn [TypeMap].
  - intros t s'. rewrite lookup_insert. case_decide as Et; [subst; by intros [= <-] | apply HN].
  - intros t Ht. rewrite lookup_insert. case_decide; [by eexists | by apply HC].
  - intros t u Ht Hr Hsu. rewrite lookup_insert in Ht. case_decide as Et; [subst t | by apply (HCl t u)].
    inversion Hr as [| ? v ? Hn Hr']; subst; [done |]. apply (HCl v u); auto.
Qed.

Lemma inv_struct st items d sh e ss s :
  abi_inv st items -> shape_of d = Some sh -> shape_entry sh = Some e -> Forall2 named (uses sh) ss -> named d s ->
  ~ cached st d -> (forall t, needs d t -> cached st t) ->
  abi_inv (mkAbi (contents st ++ [e ss]) (<[d := s]> (TypeMap st))) (items ++ [IStruct d]).
Proof using Type.
  intros [HN HO HD HC HCl HB] Hsh He HF Hd Hnc Hu.
  assert (is_struct d) as Hsd by (by exists sh, e).
  assert (forall t, tc needs d t -> is_struct t -> t ∈ structs items) as Hbelow.
  { intros t Ht Hst. inversion Ht as [? ? Hn | ? v ? Hn Hr]; subst; [apply (HCl t t); [auto | constructor | done] |].
    apply (HCl v t); [auto | by apply tc_rtc | done]. }
  split; unfold cached; cbn [TypeMap contents].
  - intros t s'. rewrite lookup_insert. case_decide as Et; [subst; by intros [= <-] | apply HN].
  - apply Forall2_app; [done |]. constructor; [| done]. by exists sh, e, ss.
  - rewrite structs_app. apply NoDup_app. split; [done |]. split; [| apply NoDup_singleton].
    intros t Ht ->%list_elem_of_singleton. by apply Hnc, HC.
  - intros t Ht. rewrite lookup_insert. case_decide; [by eexists |]. rewrite structs_app in Ht.
    apply elem_of_app in Ht as [Ht | ->%list_elem_of_singleton]; [by apply HC | done].
  - intros t u Ht Hr Hsu. rewrite structs_app, elem_of_app. rewrite lookup_insert in Ht. case_decide as Et.
    + subst t. inversion Hr as [| ? v ? Hn Hr']; subst; [right; left | left]. apply Hbelow; [| done]. by eapply tc_rtc_r, Hr'; constructor.
    + left. by apply (HCl t u).
  - by apply before_snoc.
Qed.
(** What one call gives. *)
Definition handled (items : list item) (st st' : MakeAbi) (new : Z -> Prop) : Prop :=
  exists ds, abi_inv st' (items ++ (IStruct <$> ds)) /\ grows st st' new.

Lemma handled_refl items st new : abi_inv st items -> handled items st st new.
Proof using Type. intros HI. exists []. cbn. rewrite app_nil_r. split; [done |]. split; auto. Qed.

Lemma handled_trans items st st1 st2 new1 new2 new :
  handled items st st1 new1 -> (forall ds, abi_inv st1 (items ++ (IStruct <$> ds)) -> handled (items ++ (IStruct <$> ds)) st1 st2 new2) ->
  (forall t, new1 t -> new t) -> (forall t, new2 t -> new t) -> handled items st st2 new.
Proof using Type.
  intros (ds & HI1 & G1 & G1') H2 N1 N2. destruct (H2 ds HI1) as (ds2 & HI2 & G2 & G2'). exists (ds ++ ds2).
  rewrite fmap_app, app_assoc. split; [done |]. split; [auto |]. intros t [Ht | Ht]%G2'; [apply G1' in Ht as [? | ?]; auto | auto].
Qed.

Definition handle_good (H : MakeAbi -> Z -> option Z -> res (string * MakeAbi)) : Prop :=
  forall st N d s st' items, H st N (Some d) = Ok (s, st') -> abi_inv st items ->
    named d s /\ cached st' d /\ handled items st st' (rtc needs d).

Lemma handle_all_good H : handle_good H -> forall ts st ss st' items,
  handle_all H st ts = Ok (ss, st') -> abi_inv st items ->
  Forall2 named ts ss /\ (forall t, t ∈ ts -> cached st' t) /\ handled items st st' (fun u => exists t, t ∈ ts /\ rtc needs t u).
Proof using Type.
  intros HG ts. induction ts as [| t ts IH]; intros st ss st' items; cbn [handle_all].
  { intros [= <- <-] HI. split; [constructor |]. split; [by intros t ?%not_elem_of_nil |]. by apply handled_refl. }
  intros ([s st1] & H1 & HO)%bind_ok HI. apply bind_ok in HO as ([ss' st2] & H2 & [= <- <-]).
  destruct (HG _ _ _ _ _ _ H1 HI) as (Hs & Hc & HH).
  assert (forall ds, abi_inv st1 (items ++ (IStruct <$> ds)) ->
    Forall2 named ts ss' /\ (forall u, u ∈ ts -> cached st2 u) /\
    handled (items ++ (IStruct <$> ds)) st1 st2 (fun u => exists t, t ∈ ts /\ rtc needs t u)) as HT by (intros ds HI1; by apply (IH st1)).
  pose proof HH as (ds & HI1 & _). destruct (HT ds HI1) as (HF & HcT & (? & _ & G2 & _)).
  split; [by constructor |]. split.
  - intros u [-> | Hu]%elem_of_cons; [by apply G2 | auto].
  - eapply handled_trans; [exact HH | intros ds' HI'; exact (proj2 (proj2 (HT ds' HI'))) | |].
    + intros u Hu. exists t. split; [left | done].
    + intros u (v & Hv & Hr). exists v. split; [by right | done].
Qed.

Lemma handle_is_good f : handle_good (handle f).
Proof using Type.
  induction f as [| f IH]; intros st N d s st' items; [done |]. cbn [handleType].
  destruct (TypeMap st !! d) as [s0 |] eqn:Ed.
  { intros [= <- <-] HI. split; [by apply (ai_names _ _ HI) |]. split; [by exists s0 |]. by apply handled_refl. }
  intros ([s1 st1] & H1 & [= <- <-])%bind_ok HI.
  destruct (handleType__inv (handle f) (handleType_null f) _ _ _ _ H1) as [sh Hsh].
  rewrite (handleType__shape (handle f) (handleType_node f) st N d sh Hsh) in H1.
  apply bind_ok in H1 as ([ss st2] & H1 & [= <- <-]). destruct (handle_all_good _ IH _ _ _ _ _ H1 HI) as (HF & Hc & ds & HI2 & G1 & G2).
  assert (named d (shape_name sh ss)) as Hd by by econstructor. split; [done |].
  split; [unfold cached; cbn [TypeMap]; rewrite lookup_insert_eq; by eexists |].
  assert (~ cached st2 d) as Hnc.
  { intros [[s' Hs'] | (t & Ht & Hr)]%G2; [congruence |]. apply (named_no_cycle d _ Hd).
    eapply tc_rtc_r; [| exact Hr]. constructor. by exists sh. }
  assert (forall t, needs d t -> cached st2 t) as Hu.
  { intros t (sh' & Hsh' & Ht). rewrite Hsh in Hsh'. injection Hsh' as <-. auto. }
  assert (forall st3, TypeMap st3 = TypeMap st2 -> grows st (mkAbi (contents st3) (<[d := shape_name sh ss]> (TypeMap st3))) (rtc needs d)) as HG.
  { intros st3 E3. unfold grows, cached. cbn [TypeMap]. rewrite E3. split; intros t; rewrite lookup_insert; case_decide as Et.
    - by eexists.
    - apply G1.
    - subst t. right. constructor.
    - intros [Ht | (u & Hu' & Hr)]%G2; [by left | right]. eapply rtc_l; [| exact Hr]. by exists sh. }
  unfold emit in *. destruct (shape_entry sh) as [e |] eqn:Ee.
  - exists (ds ++ [d]). rewrite fmap_app, app_assoc. split; [| by apply HG]. cbn [contents TypeMap push_back].
    by apply (inv_struct st2 (items ++ (IStruct <$> ds)) d sh e ss).
  - exists ds. split; [| by apply HG]. apply inv_name; try done.
    intros (sh' & e & Hsh' & He). rewrite Hsh in Hsh'. injection Hsh' as <-. congruence.
Qed.
(** *** Termination *)

Definition answers (f : nat) (d : Z) (s : string) : Prop :=
  forall st N items, abi_inv st items -> exists st', handle f st N (Some d) = Ok (s, st').

Lemma answers_all f ts ss : Forall2 (answers f) ts ss ->
  forall st items, abi_inv st items -> exists st', handle_all (handle f) st ts = Ok (ss, st').
Proof using Type.
  induction 1 as [| t s ts ss Ht _ IH]; intros st items HI; [by exists st |]. cbn [handle_all].
  destruct (Ht st 0 items HI) as [st1 E]. rewrite E. destruct (handle_is_good f _ _ _ _ _ _ E HI) as (_ & _ & ds & HI1 & _).
  destruct (IH st1 _ HI1) as [st2 E2]. exists st2. cbn. by rewrite E2.
Qed.

Lemma answers_step f d sh ss : shape_of d = Some sh -> Forall2 (answers f) (uses sh) ss -> answers (S f) d (shape_name sh ss).
Proof using Type.
  intros Hsh HA st N items HI. cbn [handleType]. destruct (TypeMap st !! d) as [s |] eqn:Ed.
  - exists st. do 2 f_equal. apply (named_fun d); [by apply (ai_names _ _ HI) |]. econstructor; [done |].
    destruct (answers_all f _ _ HA st items HI) as [st' E].
    by destruct (handle_all_good _ (handle_is_good f) _ _ _ _ _ E HI) as (HF & _).
  - rewrite (handleType__shape (handle f) (handleType_node f) st N d sh Hsh). unfold by_shape.
    destruct (answers_all f _ _ HA st items HI) as [st' ->]. cbn. by eexists.
Qed.

Lemma enough_fuel d s : named d s -> exists f0, forall f, (f0 <= f)%nat -> answers f d s.
Proof using Type.
  intros H. induction H as [d sh ss Hsh _ IH] using named_nested_ind.
  assert (exists f0, forall f, (f0 <= f)%nat -> Forall2 (answers f) (uses sh) ss) as [f0 Hf0].
  { clear Hsh. induction IH as [| t s ts ss' [f1 H1] _ [f2 H2]]; [by exists O; constructor |].
    exists (Nat.max f1 f2). intros f Hf. constructor; [apply H1 | apply H2]; lia. }
  exists (S f0). intros [| f] Hf; [lia |]. apply answers_step; [done |]. apply Hf0. lia.
Qed.

(** With less fuel there is no wrong answer. *)
Definition no_wrong (f : nat) (d : Z) : Prop :=
  forall st N items, abi_inv st items -> handle f st N (Some d) = Fuel \/ exists r, handle f st N (Some d) = Ok r.

Lemma no_wrong_all f ts : Forall (no_wrong f) ts -> forall st items, abi_inv st items ->
  handle_all (handle f) st ts = Fuel \/ exists r, handle_all (handle f) st ts = Ok r.
Proof using Type.
  induction 1 as [| t ts Ht _ IH]; intros st items HI; [right; by eexists |]. cbn [handle_all].
  destruct (Ht st 0 items HI) as [-> | [[s st1] E]]; [by left |]. rewrite E.
  destruct (handle_is_good f _ _ _ _ _ _ E HI) as (_ & _ & ds & HI1 & _). cbn.
  destruct (IH st1 _ HI1) as [-> | [[ss st2] ->]]; [by left | right; by eexists].
Qed.

Lemma named_no_wrong d s : named d s -> forall f, no_wrong f d.
Proof using Type.
  intros H. induction H as [d sh ss Hsh _ IH] using named_nested_ind. intros [| f] st N items HI; [by left |]. cbn [handleType].
  destruct (TypeMap st !! d); [right; by eexists |]. rewrite (handleType__shape (handle f) (handleType_node f) st N d sh Hsh). unfold by_shape.
  destruct (no_wrong_all f (uses sh)) with (st := st) (items := items) as [-> | [[ss' st1] ->]]; [| done | by left | right; by eexists].
  apply Forall_forall. intros t Ht. apply list_elem_of_lookup in Ht as [i Hi].
  by destruct (Forall2_lookup_l _ _ _ _ _ IH Hi) as (s' & _ & Hs').
Qed.

Lemma handle_all_app (H : MakeAbi -> Z -> option Z -> res (string * MakeAbi)) l r : forall st,
  handle_all H st (l ++ r) =
  ('(ss1, st1) ← handle_all H st l; '(ss2, st2) ← handle_all H st1 r; Ok (ss1 ++ ss2, st2)).
Proof using Type.
  induction l as [| t l IH]; intros st; cbn [app handle_all].
  - cbn. by destruct (handle_all H st r) as [[ss st2] | | | |].
  - destruct (H st 0 (Some t)) as [[s st1] | | | |]; try done. cbn. rewrite IH.
    destruct (handle_all H st1 l) as [[ss1 st2] | | | |]; try done. cbn. by destruct (handle_all H st2 r) as [[ss2 st3] | | | |].
Qed.

(** Types that contain each other, behind members that have names. *)
Definition recursive_types (C : Z -> Prop) : Prop :=
  forall d, C d -> exists sh l t r, shape_of d = Some sh /\ uses sh = l ++ t :: r /\ Forall (fun u => exists s, named u s) l /\ C t.

Lemma recursive_not_named C : recursive_types C -> forall d s, named d s -> ~ C d.
Proof using Type.
  intros HC d s H%named_acc. induction H as [d _ IH]. intros Hd. destruct (HC d Hd) as (sh & l & t & r & Hsh & Hu & _ & Ht).
  apply (IH t); [| done]. exists sh. split; [done |]. rewrite Hu. apply elem_of_app. right. left.
Qed.

Lemma recursive_runs_on C : recursive_types C -> forall f d st N items, C d -> abi_inv st items -> handle f st N (Some d) = Fuel.
Proof using Type.
  intros HC f. induction f as [| f IH]; intros d st N items Hd HI; [done |]. cbn [handleType].
  destruct (TypeMap st !! d) as [s |] eqn:Ed; [by destruct (recursive_not_named C HC d s (ai_names _ _ HI d s Ed)) |].
  destruct (HC d Hd) as (sh & l & t & r & Hsh & Hu & Hl & Ht).
  rewrite (handleType__shape (handle f) (handleType_node f) st N d sh Hsh). unfold by_shape. rewrite Hu, handle_all_app.
  destruct (no_wrong_all f l) with (st := st) (items := items) as [-> | [[ss' st1] E]]; [| done | done |].
  { eapply Forall_impl; [exact Hl |]. intros u [s Hs]. by apply (named_no_wrong u s). }
  rewrite E. cbn. destruct (handle_all_good _ (handle_is_good f) _ _ _ _ _ E HI) as (_ & _ & ds & HI1 & _).
  by rewrite (IH t st1 0 _ Ht HI1).
Qed.
End Items.
End Types.
