(* ===== verification/AbiModule.v ===== *)
(** * Theorems about the ABI of a module

    The annotations of each function, its parameters, and the whole list of objects. *)

From stdpp Require Import relations sorting.
From S2P Require Import Prelude Abi AbiFacts.

(** ** std::map<DISubprogram*, Attr> *)

Lemma sp_find_assign m SP a SP' : sp_find (sp_assign m SP a) SP' = if SP' =? SP then Some a else sp_find m SP'.
Proof.
  induction m as [| [k b] m IH]; cbn [sp_assign sp_find]; [done |].
  destruct (Z.ltb_spec SP k); [done |]. destruct (Z.eqb_spec SP k) as [<- |]; cbn [sp_find].
  - by destruct (Z.eqb_spec SP' SP).
  - rewrite IH. destruct (Z.eqb_spec SP' k), (Z.eqb_spec SP' SP); done || lia.
Qed.

Abbreviation sp_sorted m := (StronglySorted Z.lt (fst <$> m : list Z)).

Lemma sp_assign_keys m SP a k : k ∈ (fst <$> sp_assign m SP a : list Z) -> k = SP \/ k ∈ (fst <$> m : list Z).
Proof.
  induction m as [| [k' b] m IH]; cbn [sp_assign]; [intros ->%list_elem_of_singleton; by left |].
  destruct (SP <? k'); [cbn; rewrite !elem_of_cons; tauto |]. destruct (SP =? k'); cbn; rewrite !elem_of_cons; tauto.
Qed.

Lemma sp_assign_sorted m SP a : sp_sorted m -> sp_sorted (sp_assign m SP a).
Proof.
  induction m as [| [k b] m IH]; cbn [sp_assign]; [by repeat constructor |]. intros HS. inversion HS as [| ? ? HS' HF]; subst.
  destruct (Z.ltb_spec SP k); [| destruct (Z.eqb_spec SP k) as [<- |]]; cbn [fmap list_fmap fst].
  - constructor; [done |]. constructor; [cbn; lia |]. eapply Forall_impl; [exact HF |]. cbn. lia.
  - by constructor.
  - constructor; [auto |]. apply Forall_forall. intros k' [-> | Hk]%sp_assign_keys; [cbn; lia | by apply (proj1 (Forall_forall _ _) HF)].
Qed.

Lemma sp_find_in m SP a : sp_sorted m -> (SP, a) ∈ m -> sp_find m SP = Some a.
Proof.
  induction m as [| [k b] m IH]; intros HS; [by intros ?%not_elem_of_nil |]. inversion HS as [| ? ? HS' HF]; subst. cbn [sp_find].
  intros [[= <- <-] | Hin]%elem_of_cons; [by rewrite Z.eqb_refl |].
  assert (k < SP) by (apply (proj1 (Forall_forall _ _) HF), list_elem_of_fmap; by exists (SP, a)).
  destruct (Z.eqb_spec SP k); [lia | auto].
Qed.

Lemma sorted_keys_NoDup (l : list Z) : StronglySorted Z.lt l -> NoDup l.
Proof.
  induction 1 as [| k l _ IH HF]; constructor; [| done]. intros Hin.
  apply (proj1 (Forall_forall _ _) HF) in Hin. lia.
Qed.

Section Module.
Context (nodes : gmap Z DINode) (getAsInteger : string -> option Z).

(** ** Annotations *)

Abbreviation parse := (parseAttr getAsInteger).

(** The annotations of a function that mean something. *)
Definition kinds_of (SP : Z) (annotes : list Value) : list Attr :=
  omap (fun cs => if getFuncInfo nodes cs =? SP then
                    match parse (getAnnoteKind cs) with Ok (OtherKind, _) => None | Ok a => Some a | _ => None end
                  else None) annotes.

Definition constant (a : Attr) : bool := negb (a.2 =? 0).

(** What they amount to. *)
Definition merged (kinds : list Attr) (r : option Attr) : Prop :=
  match r with
  | None => kinds = []
  | Some (ActionKind, c) => kinds <> [] /\ Forall (fun a => a.1 = ActionKind) kinds /\ c = if existsb constant kinds then 1 else 0
  | Some (EventKind, n) => kinds <> [] /\ Forall (eq (EventKind, n)) kinds
  | Some (OtherKind, _) => False
  end.

Lemma parse_bit Kind c : parse Kind = Ok (ActionKind, c) -> c = 0 \/ c = 1.
Proof.
  unfold parseAttr. destruct (String.eqb _ _); [intros [= <-]; by left |]. destruct (String.eqb _ _); [intros [= <-]; by right |].
  destruct (startswith _ _); [| done]. destruct (getAsInteger _); [| done]. by destruct (_ <? _).
Qed.

Lemma merged_snoc kinds r a r' :
  merged kinds r -> a.1 <> OtherKind -> (a.1 = ActionKind -> a.2 = 0 \/ a.2 = 1) ->
  match r with None => Ok a | Some a0 => DedupKind a0 a end = Ok r' -> merged (kinds ++ [a]) (Some r').
Proof.
  intros HM Ha Hb. destruct r as [[k0 n0] |].
  - destruct a as [k n]. unfold DedupKind. cbn [fst snd] in *. destruct k0, k; try done; cbn [merged] in *.
    + intros [= <-]. destruct HM as (Hne & HF & ->). split; [by destruct kinds |]. split; [apply Forall_app; by split; [| constructor] |].
      rewrite existsb_app. cbn [existsb]. rewrite orb_false_r. change (constant (ActionKind, n)) with (negb (n =? 0)).
      destruct (existsb constant kinds); cbn; [done |]. by destruct (n =? 0).
    + destruct (Z.eqb_spec n0 n) as [<- |]; [| done]. intros [= <-]. destruct HM as (Hne & HF). split; [by destruct kinds |].
      apply Forall_app. by split; [| constructor].
  - cbn in HM. subst kinds. destruct a as [k n]. cbn [fst snd] in *. intros [= <-]. destruct k; cbn; [| split; [done | by constructor] | done].
    split; [done |]. split; [by constructor |]. unfold constant. cbn. by destruct (Hb eq_refl) as [-> | ->].
Qed.

Lemma kinds_snoc SP l cs : kinds_of SP (l ++ [cs]) = kinds_of SP l ++ kinds_of SP [cs].
Proof. apply omap_app. Qed.

Definition map_ok (annotes : list Value) (m : SubprogramMap) : Prop :=
  sp_sorted m /\ forall SP, merged (kinds_of SP annotes) (sp_find m SP).

Lemma collect_one_ok l cs m m' : map_ok l m -> collect_one nodes getAsInteger m cs = Ok m' -> map_ok (l ++ [cs]) m'.
Proof.
  intros [HS HM]. unfold collect_one. intros (attr & HP & HO)%bind_ok. set (SP := getFuncInfo nodes cs) in *.
  assert (forall SP', kinds_of SP' [cs] = if SP =? SP' then match attr.1 with OtherKind => [] | _ => [attr] end else []) as EK.
  { intros SP'. unfold kinds_of. cbn. fold SP. destruct (SP =? SP'); [| done]. rewrite HP. by destruct attr as [[] ?]. }
  assert (attr.1 = ActionKind -> attr.2 = 0 \/ attr.2 = 1) as Hb.
  { destruct attr as [k n]. cbn. intros ->. by apply (parse_bit (getAnnoteKind cs)). }
  assert (attr.1 <> OtherKind -> (match sp_find m SP with
      | Some attr0 => attr' ← DedupKind attr0 attr; Ok (sp_assign m SP attr')
      | None => Ok (sp_assign m SP attr) end) = Ok m' -> map_ok (l ++ [cs]) m') as Hmain.
  { intros Hk HO'. assert (exists r', match sp_find m SP with None => Ok attr | Some a0 => DedupKind a0 attr end = Ok r' /\ m' = sp_assign m SP r') as (r' & HR & ->).
    { destruct (sp_find m SP); [apply bind_ok in HO' as (r' & HR & [= <-]) | injection HO' as <-]; by eexists. }
    split; [by apply sp_assign_sorted |]. intros SP'. rewrite kinds_snoc, EK, sp_find_assign, (Z.eqb_sym SP SP').
    destruct (Z.eqb_spec SP' SP) as [-> |]; [| by rewrite app_nil_r].
    replace (match attr.1 with OtherKind => [] | _ => [attr] end) with [attr] by by destruct attr as [[] ?].
    by apply (merged_snoc _ (sp_find m SP)). }
  destruct attr as [[] n]; cbn [fst] in *; [by apply Hmain | by apply Hmain |]. injection HO as <-. split; [done |].
  intros SP'. rewrite kinds_snoc, EK. destruct (_ =? _); by rewrite app_nil_r.
Qed.

Lemma collect_loop_ok annotes : forall l m m', map_ok l m -> collect_loop nodes getAsInteger m annotes = Ok m' -> map_ok (l ++ annotes) m'.
Proof.
  induction annotes as [| cs annotes IH]; intros l m m' HM; cbn [collect_loop]; [intros [= <-]; by rewrite app_nil_r |].
  intros (m1 & H1 & H2)%bind_ok. rewrite cons_middle, app_assoc. apply (IH _ m1); [| done]. by eapply collect_one_ok.
Qed.

Lemma collectAnnote_sorted annote m : collectAnnote nodes getAsInteger annote = Ok m -> sp_sorted m.
Proof.
  destruct annote as [[| | | [[]|] | | | |] |]; cbn; try done; try (intros [= <-]; constructor).
  intros H. apply (collect_loop_ok ops [] [] m); [split; [constructor | done] | exact H].
Qed.

Lemma map_ok_nil : map_ok [] [].
Proof. split; [constructor | done]. Qed.
End Module.

Section Functions.
Context (nodes : gmap Z DINode).

(** ** Parameters *)

(** The number and the function of a local variable, as its metadata says. Arguments are
    numbered from 1, which is [this]. *)
Definition arg_number (LV : Z) : Z :=
  match nodes !! LV with Some (DILocalVariable _ _ arg _) => arg | _ => 0 end.

Definition function_of (LV : Z) : option Z :=
  match nodes !! LV with Some (DILocalVariable _ scope _ _) => Some scope | _ => None end.

Definition retained_by (SP : Z) : list Z :=
  match nodes !! SP with Some (DISubprogram _ _ _ retained) => retained | _ => [] end.

(** What the calls of the two debug intrinsics are about. *)
Context (dbg_declare dbg_value : option (list (option Z))).

Definition described (users : option (list (option Z))) (SP : Z) : list Z :=
  filter (fun LV => function_of LV = Some SP) (omap id (default [] users)).

(** The variables that may be a parameter of the function: those its node retains, then those
    of the function that the intrinsics describe. *)
Definition candidates (SP : Z) : list Z :=
  filter (fun LV => 1 < arg_number LV)
    (retained_by SP ++ described dbg_declare SP ++ described dbg_value SP).

(** The parameter at place [k] is the last of them that has its number. *)
Definition argument (SP : Z) (k : nat) : option Z :=
  last (filter (fun LV => arg_number LV = Z.of_nat k + 2) (candidates SP)).

(** All the parameters; the function's type lists its result and [this] before them. *)
Definition arguments (SP : Z) : list (option Z) :=
  match nodes !! SP with
  | Some (DISubprogram _ _ type _) =>
      match nodes !! type with
      | Some (DISubroutineType TRA) => argument SP <$> seq 0 (Z.to_nat (u32 (len TRA - 2)))
      | _ => []
      end
  | _ => []
  end.

Lemma cast_LV_ok LV r : cast_DILocalVariable nodes LV = Ok r ->
  exists name scope arg T, r = (name, scope, arg, T) /\ nodes !! LV = Some (DILocalVariable name scope arg T).
Proof.
  unfold cast_DILocalVariable, node. destruct (nodes !! LV) as [[] |] eqn:E; try done. intros [= <-]. by repeat eexists.
Qed.

Lemma cast_SP_ok SP r : cast_DISubprogram nodes SP = Ok r ->
  exists name scope type retained, r = (name, scope, type, retained) /\ nodes !! SP = Some (DISubprogram name scope type retained).
Proof.
  unfold cast_DISubprogram, node. destruct (nodes !! SP) as [[] |] eqn:E; try done. intros [= <-]. by repeat eexists.
Qed.

Lemma cast_LV_number LV r : cast_DILocalVariable nodes LV = Ok r ->
  arg_number LV = r.1.2 /\ function_of LV = Some r.1.1.2.
Proof using Type.
  intros (name & scope & arg & T & -> & E)%cast_LV_ok. unfold arg_number, function_of. by rewrite E.
Qed.

Lemma params_of_app P Q SP : params_of (P ++ Q) SP = params_of P SP ++ params_of Q SP.
Proof using Type. unfold params_of. by rewrite filter_app, fmap_app. Qed.

Lemma params_of_snoc P SP LV SP' :
  params_of (P ++ [(SP, LV)]) SP' = params_of P SP' ++ (if decide (SP = SP') then [LV] else []).
Proof using Type.
  rewrite params_of_app. unfold params_of at 2. rewrite filter_cons. cbn. by destruct (decide (SP = SP')).
Qed.

(** The variables a node retains. *)
Lemma retained_loop_ok SP Ns : forall P P', retained_loop nodes SP Ns P = Ok P' ->
  forall SP', params_of P' SP' = params_of P SP' ++ (if decide (SP = SP') then filter (fun LV => 1 < arg_number LV) Ns else []).
Proof using Type.
  induction Ns as [| LV Ns IH]; intros P P'; cbn [retained_loop].
  { intros [= <-] SP'. rewrite filter_nil. destruct (decide (SP = SP')); by rewrite app_nil_r. }
  intros ([[[name scope] arg] T] & [En _]%cast_LV_number & HO)%bind_ok SP'. cbn in En. specialize (IH _ _ HO SP').
  rewrite IH, filter_cons, En. destruct (Z.ltb_spec 1 arg).
  - rewrite params_of_snoc, (decide_True (P := 1 < arg)) by done. destruct (decide (SP = SP')); [by rewrite <- app_assoc | by rewrite !app_nil_r].
  - by rewrite (decide_False (P := 1 < arg)) by lia.
Qed.

Lemma collectRetained_ok m : forall P P', NoDup (m.*1 : list Z) -> collectRetainedNodes nodes m P = Ok P' ->
  forall SP, params_of P' SP = params_of P SP ++ (if decide (SP ∈ (m.*1 : list Z)) then filter (fun LV => 1 < arg_number LV) (retained_by SP) else []).
Proof using Type.
  induction m as [| [SP0 a] m IH]; intros P P' HN; cbn [collectRetainedNodes].
  { intros [= <-] SP. rewrite decide_False by apply not_elem_of_nil. by rewrite app_nil_r. }
  apply NoDup_cons in HN as [Hni HN].
  intros (r & (name & scope & type & retained & -> & E)%cast_SP_ok & HO)%bind_ok SP.
  apply bind_ok in HO as (P1 & H1 & H2). rewrite (IH P1 P' HN H2), (retained_loop_ok _ _ _ _ H1 SP), <- app_assoc.
  assert (retained_by SP0 = retained) as ER by (unfold retained_by; by rewrite E).
  f_equal. cbn in Hni. destruct (decide (SP0 = SP)) as [<- |].
  - rewrite (decide_False _ _ Hni), decide_True by left. by rewrite app_nil_r, ER.
  - cbn. destruct (decide (SP ∈ m.*1)); [rewrite decide_True by by right | rewrite decide_False by (intros [|]%elem_of_cons; done)]; done.
Qed.

(** The variables of one function among those an intrinsic describes. *)
Lemma users_loop_ok m SP attr users : forall P P',
  sp_find m SP = Some attr -> (exists name scope type retained, nodes !! SP = Some (DISubprogram name scope type retained)) ->
  users_loop nodes m users P = Ok P' ->
  params_of P' SP = params_of P SP ++ filter (fun LV => 1 < arg_number LV) (described (Some users) SP).
Proof using Type.
  intros P P' Hm (name0 & scope0 & type0 & retained0 & E0). revert P P'.
  induction users as [| [LV |] users IH]; intros P P'; cbn [users_loop].
  - intros [= <-]. cbn. by rewrite app_nil_r.
  - intros ([[[name scope] arg] T] & [En Ef]%cast_LV_number & HO)%bind_ok. cbn in En, Ef.
    assert (described (Some (Some LV :: users)) SP = (if decide (scope = SP) then [LV] else []) ++ described (Some users) SP) as ED.
    { unfold described. cbn [default omap list_omap id]. rewrite filter_cons, Ef.
      destruct (decide (scope = SP)) as [-> |]; [by rewrite decide_True | by rewrite decide_False by congruence]. }
    rewrite ED, filter_app. destruct (Z.ltb_spec 1 arg).
    + apply bind_ok in HO as (n & Hn & HO). unfold node in Hn.
      destruct (decide (scope = SP)) as [-> | Hne].
      * rewrite E0 in Hn. injection Hn as <-. rewrite Hm in HO. rewrite (IH _ _ HO), params_of_snoc, decide_True by done.
        rewrite filter_cons_True by (rewrite En; done). by rewrite <- app_assoc.
      * rewrite filter_nil. cbn [app]. destruct n; try by apply IH. destruct (sp_find m scope); [| by apply IH].
        by rewrite (IH _ _ HO), params_of_snoc, decide_False, app_nil_r by done.
    + rewrite (IH _ _ HO). destruct (decide (scope = SP)); [| done]. by rewrite filter_cons_False by (rewrite En; lia).
  - apply IH.
Qed.

Lemma collectParams_ok m SP attr users P P' :
  sp_find m SP = Some attr -> (exists name scope type retained, nodes !! SP = Some (DISubprogram name scope type retained)) ->
  collectParams nodes users m P = Ok P' ->
  params_of P' SP = params_of P SP ++ filter (fun LV => 1 < arg_number LV) (described users SP).
Proof using Type.
  intros Hm E. destruct users as [users |]; [by apply users_loop_ok with (attr := attr) |].
  cbn. intros [= <-]. by rewrite app_nil_r.
Qed.

(** The two passes over the module collect the candidates. *)
Lemma params_candidates m P0 P1 P2 SP attr :
  sp_sorted m -> (SP, attr) ∈ m -> (exists name scope type retained, nodes !! SP = Some (DISubprogram name scope type retained)) ->
  collectRetainedNodes nodes m [] = Ok P0 -> collectParams nodes dbg_declare m P0 = Ok P1 ->
  collectParams nodes dbg_value m P1 = Ok P2 -> params_of P2 SP = candidates SP.
Proof using Type.
  intros HS Hin E H0 H1 H2. pose proof (sp_find_in m SP attr HS Hin) as Hm.
  rewrite (collectParams_ok m SP attr _ _ _ Hm E H2), (collectParams_ok m SP attr _ _ _ Hm E H1).
  rewrite (collectRetained_ok m [] P0) by (done || by apply sorted_keys_NoDup).
  rewrite decide_True by (apply list_elem_of_fmap; by exists (SP, attr)).
  unfold candidates. by rewrite !filter_app, <- app_assoc.
Qed.

(** Each slot holds the last variable of its number. *)
Lemma export_loop_ok LVs : forall Ps Ps', export_loop nodes LVs Ps = Ok Ps' ->
  length Ps' = length Ps /\ forall k, (k < length Ps)%nat ->
    Ps' !! k = match last (filter (fun LV => arg_number LV = Z.of_nat k + 2) LVs) with
               | Some LV => Some (Some LV) | None => Ps !! k end.
Proof using Type.
  induction LVs as [| LV LVs IH]; intros Ps Ps'; cbn [export_loop]; [by intros [= <-] |].
  intros ([[[name scope] arg] T] & [En _]%cast_LV_number & HO)%bind_ok. cbn in En.
  destruct (Z.leb_spec 2 arg); [| done]. destruct (Z.ltb_spec (arg - 2) (len Ps)); [| done]. cbn [andb] in HO.
  apply IH in HO as [HL HK]. rewrite length_insert in HL, HK. split; [done |]. intros k Hk. rewrite (HK k Hk), filter_cons, En.
  destruct (decide (arg = Z.of_nat k + 2)) as [-> | Hne].
  - rewrite last_cons. destruct (last _); [done |]. replace (Z.to_nat (Z.of_nat k + 2 - 2)) with k by lia.
    by rewrite list_lookup_insert_eq by lia.
  - destruct (last _); [done |]. by rewrite list_lookup_insert_ne by lia.
Qed.

Lemma exportParams_ok SP PMap LVs : exportParams nodes SP PMap = Ok LVs -> params_of PMap SP = candidates SP ->
  LVs = arguments SP.
Proof using Type.
  unfold exportParams. intros (r & (name & scope & type & retained & -> & En)%cast_SP_ok & HO)%bind_ok EC.
  apply bind_ok in HO as (n & _ & HO). destruct n; try done. apply bind_ok in HO as (TRA & HT & HO).
  unfold type_array, node in HT. destruct (nodes !! type) as [[] |] eqn:ET; try done. injection HT as ->.
  rewrite EC in HO. apply export_loop_ok in HO as [HL HK]. rewrite length_replicate in HL, HK.
  unfold arguments. rewrite En, ET. apply list_eq. intros k. rewrite list_lookup_fmap.
  destruct (decide (k < Z.to_nat (u32 (len TRA - 2)))%nat) as [Hk | Hk].
  - rewrite (HK k Hk), lookup_seq_lt by done. cbn [fmap option_fmap option_map]. unfold argument. cbn [Nat.add].
    destruct (last _); [done |]. by apply lookup_replicate_2.
  - rewrite lookup_seq_ge by lia. by apply lookup_ge_None_2; lia.
Qed.

Lemma exportParams_SP SP PMap LVs : exportParams nodes SP PMap = Ok LVs ->
  exists name scope type retained, nodes !! SP = Some (DISubprogram name scope type retained).
Proof using Type.
  unfold exportParams. intros (r & (name & scope & type & retained & -> & En)%cast_SP_ok & _)%bind_ok. by repeat eexists.
Qed.

(** ** The objects of functions *)

Context (SPMap : SubprogramMap).

Definition param_ok (LV : option Z) (v : json) : Prop :=
  exists V name scope arg T s, LV = Some V /\ nodes !! V = Some (DILocalVariable name scope arg (Some T)) /\ named nodes T s /\
    v = JObject [("name", JString name); ("type", JString s)].

Definition result_ok (RetType : option Z) (s : string) : Prop :=
  match RetType with Some T => named nodes T s | None => s = "void" end.

(** The object of an action or an event, as its annotations, parameters and return type say. *)
Definition fun_ok (SP : Z) (v : json) : Prop :=
  exists name scope type retained RetType TRA attr Params,
    nodes !! SP = Some (DISubprogram name scope type retained) /\ nodes !! type = Some (DISubroutineType (RetType :: TRA)) /\
    (SP, attr) ∈ SPMap /\ Forall2 param_ok (arguments SP) Params /\
    match attr.1 with
    | ActionKind => exists Ret, result_ok RetType Ret /\
        v = JObject [("name", JString name); ("input", JArray Params); ("output", JString Ret); ("type", JString "Action");
                     ("constant", JBool (constant attr))]
    | _ => RetType = None /\
        v = JObject [("name", JString name); ("input", JArray Params); ("type", JString "Event"); ("topic", JInt attr.2);
                     ("anonymous", JBool false)]
    end.

(** The types of its parameters and its result. *)
Definition type_of_variable (LV : option Z) : option Z :=
  V ← LV; match nodes !! V with Some (DILocalVariable _ _ _ T) => T | _ => None end.

Definition result_type (SP : Z) : option Z :=
  match nodes !! SP with
  | Some (DISubprogram _ _ type _) => match nodes !! type with Some (DISubroutineType (RetType :: _)) => RetType | _ => None end
  | _ => None
  end.

Definition fun_types (SP : Z) : list Z :=
  omap type_of_variable (arguments SP) ++ option_list (result_type SP).

Abbreviation inv := (abi_inv nodes fun_ok fun_types).
Abbreviation handled := (handled nodes fun_ok fun_types).

Lemma cached_mono items st st' new t : handled items st st' new -> cached st t -> cached st' t.
Proof using Type. intros (ds & _ & G & _). apply G. Qed.

Lemma handled_weaken items st st' (new : Z -> Prop) : handled items st st' new -> handled items st st' (fun _ => True).
Proof using Type. intros (ds & HI & G1 & G2). exists ds. split; [done |]. split; [done |]. intros t Ht. destruct (G2 t Ht); auto. Qed.

Lemma params_loop_ok f LVs : forall st Ps r st' items,
  params_loop nodes f st LVs Ps = Ok (r, st') -> inv st items ->
  exists Params, r = Ps ++ Params /\ Forall2 param_ok LVs Params /\ handled items st st' (fun _ => True) /\
    forall t, t ∈ omap type_of_variable LVs -> cached st' t.
Proof using Type.
  induction LVs as [| LV LVs IH]; intros st Ps r st' items; cbn [params_loop].
  { intros [= <- <-] HI. exists []. rewrite app_nil_r. split; [done |]. split; [constructor |]. split; [by apply handled_refl |].
    by intros t ?%not_elem_of_nil. }
  destruct LV as [V |]; [| done]. intros (x & Hx & HO)%bind_ok HI. apply cast_LV_ok in Hx as (name & scope & arg & T & -> & En).
  apply bind_ok in HO as ([elem st1] & HE & HO). unfold handleElem in HE. apply bind_ok in HE as ([s st0] & HH & HE).
  apply bind_ok in HE as (nm & Hn & [= <- <-]). unfold getName, node in Hn. rewrite En in Hn. cbn in Hn. injection Hn as <-.
  destruct T as [T |]; [| by apply handleType_null in HH].
  destruct (handle_is_good nodes fun_ok fun_types f _ _ _ _ _ _ HH HI) as (Hs & Hc & Hd). pose proof Hd as (ds & HI0 & _).
  destruct (IH _ _ _ _ _ HO HI0) as (Params & -> & HF & Hd2 & HC).
  exists (JObject [("name", JString name); ("type", JString s)] :: Params). rewrite <- app_assoc. split; [done |].
  split; [constructor; [by exists V, name, scope, arg, T, s | done] |]. split.
  - eapply handled_trans; [exact Hd | | done | done]. intros ds' HI'. destruct (IH _ _ _ _ _ HO HI') as (? & _ & _ & Hd' & _). exact Hd'.
  - intros t Ht. cbn [omap list_omap] in Ht. unfold type_of_variable at 1 in Ht. cbn in Ht. rewrite En in Ht.
    apply elem_of_cons in Ht as [-> | Ht]; [by eapply cached_mono | auto].
Qed.

Lemma inv_function st items SP v :
  inv st items -> fun_ok SP v -> (forall t, t ∈ fun_types SP -> cached st t) -> inv (push_back st v) (items ++ [IFunction SP]).
Proof using Type.
  intros [HN HO HD HC HCl HB] Hv Ht. assert (structs (items ++ [IFunction SP]) = structs items) as E by (rewrite structs_app; apply app_nil_r).
  split; rewrite ?E; try done.
  - apply Forall2_app; [done |]. by constructor.
  - apply before_snoc; [done |]. intros t (u & Hu & Hr) Hst. apply (HCl u t); auto.
Qed.

Lemma handleSubprogram_ok f st SP LVs attr st' items :
  handleSubprogram nodes f st SP LVs attr = Ok st' -> inv st items -> (SP, attr) ∈ SPMap -> LVs = arguments SP ->
  exists ds, inv st' (items ++ (IStruct <$> ds) ++ [IFunction SP]).
Proof using Type.
  unfold handleSubprogram. intros ([Params st1] & H1 & HO)%bind_ok HI Hin HE. apply bind_ok in HO as ([v st2] & H2 & [= <-]).
  destruct (params_loop_ok f LVs _ _ _ _ _ H1 HI) as (Ps & -> & HF & (ds1 & HI1 & G1 & _) & HC1). cbn [app] in *.
  assert (exists name scope type retained RetType TRA, nodes !! SP = Some (DISubprogram name scope type retained) /\
    nodes !! type = Some (DISubroutineType (RetType :: TRA)) /\
    (if bool_decide (attr.1 = ActionKind)
     then ('(Ret, st2') ← match RetType with Some _ => handleType nodes f st1 SP RetType | None => Ok ("void", st1) end;
           Ok (JObject [("name", JString name); ("input", JArray Ps); ("output", JString Ret); ("type", JString "Action");
                        ("constant", JBool (constant attr))], st2')) = Ok (v, st2)
     else RetType = None /\ st2 = st1 /\
       v = JObject [("name", JString name); ("input", JArray Ps); ("type", JString "Event"); ("topic", JInt attr.2); ("anonymous", JBool false)]))
    as (name & scope & type & retained & RetType & TRA & E1 & E2 & HV).
  { destruct (bool_decide_reflect (attr.1 = ActionKind)); unfold handleAction, handleEvent in H2.
    all: apply bind_ok in H2 as (x & Hx & H2); apply cast_SP_ok in Hx as (name & scope & type & retained & -> & E1).
    all: apply bind_ok in H2 as (RT & HRT & H2); unfold return_type, type_array, node in HRT.
    all: destruct (nodes !! type) as [[] |] eqn:E2; try done; cbn in HRT; destruct typeArray as [| RT0 TRA]; try done; injection HRT as ->.
    all: exists name, scope, type, retained, RT, TRA; split; [done |]; split; [done |].
    - exact H2.
    - destruct RT as [? |]; [by rewrite bool_decide_eq_true_2 in H2 |]. rewrite bool_decide_eq_false_2 in H2 by auto. by injection H2 as <- <-. }
  assert (result_type SP = RetType) as ERT by (unfold result_type; by rewrite E1, E2).
  assert (forall st3 ds2, inv st3 (items ++ (IStruct <$> ds1) ++ (IStruct <$> ds2)) -> (forall t, cached st1 t -> cached st3 t) ->
    (forall T, RetType = Some T -> cached st3 T) -> fun_ok SP v ->
    exists ds, inv (push_back st3 v) (items ++ (IStruct <$> ds) ++ [IFunction SP])) as Hend.
  { intros st3 ds2 HI3 G3 HR Hv. exists (ds1 ++ ds2). rewrite fmap_app, app_assoc. apply inv_function; [done | done |].
    intros t. unfold fun_types. rewrite <- HE, ERT. intros [Ht | Ht]%elem_of_app; [auto |]. destruct RetType as [T |]; cbn in Ht; [| by apply not_elem_of_nil in Ht].
    apply list_elem_of_singleton in Ht as ->. auto. }
  destruct (bool_decide_reflect (attr.1 = ActionKind)) as [Ea | Ea].
  - apply bind_ok in HV as ([Ret st2'] & HRet & [= <- <-]). destruct RetType as [T |].
    + destruct (handle_is_good nodes fun_ok fun_types f _ _ _ _ _ _ HRet HI1) as (Hs & Hc & ds2 & HI2 & G2 & _).
      apply (Hend st2' ds2); [by rewrite app_assoc | done | by intros ? [= <-] |].
      exists name, scope, type, retained, (Some T), TRA, attr, Ps. rewrite <- HE. rewrite Ea. repeat (split; [done |]). by exists Ret.
    + injection HRet as <- <-. apply (Hend st1 []); [by rewrite app_nil_r | done | done |].
      exists name, scope, type, retained, None, TRA, attr, Ps. rewrite <- HE. rewrite Ea. repeat (split; [done |]). by exists "void".
  - destruct HV as (-> & -> & ->). apply (Hend st1 []); [by rewrite app_nil_r | done | done |].
    exists name, scope, type, retained, None, TRA, attr, Ps. rewrite <- HE. repeat (split; [done |]). by destruct attr as [[] ?].
Qed.

Lemma subprograms_loop_ok f PMap m : forall st st' items,
  subprograms_loop nodes f m PMap st = Ok st' -> inv st items -> m ⊆ SPMap ->
  (forall SP attr, (SP, attr) ∈ SPMap ->
     (exists name scope type retained, nodes !! SP = Some (DISubprogram name scope type retained)) -> params_of PMap SP = candidates SP) ->
  exists items', inv st' items' /\ functions items' = functions items ++ (fst <$> m).
Proof using Type.
  induction m as [| [SP attr] m IH]; intros st st' items; cbn [subprograms_loop].
  { intros [= <-] HI _ _. exists items. split; [done |]. by rewrite app_nil_r. }
  intros (LVs & HE & HO)%bind_ok HI Hs HP. apply bind_ok in HO as (st1 & H1 & HO).
  destruct (handleSubprogram_ok f st SP LVs attr st1 items H1 HI) as [ds HI1]; [apply Hs; left | |].
  { apply (exportParams_ok SP PMap); [done |]. apply (HP SP attr); [apply Hs; left | by eapply exportParams_SP]. }
  destruct (IH st1 st' _ HO HI1) as (items' & HI' & EF); [set_solver | done |]. exists items'. split; [done |].
  rewrite EF, !functions_app, functions_fmap. cbn. by rewrite <- app_assoc.
Qed.
End Functions.
(** ** Properties *)

(** C8. The ABI of a module, when the tool writes one: its objects are the functions that carry an annotation, in
    the order of the map, each described by its annotations, its parameters and its return type, and the structs, each
    of them once and before every object that speaks of it; no struct that a parameter, a result or another struct
    needs is missing. The parameters of a function are as many as its type has after [this], in the order of their
    numbers: the one at a place is the last variable with that number among those the function's node retains and
    those that the calls of llvm.dbg.declare and llvm.dbg.value describe; a variable that such a call describes counts
    for the function it is declared in and for no other. *)
Theorem abi_of_module nodes getAsInteger f annote dbg_declare dbg_value st :
  makeAbi nodes getAsInteger f annote dbg_declare dbg_value abi_new = Ok st ->
  exists SPMap items,
    collectAnnote nodes getAsInteger annote = Ok SPMap /\ functions items = SPMap.*1 /\
    abi_inv nodes (fun_ok nodes dbg_declare dbg_value SPMap) (fun_types nodes dbg_declare dbg_value) st items.
Proof.
  unfold makeAbi. intros (SPMap & HS & HO)%bind_ok. destruct (length SPMap =? 0)%nat; [done |].
  apply bind_ok in HO as (P0 & H0 & HO). apply bind_ok in HO as (P1 & H1 & HO). apply bind_ok in HO as (PMap & H2 & HO).
  pose proof (collectAnnote_sorted nodes getAsInteger annote SPMap HS) as HK.
  destruct (subprograms_loop_ok nodes dbg_declare dbg_value SPMap f PMap SPMap abi_new st [] HO) as (items & HI & EF);
    [apply inv_new | done | |].
  - intros SP attr Hin HE. by apply (params_candidates nodes dbg_declare dbg_value SPMap P0 P1 PMap SP attr).
  - by exists SPMap, items.
Qed.

(** C33. The attributes of the functions: a function is in the map when it has an annotation that means something;
    it is a constant action when one of its annotations is "Const", an event when all of them name the same number of
    topics, and a function with annotations of both kinds, or events of different numbers, gets no ABI at all. *)
Theorem annotations_merged nodes getAsInteger annotes m :
  collectAnnote nodes getAsInteger (Some (GlobalVariable (Some (ConstantArray annotes)))) = Ok m ->
  StronglySorted Z.lt m.*1 /\ forall SP, merged (kinds_of nodes getAsInteger SP annotes) (sp_find m SP).
Proof. intros H. apply (collect_loop_ok nodes getAsInteger annotes [] [] m); [apply map_ok_nil | exact H]. Qed.

(** C32. The cache changes no name: whatever it holds, [handleType] can answer a name for a type exactly when the type
    has that name by its metadata alone. *)
Theorem type_names nodes fun_ok fun_types st items N d s :
  abi_inv nodes fun_ok fun_types st items ->
  (exists f st', handleType nodes f st N (Some d) = Ok (s, st')) <-> named nodes d s.
Proof.
  intros HI. split.
  - intros (f & st' & E). by destruct (handle_is_good nodes fun_ok fun_types f _ _ _ _ _ _ E HI).
  - intros H. destruct (enough_fuel nodes fun_ok fun_types d s H) as [f0 Hf]. exists f0. by apply (Hf f0 ltac:(done) st N items).
Qed.

(** C34. A type that contains itself, behind members that have names, sends [handleType] into an endless recursion:
    the cache is filled only after the members are done. *)
Theorem recursive_type_never_ends nodes fun_ok fun_types C f d st N items :
  recursive_types nodes C -> C d -> abi_inv nodes fun_ok fun_types st items -> handleType nodes f st N (Some d) = Fuel.
Proof. intros HC Hd HI. by apply (recursive_runs_on nodes fun_ok fun_types C HC f d st N items). Qed.

(** ** Examples *)

(** A contract class (1) with the action [add(int n, vector<Item> items) -> bool], declared [CONST] too, where
    [struct Item { int a; Item2 b; }] and [struct Item2 { char c; }], and the event [moved(int n)]. *)
Definition sample : gmap Z DINode := list_to_map [
  (1, DICompositeType DW_TAG_class_type "Contract" "_ZTS8Contract" None None);
  (2, DIBasicType DW_ATE_signed 32); (3, DIBasicType DW_ATE_boolean 8); (4, DIBasicType DW_ATE_signed_char 8);
  (5, DICompositeType DW_TAG_structure_type "Item2" "_ZTS5Item2" None (Some [6]));
  (6, DIDerivedType DW_TAG_member "c" (Some 4));
  (7, DICompositeType DW_TAG_structure_type "Item" "_ZTS4Item" None (Some [8; 9]));
  (8, DIDerivedType DW_TAG_member "a" (Some 2)); (9, DIDerivedType DW_TAG_member "b" (Some 5));
  (10, DICompositeType DW_TAG_class_type "vector<Item>" "_ZTSNSt3__16vectorI4ItemNS_9allocatorIS1_EEEE" (Some [11]) None);
  (11, DITemplateTypeParameter (Some 7));
  (20, DISubprogram "add" 1 21 [23; 22]); (21, DISubroutineType [Some 3; Some 12; Some 2; Some 10]);
  (22, DILocalVariable "n" 20 2 (Some 2)); (23, DILocalVariable "items" 20 3 (Some 10));
  (30, DISubprogram "moved" 1 31 []); (31, DISubroutineType [None; Some 12; Some 2]); (32, DILocalVariable "n" 30 2 (Some 2));
  (12, DIDerivedType DW_TAG_pointer_type "" (Some 1))].

Definition annotation (SP : Z) (kind : string) : Value :=
  ConstantStruct [ConstantExpr [Function (Some SP)]; ConstantExpr [GlobalVariable (Some (ConstantDataArray kind))]].
Definition sample_annotes : list Value := [annotation 30 "Event1"; annotation 20 "Action"; annotation 20 "Const"].
Definition one_digit (s : string) : option Z := if String.eqb s "1" then Some 1 else None.

Definition sample_abi : list json :=
  let field n t := JObject [("name", JString n); ("type", JString t)] in
  [JObject [("name", JString "Item2"); ("type", JString "struct"); ("baseclass", JArray []); ("fields", JArray [field "c" "int8"])];
   JObject [("name", JString "Item"); ("type", JString "struct"); ("baseclass", JArray []);
            ("fields", JArray [field "a" "int32"; field "b" "Item2"])];
   JObject [("name", JString "add"); ("input", JArray [field "n" "int32"; field "items" "Item[]"]); ("output", JString "bool");
            ("type", JString "Action"); ("constant", JBool true)];
   JObject [("name", JString "moved"); ("input", JArray [field "n" "int32"]); ("type", JString "Event"); ("topic", JInt 1);
            ("anonymous", JBool false)]].

Definition sample_run : res MakeAbi :=
  makeAbi sample one_digit 10 (Some (GlobalVariable (Some (ConstantArray sample_annotes)))) (Some [Some 32; None]) None abi_new.

Lemma sample_runs : exists st, sample_run = Ok st /\ contents st = sample_abi.
Proof. eexists. split; vm_compute; reflexivity. Qed.

Lemma abi_of_module_witness : exists st, sample_run = Ok st /\ contents st = sample_abi /\
  arguments sample (Some [Some 32; None]) None 20 = [Some 22; Some 23] /\
  exists SPMap items, functions items = [20; 30] /\
    abi_inv sample (fun_ok sample (Some [Some 32; None]) None SPMap) (fun_types sample (Some [Some 32; None]) None) st items.
Proof.
  destruct sample_runs as (st & E & EC). exists st. split; [exact E |]. split; [exact EC |].
  split; [vm_compute; reflexivity |].
  destruct (abi_of_module sample one_digit 10 _ _ _ st E) as (SPMap & items & HS & EF & HI).
  exists SPMap, items. split; [| exact HI]. rewrite EF. vm_compute in HS. injection HS as <-. reflexivity.
Defined.

Lemma annotations_merged_witness : exists m,
  collectAnnote sample one_digit (Some (GlobalVariable (Some (ConstantArray sample_annotes)))) = Ok m /\
  merged (kinds_of sample one_digit 20 sample_annotes) (Some (ActionKind, 1)).
Proof.
  eexists. assert (collectAnnote sample one_digit (Some (GlobalVariable (Some (ConstantArray sample_annotes)))) =
                   Ok [(20, (ActionKind, 1)); (30, (EventKind, 1))]) as E by (vm_compute; reflexivity).
  split; [exact E |]. exact (proj2 (annotations_merged sample one_digit sample_annotes _ E) 20).
Defined.

Lemma type_names_witness : exists f st', handleType sample f abi_new 0 (Some 10) = Ok ("Item[]", st').
Proof.
  assert (exists st', handleType sample 10 abi_new 0 (Some 10) = Ok ("Item[]", st')) as [st' E] by (eexists; vm_compute; reflexivity).
  apply (type_names sample (fun _ _ => True) (fun _ => []) abi_new [] 0 10 "Item[]" (inv_new _ _ _)).
  apply (type_names sample (fun _ _ => True) (fun _ => []) abi_new [] 0 10 "Item[]" (inv_new _ _ _)). by exists 10%nat, st'.
Defined.

(** [struct Node { int value; vector<Node> children; }]. *)
Definition tree : gmap Z DINode := list_to_map [
  (1, DICompositeType DW_TAG_structure_type "Node" "_ZTS4Node" None (Some [2; 3]));
  (2, DIDerivedType DW_TAG_member "value" (Some 4)); (3, DIDerivedType DW_TAG_member "children" (Some 5));
  (4, DIBasicType DW_ATE_signed 32);
  (5, DICompositeType DW_TAG_class_type "vector<Node>" "_ZTSNSt3__16vectorI4NodeNS_9allocatorIS1_EEEE" (Some [6]) None);
  (6, DITemplateTypeParameter (Some 1))].

Lemma tree_recursive : recursive_types tree (fun d => d = 1 \/ d = 5).
Proof.
  intros d [-> | ->].
  - eexists _, [4], 5, []. split; [vm_compute; reflexivity |]. split; [done |]. split; [| by right].
    constructor; [| done]. exists "int32". by apply (Named tree 4 (leaf "int32") []).
  - eexists _, [], 1, []. split; [vm_compute; reflexivity |]. split; [done |]. split; [done | by left].
Qed.

Lemma recursive_type_never_ends_witness : handleType tree 1000 abi_new 0 (Some 1) = Fuel.
Proof.
  apply (recursive_type_never_ends tree (fun _ _ => True) (fun _ => []) (fun d => d = 1 \/ d = 5) 1000 1 abi_new 0 []);
    [apply tree_recursive | by left | apply inv_new].
Defined.

(** Two structs called [Point] in two namespaces: two objects under one name. *)
Lemma same_name_structs :
  let nodes : gmap Z DINode := list_to_map [
    (1, DICompositeType DW_TAG_structure_type "Point" "_ZTSN1a5PointE" None (Some [3]));
    (2, DICompositeType DW_TAG_structure_type "Point" "_ZTSN1b5PointE" None (Some []));
    (3, DIDerivedType DW_TAG_member "inner" (Some 2))] in
  exists st, handleType nodes 5 abi_new 0 (Some 1) = Ok ("Point", st) /\
    contents st = [JObject [("name", JString "Point"); ("type", JString "struct"); ("baseclass", JArray []); ("fields", JArray [])];
                   JObject [("name", JString "Point"); ("type", JString "struct"); ("baseclass", JArray []);
                            ("fields", JArray [JObject [("name", JString "inner"); ("type", JString "Point")]])]].
Proof. eexists. split; vm_compute; reflexivity. Qed.
