(* ===== verification/Driver.v ===== *)
(** * tools/platon-cpp: the command line and the passes on the code

    [ParseArgs] from clang's list of parsed arguments to the options of the driver and the
    arguments of clang and the linker; the pass that refuses floating point and the one
    that drops attributes. clang's option table, the file system and the linker are
    parameters or left out. *)

From S2P Require Import Prelude.

(** ** class PCCOption *)

(** The options the driver looks at; any other one goes to clang. *)
Inductive opt := OPT_INPUT | OPT_help | OPT_S | OPT_nostdlib | OPT_o | OPT_L | OPT_l | OPT_Wl_COMMA | OPT_other.

(** clang's [Arg]: the option, its values, the text [render] gives. *)
Record Arg := mkArg { getOption : opt; getValues : list string; rendered : list string }.

Record PCCOption := mkOption {
  InputFiles : list string; Output : string; NoABI : bool; Help : bool; OutputIR : bool;
  ldArgs : list string; clangUserArgs : list string; clangArgs : list string
}.

(** What [ParseArgs] keeps while it reads: the object and [NoStdlib]. *)
Abbreviation parsing := (PCCOption * bool)%type.

Definition option_new : PCCOption := mkOption [] "" false false false [] [] [].

(** [A->getValue()]: the first value. *)
Definition getValue (A : Arg) : res string := match getValues A with v :: _ => Ok v | [] => Undef "getValue" end.

Definition add_input (o : PCCOption) (v : string) : PCCOption :=
  mkOption (InputFiles o ++ [v]) (Output o) (NoABI o) (Help o) (OutputIR o) (ldArgs o) (clangUserArgs o) (clangArgs o).
Definition set_output (o : PCCOption) (v : string) : PCCOption :=
  mkOption (InputFiles o) v (NoABI o) (Help o) (OutputIR o) (ldArgs o) (clangUserArgs o) (clangArgs o).
Definition set_help (o : PCCOption) : PCCOption :=
  mkOption (InputFiles o) (Output o) (NoABI o) true (OutputIR o) (ldArgs o) (clangUserArgs o) (clangArgs o).
Definition set_ir (o : PCCOption) : PCCOption :=
  mkOption (InputFiles o) (Output o) (NoABI o) (Help o) true (ldArgs o) (clangUserArgs o) (clangArgs o).
Definition set_no_abi (o : PCCOption) : PCCOption :=
  mkOption (InputFiles o) (Output o) true (Help o) (OutputIR o) (ldArgs o) (clangUserArgs o) (clangArgs o).
Definition add_ld (o : PCCOption) (l : list string) : PCCOption :=
  mkOption (InputFiles o) (Output o) (NoABI o) (Help o) (OutputIR o) (ldArgs o ++ l) (clangUserArgs o) (clangArgs o).
Definition add_user (o : PCCOption) (l : list string) : PCCOption :=
  mkOption (InputFiles o) (Output o) (NoABI o) (Help o) (OutputIR o) (ldArgs o) (clangUserArgs o ++ l) (clangArgs o).
Definition add_clang (o : PCCOption) (l : list string) : PCCOption :=
  mkOption (InputFiles o) (Output o) (NoABI o) (Help o) (OutputIR o) (ldArgs o) (clangUserArgs o) (clangArgs o ++ l).

(** The values of [-Wl,]. *)
Fixpoint wl_loop (o : PCCOption) (values : list string) : PCCOption :=
  match values with
  | [] => o
  | v :: values' => wl_loop (if String.eqb v "-no-abi" then set_no_abi o else add_ld o [v]) values'
  end.

Definition parse_one (p : parsing) (A : Arg) : res parsing :=
  let '(o, NoStdlib) := p in
  match getOption A with
  | OPT_INPUT => v ← getValue A; Ok (add_input o v, NoStdlib)
  | OPT_help => Ok (set_help o, NoStdlib)
  | OPT_S => Ok (set_ir o, NoStdlib)
  | OPT_nostdlib => Ok (o, true)
  | OPT_o => v ← getValue A; Ok (set_output o v, NoStdlib)
  | OPT_L => v ← getValue A; Ok (add_ld o ["-L"; v], NoStdlib)
  | OPT_l => v ← getValue A; Ok (add_ld o ["-l"; v], NoStdlib)
  | OPT_Wl_COMMA => Ok (wl_loop o (getValues A), NoStdlib)
  | OPT_other => Ok (add_user o (rendered A), NoStdlib)
  end.

Fixpoint parse_loop (p : parsing) (Args : list Arg) : res parsing :=
  match Args with [] => Ok p | A :: Args' => p' ← parse_one p A; parse_loop p' Args' end.

Definition clang_fixed : list string :=
  ["--target=wasm32-wasm"; "-fno-rtti"; "-fno-builtin"; "-nostdlib"; "-ffreestanding"; "-fno-threadsafe-statics";
   "-fno-exceptions"; "-flto"; "-Werror=return-type"; "-std=c++17"; "-g"; "-DNDEBUG"; "-DBOOST_DISABLE_ASSERTS";
   "-DBOOST_EXCEPTION_DISABLE"; "-Oz"; "-I."].

Section Driver.
(** The directory of the executable, the file system, [path::stem]. *)
Context (bindir : string) (exists_file : string -> bool) (stem : string -> string).

Definition AdjustClangArgs (o : PCCOption) (NoStdlib : bool) : PCCOption :=
  let o1 := add_clang o clang_fixed in
  let includedir := bindir +:+ "/../platon.cdt/include/" in
  let o2 := if NoStdlib then o1
            else add_clang o1 ["-I"; includedir +:+ "libcxx"; "-I"; includedir +:+ "libc"; "-I"; includedir] in
  add_clang o2 (clangUserArgs o2).

Definition AdjustLLDArgs (o : PCCOption) (NoStdlib : bool) : PCCOption :=
  let libdir := bindir +:+ "/../platon.cdt/lib/" in
  let ExternSymbolFile := libdir +:+ "extern_symbol" in
  let o1 := if NoStdlib then o else add_ld o ["-L"; libdir; "-lmalloc"; "-lc"; "-lc++"; "-lbuiltins"; "-lplatonlib"] in
  if exists_file ExternSymbolFile then add_ld o1 ["--allow-undefined-file=" +:+ ExternSymbolFile] else o1.

(** The name of the output when none is given. *)
Definition default_output (o : PCCOption) : string :=
  let suffix := if OutputIR o then ".ll" else ".wasm" in
  let prefix := match InputFiles o with [f] => stem f | _ => "link" end in
  prefix +:+ suffix.

(** The answer and the object; [false] after the help text or the complaint about missing input files. *)
Definition ParseArgs (o : PCCOption) (Args : list Arg) : res (bool * PCCOption) :=
  let o0 := mkOption (InputFiles o) (Output o) false false false (ldArgs o) (clangUserArgs o) (clangArgs o) in
  '(o1, NoStdlib) ← parse_loop (o0, false) Args;
  if Help o1 then Ok (false, o1)
  else if (length (InputFiles o1) =? 0)%nat then Ok (false, o1)
  else
    let o2 := if String.eqb (Output o1) "" then set_output o1 (default_output o1) else o1 in
    Ok (true, AdjustLLDArgs (AdjustClangArgs o2 NoStdlib) NoStdlib).

(** The command line of the linker, with the temporary file of [GenerateWASM]. *)
Definition lld_command (o : PCCOption) (TempPath : string) : list string :=
  ["platon-cpp"; "-L."] ++ ldArgs o ++
  ["--strip-all"; "--no-threads"; "--lto-O3"; "--gc-sections"; "--merge-data-segments"; "--compress-relocations"; "-O3";
   "--entry"; "invoke"; "--export=__wasm_call_ctors"; "--export=__funcs_on_exit"; TempPath; "-o"; Output o].
End Driver.

(** ** The passes *)

(** LLVM's types, as far as the pass asks. *)
Inductive Type_ := FloatTy | DoubleTy | OtherTy.

(** An instruction: the type of its result, those of its operands, its location. *)
Record Instruction := mkInst { getType : Type_; operandTypes : list Type_; debugLoc : option (string * Z) }.

Record Function_ := mkFunction {
  subprogram : option (string * Z);
  returnType : Type_; params : list Type_;
  blocks : list (list Instruction);
  OptimizeNone : bool; NoInline : bool
}.

Definition is_float (T : Type_) : bool := match T with FloatTy | DoubleTy => true | OtherTy => false end.

(** The place is only printed. *)
Definition assertFloat (T : Type_) (file : string) (line : Z) : res unit :=
  if is_float T then Panic "can not use float or double type" else Ok tt.

Fixpoint each {A} (f : A -> res unit) (l : list A) : res unit :=
  match l with [] => Ok tt | x :: l' => _ ← f x; each f l' end.

Definition checkFunctionType (DI : string * Z) (F : Function_) : res unit :=
  _ ← assertFloat (returnType F) DI.1 DI.2; each (fun T => assertFloat T DI.1 DI.2) (params F).

Definition checkInstruction (Inst : Instruction) : res unit :=
  match debugLoc Inst with
  | Some (file, line) => assertFloat (getType Inst) file line
  | None => assertFloat (getType Inst) "" 0
  end.

(** [cast] of the function's metadata; [false]: nothing is changed. *)
Definition disable_floats (F : Function_) : res bool :=
  match subprogram F with
  | None => Undef "cast"
  | Some DI => _ ← checkFunctionType DI F; _ ← each (each checkInstruction) (blocks F); Ok false
  end.

(** [AttrCounter] counts the functions changed. *)
Definition remove_attrs (F : Function_) (AttrCounter : Z) : bool * Function_ * Z :=
  if negb (OptimizeNone F) && negb (NoInline F) then (false, F, AttrCounter)
  else (true, mkFunction (subprogram F) (returnType F) (params F) (blocks F) false false, AttrCounter + 1).

(** ** The command line *)

(** What one argument adds to each list. *)
Definition inputs_of (A : Arg) : list string := match getOption A with OPT_INPUT => ztake 1 (getValues A) | _ => [] end.
Definition outputs_of (A : Arg) : list string := match getOption A with OPT_o => ztake 1 (getValues A) | _ => [] end.
Definition users_of (A : Arg) : list string := match getOption A with OPT_other => rendered A | _ => [] end.
Definition ld_of (A : Arg) : list string :=
  match getOption A with
  | OPT_L => "-L" :: ztake 1 (getValues A)
  | OPT_l => "-l" :: ztake 1 (getValues A)
  | OPT_Wl_COMMA => filter (fun v => v <> "-no-abi") (getValues A)
  | _ => []
  end.
Definition wants_no_abi (A : Arg) : bool :=
  match getOption A with OPT_Wl_COMMA => existsb (fun v => String.eqb v "-no-abi") (getValues A) | _ => false end.
Definition is_opt (k : opt) (A : Arg) : bool :=
  match k, getOption A with
  | OPT_help, OPT_help | OPT_S, OPT_S | OPT_nostdlib, OPT_nostdlib => true
  | _, _ => false
  end.

(** clang gives the options that need a value one. *)
Definition arg_ok (A : Arg) : Prop :=
  match getOption A with OPT_INPUT | OPT_o | OPT_L | OPT_l => getValues A <> [] | _ => True end.

Definition gathered (o : PCCOption) (Args : list Arg) : PCCOption :=
  mkOption (InputFiles o ++ (Args ≫= inputs_of)) (default (Output o) (last (Args ≫= outputs_of)))
    (NoABI o || existsb wants_no_abi Args) (Help o || existsb (is_opt OPT_help) Args) (OutputIR o || existsb (is_opt OPT_S) Args)
    (ldArgs o ++ (Args ≫= ld_of)) (clangUserArgs o ++ (Args ≫= users_of)) (clangArgs o).

Lemma wl_loop_spec vs : forall o,
  wl_loop o vs = mkOption (InputFiles o) (Output o) (NoABI o || existsb (fun v => String.eqb v "-no-abi") vs) (Help o) (OutputIR o)
                   (ldArgs o ++ filter (fun v => v <> "-no-abi") vs) (clangUserArgs o) (clangArgs o).
Proof.
  induction vs as [| v vs IH]; intros o; cbn [wl_loop existsb].
  - rewrite filter_nil, app_nil_r, orb_false_r. by destruct o.
  - rewrite IH, filter_cons. destruct (String.eqb_spec v "-no-abi") as [-> | Hne]; case_decide; try done; cbn.
    + by rewrite orb_true_r.
    + by rewrite <- app_assoc.
Qed.

Lemma parse_loop_spec Args : Forall arg_ok Args -> forall o NoStdlib,
  parse_loop (o, NoStdlib) Args = Ok (gathered o Args, NoStdlib || existsb (is_opt OPT_nostdlib) Args).
Proof.
  induction 1 as [| A Args HA _ IH]; intros o ns; cbn [parse_loop].
  { unfold gathered. cbn. rewrite !app_nil_r, !orb_false_r. by destruct o. }
  assert (forall o' ns', parse_one (o, ns) A = Ok (o', ns') -> gathered o' Args = gathered o (A :: Args) ->
    ns' || existsb (is_opt OPT_nostdlib) Args = ns || existsb (is_opt OPT_nostdlib) (A :: Args) ->
    (p' ← parse_one (o, ns) A; parse_loop p' Args) = Ok (gathered o (A :: Args), ns || existsb (is_opt OPT_nostdlib) (A :: Args))) as Hstep.
  { intros o' ns' -> E1 E2. cbn. by rewrite IH, E1, E2. }
  unfold parse_one, getValue in *. unfold arg_ok in HA. destruct A as [k vs rd]; cbn [getOption getValues rendered] in *.
  destruct k; try (destruct vs as [| v vs]; [done |]); cbn [mbind res_bind] in *; (eapply Hstep; [done | | ]); unfold gathered; cbn; try done.
  all: rewrite ?wl_loop_spec; cbn; rewrite <- ?app_assoc, ?orb_true_r, ?orb_assoc; try done.
  - f_equal. change (ztake 1 (v :: vs)) with [v]. cbn [app]. rewrite last_cons. by destruct (last (Args ≫= outputs_of)).
Qed.

Section CommandLine.
Context (bindir : string) (exists_file : string -> bool) (stem : string -> string).

Definition include_args : list string :=
  let includedir := bindir +:+ "/../platon.cdt/include/" in
  ["-I"; includedir +:+ "libcxx"; "-I"; includedir +:+ "libc"; "-I"; includedir].
Definition library_args : list string :=
  ["-L"; bindir +:+ "/../platon.cdt/lib/"; "-lmalloc"; "-lc"; "-lc++"; "-lbuiltins"; "-lplatonlib"].
Definition symbol_args : list string :=
  let file := (bindir +:+ "/../platon.cdt/lib/") +:+ "extern_symbol" in
  if exists_file file then ["--allow-undefined-file=" +:+ file] else [].

(** C38. What the driver makes of a command line: with a help option or without an input file it goes no further;
    else the inputs are compiled with the fixed arguments, the toolchain's headers and then every argument it does
    not know, in their order; the linker gets the libraries asked for in their order, before the toolchain's own;
    both of the toolchain's parts are missing with -nostdlib; the output is the last -o, or named after the only
    input. *)
Theorem command_line Args :
  Forall arg_ok Args ->
  let o := gathered option_new Args in
  let nostd := existsb (is_opt OPT_nostdlib) Args in
  ParseArgs bindir exists_file stem option_new Args =
    if existsb (is_opt OPT_help) Args || bool_decide (Args ≫= inputs_of = []) then Ok (false, o)
    else Ok (true, mkOption (Args ≫= inputs_of)
      (if bool_decide (Output o = "") then default_output stem o else Output o) (existsb wants_no_abi Args) false
      (existsb (is_opt OPT_S) Args)
      ((Args ≫= ld_of) ++ (if nostd then [] else library_args) ++ symbol_args) (Args ≫= users_of)
      (clang_fixed ++ (if nostd then [] else include_args) ++ (Args ≫= users_of))).
Proof.
  intros HA o nostd. unfold ParseArgs. rewrite (parse_loop_spec Args HA). cbn [mbind res_bind orb].
  change (mkOption _ _ false false false _ _ _) with option_new. fold o nostd.
  change (existsb (is_opt OPT_help) Args) with (Help o). change (Args ≫= inputs_of) with (InputFiles o).
  destruct (Help o) eqn:EH; [done |]. cbn [orb].
  destruct (InputFiles o) as [| f fs] eqn:EI; [done |]. rewrite bool_decide_eq_false_2 by done. cbn [length Nat.eqb].
  set (out := if bool_decide (Output o = "") then _ else _).
  assert ((if (Output o =? "")%string then set_output o (default_output stem o) else o) =
          mkOption (f :: fs) out (NoABI o) false (OutputIR o) (ldArgs o) (clangUserArgs o) (clangArgs o)) as ->.
  { subst out. destruct (String.eqb_spec (Output o) "") as [E | E].
    - rewrite bool_decide_eq_true_2 by done. unfold set_output. by rewrite EI, EH.
    - rewrite bool_decide_eq_false_2 by done. rewrite <- EI, <- EH. by destruct o. }
  unfold AdjustLLDArgs, AdjustClangArgs, symbol_args, library_args, include_args.
  cbv zeta. unfold add_ld, add_clang. destruct nostd, (exists_file _); cbn; rewrite ?app_nil_r, <- ?app_assoc; done.
Qed.
End CommandLine.

Lemma command_line_witness :
  ParseArgs "/bin" (fun _ => false) (fun _ => "a") option_new
    [mkArg OPT_INPUT ["a.cpp"] []; mkArg OPT_Wl_COMMA ["-no-abi"; "-x"] []; mkArg OPT_other [] ["-DX"]; mkArg OPT_nostdlib [] []] =
  Ok (true, mkOption ["a.cpp"] "a.wasm" true false false ["-x"] ["-DX"] (clang_fixed ++ ["-DX"])).
Proof.
  etransitivity; [apply (command_line "/bin" (fun _ => false) (fun _ => "a")); repeat constructor; done |]. vm_compute. reflexivity.
Defined.

(** ** The passes *)

Lemma check_each_spec {A} (f : A -> res unit) (P : A -> bool) l :
  (forall x, f x = if P x then Panic "can not use float or double type" else Ok tt) ->
  each f l = if existsb P l then Panic "can not use float or double type" else Ok tt.
Proof. intros E. induction l as [| x l IH]; [done |]. cbn. rewrite E. destruct (P x); [done |]. exact IH. Qed.

(** A floating point value that the pass sees: the result of an instruction, a parameter, the result. *)
Definition float_seen (F : Function_) : bool :=
  is_float (returnType F) || existsb is_float (params F) || existsb (existsb (fun I => is_float (getType I))) (blocks F).

Lemma disable_floats_spec F DI : subprogram F = Some DI ->
  disable_floats F = if float_seen F then Panic "can not use float or double type" else Ok false.
Proof.
  intros E. unfold disable_floats, float_seen, checkFunctionType. rewrite E.
  rewrite (check_each_spec _ is_float) by done.
  rewrite (check_each_spec _ (existsb (fun I => is_float (getType I)))); [| intros b; apply check_each_spec; intros I; unfold checkInstruction; by destruct (debugLoc I) as [[] |]].
  unfold assertFloat. destruct (is_float (returnType F)); [done |]. cbn. destruct (existsb is_float (params F)); [done |]. cbn.
  by destruct (existsb _ (blocks F)).
Qed.

(** The operands are not looked at: the store of a constant of type double passes. *)
Lemma float_store_passes :
  disable_floats (mkFunction (Some ("a.cpp", 1)) OtherTy [] [[mkInst OtherTy [DoubleTy; OtherTy] None]] false false) = Ok false.
Proof. reflexivity. Qed.

Lemma remove_attrs_spec F n :
  remove_attrs F n =
    (let changed := OptimizeNone F || NoInline F in
     (changed, mkFunction (subprogram F) (returnType F) (params F) (blocks F) false false, if changed then n + 1 else n)).
Proof. destruct F as [sp rt ps bs [] []]; done. Qed.
