(* ===== verification/DriverMain.v ===== *)
(** * tools/platon-cpp: from the command line to the contract

    [main] of [src/tools/platon-cpp/platon-cpp.cpp] with [PCCPass] and the end of
    [GenerateWASM]: compile every file, link the modules, write the ABI, run the passes,
    link, optimise. clang, LLVM, the linker and the file system are the class [Toolchain];
    what the driver does with them, in which order and with which exit status, is
    modelled. *)

From S2P Require Import Prelude Driver.

(** ** Definitions *)

(** [W] is the file system, [Mod] an LLVM module. *)
Class Toolchain (W Mod : Type) := {
  (** [ClangTool::run] of an action on the files, with what the action keeps. *)
  tool_run : (option Mod -> string -> bool * option Mod) -> list string -> option Mod -> Z * option Mod;
  (** [EmitLLVMAction] on a file, with the arguments of clang. *)
  emit_llvm : list string -> string -> option Mod;
  (** The linked module and whether there was an error. *)
  linkModules : Mod -> Mod -> Mod * bool;
  (** The text of a module, an ABI or the bitcode to a file, if it can be opened. *)
  write_ir : W -> string -> Mod -> option W;
  write_abi : W -> string -> string -> option W;
  write_bitcode : W -> string -> Mod -> option W;
  createTemporaryFile : W -> string * W;
  remove_file : W -> string -> W;
  replace_extension : string -> string -> string;
  (** MakeAbi on the module: its text, or a fatal error. *)
  module_abi : Mod -> res string;
  functions : Mod -> list Function_;
  map_functions : (Function_ -> Function_) -> Mod -> Mod;
  (** The internalize pass, with the names to keep. *)
  internalize : (string -> bool) -> Mod -> Mod;
  (** The function and module passes of [AddOptimizationPasses] with its two levels; the
      first is the verifier. *)
  optimization_passes : Z -> Z -> Mod -> res Mod;
  codegen_prepare : Mod -> Mod;
  (** The verifier ends the program on a broken module. *)
  verifier : Mod -> res unit;
  StripDebugInfo : Mod -> Mod;
  lld_link : W -> list string -> bool * W;
  run_system : W -> string -> W
}.

Section Main.
Context {W Mod : Type} `{Toolchain W Mod}.
Context (bindir : string) (exists_file : string -> bool) (stem : string -> string).

(** [BuilderAction::runInvocation]: the first module is kept, the others are linked
    into it. *)
Definition runInvocation (args : list string) (kept : option Mod) (file : string) : bool * option Mod :=
  match emit_llvm args file with
  | None => (false, kept)
  | Some taken =>
      match kept with
      | None => (true, Some taken)
      | Some M => let '(M', Err) := linkModules M taken in (negb Err, Some M')
      end
  end.

Definition OutputIRFile (w : W) (M : Mod) (OutputIRPath : string) : Z * W :=
  match write_ir w OutputIRPath M with None => (1, w) | Some w' => (0, w') end.

Definition GenerateABI (w : W) (WasmOutput : string) (M : Mod) : res W :=
  let abiPath := replace_extension WasmOutput "abi.json" in
  contents ← module_abi M;
  match write_abi w abiPath contents with
  | None => Panic "report_fatal_error"
  | Some w' => Ok w'
  end.

(** All but [invoke] becomes internal before the optimisation; the check for floating
    point comes after it. *)
Definition prepare (M : Mod) : res Mod :=
  let M1 := map_functions (fun F => (remove_attrs F 0).1.2) M in
  let M2 := internalize (fun name => String.eqb name "invoke") M1 in
  M3 ← optimization_passes 2 2 M2;
  Ok (codegen_prepare M3).

Definition PCCPass (M : Mod) : res Mod :=
  M3 ← prepare M;
  _ ← each (fun F => _ ← disable_floats F; Ok tt) (functions M3);
  _ ← verifier M3;
  Ok (StripDebugInfo M3).

Definition GenerateWASM (w : W) (o : PCCOption) (M : Mod) : Z * W :=
  let '(TempPath, w1) := createTemporaryFile w in
  match write_bitcode w1 TempPath M with
  | None => (1, w1)
  | Some w2 =>
      let '(success, w3) := lld_link w2 (lld_command o TempPath) in
      (if success then 0 else 1, remove_file w3 TempPath)
  end.

Definition wasm_opt (o : PCCOption) : string := "wasm-opt -O2 -o " +:+ Output o +:+ " " +:+ Output o.

(** The exit status. Neither the answer of [GenerateABI] nor that of [system] counts. *)
Definition main (w : W) (Args : list Arg) : res (Z * W) :=
  '(parsed, o) ← ParseArgs bindir exists_file stem option_new Args;
  if negb parsed then Ok (0, w)
  else
    let '(failed, built) := tool_run (runInvocation (clangArgs o)) (InputFiles o) None in
    if negb (failed =? 0) then Ok (1, w)
    else
      match built with
      | None => Undef "null module"
      | Some M =>
          if OutputIR o then Ok (OutputIRFile w M (Output o))
          else
            w1 ← (if NoABI o then Ok w else GenerateABI w (Output o) M);
            M' ← PCCPass M;
            let '(result, w2) := GenerateWASM w1 o M' in
            Ok (result, if result =? 0 then run_system w2 (wasm_opt o) else w2)
      end.

(** *** Specification *)

(** [ClangTool::run] as documented: the action on every file in order, 0 if all succeed. *)
Fixpoint run_each {S} (f : S -> string -> bool * S) (files : list string) (s : S) : bool * S :=
  match files with
  | [] => (true, s)
  | file :: files' =>
      let '(ok, s') := f s file in
      let '(oks, s'') := run_each f files' s' in (ok && oks, s'')
  end.

Definition runs_each : Prop :=
  forall f files s, exists code,
    tool_run f files s = (code, (run_each f files s).2) /\
    (code = 0 <-> (run_each f files s).1 = true).

(** The module of some files: compiled one by one and linked in order without error. *)
Inductive linked (args : list string) : list string -> Mod -> Prop :=
| linked_one file M : emit_llvm args file = Some M -> linked args [file] M
| linked_more files file M taken M' :
    linked args files M -> emit_llvm args file = Some taken -> linkModules M taken = (M', false) ->
    linked args (files ++ [file]) M'.

(** A module without floating point where the pass looks. *)
Definition float_free (M : Mod) : Prop := Forall (fun F => float_seen F = false) (functions M).

(** How a run with these options can end with status 0. *)
Inductive finished (w : W) (o : PCCOption) : W -> Prop :=
| finished_ir M w' :
    OutputIR o = true -> linked (clangArgs o) (InputFiles o) M ->
    write_ir w (Output o) M = Some w' -> finished w o w'
| finished_wasm M M3 w1 w2 w3 TempPath w4 :
    OutputIR o = false -> linked (clangArgs o) (InputFiles o) M ->
    (if NoABI o then w1 = w
     else exists abi, module_abi M = Ok abi /\
            write_abi w (replace_extension (Output o) "abi.json") abi = Some w1) ->
    prepare M = Ok M3 -> float_free M3 -> verifier M3 = Ok tt ->
    createTemporaryFile w1 = (TempPath, w2) ->
    write_bitcode w2 TempPath (StripDebugInfo M3) = Some w3 ->
    lld_link w3 (lld_command o TempPath) = (true, w4) ->
    finished w o (run_system (remove_file w4 TempPath) (wasm_opt o)).

(** ** Properties *)

Lemma run_each_snoc {S} (f : S -> string -> bool * S) files file s :
  run_each f (files ++ [file]) s =
  ((run_each f files s).1 && (f (run_each f files s).2 file).1, (f (run_each f files s).2 file).2).
Proof.
  revert s. induction files as [|x files IH]; intros s; cbn [app run_each].
  - destruct (f s file) as [ok s'] eqn:E. cbn. rewrite E. by rewrite andb_true_r.
  - destruct (f s x) as [ok s'] eqn:E. rewrite IH. destruct (run_each f files s'). cbn. by rewrite andb_assoc.
Qed.

(** When every file succeeds the module is the linked one, and there is one. *)
Lemma run_linked args files :
  files <> [] -> (run_each (runInvocation args) files None).1 = true ->
  exists M, (run_each (runInvocation args) files None).2 = Some M /\ linked args files M.
Proof.
  induction files as [|file files IH] using rev_ind; intros Hne HS; [done |].
  rewrite run_each_snoc in *. cbn [fst snd] in *. apply andb_prop in HS as [HS HF].
  destruct (decide (files = [])) as [-> | Hf].
  - cbn [run_each snd] in *. unfold runInvocation in *. destruct (emit_llvm args file) as [M |] eqn:E; [| done].
    exists M. split; [done | by constructor].
  - destruct (IH Hf HS) as (M & EM & HL). rewrite EM in *. unfold runInvocation in *.
    destruct (emit_llvm args file) as [taken |] eqn:E; [| done].
    destruct (linkModules M taken) as [M' Err] eqn:EL. destruct Err; [done |].
    exists M'. split; [done |]. by apply (linked_more args files file M taken M').
Qed.

(** The check of every function. *)
Lemma floats_checked l :
  each (fun F => _ ← disable_floats F; Ok tt) l = Ok tt -> Forall (fun F => float_seen F = false) l.
Proof.
  induction l as [|F l IH]; intros E; [done |]. cbn [each] in E. inv_ok.
  constructor; [| by apply IH]. unfold disable_floats in *.
  destruct (subprogram F) as [DI |] eqn:ES; [| done].
  destruct (float_seen F) eqn:EF; [| done].
  pose proof (disable_floats_spec F DI ES) as HD. rewrite EF in HD. unfold disable_floats in HD. rewrite ES in HD.
  congruence.
Qed.

Lemma parsed_inputs Args o :
  ParseArgs bindir exists_file stem option_new Args = Ok (true, o) -> InputFiles o <> [].
Proof.
  unfold ParseArgs. intros E. inv_ok. destruct x as [o1 NoStdlib].
  destruct (Help o1); inv_ok; [congruence |].
  destruct (Nat.eqb_spec (length (InputFiles o1)) 0) as [HL | HL]; inv_ok; [congruence |].
  intros HI. apply HL. revert HI. unfold AdjustLLDArgs, AdjustClangArgs, add_ld, add_clang, set_output.
  destruct (String.eqb (Output o1) ""), NoStdlib, (exists_file _); cbn; intros ->; done.
Qed.

Lemma PCCPass_ok M M' :
  PCCPass M = Ok M' ->
  exists M3, prepare M = Ok M3 /\ float_free M3 /\ verifier M3 = Ok tt /\ M' = StripDebugInfo M3.
Proof.
  unfold PCCPass. intros E. inv_ok. repeat match goal with x : () |- _ => destruct x end.
  eexists. split_and!; [eassumption | by apply floats_checked | done | done].
Qed.

(** C39. The driver ends with status 0 in two ways only: nothing was to be done (the help
    text, or no input), or every file was compiled, the modules were linked in the order
    of the command line without error and either their text was written or the contract
    was: its ABI unless that was refused, and the linked bitcode of a module that the
    check for floating point and the verifier accepted after the optimisation. *)
Theorem main_outcome (w w' : W) (Args : list Arg) :
  runs_each -> main w Args = Ok (0, w') ->
  (exists o, ParseArgs bindir exists_file stem option_new Args = Ok (false, o) /\ w' = w) \/
  (exists o, ParseArgs bindir exists_file stem option_new Args = Ok (true, o) /\ finished w o w').
Proof.
  intros HR E. unfold main in E.
  destruct (ParseArgs bindir exists_file stem option_new Args) as [[[] o] | | | |] eqn:EP; try done;
    cbn [mbind res_bind negb] in E; [| left; exists o; by simplify_eq].
  right. exists o. split; [done |].
  destruct (HR (runInvocation (clangArgs o)) (InputFiles o) None) as (code & ET & Hcode).
  rewrite ET in E. destruct (Z.eqb_spec code 0) as [Hz | Hne]; cbn [negb] in E; [| by inv_ok].
  destruct (run_linked (clangArgs o) (InputFiles o) (parsed_inputs Args o EP) (proj1 Hcode Hz))
    as (M & EM & HL). rewrite EM in E.
  destruct (OutputIR o) eqn:EI.
  { unfold OutputIRFile in E. destruct (write_ir w (Output o) M) eqn:EW; [| by inv_ok].
    simplify_eq. by apply (finished_ir w o M). }
  inv_ok. destruct (PCCPass_ok M _ ltac:(eassumption)) as (M3 & EP3 & HF & HV & ->).
  unfold GenerateWASM in *. destruct (createTemporaryFile x) as [TempPath w2] eqn:EC.
  destruct (write_bitcode w2 TempPath (StripDebugInfo M3)) as [w3 |] eqn:EB; [| by inv_ok].
  destruct (lld_link w3 (lld_command o TempPath)) as [[] w4] eqn:EL; [| by inv_ok].
  inv_ok. cbn [Z.eqb]. apply (finished_wasm w o M M3 x w2 w3 TempPath w4); try done.
  destruct (NoABI o); [by inv_ok |]. unfold GenerateABI in *. inv_ok.
  destruct (write_abi w _ _) eqn:EW; [| done]. inv_ok. eauto.
Qed.
End Main.

(** A toolchain whose modules are the functions of their files and whose file system is
    the list of what was done. *)
Definition sample_function : Function_ :=
  mkFunction (Some ("a.cpp", 1)) OtherTy [OtherTy] [[mkInst OtherTy [] None]] false false.

#[local] Instance sample_toolchain : Toolchain (list string) (list Function_) := {|
  tool_run f files s := let '(ok, s') := run_each f files s in (if ok : bool then 0 else 1, s');
  emit_llvm _ file := if String.eqb file "bad.cpp" then None else Some [sample_function];
  linkModules M taken := (M ++ taken, false);
  write_ir w path _ := Some (path :: w);
  write_abi w path _ := Some (path :: w);
  write_bitcode w path _ := Some (path :: w);
  createTemporaryFile w := ("tmp", w);
  remove_file w path := ("rm " +:+ path) :: w;
  replace_extension path ext := path +:+ "." +:+ ext;
  module_abi _ := Ok "[]";
  functions M := M;
  map_functions f M := f <$> M;
  internalize _ M := M;
  optimization_passes _ _ M := Ok M;
  codegen_prepare M := M;
  verifier _ := Ok tt;
  StripDebugInfo M := M;
  lld_link w args := (true, "link" :: w);
  run_system w command := command :: w
|}.

Definition sample_args : list Arg := [mkArg OPT_INPUT ["a.cpp"] []; mkArg OPT_INPUT ["b.cpp"] []].

Lemma main_outcome_witness :
  let run := main (W := list string) (Mod := list Function_) "/bin" (fun _ => false) (fun _ => "a") [] in
  let w' := ["wasm-opt -O2 -o link.wasm link.wasm"; "rm tmp"; "link"; "tmp"; "link.wasm.abi.json"] in
  run sample_args = Ok (0, w') /\
  ((exists o, ParseArgs "/bin" (fun _ => false) (fun _ => "a") option_new sample_args = Ok (false, o) /\ w' = []) \/
   exists o, ParseArgs "/bin" (fun _ => false) (fun _ => "a") option_new sample_args = Ok (true, o) /\
     finished (Mod := list Function_) [] o w').
Proof.
  split; [vm_compute; reflexivity |].
  apply (main_outcome "/bin" (fun _ => false) (fun _ => "a") [] _ sample_args); [| vm_compute; reflexivity].
  intros f files s. cbn [tool_run sample_toolchain]. destruct (run_each f files s) as [[] s']; cbn.
  - exists 0. done.
  - exists 1. split; [done |]. split; intros [=].
Defined.

(** A command line without input files is refused, with status 0. *)
Lemma no_input_status {W Mod} `{Toolchain W Mod} bindir exists_file stem (w : W) :
  main bindir exists_file stem w [] = Ok (0, w).
Proof. reflexivity. Qed.

(** The status of the link is 0 or 1. *)
Lemma GenerateWASM_status {W Mod} `{T : Toolchain W Mod} (w : W) o M :
  forall r w2, GenerateWASM w o M = (r, w2) -> r = 0 \/ r = 1.
Proof.
  intros r w2. unfold GenerateWASM. destruct (createTemporaryFile w) as [p w1].
  destruct (write_bitcode w1 p M); [| intros [= <- _]; by right].
  destruct (lld_link _ _) as [[] w3]; intros [= <- _]; [by left | by right].
Qed.
