(* ===== verification/Backend.v ===== *)
(** * Backend.cpp: object code from a module

    [compileModule] writes a module as an object file of its target. Nothing calls it:
    [GenerateWASM] hands bitcode to the linker instead. LLVM's classes are parameters. *)

From Stdlib Require Import String.
From S2P Require Import Prelude.

Open Scope string_scope.

(** ** Definitions *)

(** The fields [InitTargetOptions] sets. *)
Record TargetOptions := mkTargetOptions {
  StackAlignmentOverride : Z;
  GlobalISelAbort : bool;
  UseInitArray : bool;
  CompressDebugSections : bool;
  HardFloatABI : option bool;
  AsmVerbose : bool
}.

(** [GlobalISelAbortMode::Enable], no compression, [FloatABI::Default]. *)
Definition InitTargetOptions : TargetOptions := mkTargetOptions 0 true true false None true.

(** What LLVM does: [Target] is an entry of its registry, [Machine] a target machine. *)
Class CodeGen (W Mod Target Machine : Type) := {
  getTargetTriple : Mod -> string;
  getDefaultTargetTriple : string;
  (** After the WebAssembly targets have been registered. *)
  lookupTarget : string -> option Target;
  createTargetMachine : Target -> string -> TargetOptions -> Machine;
  (** [ToolOutputFile]: an empty file, if it can be opened, that its destructor removes
      unless it is kept. *)
  open_output : W -> string -> option W;
  remove_output : W -> string -> W;
  (** [M->setDataLayout(Target->createDataLayout())], [UpgradeDebugInfo]. *)
  setDataLayout : Machine -> Mod -> Mod;
  UpgradeDebugInfo : Mod -> Mod;
  (** True if the target cannot write object files. *)
  addPassesToEmitFile : Machine -> bool;
  (** [PM.run(M)] with the library functions of a triple: the file is written. *)
  run_passes : W -> string -> Machine -> string -> Mod -> W * Mod
}.

Section CompileModule.
Context {W Mod Target Machine : Type} `{CodeGen W Mod Target Machine}.

(** The status, the file system and the module, which is changed in place. *)
Definition compileModule (w : W) (M : Mod) (TempPath : string) : Z * W * Mod :=
  let triple := getTargetTriple M in
  let TheTriple := if String.eqb triple "" then getDefaultTargetTriple else triple in
  match lookupTarget TheTriple with
  | None => (1, w, M)
  | Some TheTarget =>
      let machine := createTargetMachine TheTarget TheTriple InitTargetOptions in
      match open_output w TempPath with
      | None => (1, w, M)
      | Some w1 =>
          let M1 := UpgradeDebugInfo (setDataLayout machine M) in
          if addPassesToEmitFile machine then (1, remove_output w1 TempPath, M1)
          else let '(w2, M2) := run_passes w1 TempPath machine triple M1 in (0, w2, M2)
      end
  end.

(** ** Properties *)

(** The triple the module is compiled for. *)
Definition target_triple (M : Mod) : string :=
  if String.eqb (getTargetTriple M) "" then getDefaultTargetTriple else getTargetTriple M.

(** A module is compiled, status 0, exactly if its triple has a target that writes objects
    and the file can be opened; else the status is 1 and no file is left behind: either
    nothing was opened or the file was removed. *)
Theorem compile_outcome (w : W) (M : Mod) (TempPath : string) :
  match compileModule w M TempPath with
  | (status, w', M') =>
      (status = 0 /\ exists t w1,
         let machine := createTargetMachine t (target_triple M) InitTargetOptions in
         lookupTarget (target_triple M) = Some t /\ open_output w TempPath = Some w1 /\
         addPassesToEmitFile machine = false /\
         (w', M') = run_passes w1 TempPath machine (getTargetTriple M)
                      (UpgradeDebugInfo (setDataLayout machine M))) \/
      (status = 1 /\
         ((w' = w /\ (lookupTarget (target_triple M) = None \/ open_output w TempPath = None)) \/
          exists w1, open_output w TempPath = Some w1 /\ w' = remove_output w1 TempPath))
  end.
Proof.
  unfold compileModule. fold (target_triple M). destruct (lookupTarget (target_triple M)) as [t |] eqn:ET.
  - destruct (open_output w TempPath) as [w1 |] eqn:EO.
    + set (machine := createTargetMachine t (target_triple M) InitTargetOptions).
      destruct (addPassesToEmitFile machine) eqn:EA.
      * right. split; [done |]. right. by exists w1.
      * destruct (run_passes w1 TempPath machine (getTargetTriple M) _) as [w2 M2] eqn:ER.
        left. split; [done |]. exists t, w1. split_and!; done.
    + right. split; [done |]. left. split; [done | by right].
  - right. split; [done |]. left. split; [done | by left].
Qed.
End CompileModule.
